(* ===== verification/_CoqProject ===== *)
-Q . S2P
Prelude.v
Text.v
Paths.v
Metadata.v
Types.v
Operation.v
Control.v
Health.v
Yaml.v
Diff.v
Mihomo.v
Config.v
Capability.v
RuntimeStore.v
Runtime.v
Manager.v
ManagerSafety.v
ManagerControl.v
Simulation.v
Runs.v
ManagerProps.v
ManagerStatus.v
Log.v
LogProps.v
LogSink.v
LogSinkProps.v
Instance.v
InstanceProps.v
InstanceRuns.v
Executor.v
LogIndex.v
LogIndexProps.v
LogScan.v
LogPage.v
LogPageProps.v
LogSession.v
LogSessionProps.v
Bridge.v
BridgeProps.v
BridgeSystem.v
Events.v
EventsProps.v
Wire.v
Ipc.v
IpcProps.v
ClashApi.v
ClashApiProps.v
Commands.v
CommandsProps.v
Access.v
AccessProps.v
Distribution.v
ClashStream.v
ConfigCodec.v
ConfigCodecProps.v
ManagerBuild.v
ClashClient.v
Server.v
ServerProps.v
Shortcuts.v
TextLines.v
Windows.v
WindowsProps.v
MacDns.v
ApiTypes.v
ApiTypesProps.v
ConfigCheck.v
HostTools.v
