(* ===== verification/Prelude.v ===== *)
(** * Verification of the Nyanpasu runtime

    The program is the privileged service that runs proxy cores (Mihomo,
    clash-rs and their relatives) on behalf of a desktop application.  Its core
    is the crate [nyanpasu-core-manager]: a control plane takes commands from
    hosts, a single executor runs them one after another against an
    orchestrator, the orchestrator launches, replaces and stops one core at a
    time (an _epoch_), each epoch is watched by an instance that probes its
    health and normalizes its console output, and configurations pass through a
    pipeline that decides whether a change can be patched in place or needs a
    new epoch.  Around it, [nyanpasu-service-runtime] offers the control plane
    over two protocols and a stream of events, [nyanpasu_ipc] is the contract
    with its client, [clash-api] the client of a core's controller, and
    [nyanpasu-logging] indexes the log files of the service and serves pages of
    them to sessions.

    ** How the source is modelled

    Functions are executable definitions under the names of the source.  A
    function with effects on a state [S] is an [M S A], that is [S → A * S]; an
    operation that can fail answers a [result] and returns the state all the
    same, because the effects before an error are not undone.  Tasks that run
    concurrently are step relations: one step is what the source does without
    giving up its lock, or one round of a [select!] loop (with the wait for the
    supervisor's acknowledgement inside that round).  Rust strings are their
    UTF-8 bytes; sized integers are [Z], with saturation, wrapping and bounds
    written out where the source has them; durations are nanoseconds.  A panic
    is a value ([Panic] of [run], or [None]), so that its absence can be stated.

    Code outside the repository is a class of operations, and what the source
    relies on is a class of laws: semver ([Semver]), YAML, URL and patch codecs
    ([YamlCodec], [UrlLib], [PatchCodec]), chrono ([Chrono], [LineCodec]),
    the bounded channel ([Mpsc]), the file system with its atomic primitives
    ([RuntimeFs], [SourceFs]), the interner ([Interner]), the host with the
    runtime backend, the controller client and the DNS component ([Env]), the
    service manager of the operating system ([ServiceHost]), the text of JSON
    ([JsonText]), the broadcast ring ([Broadcast]), the back-off of retries
    ([Backoff]), the directory of logs ([LogDir]), files with owners and modes
    ([AccessFs]), networks, times and identifiers ([IpLib], [TextLib]), references
    of URLs ([UrlOps]), the local socket and its programs ([IpcHost]), the log
    directory and the directories of the service ([LogHost], [ServerHost],
    [SinkHost]), the network set-up ([Network]), security descriptors, pipes and the
    list of users of Windows ([WinAcl], [WinPipe], [AclFs]), the dynamic store of
    macOS ([Scutil]).  Every class of laws used by a theorem has an instance, and the
    theorems that need one are evaluated at it by their witnesses.

    ** The files

    - [Prelude], [Text], [Paths]: results, the state monad and its Hoare
      triples, machine integers; strings, numbers and paths as the standard
      library and [camino] treat them.
    - [Metadata] (crate [nyanpasu-core-metadata]: kind.rs, error_kind.rs,
      feature.rs, feature/clash.rs) and [Types] (epoch.rs, spec.rs, state.rs,
      error.rs, kind.rs): the data every other part shares.
    - [Operation], [Control] (control/mod.rs, control/executor.rs): operation
      identity, the registry that makes submissions idempotent, admission, the
      closing latch and the executor loop, with arbitrary outcomes of the
      operations.  The theorems: the registry tracks every live operation, a
      resubmission attaches to the original, whatever is admitted reaches a
      terminal state, and an executor that exits leaves no operation live.
    - [Yaml], [Diff], [Mihomo], [Config] (config/mod.rs, diff.rs, mihomo.rs,
      clash.rs): canonical form, diff, the classification of a change, the
      quiet bootstrap of an overlapping switch and its restoration, controller
      resolution, effective documents.  The theorems: canonical forms decide
      equality up to key order, the diff names exactly the places where the
      documents differ, a change is applied in place only when that is sound,
      and the bootstrap opens no listener and is restored by a patch.
    - [Capability] (capability.rs) and [Health] (health/mod.rs, probe.rs): the
      version cache and probe, thresholds and grace period; the tracker is
      healthy exactly when its history says so.
    - [RuntimeStore] (config/runtime_store.rs): staging, atomic replacement,
      backups and cleanup over an abstract file system in which every call may
      fail; a replacement leaves the old or the new document, never another.
    - [Runtime] (runtime/mod.rs, dns.rs) is the interface the orchestrator is
      proved against, [Manager] (manager/*.rs, snapshot.rs) the orchestrator.
      [ManagerSafety] carries the invariant that no process is lost through
      every operation and every failure, [ManagerControl] what an operation does
      to epochs and revisions; [ManagerProps] is the state machine and its
      theorems, [ManagerStatus] what is published and the host's DNS.
      [Simulation] is a host that satisfies the laws, [Runs] the runs on it.
    - [Executor] (control/executor.rs, the check of control/mod.rs): the body of
      an operation, and the control plane composed with the manager.
    - [Log] (log.rs), [LogProps]: the console parser; no line is lost silently,
      frames are bounded, the parser returns (a clash-rs line with a wide space
      is the exception), logfmt round-trips.
    - [LogSink], [LogSinkProps] (log_sink.rs): the archive; whatever I/O fails,
      the active file survives, and without faults the directory is a rolling
      log.
    - [Instance], [InstanceProps], [InstanceRuns] (instance.rs,
      health/driver.rs): the monitor, the probe driver and stopping, as a step
      relation over every interleaving; running is earned, a startup timeout is
      final, an end is reported, a confirmed stop means death.
    - [LogIndex], [LogIndexProps], [LogScan] (nyanpasu-logging, index.rs): the
      index is the file whatever the batches, bounded, and its pages are exactly
      what the filter wants.
    - [LogPage], [LogPageProps] (files.rs, protocol.rs and the refresh of
      session.rs): catalog, bounded reads and one page; a page is exact, and the
      one case in which older pages lose a line is proved beside it.
      [LogSession], [LogSessionProps] (the actor of session.rs): sessions,
      leases, indexed files and running refreshes; limits and books hold, every
      request is answered once, a lease is honoured, idle files are released.
    - [Bridge] (server/manager_bridge.rs with the wire types of nyanpasu_ipc):
      both protocols, the shutdown, the projections and the bridge of statuses.
      [BridgeProps]: the stream of events is truthful, the echoed type follows
      the order of execution, operations and revisions survive projection.
      [BridgeSystem]: the service over control plane and manager; no process is
      lost whatever the protocols do, a shutdown is final, a submission can be
      asked about.
    - [Events], [EventsProps] (server/events.rs, routing/ws.rs and the bridges
      as interleaved tasks): a client that keeps reading ends with the current
      status, after a bounded number of turns, also when it lagged.
    - [Wire] (api/mod.rs and the derived JSON of operations), [Ipc]
      (contract.rs, server/routing, client): every request reaches its
      operation, errors keep their meaning, and a submission or query over the
      wire is one at the control plane ([IpcProps]).
    - [ClashApi], [ClashApiProps] (crate clash-api): the requests, the retry
      loop and the error body; repetition is bounded, what changes the core is
      sent once.
    - [Commands], [CommandsProps] (cmds/*.rs, lib.rs, utils/service.rs): the
      command line; success is what was seen last, and nothing is changed
      without the privilege.
    - [Access], [AccessProps] (server/controller_access.rs, the manager's
      controller_access.rs, runtime/process.rs): the directory of the controller
      endpoints, their authorization and the probes that authorize; a core is
      healthy only behind an endpoint that is the group's alone.
    - [Distribution] (nyanpasu-core-metadata, dist.rs): tags, sets of them and
      their JSON, which round-trips.
    - [ClashStream] (clash-api, stream.rs and the samples): sockets and bodies of
      lines deliver every sample once and in order.
    - [ConfigCodec], [ConfigCodecProps] (clash-api, api/configs.rs): the bodies of
      the controller's configuration and their codecs, as tables of fields over a
      data format; they are the [PatchCodec] of the classification, and with them
      a patch carries exactly the change and its verification sees it applied (a
      change to an explicit null is the exception).
    - [ClashClient] (clash-api, client.rs): hosts, secrets, endpoints, requests and
      their sending; the secret goes to the controller's own origin and to no
      local transport.
    - [ApiTypes], [ApiTypesProps] (clash-api, proxies.rs, connections.rs, rules.rs,
      dns.rs, version.rs): the answers of a controller, which come through with
      the fields it adds.
    - [ManagerBuild] (the builder of manager/mod.rs): the checks of the options,
      the sweep and the archive; a manager that was built starts where the run
      theorems start, on a host without a core of its directory.
    - [Server], [ServerProps] (server/mod.rs, server/logger.rs, logging.rs,
      cmds/server.rs, the other routes, and the server of nyanpasu_ipc): the process
      from its set-up to its end; every run that ends has shut the service down, a
      cancelled one can always end, the socket is the group's.
    - [Shortcuts] (client/shortcuts.rs, cmds/rpc/mod.rs): the typed operations of
      the client and the command over them.
    - [TextLines]: lines and white space of printable text.
    - [Windows], [WindowsProps] (crate nyanpasu-windows-security, utils/acl.rs,
      win_service.rs): descriptors and whom they let in, the authorization of a
      controller's pipe, the list of users, and what the service control manager is
      told.
    - [MacDns] (dns.rs, module macos): the DNS override of macOS, confirmed by
      reading it back.
    - [ConfigCheck] (kind.rs): the check of a configuration by a bounded run of its
      core; it answers, accepts exactly what the core accepts, and tells a refusal
      from a core that could not be run.
    - [HostTools] (utils/os/user.rs, the launchctl part of utils/service.rs): the
      programs of the host; a user who was installed is in the group of the socket.

    ** Fuel

    Recursion is structural where the source iterates over data.  Where it is
    not, the fuel is chosen by the definition and proved enough or evidently so:
    the depth of the documents ([diff]), the length of the order ([evict] of the
    registry), of the queue ([drain_loop]), of the text ([scan_logfmt], [lines],
    trimming, replacing), of the slice ([partition_point]), twenty decimal
    digits of a [u64], the rounds of [stop_loop] until its deadline.
    [exec_rounds] and [read_pages] take fuel as an argument, and their theorems
    say how much suffices.

    ** What is not modelled

    The sockets, pipes, HTTP and WebSocket libraries, the supervisor of processes
    and the calls of the Windows API are parameters.  The parsing of command lines,
    the completions command, the panic hook and the detection of deadlocks are calls
    of libraries; accessors, channel handles and conversions between names are left
    out, and so is tracing output.  Of the wiring of an instance, the builder of the
    supervisor is outside, its event handler is modelled.  The JSON of the bodies of
    nyanpasu_ipc is modelled for operations, envelopes and errors; the readers of
    the others are parameters of [Shortcuts].
    Where builds differ, the Unix build is modelled; [Windows] and [MacDns] are the
    parts of the other two. *)
From stdpp Require Export base gmap strings list sets.
From Stdlib Require Import ZArith NArith Lia.

#[global] Open Scope string_scope.
#[global] Open Scope list_scope.

#[export] Set Warnings "-clear-no-such-hyp".

Declare Scope run_scope.
Delimit Scope run_scope with run.
#[global] Open Scope run_scope.

(** The lemmas that close the common side conditions of the development. *)
Create HintDb nyanpasu.

(** * Results: Rust's [Result<A, E>] *)

Inductive result (A E : Type) : Type :=
| Ok (a : A)
| Err (e : E).
Arguments Ok {A E} a.
Arguments Err {A E} e.

Lemma Ok_inj {A E} (x y : A) : @Ok A E x = Ok y → x = y.
Proof. by intros [= ->]. Qed.

Definition res_is_ok {A E} (r : result A E) : bool :=
  match r with Ok _ => true | Err _ => false end.

Definition res_map {A B E} (f : A → B) (r : result A E) : result B E :=
  match r with Ok a => Ok (f a) | Err e => Err e end.

Definition res_map_err {A E F} (f : E → F) (r : result A E) : result A F :=
  match r with Ok a => Ok a | Err e => Err (f e) end.

#[export] Instance result_eq_dec {A E} `{EqDecision A, EqDecision E} :
  EqDecision (result A E).
Proof. solve_decision. Defined.

(** [r ?] in a pure function: propagate the error. *)
Notation "'let?' x := r 'in' k" :=
  (match r with Ok x => k | Err e => Err e end)
  (at level 10, x pattern, r at level 100, k at level 200) : run_scope.

(** * Lists *)
Lemma filter_all {A} (P : A → Prop) `{∀ x, Decision (P x)} l : Forall P l → filter P l = l.
Proof. induction 1 as [|x l Hx _ IH]; [done|]. rewrite filter_cons_True by done. by rewrite IH. Qed.
Lemma filter_none {A} (P : A → Prop) `{∀ x, Decision (P x)} l : Forall (λ x, ¬ P x) l → filter P l = [].
Proof. induction 1 as [|x l Hx _ IH]; [done|]. by rewrite filter_cons_False. Qed.

(** * A state monad for the effectful code

    An operation of the source that performs effects on a state [S] is a
    function [S → A * S]; an operation that may fail returns a [result] in [A]
    and still returns the state, because the effects made before the error are
    not undone. *)

Definition M (S A : Type) : Type := S → A * S.

Definition ret {S A} (a : A) : M S A := λ s, (a, s).
Definition bind {S A B} (m : M S A) (k : A → M S B) : M S B :=
  λ s, let '(a, s') := m s in k a s'.
Definition gets {S A} (f : S → A) : M S A := λ s, (f s, s).
Definition modify {S} (f : S → S) : M S unit := λ s, (tt, f s).

Notation "x <- m ;; k" := (bind m (λ x, k))
  (at level 100, m at next level, right associativity) : run_scope.
Notation "m ;;; k" := (bind m (λ _, k))
  (at level 100, right associativity) : run_scope.

(** The [?] operator inside an effectful function. *)
Definition bind_ok {S A B E} (m : M S (result A E)) (k : A → M S (result B E)) :
  M S (result B E) :=
  bind m (λ r, match r with Ok a => k a | Err e => ret (Err e) end).
Notation "x <-? m ;; k" := (bind_ok m (λ x, k))
  (at level 100, m at next level, right associativity) : run_scope.

(** A run that succeeded went through its parts. *)
Lemma bind_ok_Ok {S A B E} (m : M S (result A E)) (k : A → M S (result B E)) s b s' :
  bind_ok m k s = (Ok b, s') → ∃ a s1, m s = (Ok a, s1) ∧ k a s1 = (Ok b, s').
Proof. unfold bind_ok, bind. destruct (m s) as [[a|e] s1]; [by eauto|done]. Qed.

(** ** Hoare triples for the monad *)

Definition hoare {S A} (P : S → Prop) (m : M S A) (Q : A → S → Prop) : Prop :=
  ∀ s, P s → Q (m s).1 (m s).2.

Section hoare.
Context {S : Type}.

Lemma hoare_ret {A} (a : A) (P : S → Prop) (Q : A → S → Prop) :
  (∀ s, P s → Q a s) → hoare P (ret a) Q.
Proof. intros H s HP. by apply H. Qed.

Lemma hoare_bind {A B} (m : M S A) (k : A → M S B) P R Q :
  hoare P m R → (∀ a, hoare (R a) (k a) Q) → hoare P (bind m k) Q.
Proof.
  intros Hm Hk s HP. unfold bind. specialize (Hm s HP).
  destruct (m s) as [a s'] eqn:E. exact (Hk a s' Hm).
Qed.

Lemma hoare_bind_ok {A B E} (m : M S (result A E)) (k : A → M S (result B E)) P R Q :
  hoare P m (λ r s, match r with Ok a => R a s | Err e => Q (Err e) s end) →
  (∀ a, hoare (R a) (k a) Q) →
  hoare P (bind_ok m k) Q.
Proof.
  intros Hm Hk. eapply hoare_bind; [exact Hm|].
  intros [a|e]; [apply Hk|by apply hoare_ret].
Qed.

Lemma hoare_conseq {A} (m : M S A) (P P' : S → Prop) (Q Q' : A → S → Prop) :
  hoare P' m Q' → (∀ s, P s → P' s) → (∀ a s, Q' a s → Q a s) → hoare P m Q.
Proof. intros Hm HP HQ s Hs. apply HQ, Hm, HP, Hs. Qed.

Lemma hoare_post {A} (m : M S A) (P : S → Prop) (Q Q' : A → S → Prop) :
  hoare P m Q' → (∀ a s, Q' a s → Q a s) → hoare P m Q.
Proof. intros Hm HQ. by eapply hoare_conseq. Qed.

Lemma hoare_pre {A} (m : M S A) (P P' : S → Prop) (Q : A → S → Prop) :
  hoare P' m Q → (∀ s, P s → P' s) → hoare P m Q.
Proof. intros Hm HP. by eapply hoare_conseq. Qed.

Lemma hoare_gets {A} (f : S → A) (P : S → Prop) (Q : A → S → Prop) :
  (∀ s, P s → Q (f s) s) → hoare P (gets f) Q.
Proof. intros H s HP. by apply H. Qed.

Lemma hoare_modify (f : S → S) (P : S → Prop) (Q : unit → S → Prop) :
  (∀ s, P s → Q tt (f s)) → hoare P (modify f) Q.
Proof. intros H s HP. by apply H. Qed.

Lemma hoare_false {A} (m : M S A) (P : S → Prop) Q :
  (∀ s, ¬ P s) → hoare P m Q.
Proof. intros H s HP. by destruct (H s). Qed.

Lemma hoare_pure {A} (φ : Prop) (m : M S A) (P : S → Prop) Q :
  (φ → hoare P m Q) → hoare (λ s, φ ∧ P s) m Q.
Proof. intros H s [Hφ HP]. by apply H. Qed.

Lemma hoare_exists {A B} (m : M S A) (P : B → S → Prop) Q :
  (∀ b, hoare (P b) m Q) → hoare (λ s, ∃ b, P b s) m Q.
Proof. intros H s [b HP]. by apply (H b). Qed.

Lemma bind_ret_l {A B} (a : A) (k : A → M S B) : bind (ret a) k = k a.
Proof. done. Qed.

(** Running a bind whose first computation is known. *)
Lemma bind_run {A B} (m : M S A) (k : A → M S B) s a s' :
  m s = (a, s') → bind m k s = k a s'.
Proof. unfold bind. by intros ->. Qed.
End hoare.

(** * Lists *)
Lemma forallb_Forall {A} (f : A → bool) (l : list A) :
  forallb f l = true ↔ Forall (λ x, f x = true) l.
Proof.
  induction l as [|x l IH]; simpl; [by split|].
  rewrite andb_true_iff, IH, Forall_cons. done.
Qed.

(** * Machine integers *)

Definition u32_max : Z := 4294967295.
Definition u64_max : Z := 18446744073709551615.
Definition two64 : Z := 18446744073709551616.

(** [u32::saturating_add]. *)
Definition sat_add_u32 (a b : Z) : Z := Z.min (a + b) u32_max.
(** [u64::wrapping_mul]. *)
Definition wrapping_mul_u64 (a b : Z) : Z := (a * b) mod two64.

Definition is_u32 (z : Z) : Prop := (0 ≤ z ≤ u32_max)%Z.
Definition is_u64 (z : Z) : Prop := (0 ≤ z ≤ u64_max)%Z.

Lemma sat_add_u32_range a b : is_u32 a → (0 ≤ b)%Z → is_u32 (sat_add_u32 a b).
Proof. unfold is_u32, sat_add_u32, u32_max. lia. Qed.

(** Case analysis on every integer comparison of the goal, closing the
    impossible cases by arithmetic. *)
Ltac zcases :=
  repeat match goal with
  | |- context [(?a <=? ?b)%Z] => destruct (Z.leb_spec a b); try lia
  | |- context [(?a <? ?b)%Z] => destruct (Z.ltb_spec a b); try lia
  | |- context [(?a =? ?b)%Z] => destruct (Z.eqb_spec a b); try lia
  end.

#[export] Hint Resolve sat_add_u32_range : nyanpasu.
