(* ===== verification/Text.v ===== *)
(** Byte strings and number formatting.

    A Rust [String]/[&str] is the byte sequence of its UTF-8 encoding; it is
    modelled by [string], one [ascii] per byte.  This file defines the
    standard-library string operations the source uses ([strip_prefix],
    [strip_suffix], [split_once], [rsplit_once], [contains], [parse],
    [from_str_radix], [format!] of integers) and the round trips between
    formatting and parsing. *)
From S2P Require Import Prelude.
From Stdlib Require Import Ascii String ZArith NArith Lia.

(** * Slicing *)

(** [str::strip_prefix]. *)
Fixpoint strip_prefix (p s : string) : option string :=
  match p, s with
  | EmptyString, _ => Some s
  | String a p', String b s' => if Ascii.eqb a b then strip_prefix p' s' else None
  | String _ _, EmptyString => None
  end.

(** [str::strip_suffix]: the position where the remainder equals the suffix
    is unique, because remainders at different positions differ in length. *)
Fixpoint strip_suffix (suf s : string) : option string :=
  if String.eqb s suf then Some EmptyString
  else match s with
       | EmptyString => None
       | String c s' => String c <$> strip_suffix suf s'
       end.

(** [str::split_once]: split at the first occurrence of the pattern. *)
Fixpoint split_once (pat s : string) : option (string * string) :=
  match strip_prefix pat s with
  | Some rest => Some (EmptyString, rest)
  | None =>
      match s with
      | EmptyString => None
      | String c s' => (λ '(a, b), (String c a, b)) <$> split_once pat s'
      end
  end.

(** [str::rsplit_once] with a one-byte pattern: split at the last occurrence. *)
Fixpoint rsplit_once (c : ascii) (s : string) : option (string * string) :=
  match s with
  | EmptyString => None
  | String d s' =>
      match rsplit_once c s' with
      | Some (a, b) => Some (String d a, b)
      | None => if Ascii.eqb c d then Some (EmptyString, s') else None
      end
  end.

Definition starts_with (p s : string) : bool := bool_decide (is_Some (strip_prefix p s)).
Definition ends_with (p s : string) : bool := bool_decide (is_Some (strip_suffix p s)).
Definition contains (p s : string) : bool := bool_decide (is_Some (split_once p s)).

Fixpoint string_forallb (f : ascii → bool) (s : string) : bool :=
  match s with
  | EmptyString => true
  | String c s' => f c && string_forallb f s'
  end.

(** [[..].join(sep)] on strings. *)
Fixpoint join (sep : string) (l : list string) : string :=
  match l with
  | [] => EmptyString
  | [x] => x
  | x :: l' => x +:+ sep +:+ join sep l'
  end.

(** [str::replace]: non-overlapping occurrences, left to right. [fuel] bounds
    the number of scanned bytes; the length of [s] is enough for a non-empty
    pattern. *)
Fixpoint replace_fuel (fuel : nat) (pat by_ s : string) : string :=
  match fuel with
  | O => s
  | S fuel' =>
      match strip_prefix pat s with
      | Some rest => by_ +:+ replace_fuel fuel' pat by_ rest
      | None =>
          match s with
          | EmptyString => EmptyString
          | String c s' => String c (replace_fuel fuel' pat by_ s')
          end
      end
  end.
Definition replace (pat by_ s : string) : string :=
  replace_fuel (S (String.length s)) pat by_ s.

(** * Lemmas on slicing *)
Lemma app_assoc_str (a b c : string) : (a +:+ b) +:+ c = a +:+ b +:+ c.
Proof. induction a as [|x a IH]; simpl; [done|]. unfold String.append in *. simpl. by f_equal. Qed.

Lemma app_cons_str (x : ascii) (a b : string) : String x a +:+ b = String x (a +:+ b).
Proof. done. Qed.

Lemma app_nil_l_str (a : string) : EmptyString +:+ a = a.
Proof. done. Qed.

Lemma app_nil_str_r (a : string) : a +:+ EmptyString = a.
Proof. induction a as [|x a IH]; [done|]. rewrite app_cons_str. by f_equal. Qed.

Lemma length_app_str (a b : string) :
  String.length (a +:+ b) = (String.length a + String.length b)%nat.
Proof. induction a as [|x a IH]; [done|]. rewrite app_cons_str. simpl. by rewrite IH. Qed.

Lemma strip_prefix_app p s : strip_prefix p (p +:+ s) = Some s.
Proof.
  induction p as [|a p IH]; [done|]. rewrite app_cons_str. simpl.
  by rewrite Ascii.eqb_refl.
Qed.

Lemma strip_prefix_Some p s r : strip_prefix p s = Some r ↔ s = p +:+ r.
Proof.
  split; [|intros ->; apply strip_prefix_app].
  revert s. induction p as [|a p IH]; intros s H; simpl in H; [by simplify_eq|].
  destruct s as [|b s]; [done|].
  destruct (Ascii.eqb_spec a b) as [->|]; [|done].
  rewrite app_cons_str. f_equal. by apply IH.
Qed.

Lemma strip_suffix_app suf a : strip_suffix suf (a +:+ suf) = Some a.
Proof.
  induction a as [|x a IH].
  - change ("" +:+ suf) with suf. destruct suf; simpl; [done|].
    by rewrite Ascii.eqb_refl, String.eqb_refl.
  - rewrite app_cons_str. cbn [strip_suffix].
    destruct (String.eqb_spec (String x (a +:+ suf)) suf) as [E|].
    + apply (f_equal String.length) in E. simpl in E. rewrite length_app_str in E. lia.
    + by rewrite IH.
Qed.

Lemma strip_suffix_Some suf s a : strip_suffix suf s = Some a ↔ s = a +:+ suf.
Proof.
  split; [|intros ->; apply strip_suffix_app].
  revert a. induction s as [|x s IH]; intros a H; cbn [strip_suffix] in H.
  - destruct (String.eqb_spec "" suf) as [<-|]; by simplify_eq.
  - destruct (String.eqb_spec (String x s) suf) as [<-|]; [by simplify_eq|].
    destruct (strip_suffix suf s) as [b|]; simplify_eq/=.
    rewrite app_cons_str. f_equal. by apply IH.
Qed.

Lemma split_once_Some pat s a b : split_once pat s = Some (a, b) → s = a +:+ pat +:+ b.
Proof.
  revert a. induction s as [|c s IH]; intros a H; cbn [split_once] in H.
  - destruct (strip_prefix pat "") as [r|] eqn:E; [|done]. simplify_eq.
    by apply strip_prefix_Some in E.
  - destruct (strip_prefix pat (String c s)) as [r|] eqn:E.
    + simplify_eq. by apply strip_prefix_Some in E.
    + destruct (split_once pat s) as [[a' b']|]; simplify_eq/=.
      rewrite app_cons_str. f_equal. by apply IH.
Qed.

Lemma starts_with_app p s : starts_with p (p +:+ s) = true.
Proof. apply bool_decide_eq_true. rewrite strip_prefix_app. by eexists. Qed.

Lemma starts_with_spec p s : starts_with p s = true ↔ ∃ r, s = p +:+ r.
Proof.
  unfold starts_with. rewrite bool_decide_eq_true. unfold is_Some.
  by setoid_rewrite strip_prefix_Some.
Qed.

(** * Integers as text *)

(** [char::to_digit(radix)]: both letter cases are accepted. *)
Definition digit_val (radix : Z) (c : ascii) : option Z :=
  let n := Z.of_nat (nat_of_ascii c) in
  let v := if (48 <=? n)%Z && (n <=? 57)%Z then Some (n - 48)%Z
           else if (97 <=? n)%Z && (n <=? 122)%Z then Some (n - 87)%Z
           else if (65 <=? n)%Z && (n <=? 90)%Z then Some (n - 55)%Z
           else None in
  match v with
  | Some d => if (d <? radix)%Z then Some d else None
  | None => None
  end.

(** The checked multiply-and-add loop of [from_str_radix]. *)
Fixpoint parse_digits (radix max acc : Z) (s : string) : option Z :=
  match s with
  | EmptyString => Some acc
  | String c s' =>
      match digit_val radix c with
      | None => None
      | Some d =>
          let v := (acc * radix + d)%Z in
          if (v <=? max)%Z then parse_digits radix max v s' else None
      end
  end.

(** [uN::from_str_radix]: an empty string and a lone sign are errors, and one
    leading [+] is accepted. *)
Definition from_str_radix (radix max : Z) (s : string) : option Z :=
  match s with
  | EmptyString => None
  | String c s' =>
      if Ascii.eqb c "+"%char
      then match s' with EmptyString => None | _ => parse_digits radix max 0 s' end
      else parse_digits radix max 0 s
  end.

(** [str::parse::<u64>]. *)
Definition parse_u64 (s : string) : option Z := from_str_radix 10 u64_max s.

Definition ascii_digit (d : Z) : ascii :=
  ascii_of_nat (Z.to_nat (if (d <? 10)%Z then 48 + d else 87 + d)).

(** [format!("{}", z)]: at most [fuel] decimal digits. *)
Fixpoint fmt_dec_fuel (fuel : nat) (z : Z) (acc : string) : string :=
  match fuel with
  | O => acc
  | S fuel' =>
      let acc' := String (ascii_digit (z mod 10)) acc in
      if (z <? 10)%Z then acc' else fmt_dec_fuel fuel' (z / 10) acc'
  end.

(** Twenty decimal digits are enough for every [u64]. *)
Definition fmt_u64 (z : Z) : string := fmt_dec_fuel 20 z EmptyString.

(** [format!("{:0wx}", z)] for a [z] of at most [w] hexadecimal digits. *)
Fixpoint fmt_hex (w : nat) (z : Z) (acc : string) : string :=
  match w with
  | O => acc
  | S w' => fmt_hex w' (z / 16) (String (ascii_digit (z mod 16)) acc)
  end.

Definition is_dec_digit (c : ascii) : bool :=
  let n := Z.of_nat (nat_of_ascii c) in (48 <=? n)%Z && (n <=? 57)%Z.
Definition is_hex_digit (c : ascii) : bool :=
  let n := Z.of_nat (nat_of_ascii c) in
  ((48 <=? n)%Z && (n <=? 57)%Z) || ((97 <=? n)%Z && (n <=? 102)%Z).

(** * Lemmas on formatting *)
Lemma digit_cases (P : Z → Prop) (b : Z) :
  (b ≤ 16)%Z → (∀ n : nat, (Z.of_nat n < b)%Z → P (Z.of_nat n)) →
  ∀ d, (0 ≤ d < b)%Z → P d.
Proof. intros _ H d Hd. rewrite <-(Z2Nat.id d) by lia. apply H. lia. Qed.

Ltac cases16 n H :=
  do 16 (destruct n as [|n]; [try lia; vm_compute; done|]); exfalso; simpl in H; lia.

Lemma digit_val_ascii_digit radix d :
  (0 ≤ d < radix)%Z → (radix ≤ 16)%Z → digit_val radix (ascii_digit d) = Some d.
Proof.
  intros Hd Hr.
  assert (digit_val 16 (ascii_digit d) = Some d) as H.
  { assert (0 ≤ d < 16)%Z as Hd' by lia. clear Hd. revert d Hd'.
    apply (digit_cases (λ d, digit_val 16 (ascii_digit d) = Some d)); [lia|].
    intros n Hn. cases16 n Hn. }
  unfold digit_val in *. case_match; [|done].
  case_match; simplify_eq. by rewrite (proj2 (Z.ltb_lt _ _)) by lia.
Qed.

Lemma is_hex_ascii_digit d : (0 ≤ d < 16)%Z → is_hex_digit (ascii_digit d) = true.
Proof.
  revert d. apply (digit_cases (λ d, is_hex_digit (ascii_digit d) = true)); [lia|].
  intros n Hn. cases16 n Hn.
Qed.

Lemma is_dec_ascii_digit d : (0 ≤ d < 10)%Z → is_dec_digit (ascii_digit d) = true.
Proof.
  revert d. apply (digit_cases (λ d, is_dec_digit (ascii_digit d) = true)); [lia|].
  intros n Hn. do 10 (destruct n as [|n]; [vm_compute; done|]). exfalso; simpl in Hn; lia.
Qed.

Lemma parse_fmt_dec_fuel max fuel z acc :
  (0 ≤ z < 10 ^ Z.of_nat fuel)%Z → (z ≤ max)%Z → fuel ≠ O →
  parse_digits 10 max 0 (fmt_dec_fuel fuel z acc) = parse_digits 10 max z acc.
Proof.
  revert z acc. induction fuel as [|fuel IH]; intros z acc Hz Hmax Hf; [done|].
  rewrite Nat2Z.inj_succ, Z.pow_succ_r in Hz by lia. cbn [fmt_dec_fuel].
  pose proof (Z.mod_pos_bound z 10 ltac:(lia)). pose proof (Z.div_mod z 10 ltac:(lia)).
  destruct (Z.ltb_spec z 10).
  - cbn [parse_digits]. rewrite digit_val_ascii_digit by lia.
    rewrite Z.mod_small by lia. rewrite (proj2 (Z.leb_le _ _)) by lia. f_equal; lia.
  - destruct fuel as [|fuel'] eqn:Ef; [simpl in Hz; lia|]. rewrite <-Ef in *.
    rewrite IH; [| |lia|lia].
    + cbn [parse_digits]. rewrite digit_val_ascii_digit by lia.
      replace (z / 10 * 10 + z mod 10)%Z with z by lia.
      by rewrite (proj2 (Z.leb_le _ _)) by lia.
    + split; [apply Z.div_pos; lia|]. apply Z.div_lt_upper_bound; lia.
Qed.

Lemma fmt_dec_fuel_digits fuel z acc :
  (0 ≤ z)%Z → string_forallb is_dec_digit acc = true →
  string_forallb is_dec_digit (fmt_dec_fuel fuel z acc) = true.
Proof.
  revert z acc. induction fuel as [|fuel IH]; intros z acc Hz Hacc; [done|].
  cbn [fmt_dec_fuel].
  assert (string_forallb is_dec_digit (String (ascii_digit (z mod 10)) acc) = true).
  { simpl. rewrite is_dec_ascii_digit, Hacc; [done|]. apply Z.mod_pos_bound. lia. }
  case_match; [done|]. apply IH; [apply Z.div_pos; lia|done].
Qed.

Lemma fmt_dec_fuel_nonempty fuel z c acc : fmt_dec_fuel fuel z (String c acc) ≠ EmptyString.
Proof. revert z c acc. induction fuel as [|f IH]; intros; simpl; [done|]. case_match; [done|]. apply IH. Qed.

Lemma from_str_radix_digits radix max s :
  string_forallb is_dec_digit s = true → s ≠ EmptyString →
  from_str_radix radix max s = parse_digits radix max 0 s.
Proof.
  destruct s as [|c s]; [done|]. cbn [string_forallb from_str_radix].
  intros [Hc _]%andb_true_iff _. destruct (Ascii.eqb_spec c "+"%char) as [->|]; done.
Qed.

Lemma fmt_u64_digits z : (0 ≤ z)%Z → string_forallb is_dec_digit (fmt_u64 z) = true.
Proof. intros. by apply fmt_dec_fuel_digits. Qed.

Lemma fmt_u64_nonempty z : fmt_u64 z ≠ EmptyString.
Proof.
  unfold fmt_u64. change 20%nat with (S 19). remember 19%nat as f. simpl.
  case_match; [done|]. apply fmt_dec_fuel_nonempty.
Qed.

(** Formatting and parsing a [u64] round-trip. *)
Lemma parse_fmt_u64 z : is_u64 z → parse_u64 (fmt_u64 z) = Some z.
Proof.
  intros Hz. unfold parse_u64.
  rewrite from_str_radix_digits; [|apply fmt_u64_digits, Hz|apply fmt_u64_nonempty].
  unfold fmt_u64. rewrite parse_fmt_dec_fuel; [done| |apply Hz|done].
  unfold is_u64, u64_max in Hz. split; [lia|]. simpl. lia.
Qed.

Lemma fmt_u64_inj a b : is_u64 a → is_u64 b → fmt_u64 a = fmt_u64 b → a = b.
Proof.
  intros Ha Hb H. apply (f_equal parse_u64) in H.
  rewrite !parse_fmt_u64 in H by done. congruence.
Qed.

Lemma parse_digits_range radix max acc s n :
  (0 ≤ radix)%Z → (0 ≤ acc ≤ max)%Z → parse_digits radix max acc s = Some n → (0 ≤ n ≤ max)%Z.
Proof.
  intros Hr. revert acc. induction s as [|c s IH]; intros acc Hacc; cbn; [by intros [= <-]|].
  destruct (digit_val radix c) as [v|] eqn:Ev; [|done]. zcases; [|done].
  apply IH. split; [|done].
  assert (0 ≤ v)%Z.
  { unfold digit_val in Ev. repeat case_match; simplify_eq; lia. }
  nia.
Qed.

Lemma parse_u64_range s n : parse_u64 s = Some n → is_u64 n.
Proof.
  unfold parse_u64, from_str_radix. intros Hn.
  repeat case_match; try done; by eapply parse_digits_range; [| |exact Hn]; unfold u64_max.
Qed.

Lemma parse_fmt_hex max w z acc :
  (0 ≤ z < 16 ^ Z.of_nat w)%Z → (z ≤ max)%Z →
  parse_digits 16 max 0 (fmt_hex w z acc) = parse_digits 16 max z acc.
Proof.
  revert z acc. induction w as [|w IH]; intros z acc Hz Hmax.
  - simpl in *. replace z with 0%Z by lia. done.
  - rewrite Nat2Z.inj_succ, Z.pow_succ_r in Hz by lia. cbn [fmt_hex].
    pose proof (Z.mod_pos_bound z 16 ltac:(lia)). pose proof (Z.div_mod z 16 ltac:(lia)).
    rewrite IH.
    + cbn [parse_digits]. rewrite digit_val_ascii_digit by lia.
      replace (z / 16 * 16 + z mod 16)%Z with z by lia.
      by rewrite (proj2 (Z.leb_le _ _)) by lia.
    + split; [apply Z.div_pos; lia|]. apply Z.div_lt_upper_bound; lia.
    + lia.
Qed.

Lemma fmt_hex_digits w z acc :
  (0 ≤ z)%Z → string_forallb is_hex_digit acc = true →
  string_forallb is_hex_digit (fmt_hex w z acc) = true.
Proof.
  revert z acc. induction w as [|w IH]; intros z acc Hz Hacc; [done|].
  simpl. apply IH; [apply Z.div_pos; lia|]. simpl.
  rewrite is_hex_ascii_digit, Hacc; [done|]. apply Z.mod_pos_bound; lia.
Qed.

Lemma length_fmt_hex w z acc :
  String.length (fmt_hex w z acc) = (w + String.length acc)%nat.
Proof. revert z acc. induction w as [|w IH]; intros; simpl; [done|]. rewrite IH. simpl. lia. Qed.

Lemma fmt_hex_app w z acc : fmt_hex w z acc = fmt_hex w z EmptyString +:+ acc.
Proof.
  revert z acc. induction w as [|w IH]; intros z acc; [done|].
  simpl. rewrite IH, (IH _ (String _ "")), app_assoc_str. done.
Qed.

Lemma string_forallb_app f a b :
  string_forallb f (a +:+ b) = string_forallb f a && string_forallb f b.
Proof. induction a as [|c a IH]; [done|]. rewrite app_cons_str. simpl. by rewrite IH, andb_assoc. Qed.

Lemma string_forallb_impl (f g : ascii → bool) s :
  (∀ c, f c = true → g c = true) → string_forallb f s = true → string_forallb g s = true.
Proof. intros H. induction s as [|c s IH]; [done|]. simpl. rewrite !andb_true_iff. intros [? ?]; auto. Qed.

(** A one-byte pattern absent from [a] splits [a +:+ pat +:+ b] at its place. *)
Lemma split_once_char (c : ascii) a b :
  string_forallb (λ d, negb (Ascii.eqb c d)) a = true →
  split_once (String c EmptyString) (a +:+ String c b) = Some (a, b).
Proof.
  induction a as [|d a IH]; intros Ha.
  - change ("" +:+ String c b) with (String c b). simpl. by rewrite Ascii.eqb_refl.
  - rewrite app_cons_str. simpl in *. apply andb_true_iff in Ha as [Hd Ha].
    destruct (Ascii.eqb c d); [done|]. by rewrite IH.
Qed.
