(* ===== verification/Paths.v ===== *)
(** Unix paths as UTF-8 text: the operations of [camino::Utf8Path] (which are
    those of [std::path::Path]) that the source uses. *)
From S2P Require Import Prelude Text.
From Stdlib Require Import Ascii String Lia.

Definition slash : ascii := "/"%char.

(** [Path::is_absolute]. *)
Definition is_absolute (p : string) : bool := starts_with "/" p.

(** [Path::join]: an absolute argument replaces the path. *)
Definition path_join (p q : string) : string :=
  if is_absolute q then q
  else if String.eqb p "" || ends_with "/" p then p +:+ q
  else p +:+ "/" +:+ q.

(** The segments between separators. *)
Fixpoint segments (s : string) : list string :=
  match s with
  | EmptyString => [EmptyString]
  | String c s' =>
      if Ascii.eqb c slash then EmptyString :: segments s'
      else match segments s' with
           | x :: l => String c x :: l
           | [] => [String c EmptyString]
           end
  end.

(** [Path::components]: the root is the component [/]; empty segments are
    skipped, and so are dots other than a leading one of a relative path. *)
Definition components (p : string) : list string :=
  let segs := segments p in
  let normal := List.filter (λ x, negb (String.eqb x "") && negb (String.eqb x ".")) in
  if is_absolute p then "/" :: normal segs
  else match segs with
       | "."%string :: rest => "." :: normal rest
       | _ => normal segs
       end.

(** [Path::starts_with]: by whole components. *)
Definition path_starts_with (p base : string) : bool :=
  bool_decide (components base `prefix_of` components p).

(** Trailing separators and dot segments are not part of the last component;
    [fuel] bounds the removals by the length. *)
Fixpoint trim_end (fuel : nat) (p : string) : string :=
  match fuel with
  | O => p
  | S fuel' =>
      if String.eqb p "/" then p
      else if String.eqb p "/." then "/"
      else match strip_suffix "/" p with
           | Some q => trim_end fuel' q
           | None =>
               match strip_suffix "/." p with
               | Some q => trim_end fuel' q
               | None => p
               end
           end
  end.
Definition trimmed (p : string) : string := trim_end (String.length p) p.

(** [Path::parent]. *)
Definition parent (p : string) : option string :=
  let t := trimmed p in
  if String.eqb t "" || String.eqb t "/" then None
  else match rsplit_once slash t with
       | None => Some ""
       | Some (pre, _) => Some (if String.eqb pre "" then "/" else trimmed pre)
       end.

(** [Path::file_name]: the last component, when it is a normal one. *)
Definition file_name (p : string) : option string :=
  let t := trimmed p in
  let name := match rsplit_once slash t with Some (_, n) => n | None => t end in
  if String.eqb name "" || String.eqb name "." || String.eqb name ".." then None else Some name.

(** * Lemmas *)

Definition no_slash (s : string) : bool := string_forallb (λ c, negb (Ascii.eqb c slash)) s.

Lemma rsplit_once_no_slash s : no_slash s = true → rsplit_once slash s = None.
Proof.
  induction s as [|c s IH]; [done|]. cbn [no_slash string_forallb rsplit_once].
  intros [Hc Hs]%andb_true_iff. rewrite (IH Hs).
  rewrite Ascii.eqb_sym. by destruct (Ascii.eqb c slash).
Qed.

Lemma rsplit_once_app a b :
  no_slash b = true → rsplit_once slash (a +:+ String slash b) = Some (a, b).
Proof.
  intros Hb. induction a as [|c a IH].
  - change ("" +:+ String slash b) with (String slash b). cbn [rsplit_once].
    rewrite (rsplit_once_no_slash b Hb). by rewrite Ascii.eqb_refl.
  - rewrite app_cons_str. cbn [rsplit_once]. by rewrite IH.
Qed.

Lemma file_name_nonempty p n : file_name p = Some n → n ≠ "".
Proof.
  unfold file_name. set (name := match rsplit_once slash (trimmed p) with Some (_, n) => n | None => trimmed p end).
  destruct (String.eqb_spec name "") as [E|E]; [done|]. simpl. destruct (_ || _); [done|]. congruence.
Qed.
