(* ===== verification/Metadata.v ===== *)
(** The [nyanpasu-core-metadata] crate: core kinds, machine-readable error
    kinds with their wire strings, core versions, and which core speaks which
    optional transport from which release on. *)
From S2P Require Import Prelude Text.
From Stdlib Require Import Ascii String ZArith Lia.

(** * Core kinds (kind.rs) *)

Inductive ClashCoreKind := Mihomo | ClashRust | ClashPremium | Meow.

#[export] Instance ClashCoreKind_eq_dec : EqDecision ClashCoreKind.
Proof. solve_decision. Defined.

(** [AsRef<str>] and [Display]. *)
Definition kind_as_ref (k : ClashCoreKind) : string :=
  match k with
  | Mihomo => "mihomo"
  | ClashRust => "clash-rs"
  | ClashPremium => "clash"
  | Meow => "meow"
  end.

Inductive ClashCoreResourceVariant :=
| RVMihomo | RVMihomoAlpha | RVClashRust | RVClashRustAlpha | RVClashPremium | RVMeow.

(** [binary_name], with the platform's executable suffix as an argument
    ([std::env::consts::EXE_SUFFIX]). *)
Definition binary_name (exe_suffix : string) (v : ClashCoreResourceVariant) : string :=
  match v with
  | RVMihomo => "mihomo" +:+ exe_suffix
  | RVMihomoAlpha => "mihomo-alpha" +:+ exe_suffix
  | RVClashRust => "clash-rs" +:+ exe_suffix
  | RVClashRustAlpha => "clash-rs-alpha" +:+ exe_suffix
  | RVClashPremium => "clash" +:+ exe_suffix
  | RVMeow => "meow" +:+ exe_suffix
  end.

(** * Error kinds (error_kind.rs) *)

Module CoreErrorKind.
Inductive t :=
  | NotStarted | AlreadyRunning | RevisionConflict | Quarantined
  | ConfigCheckFailed | ConfigNotFound | BinaryNotFound | InvalidConfig
  | ControllerMissing | ApplyFailed | ApplyRollbackFailed | StopUnconfirmed
  | ShuttingDown | QueueFull | OperationConflict | BackendUnavailable | Internal.

#[export] Instance t_eq_dec : EqDecision t.
Proof. solve_decision. Defined.

Definition ALL : list t :=
  [NotStarted; AlreadyRunning; RevisionConflict; Quarantined; ConfigCheckFailed;
   ConfigNotFound; BinaryNotFound; InvalidConfig; ControllerMissing; ApplyFailed;
   ApplyRollbackFailed; StopUnconfirmed; ShuttingDown; QueueFull;
   OperationConflict; BackendUnavailable; Internal].

Definition as_str (k : t) : string :=
  match k with
  | NotStarted => "not_started"
  | AlreadyRunning => "already_running"
  | RevisionConflict => "revision_conflict"
  | Quarantined => "quarantined"
  | ConfigCheckFailed => "config_check_failed"
  | ConfigNotFound => "config_not_found"
  | BinaryNotFound => "binary_not_found"
  | InvalidConfig => "invalid_config"
  | ControllerMissing => "controller_missing"
  | ApplyFailed => "apply_failed"
  | ApplyRollbackFailed => "apply_rollback_failed"
  | StopUnconfirmed => "stop_unconfirmed"
  | ShuttingDown => "shutting_down"
  | QueueFull => "queue_full"
  | OperationConflict => "operation_conflict"
  | BackendUnavailable => "backend_unavailable"
  | Internal => "internal"
  end.

Definition default_retryable (k : t) : bool :=
  match k with QueueFull | BackendUnavailable => true | _ => false end.

(** [ALL.iter().copied().find(|kind| kind.as_str() == value)]. *)
Definition from_wire (value : string) : option t :=
  List.find (λ k, String.eqb (as_str k) value) ALL.
End CoreErrorKind.

(** * Core versions (feature.rs) *)

Record Version := mkVersion { v_major : Z; v_minor : Z; v_patch : Z }.

Definition version_leb (a b : Version) : bool :=
  (v_major a <? v_major b)%Z
  || (v_major a =? v_major b)%Z
     && ((v_minor a <? v_minor b)%Z
         || (v_minor a =? v_minor b)%Z && (v_patch a <=? v_patch b)%Z).

Inductive CoreVersion := Release (v : Version) | Nightly | Unknown.

(** What the source uses of the [semver] crate.  [sv_parse] is
    [Version::parse] projected to its three numeric components, [sv_req_of] is
    [VersionReq::parse(..).expect(..)] on a literal requirement. *)
Class Semver := {
  sv_parse : string → option Version;
  sv_req : Type;
  sv_req_of : string → sv_req;
  sv_matches : sv_req → Version → bool;
}.

(** Documented behaviour of a [>=a.b.c] requirement on a version without a
    prerelease label: numeric order of the components. *)
Class SemverLaws `{Semver} := {
  sv_floor : ∀ a b c v, is_u64 a → is_u64 b → is_u64 c →
    sv_matches (sv_req_of (">=" +:+ fmt_u64 a +:+ "." +:+ fmt_u64 b +:+ "." +:+ fmt_u64 c)) v
    = version_leb (mkVersion a b c) v;
}.

(** The byte length of the Unicode white-space character at the head. *)
Definition ws_len (s : string) : nat :=
  let b := λ i, match String.get i s with
                | Some c => Z.of_nat (nat_of_ascii c) | None => (-1)%Z end in
  let b0 := b 0%nat in let b1 := b 1%nat in let b2 := b 2%nat in
  if ((9 <=? b0)%Z && (b0 <=? 13)%Z) || (b0 =? 32)%Z then 1%nat
  else if (b0 =? 194)%Z && ((b1 =? 133)%Z || (b1 =? 160)%Z) then 2%nat
  else if (b0 =? 225)%Z && (b1 =? 154)%Z && (b2 =? 128)%Z then 3%nat
  else if (b0 =? 226)%Z && (b1 =? 128)%Z
          && (((128 <=? b2)%Z && (b2 <=? 138)%Z) || (b2 =? 168)%Z || (b2 =? 169)%Z || (b2 =? 175)%Z)
       then 3%nat
  else if (b0 =? 226)%Z && (b1 =? 129)%Z && (b2 =? 159)%Z then 3%nat
  else if (b0 =? 227)%Z && (b1 =? 128)%Z && (b2 =? 128)%Z then 3%nat
  else 0%nat.

(** [str::split_whitespace]; [cur] is the token being read, reversed. *)
Fixpoint split_ws_fuel (fuel : nat) (cur : string) (s : string) : list string :=
  let flush := if String.eqb cur "" then [] else [String.rev cur] in
  match fuel with
  | O => flush
  | S fuel' =>
      match s with
      | EmptyString => flush
      | String c s' =>
          match ws_len s with
          | O => split_ws_fuel fuel' (String c cur) s'
          | S n => flush ++ split_ws_fuel fuel' "" (substring n (String.length s') s')
          end
      end
  end.
Definition split_whitespace (s : string) : list string :=
  split_ws_fuel (S (String.length s)) "" s.

Definition is_alnum (c : ascii) : bool :=
  let n := Z.of_nat (nat_of_ascii c) in
  ((48 <=? n)%Z && (n <=? 57)%Z) || ((65 <=? n)%Z && (n <=? 90)%Z) || ((97 <=? n)%Z && (n <=? 122)%Z).

Fixpoint trim_start_matches (f : ascii → bool) (s : string) : string :=
  match s with
  | String c s' => if f c then trim_start_matches f s' else s
  | EmptyString => EmptyString
  end.
(** [str::trim_matches] for a predicate that holds of every non-ASCII byte. *)
Definition trim_matches (f : ascii → bool) (s : string) : string :=
  String.rev (trim_start_matches f (String.rev (trim_start_matches f s))).

Section feature.
  Context `{Semver}.

(** [CoreVersion::parse]: the first token that reads as a release or as a
    nightly build decides. *)
Fixpoint parse_tokens (tokens : list string) : CoreVersion :=
  match tokens with
  | [] => Unknown
  | raw :: rest =>
      let token := trim_matches
        (λ c, negb (is_alnum c) && negb (existsb (Ascii.eqb c) ["."; "-"; "+"; "_"]%char)) raw in
      let version := from_option id token (strip_prefix "v" token) in
      match sv_parse version with
      | Some v => Release v
      | None =>
          if existsb (λ prefix, match strip_prefix prefix token with
                                | Some value => negb (String.eqb value "")
                                | None => false end) ["alpha-"; "nightly-"]
          then Nightly
          else parse_tokens rest
      end
  end.
Definition core_version_parse (raw : string) : CoreVersion :=
  parse_tokens (split_whitespace raw).

Inductive Support := Yes | Since (r : sv_req) | No.

Inductive Feature :=
| NamedPipeIpc | UnixSocketIpc | DisableTcpController | NamedPipeSecurityDescriptor.

#[export] Instance Feature_eq_dec : EqDecision Feature.
Proof. solve_decision. Defined.

(** [EnumSet::all()], in declaration order. *)
Definition Feature_all : list Feature :=
  [NamedPipeIpc; UnixSocketIpc; DisableTcpController; NamedPipeSecurityDescriptor].

Definition MIHOMO_UNIX : sv_req := sv_req_of ">=1.18.4".
Definition MIHOMO_PIPE : sv_req := sv_req_of ">=1.18.9".
Definition CLASH_RS_UNIX : sv_req := sv_req_of ">=0.9.1".
Definition CLASH_RS_PIPE : sv_req := sv_req_of ">=0.9.7".

Definition since (req : sv_req) (version : option CoreVersion) : Support :=
  match version with
  | Some (Release v) => if sv_matches req v then Yes else No
  | Some Nightly => Yes
  | Some Unknown => No
  | None => Since req
  end.

Definition supports (k : ClashCoreKind) (f : Feature) (version : option CoreVersion) : Support :=
  match k with
  | Mihomo =>
      match f with
      | NamedPipeIpc => since MIHOMO_PIPE version
      | NamedPipeSecurityDescriptor => since MIHOMO_PIPE version
      | UnixSocketIpc => since MIHOMO_UNIX version
      | DisableTcpController => No
      end
  | ClashRust =>
      match f with
      | NamedPipeIpc => since CLASH_RS_PIPE version
      | NamedPipeSecurityDescriptor => No
      | UnixSocketIpc => since CLASH_RS_UNIX version
      | DisableTcpController => No
      end
  | ClashPremium =>
      match f with
      | NamedPipeIpc | UnixSocketIpc | DisableTcpController | NamedPipeSecurityDescriptor => No
      end
  | Meow =>
      match f with
      | NamedPipeIpc | UnixSocketIpc | DisableTcpController | NamedPipeSecurityDescriptor => No
      end
  end.

Definition is_yes (s : Support) : bool := match s with Yes => true | _ => false end.
Definition is_no (s : Support) : bool := match s with No => true | _ => false end.

(** An [EnumSet<Feature>] is the list of its members in declaration order. *)
Definition features (k : ClashCoreKind) (version : option CoreVersion) : list Feature :=
  List.filter (λ f, is_yes (supports k f version)) Feature_all.

Definition potential_features (k : ClashCoreKind) : list Feature :=
  List.filter (λ f, negb (is_no (supports k f None))) Feature_all.
End feature.

(** * Properties *)
Lemma Feature_all_complete (f : Feature) : In f Feature_all.
Proof. destruct f; simpl; auto. Qed.

Lemma in_features `{Semver} k v f : In f (features k v) ↔ supports k f v = Yes.
Proof.
  unfold features. rewrite filter_In. split.
  - intros [_ Hy]. by destruct (supports k f v).
  - intros ->. split; [apply Feature_all_complete|done].
Qed.

(** The order a version gives to what it enables: unknown builds enable the
    least, releases grow with their number, nightlies enable the most. *)
Definition core_version_le (a b : CoreVersion) : Prop :=
  match a, b with
  | Unknown, _ => True
  | Release v, Release w => version_leb v w = true
  | Release _, Nightly => True
  | Nightly, Nightly => True
  | _, _ => False
  end.

Lemma version_leb_trans a b c :
  version_leb a b = true → version_leb b c = true → version_leb a c = true.
Proof.
  destruct a, b, c; unfold version_leb; simpl.
  rewrite !orb_true_iff, !andb_true_iff, !orb_true_iff, !andb_true_iff,
    !Z.ltb_lt, !Z.eqb_eq, !Z.leb_le. lia.
Qed.

Lemma since_mono `{SemverLaws} a b c v w :
  is_u64 a → is_u64 b → is_u64 c → core_version_le v w →
  let r := sv_req_of (">=" +:+ fmt_u64 a +:+ "." +:+ fmt_u64 b +:+ "." +:+ fmt_u64 c) in
  since r (Some v) = Yes → since r (Some w) = Yes.
Proof.
  intros Ha Hb Hc Hle r. subst r. destruct v as [v| |], w as [w| |]; simpl in *; try done.
  rewrite !sv_floor by done.
  destruct (version_leb (mkVersion a b c) v) eqn:E; [|done].
  by rewrite (version_leb_trans _ _ _ E Hle).
Qed.

(** capabilities are monotone in the core version: whatever a build
    enables, every build at least as new enables too (an unknown version
    enables nothing, a nightly enables at least what every release does); and
    only features the kind may potentially have are ever enabled. *)
Theorem features_monotone `{SemverLaws} k v w :
  core_version_le v w →
  (∀ f, In f (features k (Some v)) → In f (features k (Some w)))
  ∧ (∀ f, In f (features k (Some v)) → In f (potential_features k)).
Proof.
  intros Hle. split; intros f.
  - rewrite !in_features. destruct k, f; simpl; try done;
      [apply (since_mono 1 18 9)|apply (since_mono 1 18 4)|apply (since_mono 1 18 9)
      |apply (since_mono 0 9 7)|apply (since_mono 0 9 1)]; unfold is_u64, u64_max; done || lia.
  - rewrite in_features. unfold potential_features. rewrite filter_In.
    intros Hy. split; [apply Feature_all_complete|]. by destruct k, f.
Qed.

(** A concrete [semver] for requirements of the form [>=a.b.c]. *)
Definition parse_triple (s : string) : option Version :=
  match split_once "." s with
  | Some (a, rest) =>
      match split_once "." rest with
      | Some (b, c) =>
          match parse_u64 a, parse_u64 b, parse_u64 c with
          | Some a, Some b, Some c => Some (mkVersion a b c)
          | _, _, _ => None
          end
      | None => None
      end
  | None => None
  end.

#[export] Instance toy_semver : Semver := {|
  sv_parse := parse_triple;
  sv_req := option Version;
  sv_req_of s := match strip_prefix ">=" s with Some r => parse_triple r | None => None end;
  sv_matches r v := match r with Some floor => version_leb floor v | None => false end;
|}.

Lemma digits_no_dot s :
  string_forallb is_dec_digit s = true →
  string_forallb (λ d, negb (Ascii.eqb "."%char d)) s = true.
Proof.
  apply string_forallb_impl. intros c Hc.
  destruct (Ascii.eqb_spec "."%char c) as [<-|]; done.
Qed.

#[export] Instance toy_semver_laws : SemverLaws.
Proof.
  constructor. intros a b c v Ha Hb Hc. cbn [sv_matches sv_req_of toy_semver].
  rewrite strip_prefix_app. unfold parse_triple.
  change ("." +:+ fmt_u64 b +:+ "." +:+ fmt_u64 c)
    with (String "."%char (fmt_u64 b +:+ String "."%char (fmt_u64 c))).
  rewrite !split_once_char by (apply digits_no_dot, fmt_u64_digits; apply Ha || apply Hb).
  by rewrite !parse_fmt_u64.
Qed.

Lemma features_monotone_witness :
  core_version_le (Release (mkVersion 1 18 4)) (Release (mkVersion 1 19 0))
  ∧ (∀ f, In f (features Mihomo (Some (Release (mkVersion 1 18 4))))
        → In f (features Mihomo (Some (Release (mkVersion 1 19 0)))))
  ∧ features Mihomo (Some (core_version_parse "Mihomo Meta v1.18.9 linux amd64"))
    = [NamedPipeIpc; UnixSocketIpc; NamedPipeSecurityDescriptor].
Proof.
  split; [vm_compute; done|]. split; [|vm_compute; done].
  apply (features_monotone Mihomo (Release (mkVersion 1 18 4)) (Release (mkVersion 1 19 0))).
  vm_compute; done.
Defined.

(** the wire spelling of an error kind decodes to exactly that kind, and
    a string that is no spelling decodes to nothing. *)
Theorem from_wire_as_str (value : string) (k : CoreErrorKind.t) :
  CoreErrorKind.from_wire value = Some k ↔ value = CoreErrorKind.as_str k.
Proof.
  split.
  - intros [_ E]%List.find_some. by apply String.eqb_eq in E.
  - intros ->. by destruct k.
Qed.
