(* ===== verification/Types.v ===== *)
(** The data model of [nyanpasu-core-manager]: epochs (epoch.rs), launch
    specifications and options (spec.rs), states and published status
    (state.rs), errors (error.rs), and the launch profiles of the core kinds
    (kind.rs).

    Durations are nanoseconds and instants and unix times are integers in [Z];
    paths are their UTF-8 text; the Unix build of the crate is modelled. *)
From S2P Require Import Prelude Text Metadata.
From Stdlib Require Import Ascii String ZArith Lia.

(** * Epochs (epoch.rs) *)

(** An [Epoch] wraps a [NonZeroU64]; the number is kept, and [epoch_ok] says
    that it is one. *)
Abbreviation Epoch := Z (only parsing).
Definition epoch_ok (e : Epoch) : Prop := (1 ≤ e ≤ u64_max)%Z.

(** [Epoch::new]; [TryFrom<u64>] is the same test. *)
Definition epoch_new (value : Z) : option Epoch := if (value =? 0)%Z then None else Some value.

(** * Controllers (clash-api's [Host], spec.rs) *)

(** The [Http] endpoint holds the text of its parsed URL. *)
Inductive Host := NamedPipe (path : string) | UnixSocket (path : string) | Http (url : string).

Record ResolvedController := mkController { rc_host : Host; rc_secret : option string }.

#[export] Instance Host_eq_dec : EqDecision Host.
Proof. solve_decision. Defined.
#[export] Instance ResolvedController_eq_dec : EqDecision ResolvedController.
Proof. solve_decision. Defined.

(** * Launch specifications (spec.rs) *)

Record CoreSpec := mkCoreSpec {
  cs_kind : ClashCoreKind;
  cs_binary_path : string;
  cs_version : option string;
  cs_features : list string;
}.

Inductive LocalIpcPolicy := Force | Prefer | Disable.

Record LocalIpcSettings := mkLocalIpc {
  li_policy : LocalIpcPolicy;
  li_keep_http_controller : bool;
}.

Record HealthPolicy := mkHealthPolicy {
  hp_interval : Z;
  hp_timeout : Z;
  hp_failure_threshold : Z;
  hp_success_threshold : Z;
  hp_start_period : Z;
}.

(** The supervision vocabulary of [nyanpasu-utils], which the manager stores,
    compares and hands on. *)
Class ProcessLib := {
  RestartPolicy : Type;
  Backoff : Type;
  RestartPolicy_eq_dec :: EqDecision RestartPolicy;
  Backoff_eq_dec :: EqDecision Backoff;
  rp_OnFailure : Z → RestartPolicy;
  bo_exponential : Z → Z → Backoff;
  bo_with_jitter : Backoff → Backoff;
}.

#[export] Instance CoreSpec_eq_dec : EqDecision CoreSpec.
Proof. solve_decision. Defined.
#[export] Instance LocalIpcPolicy_eq_dec : EqDecision LocalIpcPolicy.
Proof. solve_decision. Defined.
#[export] Instance LocalIpcSettings_eq_dec : EqDecision LocalIpcSettings.
Proof. solve_decision. Defined.
#[export] Instance HealthPolicy_eq_dec : EqDecision HealthPolicy.
Proof. solve_decision. Defined.

Definition millis (n : Z) : Z := (n * 1000000)%Z.
Definition secs (n : Z) : Z := (n * 1000000000)%Z.

Definition health_policy_default : HealthPolicy :=
  mkHealthPolicy (millis 250) (secs 1) 3 1 0.

Section spec.
Context `{ProcessLib}.

Record InstanceOptions := mkInstanceOptions {
  io_local_ipc : option LocalIpcSettings;
  io_startup_timeout : Z;
  io_health : HealthPolicy;
  io_restart_policy : RestartPolicy;
  io_backoff : Backoff;
}.

Definition instance_options_default : InstanceOptions := {|
  io_local_ipc := None;
  io_startup_timeout := secs 30;
  io_health := health_policy_default;
  io_restart_policy := rp_OnFailure 5;
  io_backoff := bo_with_jitter (bo_exponential (secs 1) (secs 30));
|}.

Record InstanceSpec := mkInstanceSpec {
  is_core : CoreSpec;
  is_config_path : string;
  is_working_dir : string;
  is_pid_file : option string;
  is_options : InstanceOptions;
}.

(** Struct update of the two fields the manager rewrites. *)
Definition with_config_path (p : string) (s : InstanceSpec) : InstanceSpec :=
  mkInstanceSpec (is_core s) p (is_working_dir s) (is_pid_file s) (is_options s).
Definition with_pid_file (p : option string) (s : InstanceSpec) : InstanceSpec :=
  mkInstanceSpec (is_core s) (is_config_path s) (is_working_dir s) p (is_options s).

Record ManagerOptions := mkManagerOptions {
  mo_runtime_dir : option string;
  mo_local_ipc_policy : LocalIpcPolicy;
  mo_controller_template : option string;
  mo_controller_dir : option string;
  mo_control_timeout : Z;
  mo_reconcile_timeout : Z;
  mo_stop_timeout : Z;
  mo_dns_timeout : Z;
  mo_log_sink_enabled : bool;
  mo_log_max_bytes : Z;
  mo_log_max_files : Z;
}.

Definition manager_options_default : ManagerOptions := {|
  mo_runtime_dir := None;
  mo_local_ipc_policy := Disable;
  mo_controller_template := None;
  mo_controller_dir := None;
  mo_control_timeout := secs 10;
  mo_reconcile_timeout := secs 30;
  mo_stop_timeout := secs 10;
  mo_dns_timeout := secs 10;
  mo_log_sink_enabled := true;
  mo_log_max_bytes := 4 * 1024 * 1024;
  mo_log_max_files := 5;
|}.
End spec.

(** * States and the published status (state.rs) *)

Inductive HealthState := HStarting | HHealthy | HUnhealthy.

Record HealthStatus := mkHealthStatus {
  hs_state : HealthState;
  hs_changed_at : Z;
  hs_consecutive_failures : Z;
  hs_last_error : option string;
  hs_last_success_at : option Z;
}.

(** [HealthStatus::starting], with the clock reading as an argument. *)
Definition health_starting (now : Z) : HealthStatus := mkHealthStatus HStarting now 0 None None.

Inductive StopReason := Finished | User | SError (message : string).

Definition stop_reason_display (r : StopReason) : string :=
  match r with
  | Finished => "core exited"
  | User => "stopped by user"
  | SError message => message
  end.

Inductive InstanceState :=
| IStarting
| IRunning (pid : Z)
| IRestarting (attempt : Z)
| IStopping
| IStopped (reason : StopReason).

(** [InstanceState::is_terminal]. *)
Definition is_terminal (s : InstanceState) : bool :=
  match s with IStopped _ => true | _ => false end.

Definition Uuid := Z.

Record InstanceStatus := mkInstanceStatus {
  st_instance_id : option Uuid;
  st_state : InstanceState;
  st_health : option HealthStatus;
}.

Definition instance_status_initial (now : Z) : InstanceStatus :=
  mkInstanceStatus None IStarting (Some (health_starting now)).

Inductive CoreState :=
| Stopped (reason : option StopReason)
| Starting (epoch : Epoch)
| Running (epoch : Epoch) (pid : Z)
| Restarting (epoch : Epoch) (attempt : Z)
| Switching (from : option Epoch) (to : Epoch)
| Stopping (epoch : Epoch).

#[export] Instance HealthState_eq_dec : EqDecision HealthState.
Proof. solve_decision. Defined.
#[export] Instance HealthStatus_eq_dec : EqDecision HealthStatus.
Proof. solve_decision. Defined.
#[export] Instance StopReason_eq_dec : EqDecision StopReason.
Proof. solve_decision. Defined.
#[export] Instance InstanceState_eq_dec : EqDecision InstanceState.
Proof. solve_decision. Defined.
#[export] Instance CoreState_eq_dec : EqDecision CoreState.
Proof. solve_decision. Defined.

(** [RuntimeFeature] has one member, so an [EnumSet<RuntimeFeature>] is the
    list of its members like the feature sets of [Metadata]. *)
Inductive RuntimeFeature := LocalIpc.
#[export] Instance RuntimeFeature_eq_dec : EqDecision RuntimeFeature.
Proof. solve_decision. Defined.

Record SpecSummary := mkSpecSummary {
  ss_kind : ClashCoreKind;
  ss_config_path : string;
  ss_capabilities : list Feature;
  ss_runtime_features : list RuntimeFeature;
}.

Record ConfigRevision := mkRevision {
  cr_epoch : Epoch;
  cr_generation : Z;
  cr_source_hash : string;
  cr_effective_hash : string;
  cr_runtime_path : string;
}.

Record RevisionId := mkRevisionId {
  ri_epoch : Epoch;
  ri_generation : Z;
  ri_effective_hash : string;
}.

#[export] Instance ConfigRevision_eq_dec : EqDecision ConfigRevision.
Proof. solve_decision. Defined.
#[export] Instance RevisionId_eq_dec : EqDecision RevisionId.
Proof. solve_decision. Defined.

(** [ConfigRevision::id]. *)
Definition revision_id (r : ConfigRevision) : RevisionId :=
  mkRevisionId (cr_epoch r) (cr_generation r) (cr_effective_hash r).

(** [Display for RevisionId]. *)
Definition revision_display (r : RevisionId) : string :=
  "epoch " +:+ fmt_u64 (ri_epoch r) +:+ " generation " +:+ fmt_u64 (ri_generation r)
  +:+ " (" +:+ ri_effective_hash r +:+ ")".

Record CoreStatus := mkCoreStatus {
  co_instance_id : option Uuid;
  co_state : CoreState;
  co_changed_at : Z;
  co_health : option HealthStatus;
  co_spec : option SpecSummary;
  co_controller : option Host;
  co_revision : option ConfigRevision;
}.

Definition core_status_initial (now : Z) : CoreStatus :=
  mkCoreStatus None (Stopped None) now None None None None.

(** * Errors (error.rs) *)

(** Wrapped errors of other crates ([Process], [Api], [Yaml], [Io]) are their
    [Display] text. *)
Inductive Error :=
| AlreadyRunning
| NotStarted
| ConfigNotFound (path : string)
| BinaryNotFound (path : string)
| CoreVersionProbeFailed (binary_path detail : string)
| ControllerMissing
| RequiredLocalIpcUnsupported (kind : ClashCoreKind) (version : string)
| ConfigCheckFailed (message : string)
| InvalidConfig (message : string)
| InvalidManagerOptions (message : string)
| InvalidHealthPolicy (message : string)
| UnsafeRuntimeArtifact (path : string)
| RuntimeDirectoryOwned (path : string)
| StopUnconfirmed (message : string)
| ManagerQuarantined (epoch : Epoch) (reason : string)
| RevisionConflict (expected : RevisionId) (actual : option RevisionId)
| ApplyFailed (message : string)
| ApplyRollbackFailed (apply rollback : string)
| DurabilityUncertain (source : Error) (warning : string)
| StartupTimeout (stderr_tail : string)
| StartupFailed (stderr_tail : string)
| Process (message : string)
| Api (message : string)
| Yaml (message : string)
| Io (message : string).

#[export] Instance Error_eq_dec : EqDecision Error.
Proof. solve_decision. Defined.

(** [Error::kind]. *)
Fixpoint error_kind (e : Error) : option CoreErrorKind.t :=
  match e with
  | AlreadyRunning => Some CoreErrorKind.AlreadyRunning
  | NotStarted => Some CoreErrorKind.NotStarted
  | ConfigNotFound _ => Some CoreErrorKind.ConfigNotFound
  | BinaryNotFound _ => Some CoreErrorKind.BinaryNotFound
  | ControllerMissing => Some CoreErrorKind.ControllerMissing
  | ConfigCheckFailed _ => Some CoreErrorKind.ConfigCheckFailed
  | InvalidConfig _ | Yaml _ => Some CoreErrorKind.InvalidConfig
  | StopUnconfirmed _ => Some CoreErrorKind.StopUnconfirmed
  | ManagerQuarantined _ _ => Some CoreErrorKind.Quarantined
  | RevisionConflict _ _ => Some CoreErrorKind.RevisionConflict
  | ApplyFailed _ => Some CoreErrorKind.ApplyFailed
  | ApplyRollbackFailed _ _ => Some CoreErrorKind.ApplyRollbackFailed
  | DurabilityUncertain source _ => error_kind source
  | CoreVersionProbeFailed _ _ | RequiredLocalIpcUnsupported _ _ | InvalidManagerOptions _
  | InvalidHealthPolicy _ | UnsafeRuntimeArtifact _ | RuntimeDirectoryOwned _
  | StartupTimeout _ | StartupFailed _ | Process _ | Api _ | Io _ => None
  end.

Definition quote : string := String (ascii_of_nat 34) EmptyString.
Definition nl : string := String (ascii_of_nat 10) EmptyString.

(** The derived [Debug] of [Option<RevisionId>]; the hash is sixteen
    hexadecimal digits, so its string needs no escapes. *)
Definition revision_debug (r : option RevisionId) : string :=
  match r with
  | None => "None"
  | Some r =>
      "Some(RevisionId { epoch: Epoch(" +:+ fmt_u64 (ri_epoch r) +:+ "), generation: "
      +:+ fmt_u64 (ri_generation r) +:+ ", effective_hash: " +:+ quote
      +:+ ri_effective_hash r +:+ quote +:+ " })"
  end.

(** [Display for Error] (the [#[error(..)]] attributes). *)
Fixpoint error_display (e : Error) : string :=
  match e with
  | AlreadyRunning => "core is already running"
  | NotStarted => "core is not running"
  | ConfigNotFound p => "config file not found: " +:+ p
  | BinaryNotFound p => "core binary not found: " +:+ p
  | CoreVersionProbeFailed b d =>
      "failed to probe version from core binary `" +:+ b +:+ "`: " +:+ d
  | ControllerMissing => "no external controller configured; the version health probe needs one"
  | RequiredLocalIpcUnsupported k v =>
      "core `" +:+ kind_as_ref k +:+ "` version `" +:+ v
      +:+ "` does not support the required local IPC transport; use LocalIpcPolicy::Prefer or LocalIpcPolicy::Disable"
  | ConfigCheckFailed m => "config check failed: " +:+ m
  | InvalidConfig m => "invalid runtime config: " +:+ m
  | InvalidManagerOptions m => "invalid manager options: " +:+ m
  | InvalidHealthPolicy m => "invalid health policy: " +:+ m
  | UnsafeRuntimeArtifact p => "unsafe runtime artifact: " +:+ p
  | RuntimeDirectoryOwned p => "runtime directory is already owned by another manager: " +:+ p
  | StopUnconfirmed m => "core process death could not be confirmed: " +:+ m
  | ManagerQuarantined e r =>
      "manager is quarantined by uncertain epoch " +:+ fmt_u64 e +:+ ": " +:+ r
  | RevisionConflict x a =>
      "config revision conflict: expected " +:+ revision_display x +:+ ", actual "
      +:+ revision_debug a
  | ApplyFailed m => "config apply failed: " +:+ m
  | ApplyRollbackFailed a r =>
      "config apply failed (" +:+ a +:+ "); rollback also failed (" +:+ r +:+ ")"
  | DurabilityUncertain source w =>
      error_display source +:+ "; runtime durability warning: " +:+ w
  | StartupTimeout t =>
      "core did not become healthy before the startup timeout; diagnostic log tail:" +:+ nl +:+ t
  | StartupFailed t => "core failed to start; diagnostic log tail:" +:+ nl +:+ t
  | Process m | Api m | Io m => m
  | Yaml m => "failed to process config YAML: " +:+ m
  end.

(** [matches!(error, Error::StopUnconfirmed(_))]. *)
Definition is_stop_unconfirmed (e : Error) : bool :=
  match e with StopUnconfirmed _ => true | _ => false end.

(** The durability wrapper is transparent to classification, however often it
    is applied. *)
Lemma error_kind_durability e ws :
  error_kind (foldr (λ w acc, DurabilityUncertain acc w) e ws) = error_kind e.
Proof. by induction ws. Qed.

(** * Launch profiles (kind.rs) *)

Record CorePaths := mkCorePaths { cp_working_dir : string; cp_config_path : string }.

Definition core_paths `{ProcessLib} (s : InstanceSpec) : CorePaths :=
  mkCorePaths (is_working_dir s) (is_config_path s).

(** [run_args]: every kind has a profile, so the result is never an error. *)
Definition run_args (kind : ClashCoreKind) (p : CorePaths) : result (list string) Error :=
  let dir := cp_working_dir p in
  let cfg := cp_config_path p in
  Ok match kind with
     | Mihomo | Meow => ["-m"; "-d"; dir; "-f"; cfg]
     | ClashRust => ["-d"; dir; "-c"; cfg]
     | ClashPremium => ["-d"; dir; "-f"; cfg]
     end.

Definition controller_args (kind : ClashCoreKind) (host : Host) : list string :=
  match kind with
  | ClashRust =>
      match host with
      | NamedPipe path | UnixSocket path => ["--controller-ipc"; path]
      | Http _ => []
      end
  | _ => []
  end.

Definition check_args (p : CorePaths) : list string :=
  ["-t"; "-d"; cp_working_dir p; "-f"; cp_config_path p].

Definition MIHOMO_SAFE_PATHS_ENV_NAME : string := "SAFE_PATHS".
Definition CLICOLOR_FORCE_ENV_NAME : string := "CLICOLOR_FORCE".
Definition SAFE_PATHS_SEPARATOR : string := ":".
Definition CHECK_CONFIG_TIMEOUT : Z := secs 30.

Definition mihomo_safe_paths (working_dir config_dir : string) : string :=
  join SAFE_PATHS_SEPARATOR [working_dir; config_dir].

(** * Transaction outcomes (manager/mod.rs) *)

Inductive DegradeReason :=
| NotRunning | UnsupportedKind | DnsListen | InboundConflict | PatchFailed | HttpController.

Inductive SwitchOutcome :=
| Graceful
| Hard (reason : DegradeReason)
| SDurabilityUncertain (outcome : SwitchOutcome) (warning : string).

Inductive ApplyOutcome :=
| Started (revision : ConfigRevision)
| Noop (revision : ConfigRevision)
| Patched (revision : ConfigRevision)
| Reloaded (revision : ConfigRevision)
| Restarted (revision : ConfigRevision)
| Switched (revision : ConfigRevision)
| RolledBack (revision : ConfigRevision) (failed_apply : string)
| ADurabilityUncertain (outcome : ApplyOutcome) (warning : string).

(** The revision an outcome reports as actually applied. *)
Fixpoint outcome_revision (o : ApplyOutcome) : ConfigRevision :=
  match o with
  | Started r | Noop r | Patched r | Reloaded r | Restarted r | Switched r
  | RolledBack r _ => r
  | ADurabilityUncertain o _ => outcome_revision o
  end.

(** A stand-in for the supervision vocabulary, for concrete runs. *)
Definition toy_process : ProcessLib := {|
  RestartPolicy := Z; Backoff := Z; RestartPolicy_eq_dec := Z.eq_dec; Backoff_eq_dec := Z.eq_dec;
  rp_OnFailure n := n; bo_exponential a b := (a + b)%Z; bo_with_jitter b := (- b)%Z |}.
