(* ===== verification/Operation.v ===== *)
(** Operation identity and payload digests of the control plane
    (control/mod.rs): [OperationId] with its textual form, the FNV-1a digest
    the idempotency table compares, and the commands a host submits. *)
From S2P Require Import Prelude Text Metadata Types.
From Stdlib Require Import Ascii String ZArith Lia.

(** * Operation ids *)

Record OperationId := mkOperationId { op_nanos : Z; op_pid : Z; op_counter : Z }.

#[export] Instance OperationId_eq_dec : EqDecision OperationId.
Proof. solve_decision. Defined.
#[export] Instance OperationId_countable : Countable OperationId.
Proof.
  refine (inj_countable' (λ o, (op_nanos o, op_pid o, op_counter o))
            (λ '(a, b, c), mkOperationId a b c) _).
  by intros [].
Defined.

(** The widths of the fields: [u64], [u32], [u32]. *)
Definition operation_id_ok (o : OperationId) : Prop :=
  is_u64 (op_nanos o) ∧ is_u32 (op_pid o) ∧ is_u32 (op_counter o).

(** [Display]: ["{:016x}-{:08x}-{:08x}"]. *)
Definition operation_id_display (o : OperationId) : string :=
  fmt_hex 16 (op_nanos o) "" +:+ "-" +:+ fmt_hex 8 (op_pid o) "" +:+ "-"
  +:+ fmt_hex 8 (op_counter o) "".

Inductive ParseOperationIdError := mkParseOperationIdError.

Definition id_byte (c : ascii) : bool := Ascii.eqb c "-"%char || is_hex_digit c.

(** [FromStr]. *)
Definition operation_id_from_str (value : string) : result OperationId ParseOperationIdError :=
  match split_once "-" value with
  | None => Err mkParseOperationIdError
  | Some (nanos, rest) =>
      match split_once "-" rest with
      | None => Err mkParseOperationIdError
      | Some (pid, counter) =>
          if negb (String.length nanos =? 16)%nat || negb (String.length pid =? 8)%nat
             || negb (String.length counter =? 8)%nat || negb (string_forallb id_byte value)
          then Err mkParseOperationIdError
          else
            match from_str_radix 16 u64_max nanos, from_str_radix 16 u32_max pid,
                  from_str_radix 16 u32_max counter with
            | Some n, Some p, Some c => Ok (mkOperationId n p c)
            | _, _, _ => Err mkParseOperationIdError
            end
      end
  end.

(** * Digests *)

Definition FNV_OFFSET : Z := 14695981039346656037. (* 0xcbf2_9ce4_8422_2325 *)
Definition FNV_PRIME : Z := 1099511628211.        (* 0x0000_0100_0000_01b3 *)

Definition byte_val (c : ascii) : Z := Z.of_nat (nat_of_ascii c).

(** One iteration of the hashing loop. *)
Definition fnv_step (hash : Z) (byte : ascii) : Z :=
  wrapping_mul_u64 (Z.lxor hash (byte_val byte)) FNV_PRIME.

Fixpoint fnv1a (hash : Z) (bytes : string) : Z :=
  match bytes with
  | EmptyString => hash
  | String b rest => fnv1a (fnv_step hash b) rest
  end.

(** [payload_digest]: 64-bit FNV-1a as sixteen hexadecimal digits. *)
Definition payload_digest (bytes : string) : string := fmt_hex 16 (fnv1a FNV_OFFSET bytes) "".

(** * Commands *)

(** [ConfigInput::Inline]. *)
Record ConfigInput := Inline { ci_bytes : string; ci_expected_digest : option string }.

Section commands.
Context `{ProcessLib}.

Record ReconcileRequest := mkReconcileRequest {
  rr_core : CoreSpec;
  rr_config : ConfigInput;
  rr_options : InstanceOptions;
  rr_expected_applied : option RevisionId;
}.

Inductive CoreCommand := Reconcile (r : ReconcileRequest) | Stop | Recover | Shutdown.

Definition is_shutdown (c : CoreCommand) : bool :=
  match c with Shutdown => true | _ => false end.

Definition nul : string := String (ascii_of_nat 0) EmptyString.

(** The derived [Debug] of [Option<LocalIpcSettings>]. *)
Definition local_ipc_debug (s : option LocalIpcSettings) : string :=
  match s with
  | None => "None"
  | Some s =>
      "Some(LocalIpcSettings { policy: "
      +:+ match li_policy s with Force => "Force" | Prefer => "Prefer" | Disable => "Disable" end
      +:+ ", keep_http_controller: "
      +:+ (if li_keep_http_controller s then "true" else "false") +:+ " })"
  end.

(** The bytes [CoreCommand::payload_digest] hashes for a reconcile. *)
Definition reconcile_payload (r : ReconcileRequest) : string :=
  "reconcile" +:+ nul +:+ kind_as_ref (cs_kind (rr_core r)) +:+ nul
  +:+ cs_binary_path (rr_core r) +:+ nul
  +:+ from_option id "" (cs_version (rr_core r)) +:+ nul
  +:+ foldr (λ f acc, f +:+ nul +:+ acc) "" (cs_features (rr_core r))
  +:+ from_option revision_display "" (rr_expected_applied r)
  +:+ nul +:+ "controller:" +:+ local_ipc_debug (io_local_ipc (rr_options r)) +:+ nul
  +:+ ci_bytes (rr_config r) +:+ nul +:+ "digest:"
  +:+ from_option id "" (ci_expected_digest (rr_config r)).

Definition command_digest (c : CoreCommand) : string :=
  match c with
  | Reconcile r => payload_digest (reconcile_payload r)
  | Stop => payload_digest "stop"
  | Recover => payload_digest "recover"
  | Shutdown => payload_digest "shutdown"
  end.
End commands.

(** * Lemmas *)
Lemma fmt_hex_front n z acc :
  (0 ≤ z)%Z →
  fmt_hex (S n) z acc = String (ascii_digit ((z / 16 ^ Z.of_nat n) mod 16)) (fmt_hex n z acc).
Proof.
  revert z acc. induction n as [|n IH]; intros z acc Hz.
  - simpl. by rewrite Z.div_1_r.
  - change (fmt_hex (S (S n)) z acc)
      with (fmt_hex (S n) (z / 16) (String (ascii_digit (z mod 16)) acc)).
    rewrite IH by (apply Z.div_pos; lia). simpl.
    rewrite Z.div_div by lia. by rewrite <-Z.pow_succ_r, <-Nat2Z.inj_succ by lia.
Qed.

(** Lower-case hexadecimal bytes are exactly the digits the formatter emits. *)
Lemma hex_digit_inv c :
  is_hex_digit c = true →
  ∃ d, (0 ≤ d < 16)%Z ∧ digit_val 16 c = Some d ∧ ascii_digit d = c.
Proof.
  assert (∀ n, (n < 256)%nat → is_hex_digit (ascii_of_nat n) = true →
    ∃ d, (0 ≤ d < 16)%Z ∧ digit_val 16 (ascii_of_nat n) = Some d ∧ ascii_digit d = ascii_of_nat n)
    as Hall.
  { intros n Hn Hh. unfold is_hex_digit in Hh. rewrite nat_ascii_embedding in Hh by lia.
    apply orb_true_iff in Hh as [[H1 H2]%andb_true_iff|[H1 H2]%andb_true_iff];
      apply Z.leb_le in H1, H2.
    - exists (Z.of_nat n - 48)%Z. unfold digit_val, ascii_digit.
      rewrite nat_ascii_embedding by lia.
      split; [lia|]. zcases; simpl; zcases. split; [done|]. f_equal. lia.
    - exists (Z.of_nat n - 87)%Z. unfold digit_val, ascii_digit.
      rewrite nat_ascii_embedding by lia.
      split; [lia|]. zcases; simpl; zcases. split; [done|]. f_equal. lia. }
  rewrite <-(ascii_nat_embedding c). apply Hall, nat_ascii_bounded.
Qed.

Lemma parse_hex_canonical max acc s z :
  string_forallb is_hex_digit s = true → (0 ≤ acc)%Z →
  parse_digits 16 max acc s = Some z →
  (0 ≤ z)%Z ∧ fmt_hex (String.length s) z "" = s ∧ (z / 16 ^ Z.of_nat (String.length s) = acc)%Z.
Proof.
  revert acc. induction s as [|c s IH]; intros acc Hs Hacc H; simpl in H.
  - simplify_eq. simpl. by rewrite Z.div_1_r.
  - simpl in Hs. apply andb_true_iff in Hs as [Hc Hs].
    destruct (hex_digit_inv c Hc) as (d & Hd & Hv & Hdc). rewrite Hv in H.
    destruct (acc * 16 + d <=? max)%Z; [|done].
    destruct (IH (acc * 16 + d)%Z Hs ltac:(lia) H) as (Hz & Hf & Hq). split; [done|].
    cbn [String.length]. rewrite fmt_hex_front, Hf, Hq by done. split.
    + f_equal. rewrite <-Hdc. f_equal. symmetry. apply (Z.mod_unique _ _ acc); lia.
    + rewrite Nat2Z.inj_succ, Z.pow_succ_r, Z.mul_comm, <-Z.div_div, Hq by lia.
      symmetry. apply (Z.div_unique _ _ _ d); lia.
Qed.

Lemma parse_digits_le radix max acc s z :
  (acc ≤ max)%Z → parse_digits radix max acc s = Some z → (z ≤ max)%Z.
Proof.
  revert acc. induction s as [|c s IH]; intros acc Ha H; simpl in H; [by simplify_eq|].
  destruct (digit_val radix c); [|done].
  destruct (Z.leb_spec (acc * radix + z0) max); [|done]. by eapply IH.
Qed.

Lemma from_str_radix_hex max s :
  string_forallb is_hex_digit s = true → s ≠ "" →
  from_str_radix 16 max s = parse_digits 16 max 0 s.
Proof.
  destruct s as [|c s]; [done|]. cbn [string_forallb from_str_radix].
  intros [Hc _]%andb_true_iff _. destruct (Ascii.eqb_spec c "+"%char) as [->|]; done.
Qed.

Lemma hex_no_dash s :
  string_forallb is_hex_digit s = true →
  string_forallb (λ d, negb (Ascii.eqb "-"%char d)) s = true.
Proof.
  apply string_forallb_impl. intros c Hc. destruct (Ascii.eqb_spec "-"%char c) as [<-|]; done.
Qed.

Lemma fmt_hex_ok w z :
  (0 ≤ z)%Z → string_forallb is_hex_digit (fmt_hex w z "") = true.
Proof. intros. by apply fmt_hex_digits. Qed.

Lemma split_once_no_dash s a b :
  split_once "-" s = Some (a, b) → string_forallb (λ d, negb (Ascii.eqb "-"%char d)) a = true.
Proof.
  revert a. induction s as [|c s IH]; intros a Hs; [done|].
  cbn [split_once strip_prefix] in Hs.
  destruct (Ascii.eqb "-"%char c) eqn:E; [by simplify_eq|].
  destruct (split_once "-" s) as [[a' b']|]; [|done]. injection Hs as <- <-.
  cbn [string_forallb]. by rewrite E, (IH a' eq_refl).
Qed.

Lemma id_byte_hex s :
  string_forallb id_byte s = true →
  string_forallb (λ d, negb (Ascii.eqb "-"%char d)) s = true →
  string_forallb is_hex_digit s = true.
Proof.
  induction s as [|c s IH]; [done|]. cbn [string_forallb].
  intros [Hi Hs]%andb_true_iff [Hn Hs']%andb_true_iff. rewrite IH by done.
  unfold id_byte in Hi. rewrite Ascii.eqb_sym in Hi.
  destruct (Ascii.eqb "-"%char c); [done|]. cbn [orb] in Hi. by rewrite Hi.
Qed.

Lemma from_str_radix_fmt_hex w max z :
  (0 ≤ z < 16 ^ Z.of_nat w)%Z → (z ≤ max)%Z → w ≠ O →
  from_str_radix 16 max (fmt_hex w z "") = Some z.
Proof.
  intros Hz Hm Hw. rewrite from_str_radix_hex.
  - rewrite parse_fmt_hex by done. done.
  - apply fmt_hex_ok. lia.
  - intros E. apply (f_equal String.length) in E. rewrite length_fmt_hex in E. simpl in E. lia.
Qed.

Lemma operation_id_parse_display o :
  operation_id_ok o → operation_id_from_str (operation_id_display o) = Ok o.
Proof.
  destruct o as [n p c]. unfold operation_id_ok, is_u64, is_u32, u64_max, u32_max. simpl.
  intros (Hn & Hp & Hc). unfold operation_id_from_str, operation_id_display.
  cbn [op_nanos op_pid op_counter].
  change ("-" +:+ fmt_hex 8 p "" +:+ "-" +:+ fmt_hex 8 c "")
    with (String "-"%char (fmt_hex 8 p "" +:+ String "-"%char (fmt_hex 8 c ""))).
  rewrite split_once_char by (apply hex_no_dash, fmt_hex_ok; lia).
  rewrite split_once_char by (apply hex_no_dash, fmt_hex_ok; lia).
  rewrite !length_fmt_hex. cbn [Nat.add String.length Nat.eqb negb orb].
  assert (∀ w z, (0 ≤ z)%Z → string_forallb id_byte (fmt_hex w z "") = true) as Hid.
  { intros w z Hz. eapply string_forallb_impl; [|by apply fmt_hex_ok].
    intros d Hd. unfold id_byte. by rewrite Hd, orb_true_r. }
  rewrite string_forallb_app. cbn [string_forallb].
  rewrite string_forallb_app. cbn [string_forallb].
  rewrite !Hid by lia. cbn -[from_str_radix fmt_hex].
  rewrite !from_str_radix_fmt_hex; unfold u64_max, u32_max; try done; simpl; lia.
Qed.

Lemma parse_hex_field max s n z :
  string_forallb id_byte s = true →
  string_forallb (λ d, negb (Ascii.eqb "-"%char d)) s = true →
  String.length s = S n → (0 ≤ max)%Z → from_str_radix 16 max s = Some z →
  (0 ≤ z ≤ max)%Z ∧ fmt_hex (S n) z "" = s.
Proof.
  intros Hi Hd Hl Hmax Hp. pose proof (id_byte_hex _ Hi Hd) as Hh.
  rewrite from_str_radix_hex in Hp; [|done|by intros ->].
  destruct (parse_hex_canonical max 0 s z Hh ltac:(lia) Hp) as (Hz & Hf & _).
  rewrite Hl in Hf. split; [|done]. split; [done|]. by eapply parse_digits_le in Hp.
Qed.

Lemma parse_digits_no_dash max acc s z :
  parse_digits 16 max acc s = Some z →
  string_forallb (λ d, negb (Ascii.eqb "-"%char d)) s = true.
Proof.
  revert acc. induction s as [|d s IH]; intros acc Hp; [done|].
  cbn [parse_digits string_forallb] in *.
  destruct (digit_val 16 d) eqn:Ed; [|done]. destruct (_ <=? _)%Z; [|done].
  rewrite (IH _ Hp), andb_true_r.
  destruct (Ascii.eqb_spec "-"%char d) as [<-|]; [done|done].
Qed.

Lemma from_str_radix_no_dash max s z :
  string_forallb id_byte s = true → from_str_radix 16 max s = Some z →
  string_forallb (λ d, negb (Ascii.eqb "-"%char d)) s = true.
Proof.
  intros Hi Hp. destruct s as [|d s]; [done|]. cbn [from_str_radix] in Hp.
  destruct (Ascii.eqb_spec d "+"%char) as [->|]; [done|]. by eapply parse_digits_no_dash.
Qed.

(** an operation id and its 16-8-8 text determine each other: a string
    parses to an id exactly when it is the display form of an id whose fields
    are a [u64] and two [u32]s, so no two texts name one operation. *)
Theorem operation_id_roundtrip (value : string) (o : OperationId) :
  operation_id_from_str value = Ok o ↔ operation_id_ok o ∧ value = operation_id_display o.
Proof.
  split; [|intros [Ho ->]; by apply operation_id_parse_display].
  unfold operation_id_from_str. intros H.
  destruct (split_once "-" value) as [[a rest]|] eqn:E1; [|done].
  destruct (split_once "-" rest) as [[b c]|] eqn:E2; [|done].
  pose proof (split_once_no_dash _ _ _ E1) as Ha. pose proof (split_once_no_dash _ _ _ E2) as Hb.
  apply split_once_Some in E1, E2. subst rest.
  destruct (negb (String.length a =? 16)%nat) eqn:La; [done|].
  destruct (negb (String.length b =? 8)%nat) eqn:Lb; [done|].
  destruct (negb (String.length c =? 8)%nat) eqn:Lc; [done|].
  destruct (negb (string_forallb id_byte value)) eqn:Hv; [done|]. cbn [orb] in H.
  apply negb_false_iff in La, Lb, Lc, Hv. apply Nat.eqb_eq in La, Lb, Lc.
  rewrite E1, !string_forallb_app in Hv. rewrite !andb_true_iff in Hv.
  destruct Hv as (Ia & _ & Ib & _ & Ic).
  destruct (from_str_radix 16 u64_max a) as [za|] eqn:Pa; [|done].
  destruct (from_str_radix 16 u32_max b) as [zb|] eqn:Pb; [|done].
  destruct (from_str_radix 16 u32_max c) as [zc|] eqn:Pc; [|done].
  injection H as <-.
  pose proof (from_str_radix_no_dash _ _ _ Ic Pc) as Hc.
  destruct (parse_hex_field u64_max a _ _ Ia Ha La ltac:(done) Pa) as [Ra Fa].
  destruct (parse_hex_field u32_max b _ _ Ib Hb Lb ltac:(done) Pb) as [Rb Fb].
  destruct (parse_hex_field u32_max c _ _ Ic Hc Lc ltac:(done) Pc) as [Rc Fc].
  split; [done|]. unfold operation_id_display. cbn [op_nanos op_pid op_counter].
  by rewrite Fa, Fb, Fc.
Qed.

(** ** FNV-1a *)

(** The inverse of the odd FNV prime modulo [2^64]. *)
Definition FNV_PRIME_INV : Z := 14886173955864302971.

Lemma fnv_prime_inv : ((FNV_PRIME * FNV_PRIME_INV) mod two64 = 1)%Z.
Proof. by vm_compute. Qed.

Lemma byte_val_range c : (0 ≤ byte_val c < 256)%Z.
Proof. unfold byte_val. pose proof (nat_ascii_bounded c). lia. Qed.

Lemma lxor_u64 a b : (0 ≤ a < two64)%Z → (0 ≤ b < two64)%Z → (0 ≤ Z.lxor a b < two64)%Z.
Proof.
  intros Ha Hb. split; [by apply Z.lxor_nonneg; lia|].
  destruct (decide (Z.lxor a b = 0%Z)) as [->|Hn]; [unfold two64; lia|].
  assert (0 ≤ Z.lxor a b)%Z by (by apply Z.lxor_nonneg; lia).
  change two64 with (2 ^ 64)%Z. apply Z.log2_lt_pow2; [lia|].
  pose proof (Z.log2_lxor a b ltac:(lia) ltac:(lia)).
  assert (∀ x, (0 ≤ x < two64)%Z → (Z.log2 x < 64)%Z) as Hl.
  { intros x Hx. destruct (decide (x = 0%Z)) as [->|]; [done|].
    apply Z.log2_lt_pow2; [lia|]. change (2 ^ 64)%Z with two64. lia. }
  pose proof (Hl a Ha). pose proof (Hl b Hb). lia.
Qed.

Lemma fnv_step_range h b : (0 ≤ fnv_step h b < two64)%Z.
Proof. apply Z.mod_pos_bound. done. Qed.

Lemma fnv1a_range h s : (0 ≤ h < two64)%Z → (0 ≤ fnv1a h s < two64)%Z.
Proof.
  revert h. induction s as [|b s IH]; intros h Hh; [done|]. simpl. apply IH, fnv_step_range.
Qed.

Lemma wrapping_mul_prime_inj a b :
  (0 ≤ a < two64)%Z → (0 ≤ b < two64)%Z →
  wrapping_mul_u64 a FNV_PRIME = wrapping_mul_u64 b FNV_PRIME → a = b.
Proof.
  unfold wrapping_mul_u64. intros Ha Hb E.
  assert (∀ x, (0 ≤ x < two64)%Z →
    ((x * FNV_PRIME) mod two64 * FNV_PRIME_INV) mod two64 = x)%Z as Hinv.
  { intros x Hx. rewrite Z.mul_mod_idemp_l by done.
    rewrite <-Z.mul_assoc, <-Z.mul_mod_idemp_r, fnv_prime_inv by done.
    rewrite Z.mul_1_r. by apply Z.mod_small. }
  rewrite <-(Hinv a Ha), <-(Hinv b Hb). by rewrite E.
Qed.

Lemma lxor_cancel_r a b c : Z.lxor a c = Z.lxor b c → a = b.
Proof.
  intros E. rewrite <-(Z.lxor_0_r a), <-(Z.lxor_0_r b), <-(Z.lxor_nilpotent c).
  by rewrite <-!Z.lxor_assoc, E.
Qed.

(** Each round is injective in the running hash, so a difference survives. *)
Lemma fnv1a_inj_state s h h' :
  (0 ≤ h < two64)%Z → (0 ≤ h' < two64)%Z → fnv1a h s = fnv1a h' s → h = h'.
Proof.
  revert h h'. induction s as [|b s IH]; intros h h' Hh Hh' E; [done|]. simpl in E.
  apply IH in E; [|apply fnv_step_range..].
  pose proof (byte_val_range b).
  apply wrapping_mul_prime_inj in E;
    [|apply lxor_u64; unfold two64 in *; lia..].
  by apply lxor_cancel_r in E.
Qed.

Lemma fnv1a_app h a b : fnv1a h (a +:+ b) = fnv1a (fnv1a h a) b.
Proof. revert h. induction a as [|c a IH]; intros h; [done|]. rewrite app_cons_str. simpl. apply IH. Qed.

Lemma byte_val_inj a b : byte_val a = byte_val b → a = b.
Proof.
  unfold byte_val. intros E. apply Nat2Z.inj in E.
  rewrite <-(ascii_nat_embedding a), <-(ascii_nat_embedding b). by rewrite E.
Qed.

Lemma fmt_hex_inj w a b :
  (0 ≤ a < 16 ^ Z.of_nat w)%Z → (0 ≤ b < 16 ^ Z.of_nat w)%Z →
  fmt_hex w a "" = fmt_hex w b "" → a = b.
Proof.
  intros Ha Hb E. apply (f_equal (parse_digits 16 (16 ^ Z.of_nat w) 0)) in E.
  rewrite !parse_fmt_hex in E by lia. simpl in E. congruence.
Qed.

(** the digest detects every single-byte change: two payloads that differ
    in exactly one byte never share a digest. *)
Theorem payload_digest_detects_byte_change (before after : string) (b b' : ascii) :
  b ≠ b' →
  payload_digest (before +:+ String b after) ≠ payload_digest (before +:+ String b' after).
Proof.
  intros Hne E. unfold payload_digest in E.
  assert (0 ≤ FNV_OFFSET < two64)%Z as H0 by (unfold FNV_OFFSET, two64; lia).
  apply fmt_hex_inj in E;
    [|change (16 ^ Z.of_nat 16)%Z with two64; by apply fnv1a_range..].
  rewrite !fnv1a_app in E. simpl in E. apply fnv1a_inj_state in E; [|apply fnv_step_range..].
  pose proof (fnv1a_range _ before H0) as Hr.
  pose proof (byte_val_range b). pose proof (byte_val_range b').
  apply wrapping_mul_prime_inj in E; [|apply lxor_u64; unfold two64 in *; lia..].
  rewrite !(Z.lxor_comm (fnv1a FNV_OFFSET before)) in E. apply lxor_cancel_r in E.
  by apply byte_val_inj in E.
Qed.

Lemma payload_digest_detects_byte_change_witness :
  "a"%char ≠ "b"%char ∧ payload_digest "mode: a" ≠ payload_digest "mode: b".
Proof.
  split; [done|].
  apply (payload_digest_detects_byte_change "mode: " "" "a"%char "b"%char). done.
Defined.

(** the identity digest does not separate an absent declared config
    digest from an empty one: the two requests have the same command digest,
    although the empty declaration is one no payload can satisfy. *)
Theorem command_digest_conflates_empty_declaration `{ProcessLib} (r : ReconcileRequest) :
  let with_digest d := mkReconcileRequest (rr_core r) (Inline (ci_bytes (rr_config r)) d)
                         (rr_options r) (rr_expected_applied r) in
  command_digest (Reconcile (with_digest None)) = command_digest (Reconcile (with_digest (Some "")))
  ∧ payload_digest (ci_bytes (rr_config r)) ≠ "".
Proof.
  split; [done|]. intros E. apply (f_equal String.length) in E.
  unfold payload_digest in E. by rewrite length_fmt_hex in E.
Qed.
