(* ===== verification/Control.v ===== *)
(** The control plane (control/mod.rs and control/executor.rs): the bounded
    registry that makes submits idempotent, the admission path, and the single
    executor task that runs every mutating operation to a terminal state.

    The registry lock makes [registry_admit], [set] and [get] atomic, and the executor
    is one task, so an execution is a sequence of the steps of [step]:
    submits, the two phases of [shutdown], and the executor's own iterations.
    What a command does is the manager's business: here the outcome of a
    dequeued operation is arbitrary. *)
From S2P Require Import Prelude Text Metadata Types Operation.
From Stdlib Require String.
From stdpp Require Import sorting.
From Stdlib Require Import ZArith Lia.

(** * Portable errors and operation states *)

Record CoreError := mkCoreError {
  ce_kind : option CoreErrorKind.t;
  ce_message : string;
  ce_retryable : bool;
  ce_operation_id : option OperationId;
}.

Definition core_error_new (kind : CoreErrorKind.t) (message : string) (retryable : bool) : CoreError :=
  mkCoreError (Some kind) message retryable None.

Definition core_error_from_domain (e : Error) (id : option OperationId) : CoreError :=
  let kind := error_kind e in
  mkCoreError kind (error_display e)
    (match kind with Some k => CoreErrorKind.default_retryable k | None => false end) id.

Definition with_operation (id : OperationId) (e : CoreError) : CoreError :=
  mkCoreError (ce_kind e) (ce_message e) (ce_retryable e) (Some id).

Inductive OperationOutput := Reconciled (o : ApplyOutcome) | OStopped | Recovered | ShutDown.

Inductive OperationState :=
| Queued
| ORunning
| Succeeded (o : OperationOutput)
| Failed (e : CoreError).

(** [executor::is_terminal]. *)
Definition op_is_terminal (s : OperationState) : bool :=
  match s with Succeeded _ | Failed _ => true | Queued | ORunning => false end.

Inductive ExecutorExit := Clean | Died.

(** * The operation registry *)

(** The watch channel of an entry is its current value; every handle of the
    operation observes it. *)
Record RegisteredOperation := mkRegistered {
  ro_digest : string;
  ro_sequence : Z;
  ro_state : OperationState;
}.

Record Registry := mkRegistry {
  rg_operations : gmap OperationId RegisteredOperation;
  rg_order : list OperationId;
  rg_next_sequence : Z;
  rg_capacity : nat;
}.

Definition registry_new (capacity : nat) : Registry := mkRegistry ∅ [] 0 capacity.

(** [registry_admit]'s answer: a new registration or the original operation. *)
Inductive Admission := Registered (sequence : Z) | Existing (sequence : Z).

Inductive TrySendError := Full | Closed.

Definition entry_terminal (ops : gmap OperationId RegisteredOperation) (id : OperationId) : bool :=
  match ops !! id with Some op => op_is_terminal (ro_state op) | None => false end.

(** [order.iter().position(..)] followed by [order.remove(position)]. *)
Fixpoint take_first (f : OperationId → bool) (l : list OperationId) :
    option (OperationId * list OperationId) :=
  match l with
  | [] => None
  | x :: l' =>
      if f x then Some (x, l')
      else match take_first f l' with
           | Some (y, l'') => Some (y, x :: l'')
           | None => None
           end
  end.

(** The eviction loop of [registry_admit]: the oldest terminal entries go until the
    registry has room or no terminal entry is left.  Every iteration shortens
    [order], whose length is the fuel. *)
Fixpoint evict (fuel : nat) (r : Registry) : Registry :=
  match fuel with
  | O => r
  | S fuel' =>
      if (size (rg_operations r) <? rg_capacity r)%nat then r
      else match take_first (entry_terminal (rg_operations r)) (rg_order r) with
           | None => r
           | Some (evicted, order') =>
               evict fuel' (mkRegistry (delete evicted (rg_operations r)) order'
                              (rg_next_sequence r) (rg_capacity r))
           end
  end.

Definition evict_terminal (r : Registry) : Registry := evict (S (length (rg_order r))) r.

(** [inner.order.pop_back()]. *)
Definition pop_back {A} (l : list A) : list A := removelast l.

(** [Registry::registry_admit].  [enqueue] runs inside the critical section. *)
Definition registry_admit {Q} (id : OperationId) (digest : string)
    (enqueue : Q → option TrySendError * Q) (r : Registry) (q : Q) :
    result Admission CoreError * Registry * Q :=
  match rg_operations r !! id with
  | Some existing =>
      if String.eqb (ro_digest existing) digest
      then (Ok (Existing (ro_sequence existing)), r, q)
      else (Err (with_operation id (core_error_new CoreErrorKind.OperationConflict
                   ("operation " +:+ operation_id_display id
                    +:+ " was already submitted with a different payload") false)), r, q)
  | None =>
      let r := evict_terminal r in
      let sequence := rg_next_sequence r in
      let r := mkRegistry (<[id := mkRegistered digest sequence Queued]> (rg_operations r))
                 (rg_order r ++ [id]) (sequence + 1) (rg_capacity r) in
      match enqueue q with
      | (Some error, q') =>
          let r := mkRegistry (delete id (rg_operations r)) (pop_back (rg_order r))
                     (rg_next_sequence r) (rg_capacity r) in
          let error := match error with
            | Full => core_error_new CoreErrorKind.QueueFull "the operation queue is full" true
            | Closed => core_error_new CoreErrorKind.Internal "the control executor is gone" false
            end in
          (Err (with_operation id error), r, q')
      | (None, q') => (Ok (Registered sequence), r, q')
      end
  end.

(** [Registry::set]: [send_replace] on the entry, nothing when evicted. *)
Definition registry_set (id : OperationId) (s : OperationState) (r : Registry) : Registry :=
  mkRegistry (alter (λ op, mkRegistered (ro_digest op) (ro_sequence op) s) id (rg_operations r))
    (rg_order r) (rg_next_sequence r) (rg_capacity r).

(** [Registry::get]; [subscribe] reads the same value. *)
Definition registry_get (id : OperationId) (r : Registry) : option OperationState :=
  ro_state <$> rg_operations r !! id.

(** [live_registry_capacity]. *)
Definition live_registry_capacity (registry_capacity queue_capacity : nat) : nat :=
  Nat.max registry_capacity (queue_capacity + 1).

(** * The operation queue *)

Section control.
Context {PL : ProcessLib}.

Record ExecutorWork := mkWork { ew_id : OperationId; ew_command : CoreCommand }.

(** What the source uses of [tokio::sync::mpsc]: a bounded channel.
    [permit_send] is [reserve().await] followed by [Permit::send]. *)
Class Mpsc (Q : Type) := {
  q_items : Q → list ExecutorWork;
  q_capacity : Q → nat;
  q_closed : Q → bool;
  q_new : nat → Q;
  try_send : ExecutorWork → Q → option TrySendError * Q;
  permit_send : ExecutorWork → Q → Q;
  recv : Q → option ExecutorWork * Q;
  close : Q → Q;
}.

(** Its documented behaviour: a FIFO of at most [q_capacity] items; a failed
    send changes nothing; closing keeps the buffered items. *)
Class MpscLaws (Q : Type) {MP : Mpsc Q} := {
  mpsc_new n : q_items (q_new n) = [] ∧ q_capacity (q_new n) = n ∧ q_closed (q_new n) = false;
  mpsc_send_ok w q q' : try_send w q = (None, q') →
    (length (q_items q) < q_capacity q)%nat ∧ q_closed q = false
    ∧ q_items q' = q_items q ++ [w] ∧ q_capacity q' = q_capacity q ∧ q_closed q' = false;
  mpsc_send_err w q e q' : try_send w q = (Some e, q') →
    q_items q' = q_items q ∧ q_capacity q' = q_capacity q ∧ q_closed q' = q_closed q;
  mpsc_permit w q : (length (q_items q) < q_capacity q)%nat → q_closed q = false →
    q_items (permit_send w q) = q_items q ++ [w]
    ∧ q_capacity (permit_send w q) = q_capacity q ∧ q_closed (permit_send w q) = false;
  mpsc_recv q : match q_items q with
    | [] => (recv q).1 = None ∧ q_items (recv q).2 = []
    | w :: ws => (recv q).1 = Some w ∧ q_items (recv q).2 = ws
    end;
  mpsc_recv_cap q : q_capacity (recv q).2 = q_capacity q ∧ q_closed (recv q).2 = q_closed q;
  mpsc_close q : q_items (close q) = q_items q ∧ q_capacity (close q) = q_capacity q
    ∧ q_closed (close q) = true;
}.

Context {Q : Type} {MP : Mpsc Q}.

(** * The control handle *)

(** The state every clone of [CoreControl] shares with the executor task.
    [ct_running] is the operation the executor is awaiting, [ct_exit] how the
    task ended. *)
Record Control := mkControl {
  ct_registry : Registry;
  ct_queue : Q;
  ct_closing : bool;
  ct_running : option ExecutorWork;
  ct_exit : option ExecutorExit;
}.

Record OperationHandle := mkHandle {
  oh_id : OperationId;
  oh_newly_admitted : bool;
  oh_sequence : Z;
}.

(** [CoreControl::spawn]. *)
Definition control_spawn (registry_capacity queue_capacity : nat) : Control :=
  mkControl (registry_new (live_registry_capacity registry_capacity queue_capacity))
    (q_new queue_capacity) false None None.

Definition shutting_down_error (message : string) (id : OperationId) : CoreError :=
  with_operation id (core_error_new CoreErrorKind.ShuttingDown message false).

(** [request.options.local_ipc.get_or_insert(default)]. *)
Definition resolve_local_ipc (default : LocalIpcSettings) (c : CoreCommand) : CoreCommand :=
  match c with
  | Reconcile r =>
      let o := rr_options r in
      Reconcile (mkReconcileRequest (rr_core r) (rr_config r)
        (mkInstanceOptions (Some (from_option id default (io_local_ipc o)))
           (io_startup_timeout o) (io_health o) (io_restart_policy o) (io_backoff o))
        (rr_expected_applied r))
  | c => c
  end.

(** [CoreControl::submit]. *)
Definition submit (default : LocalIpcSettings) (opid : OperationId) (command : CoreCommand)
    (c : Control) : result OperationHandle CoreError * Control :=
  if ct_closing c
  then (Err (shutting_down_error "the control plane is shutting down" opid), c)
  else
    let command := resolve_local_ipc default command in
    let digest := command_digest command in
    let '(admission, r, q) :=
      registry_admit opid digest (try_send (mkWork opid command)) (ct_registry c) (ct_queue c) in
    let c := mkControl r q (ct_closing c) (ct_running c) (ct_exit c) in
    match admission with
    | Err e => (Err e, c)
    | Ok (Existing sequence) => (Ok (mkHandle opid false sequence), c)
    | Ok (Registered sequence) =>
        (Ok (mkHandle opid true sequence),
         mkControl r q (if is_shutdown command then true else ct_closing c)
           (ct_running c) (ct_exit c))
    end.

(** [CoreControl::shutdown], first phase: the latch goes down. *)
Definition shutdown_latch (c : Control) : Control :=
  mkControl (ct_registry c) (ct_queue c) true (ct_running c) (ct_exit c).

(** Second phase, once [reserve] has yielded a permit: admission under a
    generated id, with an enqueue that cannot fail. *)
Definition shutdown_enqueue (opid : OperationId) (c : Control) : result Admission CoreError * Control :=
  let '(admission, r, q) :=
    registry_admit opid (command_digest Shutdown)
      (λ q, (None, permit_send (mkWork opid Shutdown) q)) (ct_registry c) (ct_queue c) in
  (admission, mkControl r q (ct_closing c) (ct_running c) (ct_exit c)).

(** * The executor *)

(** How the spawned task of one operation ends: [execute]'s result or a panic. *)
Inductive Outcome := OutOk (o : OperationOutput) | OutErr (e : CoreError) | OutPanic (join : string).

(** [drain]: close the queue and terminalize what is in it. [fuel] counts the
    buffered items. *)
Fixpoint drain_loop (fuel : nat) (terminal : ExecutorWork → OperationState)
    (r : Registry) (q : Q) : Registry * Q :=
  match fuel with
  | O => (r, q)
  | S fuel' =>
      match recv q with
      | (Some work, q') => drain_loop fuel' terminal (registry_set (ew_id work) (terminal work) r) q'
      | (None, q') => (r, q')
      end
  end.
Definition drain (terminal : ExecutorWork → OperationState) (r : Registry) (q : Q) : Registry * Q :=
  let q := close q in drain_loop (S (length (q_items q))) terminal r q.

Definition died_terminal (work : ExecutorWork) : OperationState :=
  Failed (with_operation (ew_id work)
    (core_error_new CoreErrorKind.Internal "the control executor died" false)).

Definition clean_terminal (work : ExecutorWork) : OperationState :=
  match ew_command work with
  | Shutdown => Succeeded ShutDown
  | _ => Failed (shutting_down_error
           "the control plane shut down before this queued operation ran" (ew_id work))
  end.

(** The tail of [run] after the loop. *)
Definition exec_exit_clean (r : Registry) (q : Q) (closing : bool) : Control :=
  let '(r, q) := drain clean_terminal r q in mkControl r q closing None (Some Clean).

(** The head of one loop iteration: dequeue, refuse behind a latch, or start. *)
Definition exec_recv (c : Control) : Control :=
  match recv (ct_queue c) with
  | (None, _) => c
  | (Some work, q) =>
      if negb (is_shutdown (ew_command work)) && ct_closing c
      then mkControl
             (registry_set (ew_id work)
                (Failed (shutting_down_error "the control plane is shutting down" (ew_id work)))
                (ct_registry c)) q (ct_closing c) None (ct_exit c)
      else mkControl (registry_set (ew_id work) ORunning (ct_registry c)) q
             (ct_closing c) (Some work) (ct_exit c)
  end.

(** The rest of the iteration, when the operation's task has ended. *)
Definition exec_finish (work : ExecutorWork) (outcome : Outcome) (c : Control) : Control :=
  let opid := ew_id work in
  match outcome with
  | OutPanic join =>
      let r := registry_set opid (Failed (with_operation opid (core_error_new CoreErrorKind.Internal
                 ("the control operation panicked: " +:+ join) false))) (ct_registry c) in
      let '(r, q) := drain died_terminal r (ct_queue c) in
      mkControl r q true None (Some Died)
  | OutOk _ | OutErr _ =>
      let state := match outcome with
                   | OutOk o => Succeeded o | OutErr e => Failed e
                   | OutPanic _ => Queued (* excluded above *) end in
      let r := registry_set opid state (ct_registry c) in
      if is_shutdown (ew_command work)
      then exec_exit_clean r (ct_queue c) (ct_closing c)
      else mkControl r (ct_queue c) (ct_closing c) None (ct_exit c)
  end.

(** One atomic step of the control plane. *)
Inductive step (default : LocalIpcSettings) : Control → Control → Prop :=
| step_submit c opid command : step default c (submit default opid command c).2
| step_shutdown_latch c : step default c (shutdown_latch c)
| step_shutdown_enqueue c opid :
    ct_closing c = true → (length (q_items (ct_queue c)) < q_capacity (ct_queue c))%nat →
    q_closed (ct_queue c) = false →
    step default c (shutdown_enqueue opid c).2
| step_recv c : ct_running c = None → ct_exit c = None → step default c (exec_recv c)
| step_finish c work outcome :
    ct_running c = Some work → ct_exit c = None →
    step default c (exec_finish work outcome c)
| step_disconnect c :
    ct_running c = None → ct_exit c = None → q_items (ct_queue c) = [] →
    step default c (exec_exit_clean (ct_registry c) (ct_queue c) (ct_closing c)).

Inductive reachable (default : LocalIpcSettings) (rc qc : nat) : Control → Prop :=
| reach_init : reachable default rc qc (control_spawn rc qc)
| reach_step c c' : reachable default rc qc c → step default c c' → reachable default rc qc c'.
End control.

(** * The registry invariant

    [live_inv r L] relates the registry to the operations that are still
    live, in run order: [L] lists their ids and expected states (the running
    one first, then the queued ones). *)

Definition seq_of (ops : gmap OperationId RegisteredOperation) (id : OperationId) : Z :=
  from_option ro_sequence 0%Z (ops !! id).

Record live_inv (r : Registry) (L : list (OperationId * OperationState)) : Prop := {
  li_nodup : NoDup (rg_order r);
  li_dom : ∀ id, id ∈ rg_order r ↔ is_Some (rg_operations r !! id);
  li_live : ∀ id st, (id, st) ∈ L →
    op_is_terminal st = false ∧ ro_state <$> rg_operations r !! id = Some st;
  li_rest : ∀ id op, rg_operations r !! id = Some op → id ∉ L.*1 → op_is_terminal (ro_state op) = true;
  li_sorted : StronglySorted Z.lt (seq_of (rg_operations r) <$> L.*1);
  li_next : ∀ id op, rg_operations r !! id = Some op → (ro_sequence op < rg_next_sequence r)%Z;
  li_size : (size (rg_operations r) ≤ rg_capacity r)%nat;
}.

Section registry_lemmas.
Implicit Types (r : Registry) (L : list (OperationId * OperationState)).

Lemma take_first_Some f l x l' :
  take_first f l = Some (x, l') →
  f x = true ∧ ∃ l1 l2, l = l1 ++ x :: l2 ∧ l' = l1 ++ l2.
Proof.
  revert l'. induction l as [|y l IH]; intros l' E; [done|]. simpl in E.
  destruct (f y) eqn:Fy.
  - injection E as -> ->. split; [done|]. by exists [], l'.
  - destruct (take_first f l) as [[z l'']|]; [|done]. injection E as -> <-.
    destruct (IH l'' eq_refl) as (Hx & l1 & l2 & -> & ->).
    split; [done|]. by exists (y :: l1), l2.
Qed.

Lemma take_first_None f l : take_first f l = None → ∀ x, x ∈ l → f x = false.
Proof.
  induction l as [|y l IH]; intros E x Hx; [by apply elem_of_nil in Hx|]. simpl in E.
  destruct (f y) eqn:Fy; [done|]. destruct (take_first f l) as [[z l'']|]; [done|].
  apply elem_of_cons in Hx as [->|]; [done|]. by apply IH.
Qed.

Lemma size_order r :
  NoDup (rg_order r) → (∀ id, id ∈ rg_order r ↔ is_Some (rg_operations r !! id)) →
  size (rg_operations r) = length (rg_order r).
Proof.
  intros Hn Hd. rewrite <-size_dom, <-(size_list_to_set (C:=gset OperationId) (rg_order r)) by done.
  f_equal. apply set_eq. intros id. rewrite elem_of_dom, elem_of_list_to_set. by rewrite Hd.
Qed.

(** What eviction may change: terminal entries disappear, nothing else. *)
Record evicted (r r' : Registry) : Prop := {
  ev_nodup : NoDup (rg_order r');
  ev_dom : ∀ id, id ∈ rg_order r' ↔ is_Some (rg_operations r' !! id);
  ev_sub : ∀ id op, rg_operations r' !! id = Some op → rg_operations r !! id = Some op;
  ev_keep : ∀ id op, rg_operations r !! id = Some op → op_is_terminal (ro_state op) = false →
    rg_operations r' !! id = Some op;
  ev_next : rg_next_sequence r' = rg_next_sequence r;
  ev_cap : rg_capacity r' = rg_capacity r;
}.

Lemma evict_spec fuel r :
  NoDup (rg_order r) → (∀ id, id ∈ rg_order r ↔ is_Some (rg_operations r !! id)) →
  (length (rg_order r) < fuel)%nat →
  evicted r (evict fuel r)
  ∧ ((size (rg_operations (evict fuel r)) < rg_capacity r)%nat
     ∨ ∀ id op, rg_operations (evict fuel r) !! id = Some op → op_is_terminal (ro_state op) = false).
Proof.
  revert r. induction fuel as [|fuel IH]; intros r Hn Hd Hf; [lia|]. simpl.
  destruct (Nat.ltb_spec (size (rg_operations r)) (rg_capacity r)) as [Hlt|Hge].
  { split; [by constructor|by left]. }
  destruct (take_first _ _) as [[x order']|] eqn:E; last first.
  { split; [by constructor|]. right. intros id op Hop.
    pose proof (take_first_None _ _ E id (proj2 (Hd id) (mk_is_Some _ _ Hop))) as Ht.
    unfold entry_terminal in Ht. by rewrite Hop in Ht. }
  destruct (take_first_Some _ _ _ _ E) as (Hx & l1 & l2 & Eo & ->).
  unfold entry_terminal in Hx. destruct (rg_operations r !! x) as [opx|] eqn:Ex; [|done].
  rewrite Eo in Hn. apply NoDup_app in Hn as (N1 & N12 & N2). apply NoDup_cons in N2 as (Nx & N2).
  destruct (IH (mkRegistry (delete x (rg_operations r)) (l1 ++ l2)
                  (rg_next_sequence r) (rg_capacity r))) as [Hev Hend]; simpl.
  - apply NoDup_app. split; [done|]. split; [|done]. set_solver.
  - intros id. rewrite lookup_delete_is_Some, <-Hd, Eo. set_solver.
  - rewrite Eo in Hf. rewrite length_app in *. simpl in Hf. lia.
  - split; [|exact Hend]. destruct Hev as [v1 v2 v3 v4 v5 v6]. constructor; try done.
    + intros id op Hop. apply v3 in Hop. simpl in Hop. by apply lookup_delete_Some in Hop as [_ ?].
    + intros id op Hop Ht. apply v4; [|done]. simpl. apply lookup_delete_Some.
      split; [|done]. intros ->. congruence.
Qed.

Lemma evict_terminal_spec r L :
  live_inv r L →
  evicted r (evict_terminal r)
  ∧ ((length L < rg_capacity r)%nat → (size (rg_operations (evict_terminal r)) < rg_capacity r)%nat).
Proof.
  intros Hi. destruct (evict_spec (S (length (rg_order r))) r) as [Hev Hend];
    [apply Hi|apply Hi|lia|].
  split; [exact Hev|]. intros HL. destruct Hend as [?|Hnt]; [done|].
  rewrite size_order by apply Hev. eapply Nat.le_lt_trans; [|exact HL].
  rewrite <-(length_fmap fst L). apply submseteq_length, NoDup_submseteq; [apply Hev|].
  intros id Hid. apply (ev_dom _ _ Hev) in Hid as [op Hop].
  destruct (decide (id ∈ L.*1)) as [|Hn]; [done|].
  pose proof (li_rest _ _ Hi id op (ev_sub _ _ Hev _ _ Hop) Hn).
  specialize (Hnt id op Hop). congruence.
Qed.

Lemma live_lookup r L id :
  live_inv r L → id ∈ L.*1 →
  ∃ op, rg_operations r !! id = Some op ∧ op_is_terminal (ro_state op) = false.
Proof.
  intros Hi ([id' st] & -> & Hin)%list_elem_of_fmap. simpl.
  destruct (li_live _ _ Hi _ _ Hin) as [Ht Hs].
  destruct (rg_operations r !! id') as [op|]; [|done]. simpl in Hs. simplify_eq. eauto.
Qed.

Lemma seq_of_evicted r r' L :
  live_inv r L → evicted r r' →
  seq_of (rg_operations r') <$> L.*1 = seq_of (rg_operations r) <$> L.*1.
Proof.
  intros Hi Hev. apply list_fmap_ext. intros i id Hid.
  apply list_elem_of_lookup_2 in Hid. destruct (live_lookup _ _ _ Hi Hid) as (op & Hop & Ht).
  unfold seq_of. by rewrite Hop, (ev_keep _ _ Hev _ _ Hop Ht).
Qed.

Lemma live_inv_evicted r r' L :
  live_inv r L → evicted r r' → live_inv r' L.
Proof.
  intros Hi Hev. constructor.
  - apply Hev.
  - apply Hev.
  - intros id st Hin. destruct (li_live _ _ Hi _ _ Hin) as [Ht Hs]. split; [done|].
    destruct (rg_operations r !! id) as [op|] eqn:Eop; [|done]. simpl in Hs. simplify_eq.
    by rewrite (ev_keep _ _ Hev _ _ Eop Ht).
  - intros id op Hop. apply (li_rest _ _ Hi). by apply (ev_sub _ _ Hev).
  - rewrite (seq_of_evicted _ _ _ Hi Hev). apply Hi.
  - intros id op Hop. rewrite (ev_next _ _ Hev).
    eapply (li_next _ _ Hi), (ev_sub _ _ Hev), Hop.
  - rewrite (ev_cap _ _ Hev), size_order by apply Hev.
    etrans; [|apply (li_size _ _ Hi)]. rewrite size_order by apply Hi.
    apply submseteq_length, NoDup_submseteq; [apply Hev|].
    intros id [op Hop]%(ev_dom _ _ Hev). apply (li_dom _ _ Hi). eexists.
    by apply (ev_sub _ _ Hev).
Qed.

(** A new registration becomes the last live operation. *)
Lemma live_inv_register r L id digest :
  live_inv r L → (size (rg_operations r) < rg_capacity r)%nat → rg_operations r !! id = None →
  live_inv (mkRegistry (<[id := mkRegistered digest (rg_next_sequence r) Queued]> (rg_operations r))
              (rg_order r ++ [id]) (rg_next_sequence r + 1) (rg_capacity r))
    (L ++ [(id, Queued)]).
Proof.
  intros Hi Hsz Hid.
  assert (id ∉ L.*1) as HidL.
  { intros Hin. destruct (live_lookup _ _ _ Hi Hin) as (? & ? & _). congruence. }
  assert (seq_of (<[id := mkRegistered digest (rg_next_sequence r) Queued]> (rg_operations r)) <$> L.*1
          = seq_of (rg_operations r) <$> L.*1) as Hseq.
  { apply list_fmap_ext. intros i x Hx%list_elem_of_lookup_2. unfold seq_of.
    rewrite lookup_insert_ne; [done|]. by intros ->. }
  constructor; simpl.
  - apply NoDup_app. split; [apply Hi|]. split; [|apply NoDup_singleton].
    intros x Hx Hx'%list_elem_of_singleton. subst x.
    apply (li_dom _ _ Hi) in Hx as [? ?]. congruence.
  - intros x. rewrite elem_of_app, list_elem_of_singleton, (li_dom _ _ Hi), lookup_insert_is_Some'.
    naive_solver.
  - intros x st [Hin|Hin]%elem_of_app.
    + assert (x ≠ id) by (intros ->; apply HidL; apply list_elem_of_fmap; by exists (id, st)).
      rewrite lookup_insert_ne by done. by apply (li_live _ _ Hi).
    + apply list_elem_of_singleton in Hin. injection Hin as -> ->. by rewrite lookup_insert_eq.
  - intros x op Hop Hx. rewrite fmap_app, elem_of_app in Hx. simpl in Hx.
    rewrite lookup_insert_ne in Hop by (intros <-; apply Hx; right; by apply list_elem_of_singleton).
    eapply (li_rest _ _ Hi); [done|]. tauto.
  - rewrite fmap_app, fmap_app, Hseq. simpl. unfold seq_of at 2. rewrite lookup_insert_eq. simpl.
    apply StronglySorted_app_2; [|apply Hi|repeat constructor].
    intros a b (x & -> & Hx)%list_elem_of_fmap Hb%list_elem_of_singleton. subst b.
    destruct (live_lookup _ _ _ Hi Hx) as (op & Hop & _). unfold seq_of. rewrite Hop. simpl.
    by eapply (li_next _ _ Hi).
  - intros x op Hop. destruct (decide (x = id)) as [->|].
    + rewrite lookup_insert_eq in Hop. simplify_eq. simpl. lia.
    + rewrite lookup_insert_ne in Hop by done. apply (li_next _ _ Hi) in Hop. lia.
  - rewrite map_size_insert_None by done. lia.
Qed.

(** Moving the head of the live list to a new state, terminal or not. *)
Lemma live_inv_set r L id st s :
  live_inv r ((id, st) :: L) →
  live_inv (registry_set id s r) (if op_is_terminal s then L else (id, s) :: L).
Proof.
  intros Hi. pose proof (li_sorted _ _ Hi) as Hs. simpl in Hs.
  apply StronglySorted_inv in Hs as [Hs Hlt].
  assert (id ∉ L.*1) as HidL.
  { intros Hin. rewrite Forall_forall in Hlt.
    specialize (Hlt (seq_of (rg_operations r) id)). rewrite list_elem_of_fmap in Hlt.
    specialize (Hlt (ex_intro _ id (conj eq_refl Hin))). lia. }
  set (f := λ op, mkRegistered (ro_digest op) (ro_sequence op) s).
  assert (∀ x, seq_of (alter f id (rg_operations r)) x = seq_of (rg_operations r) x) as Hseq.
  { intros x. unfold seq_of. rewrite lookup_alter. case_decide; [subst|done].
    by destruct (rg_operations r !! x). }
  constructor; simpl.
  - apply Hi.
  - intros x. rewrite lookup_alter, (li_dom _ _ Hi).
    case_decide; [subst; by rewrite fmap_is_Some|done].
  - intros x st' Hin.
    assert (x ≠ id ∧ (x, st') ∈ L ∨ op_is_terminal s = false ∧ x = id ∧ st' = s) as [[Hne Hin']|(Ht & -> & ->)].
    { destruct (op_is_terminal s) eqn:Ht.
      - left. split; [|done]. intros ->. apply HidL, list_elem_of_fmap. by exists (id, st').
      - apply elem_of_cons in Hin as [E|Hin]; [right; by simplify_eq|].
        left. split; [|done]. intros ->. apply HidL, list_elem_of_fmap. by exists (id, st'). }
    + rewrite lookup_alter_ne by done. apply (li_live _ _ Hi). by right.
    + split; [done|]. rewrite lookup_alter_eq.
      destruct (li_live _ _ Hi id st ltac:(by left)) as [_ Hst].
      by destruct (rg_operations r !! id).
  - intros x op Hop Hx. rewrite lookup_alter in Hop. case_decide as Hxi.
    + subst x. destruct (rg_operations r !! id); [|done]. simplify_eq/=.
      destruct (op_is_terminal s) eqn:Ht; [done|]. exfalso. apply Hx. by left.
    + eapply (li_rest _ _ Hi); [done|]. simpl. rewrite not_elem_of_cons.
      split; [done|]. destruct (op_is_terminal s); [done|]. by apply not_elem_of_cons in Hx as [_ ?].
  - rewrite (list_fmap_ext _ (seq_of (rg_operations r))) by (intros; apply Hseq).
    destruct (op_is_terminal s); [done|]. simpl. by constructor.
  - intros x op Hop. rewrite lookup_alter in Hop. case_decide.
    + subst x. destruct (rg_operations r !! id) as [op'|] eqn:E; [|done]. simplify_eq/=.
      by eapply (li_next _ _ Hi).
    + by eapply (li_next _ _ Hi).
  - rewrite <-size_dom, dom_alter_L, size_dom. apply Hi.
Qed.
End registry_lemmas.

(** * The control-plane invariant *)

Section control_inv.
Context {PL : ProcessLib} {Q : Type} {MP : Mpsc Q} {ML : MpscLaws Q}.
Implicit Types (c : Control (Q:=Q)) (w : ExecutorWork) (q : Q).

(** The live operations of a control plane, in run order. *)
Definition live_list (running : option ExecutorWork) (items : list ExecutorWork) :
    list (OperationId * OperationState) :=
  match running with Some w => [(ew_id w, ORunning)] | None => [] end
  ++ ((λ w, (ew_id w, Queued)) <$> items).

Record ctl_inv (c : Control (Q:=Q)) : Prop := {
  ci_live : live_inv (ct_registry c) (live_list (ct_running c) (q_items (ct_queue c)));
  ci_queue : (length (q_items (ct_queue c)) ≤ q_capacity (ct_queue c))%nat;
  ci_capacity : (q_capacity (ct_queue c) < rg_capacity (ct_registry c))%nat;
  ci_exit : ct_exit c ≠ None →
    ct_running c = None ∧ q_items (ct_queue c) = [] ∧ q_closed (ct_queue c) = true;
}.

Lemma length_live_list run items : (length (live_list run items) ≤ 1 + length items)%nat.
Proof. unfold live_list. rewrite length_app, length_fmap. destruct run; simpl; lia. Qed.

Lemma live_list_snoc run items w :
  live_list run (items ++ [w]) = live_list run items ++ [(ew_id w, Queued)].
Proof. unfold live_list. by rewrite fmap_app, app_assoc. Qed.

Lemma admit_inv run w digest (enqueue : Q → option TrySendError * Q) r q res r' q' :
  live_inv r (live_list run (q_items q)) → (length (q_items q) ≤ q_capacity q)%nat →
  (q_capacity q < rg_capacity r)%nat →
  (∀ p, enqueue q = (None, p) → (length (q_items q) < q_capacity q)%nat
        ∧ q_items p = q_items q ++ [w] ∧ q_capacity p = q_capacity q) →
  (∀ e p, enqueue q = (Some e, p) → q_items p = q_items q ∧ q_capacity p = q_capacity q) →
  registry_admit (ew_id w) digest enqueue r q = (res, r', q') →
  live_inv r' (live_list run (q_items q')) ∧ (length (q_items q') ≤ q_capacity q')%nat
  ∧ (q_capacity q' < rg_capacity r')%nat.
Proof.
  intros Hi Hq Hc Hok Herr. unfold registry_admit.
  destruct (rg_operations r !! ew_id w) as [ex|] eqn:Eid.
  { destruct (String.eqb _ _); intros E; injection E as _ <- <-; auto. }
  destruct (evict_terminal_spec _ _ Hi) as [Hev Hroom].
  pose proof (live_inv_evicted _ _ _ Hi Hev) as Hi'.
  assert (rg_operations (evict_terminal r) !! ew_id w = None) as Hid'.
  { destruct (rg_operations (evict_terminal r) !! ew_id w) eqn:E; [|done].
    apply (ev_sub _ _ Hev) in E. congruence. }
  destruct (enqueue q) as [[e|] p] eqn:Eq; intros E; injection E as _ <- <-; simpl.
  - destruct (Herr e p eq_refl) as [-> ->]. rewrite delete_insert_id by done.
    unfold pop_back. rewrite removelast_last, (ev_cap _ _ Hev). split; [|done].
    pose proof Hi' as [v1 v2 v3 v4 v5 v6 v7]. constructor; try done; simpl.
    + intros id op Hop. specialize (v6 id op Hop). lia.
    + by rewrite <-(ev_cap _ _ Hev).
  - destruct (Hok p eq_refl) as (Hl & -> & ->). rewrite live_list_snoc.
    split; [|split; [rewrite length_app; simpl; lia|by rewrite (ev_cap _ _ Hev)]].
    apply live_inv_register; [done| |done].
    rewrite (ev_cap _ _ Hev). apply Hroom.
    pose proof (length_live_list run (q_items q)). lia.
Qed.

Lemma drain_loop_inv fuel terminal r q :
  (∀ w, op_is_terminal (terminal w) = true) →
  live_inv r (live_list None (q_items q)) → (length (q_items q) < fuel)%nat →
  live_inv (drain_loop fuel terminal r q).1 [] ∧ q_items (drain_loop fuel terminal r q).2 = []
  ∧ q_capacity (drain_loop fuel terminal r q).2 = q_capacity q
  ∧ q_closed (drain_loop fuel terminal r q).2 = q_closed q
  ∧ rg_capacity (drain_loop fuel terminal r q).1 = rg_capacity r.
Proof.
  intros Ht. revert r q. induction fuel as [|fuel IH]; intros r q Hi Hf; [lia|]. simpl.
  pose proof (mpsc_recv q) as Hr. pose proof (mpsc_recv_cap q) as [Hcap Hcl].
  destruct (q_items q) as [|w ws] eqn:Ei; destruct (recv q) as [o q'] eqn:Er; simpl in *;
    destruct Hr as [-> Hit].
  - simpl. split_and!; done.
  - pose proof (live_inv_set _ _ _ _ (terminal w) Hi) as Hi'. rewrite Ht in Hi'.
    destruct (IH (registry_set (ew_id w) (terminal w) r) q') as (? & ? & ? & ? & ?).
    + by rewrite Hit.
    + rewrite Hit. lia.
    + by rewrite <-Hcap, <-Hcl.
Qed.

Lemma drain_inv terminal r q :
  (∀ w, op_is_terminal (terminal w) = true) → live_inv r (live_list None (q_items q)) →
  live_inv (drain terminal r q).1 [] ∧ q_items (drain terminal r q).2 = []
  ∧ q_capacity (drain terminal r q).2 = q_capacity q
  ∧ q_closed (drain terminal r q).2 = true
  ∧ rg_capacity (drain terminal r q).1 = rg_capacity r.
Proof.
  intros Ht Hi. unfold drain. destruct (mpsc_close q) as (Ei & Ec & Ecl).
  destruct (drain_loop_inv (S (length (q_items (close q)))) terminal r (close q))
    as (? & ? & ? & ? & ?); [done|by rewrite Ei|lia|]. by rewrite <-Ec, <-Ecl.
Qed.

Lemma exec_exit_clean_inv r q closing :
  live_inv r (live_list None (q_items q)) → (q_capacity q < rg_capacity r)%nat →
  ctl_inv (exec_exit_clean r q closing).
Proof.
  intros Hi Hc. unfold exec_exit_clean.
  destruct (drain_inv clean_terminal r q) as (Hl & Hit & Hcap & Hcl & Hrc); [|done|].
  { intros [id []]; done. }
  destruct (drain clean_terminal r q) as [r' q'] eqn:E; simpl in *. constructor; simpl.
  - by rewrite Hit.
  - rewrite Hit. simpl. lia.
  - lia.
  - done.
Qed.

Lemma control_spawn_inv rc qc : ctl_inv (control_spawn rc qc).
Proof.
  destruct (mpsc_new (Q:=Q) qc) as (Ei & Ec & Ecl).
  constructor; simpl; rewrite ?Ei, ?Ec; simpl; [|lia| |done].
  - constructor; simpl; try (intros; set_solver).
    + constructor.
    + intros id. rewrite lookup_empty. split; [set_solver|by intros [? ?]].
    + constructor.
    + rewrite map_size_empty. lia.
  - unfold live_registry_capacity. lia.
Qed.

Lemma exec_recv_inv c :
  ctl_inv c → ct_running c = None → ct_exit c = None → ctl_inv (exec_recv c).
Proof.
  intros [Hl Hq Hc He] Hr Hx. unfold exec_recv.
  pose proof (mpsc_recv (ct_queue c)) as Hrecv. pose proof (mpsc_recv_cap (ct_queue c)) as [Hcap Hcl].
  destruct (recv (ct_queue c)) as [o q'] eqn:Er. simpl in *. rewrite Hr in Hl.
  destruct (q_items (ct_queue c)) as [|w ws] eqn:Ei; destruct Hrecv as [-> Hit].
  { constructor; rewrite ?Hr, ?Ei; done. }
  simpl in Hq. destruct (negb _ && _).
  - pose proof (live_inv_set _ _ _ _ (Failed (shutting_down_error
      "the control plane is shutting down" (ew_id w))) Hl) as Hl'.
    constructor; simpl; rewrite ?Hit, ?Hcap; try done; lia.
  - pose proof (live_inv_set _ _ _ _ ORunning Hl) as Hl'.
    constructor; simpl; rewrite ?Hit, ?Hcap; try done; lia.
Qed.

Lemma exec_finish_inv c w outcome :
  ctl_inv c → ct_running c = Some w → ct_exit c = None → ctl_inv (exec_finish w outcome c).
Proof.
  intros [Hl Hq Hc He] Hr Hx. rewrite Hr in Hl. unfold exec_finish.
  destruct outcome as [o|e|join].
  1,2: match goal with |- context [registry_set _ ?s _] =>
         pose proof (live_inv_set _ _ _ _ s Hl) as Hl' end; simpl in Hl';
       destruct (is_shutdown _); [by apply exec_exit_clean_inv|constructor; done].
  match goal with |- context [registry_set _ ?s _] =>
    pose proof (live_inv_set _ _ _ _ s Hl) as Hl' end. simpl in Hl'.
  destruct (drain_inv died_terminal _ _ (λ _, eq_refl) Hl') as (Hl2 & Hit & Hcap & Hcl & Hrc).
  destruct (drain died_terminal _ _) as [r' q'] eqn:E; simpl in *. constructor; simpl.
  - by rewrite Hit.
  - rewrite Hit. simpl. lia.
  - lia.
  - done.
Qed.

Lemma submit_inv default opid command c : ctl_inv c → ctl_inv (submit default opid command c).2.
Proof.
  intros Hi. pose proof Hi as [Hl Hq Hc He]. unfold submit. destruct (ct_closing c); [done|].
  set (cmd := resolve_local_ipc default command).
  destruct (registry_admit opid (command_digest cmd) (try_send (mkWork opid cmd)) (ct_registry c) (ct_queue c))
    as [[res r'] q'] eqn:Ea.
  destruct (admit_inv (ct_running c) (mkWork opid cmd) (command_digest cmd) (try_send (mkWork opid cmd))
              _ _ res r' q' Hl Hq Hc) as (Hl' & Hq' & Hc'); [| |done|].
  { intros p Hp. apply mpsc_send_ok in Hp. naive_solver. }
  { intros e p Hp. apply mpsc_send_err in Hp. naive_solver. }
  assert (ct_exit c ≠ None → ct_running c = None ∧ q_items q' = [] ∧ q_closed q' = true) as He'.
  { intros Hx. destruct (He Hx) as (Hrn & Hit & Hcl). split; [done|].
    unfold registry_admit in Ea. case_match; [case_match; by simplify_eq|].
    destruct (try_send _ _) as [[e|] p] eqn:Es; simplify_eq/=.
    - apply mpsc_send_err in Es as (-> & _ & ->). done.
    - apply mpsc_send_ok in Es. naive_solver congruence. }
  destruct res as [[s|s]|e]; by constructor.
Qed.

Lemma shutdown_enqueue_inv opid c :
  ctl_inv c → (length (q_items (ct_queue c)) < q_capacity (ct_queue c))%nat →
  q_closed (ct_queue c) = false → ctl_inv (shutdown_enqueue opid c).2.
Proof.
  intros [Hl Hq Hc He] Hroom Hcl. unfold shutdown_enqueue.
  destruct (registry_admit _ _ _ _ _) as [[res r'] q'] eqn:Ea.
  pose proof (mpsc_permit (mkWork opid Shutdown) _ Hroom Hcl) as (Pi & Pc & _).
  destruct (admit_inv (ct_running c) (mkWork opid Shutdown) (command_digest Shutdown)
    (λ q, (None, permit_send (mkWork opid Shutdown) q)) _ _ res r' q' Hl Hq Hc)
    as (Hl' & Hq' & Hc'); [| |done|].
  { intros p [= <-]. done. }
  { done. }
  constructor; try done; simpl. intros Hx. destruct (He Hx) as (_ & _ & ?). congruence.
Qed.

Lemma step_inv default c c' : step default c c' → ctl_inv c → ctl_inv c'.
Proof.
  intros Hs Hi. destruct Hs.
  - by apply submit_inv.
  - destruct Hi. by constructor.
  - by apply shutdown_enqueue_inv.
  - by apply exec_recv_inv.
  - by apply exec_finish_inv.
  - destruct Hi as [Hl Hq Hc He]. apply exec_exit_clean_inv; [|done].
    match goal with E : ct_running c = None |- _ => rewrite E in Hl end. done.
Qed.

Lemma reachable_inv default rc qc c : reachable default rc qc c → ctl_inv c.
Proof.
  induction 1 as [|c c' _ IH Hs]; [apply control_spawn_inv|by eapply step_inv].
Qed.
End control_inv.

(** * Properties of the control plane *)

(** A list-backed channel: the executable instance of the channel laws. *)
Record ListQueue {PL : ProcessLib} := mkListQueue {
  lq_items : list ExecutorWork;
  lq_capacity : nat;
  lq_closed : bool;
}.
Arguments ListQueue : clear implicits.
Arguments ListQueue {PL}.

#[export] Instance list_mpsc {PL : ProcessLib} : Mpsc ListQueue := {|
  q_items := lq_items;
  q_capacity := lq_capacity;
  q_closed := lq_closed;
  q_new n := mkListQueue PL [] n false;
  try_send w q :=
    if lq_closed q then (Some Closed, q)
    else if (length (lq_items q) <? lq_capacity q)%nat
         then (None, mkListQueue PL (lq_items q ++ [w]) (lq_capacity q) (lq_closed q))
         else (Some Full, q);
  permit_send w q := mkListQueue PL (lq_items q ++ [w]) (lq_capacity q) (lq_closed q);
  recv q := match lq_items q with
            | [] => (None, q)
            | w :: ws => (Some w, mkListQueue PL ws (lq_capacity q) (lq_closed q))
            end;
  close q := mkListQueue PL (lq_items q) (lq_capacity q) true;
|}.

#[export] Instance list_mpsc_laws {PL : ProcessLib} : MpscLaws ListQueue.
Proof.
  constructor; simpl.
  - done.
  - intros w q q'. destruct (lq_closed q); [done|].
    destruct (Nat.ltb_spec (length (lq_items q)) (lq_capacity q)); [|done].
    intros [= <-]. done.
  - intros w q e q'. destruct (lq_closed q) eqn:E; [by intros [= _ <-]|].
    destruct (_ <? _)%nat; [done|]. by intros [= _ <-].
  - intros w q _ ->. done.
  - intros q. by destruct (lq_items q) eqn:E.
  - intros q. by destruct (lq_items q).
  - done.
Qed.

Section properties.
Context {PL : ProcessLib} {Q : Type} {MP : Mpsc Q} {ML : MpscLaws Q}.
Implicit Types (c : Control (Q:=Q)).

(** C4: in every reachable state the registry tracks exactly the live
    operations: the entries that have not reached a terminal state are the
    running operation (marked running) and the queued ones (marked queued),
    each once, and their sequence numbers increase in the order the executor
    will run them; the registry never exceeds its capacity and no live
    operation is ever evicted from it. *)
Theorem registry_tracks_live_operations default rc qc c :
  reachable default rc qc c →
  (∀ id, (∃ s, registry_get id (ct_registry c) = Some s ∧ op_is_terminal s = false)
         ↔ id ∈ (live_list (ct_running c) (q_items (ct_queue c))).*1)
  ∧ (∀ w, ct_running c = Some w → registry_get (ew_id w) (ct_registry c) = Some ORunning)
  ∧ (∀ w, w ∈ q_items (ct_queue c) → registry_get (ew_id w) (ct_registry c) = Some Queued)
  ∧ StronglySorted Z.lt (seq_of (rg_operations (ct_registry c))
       <$> (live_list (ct_running c) (q_items (ct_queue c))).*1)
  ∧ (size (rg_operations (ct_registry c)) ≤ rg_capacity (ct_registry c))%nat.
Proof.
  intros [Hl _ _ _]%reachable_inv. unfold registry_get.
  split; [|split; [|split; [|split; apply Hl]]].
  - intros id. split.
    + intros (s & Hs & Ht). destruct (decide (id ∈ (live_list (ct_running c) (q_items (ct_queue c))).*1))
        as [|Hn]; [done|].
      apply fmap_Some in Hs as (op & Hop & ->). by rewrite (li_rest _ _ Hl _ _ Hop Hn) in Ht.
    + intros Hin. destruct (live_lookup _ _ _ Hl Hin) as (op & Hop & Ht).
      exists (ro_state op). by rewrite Hop.
  - intros w Hw. apply (li_live _ _ Hl). rewrite Hw. by left.
  - intros w Hw. apply (li_live _ _ Hl). apply elem_of_app. right.
    apply list_elem_of_fmap. by exists w.
Qed.

(** when the executor task has ended, cleanly or by a panic, every
    operation the registry knows is in a terminal state: no admitted operation
    is left without an answer. *)
Theorem executor_exit_terminalizes default rc qc c id s :
  reachable default rc qc c → ct_exit c ≠ None →
  registry_get id (ct_registry c) = Some s → op_is_terminal s = true.
Proof.
  intros [Hl _ _ He]%reachable_inv Hx Hs. destruct (He Hx) as (Hr & Hi & _).
  rewrite Hr, Hi in Hl. apply fmap_Some in Hs as (op & Hop & ->).
  apply (li_rest _ _ Hl _ _ Hop). simpl. set_solver.
Qed.

(** submitting is idempotent: after a submit that was admitted, the same
    id with the same command attaches to the original operation, under its
    original sequence number, and changes nothing; the same id with a command
    of another digest is refused as a conflict and changes nothing. *)
Theorem resubmit_is_idempotent default opid command command' c h c' :
  submit default opid command c = (Ok h, c') → ct_closing c' = false →
  submit default opid command c' = (Ok (mkHandle opid false (oh_sequence h)), c')
  ∧ (command_digest (resolve_local_ipc default command')
       ≠ command_digest (resolve_local_ipc default command) →
     ∃ e, submit default opid command' c' = (Err e, c')
          ∧ ce_kind e = Some CoreErrorKind.OperationConflict ∧ ce_retryable e = false).
Proof.
  intros Hs Hcl.
  assert (∃ op, rg_operations (ct_registry c') !! opid = Some op
    ∧ ro_digest op = command_digest (resolve_local_ipc default command)
    ∧ ro_sequence op = oh_sequence h) as (op & Hop & Hd & Hsq).
  { unfold submit in Hs. destruct (ct_closing c); [done|]. unfold registry_admit in Hs.
    destruct (rg_operations (ct_registry c) !! opid) as [ex|] eqn:Eid.
    - destruct (String.eqb_spec (ro_digest ex) (command_digest (resolve_local_ipc default command)));
        simplify_eq/=. eauto.
    - destruct (try_send _ _) as [[e|] p]; simplify_eq/=. rewrite lookup_insert_eq. eauto. }
  clear Hs. destruct c' as [r' q' cl' run' ex']. simpl in *. subst cl'.
  unfold submit, registry_admit. simpl. rewrite Hop. split.
  - rewrite Hd, String.eqb_refl. by rewrite Hsq.
  - intros Hne. rewrite Hd.
    destruct (String.eqb_spec (command_digest (resolve_local_ipc default command))
                (command_digest (resolve_local_ipc default command'))); [congruence|].
    eexists. split; [done|done].
Qed.

(** once the closing latch is down, no step starts an operation other
    than a shutdown: work that was queued before is refused, never run behind
    the shutdown; and the latch stays down. *)
Theorem latch_blocks_new_work default c c' :
  step default c c' → ct_closing c = true →
  ct_closing c' = true
  ∧ ∀ w, ct_running c' = Some w → ct_running c = Some w ∨ ew_command w = Shutdown.
Proof.
  intros Hs Hcl. destruct Hs as [c opid command|c|c opid _ _ _|c Hr Hx|c w o Hr Hx|c Hr Hx Hi].
  - unfold submit. rewrite Hcl. simpl. auto.
  - simpl. auto.
  - unfold shutdown_enqueue. destruct (registry_admit _ _ _ _ _) as [[? ?] ?]. simpl. auto.
  - unfold exec_recv. destruct (recv (ct_queue c)) as [[w|] q]; [|auto].
    destruct (ew_command w) eqn:Ec; simpl; rewrite ?Hcl; simpl; naive_solver.
  - unfold exec_finish, exec_exit_clean.
    destruct o; [destruct (is_shutdown _)..|]; try destruct (drain _ _ _); simpl; naive_solver.
  - unfold exec_exit_clean. destruct (drain _ _ _). simpl. naive_solver.
Qed.

(** One iteration of the executor loop: dequeue, and run the operation to
    [outcome] if it was started. *)
Definition exec_round (outcome : ExecutorWork → Outcome) (c : Control (Q:=Q)) : Control :=
  let c := exec_recv c in
  match ct_running c with
  | Some w => match ct_exit c with None => exec_finish w (outcome w) c | Some _ => c end
  | None => c
  end.

Lemma exec_round_inv outcome c :
  ctl_inv c → ct_running c = None → ct_exit c = None →
  ctl_inv (exec_round outcome c) ∧ ct_running (exec_round outcome c) = None
  ∧ (q_items (ct_queue (exec_round outcome c)) = []
     ∨ ct_exit (exec_round outcome c) = None
       ∧ (length (q_items (ct_queue (exec_round outcome c)))
          < length (q_items (ct_queue c)))%nat).
Proof.
  intros Hi Hr Hx. pose proof (exec_recv_inv c Hi Hr Hx) as Hi1. unfold exec_round.
  pose proof (mpsc_recv (ct_queue c)) as Hrecv. unfold exec_recv in *.
  destruct (recv (ct_queue c)) as [o q'] eqn:Er. simpl in Hrecv.
  destruct (q_items (ct_queue c)) as [|w ws] eqn:Ei; destruct Hrecv as [-> Hit].
  { rewrite Hr. auto. }
  destruct (negb _ && _); simpl.
  { split_and!; [done|done|]. right. rewrite Hit. simpl. split; [done|lia]. }
  rewrite Hx in *. pose proof (exec_finish_inv _ w (outcome w) Hi1 eq_refl eq_refl) as Hi2.
  split; [done|]. destruct (ct_exit (exec_finish w (outcome w) _)) eqn:Ex2.
  - destruct (ci_exit _ Hi2 ltac:(congruence)) as (? & ? & _). auto.
  - revert Ex2. unfold exec_finish, exec_exit_clean.
    destruct (outcome w); [destruct (is_shutdown _)..|]; try destruct (drain _ _ _); simpl; try done;
      intros _; split; try done; right; rewrite Hit; simpl; split; (done || lia).
Qed.

(** The executor loop, for at most [fuel] iterations. *)
Fixpoint exec_rounds (fuel : nat) (outcome : ExecutorWork → Outcome) (c : Control (Q:=Q)) : Control :=
  match fuel with
  | O => c
  | S fuel' =>
      match ct_exit c with
      | Some _ => c
      | None => exec_rounds fuel' outcome (exec_round outcome c)
      end
  end.

Lemma exec_rounds_drains fuel outcome c :
  ctl_inv c → ct_running c = None → (ct_exit c ≠ None ∨ length (q_items (ct_queue c)) ≤ fuel)%nat →
  ctl_inv (exec_rounds fuel outcome c) ∧ ct_running (exec_rounds fuel outcome c) = None
  ∧ q_items (ct_queue (exec_rounds fuel outcome c)) = [].
Proof.
  revert c. induction fuel as [|fuel IH]; intros c Hi Hr Hf; simpl.
  - destruct Hf as [Hx|Hl]; [destruct (ci_exit _ Hi Hx) as (_ & ? & _); done|].
    destruct (q_items (ct_queue c)); simpl in Hl; [done|lia].
  - destruct (ct_exit c) eqn:Hx; [destruct (ci_exit _ Hi ltac:(congruence)) as (_ & ? & _); done|].
    destruct (exec_round_inv outcome c Hi Hr Hx) as (Hi' & Hr' & Hq).
    apply IH; [done|done|]. destruct Hq as [Hnil|[_ Hlt]].
    + right. rewrite Hnil. simpl. lia.
    + destruct Hf as [?|Hl]; [done|]. right. lia.
Qed.

End properties.

(** * A concrete run *)

#[local] Existing Instance toy_process.

Module demo.
Definition settings : LocalIpcSettings := mkLocalIpc Disable false.
Definition opid (n : Z) : OperationId := mkOperationId n 1 1.

Definition c0 : Control (Q:=ListQueue) := control_spawn 4 2.
Definition c1 : Control := (submit settings (opid 1) Stop c0).2.
Definition c2 : Control := (submit settings (opid 2) Recover c1).2.
(** [Stop] is running, [Recover] is queued behind it. *)
Definition c3 : Control := exec_recv c2.
(** A shutdown is latched and queued, the first operation ends, the second is
    refused, and the shutdown runs. *)
Definition c4 : Control := shutdown_latch c3.
Definition c5 : Control := (shutdown_enqueue (opid 3) c4).2.
Definition c6 : Control := exec_finish (mkWork (opid 1) Stop) (OutOk OStopped) c5.
Definition c7 : Control := exec_recv c6.
Definition c8 : Control := exec_recv c7.
Definition c9 : Control := exec_finish (mkWork (opid 3) Shutdown) (OutOk ShutDown) c8.

Lemma reach2 : reachable settings 4 2 c2.
Proof. eapply reach_step; [eapply reach_step; [apply reach_init|]|]; apply step_submit. Qed.

Lemma reach3 : reachable settings 4 2 c3.
Proof. eapply reach_step; [apply reach2|]. by apply step_recv. Qed.

Lemma reach9 : reachable settings 4 2 c9.
Proof.
  assert (reachable settings 4 2 c4) as H4.
  { eapply reach_step; [apply reach3|]. apply step_shutdown_latch. }
  assert (reachable settings 4 2 c5) as H5.
  { eapply reach_step; [apply H4|]. apply step_shutdown_enqueue; vm_compute; [done|lia|done]. }
  assert (reachable settings 4 2 c6) as H6.
  { eapply reach_step; [apply H5|]. by apply step_finish; vm_compute. }
  assert (reachable settings 4 2 c7) as H7.
  { eapply reach_step; [apply H6|]. by apply step_recv; vm_compute. }
  assert (reachable settings 4 2 c8) as H8.
  { eapply reach_step; [apply H7|]. by apply step_recv; vm_compute. }
  eapply reach_step; [apply H8|]. by apply step_finish; vm_compute.
Qed.
End demo.

Lemma registry_tracks_live_operations_witness :
  registry_get (demo.opid 1) (ct_registry demo.c3) = Some ORunning
  ∧ (∀ w, w ∈ q_items (ct_queue demo.c3) →
       registry_get (ew_id w) (ct_registry demo.c3) = Some Queued).
Proof.
  split; [by vm_compute|].
  apply (registry_tracks_live_operations demo.settings 4 2 demo.c3 demo.reach3).
Defined.

Lemma executor_exit_terminalizes_witness :
  ct_exit demo.c9 = Some Clean
  ∧ ∀ s, registry_get (demo.opid 2) (ct_registry demo.c9) = Some s → op_is_terminal s = true.
Proof.
  split; [by vm_compute|]. intros s.
  apply (executor_exit_terminalizes demo.settings 4 2 demo.c9 (demo.opid 2) s demo.reach9).
  vm_compute; done.
Defined.

Lemma resubmit_is_idempotent_witness :
  submit demo.settings (demo.opid 1) Stop demo.c1
  = (Ok (mkHandle (demo.opid 1) false 0), demo.c1).
Proof.
  apply (resubmit_is_idempotent demo.settings (demo.opid 1) Stop Recover demo.c0
           (mkHandle (demo.opid 1) true 0) demo.c1); vm_compute; done.
Defined.

Lemma latch_blocks_new_work_witness :
  ct_closing demo.c6 = true
  ∧ ∀ w, ct_running demo.c7 = Some w → ct_running demo.c6 = Some w ∨ ew_command w = Shutdown.
Proof.
  split; [by vm_compute|].
  apply (latch_blocks_new_work demo.settings demo.c6 demo.c7);
    [by apply step_recv; vm_compute|by vm_compute].
Defined.

