(* ===== verification/Health.v ===== *)
(** Health probing (health/mod.rs, health/probe.rs, health/driver.rs,
    controller_access.rs): the policy constructor, the transition tracker with
    its thresholds and start-up grace window, the byte cap on recorded
    errors, one probe attempt, and the authorization wrapper of a probe. *)
From S2P Require Import Prelude Text Metadata Types.
From Stdlib Require String Ascii.
From Stdlib Require Import ZArith Lia.

(** * Policy *)

(** [HealthPolicySpec] with its [HealthThresholds] (two [NonZeroU32]). *)
Record HealthPolicySpec := mkPolicySpec {
  ps_interval : Z;
  ps_timeout : Z;
  ps_failure : Z;
  ps_success : Z;
  ps_start_period : Z;
}.

(** [HealthPolicy::new]. *)
Definition health_policy_new (spec : HealthPolicySpec) : result HealthPolicy Error :=
  if (ps_interval spec =? 0)%Z
  then Err (InvalidHealthPolicy "interval must be greater than zero")
  else if (ps_timeout spec =? 0)%Z
  then Err (InvalidHealthPolicy "timeout must be greater than zero")
  else Ok (mkHealthPolicy (ps_interval spec) (ps_timeout spec) (ps_failure spec)
             (ps_success spec) (ps_start_period spec)).

(** The thresholds are [NonZeroU32]s. *)
Definition policy_ok (p : HealthPolicy) : Prop :=
  (1 ≤ hp_failure_threshold p ≤ u32_max)%Z ∧ (1 ≤ hp_success_threshold p ≤ u32_max)%Z.

(** * Probes *)

Inductive ProbeResult := Healthy | Unhealthy (detail : option string).

Definition is_healthy (r : ProbeResult) : bool :=
  match r with Healthy => true | Unhealthy _ => false end.

Inductive ProbePhase := Readiness | Liveness | ReconcilePhase.

(** [HealthProbe::check] of [AuthorizedProbe]: the host's authorization of the
    controller endpoint decides before the wrapped probe runs. *)
Definition authorized_check {W} (authorize : M W (result unit string)) (inner : M W ProbeResult) :
    M W ProbeResult :=
  r <- authorize ;;
  match r with
  | Err error => ret (Unhealthy (Some ("controller authorization failed: " +:+ error)))
  | Ok _ => inner
  end.

(** How the [select!] of one attempt ends: the driver was cancelled, the
    timeout fired, or the probe answered. *)
Inductive AttemptEnd := Cancelled | TimedOut | Answered (r : ProbeResult).

Record ProbeObservation := mkObservation {
  ob_run_id : Z;
  ob_pid : Z;
  ob_phase : ProbePhase;
  ob_completed_at : Z;
  ob_completed_at_ms : Z;
  ob_result : ProbeResult;
}.

(** [run_attempt]; [timeout_debug] is the [Debug] text of the timeout. *)
Definition run_attempt (run_id pid : Z) (phase : ProbePhase) (timeout_debug : string)
    (ended : AttemptEnd) (now now_ms : Z) : option ProbeObservation :=
  match ended with
  | Cancelled => None
  | TimedOut =>
      Some (mkObservation run_id pid phase now now_ms
              (Unhealthy (Some ("probe timed out after " +:+ timeout_debug))))
  | Answered r => Some (mkObservation run_id pid phase now now_ms r)
  end.

(** * The byte cap on recorded errors *)

Definition MAX_LAST_ERROR_BYTES : nat := 512.

Definition is_continuation (c : Ascii.ascii) : bool :=
  let n := Z.of_nat (Ascii.nat_of_ascii c) in (128 <=? n)%Z && (n <? 192)%Z.

(** [str::is_char_boundary]. *)
Definition is_char_boundary (s : string) (i : nat) : bool :=
  if (i =? 0)%nat then true
  else if (i =? String.length s)%nat then true
  else match String.get i s with
       | Some c => negb (is_continuation c)
       | None => false
       end.

(** [while !detail.is_char_boundary(end) { end -= 1; }]. *)
Fixpoint boundary_before (s : string) (i : nat) : nat :=
  if is_char_boundary s i then i
  else match i with O => O | S i' => boundary_before s i' end.

(** [cap_detail]. *)
Definition cap_detail (detail : string) : string :=
  if (String.length detail <=? MAX_LAST_ERROR_BYTES)%nat then detail
  else String.substring 0 (boundary_before detail MAX_LAST_ERROR_BYTES) detail.

Lemma boundary_before_spec s i :
  let b := boundary_before s i in
  (b ≤ i)%nat ∧ is_char_boundary s b = true
  ∧ ∀ j, (j ≤ i)%nat → is_char_boundary s j = true → (j ≤ b)%nat.
Proof.
  induction i as [|i (H1 & H2 & H3)]; cbn [boundary_before].
  { replace (is_char_boundary s 0) with true by done. split_and!; [lia|done|lia]. }
  destruct (is_char_boundary s (S i)) eqn:E; [split_and!; [lia|done|lia]|].
  split_and!; [lia|done|]. intros j Hj Hb.
  destruct (decide (j = S i)) as [->|]; [congruence|]. apply H3; [lia|done].
Qed.

Lemma substring_prefix s n :
  (n ≤ String.length s)%nat →
  String.length (String.substring 0 n s) = n
  ∧ s = String.substring 0 n s +:+ String.substring n (String.length s - n) s.
Proof.
  revert n. induction s as [|c s IH]; intros [|n] Hn; simpl in *; try done; try lia.
  - split; [done|]. rewrite app_nil_l_str. f_equal. clear. induction s as [|d s IH]; simpl; congruence.
  - destruct (IH n) as [H1 H2]; [lia|]. split; [by rewrite H1|]. rewrite app_cons_str. by f_equal.
Qed.

(** a recorded probe error is the longest prefix of the error text that
    fits in 512 bytes and does not split a UTF-8 character. *)
Theorem cap_detail_longest_prefix (detail : string) :
  let capped := cap_detail detail in
  (String.length capped ≤ MAX_LAST_ERROR_BYTES)%nat
  ∧ (∃ rest, detail = capped +:+ rest)
  ∧ is_char_boundary detail (String.length capped) = true
  ∧ ∀ j, (j ≤ MAX_LAST_ERROR_BYTES)%nat → (j ≤ String.length detail)%nat →
      is_char_boundary detail j = true → (j ≤ String.length capped)%nat.
Proof.
  unfold cap_detail. destruct (Nat.leb_spec (String.length detail) MAX_LAST_ERROR_BYTES) as [Hle|Hgt].
  - split_and!; [done|exists EmptyString; by rewrite app_nil_str_r| |done].
    unfold is_char_boundary. case_match; [done|]. by rewrite Nat.eqb_refl.
  - destruct (boundary_before_spec detail MAX_LAST_ERROR_BYTES) as (H1 & H2 & H3).
    destruct (substring_prefix detail (boundary_before detail MAX_LAST_ERROR_BYTES)) as [Hl Hs]; [lia|].
    cbn zeta. rewrite Hl. split_and!; [done|by eexists|done|]. intros j Hj _. by apply H3.
Qed.

(** * The tracker *)

Inductive TrackerState := TStarting | THealthy | TUnhealthy.

#[export] Instance TrackerState_eq_dec : EqDecision TrackerState.
Proof. solve_decision. Defined.

Record HealthTracker := mkTracker {
  ht_policy : HealthPolicy;
  ht_started_at : Z;
  ht_grace_ended : bool;
  ht_state : TrackerState;
  ht_consecutive_failures : Z;
  ht_consecutive_successes : Z;
  ht_last_error : option string;
}.

Record TrackerUpdate := mkUpdate {
  tu_state : TrackerState;
  tu_transitioned : bool;
  tu_consecutive_failures : Z;
  tu_last_error : option string;
}.

Definition tracker_new (policy : HealthPolicy) (started_at : Z) : HealthTracker :=
  mkTracker policy started_at false TStarting 0 0 None.

(** The state change of [HealthTracker::observe]. *)
Definition observe_tracker (now : Z) (result : ProbeResult) (t : HealthTracker) : HealthTracker :=
  let p := ht_policy t in
  match result with
  | Healthy =>
      let '(state, successes) :=
        if bool_decide (ht_state t = THealthy) then (THealthy, 0%Z)
        else
          let s := sat_add_u32 (ht_consecutive_successes t) 1 in
          if (hp_success_threshold p <=? s)%Z then (THealthy, 0%Z) else (ht_state t, s) in
      mkTracker p (ht_started_at t) true state 0 successes None
  | Unhealthy detail =>
      let grace_active :=
        negb (ht_grace_ended t) && (now <? ht_started_at t + hp_start_period p)%Z in
      let '(state, failures) :=
        if grace_active then (ht_state t, ht_consecutive_failures t)
        else
          let f := sat_add_u32 (ht_consecutive_failures t) 1 in
          (if negb (bool_decide (ht_state t = TUnhealthy)) && (hp_failure_threshold p <=? f)%Z
           then TUnhealthy else ht_state t, f) in
      mkTracker p (ht_started_at t) (ht_grace_ended t) state failures 0 (cap_detail <$> detail)
  end.

(** [HealthTracker::observe]: the new tracker and the reported update. *)
Definition observe (now : Z) (result : ProbeResult) (t : HealthTracker) : TrackerUpdate * HealthTracker :=
  let t' := observe_tracker now result t in
  (mkUpdate (ht_state t') (negb (bool_decide (ht_state t = ht_state t')))
     (ht_consecutive_failures t') (ht_last_error t'), t').

(** A tracker that has seen a history of probe results, newest first. *)
Fixpoint track (policy : HealthPolicy) (started_at : Z) (history : list (Z * ProbeResult)) : HealthTracker :=
  match history with
  | [] => tracker_new policy started_at
  | (now, r) :: older => (observe now r (track policy started_at older)).2
  end.

(** * What the thresholds promise *)

Definition ok (o : Z * ProbeResult) : bool := is_healthy o.2.
Definition bad (o : Z * ProbeResult) : bool := negb (is_healthy o.2).

(** [l] contains [k] consecutive results satisfying [f]. *)
Definition run_of {A} (f : A → bool) (k : nat) (l : list A) : Prop :=
  ∃ a b c, l = a ++ b ++ c ∧ length b = k ∧ Forall (λ x, f x = true) b.

(** The specification of being healthy: at some point [success_threshold]
    consecutive probes succeeded, and since then no [failure_threshold]
    consecutive probes failed.  [h] is newest first. *)
Definition healthy_spec (p : HealthPolicy) (h : list (Z * ProbeResult)) : Prop :=
  ∃ since reached older, h = since ++ reached ++ older
    ∧ length reached = Z.to_nat (hp_success_threshold p)
    ∧ Forall (λ o, ok o = true) reached
    ∧ ¬ run_of bad (Z.to_nat (hp_failure_threshold p)) since.

(** The length of the leading run of results satisfying [f]. *)
Fixpoint lead {A} (f : A → bool) (l : list A) : nat :=
  match l with
  | x :: l' => if f x then S (lead f l') else O
  | [] => O
  end.

Lemma bad_ok o : bad o = negb (ok o).
Proof. done. Qed.

Lemma lead_run {A} (f : A → bool) l b c : l = b ++ c → Forall (λ x, f x = true) b → (length b ≤ lead f l)%nat.
Proof.
  revert l. induction b as [|x b IH]; intros l -> Hb; simpl; [lia|].
  inversion Hb as [|? ? Hx Hb']; subst. rewrite Hx. apply le_n_S, (IH (b ++ c) eq_refl Hb').
Qed.

Lemma lead_split {A} (f : A → bool) l k :
  (k ≤ lead f l)%nat → ∃ b c, l = b ++ c ∧ length b = k ∧ Forall (λ x, f x = true) b.
Proof.
  revert k. induction l as [|x l IH]; intros k Hk; simpl in Hk.
  { exists [], []. repeat split; [simpl; lia|constructor]. }
  destruct (f x) eqn:Fx.
  - destruct k as [|k]; [exists [], (x :: l); repeat split; constructor|].
    destruct (IH k ltac:(lia)) as (b & c & -> & Hl & Hb).
    exists (x :: b), c. repeat split; [simpl; lia|by constructor].
  - exists [], (x :: l). repeat split; [simpl; lia|constructor].
Qed.

(** A success on top: healthy before, or the success run is now long enough. *)
Lemma healthy_spec_ok p o h :
  policy_ok p → ok o = true →
  healthy_spec p (o :: h) ↔ healthy_spec p h ∨ (Z.to_nat (hp_success_threshold p) ≤ S (lead ok h))%nat.
Proof.
  intros [Hf Hs] Ho. split.
  - intros (l3 & l2 & l1 & E & Hl & Hall & Hrun). destruct l3 as [|x l3]; simpl in E.
    + right. rewrite <-Hl. pose proof (lead_run ok _ _ _ E Hall) as H. simpl in H. by rewrite Ho in H.
    + injection E as -> ->. left. exists l3, l2, l1. split_and!; try done.
      intros (a & b & c & -> & Hlb & Hb). apply Hrun. exists (x :: a), b, c. done.
  - intros [(l3 & l2 & l1 & -> & Hl & Hall & Hrun)|Hk].
    + exists (o :: l3), l2, l1. split_and!; try done.
      intros (a & b & c & E & Hlb & Hb). apply Hrun. destruct a as [|y a]; simpl in E.
      * destruct b as [|y b]; simpl in *; [lia|]. injection E as <- _.
        inversion Hb as [|? ? Hy _]. rewrite bad_ok, Ho in Hy. done.
      * injection E as _ ->. by exists a, b, c.
    + destruct (lead_split ok (o :: h) (Z.to_nat (hp_success_threshold p))) as (b & c & E & Hl & Hb).
      { simpl. by rewrite Ho. }
      exists [], b, c. split_and!; try done.
      intros (a & b' & c' & E' & Hlb & Hb'). symmetry in E'. apply app_eq_nil in E' as [-> E'].
      apply app_eq_nil in E' as [-> ->]. simpl in Hlb. lia.
Qed.

(** A failure on top: healthy before, and the failure run is still short. *)
Lemma healthy_spec_bad p o h :
  policy_ok p → ok o = false →
  healthy_spec p (o :: h) ↔ healthy_spec p h ∧ (S (lead bad h) < Z.to_nat (hp_failure_threshold p))%nat.
Proof.
  intros [Hf Hs] Ho. split.
  - intros (l3 & l2 & l1 & E & Hl & Hall & Hrun). destruct l3 as [|x l3]; simpl in E.
    { destruct l2 as [|y l2]; simpl in *; [lia|]. injection E as <- _.
      inversion Hall; congruence. }
    injection E as -> ->. split.
    + exists l3, l2, l1. split_and!; try done.
      intros (a & b & c & -> & Hlb & Hb). apply Hrun. exists (x :: a), b, c. done.
    + destruct (decide (S (lead bad (l3 ++ l2 ++ l1)) < Z.to_nat (hp_failure_threshold p))%nat)
        as [|Hge]; [done|]. exfalso. apply Hrun.
      assert (lead bad (l3 ++ l2 ++ l1) ≤ lead bad l3)%nat as Hle.
      { clear -Hall Hl Hs. induction l3 as [|y l3 IH]; simpl.
        - destruct l2 as [|z l2]; simpl in *; [lia|]. inversion Hall as [|? ? Hz]; subst.
          by rewrite bad_ok, Hz.
        - destruct (bad y); lia. }
      destruct (lead_split bad (x :: l3) (Z.to_nat (hp_failure_threshold p))) as (b & c & E & Hlb & Hb).
      { simpl. rewrite bad_ok, Ho. simpl. lia. }
      exists [], b, c. by rewrite E.
  - intros [(l3 & l2 & l1 & -> & Hl & Hall & Hrun) Hlt].
    exists (o :: l3), l2, l1. split_and!; try done.
    intros (a & b & c & E & Hlb & Hb). destruct a as [|y a]; simpl in E.
    + assert (length b ≤ lead bad (o :: l3))%nat as Hle by (by eapply lead_run).
      simpl in Hle. rewrite bad_ok, Ho in Hle. simpl in Hle.
      assert (lead bad l3 ≤ lead bad (l3 ++ l2 ++ l1))%nat.
      { clear. induction l3 as [|z l3 IH]; simpl; [lia|]. destruct (bad z); lia. }
      lia.
    + injection E as _ ->. apply Hrun. by exists a, b, c.
Qed.

(** ** The tracker against the specification *)

Record tracker_inv (p : HealthPolicy) (started : Z) (h : list (Z * ProbeResult)) (t : HealthTracker) : Prop := {
  ti_policy : ht_policy t = p;
  ti_grace : ht_grace_ended t = existsb ok h;
  ti_failures : existsb ok h = true →
    ht_consecutive_failures t = Z.min (Z.of_nat (lead bad h)) u32_max;
  ti_failures_pos : (0 ≤ ht_consecutive_failures t)%Z;
  ti_successes : ht_state t ≠ THealthy →
    ht_consecutive_successes t = Z.min (Z.of_nat (lead ok h)) u32_max;
  ti_healthy : ht_state t = THealthy ↔ healthy_spec p h;
}.

Lemma healthy_spec_nil p : policy_ok p → ¬ healthy_spec p [].
Proof.
  intros [_ Hs] (l3 & l2 & l1 & E & Hl & _ & _). symmetry in E. apply app_eq_nil in E as [_ E].
  apply app_eq_nil in E as [-> _]. simpl in Hl. lia.
Qed.

Lemma healthy_spec_seen p h : policy_ok p → healthy_spec p h → existsb ok h = true.
Proof.
  intros [_ Hs] (l3 & l2 & l1 & -> & Hl & Hall & _). destruct l2 as [|o l2]; simpl in Hl; [lia|].
  rewrite !existsb_app. simpl. inversion Hall as [|? ? Ho]; subst. rewrite Ho. simpl.
  by rewrite orb_true_r.
Qed.

Lemma track_inv p started h : policy_ok p → tracker_inv p started h (track p started h).
Proof.
  intros Hp. pose proof Hp as [Hf Hs]. induction h as [|[now r] h [I1 I2 I3 I3' I4 I5]].
  { constructor; simpl; try done. split; [done|]. intros H. by apply healthy_spec_nil in H. }
  cbn [track observe snd]. set (t := track p started h) in *. unfold observe_tracker. rewrite I1.
  assert (∀ n m : nat, (m ≤ 1)%nat → sat_add_u32 (Z.min (Z.of_nat n) u32_max) (Z.of_nat m)
    = Z.min (Z.of_nat (n + m)) u32_max) as Hsat by (unfold sat_add_u32, u32_max; lia).
  destruct r as [|detail].
  - assert (ok (now, Healthy) = true) as Ho by done.
    assert (bad (now, Healthy) = false) as Hb by done.
    assert (healthy_spec p ((now, Healthy) :: h) ↔ healthy_spec p h
            ∨ (Z.to_nat (hp_success_threshold p) ≤ S (lead ok h))%nat) as Hh
      by (by apply healthy_spec_ok).
    case_bool_decide as Hst.
    + constructor; simpl; try done. rewrite Hh, <-I5. naive_solver.
    + rewrite (I4 Hst), (Hsat _ 1%nat) by lia.
      destruct (Z.leb_spec (hp_success_threshold p) (Z.min (Z.of_nat (lead ok h + 1)) u32_max)).
      * constructor; simpl; try done. rewrite Hh. split; [|done]. intros _. right. lia.
      * constructor; simpl; try done.
        -- intros _. lia.
        -- rewrite Hh, <-I5. split; [done|]. intros [?|?]; [done|]. lia.
  - assert (ok (now, Unhealthy detail) = false) as Ho by done.
    assert (healthy_spec p ((now, Unhealthy detail) :: h) ↔ healthy_spec p h
            ∧ (S (lead bad h) < Z.to_nat (hp_failure_threshold p))%nat) as Hh
      by (by apply healthy_spec_bad).
    destruct (negb (ht_grace_ended t) && _) eqn:Eg.
    + apply andb_true_iff in Eg as [Eg _]. apply negb_true_iff in Eg. rewrite I2 in Eg.
      constructor; simpl; try done; [by rewrite Eg|].
      rewrite Hh, I5. split; [intros Hx|by intros [? _]].
      apply healthy_spec_seen in Hx; [|done]. congruence.
    + constructor; simpl; try done.
      * intros Hseen. rewrite (I3 Hseen), (Hsat _ 1%nat) by lia. f_equal. lia.
      * unfold sat_add_u32, u32_max. lia.
      * destruct (decide (existsb ok h = true)) as [Hseen|Hns].
        -- rewrite Hh, (I3 Hseen), (Hsat _ 1%nat) by lia. unfold u32_max in *.
           destruct (Z.leb_spec (hp_failure_threshold p) (Z.min (Z.of_nat (lead bad h + 1)) 4294967295)).
           ++ rewrite andb_true_r. case_bool_decide as Hu; simpl.
              ** rewrite Hu, <-I5. split; [done|]. rewrite Hu. naive_solver.
              ** split; [done|]. lia.
           ++ rewrite andb_false_r, I5. split; [|by intros [? _]]. intros; split; [done|lia].
        -- assert (¬ healthy_spec p h) as Hnh by (by intros ?%healthy_spec_seen).
           rewrite Hh. rewrite <-I5 in Hnh. case_match; [|naive_solver]. naive_solver.
Qed.

(** C28: the tracker reports healthy exactly when at some point
    [success_threshold] consecutive probes succeeded and since then no
    [failure_threshold] consecutive probes failed, whatever the probe times,
    the grace window and the length of the history. *)
Theorem tracker_healthy_iff (p : HealthPolicy) (started : Z) (h : list (Z * ProbeResult)) :
  policy_ok p → ht_state (track p started h) = THealthy ↔ healthy_spec p h.
Proof. intros Hp. apply (ti_healthy _ _ _ _ (track_inv p started h Hp)). Qed.

Lemma tracker_healthy_iff_witness :
  policy_ok health_policy_default
  ∧ (ht_state (track health_policy_default 0 [(2, Unhealthy None); (1, Healthy)]%Z) = THealthy
     ↔ healthy_spec health_policy_default [(2, Unhealthy None); (1, Healthy)]%Z).
Proof.
  split; [unfold policy_ok; simpl; unfold u32_max; lia|].
  apply (tracker_healthy_iff health_policy_default 0). unfold policy_ok; simpl; unfold u32_max; lia.
Defined.
