(* ===== verification/Yaml.v ===== *)
(** YAML documents and their canonical form (the [serde_yaml_ng] values that
    config/mod.rs manipulates, and its [canonicalize]).

    The library is outside the repository; what the source relies on is the
    shape of [Value] (it matches on every constructor), the map discipline of
    [Mapping] (insertion-ordered, unique keys, comparison that ignores the
    order) and the [as_*] views, which look through tags. *)
From S2P Require Import Prelude Text Types.
From stdpp Require Import sorting.
From Stdlib Require Import ZArith Lia.

(** Floating-point numbers are only compared and carried along. *)
Class YamlFloat := { YFloat : Type; YFloat_eq_dec :: EqDecision YFloat }.

Section value.
Context {YF : YamlFloat}.

Inductive Number := PosInt (n : Z) | NegInt (n : Z) | Float (f : YFloat).

#[local] Set Warnings "-register-all".

#[export] Instance Number_eq_dec : EqDecision Number.
Proof. solve_decision. Defined.

(** A tag is kept without its leading [!], which its comparison ignores. *)
Inductive Value :=
| VNull
| VBool (b : bool)
| VNumber (n : Number)
| VString (s : string)
| VSequence (l : list Value)
| VMapping (m : list (Value * Value))
| VTagged (tag : string) (v : Value).

Definition Mapping : Type := list (Value * Value).

(** Induction with hypotheses for the elements of collections. *)
Lemma Value_induction (P : Value → Prop) :
  P VNull → (∀ b, P (VBool b)) → (∀ n, P (VNumber n)) → (∀ s, P (VString s)) →
  (∀ l, Forall P l → P (VSequence l)) →
  (∀ m, Forall (λ kv, P kv.1 ∧ P kv.2) m → P (VMapping m)) →
  (∀ t v, P v → P (VTagged t v)) →
  ∀ v, P v.
Proof.
  intros Hnull Hbool Hnum Hstr Hseq Hmap Htag. fix rec 1. intros [|b|n|s|l|m|t v].
  - exact Hnull.
  - apply Hbool.
  - apply Hnum.
  - apply Hstr.
  - apply Hseq. induction l as [|x l IH]; constructor; [apply rec|exact IH].
  - apply Hmap. induction m as [|[k v] m IH]; constructor; [split; apply rec|exact IH].
  - apply Htag, rec.
Qed.

(** * Views *)

Fixpoint untag (v : Value) : Value := match v with VTagged _ v' => untag v' | _ => v end.

Definition as_mapping (v : Value) : option Mapping :=
  match untag v with VMapping m => Some m | _ => None end.
Definition as_str (v : Value) : option string :=
  match untag v with VString s => Some s | _ => None end.
Definition as_bool (v : Value) : option bool :=
  match untag v with VBool b => Some b | _ => None end.
Definition is_null (v : Value) : bool := match untag v with VNull => true | _ => false end.

Definition i64_max : Z := 9223372036854775807.

(** [Value::as_i64]: an integer that fits; never a float. *)
Definition as_i64 (v : Value) : option Z :=
  match untag v with
  | VNumber (PosInt n) => if (n <=? i64_max)%Z then Some n else None
  | VNumber (NegInt n) => Some n
  | _ => None
  end.

(** * Mappings *)

(** Keys looked up by the source are always [Value::String]s. *)
Definition is_key (key : string) (kv : Value * Value) : bool :=
  match kv.1 with VString s => String.eqb key s | _ => false end.

(** [Mapping::get]. *)
Definition map_get (m : Mapping) (key : string) : option Value :=
  snd <$> List.find (is_key key) m.

Definition contains_key (m : Mapping) (key : string) : bool := existsb (is_key key) m.

(** [Mapping::insert]: replace in place, or append. *)
Fixpoint map_insert (key : string) (v : Value) (m : Mapping) : Mapping :=
  match m with
  | [] => [(VString key, v)]
  | kv :: m' => if is_key key kv then (kv.1, v) :: m' else kv :: map_insert key v m'
  end.

(** Move the last element to the front. *)
Definition last_first {A} (l : list A) : list A :=
  match last l with Some x => x :: removelast l | None => [] end.

(** [Mapping::remove], which swaps the last entry into the hole. *)
Fixpoint map_remove (key : string) (m : Mapping) : Mapping :=
  match m with
  | [] => []
  | kv :: m' => if is_key key kv then last_first m' else kv :: map_remove key m'
  end.

(** [Mapping::keys] filtered by [Value::as_str]. *)
Definition str_keys (m : Mapping) : list string := omap (λ kv, as_str kv.1) m.

(** * Equality: [PartialEq for Value], which ignores the order of mappings *)

Fixpoint value_eqb (a b : Value) : bool :=
  match a, b with
  | VNull, VNull => true
  | VBool x, VBool y => Bool.eqb x y
  | VNumber x, VNumber y => bool_decide (x = y)
  | VString x, VString y => String.eqb x y
  | VSequence x, VSequence y =>
      (fix go (x y : list Value) : bool :=
         match x, y with
         | [], [] => true
         | a :: x', b :: y' => value_eqb a b && go x' y'
         | _, _ => false
         end) x y
  | VMapping x, VMapping y =>
      (length x =? length y)%nat
      && forallb (λ kv, match List.find (λ kv', value_eqb kv.1 kv'.1) y with
                        | Some kv' => value_eqb kv.2 kv'.2
                        | None => false
                        end) x
  | VTagged t x, VTagged u y => String.eqb t u && value_eqb x y
  | _, _ => false
  end.

(** * Canonical form *)

Definition entry_le (a b : string * Value) : Prop := String.le a.1 b.1.

#[export] Instance entry_le_dec : RelDecision entry_le.
Proof. intros a b. unfold entry_le. apply _. Defined.
#[export] Instance entry_le_total : Total entry_le.
Proof. intros a b. apply String.le_total. Qed.
#[export] Instance entry_le_trans : Transitive entry_le.
Proof. intros a b c. unfold entry_le. apply transitivity. Qed.

Definition to_mapping (es : list (string * Value)) : Mapping :=
  (λ e, (VString e.1, e.2)) <$> es.

(** [for (key, value) in entries { canonical.insert(..) }]. *)
Definition insert_all (es : list (string * Value)) : Mapping :=
  fold_left (λ m e, map_insert e.1 e.2 m) es [].

Definition non_string_key : Error := InvalidConfig "all YAML mapping keys must be strings".
Definition tagged_value : Error :=
  InvalidConfig "tagged YAML values are not supported in runtime configs".

(** The loop over the entries of a mapping, for the function applied to its
    values. *)
Definition canon_entries (f : Value → result Value Error) :
    Mapping → result (list (string * Value)) Error :=
  fix go m :=
    match m with
    | [] => Ok []
    | (VString key, v) :: m' => let? v' := f v in let? es := go m' in Ok ((key, v') :: es)
    | _ :: _ => Err non_string_key
    end.

(** [map(f).collect::<Result<Vec<_>, _>>()]. *)
Definition collect_results (f : Value → result Value Error) :
    list Value → result (list Value) Error :=
  fix go l :=
    match l with
    | [] => Ok []
    | v :: l' => let? v' := f v in let? vs := go l' in Ok (v' :: vs)
    end.

(** [canonicalize]; the keys of a mapping are distinct, so any sort by key
    gives the order of [sort_by]. *)
Fixpoint canonicalize (value : Value) : result Value Error :=
  match value with
  | VMapping mapping =>
      let? entries := canon_entries canonicalize mapping in
      Ok (VMapping (insert_all (merge_sort entry_le entries)))
  | VSequence sequence =>
      let? l := collect_results canonicalize sequence in
      Ok (VSequence l)
  | VTagged _ _ => Err tagged_value
  | scalar => Ok scalar
  end.

(** ** Well-formed and canonical values *)

Definition raw_keys (m : Mapping) : list string :=
  omap (λ kv, match kv.1 with VString s => Some s | _ => None end) m.

(** The string keys of every mapping are distinct. *)
Fixpoint wf (v : Value) : bool :=
  match v with
  | VSequence l => forallb wf l
  | VMapping m => bool_decide (NoDup (raw_keys m)) && forallb (λ kv, wf kv.2) m
  | VTagged _ v' => wf v'
  | _ => true
  end.

Definition str_lt (a b : string) : Prop := String.le a b ∧ a ≠ b.

(** Canonical: no tags, string keys only, every mapping in key order. *)
Inductive canonical : Value → Prop :=
| canonical_null : canonical VNull
| canonical_bool b : canonical (VBool b)
| canonical_number n : canonical (VNumber n)
| canonical_string s : canonical (VString s)
| canonical_seq l : Forall canonical l → canonical (VSequence l)
| canonical_map es :
    StronglySorted str_lt es.*1 → Forall (λ e, canonical e.2) es →
    canonical (VMapping (to_mapping es)).

(** ** Lemmas *)
Lemma canon_entries_Ok f m es :
  canon_entries f m = Ok es ↔ Forall2 (λ kv e, kv.1 = VString e.1 ∧ f kv.2 = Ok e.2) m es.
Proof.
  revert es. induction m as [|[k v] m IH]; intros es; simpl.
  - split; [intros [= <-]; constructor|]. by inversion 1.
  - split.
    + destruct k; try done. destruct (f v) as [v'|] eqn:Ev; [|done].
      destruct (canon_entries f m) as [es'|] eqn:Em; [|done]. intros [= <-].
      constructor; [done|]. by apply IH.
    + intros H. inversion H as [|? [k' v'] ? es' [Hk Hv] Hrest]; subst; simpl in *. subst.
      rewrite Hv. apply IH in Hrest. by rewrite Hrest.
Qed.

Lemma collect_results_Ok f l l' :
  collect_results f l = Ok l' ↔ Forall2 (λ v v', f v = Ok v') l l'.
Proof.
  revert l'. induction l as [|v l IH]; intros l'; simpl.
  - split; [intros [= <-]; constructor|]. by inversion 1.
  - split.
    + destruct (f v) as [v'|] eqn:Ev; [|done].
      destruct (collect_results f l) as [vs|] eqn:El; [|done]. intros [= <-].
      constructor; [done|]. by apply IH.
    + intros H. inversion H as [|? v' ? vs Hv Hrest]; subst. rewrite Hv.
      apply IH in Hrest. by rewrite Hrest.
Qed.

Lemma entries_keys (f : Value → result Value Error) (m : Mapping) (es : list (string * Value)) :
  Forall2 (λ kv e, kv.1 = VString e.1 ∧ f kv.2 = Ok e.2) m es → raw_keys m = es.*1.
Proof.
  induction 1 as [|[k v] [k' v'] m es [Hk _] _ IH]; [done|]. simpl in *. subst. by rewrite IH.
Qed.

Lemma to_mapping_keys es : raw_keys (to_mapping es) = es.*1.
Proof. induction es as [|[k v] es IH]; [done|]. simpl. by rewrite IH. Qed.

Lemma map_insert_fresh key v m : key ∉ raw_keys m → map_insert key v m = m ++ [(VString key, v)].
Proof.
  induction m as [|[k w] m IH]; intros H; [done|]. simpl. unfold is_key. simpl.
  destruct k; simpl in *; try by rewrite IH.
  destruct (String.eqb_spec key s) as [->|]; [set_solver|]. rewrite IH; set_solver.
Qed.

Lemma insert_all_NoDup es : NoDup es.*1 → insert_all es = to_mapping es.
Proof.
  intros H. unfold insert_all.
  assert (∀ acc, NoDup (raw_keys acc ++ es.*1) →
    fold_left (λ m e, map_insert e.1 e.2 m) es acc = acc ++ to_mapping es) as Hgen; [|by apply Hgen].
  clear H. induction es as [|[k v] es IH]; intros acc H; simpl.
  { by rewrite app_nil_r. }
  simpl in H. apply NoDup_app in H as (H1 & H2 & H3).
  rewrite map_insert_fresh by (intros Hin; apply (H2 k Hin); set_solver).
  rewrite IH; [by rewrite <-app_assoc|].
  unfold raw_keys. rewrite omap_app. simpl. fold (raw_keys acc). rewrite <-app_assoc. simpl.
  apply NoDup_app. split_and!; done.
Qed.

#[export] Instance str_lt_trans : Transitive str_lt.
Proof.
  intros a b c [H1 H2] [H3 H4]. split; [by trans b|]. intros ->. apply H4.
  by apply (anti_symm String.le).
Qed.

Lemma str_lt_irrefl a : ¬ str_lt a a.
Proof. by intros [_ H]. Qed.

Lemma sorted_strict_NoDup l : StronglySorted str_lt l → NoDup l.
Proof.
  induction 1 as [|a l _ IH Hall]; constructor; [|done].
  intros Hin. eapply Forall_forall in Hall; [|exact Hin]. by apply str_lt_irrefl in Hall.
Qed.

Definition entry_lt (a b : string * Value) : Prop := str_lt a.1 b.1.

#[export] Instance entry_lt_antisymm : AntiSymm (=) entry_lt.
Proof.
  intros a b [H1 H2] [H3 _]. destruct H2. by apply (anti_symm String.le).
Qed.

Lemma sorted_entries es : StronglySorted str_lt es.*1 ↔ StronglySorted entry_lt es.
Proof.
  split.
  - induction es as [|e es IH]; intros H; [constructor|]. inversion H; subst. constructor; [auto|].
    by rewrite <-(Forall_fmap (A:=string*Value) fst (str_lt e.1)).
  - induction 1 as [|e es H IH Hall]; simpl; constructor; [done|].
    by rewrite Forall_fmap.
Qed.

(** The sorted entries of a mapping with distinct keys. *)
Lemma merge_sort_entries es :
  NoDup es.*1 → StronglySorted str_lt (merge_sort entry_le es).*1.
Proof.
  intros Hnd. assert (StronglySorted entry_le (merge_sort entry_le es)) as Hs
    by (apply StronglySorted_merge_sort; apply _).
  assert (NoDup (merge_sort entry_le es).*1) as Hnd' by (by rewrite merge_sort_Permutation).
  apply sorted_entries. clear Hnd. induction Hs as [|e l _ IH Hall]; [constructor|].
  simpl in Hnd'. apply NoDup_cons in Hnd' as [Hin Hnd']. constructor; [auto|].
  apply Forall_forall. intros e' He'. rewrite Forall_forall in Hall. split; [by apply Hall|].
  intros E. apply Hin. rewrite E. by apply list_elem_of_fmap_2.
Qed.

Lemma merge_sort_unique es fs :
  NoDup es.*1 → NoDup fs.*1 →
  merge_sort entry_le es = merge_sort entry_le fs ↔ es ≡ₚ fs.
Proof.
  intros He Hf. split.
  - intros E. rewrite <-(merge_sort_Permutation entry_le es), E. apply merge_sort_Permutation.
  - intros Hp. apply (StronglySorted_unique entry_lt).
    + by apply sorted_entries, merge_sort_entries.
    + by apply sorted_entries, merge_sort_entries.
    + by rewrite !merge_sort_Permutation.
Qed.

Lemma merge_sort_sorted es : StronglySorted str_lt es.*1 → merge_sort entry_le es = es.
Proof.
  intros H. apply (StronglySorted_unique entry_lt).
  - by apply sorted_entries, merge_sort_entries, sorted_strict_NoDup.
  - by apply sorted_entries.
  - apply merge_sort_Permutation.
Qed.

Lemma wf_mapping m : wf (VMapping m) = true → NoDup (raw_keys m) ∧ Forall (λ kv, wf kv.2 = true) m.
Proof.
  cbn [wf]. by rewrite andb_true_iff, bool_decide_eq_true, forallb_Forall.
Qed.

Lemma wf_sequence l : wf (VSequence l) = true → Forall (λ v, wf v = true) l.
Proof.
  cbn [wf]. by rewrite forallb_Forall.
Qed.

(** The result on a mapping: its entries canonicalized and put in key order. *)
Lemma canonicalize_mapping m v :
  wf (VMapping m) = true → canonicalize (VMapping m) = Ok v →
  ∃ es, Forall2 (λ kv e, kv.1 = VString e.1 ∧ canonicalize kv.2 = Ok e.2) m es
    ∧ NoDup es.*1 ∧ v = VMapping (to_mapping (merge_sort entry_le es)).
Proof.
  intros [Hnd _]%wf_mapping. cbn [canonicalize].
  destruct (canon_entries canonicalize m) as [es|] eqn:E; [|done]. intros [= <-].
  apply canon_entries_Ok in E. exists es. rewrite (entries_keys _ _ _ E) in Hnd.
  split_and!; [done|done|]. f_equal. apply insert_all_NoDup. by rewrite merge_sort_Permutation.
Qed.

Lemma canonicalize_canonical v : ∀ v', wf v = true → canonicalize v = Ok v' → canonical v'.
Proof.
  induction v as [| | | |l IH|m IH|t v IH] using Value_induction; intros v' Hwf H;
    try (simplify_eq/=; by constructor).
  - apply wf_sequence in Hwf. cbn [canonicalize] in H.
    destruct (collect_results canonicalize l) as [l'|] eqn:E; [|done]. simplify_eq.
    apply collect_results_Ok in E. constructor. revert Hwf.
    induction E as [|x x' l l' Hx _ IHE]; intros Hwf; inversion IH; inversion Hwf; subst;
      constructor; auto.
  - destruct (canonicalize_mapping _ _ Hwf H) as (es & Hes & Hnd & ->).
    apply wf_mapping in Hwf as [_ Hwf]. constructor; [by apply merge_sort_entries|].
    rewrite merge_sort_Permutation. clear H Hnd. revert Hwf.
    induction Hes as [|kv e m es [_ Hv] _ IHE]; intros Hwf; inversion IH as [|? ? [? ?]];
      inversion Hwf; subst; constructor; auto.
Qed.

Lemma canonicalize_fixpoint v : canonical v → canonicalize v = Ok v.
Proof.
  induction v as [| | | |l IH|m IH|t v IH] using Value_induction; intros H; try done.
  - inversion H as [| | | |? Hl|]; subst. cbn [canonicalize].
    rewrite (proj2 (collect_results_Ok canonicalize l l)); [done|].
    clear H. induction IH; inversion Hl; subst; constructor; auto.
  - inversion H as [| | | | |es Hs Hv]; subst. cbn [canonicalize].
    rewrite (proj2 (canon_entries_Ok canonicalize (to_mapping es) es)).
    { by rewrite merge_sort_sorted, insert_all_NoDup by eauto using sorted_strict_NoDup. }
    clear H Hs. induction es as [|e es IHes]; inversion IH as [|? ? [? ?]]; inversion Hv; subst;
      constructor; auto.
  - inversion H.
Qed.

(** ** Lookup after an update *)
Lemma map_get_insert k v m k' :
  map_get (map_insert k v m) k' = if String.eqb k k' then Some v else map_get m k'.
Proof.
  unfold map_get. induction m as [|kv m IH]; cbn [map_insert List.find].
  - unfold is_key. cbn [fst]. rewrite String.eqb_sym. by destruct (String.eqb k k').
  - destruct (is_key k kv) eqn:E; cbn [List.find].
    + unfold is_key in E |- *. cbn [fst snd]. destruct kv.1; try done.
      apply String.eqb_eq in E as <-. rewrite String.eqb_sym. by destruct (String.eqb k k').
    + destruct (is_key k' kv) eqn:E'; [|done]. simpl. destruct (String.eqb_spec k k') as [->|]; [congruence|done].
Qed.

(** ** Equality and canonical forms *)
Lemma find_value_eqb key (m : Mapping) :
  List.find (λ kv', value_eqb (VString key) kv'.1) m = List.find (is_key key) m.
Proof.
  induction m as [|[k v] m IH]; [done|]. cbn [List.find]. rewrite IH. by destruct k.
Qed.

(** The entries of two string-keyed mappings, compared the way [IndexMap]
    compares them. *)
Lemma entries_subset_perm (es fs : list (string * Value)) :
  NoDup es.*1 → length es = length fs → (∀ e, e ∈ es → e ∈ fs) → es ≡ₚ fs.
Proof.
  intros Hnd Hlen Hsub. apply submseteq_length_Permutation; [|lia].
  apply NoDup_submseteq; [by apply NoDup_fmap_1 in Hnd|done].
Qed.

Lemma map_get_entries (f : Value → result Value Error) (m : Mapping) (es : list (string * Value)) key :
  Forall2 (λ kv e, kv.1 = VString e.1 ∧ f kv.2 = Ok e.2) m es → NoDup es.*1 →
  ∀ v', (∃ v, map_get m key = Some v ∧ f v = Ok v') ↔ (key, v') ∈ es.
Proof.
  intros H. induction H as [|[k v] [k' w] m es [Hk Hv] HF IH]; intros Hnd v'.
  { split; [by intros (? & ? & _)|]. by intros ?%elem_of_nil. }
  simpl in *. subst k. apply NoDup_cons in Hnd as [Hnin Hnd].
  unfold map_get. simpl. unfold is_key at 1. simpl.
  destruct (String.eqb_spec key k') as [->|Hne].
  - simpl. rewrite elem_of_cons. split.
    + intros (? & [= <-] & E). left. congruence.
    + intros [[= ->]|Hin]; [eauto|]. destruct Hnin.
      apply (list_elem_of_fmap_2 fst) in Hin. done.
  - rewrite elem_of_cons. fold (map_get m key). rewrite IH by done. naive_solver.
Qed.

Lemma value_eqb_sequence x y :
  value_eqb (VSequence x) (VSequence y) = true ↔ Forall2 (λ a b, value_eqb a b = true) x y.
Proof.
  revert y. induction x as [|a x IH]; intros [|b y]; simpl.
  - by split.
  - split; [done|]. by inversion 1.
  - split; [done|]. by inversion 1.
  - rewrite andb_true_iff. specialize (IH y). simpl in IH. rewrite IH, Forall2_cons. done.
Qed.

Lemma value_eqb_mapping (m n : Mapping) :
  Forall (λ kv, ∃ k, kv.1 = VString k) m →
  value_eqb (VMapping m) (VMapping n) = true ↔
  length m = length n
  ∧ Forall (λ kv, ∃ k w, kv.1 = VString k ∧ map_get n k = Some w ∧ value_eqb kv.2 w = true) m.
Proof.
  intros Hm. cbn [value_eqb]. rewrite andb_true_iff, Nat.eqb_eq, forallb_Forall.
  apply and_iff_compat_l. clear -Hm. induction Hm as [|[k v] m [s Hs] _ IH]; [by split|].
  simpl in Hs. subst k. rewrite !Forall_cons, IH. cbn [fst snd]. rewrite find_value_eqb.
  apply and_iff_compat_r. unfold map_get.
  destruct (List.find (is_key s) n) as [[k' w]|] eqn:E; simpl.
  - split; [exists s, w; by rewrite E|]. intros (k & w' & [= <-] & Hg & ?). rewrite E in Hg.
    by injection Hg as <-.
  - split; [done|]. intros (k & w' & [= <-] & Hg & _). by rewrite E in Hg.
Qed.

Lemma entries_string_keys (f : Value → result Value Error) (m : Mapping) (es : list (string * Value)) :
  Forall2 (λ kv e, kv.1 = VString e.1 ∧ f kv.2 = Ok e.2) m es → Forall (λ kv, ∃ k, kv.1 = VString k) m.
Proof. induction 1 as [|? ? ? ? [? _]]; constructor; eauto. Qed.

Lemma to_mapping_inj es fs : to_mapping es = to_mapping fs → es = fs.
Proof.
  revert fs. induction es as [|[k v] es IH]; intros [|[k' v'] fs]; try done.
  intros [= -> -> H]. by rewrite (IH fs H).
Qed.

Lemma wf_map_get m k v : wf (VMapping m) = true → map_get m k = Some v → wf v = true.
Proof.
  intros [_ Hw]%wf_mapping. unfold map_get. destruct (List.find _ m) as [[k' w]|] eqn:E; [|done].
  intros [= <-]. apply List.find_some in E as [Hin _]. rewrite Forall_forall in Hw.
  by apply (Hw (k', w)), list_elem_of_In.
Qed.

(** The mapping case of [value_eqb_canonicalize]. *)
Lemma mapping_eqb_perm (m n : Mapping) (es fs : list (string * Value)) :
  Forall (λ kv, ∀ b a' b', wf kv.2 = true → wf b = true → canonicalize kv.2 = Ok a' →
            canonicalize b = Ok b' → value_eqb kv.2 b = true ↔ a' = b') m →
  wf (VMapping m) = true → wf (VMapping n) = true →
  Forall2 (λ kv e, kv.1 = VString e.1 ∧ canonicalize kv.2 = Ok e.2) m es → NoDup es.*1 →
  Forall2 (λ kv e, kv.1 = VString e.1 ∧ canonicalize kv.2 = Ok e.2) n fs → NoDup fs.*1 →
  value_eqb (VMapping m) (VMapping n) = true ↔ es ≡ₚ fs.
Proof.
  intros IH Hwm Hwn Hm Hes Hn Hfs.
  rewrite value_eqb_mapping by (by eapply entries_string_keys).
  rewrite (Forall2_length _ _ _ Hm), (Forall2_length _ _ _ Hn).
  pose proof Hwm as [_ Hwv]%wf_mapping.
  assert (Forall (λ kv, ∃ k w, kv.1 = VString k ∧ map_get n k = Some w ∧ value_eqb kv.2 w = true) m
          ↔ Forall (λ e, e ∈ fs) es) as ->.
  { clear Hwm Hes. induction Hm as [|[k v] [k' v'] m es [Hk Hv] _ IHm]; [by split|].
    simpl in *. subst k. inversion IH as [|? ? IHv IH']; subst. inversion Hwv; subst. simpl in *.
    rewrite !Forall_cons, IHm by done. apply and_iff_compat_r. simpl.
    rewrite <-(map_get_entries _ _ _ k' Hn Hfs). split.
    - intros (k & w & [= <-] & Hg & He).
      destruct (canonicalize w) as [w'|] eqn:Ew.
      + assert (v' = w') as <- by (eapply (IHv w); [done|by eapply wf_map_get|done|done|done]). eauto.
      + exfalso. revert Hg Ew. clear -Hn. unfold map_get.
        destruct (List.find _ n) as [[k w0]|] eqn:E; [|done]. intros [= ->] Ew.
        apply List.find_some in E as [Hin _]. apply list_elem_of_In in Hin.
        apply list_elem_of_lookup_1 in Hin as [i Hi].
        destruct (Forall2_lookup_l _ _ _ _ _ Hn Hi) as (e' & _ & _ & He'). simpl in He'. congruence.
    - intros (w & Hg & Hw). exists k', w. split_and!; [done|done|].
      by apply (IHv w v' v'); [done|by eapply wf_map_get|..]. }
  rewrite Forall_forall. split.
  - intros [Hl Hsub]. by apply entries_subset_perm.
  - intros Hp. split; [by apply Permutation_length|]. intros e. by rewrite Hp.
Qed.

Lemma value_eqb_canonicalize a :
  ∀ b a' b', wf a = true → wf b = true → canonicalize a = Ok a' → canonicalize b = Ok b' →
  value_eqb a b = true ↔ a' = b'.
Proof.
  induction a as [|x|n|s|l IH|m IH|t v IH] using Value_induction;
    intros b a' b' Hwa Hwb Ha Hb; try done.
  1-4: simplify_eq/=; destruct b; simpl in Hb; repeat case_match; simplify_eq/=; try done;
       rewrite ?eqb_true_iff, ?bool_decide_eq_true, ?String.eqb_eq; naive_solver.
  - pose proof (wf_sequence _ Hwa) as Hl. cbn [canonicalize] in Ha.
    destruct (collect_results canonicalize l) as [l1|] eqn:E1; [|done]. simplify_eq.
    apply collect_results_Ok in E1.
    destruct b as [| | | |l2|m2|]; simpl in Hb;
      try (repeat case_match; simplify_eq; by split).
    destruct (collect_results canonicalize l2) as [l3|] eqn:E2; [|done]. simplify_eq. apply wf_sequence in Hwb. apply collect_results_Ok in E2.
    rewrite value_eqb_sequence. clear Hwa. revert l2 l3 Hwb E2 Hl.
    induction E1 as [|v v' l l' Hv _ IHl]; intros l2 l3 Hw2 E2 Hl.
    + inversion E2; subst; [by split|]. split; [by inversion 1|done].
    + inversion E2 as [|w w' l2' l3' Hw E2']; subst; [split; [by inversion 1|done]|].
      inversion IH as [|? ? IHv IH']; subst. inversion Hl; subst. inversion Hw2; subst.
      rewrite Forall2_cons, (IHv w v' w'), (IHl IH' l2' l3') by done. naive_solver.
  - destruct (canonicalize_mapping _ _ Hwa Ha) as (es & Hes & Hnd & ->).
    destruct b as [| | | |l2|m2|]; try (simpl in Hb; repeat case_match; simplify_eq/=; by split).
    destruct (canonicalize_mapping _ _ Hwb Hb) as (fs & Hfs & Hnd' & ->).
    rewrite (mapping_eqb_perm m m2 es fs); try done.
    + rewrite <-merge_sort_unique by done. split; [by intros ->|].
      intros [= E]. by apply to_mapping_inj.
    + eapply Forall_impl; [exact IH|]. naive_solver.
Qed.

(** On canonical values the order-insensitive comparison is equality. *)
Lemma canonical_wf v : canonical v → wf v = true.
Proof.
  induction v as [| | | |l IH|m IH|t v IH] using Value_induction; intros H; try done.
  - inversion H as [| | | |? Hl|]; subst. cbn [wf]. apply forallb_Forall.
    clear H. induction IH; inversion Hl; subst; constructor; auto.
  - inversion H as [| | | | |es Hs Hv]; subst. cbn [wf]. rewrite andb_true_iff. split.
    + apply bool_decide_eq_true. rewrite to_mapping_keys. by apply sorted_strict_NoDup.
    + apply forallb_Forall. clear H Hs. induction es as [|e es IHes]; [constructor|].
      inversion IH as [|? ? [_ ?]]; inversion Hv; subst. constructor; auto.
  - inversion H.
Qed.

Lemma canonical_eqb a b : canonical a → canonical b → value_eqb a b = true ↔ a = b.
Proof.
  intros Ha Hb. by apply value_eqb_canonicalize; eauto using canonical_wf, canonicalize_fixpoint.
Qed.

(** ** Documents that are canonical up to the order of their keys *)

Record loose (m : Mapping) : Prop := {
  loose_nodup : NoDup (raw_keys m);
  loose_entries : Forall (λ kv, (∃ k, kv.1 = VString k) ∧ canonical kv.2) m;
}.

Lemma canonical_loose m : canonical (VMapping m) → loose m.
Proof.
  inversion 1 as [| | | | |es Hs Hc]; subst. split.
  - rewrite to_mapping_keys. by apply sorted_strict_NoDup.
  - unfold to_mapping. rewrite Forall_fmap. eapply Forall_impl; [exact Hc|]. naive_solver.
Qed.

(** Lookup is membership. *)
Lemma loose_get m k v : loose m → map_get m k = Some v ↔ (VString k, v) ∈ m.
Proof.
  intros [Hnd He]. unfold map_get. induction He as [|[k0 v0] m [[k' Hk] _] _ IH].
  { split; [done|]. by intros ?%elem_of_nil. }
  simpl in Hk. subst k0. cbn [raw_keys omap list_omap fst] in Hnd. fold (raw_keys m) in Hnd.
  apply NoDup_cons in Hnd as [Hnin Hnd]. cbn [List.find is_key fst].
  destruct (String.eqb_spec k k') as [->|Hne].
  - rewrite elem_of_cons. split; [intros [= ->]; by left|]. intros [[= ->]|Hin]; [done|].
    destruct Hnin. apply list_elem_of_omap. by exists (VString k', v).
  - rewrite IH by done. rewrite elem_of_cons. naive_solver.
Qed.

Lemma last_first_perm {A} (l : list A) : last_first l ≡ₚ l.
Proof.
  unfold last_first. destruct l as [|x l _] using rev_ind; [done|].
  rewrite last_snoc, removelast_last. by rewrite Permutation_app_comm.
Qed.

(** Removal drops exactly the entry of the key. *)
Lemma map_remove_perm k m :
  map_remove k m ≡ₚ m ∨ ∃ kv, is_key k kv = true ∧ m ≡ₚ kv :: map_remove k m.
Proof.
  induction m as [|kv m IH]; [by left|]. cbn [map_remove]. destruct (is_key k kv) eqn:E.
  - right. exists kv. split; [done|]. by rewrite last_first_perm.
  - destruct IH as [IH|(kv' & E' & IH)]; [left; by rewrite IH|right].
    exists kv'. split; [done|]. rewrite IH at 1. apply Permutation_swap.
Qed.

Lemma raw_keys_perm m n : m ≡ₚ n → raw_keys m ≡ₚ raw_keys n.
Proof. intros H. unfold raw_keys. by rewrite H. Qed.

Lemma loose_perm m n : m ≡ₚ n → loose m → loose n.
Proof.
  intros Hp [H1 H2]. split; [by rewrite <-(raw_keys_perm _ _ Hp)|by rewrite <-Hp].
Qed.

Lemma loose_remove k m : loose m → loose (map_remove k m).
Proof.
  intros Hm. destruct (map_remove_perm k m) as [H|(kv & _ & H)]; [by apply (loose_perm m)|].
  destruct (loose_perm _ _ H Hm) as [H1 H2]. apply Forall_cons in H2 as [[[key Hk] _] H2].
  split; [|done]. destruct kv as [k0 v]. simpl in Hk. subst k0.
  cbn [raw_keys omap list_omap fst] in H1. by apply NoDup_cons in H1 as [_ ?].
Qed.

Lemma map_remove_absent k m : map_get m k = None → map_remove k m = m.
Proof.
  unfold map_get. induction m as [|kv m IH]; [done|]. cbn [List.find map_remove].
  destruct (is_key k kv); [done|]. intros H. by rewrite IH.
Qed.

Lemma map_get_remove k m k' :
  loose m → map_get (map_remove k m) k' = if String.eqb k k' then None else map_get m k'.
Proof.
  intros Hm. pose proof (loose_remove k m Hm) as Hr.
  destruct (map_remove_perm k m) as [H|(kv & Hkv & H)].
  - assert (map_get m k = None) as Hnone.
    { apply eq_None_not_Some. intros [v Hv]. revert H Hv. clear. intros H.
      unfold map_get. destruct (List.find _ m) as [kv|] eqn:E; [|done]. intros _.
      apply Permutation_length in H. revert H E. clear.
      induction m as [|kv' m IH]; [done|]. cbn [map_remove List.find]. destruct (is_key k kv').
      - rewrite last_first_perm. simpl. intros; lia.
      - simpl. intros [= H]. by apply IH. }
    rewrite map_remove_absent by done. by destruct (String.eqb_spec k k') as [->|].
  - assert (∃ v, kv = (VString k, v)) as [v ->].
    { destruct kv as [key v]. unfold is_key in Hkv. simpl in Hkv. destruct key; try done.
      apply String.eqb_eq in Hkv as ->. eauto. }
    pose proof (loose_perm _ _ H Hm) as [Hnd _]. cbn [raw_keys omap list_omap fst] in Hnd.
    fold (raw_keys (map_remove k m)) in Hnd. apply NoDup_cons in Hnd as [Hnin _].
    apply option_eq. intros w. rewrite loose_get by done. destruct (String.eqb_spec k k') as [<-|Hne].
    + split; [|done]. intros Hin. destruct Hnin. apply list_elem_of_omap. by exists (VString k, w).
    + rewrite loose_get by done.
      assert ((VString k', w) ∈ m ↔ (VString k', w) ∈ (VString k, v) :: map_remove k m) as ->
        by (apply elem_of_Permutation_proper, H).
      rewrite elem_of_cons. naive_solver.
Qed.

Lemma loose_insert k v m : loose m → canonical v → loose (map_insert k v m).
Proof.
  intros Hm Hv. destruct (map_get m k) as [w|] eqn:E.
  - assert (raw_keys (map_insert k v m) = raw_keys m
            ∧ Forall (λ kv, (∃ k, kv.1 = VString k) ∧ canonical kv.2) (map_insert k v m)) as [E1 E2].
    { destruct Hm as [_ He]. revert E. unfold map_get. induction He as [|kv m Hkv He IH]; [done|].
      cbn [List.find map_insert]. destruct (is_key k kv) eqn:Ek; intros H.
      - split; [done|]. constructor; [|done]. split; [apply Hkv|done].
      - destruct (IH H) as [IH1 IH2]. split; [|by constructor].
        destruct kv as [key w0], Hkv as [[k' Hk] _]. simpl in Hk. subst key.
        exact (f_equal (cons k') IH1). }
    split; [rewrite E1; apply Hm|done].
  - assert (k ∉ raw_keys m) as Hnin.
    { intros Hin. apply list_elem_of_omap in Hin as ([key w] & Hin & Hkey). destruct key; simplify_eq/=.
      apply loose_get in Hin; [|done]. congruence. }
    rewrite map_insert_fresh by done. destruct Hm as [H1 H2]. split.
    + unfold raw_keys. rewrite omap_app. fold (raw_keys m). simpl. apply NoDup_app.
      split_and!; [done|set_solver|apply NoDup_singleton].
    + apply Forall_app. split; [done|]. repeat constructor; [by exists k|done].
Qed.

(** Canonicalizing such a document sorts it. *)
Lemma canonicalize_loose m :
  loose m → ∃ n, canonicalize (VMapping m) = Ok (VMapping n) ∧ canonical (VMapping n)
    ∧ ∀ k, map_get n k = map_get m k.
Proof.
  intros Hm. assert (∃ es, m = to_mapping es ∧ Forall (λ e, canonical e.2) es) as (es & -> & Hes).
  { destruct Hm as [_ He]. clear -He. induction He as [|[k v] m [[k' Hk] Hv] _ (es & -> & IH)];
      [by exists []|]. simpl in *. subst. exists ((k', v) :: es). split; [done|by constructor]. }
  pose proof (loose_nodup _ Hm) as Hnd. rewrite to_mapping_keys in Hnd.
  assert (canonicalize (VMapping (to_mapping es)) = Ok (VMapping (to_mapping (merge_sort entry_le es)))) as E.
  { cbn [canonicalize]. rewrite (proj2 (canon_entries_Ok canonicalize (to_mapping es) es)).
    - rewrite insert_all_NoDup; [done|]. by rewrite merge_sort_Permutation.
    - clear -Hes. induction Hes; constructor; [split; [done|by apply canonicalize_fixpoint]|done]. }
  assert (canonical (VMapping (to_mapping (merge_sort entry_le es)))) as Hc.
  { constructor; [by apply merge_sort_entries|]. by rewrite merge_sort_Permutation. }
  eexists. split_and!; [exact E|exact Hc|]. intros k. apply option_eq. intros v.
  rewrite (loose_get _ k v (canonical_loose _ Hc)), (loose_get _ k v Hm). unfold to_mapping.
  by rewrite merge_sort_Permutation.
Qed.

(** canonicalizing a document decides YAML equality: two well-formed
    documents that can be canonicalized are equal up to the order of mapping
    entries exactly when their canonical forms are the same, the canonical form
    is in key order at every depth, and canonicalizing it again changes
    nothing. *)
Theorem canonical_form (a b a' b' : Value) :
  wf a = true → wf b = true → canonicalize a = Ok a' → canonicalize b = Ok b' →
  (value_eqb a b = true ↔ a' = b') ∧ canonical a' ∧ canonicalize a' = Ok a'.
Proof.
  intros Ha Hb Ea Eb. split; [|split].
  - by apply (value_eqb_canonicalize a b a' b').
  - by apply (canonicalize_canonical a).
  - by apply canonicalize_fixpoint, (canonicalize_canonical a).
Qed.

End value.

#[export] Hint Resolve canonical_wf canonicalize_fixpoint : nyanpasu.

(** Concrete floats for the examples: their bit patterns. *)
Definition bits_float : YamlFloat := {| YFloat := Z |}.

Definition doc_ab : @Value bits_float := VMapping [(VString "b", VNull); (VString "a", VBool true)].
Definition doc_ba : @Value bits_float := VMapping [(VString "a", VBool true); (VString "b", VNull)].

Lemma canonical_form_witness :
  (value_eqb doc_ab doc_ba = true ↔ doc_ba = doc_ba) ∧ canonical doc_ba
  ∧ canonicalize doc_ba = Ok doc_ba.
Proof. apply (canonical_form doc_ab doc_ba doc_ba doc_ba); vm_compute; reflexivity. Defined.
