(* ===== verification/Diff.v ===== *)
(** Structural differences of two documents (config/diff.rs): the diff that
    decides how a configuration change is applied, the leaves of a document
    and lookup by path.

    [diff_value] recurses on both documents at once; it is given fuel, and the
    fuel [diff] chooses, one more than the depth of the documents, is proved
    to be enough. *)
From S2P Require Import Prelude Text Types Yaml.
From stdpp Require Import sorting.
From Stdlib Require Import ZArith Lia.

Section diff.
Context {YF : YamlFloat}.

Record DiffEntry := mkDiff { de_path : list string; de_new : option Value }.

(** [PartialEq] of [Option<&Value>]. *)
Definition opt_value_eqb (a b : option Value) : bool :=
  match a, b with
  | None, None => true
  | Some a, Some b => value_eqb a b
  | _, _ => false
  end.

(** Iterating a [BTreeSet<&str>] filled with the strings of [l]. *)
Definition btree_set (l : list string) : list string := merge_sort String.le (remove_dups l).

Fixpoint vdepth (v : Value) : nat :=
  match v with
  | VSequence l => S (max_list (vdepth <$> l))
  | VMapping m => S (max_list ((λ kv, vdepth kv.2) <$> m))
  | VTagged _ v' => S (vdepth v')
  | _ => 1
  end.

Definition odepth (v : option Value) : nat := default 0%nat (vdepth <$> v).

Definition opt_get (m : option Mapping) (key : string) : option Value :=
  m ≫= λ m, map_get m key.
Definition opt_keys (m : option Mapping) : list string := default [] (str_keys <$> m).

(** [diff_value]. *)
Fixpoint diff_value (fuel : nat) (current desired : option Value) (path : list string) : list DiffEntry :=
  match fuel with
  | O => []
  | S fuel' =>
      if opt_value_eqb current desired then []
      else
        let current_mapping := current ≫= as_mapping in
        let desired_mapping := desired ≫= as_mapping in
        let descend :=
          (bool_decide (is_Some current_mapping) || bool_decide (is_Some desired_mapping))
          && (bool_decide (current = None)
              || bool_decide (is_Some current_mapping)
                 && (bool_decide (desired = None) || bool_decide (is_Some desired_mapping))) in
        let keys := btree_set (opt_keys current_mapping ++ opt_keys desired_mapping) in
        if descend && negb (bool_decide (keys = []))
        then flat_map (λ key,
               diff_value fuel' (opt_get current_mapping key) (opt_get desired_mapping key)
                 (path ++ [key])) keys
        else [mkDiff path desired]
  end.

(** [diff]. *)
Definition diff (current desired : Mapping) : list DiffEntry :=
  diff_value (S (vdepth (VMapping current) `max` vdepth (VMapping desired)))
    (Some (VMapping current)) (Some (VMapping desired)) [].

(** [collect_leaves]: [whole] is the value of which [v] is the part under its
    tags, which [as_mapping] looks through. *)
Fixpoint collect_leaves_of (whole v : Value) (path : list string) : list (list string * Value) :=
  match v with
  | VTagged _ v' => collect_leaves_of whole v' path
  | VMapping (kv0 :: m0) =>
      flat_map (λ kv, match as_str kv.1 with
                      | Some key => collect_leaves_of kv.2 kv.2 (path ++ [key])
                      | None => []
                      end) (kv0 :: m0)
  | _ => [(path, whole)]
  end.
Definition collect_leaves (v : Value) (path : list string) : list (list string * Value) :=
  collect_leaves_of v v path.

(** [value_at]. *)
Fixpoint value_at (v : Value) (path : list string) : option Value :=
  match path with
  | [] => Some v
  | key :: path' => m ← as_mapping v; v' ← map_get m key; value_at v' path'
  end.

(** * Lemmas *)
Lemma elem_of_btree_set k l : k ∈ btree_set l ↔ k ∈ l.
Proof. unfold btree_set. by rewrite merge_sort_Permutation, elem_of_remove_dups. Qed.

Lemma str_keys_to_mapping es : str_keys (to_mapping es) = es.*1.
Proof. induction es as [|e es IH]; [done|]. change (e.1 :: str_keys (to_mapping es) = e.1 :: es.*1). by rewrite IH. Qed.

Lemma map_get_to_mapping es k v :
  NoDup es.*1 → map_get (to_mapping es) k = Some v ↔ (k, v) ∈ es.
Proof.
  intros Hnd. rewrite <-(map_get_entries (λ v, Ok v) (to_mapping es) es k); [|clear|done].
  - split; [eauto|]. by intros (w & ? & [= ->]).
  - induction es as [|e es IH]; constructor; done.
Qed.

(** A canonical mapping is determined by its lookups. *)
Lemma canonical_map_ext m n :
  canonical (VMapping m) → canonical (VMapping n) → (∀ k, map_get m k = map_get n k) → m = n.
Proof.
  intros Hm Hn Hext.
  inversion Hm as [| | | | |es Hes _]; inversion Hn as [| | | | |fs Hfs _]; subst. f_equal.
  pose proof (sorted_strict_NoDup _ Hes). pose proof (sorted_strict_NoDup _ Hfs).
  rewrite <-(merge_sort_sorted es), <-(merge_sort_sorted fs) by done.
  apply merge_sort_unique; [done..|]. apply NoDup_Permutation; [by eapply NoDup_fmap_1..|].
  intros [k v]. rewrite <-!map_get_to_mapping by done. by rewrite Hext.
Qed.

Lemma map_get_str_keys m k :
  canonical (VMapping m) → k ∈ str_keys m ↔ is_Some (map_get m k).
Proof.
  intros Hm. inversion Hm as [| | | | |es Hes _]; subst.
  pose proof (sorted_strict_NoDup _ Hes) as Hnd. rewrite str_keys_to_mapping, list_elem_of_fmap.
  split.
  - intros ([k' v] & -> & Hin). exists v. by apply map_get_to_mapping.
  - intros [v Hv%map_get_to_mapping]; [|done]. by exists (k, v).
Qed.

Lemma canonical_get m k v : canonical (VMapping m) → map_get m k = Some v → canonical v.
Proof.
  intros Hm. inversion Hm as [| | | | |es Hes Hc]; subst.
  rewrite map_get_to_mapping by (by apply sorted_strict_NoDup). rewrite Forall_forall in Hc.
  apply (Hc (k, v)).
Qed.

Lemma vdepth_get m k v : map_get m k = Some v → (vdepth v < vdepth (VMapping m))%nat.
Proof.
  unfold map_get. destruct (List.find _ m) as [kv|] eqn:E; [|done]. intros [= <-].
  apply List.find_some in E as [Hin _]. apply list_elem_of_In in Hin. cbn [vdepth].
  apply le_n_S. apply (max_list_elem_of_le (vdepth kv.2)). by apply (list_elem_of_fmap_2 (λ kv, vdepth kv.2)).
Qed.

Definition ocanonical (o : option Value) : Prop := ∀ v, o = Some v → canonical v.

Definition ovalue_at (o : option Value) (path : list string) : option Value :=
  o ≫= λ v, value_at v path.

Lemma canonical_as_mapping v m : canonical v → as_mapping v = Some m → v = VMapping m.
Proof. intros Hc. unfold as_mapping. destruct v; simpl; try done; [congruence|inversion Hc]. Qed.

Lemma opt_mapping o m : ocanonical o → o ≫= as_mapping = Some m → o = Some (VMapping m) ∧ canonical (VMapping m).
Proof.
  intros Hc. destruct o as [v|]; simpl; [|done]. intros E.
  apply canonical_as_mapping in E; [|by apply Hc]. subst. auto.
Qed.

Lemma ovalue_at_cons o k path :
  ovalue_at o (k :: path) = ovalue_at (opt_get (o ≫= as_mapping) k) path.
Proof.
  destruct o as [v|]; [|done]. simpl. unfold ovalue_at. simpl.
  destruct (as_mapping v) as [m|]; simpl; [|done]. by destruct (map_get m k).
Qed.

Lemma ocanonical_get o k : ocanonical o → ocanonical (opt_get (o ≫= as_mapping) k).
Proof.
  intros Hc v. destruct (o ≫= as_mapping) as [m|] eqn:E; simpl; [|done].
  apply opt_mapping in E as [-> Hm]; [|done]. by apply canonical_get.
Qed.

Lemma odepth_get o k v :
  ocanonical o → opt_get (o ≫= as_mapping) k = Some v → (S (vdepth v) ≤ odepth o)%nat.
Proof.
  intros Hc. destruct (o ≫= as_mapping) as [m|] eqn:E; simpl; [|done].
  apply opt_mapping in E as [-> Hm]; [|done]. simpl. intros H%vdepth_get. unfold odepth. simpl in *. lia.
Qed.

Lemma odepth_opt_get o k : ocanonical o → (odepth (opt_get (o ≫= as_mapping) k) ≤ pred (odepth o))%nat.
Proof.
  intros Hc. destruct (opt_get (o ≫= as_mapping) k) as [v|] eqn:E; [|unfold odepth; simpl; lia].
  apply odepth_get in E; [|done]. unfold odepth at 1. simpl. lia.
Qed.

Lemma opt_keys_get o k :
  ocanonical o → k ∈ opt_keys (o ≫= as_mapping) ↔ is_Some (opt_get (o ≫= as_mapping) k).
Proof.
  intros Hc. destruct (o ≫= as_mapping) as [m|] eqn:E; simpl.
  - apply opt_mapping in E as [_ Hm]; [|done]. by apply map_get_str_keys.
  - split; [by intros ?%elem_of_nil|by intros []].
Qed.

Lemma opt_value_eqb_eq a b : ocanonical a → ocanonical b → opt_value_eqb a b = true ↔ a = b.
Proof.
  intros Ha Hb. destruct a as [a|], b as [b|]; simpl; try done.
  rewrite canonical_eqb by auto. naive_solver.
Qed.

(** Two different mappings have a key. *)
Lemma mapping_keys_nonempty cur des :
  ocanonical cur → ocanonical des → cur ≠ des →
  is_Some (cur ≫= as_mapping) → is_Some (des ≫= as_mapping) →
  btree_set (opt_keys (cur ≫= as_mapping) ++ opt_keys (des ≫= as_mapping)) ≠ [].
Proof.
  intros Hc Hd Hne [m Em] [n En] Hk.
  assert (∀ k, k ∉ opt_keys (cur ≫= as_mapping) ++ opt_keys (des ≫= as_mapping)) as Hnin
    by (intros k; rewrite <-elem_of_btree_set, Hk; apply not_elem_of_nil).
  setoid_rewrite elem_of_app in Hnin. setoid_rewrite opt_keys_get in Hnin; [|done..].
  rewrite Em, En in Hnin. simpl in Hnin.
  apply opt_mapping in Em as [-> Hm], En as [-> Hn]; try done. apply Hne. do 2 f_equal.
  apply canonical_map_ext; [done..|]. intros k. specialize (Hnin k).
  destruct (map_get m k), (map_get n k); naive_solver.
Qed.

(** One unfolding: nothing for equal values, one entry for a leaf, the
    children under every key otherwise; in the last case some child differs. *)
Lemma diff_value_unfold fuel cur des path :
  ocanonical cur → ocanonical des →
  let child k := diff_value fuel (opt_get (cur ≫= as_mapping) k) (opt_get (des ≫= as_mapping) k)
                   (path ++ [k]) in
  let keys := btree_set (opt_keys (cur ≫= as_mapping) ++ opt_keys (des ≫= as_mapping)) in
  (cur = des ∧ diff_value (S fuel) cur des path = [])
  ∨ (cur ≠ des ∧ diff_value (S fuel) cur des path = [mkDiff path des]
     ∧ ¬ (is_Some (cur ≫= as_mapping) ∧ is_Some (des ≫= as_mapping)))
  ∨ (cur ≠ des ∧ diff_value (S fuel) cur des path = flat_map child keys
     ∧ (∃ k, k ∈ keys ∧ opt_get (cur ≫= as_mapping) k ≠ opt_get (des ≫= as_mapping) k)
     ∧ ((cur ≫= as_mapping) ≠ None ∨ (des ≫= as_mapping) ≠ None)).
Proof.
  intros Hc Hd child keys. cbn [diff_value]. destruct (opt_value_eqb cur des) eqn:E.
  { left. split; [by apply opt_value_eqb_eq|done]. }
  assert (cur ≠ des) as Hne by (intros H; apply opt_value_eqb_eq in H; [congruence|done..]).
  right. fold keys. destruct (_ && negb (bool_decide (keys = []))) eqn:Ed; [right|left].
  2:{ split_and!; [done|done|]. intros [H1 H2]. revert Ed.
      assert (keys ≠ []) as H3 by (by apply mapping_keys_nonempty).
      by rewrite (bool_decide_eq_true_2 _ H1), (bool_decide_eq_true_2 _ H2),
        (bool_decide_eq_false_2 _ H3), !orb_true_r. }
  apply andb_true_iff in Ed as [Ed Hk]. rewrite negb_true_iff, bool_decide_eq_false in Hk.
  rewrite andb_true_iff, !orb_true_iff, andb_true_iff, orb_true_iff, !bool_decide_eq_true in Ed.
  split_and!; [done|done| |].
  - destruct (decide (Forall (λ k, opt_value_eqb (opt_get (cur ≫= as_mapping) k)
                                     (opt_get (des ≫= as_mapping) k) = true) keys)) as [Hall|Hex].
    2:{ apply not_Forall_Exists in Hex; [|apply _]. apply Exists_exists in Hex as (k & Hin & Hk').
        exists k. split; [done|]. intros E'. apply Hk'. simpl.
        by apply opt_value_eqb_eq; [apply ocanonical_get..|]. }
    exfalso. assert (∀ k, opt_get (cur ≫= as_mapping) k = opt_get (des ≫= as_mapping) k) as Hext.
    { intros k. destruct (decide (k ∈ keys)) as [Hin|Hnin].
      - rewrite Forall_forall in Hall. by apply opt_value_eqb_eq; [apply ocanonical_get..|apply Hall].
      - unfold keys in Hnin. rewrite elem_of_btree_set, elem_of_app, !opt_keys_get in Hnin by done.
        apply Decidable.not_or in Hnin as [H1 H2]. apply eq_None_not_Some in H1, H2.
        by rewrite H1, H2. }
    destruct keys as [|k keys'] eqn:Ek; [done|].
    assert (k ∈ keys) as Hin by (rewrite Ek; set_solver).
    unfold keys in Hin. rewrite elem_of_btree_set, elem_of_app, !opt_keys_get in Hin by done.
    destruct (cur ≫= as_mapping) as [m|] eqn:Em, (des ≫= as_mapping) as [n|] eqn:En;
      simpl in Hext, Hin; [| | |by destruct Hin as [[]|[]]].
    + apply opt_mapping in Em as [-> Hm], En as [-> Hn]; try done. apply Hne. do 2 f_equal.
      by apply canonical_map_ext.
    + rewrite Hext in Hin. by destruct Hin as [[]|[]].
    + rewrite <-Hext in Hin. by destruct Hin as [[]|[]].
  - destruct Ed as [[[? H]|[? H]] _]; rewrite H; naive_solver.
Qed.

Definition prefix_related (p q : list string) : Prop := p `prefix_of` q ∨ q `prefix_of` p.

(** Every entry names a place where the documents differ, with the desired
    value there; they are not both mappings there. *)
Lemma diff_value_sound fuel cur des path e :
  ocanonical cur → ocanonical des → e ∈ diff_value fuel cur des path →
  ∃ q, de_path e = path ++ q ∧ de_new e = ovalue_at des q ∧ ovalue_at cur q ≠ ovalue_at des q
    ∧ ¬ (is_Some (ovalue_at cur q ≫= as_mapping) ∧ is_Some (ovalue_at des q ≫= as_mapping)).
Proof.
  revert cur des path. induction fuel as [|fuel IH]; intros cur des path Hc Hd; [by intros ?%elem_of_nil|].
  destruct (diff_value_unfold fuel cur des path Hc Hd) as [[_ ->]|[(Hne & -> & Hleaf)|(_ & -> & _)]].
  - by intros ?%elem_of_nil.
  - intros ->%list_elem_of_singleton. exists []. rewrite app_nil_r. unfold ovalue_at.
    destruct cur, des; simpl in *; split_and!; try done; congruence.
  - rewrite list_elem_of_In, in_flat_map. intros (k & _ & Hin%list_elem_of_In).
    destruct (IH _ _ _ (ocanonical_get _ _ Hc) (ocanonical_get _ _ Hd) Hin) as (q & -> & Hn & Hdiff & Hleaf).
    exists (k :: q). rewrite !ovalue_at_cons, <-app_assoc. done.
Qed.

(** Every place where they differ is covered by an entry. *)
Lemma diff_value_complete fuel cur des path q :
  ocanonical cur → ocanonical des → (odepth cur `max` odepth des < fuel)%nat →
  ovalue_at cur q ≠ ovalue_at des q →
  ∃ e q', e ∈ diff_value fuel cur des path ∧ de_path e = path ++ q' ∧ prefix_related q' q.
Proof.
  revert cur des path q. induction fuel as [|fuel IH]; intros cur des path q Hc Hd Hf Hq; [lia|].
  assert (∀ k q', opt_get (cur ≫= as_mapping) k ≠ opt_get (des ≫= as_mapping) k →
    ovalue_at (opt_get (cur ≫= as_mapping) k) q' ≠ ovalue_at (opt_get (des ≫= as_mapping) k) q' →
    ∃ e q'', e ∈ diff_value fuel (opt_get (cur ≫= as_mapping) k) (opt_get (des ≫= as_mapping) k) (path ++ [k])
      ∧ de_path e = path ++ [k] ++ q'' ∧ prefix_related q'' q') as IHk.
  { intros k q' Hk Hq'.
    destruct (IH (opt_get (cur ≫= as_mapping) k) (opt_get (des ≫= as_mapping) k) (path ++ [k]) q')
      as (e & q'' & He & Hp & Hr).
    - by apply ocanonical_get.
    - by apply ocanonical_get.
    - pose proof (odepth_opt_get cur k Hc). pose proof (odepth_opt_get des k Hd).
      enough (0 < odepth cur `max` odepth des)%nat by lia.
      destruct cur as [[]|], des as [[]|]; unfold odepth; simpl; try lia; done.
    - done.
    - exists e, q''. rewrite <-app_assoc in Hp. done. }
  destruct (diff_value_unfold fuel cur des path Hc Hd) as [[-> _]|[(Hne & -> & _)|(Hne & -> & (k & Hk & Hdiff) & _)]].
  - done.
  - exists (mkDiff path des), []. rewrite app_nil_r. split_and!; [set_solver|done|].
    left. apply prefix_nil.
  - destruct q as [|k' q].
    + destruct (IHk k [] Hdiff) as (e & q' & He & Hp & _).
      { intros E. apply Hdiff. revert E. unfold ovalue_at.
        destruct (opt_get _ k), (opt_get _ k); simpl; congruence. }
      exists e, (k :: q'). split_and!; [|done|right; apply prefix_nil].
      rewrite list_elem_of_In, in_flat_map. exists k. rewrite <-!list_elem_of_In. done.
    + rewrite !ovalue_at_cons in Hq.
      assert (opt_get (cur ≫= as_mapping) k' ≠ opt_get (des ≫= as_mapping) k') as Hd' by congruence.
      destruct (IHk k' q Hd' Hq) as (e & q' & He & Hp & Hr).
      exists e, (k' :: q'). split_and!; [|done|].
      * rewrite list_elem_of_In, in_flat_map. exists k'. rewrite <-!list_elem_of_In. split; [|done].
        rewrite elem_of_btree_set, elem_of_app, !opt_keys_get by done.
        destruct (opt_get (cur ≫= as_mapping) k'), (opt_get (des ≫= as_mapping) k'); naive_solver.
      * destruct Hr; [left|right]; by apply prefix_cons.
Qed.

(** At the top of a document every entry names a key. *)
Lemma diff_path_nonempty a b e :
  canonical (VMapping a) → canonical (VMapping b) → e ∈ diff a b → de_path e ≠ [].
Proof.
  intros Ha Hb He.
  apply diff_value_sound in He as (q & Hp & _ & _ & Hleaf); [|by intros v [= <-]..].
  rewrite Hp. intros Hq. simpl in Hq. subst q. apply Hleaf. split; by eexists.
Qed.

Lemma diff_sound_complete (a b : Mapping) :
  canonical (VMapping a) → canonical (VMapping b) →
  (∀ e, e ∈ diff a b →
     de_new e = value_at (VMapping b) (de_path e)
     ∧ value_at (VMapping a) (de_path e) ≠ value_at (VMapping b) (de_path e))
  ∧ (∀ q, value_at (VMapping a) q ≠ value_at (VMapping b) q →
       ∃ e, e ∈ diff a b ∧ prefix_related (de_path e) q).
Proof.
  intros Ha Hb.
  assert (ocanonical (Some (VMapping a))) as Hca by (by intros v [= <-]).
  assert (ocanonical (Some (VMapping b))) as Hcb by (by intros v [= <-]). split.
  - intros e He. apply diff_value_sound in He as (q & Hp & Hn & Hd & _); [|done..].
    simpl in Hp. subst q. done.
  - intros q Hq.
    destruct (diff_value_complete _ (Some (VMapping a)) (Some (VMapping b)) [] q Hca Hcb
                (Nat.lt_succ_diag_r _) Hq) as (e & q' & He & Hp & Hr).
    exists e. simpl in Hp. subst q'. done.
Qed.

Lemma diff_nil (a b : Mapping) :
  canonical (VMapping a) → canonical (VMapping b) → diff a b = [] ↔ a = b.
Proof.
  intros Ha Hb. destruct (diff_sound_complete a b Ha Hb) as [Hs Hcomp]. split.
  - intros E. destruct (decide (value_eqb (VMapping a) (VMapping b) = true)) as [H|H].
    + apply canonical_eqb in H; [|done..]. congruence.
    + destruct (Hcomp []) as (e & He & _); [simpl; intros [= ->]; apply H; by apply canonical_eqb|].
      rewrite E in He. by apply elem_of_nil in He.
  - intros ->. destruct (diff b b) as [|e l] eqn:E; [done|].
    destruct (Hs e) as [_ H]; [set_solver|done].
Qed.

Lemma diff_leaf (a b : Mapping) e :
  canonical (VMapping a) → canonical (VMapping b) → e ∈ diff a b →
  ¬ (is_Some (value_at (VMapping a) (de_path e) ≫= as_mapping)
     ∧ is_Some (value_at (VMapping b) (de_path e) ≫= as_mapping)).
Proof.
  intros Ha Hb He. apply diff_value_sound in He as (q & Hp & _ & _ & Hleaf); [|by intros v [= <-]..].
  rewrite Hp. exact Hleaf.
Qed.

(** C29: the differences of two canonical documents are exact. Every entry
    names a path at which they differ and carries the desired value there, and
    every path at which they differ lies on the path of an entry; in particular
    there are no entries exactly when the documents are equal. *)
Theorem diff_exact (a b : Mapping) :
  canonical (VMapping a) → canonical (VMapping b) →
  (∀ e, e ∈ diff a b →
     de_new e = value_at (VMapping b) (de_path e)
     ∧ value_at (VMapping a) (de_path e) ≠ value_at (VMapping b) (de_path e))
  ∧ (∀ q, value_at (VMapping a) q ≠ value_at (VMapping b) q →
       ∃ e, e ∈ diff a b ∧ prefix_related (de_path e) q)
  ∧ (diff a b = [] ↔ a = b).
Proof.
  intros Ha Hb. destruct (diff_sound_complete a b Ha Hb). split_and!; [done|done|by apply diff_nil].
Qed.
End diff.

Definition cur_doc : @Mapping bits_float := [(VString "mode", VString "rule")].
Definition des_doc : @Mapping bits_float := [(VString "dns", VMapping []); (VString "mode", VString "rule")].

Lemma diff_exact_witness :
  (diff cur_doc des_doc = [] ↔ cur_doc = des_doc)
  ∧ diff cur_doc des_doc = [mkDiff ["dns"] (Some (VMapping []))].
Proof.
  split; [|vm_compute; reflexivity].
  apply (diff_exact cur_doc des_doc); [apply (canonicalize_canonical (VMapping cur_doc))|apply (canonicalize_canonical (VMapping des_doc))]; reflexivity.
Defined.
