(* ===== verification/Mihomo.v ===== *)
(** Deny-by-default classification of Mihomo configuration changes and the
    bootstrap document of a graceful switch (config/mihomo.rs).

    The typed [ConfigPatch] of the controller API is encoded and decoded by
    generated serde code; the model takes the two directions as operations of
    the class [PatchCodec]; the codec itself is in ConfigCodec.v. *)
From S2P Require Import Prelude Text Metadata Types Yaml Diff.
From stdpp Require Import sorting.
From Stdlib Require Import ZArith Lia.

(** * Field tables *)

Definition INBOUND_PORT_FIELDS : list string :=
  ["port"; "socks-port"; "redir-port"; "tproxy-port"; "mixed-port"].

Definition PATCH_FIELDS : list string :=
  ["port"; "socks-port"; "redir-port"; "tproxy-port"; "mixed-port"; "tun"; "tuic-server";
   "ss-config"; "vmess-config"; "tcptun-config"; "udptun-config"; "allow-lan";
   "skip-auth-prefixes"; "lan-allowed-ips"; "lan-disallowed-ips"; "bind-address"; "mode";
   "log-level"; "ipv6"; "sniffing"; "tcp-concurrent"; "find-process-mode"; "interface-name"].

Definition TUN_PATCH_FIELDS : list string :=
  ["enable"; "device"; "stack"; "dns-hijack"; "auto-route"; "auto-detect-interface"; "mtu";
   "gso"; "gso-max-size"; "inet6-address"; "iproute2-table-index"; "iproute2-rule-index";
   "auto-redirect"; "auto-redirect-input-mark"; "auto-redirect-output-mark";
   "auto-redirect-iproute2-fallback-rule-index"; "loopback-address"; "strict-route";
   "route-address"; "route-address-set"; "route-exclude-address"; "route-exclude-address-set";
   "include-interface"; "exclude-interface"; "include-uid"; "include-uid-range"; "exclude-uid";
   "exclude-uid-range"; "include-android-user"; "include-package"; "exclude-package";
   "include-mac-address"; "exclude-mac-address"; "endpoint-independent-nat"; "udp-timeout";
   "icmp-timeout"; "file-descriptor"; "inet4-route-address"; "inet6-route-address";
   "inet4-route-exclude-address"; "inet6-route-exclude-address"; "recvmsgx"; "sendmsgx"].

Definition TUIC_SERVER_PATCH_FIELDS : list string :=
  ["enable"; "listen"; "token"; "users"; "certificate"; "private-key"; "congestion-controller";
   "max-idle-time"; "authentication-timeout"; "alpn"; "max-udp-relay-packet-size"; "cwnd";
   "bbr-profile"].

Definition RELOAD_FIELDS : list string :=
  ["proxies"; "proxy-groups"; "proxy-providers"; "rule-providers"; "providers"; "rules";
   "hosts"; "dns"].

(** The controller keys of config/clash.rs. *)
Definition EXTERNAL_CONTROLLER : string := "external-controller".
Definition EXTERNAL_CONTROLLER_PIPE : string := "external-controller-pipe".
Definition EXTERNAL_CONTROLLER_UNIX : string := "external-controller-unix".
Definition EXTERNAL_CONTROLLER_TLS : string := "external-controller-tls".
Definition SECRET : string := "secret".

Definition CONTROLLER_FIELDS : list string :=
  [EXTERNAL_CONTROLLER; EXTERNAL_CONTROLLER_TLS; EXTERNAL_CONTROLLER_PIPE;
   EXTERNAL_CONTROLLER_UNIX; SECRET].

Definition listed (x : string) (l : list string) : bool := existsb (String.eqb x) l.

(** * The controller API's typed patch *)

Class PatchCodec {YF : YamlFloat} := {
  ConfigPatch : Type;
  RuntimeConfig : Type;
  patch_from_value : Value → option ConfigPatch;
  patch_to_value : ConfigPatch → result Value string;
  runtime_config_to_value : RuntimeConfig → result Value string;
}.

Section mihomo.
Context {YF : YamlFloat} {PC : PatchCodec} {PL : ProcessLib}.

(** * Bootstrap documents *)

(** [zero_listener]. *)
Definition zero_listener (key : string) (document : Mapping) : Mapping :=
  match map_get document key ≫= as_i64 with
  | Some value => if (value =? 0)%Z then document else map_insert key (VNumber (PosInt 0)) document
  | None => document
  end.

(** Update the mapping under a value's tags ([Value::as_mapping_mut]). *)
Fixpoint update_mapping (f : Mapping → Mapping) (v : Value) : Value :=
  match v with
  | VTagged t v' => VTagged t (update_mapping f v')
  | VMapping m => VMapping (f m)
  | _ => v
  end.

(** [zero_inbounds]. *)
Definition zero_inbounds (document : Mapping) : Mapping :=
  let document := fold_left (λ d key, zero_listener key d) INBOUND_PORT_FIELDS document in
  match map_get document "tun" with
  | Some tun =>
      match as_mapping tun with
      | Some m =>
          if bool_decide ((map_get m "enable" ≫= as_bool) = Some true)
          then map_insert "tun" (update_mapping (map_insert "enable" (VBool false)) tun) document
          else document
      | None => document
      end
  | None => document
  end.

(** * Change classification *)

Record RuntimeProjection := mkProjection { rp_expected : list (list string * Value) }.

Inductive ConfigChange :=
| CNoop
| CPatch (patch : ConfigPatch) (projection : RuntimeProjection)
| CReload
| CSwitch.

(** [RuntimeProjection::verify]. *)
Definition projection_verify (p : RuntimeProjection) (actual : RuntimeConfig) : result bool Error :=
  match runtime_config_to_value actual with
  | Err e => Err (Yaml e)
  | Ok actual =>
      Ok (forallb (λ '(path, expected),
            match value_at actual path with
            | Some actual => value_eqb actual expected
            | None => false
            end) (rp_expected p))
  end.

(** The [first] element of a path satisfies a test. *)
Definition root_is (f : string → bool) (path : list string) : bool :=
  match path with root :: _ => f root | [] => false end.

(** [is_dns_listen]. *)
Definition is_dns_listen (path : list string) : bool :=
  match path with
  | first :: second :: _ => String.eqb first "dns" && String.eqb second "listen"
  | _ => false
  end.

(** [dns_listen]. *)
Definition dns_listen (document : Mapping) : option Value :=
  dns ← map_get document "dns"; dns ← as_mapping dns; map_get dns "listen".

(** [patch_nested_path_is_supported]. *)
Definition patch_nested_path_is_supported (path : list string) : bool :=
  match path with
  | [] => false
  | root :: rest =>
      if String.eqb root "tun" then
        match rest with field :: _ => listed field TUN_PATCH_FIELDS | [] => false end
      else if String.eqb root "tuic-server" then
        match rest with field :: _ => listed field TUIC_SERVER_PATCH_FIELDS | [] => false end
      else bool_decide (rest = [])
  end.

(** One iteration of the loop of [filter_mapping]. *)
Definition filter_step (allowed : list string) (acc : result Mapping Error) (kv : Value * Value) :
    result Mapping Error :=
  let? filtered := acc in
  match as_str kv.1 with
  | None => Err (InvalidConfig "config keys must be strings")
  | Some key => Ok (if listed key allowed then map_insert key kv.2 filtered else filtered)
  end.

(** [filter_mapping]; the loop stops at the first key that is not a string. *)
Definition filter_mapping (value : Value) (allowed : list string) : result Value Error :=
  match as_mapping value with
  | None => Err (InvalidConfig "patchable nested config must be a mapping")
  | Some mapping =>
      let? filtered := fold_left (filter_step allowed) mapping (Ok []) in
      Ok (VMapping filtered)
  end.

(** The value sent for a changed root. *)
Definition patch_value (root : string) (value : Value) : result Value Error :=
  if String.eqb root "tun" then filter_mapping value TUN_PATCH_FIELDS
  else if String.eqb root "tuic-server" then filter_mapping value TUIC_SERVER_PATCH_FIELDS
  else Ok value.

(** The loop of [build_patch] over the changed roots; [None] is its early
    return of [Switch]. *)
Fixpoint patch_document (desired : Mapping) (roots : list string) (document : Mapping) :
    result (option Mapping) Error :=
  match roots with
  | [] => Ok (Some document)
  | root :: roots' =>
      match map_get desired root with
      | None => Ok None
      | Some value =>
          let? value := patch_value root value in
          patch_document desired roots' (map_insert root value document)
      end
  end.

(** A nested object of the patch lacks its boolean [enable]. *)
Definition lacks_enable (document : Mapping) (root : string) : bool :=
  contains_key document root
  && bool_decide ((v ← map_get document root; m ← as_mapping v; e ← map_get m "enable"; as_bool e) = None).

Definition changed_roots (changes : list DiffEntry) : list string :=
  btree_set (omap (λ e, head (de_path e)) changes).

(** [build_patch]. *)
Definition build_patch (desired : Mapping) (changes : list DiffEntry) : result ConfigChange Error :=
  let? document := patch_document desired (changed_roots changes) [] in
  match document with
  | None => Ok CSwitch
  | Some document =>
      if existsb (lacks_enable document) ["tun"; "tuic-server"] then Ok CSwitch
      else match patch_from_value (VMapping document) with
           | None => Ok CSwitch
           | Some patch =>
               match patch_to_value patch with
               | Err e => Err (Yaml e)
               | Ok serialized => Ok (CPatch patch (mkProjection (collect_leaves serialized [])))
               end
           end
  end.

Definition entry_patchable (entry : DiffEntry) : bool :=
  bool_decide (is_Some (de_new entry))
  && root_is (λ root, listed root PATCH_FIELDS && patch_nested_path_is_supported (de_path entry))
       (de_path entry).

Definition entry_reloadable (entry : DiffEntry) : bool :=
  root_is (λ root, listed root RELOAD_FIELDS && negb (is_dns_listen (de_path entry))
                   && negb (String.eqb root "dns" && (length (de_path entry) =? 1)%nat))
    (de_path entry).

(** [classify_documents]. *)
Definition classify_documents (current desired : Mapping) : result ConfigChange Error :=
  if negb (opt_value_eqb (dns_listen current) (dns_listen desired)) then Ok CSwitch
  else
    let changes := diff current desired in
    if bool_decide (length changes = 0%nat) then Ok CNoop
    else if forallb entry_patchable changes then build_patch desired changes
    else if forallb entry_reloadable changes then Ok CReload
    else Ok CSwitch.

(** [restoration_patch]. *)
Definition restoration_patch (bootstrap desired : Mapping) :
    result (option (ConfigPatch * RuntimeProjection)) Error :=
  let? change := classify_documents bootstrap desired in
  match change with
  | CNoop => Ok None
  | CPatch patch projection => Ok (Some (patch, projection))
  | CReload | CSwitch =>
      Err (InvalidConfig "graceful bootstrap cannot be restored losslessly with ConfigPatch")
  end.

Record ConfigClassificationView := mkView {
  cv_source : Mapping;
  cv_effective : Mapping;
  cv_spec : InstanceSpec;
}.

(** [process_spec_changed]. *)
Definition process_spec_changed (current desired : InstanceSpec) : bool :=
  negb (bool_decide (
    cs_kind (is_core current) = cs_kind (is_core desired)
    ∧ cs_binary_path (is_core current) = cs_binary_path (is_core desired)
    ∧ cs_version (is_core current) = cs_version (is_core desired)
    ∧ cs_features (is_core current) = cs_features (is_core desired)
    ∧ is_working_dir current = is_working_dir desired
    ∧ io_startup_timeout (is_options current) = io_startup_timeout (is_options desired)
    ∧ io_health (is_options current) = io_health (is_options desired)
    ∧ io_restart_policy (is_options current) = io_restart_policy (is_options desired)
    ∧ io_backoff (is_options current) = io_backoff (is_options desired))).

(** [classify]. *)
Definition classify (current desired : ConfigClassificationView) : result ConfigChange Error :=
  if process_spec_changed (cv_spec current) (cv_spec desired) then Ok CSwitch
  else
    let source_diff := diff (cv_source current) (cv_source desired) in
    if negb (bool_decide (cs_kind (is_core (cv_spec desired)) = Mihomo)) then
      let unchanged :=
        (length source_diff =? 0)%nat
        && (length (diff (cv_effective current) (cv_effective desired)) =? 0)%nat in
      Ok (if unchanged then CNoop else CSwitch)
    else if existsb (λ entry, root_is (λ root, listed root CONTROLLER_FIELDS) (de_path entry)
                              || is_dns_listen (de_path entry)) source_diff
    then Ok CSwitch
    else classify_documents (cv_effective current) (cv_effective desired).

(** * Overlap of two epochs *)

Inductive OverlapBlock := BDnsListen | BInboundSurface.

(** [nonempty_collection]. *)
Definition nonempty_collection (value : Value) : bool :=
  match value with
  | VNull => false
  | VString s => negb (String.eqb s "")
  | VSequence l => negb (length l =? 0)%nat
  | VMapping m => negb (length m =? 0)%nat
  | VBool _ | VNumber _ | VTagged _ _ => true
  end.

(** The tests of [overlap_block] after the DNS listener, in the source's order;
    each says that the document blocks an overlap. *)
Definition port_blocks (document : Mapping) (key : string) : bool :=
  match map_get document key with
  | Some value => bool_decide (as_i64 value = None)
  | None => false
  end.

Definition tun_blocks (document : Mapping) : bool :=
  match map_get document "tun" with
  | None => false
  | Some tun =>
      match as_mapping tun with
      | None => true
      | Some tun =>
          match map_get tun "enable" with
          | Some enable => bool_decide (as_bool enable = None)
          | None => false
          end
      end
  end.

Definition tuic_blocks (document : Mapping) : bool :=
  match map_get document "tuic-server" with
  | None => false
  | Some tuic =>
      match as_mapping tuic with
      | None => true
      | Some tuic =>
          match map_get tuic "enable" with
          | Some enable => negb (bool_decide (as_bool enable = Some false))
          | None => negb (length tuic =? 0)%nat
          end
      end
  end.

Definition legacy_blocks (document : Mapping) (key : string) : bool :=
  match map_get document key with
  | Some value => negb (bool_decide (as_str value = Some ""))
  | None => false
  end.

Definition collection_blocks (document : Mapping) (key : string) : bool :=
  match map_get document key with Some value => nonempty_collection value | None => false end.

Definition name_blocks (key : string) : bool :=
  (ends_with "-port" key || contains "listener" key || contains "inbound" key || contains "tunnel" key)
  && negb (listed key PATCH_FIELDS) && negb (listed key ["listeners"; "tunnels"]).

(** [overlap_block]. *)
Definition overlap_block (document : Mapping) : option OverlapBlock :=
  match dns_listen document with
  | Some listen =>
      match as_str listen with
      | Some s => if String.eqb s "" then None else Some BDnsListen
      | None => if is_null listen then None else Some BInboundSurface
      end
  | None =>
      if existsb (port_blocks document) INBOUND_PORT_FIELDS
         || tun_blocks document || tuic_blocks document
         || existsb (legacy_blocks document) ["ss-config"; "vmess-config"; "tcptun-config"; "udptun-config"]
         || existsb (collection_blocks document) ["listeners"; "tunnels"]
         || existsb name_blocks (str_keys document)
      then Some BInboundSurface else None
  end.

(** * Lemmas *)
Lemma listed_In x l : listed x l = true ↔ x ∈ l.
Proof.
  unfold listed. rewrite existsb_exists. setoid_rewrite String.eqb_eq.
  setoid_rewrite <-list_elem_of_In. naive_solver.
Qed.

Lemma value_at_key m k : value_at (VMapping m) [k] = map_get m k.
Proof. simpl. by destruct (map_get m k). Qed.

Lemma value_at_key_eq a b k path :
  map_get a k = map_get b k → value_at (VMapping a) (k :: path) = value_at (VMapping b) (k :: path).
Proof. simpl. by intros ->. Qed.

(** The changed roots are the keys at which the documents differ. *)
Lemma changed_roots_spec a b k :
  canonical (VMapping a) → canonical (VMapping b) →
  k ∈ changed_roots (diff a b) ↔ map_get a k ≠ map_get b k.
Proof.
  intros Ha Hb. unfold changed_roots. rewrite elem_of_btree_set, list_elem_of_omap.
  destruct (diff_sound_complete a b Ha Hb) as [Hs Hc]. split.
  - intros (e & He & Hh) E. destruct (Hs e He) as [_ Hd]. destruct (de_path e); simplify_eq/=.
    apply Hd. by rewrite E.
  - intros Hne. destruct (Hc [k]) as (e & He & Hr); [by rewrite !value_at_key|].
    exists e. split; [done|]. pose proof (diff_path_nonempty a b e Ha Hb He) as Hp.
    destruct (de_path e) as [|k' p]; [done|]. simpl. f_equal.
    destruct Hr as [[? H]|[? H]]; by simplify_eq/=.
Qed.

(** The entries that make a nested field differ. *)
Lemma entry_under a b root f :
  canonical (VMapping a) → canonical (VMapping b) →
  value_at (VMapping a) [root; f] ≠ value_at (VMapping b) [root; f] →
  ∃ e, e ∈ diff a b ∧ (de_path e = [root] ∨ ∃ p, de_path e = root :: f :: p).
Proof.
  intros Ha Hb Hne. destruct (diff_sound_complete a b Ha Hb) as [_ Hc].
  destruct (Hc _ Hne) as (e & He & Hr). exists e. split; [done|].
  pose proof (diff_path_nonempty a b e Ha Hb He) as Hp.
  destruct (de_path e) as [|k' [|k'' p]]; [done| |]; destruct Hr as [[? H]|[? H]]; simplify_eq/=; eauto.
Qed.

(** ** Filtering nested objects *)
Lemma map_get_cons k v m k' :
  map_get ((VString k, v) :: m) k' = if String.eqb k' k then Some v else map_get m k'.
Proof. unfold map_get. cbn [List.find is_key fst]. by destruct (String.eqb k' k). Qed.

Lemma filter_fold_spec allowed es :
  ∀ acc, NoDup es.*1 → (∀ k, k ∈ es.*1 → map_get acc k = None) →
  ∃ out, fold_left (filter_step allowed) (to_mapping es) (Ok acc) = Ok out
    ∧ ∀ k, map_get out k = match map_get acc k with
                           | Some v => Some v
                           | None => if listed k allowed then map_get (to_mapping es) k else None
                           end.
Proof.
  induction es as [|[k v] es IH]; intros acc Hnd Hacc; cbn [to_mapping fmap list_fmap fold_left].
  { exists acc. split; [done|]. intros k. destruct (map_get acc k); [done|]. by case_match. }
  apply NoDup_cons in Hnd as [Hnin Hnd].
  assert (as_str (VString k) = Some k) as Ek by done. cbn [filter_step fst snd]. rewrite Ek. fold (to_mapping es).
  destruct (IH (if listed k allowed then map_insert k v acc else acc) Hnd) as (out & E & Hout).
  { intros k' Hk'. assert (k ≠ k') by (intros ->; done). case_match; [|apply Hacc; set_solver].
    rewrite map_get_insert. destruct (String.eqb_spec k k'); [done|]. apply Hacc. set_solver. }
  exists out. split; [exact E|]. intros k'. rewrite Hout.
  rewrite map_get_cons. destruct (String.eqb_spec k' k) as [->|Hne].
  - rewrite (Hacc k) by set_solver. destruct (listed k allowed) eqn:El.
    + by rewrite map_get_insert, String.eqb_refl.
    + rewrite (Hacc k) by set_solver. done.
  - destruct (listed k allowed); [|done]. rewrite map_get_insert.
    destruct (String.eqb_spec k k'); [congruence|done].
Qed.

Lemma filter_mapping_spec m allowed :
  canonical (VMapping m) →
  ∃ out, filter_mapping (VMapping m) allowed = Ok (VMapping out)
    ∧ ∀ k, map_get out k = if listed k allowed then map_get m k else None.
Proof.
  intros Hc. inversion Hc as [| | | | |es Hs _]; subst.
  destruct (filter_fold_spec allowed es []) as (out & E & Hout); [by apply sorted_strict_NoDup|done|].
  exists out. split.
  { exact (f_equal (λ r : result Mapping Error, let? filtered := r in Ok (VMapping filtered)) E). }
  intros k. by rewrite Hout.
Qed.

(** ** Patches *)
Lemma patch_document_spec desired roots acc D :
  NoDup roots → patch_document desired roots acc = Ok (Some D) →
  (∀ k, k ∉ roots → map_get D k = map_get acc k)
  ∧ (∀ k, k ∈ roots → ∃ v w, map_get desired k = Some v ∧ patch_value k v = Ok w ∧ map_get D k = Some w).
Proof.
  revert acc. induction roots as [|r roots IH]; intros acc Hnd H; cbn [patch_document] in H.
  { simplify_eq. split; [done|]. by intros k ?%elem_of_nil. }
  apply NoDup_cons in Hnd as [Hnin Hnd]. destruct (map_get desired r) as [v|] eqn:Ev; [|done].
  destruct (patch_value r v) as [w|] eqn:Ew; [|done].
  destruct (IH _ Hnd H) as [H1 H2]. split.
  - intros k Hk. rewrite not_elem_of_cons in Hk. destruct Hk as [Hne Hk].
    rewrite (H1 k Hk), map_get_insert. destruct (String.eqb_spec r k); [congruence|done].
  - intros k [->|Hk]%elem_of_cons; [|by apply H2]. exists v, w. split_and!; try done.
    by rewrite (H1 r Hnin), map_get_insert, String.eqb_refl.
Qed.

(** What the patch document contains of the difference between two documents:
    nothing under unchanged keys, the desired value under changed ones, and of
    the two nested objects every field that changed. *)
Definition patch_covers (current desired document : Mapping) : Prop :=
  (∀ k, map_get current k = map_get desired k → map_get document k = None)
  ∧ (∀ k, map_get current k ≠ map_get desired k → k ∉ ["tun"; "tuic-server"] →
       map_get document k = map_get desired k ∧ is_Some (map_get desired k))
  ∧ (∀ root f, root ∈ ["tun"; "tuic-server"] →
       value_at (VMapping current) [root; f] ≠ value_at (VMapping desired) [root; f] →
       value_at (VMapping document) [root; f] = value_at (VMapping desired) [root; f]).

Lemma patch_value_nested root v w fields :
  canonical v → (root = "tun" ∧ fields = TUN_PATCH_FIELDS
                 ∨ root = "tuic-server" ∧ fields = TUIC_SERVER_PATCH_FIELDS) →
  patch_value root v = Ok w →
  ∀ f, listed f fields = true → value_at w [f] = value_at v [f].
Proof.
  intros Hc Hroot Hp f Hf.
  assert (filter_mapping v fields = Ok w) as Hw.
  { destruct Hroot as [[-> ->]|[-> ->]]; exact Hp. }
  destruct (as_mapping v) as [m|] eqn:Em.
  - apply canonical_as_mapping in Em as ->; [|done].
    destruct (filter_mapping_spec m fields Hc) as (out & E & Hout).
    rewrite E in Hw. simplify_eq. rewrite !value_at_key, Hout, Hf. done.
  - unfold filter_mapping in Hw. by rewrite Em in Hw.
Qed.

(** The fields of a nested object that a patch may change. *)
Lemma patchable_nested e root fields :
  (root = "tun" ∧ fields = TUN_PATCH_FIELDS ∨ root = "tuic-server" ∧ fields = TUIC_SERVER_PATCH_FIELDS) →
  entry_patchable e = true →
  de_path e ≠ [root] ∧ ∀ f p, de_path e = root :: f :: p → listed f fields = true.
Proof.
  unfold entry_patchable. rewrite andb_true_iff. intros Hroot [_ H]. split.
  - intros E. rewrite E in H. destruct Hroot as [[-> _]|[-> _]]; vm_compute in H; done.
  - intros f p E. rewrite E in H. cbn [root_is] in H. apply andb_true_iff in H as [_ H].
    destruct Hroot as [[-> ->]|[-> ->]]; exact H.
Qed.

Lemma patch_document_covers a b D :
  canonical (VMapping a) → canonical (VMapping b) → forallb entry_patchable (diff a b) = true →
  patch_document b (changed_roots (diff a b)) [] = Ok (Some D) → patch_covers a b D.
Proof.
  intros Ha Hb Hall%forallb_Forall HD. rewrite Forall_forall in Hall.
  apply patch_document_spec in HD as [H1 H2].
  2:{ unfold changed_roots, btree_set. rewrite merge_sort_Permutation. apply NoDup_remove_dups. }
  split_and!.
  - intros k E. rewrite H1; [done|]. rewrite changed_roots_spec by done. intros H. by apply H.
  - intros k Hne Hk. destruct (H2 k) as (v & w & Hv & Hw & HDk); [by apply changed_roots_spec|].
    unfold patch_value in Hw. destruct (String.eqb_spec k "tun"); [set_solver|].
    destruct (String.eqb_spec k "tuic-server"); [set_solver|]. simplify_eq. by rewrite HDk, Hv.
  - intros root f Hroot Hne.
    assert (∃ fields, root = "tun" ∧ fields = TUN_PATCH_FIELDS
              ∨ root = "tuic-server" ∧ fields = TUIC_SERVER_PATCH_FIELDS) as [fields Hr].
    { apply elem_of_cons in Hroot as [->|Hroot]; [by eexists; left|].
      apply list_elem_of_singleton in Hroot as ->. by eexists; right. }
    destruct (entry_under a b root f Ha Hb Hne) as (e & He & Hp).
    destruct (patchable_nested e root fields Hr (Hall e He)) as [Hp1 Hp2].
    destruct Hp as [?|[p Hp]]; [done|]. specialize (Hp2 f p Hp).
    destruct (H2 root) as (v & w & Hv & Hw & HDr).
    { apply changed_roots_spec; [done..|]. intros E. apply Hne. by apply value_at_key_eq. }
    assert (canonical v) as Hcv by (by eapply canonical_get).
    pose proof (patch_value_nested root v w fields Hcv Hr Hw f Hp2) as Hf.
    simpl in Hf |- *. rewrite HDr, Hv. simpl. exact Hf.
Qed.

(** The keys a classification leaves alone. *)
Lemma unchanged_outside a b fields :
  canonical (VMapping a) → canonical (VMapping b) →
  (∀ e, e ∈ diff a b → root_is (λ root, listed root fields) (de_path e) = true) →
  ∀ k, k ∉ fields → map_get a k = map_get b k.
Proof.
  intros Ha Hb Hall k Hk.
  destruct (decide (opt_value_eqb (map_get a k) (map_get b k) = true)) as [E|E].
  - apply opt_value_eqb_eq in E; [done| |]; intros v; by apply canonical_get.
  - assert (map_get a k ≠ map_get b k) as Hne.
    { intros E'. apply E, opt_value_eqb_eq; [| |done]; intros v; by apply canonical_get. }
    apply (changed_roots_spec a b k Ha Hb) in Hne. unfold changed_roots in Hne.
    rewrite elem_of_btree_set, list_elem_of_omap in Hne. destruct Hne as (e & He & Hh).
    specialize (Hall e He). destruct (de_path e); simplify_eq/=. by apply listed_In in Hall.
Qed.

Lemma dns_listen_canonical a : canonical (VMapping a) → ocanonical (dns_listen a).
Proof.
  intros Ha v. unfold dns_listen. destruct (map_get a "dns") as [d|] eqn:Ed; simpl; [|done].
  destruct (as_mapping d) as [m|] eqn:Em; simpl; [|done]. intros Hv.
  pose proof (canonical_get _ _ _ Ha Ed) as Hd. apply canonical_as_mapping in Em as ->; [|done].
  by eapply canonical_get.
Qed.

(** What each class of change guarantees of the two documents. *)
Definition change_sound (current desired : Mapping) (c : ConfigChange) : Prop :=
  match c with
  | CNoop => current = desired
  | CPatch patch projection =>
      (∀ k, k ∉ PATCH_FIELDS → map_get current k = map_get desired k)
      ∧ ∃ document serialized,
          patch_from_value (VMapping document) = Some patch
          ∧ patch_covers current desired document
          ∧ patch_to_value patch = Ok serialized
          ∧ rp_expected projection = collect_leaves serialized []
  | CReload =>
      (∀ k, k ∉ RELOAD_FIELDS → map_get current k = map_get desired k)
      ∧ dns_listen current = dns_listen desired
  | CSwitch => True
  end.

Lemma build_patch_sound a b c :
  canonical (VMapping a) → canonical (VMapping b) → forallb entry_patchable (diff a b) = true →
  build_patch b (diff a b) = Ok c → change_sound a b c ∧ c ≠ CNoop ∧ c ≠ CReload.
Proof.
  intros Ha Hb Hall. unfold build_patch.
  destruct (patch_document b (changed_roots (diff a b)) []) as [[D|]|] eqn:ED; [| |done].
  2:{ intros [= <-]. done. }
  case_match; [by intros [= <-]|]. destruct (patch_from_value (VMapping D)) as [p|] eqn:Ep.
  2:{ intros [= <-]. done. }
  destruct (patch_to_value p) as [v|] eqn:Ev; [|done]. intros [= <-]. split; [|done]. split.
  - apply (unchanged_outside a b PATCH_FIELDS Ha Hb). intros e He.
    apply forallb_Forall in Hall. rewrite Forall_forall in Hall. specialize (Hall e He).
    unfold entry_patchable in Hall. apply andb_true_iff in Hall as [_ Hall].
    destruct (de_path e); [done|]. cbn [root_is] in *. by apply andb_true_iff in Hall as [? _].
  - exists D, v. split_and!; try done. by apply patch_document_covers.
Qed.

Lemma classify_documents_sound a b c :
  canonical (VMapping a) → canonical (VMapping b) → classify_documents a b = Ok c → change_sound a b c.
Proof.
  intros Ha Hb. unfold classify_documents.
  destruct (opt_value_eqb (dns_listen a) (dns_listen b)) eqn:Edns; simpl; [|by intros [= <-]].
  case_bool_decide as Hl; [intros [= <-]; simpl; apply (diff_nil a b Ha Hb); by apply nil_length_inv|].
  destruct (forallb entry_patchable (diff a b)) eqn:Epatch.
  { intros H. by apply build_patch_sound in H as [? _]. }
  destruct (forallb entry_reloadable (diff a b)) eqn:Ereload; intros [= <-]; [|done]. split.
  - apply (unchanged_outside a b RELOAD_FIELDS Ha Hb). intros e He.
    apply forallb_Forall in Ereload. rewrite Forall_forall in Ereload. specialize (Ereload e He).
    unfold entry_reloadable in Ereload. destruct (de_path e); [done|]. cbn [root_is] in *.
    by apply andb_true_iff in Ereload as [[? _]%andb_true_iff _].
  - apply opt_value_eqb_eq in Edns; [done|by apply dns_listen_canonical..].
Qed.

Definition view_ok (v : ConfigClassificationView) : Prop :=
  canonical (VMapping (cv_source v)) ∧ canonical (VMapping (cv_effective v)).

(** C23: a configuration change is applied in place only when that is sound.
    If [classify] answers anything but [Switch], the launch specifications
    agree, and of a Mihomo core the source's controller keys are unchanged;
    [Noop] then means equal effective documents, [Patch] that the documents
    agree outside the patchable keys and the patch carries the desired value of
    every changed key and nested field and nothing under unchanged keys, and
    [Reload] that they agree outside the reloadable keys and on the DNS
    listener. *)
Theorem classify_in_place_sound (current desired : ConfigClassificationView) (c : ConfigChange) :
  view_ok current → view_ok desired → classify current desired = Ok c → c ≠ CSwitch →
  process_spec_changed (cv_spec current) (cv_spec desired) = false
  ∧ (∀ k, k ∈ CONTROLLER_FIELDS → map_get (cv_source current) k = map_get (cv_source desired) k)
  ∧ (cs_kind (is_core (cv_spec desired)) ≠ Mihomo → c = CNoop)
  ∧ change_sound (cv_effective current) (cv_effective desired) c.
Proof.
  intros [Hs1 He1] [Hs2 He2]. unfold classify.
  destruct (process_spec_changed _ _) eqn:Espec; [by intros [= <-]|].
  case_bool_decide as Hk; cbn [negb].
  - destruct (existsb _ _) eqn:Ex; [by intros [= <-]|]. intros H Hc. split_and!; [done| |done|].
    + intros k Hin.
      destruct (decide (opt_value_eqb (map_get (cv_source current) k) (map_get (cv_source desired) k) = true)) as [E|E].
      { apply opt_value_eqb_eq in E; [done| |]; intros v; by apply canonical_get. }
      exfalso. assert (map_get (cv_source current) k ≠ map_get (cv_source desired) k) as Hne.
      { intros E'. apply E, opt_value_eqb_eq; [| |done]; intros v; by apply canonical_get. }
      apply (changed_roots_spec _ _ k Hs1 Hs2) in Hne. unfold changed_roots in Hne.
      rewrite elem_of_btree_set, list_elem_of_omap in Hne. destruct Hne as (e & He & Hh).
      revert Ex. apply not_false_iff_true, existsb_exists. exists e.
      rewrite <-list_elem_of_In. split; [done|]. apply listed_In in Hin.
      destruct (de_path e) as [|r p]; [done|]. cbn in Hh. injection Hh as ->. cbn [root_is].
      by rewrite Hin.
    + by apply classify_documents_sound.
  - destruct (length (diff (cv_source current) _) =? 0)%nat eqn:E1; simpl; [|by intros [= <-]].
    destruct (length (diff (cv_effective current) _) =? 0)%nat eqn:E2; intros [= <-]; [|done].
    intros _. apply Nat.eqb_eq, nil_length_inv, diff_nil in E1, E2; try done.
    split_and!; [done|by rewrite E1|done|done].
Qed.

(** ** The bootstrap document *)
Lemma insert_existing es k v :
  is_Some (map_get (to_mapping es) k) → canonical v → Forall (λ e, canonical e.2) es →
  ∃ es', map_insert k v (to_mapping es) = to_mapping es' ∧ es'.*1 = es.*1
    ∧ Forall (λ e, canonical e.2) es'.
Proof.
  intros Hk Hv Hc. induction Hc as [|[k0 v0] es Hv0 Hc IH]; [by destruct Hk|].
  change (to_mapping ((k0, v0) :: es)) with ((VString k0, v0) :: to_mapping es) in *.
  rewrite map_get_cons in Hk. cbn [map_insert is_key fst]. destruct (String.eqb k k0).
  - exists ((k0, v) :: es). split_and!; [done|done|by constructor].
  - destruct (IH Hk) as (es' & -> & E & Hes'). exists ((k0, v0) :: es').
    split_and!; [done|exact (f_equal (cons k0) E)|by constructor].
Qed.

Lemma canonical_insert_existing m k v :
  canonical (VMapping m) → is_Some (map_get m k) → canonical v → canonical (VMapping (map_insert k v m)).
Proof.
  intros Hm Hk Hv. inversion Hm as [| | | | |es Hs Hc]; subst.
  destruct (insert_existing es k v Hk Hv Hc) as (es' & -> & E & Hc').
  constructor; [by rewrite E|done].
Qed.

(** The value of a port field after [zero_listener]. *)
Definition zeroed (v : option Value) : option Value :=
  match v ≫= as_i64 with
  | Some n => if (n =? 0)%Z then v else Some (VNumber (PosInt 0))
  | None => v
  end.

Lemma zero_listener_get key d k :
  map_get (zero_listener key d) k = if String.eqb key k then zeroed (map_get d key) else map_get d k.
Proof.
  unfold zero_listener, zeroed. destruct (String.eqb_spec key k) as [->|Hne];
    destruct (map_get d _ ≫= as_i64) as [n|]; try done; destruct (n =? 0)%Z; try done;
    rewrite map_get_insert; [by rewrite String.eqb_refl|]. by destruct (String.eqb_spec key k).
Qed.

Lemma zero_listeners_get keys d k :
  NoDup keys →
  map_get (fold_left (λ d key, zero_listener key d) keys d) k
  = if listed k keys then zeroed (map_get d k) else map_get d k.
Proof.
  revert d. induction keys as [|key keys IH]; intros d Hnd; [done|].
  apply NoDup_cons in Hnd as [Hnin Hnd]. cbn [fold_left listed existsb].
  rewrite IH, zero_listener_get by done. rewrite (String.eqb_sym k key).
  destruct (String.eqb_spec key k) as [->|Hne]; simpl; [|done].
  destruct (listed k keys) eqn:E; [by apply listed_In in E|done].
Qed.

Lemma zero_listener_canonical key d :
  canonical (VMapping d) → canonical (VMapping (zero_listener key d)).
Proof.
  intros Hd. unfold zero_listener. destruct (map_get d key) as [v|] eqn:E; simpl; [|done].
  destruct (as_i64 v) as [n|]; [|done]. destruct (n =? 0)%Z; [done|].
  apply canonical_insert_existing; [done|by rewrite E|constructor].
Qed.

Lemma zero_listeners_canonical keys d :
  canonical (VMapping d) → canonical (VMapping (fold_left (λ d key, zero_listener key d) keys d)).
Proof.
  revert d. induction keys as [|k keys IH]; intros d Hd; [done|]. by apply IH, zero_listener_canonical.
Qed.

(** [tun] after its [enable] was switched off. *)
Definition tun_disabled (tun : Mapping) : Value := VMapping (map_insert "enable" (VBool false) tun).

(** The effect of [zero_inbounds] on a canonical document: it is canonical,
    and every key keeps its value except the non-zero ports and an enabled
    [tun]. *)
Lemma zero_inbounds_spec d :
  canonical (VMapping d) →
  canonical (VMapping (zero_inbounds d))
  ∧ ∀ k, map_get (zero_inbounds d) k = map_get d k
      ∨ (k ∈ INBOUND_PORT_FIELDS ∧ ∃ n m, map_get d k = Some (VNumber n)
           ∧ map_get (zero_inbounds d) k = Some (VNumber m))
      ∨ (k = "tun" ∧ ∃ tun, map_get d "tun" = Some (VMapping tun)
           ∧ map_get tun "enable" = Some (VBool true)
           ∧ map_get (zero_inbounds d) "tun" = Some (tun_disabled tun)).
Proof.
  intros Hd. unfold zero_inbounds.
  set (d1 := fold_left (λ d key, zero_listener key d) INBOUND_PORT_FIELDS d).
  assert (canonical (VMapping d1)) as Hd1 by (by apply zero_listeners_canonical).
  assert (∀ k, map_get d1 k = if listed k INBOUND_PORT_FIELDS then zeroed (map_get d k) else map_get d k)
    as Hg1 by (intros k; apply zero_listeners_get; apply (bool_decide_unpack _); vm_compute; exact I).
  assert (∀ k, map_get d1 k = map_get d k
      ∨ (k ∈ INBOUND_PORT_FIELDS ∧ ∃ n m, map_get d k = Some (VNumber n) ∧ map_get d1 k = Some (VNumber m))) as Hp.
  { intros k. rewrite Hg1. destruct (listed k INBOUND_PORT_FIELDS) eqn:El; [|by left].
    unfold zeroed. destruct (map_get d k) as [v|] eqn:Ev; simpl; [|by left].
    destruct (as_i64 v) as [n|] eqn:En; [|by left]. destruct (n =? 0)%Z; [by left|].
    right. split; [by apply listed_In|]. pose proof (canonical_get _ _ _ Hd Ev) as Hcv.
    destruct v; try done; [eauto|inversion Hcv]. }
  assert (map_get d1 "tun" = map_get d "tun") as Etun by (rewrite Hg1; done).
  rewrite Etun. destruct (map_get d "tun") as [v|] eqn:Ev; [|naive_solver].
  destruct (as_mapping v) as [m|] eqn:Em; [|naive_solver].
  pose proof (canonical_get _ _ _ Hd Ev) as Hcv. apply canonical_as_mapping in Em as ->; [|done].
  case_bool_decide as Hen; [|naive_solver].
  destruct (map_get m "enable") as [en|] eqn:Een; simpl in Hen; [|done].
  assert (en = VBool true) as ->.
  { pose proof (canonical_get _ _ _ Hcv Een) as Hce. by destruct en as [|[]| | | | |]; try done; inversion Hce. }
  cbn [update_mapping]. split.
  - apply canonical_insert_existing; [done|by rewrite Etun|].
    apply canonical_insert_existing; [done|by rewrite Een|constructor].
  - intros k. rewrite !map_get_insert. destruct (String.eqb_spec "tun" k) as [<-|Hne].
    + right. right. split; [done|]. exists m. by rewrite Een.
    + destruct (Hp k) as [?|?]; auto.
Qed.

(** The port fields are plain patchable keys. *)
Lemma port_fields_ok k :
  k ∈ INBOUND_PORT_FIELDS →
  k ≠ "tun" ∧ k ≠ "tuic-server" ∧ k ≠ "dns" ∧ listed k PATCH_FIELDS = true
  ∧ patch_nested_path_is_supported [k] = true ∧ ∀ v, patch_value k v = Ok v.
Proof.
  assert (Forall (λ k, k ≠ "tun" ∧ k ≠ "tuic-server" ∧ k ≠ "dns" ∧ listed k PATCH_FIELDS = true
    ∧ patch_nested_path_is_supported [k] = true ∧ ∀ v, patch_value k v = Ok v) INBOUND_PORT_FIELDS) as H.
  { unfold INBOUND_PORT_FIELDS. repeat constructor; done. }
  rewrite Forall_forall in H. apply H.
Qed.

Lemma value_at_number n f p : value_at (VNumber n) (f :: p) = None.
Proof. done. Qed.

Lemma bootstrap_entries_patchable d :
  canonical (VMapping d) → forallb entry_patchable (diff (zero_inbounds d) d) = true.
Proof.
  intros Hd. destruct (zero_inbounds_spec d Hd) as [Hb Hget]. apply forallb_Forall, Forall_forall.
  intros e He. destruct (diff_sound_complete _ _ Hb Hd) as [Hs _].
  destruct (Hs e He) as [Hnew Hne]. pose proof (diff_leaf _ _ e Hb Hd He) as Hleaf.
  pose proof (diff_path_nonempty _ _ e Hb Hd He) as Hp.
  unfold entry_patchable. rewrite Hnew. destruct (de_path e) as [|k rest]; [done|].
  destruct (Hget k) as [E|[(Hport & n & m & E1 & E2)|(-> & tun & E1 & E2 & E3)]].
  - destruct Hne. by apply value_at_key_eq.
  - destruct rest as [|f rest].
    + destruct (port_fields_ok k Hport) as (_ & _ & _ & H1 & H2 & _).
      rewrite value_at_key, E1. cbn [root_is]. by rewrite H1, H2.
    + destruct Hne. simpl. rewrite E1, E2. done.
  - destruct rest as [|f rest].
    + exfalso. apply Hleaf. rewrite !value_at_key, E1, E3. split; by eexists.
    + destruct (String.eqb_spec "enable" f) as [<-|Hf].
      * destruct rest as [|g rest]; [|destruct Hne; simpl; rewrite E1, E3; simpl;
          by rewrite map_get_insert, String.eqb_refl, E2].
        simpl (value_at _ _). rewrite E1. simpl (_ ≫= _). rewrite E2. reflexivity.
      * destruct Hne. simpl. rewrite E1, E3. simpl. rewrite map_get_insert.
        by destruct (String.eqb_spec "enable" f).
Qed.

Lemma patch_document_total desired roots acc :
  (∀ r, r ∈ roots → ∃ v w, map_get desired r = Some v ∧ patch_value r v = Ok w) →
  ∃ D, patch_document desired roots acc = Ok (Some D).
Proof.
  revert acc. induction roots as [|r roots IH]; intros acc H; [by exists acc|].
  destruct (H r) as (v & w & Hv & Hw); [set_solver|]. cbn [patch_document]. rewrite Hv, Hw.
  apply IH. intros r' Hr'. apply H. set_solver.
Qed.

(** The document sent to restore a bootstrap epoch exists and passes the
    checks of [build_patch]. *)
Lemma bootstrap_document d :
  canonical (VMapping d) →
  ∃ D, patch_document d (changed_roots (diff (zero_inbounds d) d)) [] = Ok (Some D)
    ∧ existsb (lacks_enable D) ["tun"; "tuic-server"] = false.
Proof.
  intros Hd. destruct (zero_inbounds_spec d Hd) as [Hb Hget].
  set (roots := changed_roots (diff (zero_inbounds d) d)).
  assert (∀ r, r ∈ roots → ∃ v w, map_get d r = Some v ∧ patch_value r v = Ok w) as Hroots.
  { intros r Hr%changed_roots_spec; [|done..].
    destruct (Hget r) as [E|[(Hport & n & m & E1 & _)|(-> & tun & E1 & _ & _)]]; [done| |].
    - exists (VNumber n), (VNumber n). split; [done|]. by apply port_fields_ok.
    - destruct (filter_mapping_spec tun TUN_PATCH_FIELDS) as (out & Eo & _);
        [by apply (canonical_get d "tun")|]. exists (VMapping tun), (VMapping out). split; [done|exact Eo]. }
  destruct (patch_document_total d roots [] Hroots) as [D HD]. exists D. split; [done|].
  destruct (patch_document_spec d roots [] D) as [H1 H2]; [|done|].
  { unfold roots, changed_roots, btree_set. rewrite merge_sort_Permutation. apply NoDup_remove_dups. }
  assert (∀ k, map_get D k = None → lacks_enable D k = false) as Hnone.
  { intros k E. unfold lacks_enable, contains_key. revert E. unfold map_get.
    destruct (List.find (is_key k) D) as [kv|] eqn:Ef; [done|]. intros _.
    destruct (existsb (is_key k) D) eqn:Ex; [|done]. apply existsb_exists in Ex as (kv & Hin & Hkv).
    by rewrite (find_none _ _ Ef kv Hin) in Hkv. }
  assert (lacks_enable D "tuic-server" = false) as Htuic.
  { apply Hnone. rewrite H1; [done|]. unfold roots. rewrite changed_roots_spec by done.
    destruct (Hget "tuic-server") as [E|[(Hport & _)|[? _]]]; [by intros H| |done].
    by apply port_fields_ok in Hport as (_ & ? & _). }
  change (lacks_enable D "tun" || (lacks_enable D "tuic-server" || false) = false).
  rewrite Htuic, !orb_false_r.
  destruct (decide ("tun" ∈ roots)) as [Hin|Hnin]; [|apply Hnone; by rewrite H1].
  destruct (H2 "tun" Hin) as (v & w & Hv & Hw & HDt).
  apply changed_roots_spec in Hin; [|done..].
  destruct (Hget "tun") as [E|[(Hport & _)|(_ & tun & E1 & E2 & _)]]; [done| |].
  { by apply port_fields_ok in Hport as [? _]. }
  rewrite E1 in Hv. simplify_eq.
  pose proof (patch_value_nested "tun" (VMapping tun) w TUN_PATCH_FIELDS) as Hn.
  assert (value_at w ["enable"] = value_at (VMapping tun) ["enable"]) as He.
  { apply Hn; [by apply (canonical_get d "tun")|by left|done|done]. }
  rewrite (value_at_key tun), E2 in He. unfold lacks_enable. rewrite HDt.
  apply andb_false_iff. right. apply bool_decide_eq_false. clear -He.
  cbn [value_at] in He. cbn [mbind option_bind] in He |- *.
  destruct (as_mapping w) as [m|]; [|done]. cbn [mbind option_bind] in He |- *.
  destruct (map_get m "enable") as [en|]; [|done]. by injection He as ->.
Qed.

(** The error of a change that the controller API cannot express. *)
Definition not_restorable : Error :=
  InvalidConfig "graceful bootstrap cannot be restored losslessly with ConfigPatch".

(** the bootstrap document of a graceful switch can always be brought back
    to the full document with a patch. For every canonical document, either
    zeroing the inbounds changed nothing and no patch is needed, or a patch
    document exists that carries every zeroed value, and restoring fails only
    if the controller API's typed patch cannot represent that document. *)
Theorem bootstrap_restorable (d : Mapping) :
  canonical (VMapping d) →
  (zero_inbounds d = d ∧ restoration_patch (zero_inbounds d) d = Ok None)
  ∨ ∃ D, patch_covers (zero_inbounds d) d D
      ∧ restoration_patch (zero_inbounds d) d
        = match patch_from_value (VMapping D) with
          | None => Err not_restorable
          | Some patch =>
              match patch_to_value patch with
              | Err e => Err (Yaml e)
              | Ok v => Ok (Some (patch, mkProjection (collect_leaves v [])))
              end
          end.
Proof.
  intros Hd. destruct (zero_inbounds_spec d Hd) as [Hb Hget].
  pose proof (bootstrap_entries_patchable d Hd) as Hall.
  destruct (bootstrap_document d Hd) as (D & HD & Hen).
  assert (dns_listen (zero_inbounds d) = dns_listen d) as Hdns.
  { unfold dns_listen. destruct (Hget "dns") as [->|[[Hport _]|[? _]]]; [done| |done].
    by apply port_fields_ok in Hport as (_ & _ & ? & _). }
  unfold restoration_patch, classify_documents. rewrite Hdns.
  rewrite (proj2 (opt_value_eqb_eq _ _ (dns_listen_canonical d Hd) (dns_listen_canonical d Hd)) eq_refl).
  cbn [negb]. case_bool_decide as Hl.
  - left. split; [|done]. apply diff_nil; [done..|]. by apply nil_length_inv.
  - right. exists D. split; [by apply patch_document_covers|]. rewrite Hall.
    unfold build_patch. rewrite HD, Hen. destruct (patch_from_value (VMapping D)) as [p|]; [|done].
    by destruct (patch_to_value p).
Qed.

(** ** Overlapping epochs *)

(** A document that opens no inbound listener. *)
Definition quiet (d : Mapping) : Prop :=
  (∀ k v, k ∈ INBOUND_PORT_FIELDS → map_get d k = Some v → as_i64 v = Some 0%Z)
  ∧ (∀ tun, map_get d "tun" = Some tun →
       ∃ m, as_mapping tun = Some m ∧ (map_get m "enable" ≫= as_bool) ≠ Some true)
  ∧ (∀ tuic, map_get d "tuic-server" = Some tuic →
       ∃ m, as_mapping tuic = Some m ∧ (m = [] ∨ (map_get m "enable" ≫= as_bool) = Some false))
  ∧ (∀ k v, k ∈ ["ss-config"; "vmess-config"; "tcptun-config"; "udptun-config"] →
       map_get d k = Some v → as_str v = Some "")
  ∧ (∀ k v, k ∈ ["listeners"; "tunnels"] → map_get d k = Some v → nonempty_collection v = false).

Lemma existsb_false {A} (f : A → bool) l : existsb f l = false → ∀ x, x ∈ l → f x = false.
Proof.
  intros H x Hx. destruct (f x) eqn:E; [|done].
  rewrite <-H. symmetry. apply existsb_exists. exists x. by rewrite <-list_elem_of_In.
Qed.

Lemma zero_inbounds_port d k :
  k ∈ INBOUND_PORT_FIELDS → map_get (zero_inbounds d) k = zeroed (map_get d k).
Proof.
  intros Hk. pose proof (port_fields_ok k Hk) as [Hne _]. unfold zero_inbounds.
  set (d1 := fold_left (λ d key, zero_listener key d) INBOUND_PORT_FIELDS d).
  assert (map_get d1 k = zeroed (map_get d k)) as H1.
  { unfold d1. rewrite zero_listeners_get by (apply (bool_decide_unpack _); vm_compute; exact I).
    apply listed_In in Hk. by rewrite Hk. }
  repeat case_match; try done. rewrite map_get_insert. by destruct (String.eqb_spec "tun" k).
Qed.

Lemma zero_inbounds_tun d tun :
  canonical (VMapping d) → tun_blocks d = false → map_get (zero_inbounds d) "tun" = Some tun →
  ∃ m, as_mapping tun = Some m ∧ (map_get m "enable" ≫= as_bool) ≠ Some true.
Proof.
  intros Hd Htun. unfold zero_inbounds.
  set (d1 := fold_left (λ d key, zero_listener key d) INBOUND_PORT_FIELDS d).
  assert (map_get d1 "tun" = map_get d "tun") as Ed1.
  { unfold d1. by rewrite zero_listeners_get by (apply (bool_decide_unpack _); vm_compute; exact I). }
  rewrite Ed1. unfold tun_blocks in Htun. destruct (map_get d "tun") as [v|] eqn:Ev; [|by rewrite Ed1].
  destruct (as_mapping v) as [m|] eqn:Em; [|done]. case_bool_decide as Hen.
  - rewrite map_get_insert, String.eqb_refl. intros [= <-].
    pose proof (canonical_get _ _ _ Hd Ev) as Hct. apply canonical_as_mapping in Em as ->; [|done].
    eexists. split; [done|]. by rewrite map_get_insert.
  - rewrite Ed1. intros [= <-]. eauto.
Qed.

(** a document that [overlap_block] lets overlap and that names no DNS
    listener opens no inbound listener once its inbounds are zeroed, so the
    bootstrap epoch cannot fight the outgoing one for a port. *)
Theorem overlap_bootstrap_quiet (d : Mapping) :
  canonical (VMapping d) → overlap_block d = None → dns_listen d = None → quiet (zero_inbounds d).
Proof.
  intros Hd Hov Hdns. unfold overlap_block in Hov. rewrite Hdns in Hov.
  destruct (_ || _) eqn:E in Hov; [done|]. clear Hov.
  apply orb_false_iff in E as [E _]. apply orb_false_iff in E as [E Hcoll].
  apply orb_false_iff in E as [E Hleg]. apply orb_false_iff in E as [E Htuic].
  apply orb_false_iff in E as [Hports Htun].
  destruct (zero_inbounds_spec d Hd) as [_ Hget].
  assert (∀ k, k ∉ INBOUND_PORT_FIELDS → k ≠ "tun" → map_get (zero_inbounds d) k = map_get d k) as Hsame.
  { intros k H1 H2. destruct (Hget k) as [?|[[? _]|[? _]]]; done. }
  assert (∀ k, listed k INBOUND_PORT_FIELDS = false → k ∉ INBOUND_PORT_FIELDS) as Hnl.
  { intros k Hf Hin%listed_In. congruence. }
  split_and!.
  - intros k v Hk. rewrite zero_inbounds_port by done.
    pose proof (existsb_false _ _ Hports k Hk) as Hp. unfold port_blocks in Hp. unfold zeroed.
    destruct (map_get d k) as [w|]; simpl; [|done]. apply bool_decide_eq_false in Hp.
    destruct (as_i64 w) as [n|] eqn:En; [|done]. destruct (Z.eqb_spec n 0); intros [= <-]; [congruence|done].
  - intros tun. by apply zero_inbounds_tun.
  - intros tuic. rewrite Hsame by (first [by apply Hnl|done]). intros Ht. unfold tuic_blocks in Htuic.
    rewrite Ht in Htuic. destruct (as_mapping tuic) as [m|]; [|done]. exists m. split; [done|].
    destruct (map_get m "enable") as [en|]; simpl.
    + right. by apply negb_false_iff, bool_decide_eq_true in Htuic.
    + left. apply negb_false_iff, Nat.eqb_eq in Htuic. by apply nil_length_inv.
  - intros k v Hk. pose proof (existsb_false _ _ Hleg k Hk) as Hl. unfold legacy_blocks in Hl.
    assert (listed k INBOUND_PORT_FIELDS = false ∧ k ≠ "tun") as [H1 H2].
    { revert Hk. rewrite !elem_of_cons, elem_of_nil. by intros [->|[->|[->|[->|[]]]]]. }
    rewrite Hsame by auto. intros Hv. rewrite Hv in Hl. by apply negb_false_iff, bool_decide_eq_true in Hl.
  - intros k v Hk. pose proof (existsb_false _ _ Hcoll k Hk) as Hl. unfold collection_blocks in Hl.
    assert (listed k INBOUND_PORT_FIELDS = false ∧ k ≠ "tun") as [H1 H2].
    { revert Hk. rewrite !elem_of_cons, elem_of_nil. by intros [->|[->|[]]]. }
    rewrite Hsame by auto. intros Hv. by rewrite Hv in Hl.
Qed.

(** an empty DNS listener ends the overlap check early. Whenever
    [dns.listen] is present and empty, [overlap_block] permits the overlap
    without looking at the inbound surface, although the document may declare
    [listeners]. *)
Theorem overlap_block_stops_at_empty_dns_listen :
  (∀ d : Mapping, dns_listen d = Some (VString "") → overlap_block d = None)
  ∧ ∃ d : Mapping, canonical (VMapping d) ∧ dns_listen d = Some (VString "")
      ∧ collection_blocks d "listeners" = true ∧ ¬ quiet (zero_inbounds d).
Proof.
  split; [intros d Hd; unfold overlap_block; by rewrite Hd|].
  exists [(VString "dns", VMapping [(VString "listen", VString "")]);
          (VString "listeners", VSequence [VString "mixed"])].
  split_and!; [|done|done|].
  - by apply (canonicalize_canonical (VMapping [(VString "dns", VMapping [(VString "listen", VString "")]);
          (VString "listeners", VSequence [VString "mixed"])])).
  - intros (_ & _ & _ & _ & H). specialize (H "listeners" (VSequence [VString "mixed"])).
    discriminate H; [set_solver|done].
Qed.
End mihomo.

(** ** Concrete runs *)

(** A codec that represents every document. *)
Definition echo_codec : @PatchCodec bits_float := {|
  ConfigPatch := @Value bits_float;
  RuntimeConfig := @Value bits_float;
  patch_from_value := Some;
  patch_to_value v := Ok v;
  runtime_config_to_value v := Ok v;
|}.

#[local] Existing Instances bits_float echo_codec toy_process.

Module demo.
Definition full : Mapping :=
  [(VString "mixed-port", VNumber (PosInt 7890)); (VString "mode", VString "rule");
   (VString "tun", VMapping [(VString "enable", VBool true)])].
Definition edited : Mapping :=
  [(VString "mixed-port", VNumber (PosInt 7890)); (VString "mode", VString "global");
   (VString "tun", VMapping [(VString "enable", VBool true)])].
Definition spec : InstanceSpec :=
  mkInstanceSpec (mkCoreSpec Mihomo "/bin/mihomo" None []) "/etc/c.yaml" "/var" None
    instance_options_default.

Lemma full_canonical : canonical (VMapping full).
Proof. by apply (canonicalize_canonical (VMapping full)). Qed.
Lemma edited_canonical : canonical (VMapping edited).
Proof. by apply (canonicalize_canonical (VMapping edited)). Qed.
End demo.

Lemma classify_in_place_sound_witness :
  ∃ c, classify (mkView demo.full demo.full demo.spec) (mkView demo.edited demo.edited demo.spec) = Ok c
    ∧ c ≠ CSwitch ∧ change_sound demo.full demo.edited c.
Proof.
  eexists. split; [vm_compute; reflexivity|]. split; [done|].
  apply (classify_in_place_sound (mkView demo.full demo.full demo.spec)
           (mkView demo.edited demo.edited demo.spec)).
  - split; apply demo.full_canonical.
  - split; apply demo.edited_canonical.
  - vm_compute. reflexivity.
  - done.
Defined.

Lemma bootstrap_restorable_witness :
  canonical (VMapping demo.full) ∧ restoration_patch (zero_inbounds demo.full) demo.full ≠ Ok None.
Proof.
  split; [apply demo.full_canonical|].
  destruct (bootstrap_restorable demo.full demo.full_canonical) as [[H _]|(D & _ & ->)]; [|done].
  vm_compute in H. discriminate H.
Defined.

Lemma overlap_bootstrap_quiet_witness : quiet (zero_inbounds demo.full).
Proof.
  apply (overlap_bootstrap_quiet demo.full demo.full_canonical); vm_compute; reflexivity.
Defined.
