(* ===== verification/Config.v ===== *)
(** Effective runtime configurations (config/mod.rs and config/clash.rs): the
    snapshot of the user's document, the managed controller rewrite, the
    endpoint path of an epoch, controller resolution and the deterministic
    document that is hashed and written. *)
From S2P Require Import Prelude Text Paths Metadata Types Operation Yaml Diff Mihomo.
From Stdlib Require Import Ascii String ZArith Lia.

(** * Code outside the repository *)

(** [serde_yaml_ng]'s parser and printer; an error is its text. *)
Class YamlCodec {YF : YamlFloat} := {
  yaml_from_slice : string → result Value string;
  yaml_to_string : Mapping → result string string;
}.

(** The parser hands out mappings with distinct keys. *)
Class YamlCodecLaws {YF : YamlFloat} {YC : YamlCodec} := {
  yaml_from_slice_wf raw v : yaml_from_slice raw = Ok v → wf v = true;
}.

(** The [url] crate: a parsed URL and the parts the controller code reads. *)
Class UrlLib := {
  Url : Type;
  url_parse : string → result Url string;
  url_scheme : Url → string;
  url_cannot_be_a_base : Url → bool;
  url_query : Url → option string;
  url_fragment : Url → option string;
  url_path : Url → string;
  url_set_path : string → Url → Url;
  url_text : Url → string;
}.

(** What [std::fs::canonicalize] answers: a path, which need not be UTF-8. *)
Inductive CanonicalPath := Utf8 (p : string) | NotUtf8.
Definition Canonicalize := string → result CanonicalPath string.

(** * Controller URLs (clash-api/src/client.rs) *)

Section url.
Context {UL : UrlLib}.

(** [normalize_base_url]; the errors are their [Display] text. *)
Definition normalize_base_url (base_url : Url) : result Url string :=
  if negb (String.eqb (url_scheme base_url) "http" || String.eqb (url_scheme base_url) "https")
  then Err ("unsupported Clash API URL scheme `" +:+ url_scheme base_url +:+ "`")
  else if url_cannot_be_a_base base_url then Err ("URL cannot be used as a Clash API base URL: " +:+ url_text base_url)
  else if bool_decide (is_Some (url_query base_url)) || bool_decide (is_Some (url_fragment base_url))
  then Err ("Clash API base URL must not contain a query or fragment: " +:+ url_text base_url)
  else if negb (ends_with "/" (url_path base_url))
  then Ok (url_set_path (url_path base_url +:+ "/") base_url)
  else Ok base_url.

(** [parse_complete_url]. *)
Definition parse_complete_url (value : string) : result Host string :=
  match url_parse value with
  | Err source => Err ("invalid Clash API base URL `" +:+ value +:+ "`: " +:+ source)
  | Ok url => let? url := normalize_base_url url in Ok (Http (url_text url))
  end.

(** [parse_controller_url] and [Host::http]. *)
Definition parse_controller_url (value default_scheme : string) : result Host string :=
  if contains "://" value then parse_complete_url value
  else parse_complete_url (default_scheme +:+ "://" +:+ value).
Definition host_http (base_url : string) : result Host string := parse_controller_url base_url "http".
End url.

(** * Endpoint paths *)

(** [probe_address]: wildcard listeners are probed on the loopback address. *)
Definition probe_address (address : string) : string :=
  match rsplit_once ":"%char address with
  | Some (host, port) =>
      if listed host ["0.0.0.0"; "::"; "[::]"; ""] then "127.0.0.1:" +:+ port else address
  | None => address
  end.

(** [validate_controller_template]. *)
Definition validate_controller_template (template : option string) : result unit Error :=
  match template with
  | Some value =>
      if negb (contains "{epoch}" value)
      then Err (InvalidManagerOptions "managed controller_template must contain `{epoch}`")
      else Ok tt
  | None => Ok tt
  end.

(** [managed_unix_endpoint]. *)
Definition managed_unix_endpoint (canon : Canonicalize) (runtime_dir endpoint : string) :
    result string Error :=
  let candidate := if is_absolute endpoint then endpoint else path_join runtime_dir endpoint in
  match parent candidate with
  | None => Err (InvalidManagerOptions "managed Unix controller has no parent directory")
  | Some parent =>
      match canon parent with
      | Err error =>
          Err (InvalidManagerOptions ("managed Unix controller parent `" +:+ parent
                 +:+ "` cannot be canonicalized: " +:+ error))
      | Ok NotUtf8 => Err (InvalidManagerOptions "managed Unix controller path is not UTF-8")
      | Ok (Utf8 canonical_parent) =>
          match canon runtime_dir with
          | Err error => Err (Io error)
          | Ok root =>
              let contained :=
                match root with
                | Utf8 canonical_root => path_starts_with canonical_parent canonical_root
                | NotUtf8 => false
                end in
              if negb contained
              then Err (InvalidManagerOptions ("managed Unix controller `" +:+ candidate
                          +:+ "` escapes runtime directory `" +:+ runtime_dir +:+ "`"))
              else match file_name candidate with
                   | None =>
                       Err (InvalidManagerOptions "managed Unix controller must name a socket file")
                   | Some file_name => Ok (path_join canonical_parent file_name)
                   end
          end
      end
  end.

(** [render_endpoint_path]. *)
Definition render_endpoint_path (canon : Canonicalize) (runtime_dir : string)
    (template : option string) (epoch : Z) : result string Error :=
  let? _ := validate_controller_template template in
  match template with
  | Some template => managed_unix_endpoint canon runtime_dir (replace "{epoch}" (fmt_u64 epoch) template)
  | None => Ok (path_join runtime_dir ("core-" +:+ fmt_u64 epoch +:+ ".sock"))
  end.

Definition TEMPLATE_PROBE_RENDERING : Z := 0.

(** [validate_managed_endpoint]. *)
Definition validate_managed_endpoint (canon : Canonicalize) (runtime_dir : string)
    (template : option string) : result unit Error :=
  res_map (λ _, tt) (render_endpoint_path canon runtime_dir template TEMPLATE_PROBE_RENDERING).

(** [managed_endpoint_path]. *)
Definition managed_endpoint_path (canon : Canonicalize) (runtime_dir : string)
    (template : option string) (epoch : Epoch) : result string Error :=
  render_endpoint_path canon runtime_dir template epoch.

(** [sockaddr_un::sun_path] holds 108 bytes, the last of them a terminator. *)
Definition SUN_PATH_LEN : nat := 108.

(** [validate_socket_path]. *)
Definition validate_socket_path (path : string) : result unit Error :=
  if negb (string_forallb (λ c, negb (Ascii.eqb c "000"%char)) path)
  then Err (InvalidManagerOptions
              "invalid controller socket path: paths must not contain interior null bytes")
  else if (SUN_PATH_LEN <=? String.length path)%nat
  then Err (InvalidManagerOptions "invalid controller socket path: path must be shorter than SUN_LEN")
  else Ok tt.

(** * Snapshots and effective documents *)

Section config.
Context {YF : YamlFloat} {YC : YamlCodec} {UL : UrlLib}.

Record ConfigSnapshot := mkSnapshot {
  sn_source_path : string;
  sn_document : Mapping;
  sn_source_hash : string;
}.

Record PreparedConfig := mkPrepared {
  pc_bytes : string;
  pc_document : Mapping;
  pc_controller : ResolvedController;
  pc_rewrote_controller : bool;
  pc_source_hash : string;
  pc_effective_hash : string;
}.

Inductive RawController := RPipe (path : string) | RUnix (path : string) | RHttp (address : string).

Record ConfigInfo := mkConfigInfo { ci_controller : option RawController; ci_secret : option string }.

(** [semantic_hash]: the same FNV-1a as the payload digest. *)
Definition semantic_hash (bytes : string) : string := fmt_hex 16 (fnv1a FNV_OFFSET bytes) "".

(** [serialize_mapping]. *)
Definition serialize_mapping (document : Mapping) : result string Error :=
  res_map_err Yaml (yaml_to_string document).

(** [str_value]. *)
Definition str_value (doc : Mapping) (key : string) : option string :=
  match map_get doc key ≫= as_str with
  | Some value => if String.eqb value "" then None else Some value
  | None => None
  end.

(** [ConfigSnapshot::from_bytes]. *)
Definition snapshot_from_bytes (source_path raw : string) : result ConfigSnapshot Error :=
  let? value := res_map_err Yaml (yaml_from_slice raw) in
  let? value := canonicalize value in
  match value with
  | VMapping document =>
      let? canonical := serialize_mapping document in
      Ok (mkSnapshot source_path document (semantic_hash canonical))
  | _ => Err (InvalidConfig "top-level YAML document must be a mapping")
  end.

(** ** Controllers (config/clash.rs) *)

(** [inspect]: on Unix the local transport is the socket. *)
Definition inspect (document : Mapping) : ConfigInfo :=
  let local := RUnix <$> str_value document EXTERNAL_CONTROLLER_UNIX in
  mkConfigInfo
    (match local with
     | Some c => Some c
     | None => RHttp <$> str_value document EXTERNAL_CONTROLLER
     end)
    (str_value document SECRET).

(** [inspect_http]. *)
Definition inspect_http (document : Mapping) : ConfigInfo :=
  mkConfigInfo (RHttp <$> str_value document EXTERNAL_CONTROLLER) (str_value document SECRET).

(** [rewrite_managed_controller]. *)
Definition rewrite_managed_controller (endpoint : string) (keep_http : bool) (document : Mapping) : Mapping :=
  let document :=
    fold_left (λ d field,
      if negb (listed field [EXTERNAL_CONTROLLER; EXTERNAL_CONTROLLER_TLS]) || negb keep_http
      then map_remove field d else d)
      [EXTERNAL_CONTROLLER; EXTERNAL_CONTROLLER_TLS; EXTERNAL_CONTROLLER_PIPE; EXTERNAL_CONTROLLER_UNIX]
      document in
  map_insert EXTERNAL_CONTROLLER_UNIX (VString endpoint) document.

(** [resolve_controller]. *)
Definition resolve_controller (info : ConfigInfo) : result ResolvedController Error :=
  match ci_controller info with
  | None => Err ControllerMissing
  | Some raw =>
      let? host :=
        match raw with
        | RPipe path => Ok (NamedPipe path)
        | RUnix path => Ok (UnixSocket path)
        | RHttp address => res_map_err Api (host_http (probe_address address))
        end in
      Ok (mkController host (ci_secret info))
  end.

(** ** Preparation *)

(** The controller rewrite of [prepare], for the selected channel. *)
Definition rewrite_controller (canon : Canonicalize) (template : option string) (runtime_dir : string)
    (epoch : Epoch) (rewrote : bool) (settings : option LocalIpcSettings) (document : Mapping) :
    result Mapping Error :=
  let? document :=
    if rewrote then
      let? endpoint := managed_endpoint_path canon runtime_dir template epoch in
      let? _ := validate_socket_path endpoint in
      Ok (rewrite_managed_controller endpoint
            (match settings with Some s => li_keep_http_controller s | None => false end) document)
    else Ok document in
  Ok (if negb rewrote && bool_decide (is_Some settings)
      then map_remove "external-controller-unix" (map_remove "external-controller-pipe" document)
      else document).

(** [ConfigSnapshot::prepare]; the remaining arm of the canonicalization is the
    source's [unreachable!]. *)
Definition prepare (canon : Canonicalize) (template : option string) (runtime_dir : string)
    (epoch : Epoch) (runtime : list RuntimeFeature) (settings : option LocalIpcSettings)
    (zero : bool) (s : ConfigSnapshot) : result PreparedConfig Error :=
  let document := if zero then zero_inbounds (sn_document s) else sn_document s in
  let rewrote_controller := bool_decide (LocalIpc ∈ runtime) in
  let? document :=
    rewrite_controller canon template runtime_dir epoch rewrote_controller settings document in
  let? value := canonicalize (VMapping document) in
  match value with
  | VMapping document =>
      let info := if rewrote_controller then inspect document else inspect_http document in
      let? controller := resolve_controller info in
      let? bytes := serialize_mapping document in
      Ok (mkPrepared bytes document controller rewrote_controller (sn_source_hash s)
            (semantic_hash bytes))
  | _ => Err (InvalidConfig "canonical mapping remains a mapping")
  end.

(** [prepare_full] and [prepare_bootstrap]. *)
Definition prepare_full (canon : Canonicalize) (template : option string) (runtime_dir : string)
    (epoch : Epoch) (runtime : list RuntimeFeature) (settings : option LocalIpcSettings)
    (s : ConfigSnapshot) : result PreparedConfig Error :=
  prepare canon template runtime_dir epoch runtime settings false s.
Definition prepare_bootstrap (canon : Canonicalize) (template : option string) (runtime_dir : string)
    (epoch : Epoch) (runtime : list RuntimeFeature) (settings : option LocalIpcSettings)
    (s : ConfigSnapshot) : result PreparedConfig Error :=
  prepare canon template runtime_dir epoch runtime settings true s.

(** * Lemmas *)

Definition TRANSPORT_FIELDS : list string :=
  [EXTERNAL_CONTROLLER; EXTERNAL_CONTROLLER_TLS; EXTERNAL_CONTROLLER_PIPE; EXTERNAL_CONTROLLER_UNIX].

Lemma canonicalize_snapshot `{!YamlCodecLaws} path raw s :
  snapshot_from_bytes path raw = Ok s → canonical (VMapping (sn_document s)).
Proof.
  unfold snapshot_from_bytes. destruct (yaml_from_slice raw) as [v|] eqn:Ev; cbn [res_map_err]; [|done].
  destruct (canonicalize v) as [w|] eqn:Ew; [|done]. destruct w as [| | | | |m|]; try done.
  destruct (serialize_mapping m); [|done]. intros [= <-]. simpl.
  apply (canonicalize_canonical v); [|done]. by eapply yaml_from_slice_wf.
Qed.

Lemma remove_fields_spec (keep : string → bool) fields (m : Mapping) :
  loose m →
  let n := fold_left (λ d field, if keep field then d else map_remove field d) fields m in
  loose n ∧ ∀ k, map_get n k = if listed k fields && negb (keep k) then None else map_get m k.
Proof.
  revert m. induction fields as [|f fields IH]; intros m Hm; [done|]. cbn [fold_left].
  destruct (IH (if keep f then m else map_remove f m)) as [H1 H2].
  { destruct (keep f); [done|]. by apply loose_remove. }
  split; [done|]. intros k. rewrite H2. change (listed k (f :: fields)) with (String.eqb k f || listed k fields).
  destruct (keep f) eqn:Ef; rewrite ?map_get_remove by done;
    destruct (String.eqb_spec k f) as [->|Hne]; rewrite ?String.eqb_refl, ?Ef; simpl; try done.
  - by destruct (listed f fields).
  - by destruct (listed f fields).
  - destruct (listed k fields && negb (keep k)); [done|]. by destruct (String.eqb_spec f k).
Qed.

Lemma rewrite_managed_spec endpoint keep_http m :
  loose m →
  let n := rewrite_managed_controller endpoint keep_http m in
  loose n
  ∧ map_get n EXTERNAL_CONTROLLER_UNIX = Some (VString endpoint)
  ∧ map_get n EXTERNAL_CONTROLLER_PIPE = None
  ∧ (∀ k, k ∈ [EXTERNAL_CONTROLLER; EXTERNAL_CONTROLLER_TLS] →
       map_get n k = if keep_http then map_get m k else None)
  ∧ ∀ k, k ∉ TRANSPORT_FIELDS → map_get n k = map_get m k.
Proof.
  intros Hm. unfold rewrite_managed_controller.
  set (keep := λ f, listed f [EXTERNAL_CONTROLLER; EXTERNAL_CONTROLLER_TLS] && keep_http).
  set (d := fold_left _ _ m).
  assert (d = fold_left (λ d field, if keep field then d else map_remove field d) TRANSPORT_FIELDS m) as ->.
  { unfold d, keep, TRANSPORT_FIELDS. by destruct keep_http. }
  destruct (remove_fields_spec keep TRANSPORT_FIELDS m Hm) as [Hl Hg].
  split_and!.
  - apply loose_insert; [done|constructor].
  - by rewrite map_get_insert.
  - rewrite map_get_insert, Hg. done.
  - intros k Hk. rewrite map_get_insert, Hg. revert Hk. rewrite !elem_of_cons, elem_of_nil.
    by intros [->|[->|[]]]; destruct keep_http.
  - intros k Hk. rewrite map_get_insert, Hg.
    assert (listed k TRANSPORT_FIELDS = false) as Hf.
    { destruct (listed k TRANSPORT_FIELDS) eqn:E; [by apply listed_In in E|done]. }
    rewrite Hf. destruct (String.eqb_spec EXTERNAL_CONTROLLER_UNIX k) as [<-|]; [done|done].
Qed.

Lemma path_join_nonempty p q : q ≠ "" → path_join p q ≠ "".
Proof.
  intros Hq. unfold path_join. destruct (is_absolute q); [done|]. intros H.
  destruct (_ || _); destruct p; simpl in H; done.
Qed.

Lemma endpoint_nonempty canon dir template epoch e :
  managed_endpoint_path canon dir template epoch = Ok e → e ≠ "".
Proof.
  unfold managed_endpoint_path, render_endpoint_path.
  destruct (validate_controller_template template); [|done]. destruct template as [t|].
  - unfold managed_unix_endpoint. repeat case_match; try done; intros [= <-];
      by eapply path_join_nonempty, file_name_nonempty.
  - intros [= <-]. by apply path_join_nonempty.
Qed.

(** The controller rewrite, on both channels. *)
Lemma rewrite_controller_spec canon template dir epoch rewrote settings m n :
  loose m → rewrite_controller canon template dir epoch rewrote settings m = Ok n →
  loose n
  ∧ (∀ k, k ∉ TRANSPORT_FIELDS → map_get n k = map_get m k)
  ∧ if rewrote then
      ∃ endpoint, managed_endpoint_path canon dir template epoch = Ok endpoint
        ∧ (String.length endpoint < SUN_PATH_LEN)%nat
        ∧ map_get n EXTERNAL_CONTROLLER_UNIX = Some (VString endpoint)
        ∧ map_get n EXTERNAL_CONTROLLER_PIPE = None
        ∧ ∀ k, k ∈ [EXTERNAL_CONTROLLER; EXTERNAL_CONTROLLER_TLS] →
            map_get n k = if (match settings with Some s => li_keep_http_controller s | None => false end)
                          then map_get m k else None
    else
      (∀ k, k ∈ [EXTERNAL_CONTROLLER; EXTERNAL_CONTROLLER_TLS] → map_get n k = map_get m k)
      ∧ (is_Some settings → ∀ k, k ∈ [EXTERNAL_CONTROLLER_PIPE; EXTERNAL_CONTROLLER_UNIX] → map_get n k = None).
Proof.
  intros Hm. unfold rewrite_controller. destruct rewrote; cbn [negb andb].
  - destruct (managed_endpoint_path canon dir template epoch) as [e|] eqn:Ee; [|done].
    destruct (validate_socket_path e) as [u|] eqn:Es; [|done]. intros [= <-].
    destruct (rewrite_managed_spec e
      (match settings with Some s => li_keep_http_controller s | None => false end) m Hm) as (H1 & H2 & H3 & H4 & H5).
    split_and!; [done|done|]. exists e. split_and!; try done.
    revert Es. unfold validate_socket_path. destruct (negb _); [done|].
    by destruct (Nat.leb_spec SUN_PATH_LEN (String.length e)).
  - intros [= <-]. case_bool_decide as Hs.
    + pose proof (loose_remove "external-controller-pipe" m Hm) as H1.
      split_and!; [by apply loose_remove| | |].
      * intros k Hk. rewrite !map_get_remove by done.
        destruct (String.eqb_spec "external-controller-unix" k) as [<-|]; [destruct Hk; set_solver|].
        destruct (String.eqb_spec "external-controller-pipe" k) as [<-|]; [destruct Hk; set_solver|done].
      * intros k Hk. rewrite !map_get_remove by done. revert Hk. rewrite !elem_of_cons, elem_of_nil.
        by intros [->|[->|[]]].
      * intros _ k Hk. rewrite !map_get_remove by done. revert Hk. rewrite !elem_of_cons, elem_of_nil.
        by intros [->|[->|[]]].
    + done.
Qed.

Lemma str_value_get d k s : map_get d k = Some (VString s) → s ≠ "" → str_value d k = Some s.
Proof.
  intros E Hs. unfold str_value. rewrite E. simpl. by destruct (String.eqb_spec s "").
Qed.

Lemma prepare_Ok canon template dir epoch runtime settings zero s p :
  canonical (VMapping (sn_document s)) →
  prepare canon template dir epoch runtime settings zero s = Ok p →
  ∃ m, rewrite_controller canon template dir epoch (bool_decide (LocalIpc ∈ runtime)) settings
         (if zero then zero_inbounds (sn_document s) else sn_document s) = Ok m
    ∧ loose (if zero then zero_inbounds (sn_document s) else sn_document s)
    ∧ (∀ k, map_get (pc_document p) k = map_get m k)
    ∧ canonical (VMapping (pc_document p))
    ∧ yaml_to_string (pc_document p) = Ok (pc_bytes p)
    ∧ pc_effective_hash p = semantic_hash (pc_bytes p)
    ∧ resolve_controller (if bool_decide (LocalIpc ∈ runtime) then inspect (pc_document p)
                          else inspect_http (pc_document p)) = Ok (pc_controller p).
Proof.
  intros Hs. unfold prepare. set (src := if zero then _ else _).
  assert (loose src) as Hl.
  { apply canonical_loose. unfold src. destruct zero; [by apply zero_inbounds_spec|done]. }
  destruct (rewrite_controller _ _ _ _ _ _ src) as [m|] eqn:Em; [|done].
  destruct (rewrite_controller_spec _ _ _ _ _ _ _ _ Hl Em) as [Hm _].
  destruct (canonicalize_loose m Hm) as (n & En & Hn & Hget). rewrite En.
  destruct (resolve_controller _) as [c|] eqn:Ec; [|done].
  unfold serialize_mapping. destruct (yaml_to_string n) as [bytes|] eqn:Eb; [|done].
  intros [= <-]. exists m. split_and!; done.
Qed.

(** a prepared document talks to the controller the manager chose and is
    otherwise the user's. The effective document is canonical and its hash is
    that of the written bytes; every key but the four transport keys keeps the
    source's value. With local IPC the controller is the epoch's own socket,
    whose path fits a socket address, the pipe is gone and the HTTP listeners
    are kept only when asked; without it the controller is the source's HTTP
    one, with the wildcard addresses replaced by the loopback. *)
Theorem prepare_effective_document (canon : Canonicalize) (template : option string) (dir : string)
    (epoch : Epoch) (runtime : list RuntimeFeature) (settings : option LocalIpcSettings) (zero : bool)
    (s : ConfigSnapshot) (p : PreparedConfig) :
  canonical (VMapping (sn_document s)) →
  prepare canon template dir epoch runtime settings zero s = Ok p →
  let src := if zero then zero_inbounds (sn_document s) else sn_document s in
  let doc := pc_document p in
  canonical (VMapping doc)
  ∧ yaml_to_string doc = Ok (pc_bytes p) ∧ pc_effective_hash p = semantic_hash (pc_bytes p)
  ∧ (∀ k, k ∉ TRANSPORT_FIELDS → map_get doc k = map_get src k)
  ∧ if bool_decide (LocalIpc ∈ runtime) then
      ∃ endpoint, managed_endpoint_path canon dir template epoch = Ok endpoint
        ∧ (String.length endpoint < SUN_PATH_LEN)%nat
        ∧ rc_host (pc_controller p) = UnixSocket endpoint
        ∧ map_get doc EXTERNAL_CONTROLLER_UNIX = Some (VString endpoint)
        ∧ map_get doc EXTERNAL_CONTROLLER_PIPE = None
        ∧ ∀ k, k ∈ [EXTERNAL_CONTROLLER; EXTERNAL_CONTROLLER_TLS] →
            map_get doc k = if (match settings with Some s => li_keep_http_controller s | None => false end)
                            then map_get src k else None
    else
      (∃ address, str_value src EXTERNAL_CONTROLLER = Some address
         ∧ host_http (probe_address address) = Ok (rc_host (pc_controller p)))
      ∧ (is_Some settings → ∀ k, k ∈ [EXTERNAL_CONTROLLER_PIPE; EXTERNAL_CONTROLLER_UNIX] → map_get doc k = None).
Proof.
  intros Hs Hp src doc.
  destruct (prepare_Ok _ _ _ _ _ _ _ _ _ Hs Hp) as (m & Em & Hl & Hget & Hc & Hb & Hh & Hr).
  destruct (rewrite_controller_spec _ _ _ _ _ _ _ _ Hl Em) as (_ & Hother & Hch).
  split_and!; [done|done|done|intros k Hk; by rewrite Hget, Hother|].
  case_bool_decide as Hipc.
  - destruct Hch as (e & E1 & E2 & E3 & E4 & E5). exists e. unfold doc.
    split_and!; try done; [|by rewrite Hget..|intros k Hk; by rewrite Hget, E5].
    revert Hr. unfold resolve_controller, inspect. cbn [ci_controller ci_secret].
    rewrite (str_value_get _ _ e); [|by rewrite Hget|by eapply endpoint_nonempty].
    cbn. by intros [= <-].
  - destruct Hch as [E1 E2]. split; [|intros Hset k Hk; unfold doc; rewrite Hget; by apply E2].
    revert Hr. unfold resolve_controller, inspect_http. cbn [ci_controller ci_secret].
    assert (str_value (pc_document p) EXTERNAL_CONTROLLER = str_value src EXTERNAL_CONTROLLER) as ->.
    { unfold str_value. rewrite Hget, E1; [done|]. set_solver. }
    destruct (str_value src EXTERNAL_CONTROLLER) as [a|]; cbn [fmap option_fmap option_map]; [|done].
    destruct (host_http (probe_address a)) as [h|] eqn:Eh; cbn [res_map_err]; [|done].
    intros [= <-]. by exists a.
Qed.
End config.

(** without a template the controller sockets of two epochs of one runtime
    directory are different files, so overlapping epochs never share a
    controller. *)
Theorem epoch_endpoints_distinct (canon : Canonicalize) (dir : string) (e1 e2 : Epoch) :
  epoch_ok e1 → epoch_ok e2 →
  managed_endpoint_path canon dir None e1 = managed_endpoint_path canon dir None e2 → e1 = e2.
Proof.
  intros H1 H2. unfold managed_endpoint_path, render_endpoint_path. cbn [validate_controller_template].
  intros [= H]. unfold path_join in H.
  assert (∀ e, is_absolute ("core-" +:+ fmt_u64 e +:+ ".sock") = false) as Hrel.
  { intros e. unfold is_absolute, starts_with. apply bool_decide_eq_false. intros [r Hr].
    apply strip_prefix_Some in Hr. done. }
  rewrite !Hrel in H.
  assert (∀ p, p +:+ "core-" +:+ fmt_u64 e1 +:+ ".sock" = p +:+ "core-" +:+ fmt_u64 e2 +:+ ".sock" → e1 = e2) as Hi.
  { intros p E%(inj (String.append p))%(inj (String.append "core-")).
    apply fmt_u64_inj; [unfold epoch_ok, is_u64 in *; lia..|].
    assert (strip_suffix ".sock" (fmt_u64 e1 +:+ ".sock") = strip_suffix ".sock" (fmt_u64 e2 +:+ ".sock")) as E'
      by (by f_equal). rewrite !strip_suffix_app in E'. by simplify_eq. }
  destruct (_ || _); [by apply (Hi dir)|]. apply (Hi (dir +:+ "/")). by rewrite !app_assoc_str.
Qed.

(** ** Concrete runs *)

(** A printer that renders every document as its number of entries. *)
Definition toy_yaml : @YamlCodec bits_float := {|
  yaml_from_slice _ := Ok (VMapping []);
  yaml_to_string m := Ok (fmt_u64 (Z.of_nat (List.length m)));
|}.

(** URLs of the form [http://..] without a path. *)
Definition toy_url : UrlLib := {|
  Url := string; url_parse s := Ok s; url_scheme _ := "http"; url_cannot_be_a_base _ := false;
  url_query _ := None; url_fragment _ := None; url_path _ := ""; url_set_path p u := u +:+ p;
  url_text u := u;
|}.

#[local] Existing Instances bits_float toy_yaml toy_url.

Module demo.
Definition source : Mapping :=
  [(VString "external-controller", VString "0.0.0.0:9090"); (VString "mode", VString "rule")].
Definition snapshot : ConfigSnapshot := mkSnapshot "/etc/c.yaml" source "0".
Definition canon : Canonicalize := λ p, Ok (Utf8 p).
Definition prepared (runtime : list RuntimeFeature) : result PreparedConfig Error :=
  prepare canon None "/run" 7 runtime None false snapshot.
End demo.

Example prepared_over_http :
  res_map (λ p, rc_host (pc_controller p)) (demo.prepared []) = Ok (Http "http://127.0.0.1:9090/").
Proof. vm_compute. reflexivity. Qed.

Lemma prepare_effective_document_witness :
  ∃ p, demo.prepared [LocalIpc] = Ok p ∧ rc_host (pc_controller p) = UnixSocket "/run/core-7.sock"
    ∧ map_get (pc_document p) "mode" = Some (VString "rule").
Proof.
  eexists. split; [vm_compute; reflexivity|]. split; [reflexivity|].
  apply (prepare_effective_document demo.canon None "/run" 7 [LocalIpc] None false demo.snapshot).
  - apply (canonicalize_canonical (VMapping demo.source)); reflexivity.
  - vm_compute. reflexivity.
  - vm_compute. intros H. repeat (inversion H as [|? ? ? H']; subst; clear H; rename H' into H).
Defined.

Lemma epoch_endpoints_distinct_witness :
  epoch_ok 7 ∧ managed_endpoint_path demo.canon "/run" None 7 ≠ managed_endpoint_path demo.canon "/run" None 8.
Proof.
  split; [unfold epoch_ok, u64_max; lia|]. intros H.
  assert (7 = 8)%Z as E by (apply (epoch_endpoints_distinct demo.canon "/run"); [unfold epoch_ok, u64_max; lia..|exact H]).
  discriminate E.
Defined.
