(* ===== verification/Capability.v ===== *)
(** Capability resolution (capability.rs): the version cache, the version probe
    of a core binary, and the decision whether an epoch runs over local IPC. *)
From S2P Require Import Prelude Text Metadata Types.
From Stdlib Require Import Ascii String ZArith Lia.

(** * The version probe *)

Record ProcessOutput := mkOutput {
  po_success : bool;
  po_code_debug : string;
  po_stdout : string;
  po_stderr : string;
}.

(** Why the modification time of a binary is unknown. *)
Inductive ModifiedError := MetadataFailed | NoModified (message : string).

(** What the resolution asks of the host. *)
Class BinaryHost (W : Type) := {
  bin_modified : string → M W (result Z ModifiedError);
  (** [Command::new(path).arg("-v").timeout(5 s).output()]. *)
  bin_version_output : string → M W (result ProcessOutput string);
}.

(** The whole string is white space. *)
Fixpoint all_ws (fuel : nat) (s : string) : bool :=
  match fuel with
  | O => String.eqb s ""
  | S fuel' =>
      if String.eqb s "" then true
      else match ws_len s with
           | O => false
           | n => all_ws fuel' (String.substring n (String.length s - n) s)
           end
  end.

Fixpoint str_trim_start (fuel : nat) (s : string) : string :=
  match fuel with
  | O => s
  | S fuel' =>
      match ws_len s with
      | O => s
      | n => str_trim_start fuel' (String.substring n (String.length s - n) s)
      end
  end.

Fixpoint str_trim_end (s : string) : string :=
  if all_ws (String.length s) s then ""
  else match s with
       | EmptyString => EmptyString
       | String c s' => String c (str_trim_end s')
       end.

(** [str::trim]. *)
Definition str_trim (s : string) : string := str_trim_end (str_trim_start (String.length s) s).

(** * The cache *)

(** [HashMap<VersionCacheKey, String>]. *)
Definition VersionCache : Type := gmap (string * Z) string.

Record ResolvedFeatures := mkResolved {
  rf_capabilities : list Feature;
  rf_runtime : list RuntimeFeature;
  rf_version : option string;
}.

Definition LOCAL_TRANSPORT_FEATURE : Feature := UnixSocketIpc.

Section capability.
Context {W : Type} {BH : BinaryHost W}.

(** The cache next to the world it is kept for. *)
Abbreviation C := (VersionCache * W)%type.

Definition on_world {A} (m : M W A) : M C A :=
  λ '(c, w), let '(a, w') := m w in (a, (c, w')).

(** [binary_modified]. *)
Definition binary_modified (binary_path : string) : M W (result Z Error) :=
  r <- bin_modified binary_path ;;
  ret match r with
      | Ok t => Ok t
      | Err MetadataFailed => Err (BinaryNotFound binary_path)
      | Err (NoModified e) => Err (CoreVersionProbeFailed binary_path e)
      end.

(** [probe_version]. *)
Definition probe_version (binary_path : string) : M W (result string Error) :=
  r <- bin_version_output binary_path ;;
  ret match r with
      | Err e => Err (CoreVersionProbeFailed binary_path e)
      | Ok output =>
          if negb (po_success output)
          then Err (CoreVersionProbeFailed binary_path
                      ("process exited with code " +:+ po_code_debug output))
          else
            let stdout := str_trim (po_stdout output) in
            let stderr := str_trim (po_stderr output) in
            let version := if negb (String.eqb stdout "") then stdout else stderr in
            if String.eqb version ""
            then Err (CoreVersionProbeFailed binary_path "version command produced no output")
            else Ok version
      end.

(** [VersionCache::resolve]. *)
Definition cache_resolve (spec : CoreSpec) : M C (result string Error) :=
  match cs_version spec with
  | Some version => ret (Ok version)
  | None =>
      modified <-? on_world (binary_modified (cs_binary_path spec)) ;;
      let key := (cs_binary_path spec, modified) in
      cached <- gets (λ s, fst s !! key) ;;
      match cached with
      | Some version => ret (Ok version)
      | None =>
          version <-? on_world (probe_version (cs_binary_path spec)) ;;
          modified' <-? on_world (binary_modified (cs_binary_path spec)) ;;
          if negb (modified' =? modified)%Z
          then ret (Err (CoreVersionProbeFailed (cs_binary_path spec)
                 "core binary changed during version probe; retry with the replacement binary"))
          else
            modify (λ '(c, w), (<[key := version]> (filter (λ kv, kv.1.1 ≠ cs_binary_path spec) c), w)) ;;;
            ret (Ok version)
      end
  end.

(** [resolve_runtime]. *)
Definition resolve_runtime (policy : LocalIpcPolicy) (core : CoreSpec) (capabilities : list Feature)
    (resolved_version : option string) : result (list RuntimeFeature) Error :=
  let local_supported := bool_decide (LOCAL_TRANSPORT_FEATURE ∈ capabilities) in
  match policy, local_supported with
  | Force, false =>
      Err (RequiredLocalIpcUnsupported (cs_kind core)
             (match resolved_version with
              | Some v => v
              | None => default "unknown" (cs_version core)
              end))
  | Force, true | Prefer, true => Ok [LocalIpc]
  | Prefer, false | Disable, _ => Ok []
  end.

(** [resolve_features]. *)
Definition capability_resolve_features {SV : Semver} (core : CoreSpec) (policy : LocalIpcPolicy) :
    M C (result ResolvedFeatures Error) :=
  r <-? (if bool_decide (potential_features (cs_kind core) = [])
         then ret (Ok ([], cs_version core))
         else
           version <-? cache_resolve core ;;
           ret (Ok (features (cs_kind core) (Some (core_version_parse version)), Some version))) ;;
  let '(capabilities, version) := r in
  match resolve_runtime policy core capabilities version with
  | Err e => ret (Err e)
  | Ok runtime => ret (Ok (mkResolved capabilities runtime version))
  end.

(** * Properties *)

(** One cached version per binary. *)
Definition cache_ok (c : VersionCache) : Prop :=
  ∀ p t t' v v', c !! (p, t) = Some v → c !! (p, t') = Some v' → t = t'.

(** the version cache holds at most one version per binary, whatever is
    resolved, so a replaced binary is never described by the version of an
    older one; and resolving a binary whose version is declared asks nothing of
    the host. *)
Theorem cache_resolve_keeps_one (spec : CoreSpec) (c : VersionCache) (w : W) :
  cache_ok c →
  cache_ok (fst (cache_resolve spec (c, w)).2)
  ∧ ∀ v, cs_version spec = Some v → cache_resolve spec (c, w) = (Ok v, (c, w)).
Proof.
  intros Hc. split; [|intros v Hv; unfold cache_resolve; by rewrite Hv].
  unfold cache_resolve. destruct (cs_version spec); [done|].
  unfold bind_ok, bind, on_world, gets, modify, ret.
  destruct (binary_modified _ w) as [[t|e] w1]; [|done]. cbn [fst snd].
  destruct (c !! _); [done|]. destruct (probe_version _ w1) as [[v|e] w2]; [|done].
  destruct (binary_modified _ w2) as [[t'|e] w3]; [|done]. destruct (negb (t' =? t)%Z); [done|]. cbn [fst snd].
  intros p a b v1 v2 H1 H2. apply lookup_insert_Some in H1, H2.
  destruct H1 as [[E1 _]|[N1 H1]], H2 as [[E2 _]|[N2 H2]]; simplify_eq; [done| | |].
  - apply map_lookup_filter_Some in H2 as [_ H2]. by destruct H2.
  - apply map_lookup_filter_Some in H1 as [_ H1]. by destruct H1.
  - apply map_lookup_filter_Some in H1 as [H1 _], H2 as [H2 _]. by eapply Hc.
Qed.

(** an epoch runs over local IPC exactly when the policy allows it and the
    core supports the platform's transport, and resolution is refused exactly
    when the policy forces a transport the core lacks. *)
Theorem resolve_runtime_decides (policy : LocalIpcPolicy) (core : CoreSpec)
    (capabilities : list Feature) (version : option string) :
  match resolve_runtime policy core capabilities version with
  | Ok runtime =>
      LocalIpc ∈ runtime ↔ policy ≠ Disable ∧ LOCAL_TRANSPORT_FEATURE ∈ capabilities
  | Err _ => policy = Force ∧ LOCAL_TRANSPORT_FEATURE ∉ capabilities
  end.
Proof.
  unfold resolve_runtime. case_bool_decide; destruct policy; simpl; set_solver.
Qed.
End capability.

(** A host whose binary never changes and reports one version. *)
Definition toy_binary : BinaryHost unit := {|
  bin_modified _ := ret (Ok 5%Z);
  bin_version_output _ := ret (Ok (mkOutput true "Some(0)" " v1.19.2 " ""));
|}.

Lemma cache_resolve_keeps_one_witness :
  cache_ok (fst (cache_resolve (BH:=toy_binary) (mkCoreSpec Mihomo "/bin/m" None []) (∅, tt)).2)
  ∧ (cache_resolve (BH:=toy_binary) (mkCoreSpec Mihomo "/bin/m" None []) (∅, tt)).1 = Ok "v1.19.2".
Proof.
  split; [|vm_compute; reflexivity].
  apply (cache_resolve_keeps_one (BH:=toy_binary)). intros p t t' v v' H. vm_compute in H. discriminate H.
Defined.
