(* ===== verification/RuntimeStore.v ===== *)
(** Durable runtime artifacts (config/runtime_store.rs): naming, staging, the
    atomic commit and replacement of an epoch's configuration, backups, and
    the sweep of orphaned artifacts.

    The file system and the [atomic_fs] primitives of [nyanpasu-utils] are
    outside the repository: the class [RuntimeFs] lists the operations the
    store performs, over a world [W], and [RuntimeFsLaws] what it relies on,
    in terms of the contents of regular files. *)
From stdpp Require Import sorting.
From S2P Require Import Prelude Text Paths Types.
From Stdlib Require String.
From Stdlib Require Import ZArith Lia.

(** * The file system *)

Record Metadata := mkMetadata {
  md_is_symlink : bool;
  md_is_dir : bool;
  md_is_socket : bool;
  md_is_reparse_point : bool;
}.

Inductive IoError := NotFound | OtherIo (message : string).

Definition io_display (e : IoError) : string :=
  match e with NotFound => "No such file or directory (os error 2)" | OtherIo m => m end.
Definition io_error (e : IoError) : Error := Io (io_display e).

(** Operations; those of [atomic_fs] report the manager's [Error] they are
    converted to. *)
Class RuntimeFs (W : Type) := {
  fs_process_id : Z;
  (** [TEMP_COUNTER.fetch_add(1, Relaxed)]. *)
  fs_next_temp : M W Z;
  fs_validate_absent : string → M W (result unit Error);
  fs_validate_existing : string → M W (result unit Error);
  (** [OpenOptions::create_new(true).write(true).mode(0o600).open]. *)
  fs_create_new : string → M W (result unit IoError);
  fs_set_mode : string → Z → M W (result unit IoError);
  (** [write_all], [flush] and [sync_all] on the file just created. *)
  fs_write_sync : string → string → M W (result unit IoError);
  fs_read : string → M W (result string IoError);
  fs_remove_file : string → M W (result unit IoError);
  fs_move_new : string → string → M W (result unit Error);
  fs_replace : string → string → M W (result unit Error);
  fs_sync_dir : string → M W (result unit IoError);
  fs_remove_regular : string → M W (result unit Error);
  fs_symlink_metadata : string → M W (result Metadata IoError);
  (** The entries of a directory; [None] is a name that is not UTF-8. *)
  fs_read_dir : string → M W (result (list (option string)) IoError);
  fs_create_dir_all : string → M W (result unit IoError);
  (** [None] is a path that is not UTF-8. *)
  fs_canonicalize : string → M W (result (option string) IoError);
  fs_lock_dir : string → M W (result unit Error);
}.

Section store.
Context {W : Type} {FS : RuntimeFs W}.

(** [io_result?] inside a function that returns the manager's error. *)
Definition io {A} (m : M W (result A IoError)) : M W (result A Error) :=
  r <- m ;; ret (res_map_err io_error r).

(** A store is its directory. *)
Record RuntimeConfigStore := mkStore { rs_dir : string }.

(** A staged file; dropping it unconsumed removes the file. *)
Record StagedRuntimeConfig := mkStaged { sg_path : string }.
Definition drop_staged (s : StagedRuntimeConfig) : M W unit :=
  fs_remove_file (sg_path s) ;;; ret tt.

Record RuntimeConfigBackup := mkBackup { bk_path : string; bk_epoch : Epoch }.

Inductive RuntimeCommitDurability := Durable | Uncertain (warning : string).
Record RuntimeConfigCommit := mkCommit { cm_path : string; cm_durability : RuntimeCommitDurability }.

(** [RuntimeConfigCommit::durability_warning]. *)
Definition durability_warning (c : RuntimeConfigCommit) : option string :=
  match cm_durability c with Durable => None | Uncertain w => Some w end.

(** * Names *)

Definition runtime_name (n : Z) : string := "config-" +:+ fmt_u64 n +:+ ".yaml".
Definition pid_name (n : Z) : string := "core-" +:+ fmt_u64 n +:+ ".pid".
Definition socket_name (n : Z) : string := "core-" +:+ fmt_u64 n +:+ ".sock".
Definition backup_prefix (n : Z) : string := "config-" +:+ fmt_u64 n +:+ ".yaml.backup-".
Definition temp_prefix (n : Z) : string := ".config-" +:+ fmt_u64 n +:+ ".yaml.tmp-".
Definition pid_temp_prefix (n : Z) : string := "core-" +:+ fmt_u64 n +:+ ".pid.tmp-".

(** [runtime_path], [pid_path], [socket_path] and their [artifact_*] forms,
    which take the number of an epoch or one read back from a file name. *)
Definition runtime_path (s : RuntimeConfigStore) (n : Z) : string := path_join (rs_dir s) (runtime_name n).
Definition pid_path (s : RuntimeConfigStore) (n : Z) : string := path_join (rs_dir s) (pid_name n).
Definition socket_path (s : RuntimeConfigStore) (n : Z) : string := path_join (rs_dir s) (socket_name n).

(** [Option::or_else]. *)
Definition or_else {A} (a b : option A) : option A :=
  match a with Some x => Some x | None => b end.

(** [artifact_epoch]. *)
Definition artifact_epoch (name : string) : option Z :=
  let core := strip_prefix "core-" name in
  let config := strip_prefix "config-" name in
  rest ← or_else (core ≫= strip_suffix ".pid")
          (or_else (core ≫= strip_suffix ".sock")
          (or_else (config ≫= λ value,
                      or_else (strip_suffix ".yaml" value) (fst <$> split_once ".yaml.backup-" value))
          (or_else (strip_prefix ".config-" name ≫= λ value, fst <$> split_once ".yaml.tmp-" value)
                   (core ≫= λ value, fst <$> split_once ".pid.tmp-" value))));
  parse_u64 rest.

(** * Operations *)

(** [validate_directory_metadata]. *)
Definition validate_directory_metadata (path : string) (md : Metadata) : result unit Error :=
  if md_is_symlink md || negb (md_is_dir md) || md_is_reparse_point md
  then Err (UnsafeRuntimeArtifact path) else Ok tt.

(** [RuntimeConfigStore::new] (Unix). *)
Definition store_new (dir : string) : M W (result RuntimeConfigStore Error) :=
  _ <-? (r <- fs_symlink_metadata dir ;;
         match r with
         | Ok md => ret (validate_directory_metadata dir md)
         | Err NotFound => io (fs_create_dir_all dir)
         | Err e => ret (Err (io_error e))
         end) ;;
  _ <-? io (fs_set_mode dir 448 (* 0o700 *)) ;;
  canonical <-? io (fs_canonicalize dir) ;;
  match canonical with
  | None => ret (Err (InvalidManagerOptions "runtime directory is not UTF-8"))
  | Some dir =>
      md <-? io (fs_symlink_metadata dir) ;;
      _ <-? ret (validate_directory_metadata dir md) ;;
      ret (Ok (mkStore dir))
  end.

(** [acquire_ownership]. *)
Definition acquire_ownership (s : RuntimeConfigStore) : M W (result unit Error) :=
  fs_lock_dir (path_join (rs_dir s) ".manager.lock").

(** [stage]. *)
Definition stage (s : RuntimeConfigStore) (epoch : Epoch) (contents : string) :
    M W (result StagedRuntimeConfig Error) :=
  counter <- fs_next_temp ;;
  let path := path_join (rs_dir s)
    (temp_prefix epoch +:+ fmt_u64 fs_process_id +:+ "-" +:+ fmt_u64 counter) in
  _ <-? fs_validate_absent path ;;
  _ <-? io (fs_create_new path) ;;
  _ <-? io (fs_set_mode path 384 (* 0o600 *)) ;;
  r <- fs_write_sync path contents ;;
  match r with
  | Err e => fs_remove_file path ;;; ret (Err (io_error e))
  | Ok _ => ret (Ok (mkStaged path))
  end.

(** [validate_staged]. *)
Definition validate_staged (s : RuntimeConfigStore) (staged : StagedRuntimeConfig) (epoch : Epoch) :
    M W (result unit Error) :=
  let path := sg_path staged in
  if negb (bool_decide (parent path = Some (rs_dir s)))
     || negb (match file_name path with Some n => starts_with (temp_prefix epoch) n | None => false end)
  then ret (Err (UnsafeRuntimeArtifact path))
  else fs_validate_existing path.

(** An error after which the staged file is dropped unconsumed. *)
Definition or_drop {A B} (staged : StagedRuntimeConfig) (m : M W (result A Error))
    (k : A → M W (result B Error)) : M W (result B Error) :=
  r <- m ;;
  match r with
  | Ok a => k a
  | Err e => drop_staged staged ;;; ret (Err e)
  end.

(** [commit_new]. *)
Definition commit_new (s : RuntimeConfigStore) (staged : StagedRuntimeConfig) (epoch : Epoch) :
    M W (result string Error) :=
  or_drop staged (validate_staged s staged epoch) (λ _,
  let target := runtime_path s epoch in
  or_drop staged (fs_validate_absent target) (λ _,
  or_drop staged (fs_move_new (sg_path staged) target) (λ _,
  _ <-? io (fs_sync_dir (rs_dir s)) ;;
  ret (Ok target)))).

(** [installed_commit]. *)
Definition installed_commit (path : string) (parent_sync : result unit IoError) : RuntimeConfigCommit :=
  mkCommit path
    match parent_sync with
    | Ok _ => Durable
    | Err e => Uncertain ("runtime config was atomically installed, but parent-directory synchronization failed: "
                 +:+ io_display e)
    end.

(** [commit_replace]. *)
Definition commit_replace (s : RuntimeConfigStore) (staged : StagedRuntimeConfig) (epoch : Epoch) :
    M W (result RuntimeConfigCommit Error) :=
  or_drop staged (validate_staged s staged epoch) (λ _,
  let target := runtime_path s epoch in
  or_drop staged (fs_validate_existing target) (λ _,
  or_drop staged (fs_replace (sg_path staged) target) (λ _,
  parent_sync <- fs_sync_dir (rs_dir s) ;;
  ret (Ok (installed_commit target parent_sync))))).

(** [replace]. *)
Definition store_replace (s : RuntimeConfigStore) (epoch : Epoch) (contents : string) :
    M W (result RuntimeConfigCommit Error) :=
  staged <-? stage s epoch contents ;;
  commit_replace s staged epoch.

(** [backup]. *)
Definition backup (s : RuntimeConfigStore) (epoch : Epoch) (generation : Z) :
    M W (result RuntimeConfigBackup Error) :=
  let target := runtime_path s epoch in
  _ <-? fs_validate_existing target ;;
  contents <-? io (fs_read target) ;;
  staged <-? stage s epoch contents ;;
  let backup_path := path_join (rs_dir s) (backup_prefix epoch +:+ fmt_u64 generation) in
  or_drop staged (fs_validate_absent backup_path) (λ _,
  or_drop staged (fs_move_new (sg_path staged) backup_path) (λ _,
  _ <-? io (fs_sync_dir (rs_dir s)) ;;
  ret (Ok (mkBackup backup_path epoch)))).

(** [restore]. *)
Definition restore (s : RuntimeConfigStore) (b : RuntimeConfigBackup) :
    M W (result RuntimeConfigCommit Error) :=
  _ <-? fs_validate_existing (bk_path b) ;;
  contents <-? io (fs_read (bk_path b)) ;;
  store_replace s (bk_epoch b) contents.

(** [remove_backup]. *)
Definition remove_backup (b : RuntimeConfigBackup) : M W (result unit Error) :=
  fs_remove_regular (bk_path b).

(** [remove_socket_artifact] (Unix). *)
Definition remove_socket_artifact (path : string) : M W (result unit Error) :=
  r <- fs_symlink_metadata path ;;
  match r with
  | Ok md =>
      if md_is_symlink md || md_is_reparse_point md then ret (Err (UnsafeRuntimeArtifact path))
      else if negb (md_is_socket md) then ret (Err (UnsafeRuntimeArtifact path))
      else io (fs_remove_file path)
  | Err NotFound => ret (Ok tt)
  | Err e => ret (Err (io_error e))
  end.

(** The entries [cleanup_artifacts] removes besides the three fixed names. *)
Definition swept (n : Z) (name : string) : bool :=
  starts_with (backup_prefix n) name || starts_with (temp_prefix n) name
  || starts_with (pid_temp_prefix n) name.

(** The loop over the directory entries. *)
Fixpoint sweep (s : RuntimeConfigStore) (n : Z) (entries : list (option string)) : M W (result unit Error) :=
  match entries with
  | [] => ret (Ok tt)
  | None :: rest => sweep s n rest
  | Some name :: rest =>
      if swept n name then
        _ <-? fs_remove_regular (path_join (rs_dir s) name) ;;
        sweep s n rest
      else sweep s n rest
  end.

(** [cleanup_artifacts], which [cleanup_epoch] calls with the epoch's number. *)
Definition cleanup_artifacts (s : RuntimeConfigStore) (n : Z) : M W (result unit Error) :=
  _ <-? fs_remove_regular (runtime_path s n) ;;
  _ <-? fs_remove_regular (pid_path s n) ;;
  _ <-? remove_socket_artifact (socket_path s n) ;;
  entries <-? io (fs_read_dir (rs_dir s)) ;;
  _ <-? sweep s n entries ;;
  io (fs_sync_dir (rs_dir s)).
Definition cleanup_epoch (s : RuntimeConfigStore) (epoch : Epoch) : M W (result unit Error) :=
  cleanup_artifacts s epoch.

(** [Vec::dedup] of a sorted vector. *)
Fixpoint dedup (l : list Z) : list Z :=
  match l with
  | x :: ((y :: _) as l') => if (x =? y)%Z then dedup l' else x :: dedup l'
  | _ => l
  end.

(** [artifact_epochs]. *)
Definition artifact_epochs (s : RuntimeConfigStore) : M W (result (list Z) Error) :=
  entries <-? io (fs_read_dir (rs_dir s)) ;;
  ret (Ok (dedup (merge_sort Z.le (omap (λ name, name ≫= artifact_epoch) entries)))).
End store.

(** * What the store relies on *)

(** Laws in terms of [contents], the contents of the regular files: the
    inspecting operations change nothing; a creation, write or removal touches
    its own path; a move or replacement that reports success has carried the
    source's contents over, and one that reports an error has changed nothing
    (that is what makes it atomic). *)
Class RuntimeFsLaws (W : Type) {FS : RuntimeFs W} := {
  contents : W → string → option string;
  next_temp_ok w p : contents (fs_next_temp w).2 p = contents w p;
  validate_absent_ok q w p : contents (fs_validate_absent q w).2 p = contents w p;
  validate_existing_ok q w p : contents (fs_validate_existing q w).2 p = contents w p;
  create_new_ok q w p : p ≠ q → contents (fs_create_new q w).2 p = contents w p;
  create_new_err q w e p : (fs_create_new q w).1 = Err e → contents (fs_create_new q w).2 p = contents w p;
  set_mode_ok q z w p : contents (fs_set_mode q z w).2 p = contents w p;
  write_sync_ok q d w p : p ≠ q → contents (fs_write_sync q d w).2 p = contents w p;
  write_sync_written q d w u : (fs_write_sync q d w).1 = Ok u → contents (fs_write_sync q d w).2 q = Some d;
  read_ok q w p : contents (fs_read q w).2 p = contents w p;
  read_contents q w d : (fs_read q w).1 = Ok d → contents w q = Some d;
  remove_file_ok q w p : p ≠ q → contents (fs_remove_file q w).2 p = contents w p;
  remove_file_own q w : contents (fs_remove_file q w).2 q = contents w q ∨ contents (fs_remove_file q w).2 q = None;
  move_new_ok a b w p : p ≠ a → p ≠ b → contents (fs_move_new a b w).2 p = contents w p;
  move_new_moved a b w u : a ≠ b → (fs_move_new a b w).1 = Ok u → contents (fs_move_new a b w).2 b = contents w a;
  move_new_err a b w e p : (fs_move_new a b w).1 = Err e → contents (fs_move_new a b w).2 p = contents w p;
  replace_ok a b w p : p ≠ a → p ≠ b → contents (fs_replace a b w).2 p = contents w p;
  replace_moved a b w u : a ≠ b → (fs_replace a b w).1 = Ok u → contents (fs_replace a b w).2 b = contents w a;
  replace_err a b w e p : (fs_replace a b w).1 = Err e → contents (fs_replace a b w).2 p = contents w p;
  sync_dir_ok d w p : contents (fs_sync_dir d w).2 p = contents w p;
  remove_regular_ok q w p : p ≠ q → contents (fs_remove_regular q w).2 p = contents w p;
  remove_regular_gone q w u : (fs_remove_regular q w).1 = Ok u → contents (fs_remove_regular q w).2 q = None;
  remove_regular_own q w : contents (fs_remove_regular q w).2 q = contents w q ∨ contents (fs_remove_regular q w).2 q = None;
  symlink_metadata_ok q w p : contents (fs_symlink_metadata q w).2 p = contents w p;
  read_dir_ok q w p : contents (fs_read_dir q w).2 p = contents w p;
  read_dir_complete q w names name : (fs_read_dir q w).1 = Ok names → no_slash name = true →
    is_Some (contents w (path_join q name)) → Some name ∈ names;
}.

Section laws.
Context {W : Type} {FS : RuntimeFs W} {FL : RuntimeFsLaws W}.

(** ** Names *)
Lemma split_once_digits d c pat rest :
  string_forallb is_dec_digit d = true → is_dec_digit c = false →
  split_once (String c pat) (d +:+ String c pat +:+ rest) = Some (d, rest).
Proof.
  intros Hd Hc. induction d as [|x d IH].
  - change ("" +:+ String c pat +:+ rest) with (String c pat +:+ rest).
    unfold split_once. destruct (String c pat +:+ rest) eqn:E; rewrite <-E, strip_prefix_app; done.
  - simpl in Hd. apply andb_true_iff in Hd as [Hx Hd]. rewrite app_cons_str. cbn [split_once strip_prefix].
    destruct (Ascii.eqb_spec c x) as [->|]; [congruence|]. by rewrite (IH Hd).
Qed.

Fixpoint last_char (s : string) : option Ascii.ascii :=
  match s with
  | String.EmptyString => None
  | String.String c s' => match s' with String.EmptyString => Some c | _ => last_char s' end
  end.

Lemma last_char_app a b : b ≠ "" → last_char (a +:+ b) = last_char b.
Proof.
  intros Hb. induction a as [|x a IH]; [done|]. rewrite app_cons_str. cbn [last_char].
  destruct (a +:+ b) eqn:E; [|done]. destruct a, b; done.
Qed.

Lemma last_char_forallb f s c : string_forallb f s = true → last_char s = Some c → f c = true.
Proof.
  induction s as [|x s IH]; [done|]. cbn [string_forallb last_char]. intros [Hx Hs]%andb_true_iff.
  destruct s; [congruence|]. by apply IH.
Qed.

(** The bytes of process ids, counters and generations in artifact names. *)
Definition tail_char (c : Ascii.ascii) : bool := is_dec_digit c || Ascii.eqb c (Ascii.ascii_of_nat 45).

Lemma strip_suffix_tail suf a tail c :
  string_forallb tail_char tail = true → tail ≠ "" → last_char suf = Some c → tail_char c = false →
  strip_suffix suf (a +:+ tail) = None.
Proof.
  intros Ht Hne Hsuf Hc. destruct (strip_suffix suf (a +:+ tail)) as [b|] eqn:E; [|done].
  apply strip_suffix_Some in E. apply (f_equal last_char) in E.
  rewrite last_char_app in E by done. rewrite last_char_app in E by (by destruct suf).
  rewrite Hsuf in E. rewrite (last_char_forallb _ _ _ Ht E) in Hc. done.
Qed.

(** the sweep reads back the epoch of every artifact name the store
    writes: configuration, pid file, socket, backups and temporaries, for every
    number, zero included. *)
Theorem artifact_epoch_names (n : Z) (tail : string) :
  is_u64 n → string_forallb tail_char tail = true → tail ≠ "" →
  artifact_epoch (runtime_name n) = Some n
  ∧ artifact_epoch (pid_name n) = Some n
  ∧ artifact_epoch (socket_name n) = Some n
  ∧ artifact_epoch (backup_prefix n +:+ tail) = Some n
  ∧ artifact_epoch (temp_prefix n +:+ tail) = Some n
  ∧ artifact_epoch (pid_temp_prefix n +:+ tail) = Some n.
Proof.
  intros Hn Ht Hne. pose proof (parse_fmt_u64 n Hn) as Hp.
  assert (string_forallb is_dec_digit (fmt_u64 n) = true) as Hd by (apply fmt_u64_digits, Hn).
  unfold runtime_name, pid_name, socket_name, backup_prefix, temp_prefix, pid_temp_prefix, artifact_epoch.
  generalize dependent (fmt_u64 n). intros d Hp Hd. rewrite !app_assoc_str.
  assert (∀ suf mid, last_char suf ≠ None → (∀ c, last_char suf = Some c → tail_char c = false) →
    strip_suffix suf (d +:+ mid +:+ tail) = None) as Hss.
  { intros suf mid H1 H2. destruct (last_char suf) as [c|] eqn:E; [|done].
    rewrite <-app_assoc_str. by apply (strip_suffix_tail suf _ tail c); [..|apply H2]. }
  assert (∀ x, strip_suffix ".pid" (d +:+ ".sock") = Some x → False) as Hps.
  { intros x E%strip_suffix_Some. apply (f_equal last_char) in E. by rewrite !last_char_app in E. }
  assert (∀ x, strip_prefix "core-" ("config-" +:+ x) = None) as C1 by done.
  assert (∀ x, strip_prefix "core-" (".config-" +:+ x) = None) as C2 by done.
  assert (∀ x, strip_prefix "config-" ("core-" +:+ x) = None) as C3 by done.
  assert (∀ x, strip_prefix "config-" (".config-" +:+ x) = None) as C4 by done.
  assert (∀ x, strip_prefix ".config-" ("core-" +:+ x) = None) as C5 by done.
  assert (∀ x, strip_prefix ".config-" ("config-" +:+ x) = None) as C6 by done.
  assert (strip_suffix ".pid" (d +:+ ".sock") = None) as Hps'.
  { destruct (strip_suffix ".pid" (d +:+ ".sock")) as [x|]; [by destruct (Hps x)|done]. }
  split_and!; rewrite ?C1, ?C2, ?C3, ?C4, ?C5, ?C6, !strip_prefix_app; cbn [mbind option_bind or_else];
    repeat (rewrite ?Hps', ?strip_suffix_app, ?Hss by (try done; intros c [= <-]; done);
            cbn [or_else mbind option_bind]);
    rewrite ?split_once_digits by done; exact Hp.
Qed.

(** ** Contents *)

Implicit Types (g : string → option string).

(** The files of [w] are those of [g], except for the paths in [ps]. *)
Definition agree (ps : list string) g (w : W) : Prop := ∀ p, p ∉ ps → contents w p = g p.

Lemma agree_weaken ps qs g w : agree ps g w → (∀ p, p ∈ ps → p ∈ qs) → agree qs g w.
Proof. intros H Hs p Hp. apply H. naive_solver. Qed.

(** Operations that only look. *)
Lemma hoare_inert {A} (m : M W A) ps g :
  (∀ w p, contents (m w).2 p = contents w p) → hoare (agree ps g) m (λ _, agree ps g).
Proof. intros H w Hw p Hp. rewrite H. by apply Hw. Qed.

Lemma hoare_io {A} (m : M W (result A IoError)) P (Q : result A Error → W → Prop) :
  hoare P m (λ r, Q (res_map_err io_error r)) → hoare P (io m) Q.
Proof.
  intros H. unfold io. eapply hoare_bind; [exact H|]. intros r. by apply hoare_ret.
Qed.

Lemma hoare_or_drop {A B} st (m : M W (result A Error)) (k : A → M W (result B Error)) P R Q :
  hoare P m (λ r w, match r with Ok a => R a w | Err e => Q (Err e) (fs_remove_file (sg_path st) w).2 end) →
  (∀ a, hoare (R a) (k a) Q) → hoare P (or_drop st m k) Q.
Proof.
  intros Hm Hk. unfold or_drop. eapply hoare_bind; [exact Hm|]. intros [a|e]; [apply Hk|].
  intros w Hw. unfold drop_staged, bind, ret. destruct (fs_remove_file (sg_path st) w). exact Hw.
Qed.

Lemma agree_remove q ps g w : q ∈ ps → agree ps g w → agree ps g (fs_remove_file q w).2.
Proof. intros Hq H p Hp. rewrite remove_file_ok; [by apply H|]. by intros ->. Qed.

(** The temporaries of an epoch. *)
Definition is_temp (s : RuntimeConfigStore) (epoch : Z) (p : string) : Prop :=
  ∃ rest, p = path_join (rs_dir s) (temp_prefix epoch +:+ rest).

Lemma path_join_inj dir a b :
  is_absolute a = false → is_absolute b = false → path_join dir a = path_join dir b → a = b.
Proof.
  intros Ha Hb. unfold path_join. rewrite Ha, Hb. destruct (_ || _); intros H.
  - by apply (inj (String.append dir)) in H.
  - apply (inj (String.append dir)) in H. by apply (inj (String.append "/")) in H.
Qed.

Lemma temp_is_not_config s e p rest :
  is_temp s e p → p ≠ path_join (rs_dir s) ("config-" +:+ rest).
Proof.
  intros [r ->] H. apply path_join_inj in H; [done| |]; reflexivity.
Qed.

(** [stage]: the new temporary holds the contents, no other file changes. *)
Lemma stage_spec s e data g :
  hoare (agree [] g) (stage s e data)
    (λ r w, ∃ t, is_temp s e t ∧ agree [t] g w
       ∧ match r with Ok st => sg_path st = t ∧ contents w t = Some data | Err _ => True end).
Proof.
  unfold stage. eapply hoare_bind; [apply hoare_inert, next_temp_ok|]. intros c.
  set (t := path_join _ _). assert (is_temp s e t) as Ht by (eexists; reflexivity).
  assert (∀ w, agree [] g w → agree [t] g w) as Hw by (intros w H; eapply agree_weaken; [exact H|set_solver]).
  eapply hoare_bind_ok.
  { eapply hoare_post; [apply hoare_inert, validate_absent_ok|]. intros [u|err] w H; [exact H|].
    exists t. auto. }
  intros ?. eapply (hoare_bind_ok _ _ _ (λ _, agree [t] g)).
  { apply hoare_io. intros w H. assert (agree [t] g (fs_create_new t w).2) as H'.
    { intros p Hp. rewrite create_new_ok by set_solver. apply H. set_solver. }
    destruct ((fs_create_new t w).1); simpl; [done|]. exists t. auto. }
  intros ?. eapply (hoare_bind_ok _ _ _ (λ _, agree [t] g)).
  { apply hoare_io. eapply hoare_post; [apply hoare_inert; intros; apply set_mode_ok|].
    intros [u|err] w H; [done|]. exists t. auto. }
  intros ?. eapply (hoare_bind _ _ _ (λ r w, agree [t] g w ∧ ∀ u, r = Ok u → contents w t = Some data)).
  { intros w H. split; [|intros u Hu; by eapply write_sync_written].
    intros p Hp. rewrite write_sync_ok by set_solver. by apply H. }
  intros [u|err].
  - apply hoare_ret. intros w [H1 H2]. exists t. split_and!; eauto.
  - intros w [H _]. unfold bind, ret. destruct (fs_remove_file t w) as [r w'] eqn:E. exists t.
    split_and!; [done| |done]. replace w' with (fs_remove_file t w).2 by (by rewrite E).
    apply agree_remove; [set_solver|done].
Qed.

Lemma validate_staged_inert s st e ps g :
  hoare (agree ps g) (validate_staged s st e) (λ _, agree ps g).
Proof.
  unfold validate_staged. case_match; [by apply hoare_ret|]. apply hoare_inert, validate_existing_ok.
Qed.

(** Committing a staged file over an existing configuration. *)
Lemma commit_replace_spec s st e data g :
  is_temp s e (sg_path st) →
  hoare (λ w, agree [sg_path st] g w ∧ contents w (sg_path st) = Some data) (commit_replace s st e)
    (λ r w, agree [sg_path st; runtime_path s e] g w
       ∧ match r with
         | Ok _ => contents w (runtime_path s e) = Some data
         | Err _ => contents w (runtime_path s e) = g (runtime_path s e)
         end).
Proof.
  intros Ht. set (t := sg_path st) in *. set (tgt := runtime_path s e).
  assert (t ≠ tgt) as Hne by (by apply (temp_is_not_config s e)).
  assert (∀ w, agree [t] g w → agree [t; tgt] g (fs_remove_file t w).2
    ∧ contents (fs_remove_file t w).2 tgt = g tgt) as Hdrop.
  { intros w H. split.
    - eapply agree_weaken; [apply agree_remove; [|exact H]; set_solver|set_solver].
    - rewrite remove_file_ok by done. apply H. set_solver. }
  assert (∀ {A} (m : M W (result A Error)), (∀ w p, contents (m w).2 p = contents w p) →
    hoare (λ w, agree [t] g w ∧ contents w t = Some data) m
      (λ r w, match r with
              | Ok _ => agree [t] g w ∧ contents w t = Some data
              | Err _ => agree [t; tgt] g (fs_remove_file t w).2 ∧ contents (fs_remove_file t w).2 tgt = g tgt
              end)) as Hlook.
  { intros A m Hm w [H1 H2]. assert (agree [t] g (m w).2) as H3 by (by apply (hoare_inert m [t] g Hm w)).
    destruct ((m w).1); [by rewrite Hm|by apply Hdrop]. }
  unfold commit_replace. eapply (hoare_or_drop st _ _ _ (λ _ w, agree [t] g w ∧ contents w t = Some data)).
  { apply Hlook. intros w p. unfold validate_staged. case_match; [done|]. apply validate_existing_ok. }
  intros ?. eapply (hoare_or_drop st _ _ _ (λ _ w, agree [t] g w ∧ contents w t = Some data)).
  { apply Hlook. intros w p. apply validate_existing_ok. }
  intros ?. eapply (hoare_or_drop st _ _ _ (λ _ w, agree [t; tgt] g w ∧ contents w tgt = Some data)).
  { fold tgt t. intros w [H1 H2]. destruct ((fs_replace t tgt w).1) as [u|err] eqn:E.
    - split; [|by rewrite (replace_moved _ _ _ u Hne E)].
      intros p Hp. rewrite replace_ok by set_solver. apply H1. set_solver.
    - apply Hdrop. intros p Hp. rewrite (replace_err _ _ _ _ _ E). by apply H1. }
  intros ?. eapply (hoare_bind _ _ _ (λ _ w, agree [t; tgt] g w ∧ contents w tgt = Some data)).
  { intros w [H1 H2]. split; [|by rewrite sync_dir_ok]. intros p Hp. rewrite sync_dir_ok. by apply H1. }
  intros r. by apply hoare_ret.
Qed.

(** [replace] is atomic on the stable file. *)
Lemma store_replace_spec s e data g :
  hoare (agree [] g) (store_replace s e data)
    (λ r w, ∃ t, is_temp s e t ∧ agree [t; runtime_path s e] g w
       ∧ match r with
         | Ok _ => contents w (runtime_path s e) = Some data
         | Err _ => contents w (runtime_path s e) = g (runtime_path s e)
         end).
Proof.
  unfold store_replace.
  eapply (hoare_bind_ok _ _ _ (λ st w, is_temp s e (sg_path st) ∧ agree [sg_path st] g w
                                      ∧ contents w (sg_path st) = Some data)).
  { eapply hoare_post; [apply stage_spec|]. intros [st|err] w (t & Ht & Ha & H).
    - destruct H as [<- H]. done.
    - exists t. split_and!; [done|eapply agree_weaken; [exact Ha|set_solver]|].
      apply Ha. rewrite list_elem_of_singleton. intros E. by eapply temp_is_not_config; [|symmetry; exact E]. }
  intros st w (Ht & Ha & Hc). exists (sg_path st).
  destruct (commit_replace_spec s st e data g Ht w) as [H1 H2]; [done|]. done.
Qed.

Lemma runtime_not_temp s e e' t : is_temp s e t → t ≠ runtime_path s e'.
Proof. intros H. by apply (temp_is_not_config s e). Qed.

Lemma backup_not_temp s e t b : is_temp s e t → t ≠ path_join (rs_dir s) (backup_prefix e +:+ b).
Proof. intros H. unfold backup_prefix. rewrite !app_assoc_str. by apply (temp_is_not_config s e). Qed.

(** [backup]: on success the backup file holds the configuration, and the
    stable file is untouched either way. *)
Lemma backup_spec s e gen g :
  hoare (agree [] g) (backup s e gen)
    (λ r w, match r with
            | Ok b => bk_epoch b = e ∧ is_Some (g (runtime_path s e))
                      ∧ contents w (bk_path b) = g (runtime_path s e)
            | Err _ => True
            end).
Proof.
  unfold backup. set (tgt := runtime_path s e). set (bp := path_join _ _).
  eapply hoare_bind_ok.
  { eapply hoare_post; [apply hoare_inert, validate_existing_ok|]. intros [u|err] w H; [exact H|done]. }
  intros ?. eapply (hoare_bind_ok _ _ _ (λ d w, agree [] g w ∧ g tgt = Some d)).
  { apply hoare_io. intros w H. destruct ((fs_read tgt w).1) as [d|] eqn:E; simpl; [|done]. split.
    - intros p Hp. rewrite read_ok. by apply H.
    - apply read_contents in E. rewrite <-E. symmetry. apply H, not_elem_of_nil. }
  intros d w [H Hd]. revert w H. change (hoare (agree [] g) (staged <-? stage s e d ;;
    or_drop staged (fs_validate_absent bp) (λ _, or_drop staged (fs_move_new (sg_path staged) bp) (λ _,
      _ <-? io (fs_sync_dir (rs_dir s)) ;; ret (Ok (mkBackup bp e)))))
    (λ r w, match r with
            | Ok b => bk_epoch b = e ∧ is_Some (g tgt) ∧ contents w (bk_path b) = g tgt
            | Err _ => True end)).
  eapply (hoare_bind_ok _ _ _ (λ st w, is_temp s e (sg_path st) ∧ contents w (sg_path st) = Some d)).
  { eapply hoare_post; [apply stage_spec|]. intros [st|err] w (t & Ht & _ & H); [|done]. by destruct H as [<- H]. }
  intros st. eapply (hoare_or_drop st _ _ _ (λ _ w, is_temp s e (sg_path st) ∧ contents w (sg_path st) = Some d)).
  { intros w [H1 H2]. destruct ((fs_validate_absent bp w).1); [|done]. by rewrite validate_absent_ok. }
  intros ?. eapply (hoare_or_drop st _ _ _ (λ _ w, contents w bp = Some d)).
  { intros w [H1 H2]. destruct ((fs_move_new (sg_path st) bp w).1) as [u|] eqn:E; [|done].
    rewrite <-H2. eapply move_new_moved; [|exact E]. by apply backup_not_temp. }
  intros ?. eapply (hoare_bind_ok _ _ _ (λ _ w, contents w bp = Some d)).
  { apply hoare_io. intros w H. destruct ((fs_sync_dir (rs_dir s) w).1); simpl; [|done]. by rewrite sync_dir_ok. }
  intros ?. apply hoare_ret. intros w H. simpl. rewrite Hd. split_and!; [done|by eexists|done].
Qed.

(** C24: replacing an epoch's configuration is atomic. Whatever fails on the
    way, the stable file afterwards holds either exactly the new contents (and
    the operation reports success) or exactly what it held before (and it
    reports an error), and no other file but one temporary of that epoch is
    touched. *)
Theorem replace_atomic (s : RuntimeConfigStore) (e : Epoch) (data : string) (w : W) :
  let '(r, w') := store_replace s e data w in
  (match r with
   | Ok _ => contents w' (runtime_path s e) = Some data
   | Err _ => contents w' (runtime_path s e) = contents w (runtime_path s e)
   end)
  ∧ ∃ t, is_temp s e t ∧ ∀ p, p ≠ t → p ≠ runtime_path s e → contents w' p = contents w p.
Proof.
  pose proof (store_replace_spec s e data (contents w) w) as H.
  destruct (store_replace s e data w) as [r w']. destruct H as (t & Ht & Ha & Hr); [done|].
  split; [by destruct r|]. exists t. split; [done|]. intros p H1 H2. apply Ha. set_solver.
Qed.

(** a backup restores the configuration it was taken from. If [backup]
    succeeded, and the backup file was not disturbed since, a successful
    [restore] gives the stable file the contents it had when the backup was
    taken, whatever was written to it in between; a failed one leaves the
    stable file as it is. *)
Theorem backup_restore (s : RuntimeConfigStore) (e : Epoch) (gen : Z) (w w1 w2 : W) (b : RuntimeConfigBackup) :
  backup s e gen w = (Ok b, w1) →
  contents w2 (bk_path b) = contents w1 (bk_path b) →
  contents (restore s b w2).2 (runtime_path s e)
  = match (restore s b w2).1 with
    | Ok _ => contents w (runtime_path s e)
    | Err _ => contents w2 (runtime_path s e)
    end.
Proof.
  intros Hb Hkeep. pose proof (backup_spec s e gen (contents w) w ltac:(by intros p _)) as Hs.
  rewrite Hb in Hs. simpl in Hs. destruct Hs as (He & _ & Hc). rewrite Hc in Hkeep.
  assert (hoare (agree [] (contents w2)) (restore s b)
    (λ r w, contents w (runtime_path s e)
            = match r with
              | Ok _ => contents w2 (bk_path b)
              | Err _ => contents w2 (runtime_path s e)
              end)) as Hr.
  { unfold restore. eapply hoare_bind_ok.
    { eapply hoare_post; [apply hoare_inert, validate_existing_ok|]. intros [u|err] v H; [exact H|].
      apply H, not_elem_of_nil. }
    intros ?. eapply (hoare_bind_ok _ _ _ (λ d v, agree [] (contents w2) v ∧ contents w2 (bk_path b) = Some d)).
    { apply hoare_io. intros v H. assert (agree [] (contents w2) (fs_read (bk_path b) v).2) as H'.
      { intros p Hp. rewrite read_ok. by apply H. }
      destruct ((fs_read (bk_path b) v).1) as [d|] eqn:E; simpl; [|apply H', not_elem_of_nil]. split; [done|].
      apply read_contents in E. rewrite <-E. symmetry. apply H, not_elem_of_nil. }
    intros d v [H Hd]. rewrite He.
    destruct (store_replace_spec s e d (contents w2) v H) as (t & _ & _ & Hres).
    destruct ((store_replace s e d v).1); [congruence|done]. }
  specialize (Hr w2 ltac:(by intros p _)). rewrite Hr. by destruct ((restore s b w2).1).
Qed.

(** ** The sweep *)

(** An operation after which an absent file is still absent. *)
Definition keeps_absent {A} (m : M W A) : Prop :=
  ∀ w p, contents w p = None → contents (m w).2 p = None.

Lemma keeps_absent_bind {A B} (m : M W A) (k : A → M W B) :
  keeps_absent m → (∀ a, keeps_absent (k a)) → keeps_absent (bind m k).
Proof.
  intros Hm Hk w p H. unfold bind. destruct (m w) as [a w'] eqn:E. apply Hk.
  replace w' with (m w).2 by (by rewrite E). by apply Hm.
Qed.

Lemma keeps_absent_bind_ok {A B E} (m : M W (result A E)) (k : A → M W (result B E)) :
  keeps_absent m → (∀ a, keeps_absent (k a)) → keeps_absent (bind_ok m k).
Proof. intros Hm Hk. apply keeps_absent_bind; [done|]. intros [a|e]; [done|]. by intros w p. Qed.

Lemma keeps_absent_io {A} (m : M W (result A IoError)) : keeps_absent m → keeps_absent (io m).
Proof. intros H. apply keeps_absent_bind; [done|]. by intros r w p. Qed.

Lemma keeps_absent_remove_regular q : keeps_absent (fs_remove_regular q).
Proof.
  intros w p H. destruct (decide (p = q)) as [->|Hne]; [|by rewrite remove_regular_ok].
  destruct (remove_regular_own q w); congruence.
Qed.

Lemma keeps_absent_remove_file q : keeps_absent (fs_remove_file q).
Proof.
  intros w p H. destruct (decide (p = q)) as [->|Hne]; [|by rewrite remove_file_ok].
  destruct (remove_file_own q w); congruence.
Qed.

Lemma keeps_absent_sweep s n entries : keeps_absent (sweep s n entries).
Proof.
  induction entries as [|[name|] entries IH]; cbn [sweep]; [by intros w p| |done].
  case_match; [|done]. apply keeps_absent_bind_ok; [apply keeps_absent_remove_regular|done].
Qed.

Lemma keeps_absent_socket path : keeps_absent (remove_socket_artifact path).
Proof.
  apply keeps_absent_bind; [intros w p H; by rewrite symlink_metadata_ok|].
  intros [md|[]]; try by intros w p. repeat case_match; try by intros w p.
  apply keeps_absent_io, keeps_absent_remove_file.
Qed.

(** A successful sweep has removed every entry it matches. *)
Lemma sweep_removes s n entries w u name :
  (sweep s n entries w).1 = Ok u → Some name ∈ entries → swept n name = true →
  contents (sweep s n entries w).2 (path_join (rs_dir s) name) = None.
Proof.
  revert w. induction entries as [|[x|] entries IH]; intros w Hok Hin Hs; cbn [sweep] in *.
  - by apply elem_of_nil in Hin.
  - apply elem_of_cons in Hin as [[= <-]|Hin].
    + rewrite Hs in Hok |- *. unfold bind_ok, bind in Hok |- *.
      destruct (fs_remove_regular _ w) as [[[]|e] w1] eqn:E; [|done].
      apply keeps_absent_sweep. replace w1 with (fs_remove_regular (path_join (rs_dir s) name) w).2
        by (by rewrite E). eapply remove_regular_gone. by rewrite E.
    + destruct (swept n x); [|by apply IH]. unfold bind_ok, bind in Hok |- *.
      destruct (fs_remove_regular _ w) as [[[]|e] w1]; [|done]. by apply IH.
  - apply elem_of_cons in Hin as [?|Hin]; [done|]. by apply IH.
Qed.

(** What [cleanup_artifacts] is to remove, by name. *)
Definition artifact_of (n : Z) (name : string) : Prop :=
  name = runtime_name n ∨ name = pid_name n ∨ swept n name = true.

(** when [cleanup_artifacts] reports success no regular file of that epoch
    is left in the runtime directory: not the configuration, not the pid file,
    no backup and no temporary. *)
Theorem cleanup_complete (s : RuntimeConfigStore) (n : Z) (w w' : W) (u : unit) (name : string) :
  cleanup_artifacts s n w = (Ok u, w') → artifact_of n name → no_slash name = true →
  contents w' (path_join (rs_dir s) name) = None.
Proof.
  unfold cleanup_artifacts. intros H Hname Hslash. unfold bind_ok, bind at 1 in H.
  destruct (fs_remove_regular (runtime_path s n) w) as [[[]|e] w1] eqn:E1; [|done].
  unfold bind at 1 in H. destruct (fs_remove_regular (pid_path s n) w1) as [[[]|e] w2] eqn:E2; [|done].
  unfold bind at 1 in H. destruct (remove_socket_artifact (socket_path s n) w2) as [[[]|e] w3] eqn:E3; [|done].
  unfold bind at 1 in H. destruct (io (fs_read_dir (rs_dir s)) w3) as [[entries|e] w4] eqn:E4; [|done].
  unfold bind at 1 in H. destruct (sweep s n entries w4) as [[[]|e] w5] eqn:E5; [|done].
  assert (∀ p, contents w4 p = contents w3 p) as H43.
  { intros p. revert E4. unfold io, bind, ret. destruct (fs_read_dir (rs_dir s) w3) as [r v] eqn:E.
    intros [= _ <-]. rewrite <-(read_dir_ok (rs_dir s) w3 p). by rewrite E. }
  assert (∀ p, contents w4 p = None → contents w' p = None) as Hlast.
  { intros p Hp. replace w' with (io (fs_sync_dir (rs_dir s)) w5).2 by (by rewrite H).
    apply keeps_absent_io; [intros v q Hq; by rewrite sync_dir_ok|].
    replace w5 with (sweep s n entries w4).2 by (by rewrite E5). by apply keeps_absent_sweep. }
  assert (∀ p, contents w2 p = None → contents w' p = None) as Hmid.
  { intros p Hp. apply Hlast. rewrite H43. replace w3 with (remove_socket_artifact (socket_path s n) w2).2
      by (by rewrite E3). by apply keeps_absent_socket. }
  destruct Hname as [->|[->|Hs]].
  - apply Hmid. replace w2 with (fs_remove_regular (pid_path s n) w1).2 by (by rewrite E2).
    apply keeps_absent_remove_regular. replace w1 with (fs_remove_regular (runtime_path s n) w).2 by (by rewrite E1).
    apply (remove_regular_gone _ _ ()). by rewrite E1.
  - apply Hmid. replace w2 with (fs_remove_regular (pid_path s n) w1).2 by (by rewrite E2).
    apply (remove_regular_gone _ _ ()). by rewrite E2.
  - destruct (contents w4 (path_join (rs_dir s) name)) as [c|] eqn:Ec; [|by apply Hlast].
    assert (Some name ∈ entries) as Hin.
    { revert E4. unfold io, bind, ret. destruct (fs_read_dir (rs_dir s) w3) as [[l|] v] eqn:E; [|done].
      intros [= <- <-]. apply (read_dir_complete (rs_dir s) w3); [by rewrite E|done|].
      rewrite <-H43, Ec. by eexists. }
    replace w' with (io (fs_sync_dir (rs_dir s)) w5).2 by (by rewrite H).
    apply keeps_absent_io; [intros v q Hq; by rewrite sync_dir_ok|].
    replace w5 with (sweep s n entries w4).2 by (by rewrite E5).
    eapply sweep_removes; [by rewrite E5|done|done].
Qed.
End laws.

(** ** A disk on which nothing fails but missing files, with the directory [/run] *)

Record Disk := mkDisk { dk_files : gmap string string; dk_temp : Z }.

Definition with_files (f : gmap string string → gmap string string) (d : Disk) : Disk :=
  mkDisk (f (dk_files d)) (dk_temp d).

Definition disk_move (a b : string) (d : Disk) : Disk :=
  match dk_files d !! a with
  | Some c => with_files (λ m, <[b:=c]> (delete a m)) d
  | None => with_files (delete b) d
  end.

Definition dir_names (q : string) (d : Disk) : list (option string) :=
  flat_map (λ p, [strip_prefix q p; strip_prefix (q +:+ "/") p; Some p]) (map_to_list (dk_files d)).*1.

Definition disk_fs : RuntimeFs Disk := {|
  fs_process_id := 4242;
  fs_next_temp d := (dk_temp d, mkDisk (dk_files d) (dk_temp d + 1));
  fs_validate_absent p d :=
    (if bool_decide (is_Some (dk_files d !! p)) then Err (UnsafeRuntimeArtifact p) else Ok (), d);
  fs_validate_existing p d :=
    (if bool_decide (is_Some (dk_files d !! p)) then Ok () else Err (UnsafeRuntimeArtifact p), d);
  fs_create_new p d := (Ok (), with_files (<[p:=""]>) d);
  fs_set_mode p z d := (Ok (), d);
  fs_write_sync p c d := (Ok (), with_files (<[p:=c]>) d);
  fs_read p d := (match dk_files d !! p with Some c => Ok c | None => Err NotFound end, d);
  fs_remove_file p d := (Ok (), with_files (delete p) d);
  fs_move_new a b d := (Ok (), disk_move a b d);
  fs_replace a b d := (Ok (), disk_move a b d);
  fs_sync_dir p d := (Ok (), d);
  fs_remove_regular p d := (Ok (), with_files (delete p) d);
  fs_symlink_metadata p d :=
    (if String.eqb p "/run" then Ok (mkMetadata false true false false) else Err NotFound, d);
  fs_read_dir q d := (Ok (dir_names q d), d);
  fs_create_dir_all p d := (Ok (), d);
  fs_canonicalize p d := (Ok (Some p), d);
  fs_lock_dir p d := (Ok (), d);
|}.

#[local] Existing Instance disk_fs.

Lemma disk_move_other a b d p :
  p ≠ a → p ≠ b → dk_files (disk_move a b d) !! p = dk_files d !! p.
Proof.
  intros. unfold disk_move. case_match; simpl.
  - by rewrite lookup_insert_ne, lookup_delete_ne by done.
  - by rewrite lookup_delete_ne by done.
Qed.

Lemma disk_move_target a b d : a ≠ b → dk_files (disk_move a b d) !! b = dk_files d !! a.
Proof.
  intros. unfold disk_move. destruct (dk_files d !! a) eqn:E; simpl.
  - by rewrite lookup_insert_eq.
  - by rewrite lookup_delete_eq.
Qed.

Lemma dir_names_complete q d name :
  is_Some (dk_files d !! path_join q name) → Some name ∈ dir_names q d.
Proof.
  intros [c Hc]. unfold dir_names. rewrite list_elem_of_In, in_flat_map.
  exists (path_join q name). split.
  - rewrite <-list_elem_of_In. apply list_elem_of_fmap. exists (path_join q name, c).
    split; [done|]. by apply elem_of_map_to_list.
  - rewrite <-list_elem_of_In. unfold path_join. destruct (is_absolute name).
    + set_solver.
    + destruct (_ || _).
      * rewrite strip_prefix_app. set_solver.
      * rewrite <-app_assoc_str, (strip_prefix_app (q +:+ "/")). set_solver.
Qed.

#[local] Instance disk_fs_laws : RuntimeFsLaws Disk.
Proof.
  refine {| contents d p := dk_files d !! p |}; simpl; intros; try done;
    rewrite ?lookup_insert_eq, ?lookup_delete_eq, ?lookup_insert_ne, ?lookup_delete_ne by done;
    try done; try (by right); auto using disk_move_other, disk_move_target.
  - by case_match; simplify_eq.
  - simplify_eq. by apply dir_names_complete.
Defined.

Module store_demo.
Definition store : RuntimeConfigStore := mkStore "/run".
Definition disk : Disk := mkDisk {[ "/run/config-7.yaml" := "old"; "/run/core-7.pid" := "12" ]} 0.
End store_demo.

Lemma artifact_epoch_names_witness : artifact_epoch (backup_prefix 7 +:+ "3") = Some 7%Z.
Proof.
  apply (artifact_epoch_names 7 "3"); [unfold is_u64, u64_max; lia|reflexivity|done].
Defined.

Lemma backup_restore_witness :
  ∃ b w1, backup store_demo.store 7 3 store_demo.disk = (Ok b, w1)
    ∧ let w2 := (store_replace store_demo.store 7 "new" w1).2 in
      contents w2 (runtime_path store_demo.store 7) = Some "new"
      ∧ contents (restore store_demo.store b w2).2 (runtime_path store_demo.store 7) = Some "old".
Proof.
  eexists _, _. split; [vm_compute; reflexivity|]. split; [vm_compute; reflexivity|].
  etransitivity; [eapply (backup_restore store_demo.store 7 3 store_demo.disk);
                  [vm_compute; reflexivity|vm_compute; reflexivity]|].
  vm_compute. reflexivity.
Defined.

Lemma cleanup_complete_witness :
  ∃ w', cleanup_artifacts store_demo.store 7 store_demo.disk = (Ok (), w')
    ∧ contents w' (path_join "/run" (runtime_name 7)) = None.
Proof.
  eexists. split; [vm_compute; reflexivity|].
  apply (cleanup_complete store_demo.store 7 store_demo.disk _ () (runtime_name 7));
    [vm_compute; reflexivity|by left|reflexivity].
Defined.
