(* ===== verification/Runtime.v ===== *)
(** What the orchestrator asks of the outside (runtime/mod.rs, dns.rs, the
    controller client of clash-api, and the host): the runtime backend and its
    instances, the controller API, the host DNS component, pid-file reaping,
    clocks and deadlines.

    [Env] lists the operations over a world [W].  [EnvLaws] states what the
    orchestrator relies on, in terms of [alive]: which launched instances may
    still have a process.  They are the documented contracts of
    [RuntimeBackend] and [RuntimeInstance]: a launch brings up at most the
    requested runtime, [stop_and_confirm_dead] answers [Ok] only with a proof
    of death and [StopUnconfirmed] otherwise, and reaping an epoch's pid record
    proves the death of that epoch's process. *)
From S2P Require Import Prelude Text Paths Metadata Types Health Yaml Diff Mihomo Config Capability RuntimeStore.
From Stdlib Require String.
From Stdlib Require Import ZArith Lia.

(** * Data *)

(** [RuntimeLaunchRequest], less its log channel. *)
Record RuntimeLaunchRequest `{ProcessLib} := mkLaunch {
  lr_capabilities : list Feature;
  lr_effective_spec : InstanceSpec;
  lr_epoch : Epoch;
  lr_controller : ResolvedController;
}.

Record DnsIntent := mkIntent { di_servers : list string }.

Inductive DnsOverrideState := DApplied | DRestorePending.

Record DnsOverrideRecord := mkDnsRecord {
  dr_interface : string;
  dr_previous : list string;
  dr_applied : list string;
  dr_runtime_epoch : Z;
  dr_owner_generation : option Z;
  dr_state : DnsOverrideState;
}.

#[export] Instance DnsOverrideState_eq_dec : EqDecision DnsOverrideState.
Proof. solve_decision. Defined.
#[export] Instance DnsOverrideRecord_eq_dec : EqDecision DnsOverrideRecord.
Proof. solve_decision. Defined.

Inductive OrphanReapOutcome := AlreadyExited | Killed | ReapNotFound.

(** * Operations *)

Class Env {PL : ProcessLib} {YF : YamlFloat} {PC : PatchCodec} (W : Type) := {
  (* The backend and its instances. *)
  Instance_ : Type;
  inst_epoch : Instance_ → Epoch;
  inst_controller : Instance_ → ResolvedController;
  (** [instance.state().borrow()]. *)
  inst_status : Instance_ → W → InstanceStatus;
  inst_pid : Instance_ → W → option Z;
  backend_launch : RuntimeLaunchRequest → M W (result Instance_ Error);
  backend_check_config : InstanceSpec → M W (result unit Error);
  wait_ready : Instance_ → M W (result unit Error);
  probe_now : Instance_ → ProbePhase → M W ProbeResult;
  stop_and_confirm_dead : Instance_ → Z → M W (result unit Error);

  (* The controller API. *)
  Client : Type;
  build_control_client : ResolvedController → Z → result Client string;
  client_patch_config : Client → ConfigPatch → M W (result unit string);
  client_configs : Client → M W (result RuntimeConfig string);
  (** [update_config] of the given path with [force: true]. *)
  client_update_config : Client → string → M W (result unit string);

  (* Host DNS. *)
  dns_desired : Mapping → option DnsIntent;
  dns_apply : DnsIntent → Epoch → M W (result DnsOverrideRecord string);
  dns_restore_host : DnsOverrideRecord → M W (result unit string);
  dns_record_to_json : DnsOverrideRecord → result string string;
  dns_record_from_json : string → result DnsOverrideRecord string;

  (* The host. *)
  now_ms : M W Z;
  file_present : string → M W bool;
  try_exists : string → M W (result bool IoError);
  canon_view : W → Canonicalize;
  (** [File::create], [write_all], [flush] and [sync_all]. *)
  write_file_sync : string → string → M W (result unit IoError);
  reap_epoch_pid_file : string → string → M W (result OrphanReapOutcome string);
  (** [tokio::time::timeout]: the operation's answer, or nothing when the
      deadline passed first and the operation was dropped part-way. *)
  timeout : ∀ {A}, Z → M W A → M W (option A);
  (** Finalize the log archive. *)
  sink_shutdown : M W unit;
}.

Arguments RuntimeLaunchRequest {_}.

(** * Laws *)

Section laws.
Context {PL : ProcessLib} {YF : YamlFloat} {PC : PatchCodec}.
Context {W : Type} {EN : Env W} {FS : RuntimeFs W} {BH : BinaryHost W}.

(** An operation that brings up no process. *)
Definition quiesces (alive : W → Instance_ → Prop) {A} (m : M W A) : Prop :=
  ∀ w i, alive (m w).2 i → alive w i.
End laws.

Class EnvLaws {PL : ProcessLib} {YF : YamlFloat} {PC : PatchCodec} (W : Type)
    {EN : Env W} {FS : RuntimeFs W} {BH : BinaryHost W} := {
  alive : W → Instance_ → Prop;
  (** [launch]: an error brought nothing up; success brought up the returned
      instance, which reports the request it was launched from. *)
  launch_err r w e : (backend_launch r w).1 = Err e → ∀ i, alive (backend_launch r w).2 i → alive w i;
  launch_ok r w x : (backend_launch r w).1 = Ok x →
    inst_epoch x = lr_epoch r ∧ inst_controller x = lr_controller r
    ∧ ∀ i, alive (backend_launch r w).2 i → alive w i ∨ i = x;
  (** [stop_and_confirm_dead]. *)
  stop_quiesces x t : quiesces alive (stop_and_confirm_dead x t);
  stop_proves x t w u : (stop_and_confirm_dead x t w).1 = Ok u →
    ¬ alive (stop_and_confirm_dead x t w).2 x;
  stop_honest x t w e : (stop_and_confirm_dead x t w).1 = Err e → is_stop_unconfirmed e = true;
  (** Reaping an epoch's pid record. *)
  reap_quiesces p d : quiesces alive (reap_epoch_pid_file p d);
  reap_proves (s : RuntimeConfigStore) e w o :
    (reap_epoch_pid_file (pid_path s e) (rs_dir s) w).1 = Ok o → o ≠ ReapNotFound →
    ∀ i, inst_epoch i = e → ¬ alive (reap_epoch_pid_file (pid_path s e) (rs_dir s) w).2 i;
  (** Nothing else starts a core. *)
  timeout_quiesces {A} t (m : M W A) : quiesces alive m → quiesces alive (timeout t m);
  wait_ready_quiesces x : quiesces alive (wait_ready x);
  probe_now_quiesces x p : quiesces alive (probe_now x p);
  check_config_quiesces s : quiesces alive (backend_check_config s);
  patch_config_quiesces c p : quiesces alive (client_patch_config c p);
  configs_quiesces c : quiesces alive (client_configs c);
  update_config_quiesces c p : quiesces alive (client_update_config c p);
  dns_apply_quiesces i e : quiesces alive (dns_apply i e);
  dns_restore_quiesces r : quiesces alive (dns_restore_host r);
  now_ms_quiesces : quiesces alive now_ms;
  file_present_quiesces p : quiesces alive (file_present p);
  try_exists_quiesces p : quiesces alive (try_exists p);
  write_file_quiesces p c : quiesces alive (write_file_sync p c);
  sink_shutdown_quiesces : quiesces alive sink_shutdown;
  bin_modified_quiesces p : quiesces alive (bin_modified p);
  bin_version_quiesces p : quiesces alive (bin_version_output p);
  next_temp_quiesces : quiesces alive fs_next_temp;
  validate_absent_quiesces p : quiesces alive (fs_validate_absent p);
  validate_existing_quiesces p : quiesces alive (fs_validate_existing p);
  create_new_quiesces p : quiesces alive (fs_create_new p);
  set_mode_quiesces p z : quiesces alive (fs_set_mode p z);
  write_sync_quiesces p c : quiesces alive (fs_write_sync p c);
  read_quiesces p : quiesces alive (fs_read p);
  remove_file_quiesces p : quiesces alive (fs_remove_file p);
  move_new_quiesces p q : quiesces alive (fs_move_new p q);
  replace_quiesces p q : quiesces alive (fs_replace p q);
  sync_dir_quiesces p : quiesces alive (fs_sync_dir p);
  remove_regular_quiesces p : quiesces alive (fs_remove_regular p);
  symlink_metadata_quiesces p : quiesces alive (fs_symlink_metadata p);
  read_dir_quiesces p : quiesces alive (fs_read_dir p);
}.

(** * Derived operations bring up nothing either *)

Create HintDb quiet.

Section quiet.
Context {PL : ProcessLib} {YF : YamlFloat} {PC : PatchCodec}.
Context {W : Type} {EN : Env W} {FS : RuntimeFs W} {BH : BinaryHost W} {EL : EnvLaws W}.

Lemma quiesces_ret {A} (a : A) : quiesces alive (ret a).
Proof. by intros w i. Qed.

Lemma quiesces_bind {A B} (m : M W A) (k : A → M W B) :
  quiesces alive m → (∀ a, quiesces alive (k a)) → quiesces alive (bind m k).
Proof.
  intros Hm Hk w i. unfold bind. destruct (m w) as [a w'] eqn:E. intros H%Hk.
  apply Hm. by rewrite E.
Qed.

Lemma quiesces_bind_ok {A B E} (m : M W (result A E)) (k : A → M W (result B E)) :
  quiesces alive m → (∀ a, quiesces alive (k a)) → quiesces alive (bind_ok m k).
Proof. intros Hm Hk. apply quiesces_bind; [done|]. intros [a|e]; [done|apply quiesces_ret]. Qed.

Lemma quiesces_io {A} (m : M W (result A IoError)) : quiesces alive m → quiesces alive (io m).
Proof. intros Hm. apply quiesces_bind; [done|]. intros r. apply quiesces_ret. Qed.

Lemma quiesces_or_drop {A B} st (m : M W (result A Error)) (k : A → M W (result B Error)) :
  quiesces alive m → (∀ a, quiesces alive (k a)) → quiesces alive (or_drop st m k).
Proof.
  intros Hm Hk. apply quiesces_bind; [done|]. intros [a|e]; [done|].
  apply quiesces_bind; [|intros; apply quiesces_ret].
  apply quiesces_bind; [apply remove_file_quiesces|intros; apply quiesces_ret].
Qed.
End quiet.

#[export] Hint Resolve quiesces_ret quiesces_io stop_quiesces reap_quiesces
  timeout_quiesces wait_ready_quiesces probe_now_quiesces check_config_quiesces
  patch_config_quiesces configs_quiesces update_config_quiesces dns_apply_quiesces
  dns_restore_quiesces now_ms_quiesces file_present_quiesces try_exists_quiesces
  write_file_quiesces sink_shutdown_quiesces bin_modified_quiesces bin_version_quiesces
  next_temp_quiesces validate_absent_quiesces validate_existing_quiesces create_new_quiesces
  set_mode_quiesces write_sync_quiesces read_quiesces remove_file_quiesces move_new_quiesces
  replace_quiesces sync_dir_quiesces remove_regular_quiesces symlink_metadata_quiesces
  read_dir_quiesces : quiet.

(** Show that a composed operation brings up nothing. *)
Ltac quiesce :=
  repeat match goal with
  | |- quiesces alive (match ?x with _ => _ end) => destruct x
  | |- quiesces alive (bind_ok _ _) => apply quiesces_bind_ok; [|intros ?]
  | |- quiesces alive (or_drop _ _ _) => apply quiesces_or_drop; [|intros ?]
  | |- quiesces alive (bind _ _) => apply quiesces_bind; [|intros ?]
  | |- quiesces alive (io _) => apply quiesces_io
  | |- quiesces alive _ => solve [eauto with quiet]
  end.

Section store_quiet.
Context {PL : ProcessLib} {YF : YamlFloat} {PC : PatchCodec}.
Context {W : Type} {EN : Env W} {FS : RuntimeFs W} {BH : BinaryHost W} {EL : EnvLaws W}.

Lemma stage_quiesces s e c : quiesces alive (stage s e c).
Proof. unfold stage. quiesce. Qed.

Lemma drop_staged_quiesces st : quiesces alive (drop_staged st).
Proof. unfold drop_staged. quiesce. Qed.

Lemma validate_staged_quiesces s st e : quiesces alive (validate_staged s st e).
Proof. unfold validate_staged. quiesce. Qed.

Lemma commit_new_quiesces s st e : quiesces alive (commit_new s st e).
Proof. unfold commit_new. quiesce; try apply validate_staged_quiesces. Qed.

Lemma commit_replace_quiesces s st e : quiesces alive (commit_replace s st e).
Proof. unfold commit_replace. quiesce; try apply validate_staged_quiesces. Qed.

Lemma backup_quiesces s e g : quiesces alive (backup s e g).
Proof. unfold backup. quiesce; try apply stage_quiesces. Qed.

Lemma restore_quiesces s b : quiesces alive (restore s b).
Proof.
  unfold restore, store_replace. quiesce; first [apply stage_quiesces|apply commit_replace_quiesces].
Qed.

Lemma remove_backup_quiesces b : quiesces alive (remove_backup b).
Proof. unfold remove_backup. quiesce. Qed.

Lemma sweep_quiesces s n l : quiesces alive (sweep s n l).
Proof. induction l as [|[x|] l IH]; cbn [sweep]; quiesce; done. Qed.

Lemma cleanup_artifacts_quiesces s n : quiesces alive (cleanup_artifacts s n).
Proof.
  unfold cleanup_artifacts, remove_socket_artifact. quiesce; apply sweep_quiesces.
Qed.
End store_quiet.

#[export] Hint Resolve stage_quiesces drop_staged_quiesces commit_new_quiesces
  commit_replace_quiesces backup_quiesces restore_quiesces remove_backup_quiesces
  cleanup_artifacts_quiesces : quiet.
