(* ===== verification/Manager.v ===== *)
(** The orchestrator (manager/mod.rs, switching.rs, apply.rs, reconcile.rs,
    quarantine.rs, publish.rs, dns_sync.rs): start, stop, restart, switch,
    apply, reconcile, shutdown and quarantine recovery over the control state.

    Every public operation holds the control lock from beginning to end, so an
    operation is a function on the whole manager state [Mgr]: the control state
    ([Ctrl]), the published status, and the world the effects happen in.  The
    status forwarder of an epoch runs outside the lock; it exists exactly while
    the epoch is installed, and its step is [forward_status].  [Inner]'s
    immutable fields are the argument [self].  Logging is omitted. *)
From S2P Require Import Prelude Text Paths Metadata Types Health Yaml Diff Mihomo Config Capability RuntimeStore Runtime.
From Stdlib Require String.
From Stdlib Require Import ZArith Lia.

(** * State *)

(** The immutable part of [Inner]: the options, the store, whether a DNS
    controller is injected, and the injected controller access's answer to
    [supports_local_ipc]. *)
Record Inner := mkInner {
  in_options : ManagerOptions;
  in_store : RuntimeConfigStore;
  in_dns : bool;
  in_access : option bool;
}.

Section manager.
Context {PL : ProcessLib} {YF : YamlFloat} {PC : PatchCodec}.
Context {YC : YamlCodec} {UL : UrlLib} {SV : Semver}.
Context {W : Type} {EN : Env W} {FS : RuntimeFs W} {BH : BinaryHost W}.

Record EpochPlan := mkPlan {
  ep_source_spec : InstanceSpec;
  ep_effective_spec : InstanceSpec;
  ep_controller : ResolvedController;
  ep_revision : ConfigRevision;
  ep_capabilities : list Feature;
  ep_runtime_features : list RuntimeFeature;
  ep_source_document : Mapping;
  ep_effective_document : Mapping;
}.

(** An installed epoch; its forwarder is running. *)
Record Active := mkActive { ac_instance : Instance_; ac_plan : EpochPlan }.

Record QuarantinedEpoch := mkQuarantined {
  qe_epoch : Epoch;
  qe_reason : string;
  qe_death_proven : bool;
}.

Record EffectiveConfigSnapshot := mkEffective {
  es_instance_id : Uuid;
  es_revision : ConfigRevision;
  es_config : Mapping;
}.

Record Mgr := mkMgr {
  mg_last : Z;                                  (* EpochAllocator::last *)
  mg_current : option Active;
  mg_last_spec : option InstanceSpec;
  mg_quarantine : list QuarantinedEpoch;
  mg_dns_record : option DnsOverrideRecord;
  mg_status : CoreStatus;                       (* status_tx *)
  mg_commits : option EffectiveConfigSnapshot;  (* config_commits *)
  mg_cache : VersionCache;
  mg_sink : bool;                               (* log_sink is Some *)
  mg_world : W;
}.

Definition set_last (x : Z) (m : Mgr) : Mgr :=
  mkMgr x (mg_current m) (mg_last_spec m) (mg_quarantine m) (mg_dns_record m) (mg_status m)
    (mg_commits m) (mg_cache m) (mg_sink m) (mg_world m).
Definition set_current (x : option Active) (m : Mgr) : Mgr :=
  mkMgr (mg_last m) x (mg_last_spec m) (mg_quarantine m) (mg_dns_record m) (mg_status m)
    (mg_commits m) (mg_cache m) (mg_sink m) (mg_world m).
Definition set_last_spec (x : option InstanceSpec) (m : Mgr) : Mgr :=
  mkMgr (mg_last m) (mg_current m) x (mg_quarantine m) (mg_dns_record m) (mg_status m)
    (mg_commits m) (mg_cache m) (mg_sink m) (mg_world m).
Definition set_quarantine (x : list QuarantinedEpoch) (m : Mgr) : Mgr :=
  mkMgr (mg_last m) (mg_current m) (mg_last_spec m) x (mg_dns_record m) (mg_status m)
    (mg_commits m) (mg_cache m) (mg_sink m) (mg_world m).
Definition set_dns_record (x : option DnsOverrideRecord) (m : Mgr) : Mgr :=
  mkMgr (mg_last m) (mg_current m) (mg_last_spec m) (mg_quarantine m) x (mg_status m)
    (mg_commits m) (mg_cache m) (mg_sink m) (mg_world m).
Definition set_status (x : CoreStatus) (m : Mgr) : Mgr :=
  mkMgr (mg_last m) (mg_current m) (mg_last_spec m) (mg_quarantine m) (mg_dns_record m) x
    (mg_commits m) (mg_cache m) (mg_sink m) (mg_world m).
Definition set_commits (x : option EffectiveConfigSnapshot) (m : Mgr) : Mgr :=
  mkMgr (mg_last m) (mg_current m) (mg_last_spec m) (mg_quarantine m) (mg_dns_record m)
    (mg_status m) x (mg_cache m) (mg_sink m) (mg_world m).
Definition set_sink (x : bool) (m : Mgr) : Mgr :=
  mkMgr (mg_last m) (mg_current m) (mg_last_spec m) (mg_quarantine m) (mg_dns_record m)
    (mg_status m) (mg_commits m) (mg_cache m) x (mg_world m).
Definition set_env (c : VersionCache) (w : W) (m : Mgr) : Mgr :=
  mkMgr (mg_last m) (mg_current m) (mg_last_spec m) (mg_quarantine m) (mg_dns_record m)
    (mg_status m) (mg_commits m) c (mg_sink m) w.

(** Run an operation of the world, or of the world and the version cache. *)
Definition lift {A} (m : M W A) : M Mgr A :=
  λ s, let '(a, w) := m (mg_world s) in (a, set_env (mg_cache s) w s).
Definition lift_cache {A} (m : M (VersionCache * W) A) : M Mgr A :=
  λ s, let '(a, (c, w)) := m (mg_cache s, mg_world s) in (a, set_env c w s).

(** [Ctrl::new] and the channels of [build_configured]. *)
Definition mgr_new (max_epoch : Z) (now : Z) (sink : bool) (w : W) : Mgr :=
  mkMgr max_epoch None None [] None (core_status_initial now) None ∅ sink w.

(** [EpochAllocator::next]; the overflow [expect] needs 2^64 allocations. *)
Definition next_epoch : M Mgr Epoch :=
  modify (λ s, set_last (mg_last s + 1) s) ;;; gets mg_last.

(** The live status of an instance. *)
Definition status_of (x : Instance_) : M Mgr InstanceStatus := gets (λ s, inst_status x (mg_world s)).
Definition pid_of (x : Instance_) : M Mgr Z := gets (λ s, default 0%Z (inst_pid x (mg_world s))).

(** [ctrl.current] is installed and not terminal. *)
Definition running (s : Mgr) : bool :=
  match mg_current s with
  | Some a => negb (is_terminal (st_state (inst_status (ac_instance a) (mg_world s))))
  | None => false
  end.

(** * Publication (publish.rs) *)

Definition spec_summary (plan : EpochPlan) : SpecSummary :=
  mkSpecSummary (cs_kind (is_core (ep_source_spec plan))) (is_config_path (ep_source_spec plan))
    (ep_capabilities plan) (ep_runtime_features plan).

(** [default_health_for_state], with the clock reading of
    [HealthStatus::starting]. *)
Definition default_health_for_state (previous : option HealthStatus) (state : CoreState) (now : Z) :
    option HealthStatus :=
  let with_target target :=
    match previous with
    | Some p =>
        if bool_decide (hs_state p = target)
        then Some (mkHealthStatus target (hs_changed_at p) (hs_consecutive_failures p)
                     (hs_last_error p) (hs_last_success_at p))
        else Some (mkHealthStatus target now 0 None None)
    | None => Some (mkHealthStatus target now 0 None None)
    end in
  match state with
  | Starting _ | Restarting _ _ | Switching _ _ => with_target HStarting
  | Running _ _ => with_target HHealthy
  | Stopping _ | Stopped _ => None
  end.

(** [changed_at] after a publication. *)
Definition stamp (old new : CoreState) (previous now : Z) : Z :=
  if bool_decide (old = new) then previous else now.

(** [Inner::publish]. *)
Definition publish (state : CoreState) (plan : option EpochPlan) : M Mgr unit :=
  now <- lift now_ms ;;
  modify (λ s,
    let old := mg_status s in
    set_status (mkCoreStatus None state (stamp (co_state old) state (co_changed_at old) now)
      (default_health_for_state (co_health old) state now)
      (spec_summary <$> plan) ((λ p, rc_host (ep_controller p)) <$> plan) (ep_revision <$> plan)) s).

(** [Inner::publish_instance]. *)
Definition publish_instance (x : Instance_) (state : CoreState) (plan : EpochPlan) : M Mgr unit :=
  snapshot <- status_of x ;;
  (match state, st_instance_id snapshot with
   | Running _ _, Some id =>
       modify (set_commits (Some (mkEffective id (ep_revision plan) (ep_effective_document plan))))
   | _, _ => ret tt
   end) ;;;
  now <- lift now_ms ;;
  modify (λ s,
    let old := mg_status s in
    set_status (mkCoreStatus (st_instance_id snapshot) state
      (stamp (co_state old) state (co_changed_at old) now) (st_health snapshot)
      (Some (spec_summary plan)) (Some (rc_host (inst_controller x))) (Some (ep_revision plan))) s).

Definition publish_active (a : Active) (state : CoreState) : M Mgr unit :=
  publish_instance (ac_instance a) state (ac_plan a).

(** [instance_core_state]. *)
Definition instance_core_state (epoch : Epoch) (state : InstanceState) : CoreState :=
  match state with
  | IStarting => Starting epoch
  | IRunning pid => Running epoch pid
  | IRestarting attempt => Restarting epoch attempt
  | IStopping => Stopping epoch
  | IStopped reason => Stopped (Some reason)
  end.

(** [apply_epoch_status]; [None] is [false], nothing to publish. *)
Definition apply_epoch_status (status : CoreStatus) (epoch : Epoch) (x : InstanceStatus) (now : Z) :
    option CoreStatus :=
  if negb (bool_decide ((cr_epoch <$> co_revision status) = Some epoch)) then None
  else
    let state := instance_core_state epoch (st_state x) in
    if bool_decide (co_state status = state) && bool_decide (co_health status = st_health x)
       && bool_decide (co_instance_id status = st_instance_id x)
    then None
    else Some (mkCoreStatus (st_instance_id x) state (stamp (co_state status) state (co_changed_at status) now)
                 (st_health x) (co_spec status) (co_controller status) (co_revision status)).

(** [publish_epoch_status]. *)
Definition publish_epoch_status (epoch : Epoch) (x : InstanceStatus) : M Mgr unit :=
  now <- lift now_ms ;;
  modify (λ s, match apply_epoch_status (mg_status s) epoch x now with
               | Some st => set_status st s
               | None => s
               end).

(** One turn of the installed epoch's forwarder ([spawn_forwarder]). *)
Definition forward_status : M Mgr unit :=
  cur <- gets mg_current ;;
  match cur with
  | None => ret tt
  | Some a => x <- status_of (ac_instance a) ;; publish_epoch_status (cr_epoch (ep_revision (ac_plan a))) x
  end.

(** [publish_terminal_error]. *)
Definition publish_terminal_error (e : Error) : M Mgr unit :=
  publish (Stopped (Some (SError (error_display e)))) None.

(** [republish_retained]. *)
Definition republish_retained : M Mgr unit :=
  cur <- gets mg_current ;;
  match cur with
  | None => ret tt
  | Some a =>
      x <- status_of (ac_instance a) ;;
      publish_active a (instance_core_state (inst_epoch (ac_instance a)) (st_state x))
  end.

(** * Quarantine (quarantine.rs) *)

(** [quarantine_error]. *)
Definition quarantine_error (q : list QuarantinedEpoch) : option Error :=
  match q with
  | [] => None
  | first :: rest =>
      let reason :=
        match rest with
        | [] => qe_reason first
        | _ => qe_reason first +:+ "; additional uncertain epochs: "
                 +:+ join ", " ((λ e, fmt_u64 (qe_epoch e)) <$> q)
        end in
      Some (ManagerQuarantined (qe_epoch first) reason)
  end.

(** [record_quarantine]: update the first entry of the epoch, or append one. *)
Fixpoint record_quarantine (epoch : Epoch) (reason : string) (q : list QuarantinedEpoch) :
    list QuarantinedEpoch :=
  match q with
  | [] => [mkQuarantined epoch reason false]
  | e :: q' =>
      if (qe_epoch e =? epoch)%Z then mkQuarantined (qe_epoch e) reason (qe_death_proven e) :: q'
      else e :: record_quarantine epoch reason q'
  end.

(** [reject_quarantine]. *)
Definition reject_quarantine : M Mgr (result unit Error) :=
  gets (λ s, match quarantine_error (mg_quarantine s) with Some e => Err e | None => Ok tt end).

(** [latch_quarantine]. *)
Definition latch_quarantine (epoch : Epoch) (e : Error) : M Mgr Error :=
  modify (λ s, set_quarantine (record_quarantine epoch (error_display e) (mg_quarantine s)) s) ;;;
  q <- gets mg_quarantine ;;
  (match quarantine_error q with
   | Some quarantine => publish_terminal_error quarantine
   | None => ret tt   (* the [expect]: the entry was just inserted *)
   end) ;;;
  ret e.

Section ops.
Context (self : Inner).

Definition stop_timeout : Z := mo_stop_timeout (in_options self).

(** [cleanup_controller] (Unix). *)
Definition cleanup_controller (epoch : Epoch) : M W (result unit Error) :=
  match mo_controller_dir (in_options self) with
  | None => ret (Ok tt)
  | Some dir =>
      canon <- gets canon_view ;;
      match managed_endpoint_path canon dir (mo_controller_template (in_options self)) epoch with
      | Err e => ret (Err e)
      | Ok endpoint =>
          r <- fs_symlink_metadata endpoint ;;
          match r with
          | Ok md =>
              if md_is_socket md then io (fs_remove_file endpoint)
              else ret (Err (InvalidManagerOptions "refusing to remove a non-socket controller"))
          | Err NotFound => ret (Ok tt)
          | Err e => ret (Err (io_error e))
          end
      end
  end.

(** [CoreManager::cleanup_epoch]. *)
Definition mgr_cleanup_epoch (epoch : Epoch) : M Mgr (result unit Error) :=
  lift (_ <-? cleanup_controller epoch ;; cleanup_epoch (in_store self) epoch).

(** [sweep_orphans]: the loop over the artifacts found. *)
Fixpoint sweep_loop (found : list Z) : M W (result unit Error) :=
  match found with
  | [] => ret (Ok tt)
  | artifact :: rest =>
      let pid := pid_path (in_store self) artifact in
      present <-? io (try_exists pid) ;;
      _ <-? (if present then
               r <- reap_epoch_pid_file pid (rs_dir (in_store self)) ;;
               ret (match r with Ok _ => Ok tt | Err e => Err (Process e) end)
             else ret (Ok tt)) ;;
      _ <-? (match epoch_new artifact with
             | Some epoch => cleanup_controller epoch
             | None => ret (Ok tt)
             end) ;;
      _ <-? cleanup_artifacts (in_store self) artifact ;;
      sweep_loop rest
  end.
Definition sweep_orphans : M W (result Z Error) :=
  discovered <-? artifact_epochs (in_store self) ;;
  let max_seen := foldr Z.max 0%Z discovered in
  _ <-? sweep_loop discovered ;;
  ret (Ok max_seen).

(** * Launching (mod.rs) *)

Definition controller_dir : string := default (rs_dir (in_store self)) (mo_controller_dir (in_options self)).

Definition local_ipc_settings (spec : InstanceSpec) : LocalIpcSettings :=
  default (mkLocalIpc (mo_local_ipc_policy (in_options self)) false) (io_local_ipc (is_options spec)).

(** [CoreManager::resolve_features]. *)
Definition resolve_features (spec : InstanceSpec) : M Mgr (result ResolvedFeatures Error) :=
  let policy := li_policy (local_ipc_settings spec) in
  let available := match in_access self with Some b => b | None => true end in
  if negb available && bool_decide (policy = Force)
  then ret (Err (InvalidManagerOptions "the host cannot authorize local IPC"))
  else lift_cache (capability_resolve_features (is_core spec) (if available then policy else Disable)).

(** [ConfigSnapshot::load]. *)
Definition load_snapshot (path : string) : M Mgr (result ConfigSnapshot Error) :=
  lift (raw <-? io (fs_read path) ;; ret (snapshot_from_bytes path raw)).

(** [validate_launchable]. *)
Definition validate_launchable (spec : InstanceSpec) : M Mgr (result unit Error) :=
  present <- lift (file_present (cs_binary_path (is_core spec))) ;;
  if negb present then ret (Err (BinaryNotFound (cs_binary_path (is_core spec))))
  else match run_args (cs_kind (is_core spec)) (core_paths spec) with
       | Ok _ => ret (Ok tt)
       | Err e => ret (Err e)
       end.

(** [prepare_full]/[prepare_bootstrap] with the manager's settings. *)
Definition prepare_with (zero : bool) (spec : InstanceSpec) (epoch : Epoch) (resolved : ResolvedFeatures)
    (snapshot : ConfigSnapshot) : M Mgr (result PreparedConfig Error) :=
  canon <- gets (λ s, canon_view (mg_world s)) ;;
  ret (prepare canon (mo_controller_template (in_options self)) controller_dir epoch
         (rf_runtime resolved) (Some (local_ipc_settings spec)) zero snapshot).

(** Check a staged document with the core; a rejection drops the staged files. *)
Definition check_staged (spec : InstanceSpec) (staged : StagedRuntimeConfig)
    (others : list StagedRuntimeConfig) : M Mgr (result unit Error) :=
  r <- lift (backend_check_config (with_config_path (sg_path staged) spec)) ;;
  match r with
  | Ok _ => ret (Ok tt)
  | Err e =>
      lift (foldr (λ st k, drop_staged st ;;; k) (ret tt) (staged :: others)) ;;; ret (Err e)
  end.

(** The plan of a launched epoch. *)
Definition launch_plan (spec : InstanceSpec) (epoch : Epoch) (prepared : PreparedConfig)
    (resolved : ResolvedFeatures) (snapshot : ConfigSnapshot) (runtime_path : string) (generation : Z) :
    EpochPlan :=
  mkPlan spec (with_pid_file (Some (pid_path (in_store self) epoch)) (with_config_path runtime_path spec))
    (pc_controller prepared)
    (mkRevision epoch generation (pc_source_hash prepared) (pc_effective_hash prepared) runtime_path)
    (rf_capabilities resolved) (rf_runtime resolved) (sn_document snapshot) (pc_document prepared).

(** [prepare_launch_with_features]. *)
Definition prepare_launch_with_features (spec : InstanceSpec) (epoch : Epoch) (snapshot : ConfigSnapshot)
    (resolved : ResolvedFeatures) : M Mgr (result EpochPlan Error) :=
  prepared <-? prepare_with false spec epoch resolved snapshot ;;
  staged <-? lift (stage (in_store self) epoch (pc_bytes prepared)) ;;
  _ <-? check_staged spec staged [] ;;
  path <-? lift (commit_new (in_store self) staged epoch) ;;
  ret (Ok (launch_plan spec epoch prepared resolved snapshot path 1)).

(** [prepare_launch]. *)
Definition prepare_launch (spec : InstanceSpec) (epoch : Epoch) (snapshot : ConfigSnapshot) :
    M Mgr (result EpochPlan Error) :=
  _ <-? validate_launchable spec ;;
  resolved <-? resolve_features spec ;;
  prepare_launch_with_features spec epoch snapshot resolved.

(** [spawn_instance]. *)
Definition spawn_instance (plan : EpochPlan) : M Mgr (result Instance_ Error) :=
  lift (backend_launch (mkLaunch _ (ep_capabilities plan) (ep_effective_spec plan)
                          (cr_epoch (ep_revision plan)) (ep_controller plan))).

Definition stop_instance (x : Instance_) : M Mgr (result unit Error) :=
  lift (stop_and_confirm_dead x stop_timeout).

(** [spawn_replacement]. *)
Definition spawn_replacement (plan : EpochPlan) : M Mgr (result Instance_ Error) :=
  x <-? spawn_instance plan ;;
  r <- lift (wait_ready x) ;;
  match r with
  | Ok _ => ret (Ok x)
  | Err e =>
      stopped <- stop_instance x ;;
      match stopped with
      | Ok _ => ret (Err e)
      | Err stop_error =>
          ret (Err (StopUnconfirmed (error_display e +:+ "; failed to stop rejected replacement: "
                      +:+ error_display stop_error)))
      end
  end.

(** [install]. *)
Definition install (x : Instance_) (plan : EpochPlan) : M Mgr unit :=
  modify (λ s, set_current (Some (mkActive x plan)) (set_last_spec (Some (ep_source_spec plan)) s)).

(** [retire_current]; the failure carries the epoch. *)
Definition retire_current : M Mgr (result (option EpochPlan) (Epoch * Error)) :=
  cur <- gets mg_current ;;
  match cur with
  | None => ret (Ok None)
  | Some a =>
      modify (set_current None) ;;;
      r <- stop_instance (ac_instance a) ;;
      match r with
      | Ok _ => ret (Ok (Some (ac_plan a)))
      | Err e => ret (Err (cr_epoch (ep_revision (ac_plan a)), e))
      end
  end.

(** [discard_stale]. *)
Definition discard_stale : M Mgr (result unit Error) :=
  r <- retire_current ;;
  match r with
  | Ok None => ret (Ok tt)
  | Ok (Some plan) => mgr_cleanup_epoch (cr_epoch (ep_revision plan))
  | Err (epoch, e) =>
      if is_stop_unconfirmed e then e <- latch_quarantine epoch e ;; ret (Err e) else ret (Err e)
  end.

(** Fail after publishing the error. *)
Definition fail_terminal {A} (e : Error) : M Mgr (result A Error) :=
  publish_terminal_error e ;;; ret (Err e).
(** Fail into quarantine. *)
Definition fail_quarantine {A} (epoch : Epoch) (e : Error) : M Mgr (result A Error) :=
  e <- latch_quarantine epoch e ;; ret (Err e).
(** The common ending of an unproven stop. *)
Definition fail_stop {A} (epoch : Epoch) (e : Error) : M Mgr (result A Error) :=
  if is_stop_unconfirmed e then fail_quarantine epoch e else fail_terminal e.

(** [start_prepared]. *)
Definition start_prepared (plan : EpochPlan) : M Mgr (result unit Error) :=
  let epoch := cr_epoch (ep_revision plan) in
  publish (Starting epoch) (Some plan) ;;;
  r <- spawn_instance plan ;;
  match r with
  | Err e => mgr_cleanup_epoch epoch ;;; fail_terminal e
  | Ok x =>
      ready <- lift (wait_ready x) ;;
      match ready with
      | Err readiness_error =>
          stopped <- stop_instance x ;;
          match stopped with
          | Ok _ => mgr_cleanup_epoch epoch ;;; fail_terminal readiness_error
          | Err stop_error =>
              fail_quarantine epoch
                (StopUnconfirmed (error_display readiness_error
                   +:+ "; failed to stop rejected initial instance: " +:+ error_display stop_error))
          end
      | Ok _ =>
          pid <- pid_of x ;;
          publish_instance x (Running epoch pid) plan ;;;
          install x plan ;;;
          ret (Ok tt)
      end
  end.

(** [start_locked]. *)
Definition start_locked (spec : InstanceSpec) : M Mgr (result unit Error) :=
  epoch <- next_epoch ;;
  r <- load_snapshot (is_config_path spec) ;;
  match r with
  | Err e => fail_terminal e
  | Ok snapshot =>
      r <- prepare_launch spec epoch snapshot ;;
      match r with
      | Err e => mgr_cleanup_epoch epoch ;;; fail_terminal e
      | Ok plan => start_prepared plan
      end
  end.

(** [start]. *)
Definition start (spec : InstanceSpec) : M Mgr (result unit Error) :=
  _ <-? reject_quarantine ;;
  alive_now <- gets running ;;
  if alive_now then ret (Err AlreadyRunning)
  else
    _ <-? discard_stale ;;
    start_locked spec.

(** * Host DNS (dns_sync.rs) *)

Definition RECORD_FILE : string := "dns-override.json".
Definition RECORD_STAGING_FILE : string := "dns-override.json.tmp".

Definition error_other {A} (r : result A Error) : result A IoError :=
  res_map_err (λ e, OtherIo (error_display e)) r.

(** Write and publish the record file; the staging file of a failed attempt is
    removed. *)
Definition publish_dns_record (entry : DnsOverrideRecord) : M W (result unit IoError) :=
  let dir := rs_dir (in_store self) in
  let path := path_join dir RECORD_FILE in
  let staging := path_join dir RECORD_STAGING_FILE in
  r <- (match dns_record_to_json entry with
        | Err e => ret (Err (OtherIo e))
        | Ok bytes =>
            _ <-? write_file_sync staging bytes ;;
            exists_ <-? try_exists path ;;
            if exists_ then r <- fs_replace staging path ;; ret (error_other r)
            else r <- fs_move_new staging path ;; ret (error_other r)
        end) ;;
  match r with
  | Err e => fs_remove_file staging ;;; ret (Err e)
  | Ok _ => fs_sync_dir dir ;;; ret (Ok tt)
  end.

(** Remove the record file; a missing one is no error. *)
Definition clear_dns_record : M W (result unit IoError) :=
  let dir := rs_dir (in_store self) in
  r <- fs_remove_file (path_join dir RECORD_FILE) ;;
  match r with
  | Ok _ => fs_sync_dir dir ;;; ret (Ok tt)
  | Err NotFound => ret (Ok tt)
  | Err e => ret (Err e)
  end.

(** [persist_dns_record]. *)
Definition persist_dns_record (record : option DnsOverrideRecord) : M Mgr (result unit IoError) :=
  _ <-? lift (match record with
              | Some entry => publish_dns_record entry
              | None => clear_dns_record
              end) ;;
  modify (set_dns_record record) ;;;
  ret (Ok tt).

(** [dns_restore]. *)
Definition dns_restore : M Mgr unit :=
  if negb (in_dns self) then ret tt
  else
    record <- gets mg_dns_record ;;
    match record with
    | None => ret tt
    | Some record =>
        persist_dns_record (Some (mkDnsRecord (dr_interface record) (dr_previous record)
          (dr_applied record) (dr_runtime_epoch record) (dr_owner_generation record) DRestorePending)) ;;;
        r <- lift (timeout (mo_dns_timeout (in_options self)) (dns_restore_host record)) ;;
        match r with
        | Some (Ok _) => persist_dns_record None ;;; ret tt
        | _ => ret tt
        end
    end.

(** What the running epoch wants of the host's DNS. *)
Definition dns_wanted (s : Mgr) : option (DnsIntent * Epoch) :=
  match mg_current s with
  | Some a =>
      if negb (is_terminal (st_state (inst_status (ac_instance a) (mg_world s))))
      then (λ intent, (intent, inst_epoch (ac_instance a))) <$> dns_desired (ep_effective_document (ac_plan a))
      else None
  | None => None
  end.

(** The baseline of an override that is already owned. *)
Definition dns_baseline (record : option DnsOverrideRecord) : option (string * list string) :=
  match record with
  | Some r => if String.eqb (dr_interface r) "" then None else Some (dr_interface r, dr_previous r)
  | None => None
  end.

(** [dns_converge]. *)
Definition dns_converge : M Mgr unit :=
  if negb (in_dns self) then ret tt
  else
    desired <- gets dns_wanted ;;
    match desired with
    | None => dns_restore
    | Some (intent, epoch) =>
        baseline <- gets (λ s, dns_baseline (mg_dns_record s)) ;;
        let pre_record :=
          mkDnsRecord (match baseline with Some (interface, _) => interface | None => "" end)
            (match baseline with Some (_, previous) => previous | None => [] end)
            (di_servers intent) epoch None DApplied in
        r <- persist_dns_record (Some pre_record) ;;
        match r with
        | Err _ => ret tt
        | Ok _ =>
            r <- lift (timeout (mo_dns_timeout (in_options self)) (dns_apply intent epoch)) ;;
            match r with
            | Some (Ok record) =>
                match baseline with
                | Some (interface, previous) =>
                    if negb (String.eqb (dr_interface record) interface) then ret tt
                    else
                      persist_dns_record (Some (mkDnsRecord (dr_interface record) previous
                        (dr_applied record) (dr_runtime_epoch record) (dr_owner_generation record)
                        (dr_state record))) ;;; ret tt
                | None => persist_dns_record (Some record) ;;; ret tt
                end
            | _ => ret tt
            end
        end
    end.

(** [reconcile_orphan_record]. *)
Definition reconcile_orphan_record : M W unit :=
  let path := path_join (rs_dir (in_store self)) RECORD_FILE in
  r <- fs_read path ;;
  match r with
  | Err _ => ret tt
  | Ok bytes =>
      match dns_record_from_json bytes with
      | Err _ => ret tt
      | Ok record =>
          if negb (in_dns self) then ret tt
          else
            r <- timeout (mo_dns_timeout (in_options self)) (dns_restore_host record) ;;
            match r with
            | Some (Ok _) => fs_remove_file path ;;; ret tt
            | _ => ret tt
            end
      end
  end.

(** * Stop and shutdown (mod.rs) *)

(** The steps after the process of a stopped epoch is settled. *)
Definition stop_active (x : Instance_) (plan : EpochPlan) : M Mgr (result unit Error) :=
  let epoch := inst_epoch x in
  publish (Stopping epoch) (Some plan) ;;;
  r <- stop_instance x ;;
  match r with
  | Err e => fail_stop epoch e
  | Ok _ =>
      c <- mgr_cleanup_epoch epoch ;;
      match c with
      | Err e => fail_terminal e
      | Ok _ => publish (Stopped (Some User)) None ;;; ret (Ok tt)
      end
  end.

(** [stop]. *)
Definition stop : M Mgr (result unit Error) :=
  dns_restore ;;;
  cur <- gets mg_current ;;
  match cur with
  | None => ret (Err NotStarted)
  | Some a =>
      let x := ac_instance a in
      let plan := ac_plan a in
      modify (set_current None) ;;;
      captured <- status_of x ;;
      if is_terminal (st_state captured) then
        let epoch := inst_epoch x in
        publish (instance_core_state epoch (st_state captured)) (Some plan) ;;;
        r <- stop_instance x ;;
        match r with
        | Err e => if is_stop_unconfirmed e then fail_quarantine epoch e else ret (Err e)
        | Ok _ =>
            c <- mgr_cleanup_epoch epoch ;;
            match c with
            | Err e => fail_terminal e
            | Ok _ => ret (Err NotStarted)
            end
        end
      else stop_active x plan
  end.

(** [shutdown]. *)
Definition shutdown : M Mgr (result unit Error) :=
  dns_restore ;;;
  cur <- gets mg_current ;;
  r <- (match cur with
        | None => ret (Ok tt)
        | Some a => modify (set_current None) ;;; stop_active (ac_instance a) (ac_plan a)
        end) ;;
  sink <- gets mg_sink ;;
  modify (set_sink false) ;;;
  (if sink then lift sink_shutdown else ret tt) ;;;
  ret r.

(** [api_connection]. *)
Definition api_connection (s : Mgr) : option (Uuid * ResolvedController) :=
  a ← mg_current s;
  let st := inst_status (ac_instance a) (mg_world s) in
  match st_state st with
  | IRunning _ => id ← st_instance_id st; Some (id, ep_controller (ac_plan a))
  | _ => None
  end.

(** [effective_config]. *)
Definition effective_config (s : Mgr) : option EffectiveConfigSnapshot :=
  a ← mg_current s;
  let st := inst_status (ac_instance a) (mg_world s) in
  match st_state st with
  | IRunning _ =>
      id ← st_instance_id st;
      Some (mkEffective id (ep_revision (ac_plan a)) (ep_effective_document (ac_plan a)))
  | _ => None
  end.

(** * Switching (switching.rs) *)

(** [graceful_degrade_reason]. *)
Definition graceful_degrade_reason (local_controller : bool) (kind : ClashCoreKind)
    (block : option OverlapBlock) : option DegradeReason :=
  if negb local_controller then Some HttpController
  else if negb (bool_decide (kind = Mihomo)) then Some UnsupportedKind
  else match block with
       | Some BDnsListen => Some DnsListen
       | Some BInboundSurface => Some InboundConflict
       | None => None
       end.

(** [has_http] of [switch_locked]. *)
Definition has_http (doc : Mapping) : bool :=
  existsb (λ field, match map_get doc field ≫= as_str with
                    | Some value => negb (String.eqb value "")
                    | None => false
                    end) ["external-controller"; "external-controller-tls"].

(** [with_switch_durability_result]. *)
Definition with_switch_durability_result (r : result SwitchOutcome Error) (warning : option string) :
    result SwitchOutcome Error :=
  match r, warning with
  | Ok outcome, Some w => Ok (SDurabilityUncertain outcome w)
  | Ok outcome, None => Ok outcome
  | Err e, Some w => Err (DurabilityUncertain e w)
  | Err e, None => Err e
  end.

(** [hard_switch]. *)
Definition hard_switch (spec : InstanceSpec) (snapshot : ConfigSnapshot) (resolved : ResolvedFeatures) :
    M Mgr (result unit Error) :=
  epoch <- next_epoch ;;
  r <- prepare_launch_with_features spec epoch snapshot resolved ;;
  match r with
  | Err e => mgr_cleanup_epoch epoch ;;; republish_retained ;;; ret (Err e)
  | Ok plan =>
      old_epoch <- gets (λ s, (λ a, inst_epoch (ac_instance a)) <$> mg_current s) ;;
      publish (Switching old_epoch epoch) (Some plan) ;;;
      r <- retire_current ;;
      match r with
      | Err (retired_epoch, e) => mgr_cleanup_epoch epoch ;;; fail_stop retired_epoch e
      | Ok retired =>
          match retired with
          | None => ret (Err NotStarted)   (* the [expect]: running checked by the caller *)
          | Some old =>
              c <- mgr_cleanup_epoch (cr_epoch (ep_revision old)) ;;
              match c with
              | Err e => fail_terminal e
              | Ok _ => start_prepared plan
              end
          end
      end
  end.

Record PreparedGraceful := mkGraceful {
  pg_plan : EpochPlan;
  pg_full_staged : StagedRuntimeConfig;
  pg_restoration : option (ConfigPatch * RuntimeProjection);
}.

(** After an error of [m] the staged file is dropped. *)
Definition or_drop_staged {A B} (st : StagedRuntimeConfig) (m : M Mgr (result A Error))
    (k : A → M Mgr (result B Error)) : M Mgr (result B Error) :=
  r <- m ;;
  match r with
  | Ok a => k a
  | Err e => lift (drop_staged st) ;;; ret (Err e)
  end.

(** [prepare_graceful]. *)
Definition prepare_graceful (spec : InstanceSpec) (epoch : Epoch) (snapshot : ConfigSnapshot)
    (resolved : ResolvedFeatures) : M Mgr (result PreparedGraceful Error) :=
  full <-? prepare_with false spec epoch resolved snapshot ;;
  bootstrap <-? prepare_with true spec epoch resolved snapshot ;;
  if negb (bool_decide (rc_host (pc_controller full) = rc_host (pc_controller bootstrap)))
     || negb (bool_decide (rc_secret (pc_controller full) = rc_secret (pc_controller bootstrap)))
  then ret (Err (InvalidConfig "full and bootstrap configs resolved different controllers"))
  else
    restoration <-? ret (restoration_patch (pc_document bootstrap) (pc_document full)) ;;
    full_staged <-? lift (stage (in_store self) epoch (pc_bytes full)) ;;
    _ <-? check_staged spec full_staged [] ;;
    or_drop_staged full_staged (lift (stage (in_store self) epoch (pc_bytes bootstrap))) (λ bootstrap_staged,
    _ <-? check_staged spec bootstrap_staged [full_staged] ;;
    or_drop_staged full_staged (lift (commit_new (in_store self) bootstrap_staged epoch)) (λ path,
    ret (Ok (mkGraceful (launch_plan spec epoch full resolved snapshot path 1) full_staged restoration)))).

(** [patch_and_verify]. *)
Definition patch_and_verify (x : Instance_) (patch : ConfigPatch) (projection : RuntimeProjection) : M W bool :=
  match build_control_client (inst_controller x) (mo_control_timeout (in_options self)) with
  | Err _ => ret false
  | Ok client =>
      client_patch_config client patch ;;;
      r <- client_configs client ;;
      match r with
      | Err _ => ret false
      | Ok runtime =>
          match projection_verify projection runtime with
          | Ok true => probe <- probe_now x ReconcilePhase ;; ret (is_healthy probe)
          | _ => ret false
          end
      end
  end.

(** Bring the bootstrap epoch to its full configuration, within the deadline. *)
Definition reconcile_bootstrap (x : Instance_) (restoration : option (ConfigPatch * RuntimeProjection)) : M Mgr bool :=
  r <- lift (timeout (mo_reconcile_timeout (in_options self))
               (match restoration with
                | Some (patch, projection) => patch_and_verify x patch projection
                | None => probe <- probe_now x ReconcilePhase ;; ret (is_healthy probe)
                end)) ;;
  ret (default false r).

(** [graceful_switch] once the old epoch is retired. *)
Definition graceful_commit (x : Instance_) (plan : EpochPlan) (full_staged : StagedRuntimeConfig)
    (restoration : option (ConfigPatch * RuntimeProjection)) (old_epoch : Epoch) :
    M Mgr (result SwitchOutcome Error) :=
  let epoch := cr_epoch (ep_revision plan) in
  r <- lift (commit_replace (in_store self) full_staged epoch) ;;
  match r with
  | Err e =>
      stopped <- stop_instance x ;;
      e <- (match stopped with
            | Ok _ => mgr_cleanup_epoch epoch ;;; ret e
            | Err new_error =>
                ret (StopUnconfirmed ("full runtime commit failed: " +:+ error_display e
                       +:+ "; bootstrap stop also failed: " +:+ error_display new_error))
            end) ;;
      fail_stop epoch e
  | Ok commit =>
      let warning := durability_warning commit in
      reconciled <- reconcile_bootstrap x restoration ;;
      if reconciled then
        pid <- pid_of x ;;
        publish_instance x (Running epoch pid) plan ;;;
        install x plan ;;;
        c <- mgr_cleanup_epoch old_epoch ;;
        ret (with_switch_durability_result (res_map (λ _, Graceful) c) warning)
      else
        stopped <- stop_instance x ;;
        match stopped with
        | Err e => r <- fail_stop epoch e ;; ret (with_switch_durability_result r warning)
        | Ok _ =>
            r <- spawn_replacement plan ;;
            match r with
            | Err e =>
                if is_stop_unconfirmed e
                then r <- fail_quarantine epoch e ;; ret (with_switch_durability_result r warning)
                else
                  mgr_cleanup_epoch epoch ;;;
                  r <- fail_terminal e ;; ret (with_switch_durability_result r warning)
            | Ok replacement =>
                pid <- pid_of replacement ;;
                publish_instance replacement (Running epoch pid) plan ;;;
                install replacement plan ;;;
                c <- mgr_cleanup_epoch old_epoch ;;
                ret (with_switch_durability_result (res_map (λ _, Hard PatchFailed) c) warning)
            end
        end
  end.

(** [graceful_switch]. *)
Definition graceful_switch (spec : InstanceSpec) (snapshot : ConfigSnapshot) (resolved : ResolvedFeatures) :
    M Mgr (result SwitchOutcome Error) :=
  old_epoch <- gets (λ s, (λ a, inst_epoch (ac_instance a)) <$> mg_current s) ;;
  epoch <- next_epoch ;;
  r <- prepare_graceful spec epoch snapshot resolved ;;
  match r with
  | Err e => mgr_cleanup_epoch epoch ;;; republish_retained ;;; ret (Err e)
  | Ok prepared =>
      let plan := pg_plan prepared in
      let full_staged := pg_full_staged prepared in
      publish (Switching old_epoch epoch) (Some plan) ;;;
      r <- spawn_instance plan ;;
      match r with
      | Err e =>
          lift (drop_staged full_staged) ;;; mgr_cleanup_epoch epoch ;;; republish_retained ;;; ret (Err e)
      | Ok x =>
          ready <- lift (wait_ready x) ;;
          match ready with
          | Err e =>
              lift (drop_staged full_staged) ;;;
              stopped <- stop_instance x ;;
              match stopped with
              | Ok _ => mgr_cleanup_epoch epoch ;;; republish_retained ;;; ret (Err e)
              | Err stop_error =>
                  fail_quarantine epoch (StopUnconfirmed (error_display e
                    +:+ "; failed to stop rejected graceful bootstrap: " +:+ error_display stop_error))
              end
          | Ok _ =>
              r <- retire_current ;;
              match r with
              | Err (retired_epoch, e) =>
                  lift (drop_staged full_staged) ;;;
                  new_stop <- stop_instance x ;;
                  match new_stop with
                  | Ok _ => mgr_cleanup_epoch epoch ;;; fail_stop retired_epoch e
                  | Err new_error =>
                      (if is_stop_unconfirmed e
                       then modify (λ s, set_quarantine
                              (record_quarantine retired_epoch (error_display e) (mg_quarantine s)) s)
                       else ret tt) ;;;
                      fail_quarantine epoch (StopUnconfirmed ("old epoch stop failed: " +:+ error_display e
                        +:+ "; new bootstrap stop also failed: " +:+ error_display new_error))
                  end
              | Ok None => ret (Err NotStarted)   (* the [expect]: running checked by the caller *)
              | Ok (Some old) =>
                  graceful_commit x plan full_staged (pg_restoration prepared) (cr_epoch (ep_revision old))
              end
          end
      end
  end.

(** [switch_locked]. *)
Definition switch_locked (spec : InstanceSpec) : M Mgr (result SwitchOutcome Error) :=
  alive_now <- gets running ;;
  if negb alive_now then
    _ <-? discard_stale ;;
    _ <-? start_locked spec ;;
    ret (Ok (Hard NotRunning))
  else
    snapshot <-? load_snapshot (is_config_path spec) ;;
    _ <-? validate_launchable spec ;;
    resolved <-? resolve_features spec ;;
    let local_controller := bool_decide (LocalIpc ∈ rf_runtime resolved) in
    current_http <- gets (λ s, match mg_current s with
                               | Some a => has_http (ep_effective_document (ac_plan a))
                               | None => false
                               end) ;;
    let http_listener :=
      current_http || (li_keep_http_controller (local_ipc_settings spec) && has_http (sn_document snapshot)) in
    match graceful_degrade_reason (local_controller && negb http_listener) (cs_kind (is_core spec))
            (overlap_block (sn_document snapshot)) with
    | Some reason =>
        _ <-? hard_switch spec snapshot resolved ;;
        ret (Ok (Hard reason))
    | None => graceful_switch spec snapshot resolved
    end.

(** [restart] and [switch]. *)
Definition restart : M Mgr (result SwitchOutcome Error) :=
  _ <-? reject_quarantine ;;
  spec <- gets mg_last_spec ;;
  match spec with
  | None => ret (Err NotStarted)
  | Some spec => switch_locked spec
  end.
Definition switch (spec : InstanceSpec) : M Mgr (result SwitchOutcome Error) :=
  _ <-? reject_quarantine ;;
  switch_locked spec.

(** * Apply (apply.rs) *)

(** [with_durability_result]. *)
Definition with_durability_result (r : result ApplyOutcome Error) (warning : option string) :
    result ApplyOutcome Error :=
  match r, warning with
  | Ok outcome, Some w => Ok (ADurabilityUncertain outcome w)
  | Ok outcome, None => Ok outcome
  | Err e, Some w => Err (DurabilityUncertain e w)
  | Err e, None => Err e
  end.

(** [EpochPlan::classification_view]. *)
Definition classification_view (p : EpochPlan) : ConfigClassificationView :=
  mkView (ep_source_document p) (ep_effective_document p) (ep_source_spec p).

(** [prepare_apply]. *)
Definition prepare_apply (current : Active) (input : InstanceSpec) (snapshot : ConfigSnapshot) :
    M Mgr (result (EpochPlan * StagedRuntimeConfig) Error) :=
  _ <-? validate_launchable input ;;
  resolved <-? resolve_features input ;;
  let revision := ep_revision (ac_plan current) in
  let epoch := cr_epoch revision in
  prepared <-? prepare_with false input epoch resolved snapshot ;;
  staged <-? lift (stage (in_store self) epoch (pc_bytes prepared)) ;;
  _ <-? check_staged input staged [] ;;
  ret (Ok (launch_plan input epoch prepared resolved snapshot (cr_runtime_path revision)
             (cr_generation revision + 1), staged)).

(** [reconcile_in_place]. *)
Definition reconcile_in_place (current : Active) (change : ConfigChange) (desired : EpochPlan) : M W bool :=
  match change with
  | CPatch patch projection => patch_and_verify (ac_instance current) patch projection
  | CSwitch => ret false
  | CNoop => ret true
  | CReload =>
      match build_control_client (inst_controller (ac_instance current)) (mo_control_timeout (in_options self)) with
      | Err _ => ret false
      | Ok client =>
          r <- client_update_config client (cr_runtime_path (ep_revision desired)) ;;
          match r with
          | Err _ => ret false
          | Ok _ => probe <- probe_now (ac_instance current) ReconcilePhase ;; ret (is_healthy probe)
          end
      end
  end.

(** Install a replacement and publish it. *)
Definition install_and_publish (x : Instance_) (plan : EpochPlan) : M Mgr unit :=
  pid <- pid_of x ;;
  install x plan ;;;
  publish_active (mkActive x plan) (Running (cr_epoch (ep_revision plan)) pid).

(** Bring the old epoch back after a failed change; [prefix] names the
    transaction in an error. *)
Definition roll_back (old_plan : EpochPlan) (apply_text prefix : string)
    (installed : M Mgr unit) : M Mgr (result ApplyOutcome Error) :=
  publish (Restarting (cr_epoch (ep_revision old_plan)) 0) (Some old_plan) ;;;
  r <- spawn_replacement old_plan ;;
  match r with
  | Ok x =>
      install_and_publish x old_plan ;;;
      installed ;;;
      ret (Ok (RolledBack (ep_revision old_plan) apply_text))
  | Err rollback_error =>
      if is_stop_unconfirmed rollback_error then
        fail_quarantine (cr_epoch (ep_revision old_plan))
          (StopUnconfirmed (prefix +:+ " (" +:+ apply_text +:+ "); rollback replacement "
             +:+ error_display rollback_error))
      else fail_terminal (ApplyRollbackFailed apply_text (error_display rollback_error))
  end.

(** [restart_with_compensation]. *)
Definition restart_with_compensation (desired : EpochPlan) (bk : RuntimeConfigBackup) :
    M Mgr (result ApplyOutcome Error) :=
  r <- retire_current ;;
  match r with
  | Err (retired_epoch, e) =>
      if is_stop_unconfirmed e then fail_quarantine retired_epoch e
      else fail_terminal (ApplyFailed ("failed to stop current epoch for reconcile: " +:+ error_display e))
  | Ok None => ret (Err NotStarted)   (* the [expect]: current held by the control lock *)
  | Ok (Some old_plan) =>
      publish (Restarting (cr_epoch (ep_revision desired)) 0) (Some desired) ;;;
      r <- spawn_replacement desired ;;
      match r with
      | Ok x =>
          install_and_publish x desired ;;;
          lift (remove_backup bk) ;;;
          ret (Ok (Restarted (ep_revision desired)))
      | Err apply_error =>
          if is_stop_unconfirmed apply_error
          then fail_quarantine (cr_epoch (ep_revision desired)) apply_error
          else
            let apply_text := error_display apply_error in
            restored <- lift (restore (in_store self) bk) ;;
            match restored with
            | Err restore_error =>
                fail_terminal (ApplyRollbackFailed apply_text
                  ("runtime restore failed: " +:+ error_display restore_error))
            | Ok commit =>
                rollback <- roll_back old_plan apply_text "desired apply failed"
                              (lift (remove_backup bk) ;;; ret tt) ;;
                ret (with_durability_result rollback (durability_warning commit))
            end
      end
  end.

(** [switch_with_compensation]. *)
Definition switch_with_compensation (input : InstanceSpec) (snapshot : ConfigSnapshot) :
    M Mgr (result ApplyOutcome Error) :=
  epoch <- next_epoch ;;
  desired <-? prepare_launch input epoch snapshot ;;
  r <- retire_current ;;
  match r with
  | Err (retired_epoch, e) =>
      mgr_cleanup_epoch epoch ;;;
      if is_stop_unconfirmed e then fail_quarantine retired_epoch e
      else fail_terminal (ApplyFailed ("failed to stop current epoch for switch: " +:+ error_display e))
  | Ok None => ret (Err NotStarted)   (* the [expect]: current held by the control lock *)
  | Ok (Some old_plan) =>
      publish (Switching (Some (cr_epoch (ep_revision old_plan))) (cr_epoch (ep_revision desired)))
        (Some desired) ;;;
      r <- spawn_replacement desired ;;
      match r with
      | Ok x =>
          install_and_publish x desired ;;;
          mgr_cleanup_epoch (cr_epoch (ep_revision old_plan)) ;;;
          ret (Ok (Switched (ep_revision desired)))
      | Err apply_error =>
          if is_stop_unconfirmed apply_error
          then fail_quarantine (cr_epoch (ep_revision desired)) apply_error
          else
            mgr_cleanup_epoch epoch ;;;
            roll_back old_plan (error_display apply_error) "desired switch failed" (ret tt)
      end
  end.

(** The in-place part of [apply_locked]: back up, replace, reconcile. *)
Definition apply_in_place (current : Active) (change : ConfigChange) (desired : EpochPlan)
    (staged : StagedRuntimeConfig) : M Mgr (result ApplyOutcome Error) :=
  b <- lift (backup (in_store self) (cr_epoch (ep_revision (ac_plan current)))
               (cr_generation (ep_revision desired))) ;;
  match b with
  | Err e => lift (drop_staged staged) ;;; ret (Err e)
  | Ok bk =>
      c <- lift (commit_replace (in_store self) staged (cr_epoch (ep_revision desired))) ;;
      match c with
      | Err e => lift (remove_backup bk) ;;; ret (Err e)
      | Ok commit =>
          let warning := durability_warning commit in
          r <- lift (timeout (mo_reconcile_timeout (in_options self))
                       (reconcile_in_place current change desired)) ;;
          if default false r then
            let revision := ep_revision desired in
            let outcome := match change with CReload => Reloaded revision | _ => Patched revision end in
            let active := mkActive (ac_instance current) desired in
            modify (set_current (Some active)) ;;;
            pid <- pid_of (ac_instance current) ;;
            publish_active active (Running (cr_epoch revision) pid) ;;;
            modify (set_last_spec (Some (ep_source_spec desired))) ;;;
            lift (remove_backup bk) ;;;
            ret (with_durability_result (Ok outcome) warning)
          else
            r <- restart_with_compensation desired bk ;;
            ret (with_durability_result r warning)
      end
  end.

(** [apply_locked]. *)
Definition apply_locked (input : InstanceSpec) (expected_revision : option RevisionId) :
    M Mgr (result ApplyOutcome Error) :=
  cur <- gets mg_current ;;
  match cur with
  | None => ret (Err NotStarted)
  | Some current =>
      st <- status_of (ac_instance current) ;;
      if is_terminal (st_state st) then ret (Err NotStarted)
      else
        let actual := revision_id (ep_revision (ac_plan current)) in
        _ <-? (match expected_revision with
        | Some expected =>
            if bool_decide (expected = actual) then ret (Ok tt)
            else ret (Err (RevisionConflict expected (Some actual)))
        | None => ret (Ok tt)
        end) ;;
        snapshot <-? load_snapshot (is_config_path input) ;;
        prepared <-? prepare_apply current input snapshot ;;
        let '(desired, staged) := prepared in
        match classify (classification_view (ac_plan current)) (classification_view desired) with
        | Err e => lift (drop_staged staged) ;;; ret (Err e)
        | Ok CNoop =>
            let plan := ac_plan current in
            modify (λ s, set_last_spec (Some input)
              (set_current (Some (mkActive (ac_instance current)
                 (mkPlan input (ep_effective_spec plan) (ep_controller plan) (ep_revision plan)
                    (ep_capabilities plan) (ep_runtime_features plan) (ep_source_document plan)
                    (ep_effective_document plan)))) s)) ;;;
            lift (drop_staged staged) ;;;
            ret (Ok (Noop (ep_revision plan)))
        | Ok CSwitch => lift (drop_staged staged) ;;; switch_with_compensation input snapshot
        | Ok change => apply_in_place current change desired staged
        end
  end.

(** [apply_config]. *)
Definition apply_config (input : InstanceSpec) (expected_revision : option RevisionId) :
    M Mgr (result ApplyOutcome Error) :=
  _ <-? reject_quarantine ;;
  apply_locked input expected_revision.

(** * Reconcile (reconcile.rs) *)

(** [reconcile_locked]. *)
Definition reconcile_locked (spec : InstanceSpec) (expected_applied : option RevisionId) :
    M Mgr (result ApplyOutcome Error) :=
  alive_now <- gets running ;;
  if alive_now then apply_locked spec expected_applied
  else match expected_applied with
       | Some expected => ret (Err (RevisionConflict expected None))
       | None =>
           _ <-? discard_stale ;;
           _ <-? start_locked spec ;;
           cur <- gets mg_current ;;
           match cur with
           | Some a => ret (Ok (Started (ep_revision (ac_plan a))))
           | None => ret (Err NotStarted)   (* the [expect]: start_locked installed it *)
           end
       end.

(** [reconcile]. *)
Definition reconcile (spec : InstanceSpec) (expected_applied : option RevisionId) :
    M Mgr (result ApplyOutcome Error) :=
  _ <-? reject_quarantine ;;
  r <- reconcile_locked spec expected_applied ;;
  runtime_alive <- gets running ;;
  (if res_is_ok r || negb runtime_alive then dns_converge else ret tt) ;;;
  ret r.

(** * Quarantine recovery (quarantine.rs) *)

(** Set [death_proven] on the first entry of the epoch. *)
Fixpoint mark_dead (epoch : Epoch) (q : list QuarantinedEpoch) : list QuarantinedEpoch :=
  match q with
  | [] => []
  | e :: q' =>
      if (qe_epoch e =? epoch)%Z then mkQuarantined (qe_epoch e) (qe_reason e) true :: q'
      else e :: mark_dead epoch q'
  end.

Definition failure_text (entry : QuarantinedEpoch) (what : string) : string :=
  "epoch " +:+ fmt_u64 (qe_epoch entry) +:+ ": " +:+ qe_reason entry +:+ "; " +:+ what.

(** One entry: prove its death unless that was done, then clean up; the result
    is the failure to report. *)
Definition recover_entry (entry : QuarantinedEpoch) : M Mgr (option string) :=
  let epoch := qe_epoch entry in
  proven <- (if qe_death_proven entry then ret (Ok tt)
             else
               r <- lift (reap_epoch_pid_file (pid_path (in_store self) epoch) (rs_dir (in_store self))) ;;
               match r with
               | Ok ReapNotFound =>
                   ret (Err (failure_text entry "authoritative epoch pid record is unavailable"))
               | Ok _ =>
                   modify (λ s, set_quarantine (mark_dead epoch (mg_quarantine s)) s) ;;; ret (Ok tt)
               | Err e => ret (Err (failure_text entry ("recovery failed: " +:+ e)))
               end) ;;
  match proven with
  | Err failure => ret (Some failure)
  | Ok _ =>
      c <- mgr_cleanup_epoch epoch ;;
      match c with
      | Ok _ =>
          modify (λ s, set_quarantine
            (List.filter (λ e, negb (qe_epoch e =? epoch)%Z) (mg_quarantine s)) s) ;;; ret None
      | Err e => ret (Some (failure_text entry ("artifact cleanup failed: " +:+ error_display e)))
      end
  end.

Fixpoint recover_loop (entries : list QuarantinedEpoch) : M Mgr (list string) :=
  match entries with
  | [] => ret []
  | entry :: rest =>
      f <- recover_entry entry ;;
      fs <- recover_loop rest ;;
      ret (match f with Some f => f :: fs | None => fs end)
  end.

(** [recover_quarantine]. *)
Definition recover_quarantine : M Mgr (result unit Error) :=
  q <- gets mg_quarantine ;;
  if bool_decide (length q = 0%nat) then ret (Ok tt)
  else
    failures <- recover_loop q ;;
    match failures with
    | [] =>
        publish (Stopped None) None ;;;
        dns_restore ;;;
        ret (Ok tt)
    | _ =>
        first <- gets (λ s, head (mg_quarantine s)) ;;
        match first with
        | Some e => ret (Err (ManagerQuarantined (qe_epoch e) (join " | " failures)))
        | None => ret (Ok tt)   (* the [expect]: a failed recovery leaves its epoch quarantined *)
        end
    end.
End ops.
End manager.
