(* ===== verification/ManagerSafety.v ===== *)
(** No process is ever lost: every instance that may still be running is the
    installed one or belongs to a quarantined epoch, whatever the orchestrator
    does and whatever fails.  The proofs are Hoare triples over the operations
    of [Manager]; the instances an operation holds in its local variables are
    tracked by the list [X] of the assertion [I]. *)
From S2P Require Import Prelude Text Paths Metadata Types Health Yaml Diff Mihomo Config Capability RuntimeStore Runtime Manager.
From Stdlib Require Import ZArith Lia.

Create HintDb inert.

(** Whether the quarantine gate was passed: an operation that launches rejects
    a quarantined manager first, so that while it runs no quarantined epoch has
    its death proven; [stop], [shutdown] and the recovery do not. *)
Class Gate := gated : bool.
Class Launching {G : Gate} := launching : gated = true.

Section safety.
Context {PL : ProcessLib} {YF : YamlFloat} {PC : PatchCodec}.
Context {YC : YamlCodec} {UL : UrlLib} {SV : Semver}.
Context {W : Type} {EN : Env W} {FS : RuntimeFs W} {BH : BinaryHost W} {EL : EnvLaws W} {G : Gate}.
Context (self : Inner).

(** * Assertions *)

(** Accounted for: held locally, installed, or quarantined. *)
Definition covered (X : list Instance_) (s : Mgr) (i : Instance_) : Prop :=
  i ∈ X ∨ (∃ a, mg_current s = Some a ∧ ac_instance a = i)
  ∨ inst_epoch i ∈ qe_epoch <$> mg_quarantine s.

(** No instance of the epoch may still be running. *)
Definition epoch_dead (w : W) (e : Epoch) : Prop := ∀ i, alive w i → inst_epoch i ≠ e.

(** A proven death is one. *)
Definition deaths (w : W) (q : list QuarantinedEpoch) : Prop :=
  ∀ x, x ∈ q → qe_death_proven x = true → gated = false ∧ epoch_dead w (qe_epoch x).

Record Inv (X : list Instance_) (s : Mgr) : Prop := {
  inv_covered : ∀ i, alive (mg_world s) i → covered X s i;
  inv_epoch : ∀ a, mg_current s = Some a →
    inst_epoch (ac_instance a) = cr_epoch (ep_revision (ac_plan a));
  inv_deaths : deaths (mg_world s) (mg_quarantine s);
}.

Lemma deaths_mono w w' q : (∀ i, alive w' i → alive w i) → deaths w q → deaths w' q.
Proof. intros Hw Hd x Hx Hp. destruct (Hd x Hx Hp) as [? Hdead]. split; [done|]. intros i Hi. by apply Hdead, Hw. Qed.

(** With the installed epoch known. *)
Definition I (X : list Instance_) (c : option Active) (s : Mgr) : Prop :=
  Inv X s ∧ mg_current s = c.

Definition Post (X : list Instance_) (s : Mgr) : Prop := ∃ c, I X c s.

Lemma I_post X c s : I X c s → Post X s.
Proof. by exists c. Qed.

(** The part of the control state that the lifecycle is about. *)
Record Slot := mkSlot {
  sl_last : Z;
  sl_current : option Active;
  sl_last_spec : option InstanceSpec;
  sl_quarantine : list QuarantinedEpoch;
}.

Definition slot_of (s : Mgr) : Slot := mkSlot (mg_last s) (mg_current s) (mg_last_spec s) (mg_quarantine s).

(** Operations that bring up nothing and leave the slot alone. *)
Definition inert {A} (m : M Mgr A) : Prop :=
  ∀ s, slot_of (m s).2 = slot_of s ∧ ∀ i, alive (mg_world (m s).2) i → alive (mg_world s) i.

Lemma inert_ret {A} (a : A) : inert (ret a).
Proof. done. Qed.

Lemma inert_gets {A} (f : Mgr → A) : inert (gets f).
Proof. done. Qed.

Lemma inert_bind {A B} (m : M Mgr A) (k : A → M Mgr B) :
  inert m → (∀ a, inert (k a)) → inert (bind m k).
Proof.
  intros Hm Hk s. unfold bind. destruct (Hm s) as [E1 H1]. destruct (m s) as [a s']. simpl in *.
  destruct (Hk a s') as [E2 H2]. split; [congruence|auto].
Qed.

Lemma inert_bind_ok {A B E} (m : M Mgr (result A E)) (k : A → M Mgr (result B E)) :
  inert m → (∀ a, inert (k a)) → inert (bind_ok m k).
Proof. intros Hm Hk. apply inert_bind; [done|]. intros [a|e]; [done|apply inert_ret]. Qed.

Lemma inert_lift {A} (m : M W A) : quiesces alive m → inert (lift m).
Proof.
  intros Hm s. unfold lift. specialize (Hm (mg_world s)). by destruct (m (mg_world s)).
Qed.

Lemma inert_modify f : (∀ s, slot_of (f s) = slot_of s ∧ mg_world (f s) = mg_world s) → inert (modify f).
Proof. intros Hf s. destruct (Hf s) as [E1 E2]. split; [exact E1|]. simpl. by rewrite E2. Qed.

(** What the invariant reads. *)
Lemma I_mono X c s s' :
  mg_current s' = mg_current s → mg_quarantine s' = mg_quarantine s →
  (∀ i, alive (mg_world s') i → alive (mg_world s) i) → I X c s → I X c s'.
Proof.
  intros E1 E2 Hw [[Hc He Hd] Hcur]. split; [split|].
  - intros i Hi. unfold covered. rewrite E1, E2. by apply Hc, Hw.
  - by rewrite E1.
  - rewrite E2. by eapply deaths_mono.
  - by rewrite E1.
Qed.

Lemma inert_hoare {A} (m : M Mgr A) : inert m → ∀ X c, hoare (I X c) m (λ _, I X c).
Proof.
  intros Hm X c s Hs. destruct (Hm s) as [E Hw]. injection E as _ E1 _ E2. by eapply I_mono.
Qed.

Lemma set_last_spec_hoare X c l : hoare (I X c) (modify (set_last_spec l)) (λ _, I X c).
Proof. intros s Hs. by apply (I_mono X c s). Qed.

Lemma next_epoch_hoare X c : hoare (I X c) next_epoch (λ _, I X c).
Proof. intros s Hs. by apply (I_mono X c s). Qed.

(** Composition. *)
Lemma hoare_inert_bind {A B} (m : M Mgr A) (k : A → M Mgr B) X c Q :
  inert m → (∀ a, hoare (I X c) (k a) Q) → hoare (I X c) (bind m k) Q.
Proof. intros Hm Hk. eapply hoare_bind; [by apply inert_hoare|done]. Qed.

Lemma hoare_inert_bind_ok {A B E} (m : M Mgr (result A E)) (k : A → M Mgr (result B E)) X c Q :
  inert m → (∀ e s, I X c s → Q (Err e) s) → (∀ a, hoare (I X c) (k a) Q) →
  hoare (I X c) (bind_ok m k) Q.
Proof.
  intros Hm He Hk. eapply hoare_bind; [by apply inert_hoare|]. intros [a|e]; [done|]. apply hoare_ret. apply He.
Qed.

Lemma hoare_inert_end {A} (m : M Mgr A) X c Q :
  inert m → (∀ a s, I X c s → Q a s) → hoare (I X c) m Q.
Proof. intros Hm HQ. eapply hoare_post; [by apply inert_hoare|exact HQ]. Qed.

Lemma hoare_next_epoch {B} (k : Epoch → M Mgr B) X c Q :
  (∀ e, hoare (I X c) (k e) Q) → hoare (I X c) (bind next_epoch k) Q.
Proof. intros Hk. eapply hoare_bind; [apply next_epoch_hoare|done]. Qed.
End safety.

#[export] Hint Resolve inert_ret inert_gets : inert.

(** Show that a composed operation is inert. *)
Ltac inertly :=
  repeat match goal with
  | |- inert (match ?x with _ => _ end) => destruct x
  | |- inert (bind_ok _ _) => apply inert_bind_ok; [|intros ?]
  | |- inert (bind _ _) => apply inert_bind; [|intros ?]
  | |- inert (lift _) => apply inert_lift; quiesce
  | |- inert (modify _) => apply inert_modify; intros ?; done
  | |- inert _ => solve [eauto with inert]
  end.

Section inert_ops.
Context {PL : ProcessLib} {YF : YamlFloat} {PC : PatchCodec}.
Context {YC : YamlCodec} {UL : UrlLib} {SV : Semver}.
Context {W : Type} {EN : Env W} {FS : RuntimeFs W} {BH : BinaryHost W} {EL : EnvLaws W} {G : Gate}.
Context (self : Inner).

Lemma publish_inert st p : inert (publish st p).
Proof.
  unfold publish. apply inert_bind; [inertly|]. intros now. by apply inert_modify.
Qed.

Lemma publish_instance_inert x st p : inert (publish_instance x st p).
Proof.
  unfold publish_instance, status_of. apply inert_bind; [inertly|]. intros sn. apply inert_bind; [inertly|].
  intros u. apply inert_bind; [inertly|]. intros now. by apply inert_modify.
Qed.

Lemma publish_epoch_status_inert e x : inert (publish_epoch_status e x).
Proof.
  unfold publish_epoch_status. apply inert_bind; [inertly|]. intros now.
  apply inert_modify. intros s. by case_match.
Qed.

Lemma publish_terminal_error_inert e : inert (publish_terminal_error e).
Proof. apply publish_inert. Qed.
End inert_ops.

#[export] Hint Resolve publish_inert publish_instance_inert
  publish_epoch_status_inert publish_terminal_error_inert : inert.

Section inert_ops2.
Context {PL : ProcessLib} {YF : YamlFloat} {PC : PatchCodec}.
Context {YC : YamlCodec} {UL : UrlLib} {SV : Semver}.
Context {W : Type} {EN : Env W} {FS : RuntimeFs W} {BH : BinaryHost W} {EL : EnvLaws W} {G : Gate}.
Context (self : Inner).

Lemma forward_status_inert : inert forward_status.
Proof. unfold forward_status, status_of. inertly. Qed.

Lemma republish_retained_inert : inert republish_retained.
Proof. unfold republish_retained, status_of, publish_active. inertly. Qed.

Lemma cleanup_controller_quiesces e : quiesces alive (cleanup_controller self e).
Proof.
  unfold cleanup_controller. destruct (mo_controller_dir _); [|quiesce].
  apply quiesces_bind; [by intros w i|]. intros canon. quiesce.
Qed.

Lemma mgr_cleanup_epoch_inert e : inert (mgr_cleanup_epoch self e).
Proof.
  apply inert_lift. apply quiesces_bind_ok; [apply cleanup_controller_quiesces|].
  intros ?. apply cleanup_artifacts_quiesces.
Qed.

Lemma load_snapshot_inert p : inert (load_snapshot p).
Proof. unfold load_snapshot. inertly. Qed.

Lemma validate_launchable_inert s : inert (validate_launchable s).
Proof. unfold validate_launchable. inertly. Qed.

(** The version cache lives beside the world. *)
Definition cache_quiesces {A} (m : M (VersionCache * W) A) : Prop :=
  ∀ c w i, alive (m (c, w)).2.2 i → alive w i.

Lemma cache_quiesces_bind_ok {A B E} (m : M (VersionCache * W) (result A E)) k :
  cache_quiesces m → (∀ a, cache_quiesces (k a)) →
  cache_quiesces (bind_ok (B:=B) m k).
Proof.
  intros Hm Hk c w i. unfold bind_ok, bind, ret. specialize (Hm c w).
  destruct (m (c, w)) as [[a|e] [c' w']]; simpl in *; [|apply Hm]. intros H. by eapply Hm, Hk.
Qed.

Lemma on_world_quiesces {A} (m : M W A) : quiesces alive m → cache_quiesces (on_world m).
Proof.
  intros Hm c w i. unfold on_world. specialize (Hm w). destruct (m w) as [a w']. simpl in *. apply Hm.
Qed.

Lemma cache_resolve_quiesces spec : cache_quiesces (cache_resolve spec).
Proof.
  unfold cache_resolve. destruct (cs_version spec); [by intros c w i|].
  assert (cache_quiesces (on_world (binary_modified (cs_binary_path spec)))) as Hm.
  { apply on_world_quiesces. unfold binary_modified. quiesce. }
  apply cache_quiesces_bind_ok; [done|]. intros t c w i. unfold bind at 1, gets. simpl.
  case_match; [done|]. revert c w i H. intros c w i _. revert c w i.
  apply (cache_quiesces_bind_ok (on_world (probe_version (cs_binary_path spec)))).
  { apply on_world_quiesces. unfold probe_version. quiesce. }
  intros v. apply cache_quiesces_bind_ok; [done|]. intros t'. by case_match; intros c w i.
Qed.

Lemma lift_cache_inert {A} (m : M (VersionCache * W) A) : cache_quiesces m → inert (lift_cache m).
Proof.
  intros Hm s. unfold lift_cache. specialize (Hm (mg_cache s) (mg_world s)).
  by destruct (m (mg_cache s, mg_world s)) as [a [c' w']].
Qed.

Lemma resolve_features_inert spec : inert (resolve_features self spec).
Proof.
  unfold resolve_features. destruct (negb _ && _); [inertly|]. apply lift_cache_inert.
  unfold capability_resolve_features. apply cache_quiesces_bind_ok.
  - destruct (bool_decide (potential_features _ = [])); [by intros c w i|]. apply cache_quiesces_bind_ok; [apply cache_resolve_quiesces|].
    by intros v c w i.
  - intros [caps v]. by case_match; intros c w i.
Qed.

Lemma prepare_with_inert z s e r sn : inert (prepare_with self z s e r sn).
Proof. unfold prepare_with. inertly. Qed.

Lemma check_staged_inert s st os : inert (check_staged s st os).
Proof.
  unfold check_staged. apply inert_bind; [inertly|]. intros [u|e]; [inertly|].
  apply inert_bind; [|intros ?; inertly]. apply inert_lift.
  induction (st :: os) as [|x l IH]; cbn [foldr]; quiesce; exact IH.
Qed.
End inert_ops2.

#[export] Hint Resolve forward_status_inert republish_retained_inert mgr_cleanup_epoch_inert
  load_snapshot_inert validate_launchable_inert resolve_features_inert prepare_with_inert
  check_staged_inert : inert.

Section inert_ops3.
Context {PL : ProcessLib} {YF : YamlFloat} {PC : PatchCodec}.
Context {YC : YamlCodec} {UL : UrlLib} {SV : Semver}.
Context {W : Type} {EN : Env W} {FS : RuntimeFs W} {BH : BinaryHost W} {EL : EnvLaws W} {G : Gate}.
Context (self : Inner).

Lemma prepare_launch_with_features_inert s e sn r : inert (prepare_launch_with_features self s e sn r).
Proof. unfold prepare_launch_with_features. inertly. Qed.

Lemma prepare_launch_inert s e sn : inert (prepare_launch self s e sn).
Proof.
  unfold prepare_launch. inertly. apply prepare_launch_with_features_inert.
Qed.

Lemma or_drop_staged_inert {A B} st (m : M Mgr (result A Error)) (k : A → M Mgr (result B Error)) :
  inert m → (∀ a, inert (k a)) → inert (or_drop_staged st m k).
Proof. intros Hm Hk. apply inert_bind; [done|]. intros [a|e]; [done|]. inertly. Qed.

Lemma prepare_graceful_inert s e sn r : inert (prepare_graceful self s e sn r).
Proof.
  unfold prepare_graceful. apply inert_bind_ok; [inertly|]. intros full.
  apply inert_bind_ok; [inertly|]. intros boot. case_match; [inertly|].
  apply inert_bind_ok; [inertly|]. intros rest. apply inert_bind_ok; [inertly|]. intros st.
  apply inert_bind_ok; [inertly|]. intros ?. apply or_drop_staged_inert; [inertly|]. intros bst.
  apply inert_bind_ok; [inertly|]. intros ?. apply or_drop_staged_inert; [inertly|]. intros path. inertly.
Qed.

Lemma prepare_apply_inert a s sn : inert (prepare_apply self a s sn).
Proof. unfold prepare_apply. inertly. Qed.

Lemma publish_dns_record_quiesces r : quiesces alive (publish_dns_record self r).
Proof. unfold publish_dns_record. quiesce. Qed.

Lemma clear_dns_record_quiesces : quiesces alive (clear_dns_record self).
Proof. unfold clear_dns_record. quiesce. Qed.

Lemma persist_dns_record_inert r : inert (persist_dns_record self r).
Proof.
  unfold persist_dns_record. apply inert_bind_ok.
  - apply inert_lift. destruct r; [apply publish_dns_record_quiesces|apply clear_dns_record_quiesces].
  - intros ?. inertly.
Qed.

Lemma dns_restore_inert : inert (dns_restore self).
Proof.
  unfold dns_restore. case_match; [inertly|]. apply inert_bind; [inertly|]. intros [r|]; [|inertly].
  apply inert_bind; [apply persist_dns_record_inert|]. intros ?. apply inert_bind; [inertly|].
  intros [[?|?]|]; inertly. apply persist_dns_record_inert.
Qed.

Lemma dns_converge_inert : inert (dns_converge self).
Proof.
  unfold dns_converge. case_match; [inertly|]. apply inert_bind; [inertly|].
  intros [[intent e]|]; [|apply dns_restore_inert]. apply inert_bind; [inertly|]. intros b.
  apply inert_bind; [apply persist_dns_record_inert|]. intros [?|?]; [|inertly].
  apply inert_bind; [inertly|]. intros [[rec|?]|]; try (by inertly).
  destruct b as [[i p]|]; [case_match; [inertly|]|]; (apply inert_bind; [apply persist_dns_record_inert|intros ?; inertly]).
Qed.

Lemma patch_and_verify_quiesces x p pr : quiesces alive (patch_and_verify self x p pr).
Proof. unfold patch_and_verify. quiesce. Qed.

Lemma reconcile_bootstrap_inert x r : inert (reconcile_bootstrap self x r).
Proof.
  unfold reconcile_bootstrap. apply inert_bind; [|intros ?; inertly]. apply inert_lift, timeout_quiesces.
  destruct r as [[p pr]|]; [apply patch_and_verify_quiesces|quiesce].
Qed.

Lemma reconcile_in_place_quiesces a ch d : quiesces alive (reconcile_in_place self a ch d).
Proof.
  unfold reconcile_in_place. destruct ch; [quiesce|apply patch_and_verify_quiesces|quiesce|quiesce].
Qed.

Lemma fail_terminal_inert {A} e : inert (fail_terminal (A:=A) e).
Proof. unfold fail_terminal. inertly. Qed.
End inert_ops3.

#[export] Hint Resolve prepare_launch_with_features_inert prepare_launch_inert prepare_graceful_inert
  prepare_apply_inert persist_dns_record_inert dns_restore_inert dns_converge_inert
  reconcile_bootstrap_inert fail_terminal_inert : inert.

Section live_ops.
Context {PL : ProcessLib} {YF : YamlFloat} {PC : PatchCodec}.
Context {YC : YamlCodec} {UL : UrlLib} {SV : Semver}.
Context {W : Type} {EN : Env W} {FS : RuntimeFs W} {BH : BinaryHost W} {EL : EnvLaws W} {G : Gate}.
Context (self : Inner).
Implicit Types (X : list Instance_) (c : option Active).

(** * Operations that start, stop, install or quarantine *)
Lemma record_quarantine_epochs e r q e' :
  e' ∈ qe_epoch <$> record_quarantine e r q ↔ e' = e ∨ e' ∈ qe_epoch <$> q.
Proof.
  induction q as [|x q IH]; simpl; [set_solver|].
  destruct (Z.eqb_spec (qe_epoch x) e) as [<-|]; simpl; rewrite !elem_of_cons; [naive_solver|].
  rewrite IH. naive_solver.
Qed.

Lemma record_quarantine_proven e r q x :
  x ∈ record_quarantine e r q → qe_death_proven x = true →
  ∃ y, y ∈ q ∧ qe_death_proven y = true ∧ qe_epoch y = qe_epoch x.
Proof.
  induction q as [|z q IH]; simpl; [intros ->%list_elem_of_singleton; by intros [=]|].
  destruct (Z.eqb_spec (qe_epoch z) e); rewrite elem_of_cons; intros [->|Hx] Hp; simpl in *.
  - exists z. set_solver.
  - exists x. set_solver.
  - exists z. set_solver.
  - destruct (IH Hx Hp) as (y & ? & ? & ?). exists y. set_solver.
Qed.

Lemma record_quarantine_deaths w e r q : deaths w q → deaths w (record_quarantine e r q).
Proof.
  intros Hd x Hx Hp. destruct (record_quarantine_proven _ _ _ _ Hx Hp) as (y & Hy & Hpy & <-). by apply Hd.
Qed.

(** Possibly one more live instance, of the epoch [e]. *)
Definition IQ X c (e : Epoch) (s : Mgr) : Prop :=
  I X c s ∨ ∃ x, inst_epoch x = e ∧ I (x :: X) c s.

(** Quarantining an epoch accounts for its instances. *)
Lemma record_quarantine_spec X c e r :
  hoare (IQ X c e) (modify (λ s, set_quarantine (record_quarantine e r (mg_quarantine s)) s))
    (λ _, I X c).
Proof.
  intros s Hs. assert (mg_current s = c) as Hcur by (by destruct Hs as [[_ ?]|(? & _ & [_ ?])]).
  assert (∀ i, alive (mg_world s) i → covered X s i ∨ inst_epoch i = e) as Hc.
  { destruct Hs as [[[Hc _ _] _]|(x & Hx & [[Hc _ _] _])]; intros i Hi; [left; by apply Hc|].
    destruct (Hc i Hi) as [Hin|[?|?]]; [|left; right; by left|left; by right; right].
    apply elem_of_cons in Hin as [->|Hin]; [by right|left; by left]. }
  assert (∀ a, mg_current s = Some a → inst_epoch (ac_instance a) = cr_epoch (ep_revision (ac_plan a))) as He.
  { destruct Hs as [[[_ He _] _]|(x & _ & [[_ He _] _])]; exact He. }
  assert (deaths (mg_world s) (mg_quarantine s)) as Hd.
  { destruct Hs as [[[_ _ Hd] _]|(x & _ & [[_ _ Hd] _])]; exact Hd. }
  split; [split|done]; simpl; [|exact He|by apply record_quarantine_deaths]. intros i Hi. unfold covered. simpl.
  rewrite record_quarantine_epochs. destruct (Hc i Hi) as [[?|[?|?]]|?]; auto.
Qed.

Lemma latch_quarantine_spec X c e err : hoare (IQ X c e) (latch_quarantine e err) (λ _, I X c).
Proof.
  unfold latch_quarantine. eapply hoare_bind; [apply record_quarantine_spec|].
  intros ?. apply hoare_inert_bind; [inertly|]. intros q. apply hoare_inert_bind; [inertly|].
  intros ?. apply inert_hoare, inert_ret.
Qed.

Lemma fail_quarantine_spec {A} X c e err :
  hoare (IQ X c e) (fail_quarantine (A:=A) e err) (λ _, I X c).
Proof.
  unfold fail_quarantine. eapply hoare_bind; [apply latch_quarantine_spec|].
  intros ?. apply inert_hoare, inert_ret.
Qed.

(** An unproven stop always ends in quarantine. *)
Lemma fail_stop_spec {A} X c e err :
  is_stop_unconfirmed err = true → hoare (IQ X c e) (fail_stop (A:=A) e err) (λ _, I X c).
Proof. intros Hu. unfold fail_stop. rewrite Hu. apply fail_quarantine_spec. Qed.

Lemma hoare_to_post {A} (m : M Mgr A) P X c : hoare P m (λ _, I X c) → hoare P m (λ _, Post X).
Proof. intros H. eapply hoare_post; [exact H|]. intros a s Hs. exact (I_post _ _ _ Hs). Qed.

Lemma I_IQ x X c e s : inst_epoch x = e → I (x :: X) c s → IQ X c e s.
Proof. intros. right. by exists x. Qed.

Lemma IQ_inert {A} (m : M Mgr A) X c e : inert m → hoare (IQ X c e) m (λ _, IQ X c e).
Proof.
  intros Hm s [H|(x & Hx & H)]; [left; by apply inert_hoare|]. right. exists x. split; [done|]. by apply inert_hoare.
Qed.

Lemma spawn_instance_spec {L : Launching} X c plan :
  hoare (I X c) (spawn_instance plan)
    (λ r s, match r with
            | Ok x => inst_epoch x = cr_epoch (ep_revision plan)
                      ∧ inst_controller x = ep_controller plan ∧ I (x :: X) c s
            | Err _ => I X c s
            end).
Proof.
  intros s [[Hc He Hd] Hcur]. unfold spawn_instance, lift. set (req := mkLaunch _ _ _ _ _).
  destruct (backend_launch req (mg_world s)) as [[x|e] w] eqn:E; simpl.
  - destruct (launch_ok req (mg_world s) x) as (H1 & H2 & H3); [by rewrite E|]. rewrite E in H3. simpl in H3.
    split_and!; [done|done|]. split; [split|done]; simpl; [|exact He|].
    2:{ intros y Hy Hp. destruct (Hd y Hy Hp). by rewrite launching in *. }
    intros i Hi. destruct (H3 i Hi) as [Hold| ->]; [|left; set_solver].
    destruct (Hc i Hold) as [?|[?|?]]; [left; set_solver|right; by left|by right; right].
  - pose proof (launch_err req (mg_world s) e) as H. rewrite E in H. simpl in H. specialize (H eq_refl).
    split; [split|done]; simpl; [|exact He|by eapply deaths_mono]. intros i Hi. exact (Hc i (H i Hi)).
Qed.

Lemma stop_instance_spec x X c :
  hoare (I (x :: X) c) (stop_instance self x)
    (λ r s, match r with
            | Ok _ => I X c s
            | Err e => is_stop_unconfirmed e = true ∧ I (x :: X) c s
            end).
Proof.
  intros s [[Hc He Hd] Hcur]. unfold stop_instance, lift.
  pose proof (stop_quiesces x (stop_timeout self) (mg_world s)) as Hq.
  pose proof (stop_proves x (stop_timeout self) (mg_world s)) as Hp.
  pose proof (stop_honest x (stop_timeout self) (mg_world s)) as Hh.
  destruct (stop_and_confirm_dead x (stop_timeout self) (mg_world s)) as [[u|e] w]; simpl in *.
  - split; [split|done]; simpl; [|exact He|by eapply deaths_mono]. intros i Hi.
    destruct (Hc i (Hq i Hi)) as [Hin|[?|?]]; [|right; by left|by right; right].
    apply elem_of_cons in Hin as [->|Hin]; [by destruct (Hp u eq_refl)|by left].
  - split; [by apply Hh|]. split; [split|done]; simpl; [|exact He|by eapply deaths_mono]. intros i Hi. exact (Hc i (Hq i Hi)).
Qed.

Lemma take_current_spec X a :
  hoare (I X (Some a)) (modify (set_current None)) (λ _ s,
    inst_epoch (ac_instance a) = cr_epoch (ep_revision (ac_plan a)) ∧ I (ac_instance a :: X) None s).
Proof.
  intros s [[Hc He Hd] Hcur]. split; [by apply He|]. split; [split|done]; simpl; [|done|done].
  intros i Hi. destruct (Hc i Hi) as [?|[(b & Hb & <-)|?]]; [left; set_solver| |by right; right].
  left. rewrite Hcur in Hb. simplify_eq. set_solver.
Qed.

Lemma install_spec x X plan :
  inst_epoch x = cr_epoch (ep_revision plan) →
  hoare (I (x :: X) None) (install x plan) (λ _, I X (Some (mkActive x plan))).
Proof.
  intros Hx s [[Hc He Hd] Hcur]. split; [split|done]; simpl; [|by intros a [= <-]|done].
  intros i Hi. destruct (Hc i Hi) as [Hin|[(b & Hb & <-)|?]]; [| congruence |by right; right].
  apply elem_of_cons in Hin as [->|Hin]; [|by left]. right. left. by eexists.
Qed.

(** Reading the slot. *)
Lemma hoare_get_current {B} (k : option Active → M Mgr B) X c Q :
  hoare (I X c) (k c) Q → hoare (I X c) (bind (gets mg_current) k) Q.
Proof. intros H s Hs. unfold bind, gets. rewrite (proj2 Hs). by apply H. Qed.

(** [retire_current] empties the slot. *)
Lemma retire_current_spec X c :
  hoare (I X c) (retire_current self)
    (λ r s, match r with
            | Ok p => p = ac_plan <$> c ∧ I X None s
            | Err (e, err) => is_stop_unconfirmed err = true ∧ IQ X None e s
            end).
Proof.
  unfold retire_current. apply hoare_get_current. destruct c as [a|]; [|by apply hoare_ret].
  eapply hoare_bind; [apply take_current_spec|]. intros ?. apply hoare_pure. intros He.
  eapply hoare_bind; [apply stop_instance_spec|]. intros [u|err].
  - by apply hoare_ret.
  - apply hoare_ret. intros s [Hu Hs]. split; [done|]. by eapply I_IQ.
Qed.
End live_ops.

(** Step over an inert operation; end with one. *)
Tactic Notation "step" "as" simple_intropattern(p) :=
  apply hoare_inert_bind; [solve [inertly; eauto with inert]|intros p].
Tactic Notation "step" := step as ?.
Tactic Notation "step?" "as" simple_intropattern(p) :=
  apply hoare_inert_bind_ok; [solve [inertly; eauto with inert]|intros ? ? Hs; exact (I_post _ _ _ Hs)|intros p].
Ltac finish := apply hoare_inert_end; [solve [inertly; eauto with inert]|intros ? ? Hs; exact (I_post _ _ _ Hs)].
Ltac weaken := eapply hoare_to_post.
(** Use a lemma about the first operation. *)
Tactic Notation "with_spec" uconstr(l) "as" simple_intropattern(p) :=
  eapply hoare_bind; [apply l|intros p].
(** Quarantine a held instance. *)
Ltac quarantine Hx := eapply hoare_pre; [|intros ? ?; eapply I_IQ; [exact Hx|eassumption]].

Lemma hoare_true {S A} (m : M S A) : hoare (λ _, True) m (λ _ _, True).
Proof. done. Qed.

(** Show what every result of a composed operation satisfies. *)
Ltac results :=
  repeat first
    [ apply hoare_ret; done
    | match goal with |- hoare _ (match ?x with _ => _ end) _ => destruct x end
    | eapply hoare_bind; [apply hoare_true|intros ?; cbv beta] ].

Section transactions.
Context {PL : ProcessLib} {YF : YamlFloat} {PC : PatchCodec}.
Context {YC : YamlCodec} {UL : UrlLib} {SV : Semver}.
Context {W : Type} {EN : Env W} {FS : RuntimeFs W} {BH : BinaryHost W} {EL : EnvLaws W} {G : Gate} {L : Launching}.
Context (self : Inner).
Implicit Types (X : list Instance_) (c : option Active).

Lemma discard_stale_spec X c : hoare (I X c) (discard_stale self) (λ _, I X None).
Proof.
  unfold discard_stale. with_spec retire_current_spec as [[p|]|[e err]].
  - apply hoare_pure. intros _. apply inert_hoare, mgr_cleanup_epoch_inert.
  - apply hoare_pure. intros _. apply inert_hoare, inert_ret.
  - apply hoare_pure. intros Hu. rewrite Hu. with_spec latch_quarantine_spec as ?. apply inert_hoare, inert_ret.
Qed.

Lemma start_prepared_spec X plan : hoare (I X None) (start_prepared self plan) (λ _, Post X).
Proof.
  unfold start_prepared. step. with_spec spawn_instance_spec as [x|e].
  2:{ step. finish. }
  apply hoare_pure. intros Hx. apply hoare_pure. intros _. step as [u|err].
  - unfold pid_of. step. step. eapply hoare_bind; [by apply install_spec|]. intros ?. finish.
  - with_spec stop_instance_spec as [u|stop_err].
    + step. finish.
    + apply hoare_pure. intros _. weaken. quarantine Hx. apply fail_quarantine_spec.
Qed.

Lemma start_locked_spec X spec : hoare (I X None) (start_locked self spec) (λ _, Post X).
Proof.
  unfold start_locked. apply hoare_next_epoch. intros epoch. step as [sn|e]; [|finish].
  step as [plan|e]; [apply start_prepared_spec|]. step. finish.
Qed.

Lemma restart_stale_spec c spec :
  hoare (I [] c) (_ <-? discard_stale self ;; start_locked self spec) (λ _, Post []).
Proof. with_spec discard_stale_spec as [u|e]; [apply start_locked_spec|finish]. Qed.

Lemma stop_active_spec x X plan : hoare (I (x :: X) None) (stop_active self x plan) (λ _, Post X).
Proof.
  unfold stop_active. step. with_spec stop_instance_spec as [u|e].
  - step as [?|?]; [|finish]. step. finish.
  - apply hoare_pure. intros Hu. weaken. quarantine (eq_refl (inst_epoch x)). by apply fail_stop_spec.
Qed.

Lemma stop_spec c : hoare (I [] c) (stop self) (λ _, Post []).
Proof.
  unfold stop. step. apply hoare_get_current. destruct c as [act|]; [|finish].
  with_spec take_current_spec as ?. apply hoare_pure. intros He.
  unfold status_of. step as st. destruct (is_terminal (st_state st)); [|apply stop_active_spec]. step.
  with_spec stop_instance_spec as [u|e].
  - step as [?|?]; finish.
  - apply hoare_pure. intros Hu. rewrite Hu. weaken. quarantine (eq_refl (inst_epoch (ac_instance act))).
    apply fail_quarantine_spec.
Qed.

Lemma shutdown_spec c : hoare (I [] c) (shutdown self) (λ _, Post []).
Proof.
  unfold shutdown. step. apply hoare_get_current. eapply (hoare_bind _ _ _ (λ _, Post [])).
  - destruct c as [act|]; [|finish]. with_spec take_current_spec as ?. apply hoare_pure. intros He.
    apply stop_active_spec.
  - intros r. apply hoare_exists. intros c'. step. step. step. finish.
Qed.

(** ** Switching *)
Lemma hard_switch_spec c spec sn r : hoare (I [] c) (hard_switch self spec sn r) (λ _, Post []).
Proof.
  unfold hard_switch. apply hoare_next_epoch; intros epoch. step as [plan|e].
  2:{ step. step. finish. }
  step. step. with_spec retire_current_spec as [[old|]|[e err]].
  - apply hoare_pure. intros _. step as [?|?]; [apply start_prepared_spec|finish].
  - apply hoare_pure. intros _. finish.
  - apply hoare_pure. intros Hu. eapply hoare_bind; [apply IQ_inert; eauto with inert|]. intros ?.
    weaken. by apply fail_stop_spec.
Qed.

Lemma spawn_replacement_spec X c plan :
  hoare (I X c) (spawn_replacement self plan)
    (λ r s, match r with
            | Ok x => inst_epoch x = cr_epoch (ep_revision plan) ∧ I (x :: X) c s
            | Err e => if is_stop_unconfirmed e then IQ X c (cr_epoch (ep_revision plan)) s else I X c s
            end).
Proof.
  unfold spawn_replacement. with_spec spawn_instance_spec as [x|e].
  2:{ apply hoare_ret. intros s Hs. destruct (is_stop_unconfirmed e); [by left|done]. }
  apply hoare_pure. intros Hx. apply hoare_pure. intros _. step as [u|e]; [by apply hoare_ret|].
  with_spec stop_instance_spec as [u|se].
  - apply hoare_ret. intros s Hs. destruct (is_stop_unconfirmed e); [by left|done].
  - apply hoare_ret. intros s [_ Hs]. simpl. by eapply I_IQ.
Qed.

Lemma graceful_commit_spec x plan st rest old :
  inst_epoch x = cr_epoch (ep_revision plan) →
  hoare (I [x] None) (graceful_commit self x plan st rest old) (λ _, Post []).
Proof.
  intros Hx. unfold graceful_commit. step as [cm|e].
  - step as b. destruct b.
    + unfold pid_of. step. step. eapply hoare_bind; [by apply install_spec|]. intros ?. step. finish.
    + with_spec stop_instance_spec as [u|e].
      * with_spec spawn_replacement_spec as [y|e].
        -- apply hoare_pure. intros Hy. unfold pid_of. step. step.
           eapply hoare_bind; [by apply install_spec|]. intros ?. step. finish.
        -- destruct (is_stop_unconfirmed e).
           ++ with_spec fail_quarantine_spec as ?. finish.
           ++ step. step. finish.
      * apply hoare_pure. intros Hu. eapply hoare_bind; [quarantine Hx; by apply fail_stop_spec|].
        intros ?. finish.
  - with_spec stop_instance_spec as [u|se].
    + step as e'. unfold fail_stop. destruct (is_stop_unconfirmed e'); [|finish]. weaken.
      eapply hoare_pre; [apply fail_quarantine_spec|]. intros s Hs. by left.
    + apply hoare_pure. intros Hu. rewrite bind_ret_l. weaken. quarantine Hx. by apply fail_stop_spec.
Qed.

(** A property of the result that holds from every state. *)
Lemma hoare_inert_result {A} (m : M Mgr A) (φ : A → Prop) X c :
  inert m → hoare (λ _, True) m (λ a _, φ a) → hoare (I X c) m (λ a s, φ a ∧ I X c s).
Proof. intros Hm Hφ s Hs. split; [by apply Hφ|by apply inert_hoare]. Qed.

Lemma prepare_graceful_epoch spec epoch sn r :
  hoare (λ _, True) (prepare_graceful self spec epoch sn r)
    (λ r _, match r with Ok p => cr_epoch (ep_revision (pg_plan p)) = epoch | Err _ => True end).
Proof.
  unfold prepare_graceful, or_drop_staged.
  results.
Qed.

Lemma I_swap x y X c s : I (x :: y :: X) c s → I (y :: x :: X) c s.
Proof.
  intros [[Hc He Hd] Hcur]. split; [split|done]; [|exact He|exact Hd]. intros i Hi.
  destruct (Hc i Hi) as [?|?]; [left; set_solver|by right].
Qed.

Lemma stop_instance_IQ x X c e :
  hoare (IQ (x :: X) c e) (stop_instance self x)
    (λ r s, match r with
            | Ok _ => IQ X c e s
            | Err err => is_stop_unconfirmed err = true ∧ IQ (x :: X) c e s
            end).
Proof.
  intros s [Hs|(y & Hy & Hs)].
  - pose proof (stop_instance_spec self x X c s Hs) as H.
    destruct ((stop_instance self x s).1); [by left|]. destruct H. split; [done|by left].
  - pose proof (stop_instance_spec self x (y :: X) c s (I_swap _ _ _ _ _ Hs)) as H.
    destruct ((stop_instance self x s).1); [right; by exists y|].
    destruct H as [? H]. split; [done|]. right. exists y. split; [done|by apply I_swap].
Qed.

Lemma graceful_switch_spec act spec sn r :
  hoare (I [] (Some act)) (graceful_switch self spec sn r) (λ _, Post []).
Proof.
  unfold graceful_switch. step as old. apply hoare_next_epoch; intros epoch.
  eapply hoare_bind; [apply hoare_inert_result; [eauto with inert|apply prepare_graceful_epoch]|].
  intros [prepared|e]; apply hoare_pure; intros Hplan.
  2:{ step. step. finish. }
  step. with_spec spawn_instance_spec as [x|e].
  2:{ step. step. step. finish. }
  apply hoare_pure. intros Hx. apply hoare_pure. intros _. step as [u|e].
  - with_spec retire_current_spec as [[oldp|]|[re err]].
    + apply hoare_pure. intros _. by apply graceful_commit_spec.
    + apply hoare_pure. by intros [=].
    + apply hoare_pure. intros Hu. eapply hoare_bind; [apply IQ_inert; inertly|]. intros ?.
      with_spec stop_instance_IQ as [v|ne].
      * eapply hoare_bind; [apply IQ_inert; eauto with inert|]. intros ?. weaken. by apply fail_stop_spec.
      * apply hoare_pure. intros _. rewrite Hu. with_spec record_quarantine_spec as ?. weaken.
        rewrite Hplan in Hx. quarantine Hx. apply fail_quarantine_spec.
  - step. rewrite Hplan in Hx. with_spec stop_instance_spec as [v|se].
    + step. step. finish.
    + apply hoare_pure. intros _. weaken. quarantine Hx. apply fail_quarantine_spec.
Qed.

Lemma running_current s : running s = true → is_Some (mg_current s).
Proof. unfold running. destruct (mg_current s); [eauto|done]. Qed.

Lemma hoare_get_running {B} (k : bool → M Mgr B) X c Q :
  (is_Some c → hoare (I X c) (k true) Q) → hoare (I X c) (k false) Q →
  hoare (I X c) (bind (gets running) k) Q.
Proof.
  intros Ht Hf s Hs. unfold bind, gets. destruct (running s) eqn:E; [|by apply Hf].
  apply Ht; [|done]. rewrite <-(proj2 Hs). by apply running_current.
Qed.

Lemma switch_locked_spec c spec : hoare (I [] c) (switch_locked self spec) (λ _, Post []).
Proof.
  unfold switch_locked. apply hoare_get_running.
  - intros [act ->]. cbn [negb]. step? as sn. step? as ?. step? as r. step.
    case_match; [|apply graceful_switch_spec].
    eapply (hoare_bind_ok _ _ _ (λ _, Post [])); [eapply hoare_post; [apply hard_switch_spec|by intros [] s Hs]|].
    intros ?. apply hoare_exists. intros c'. finish.
  - cbn [negb]. eapply hoare_bind; [apply discard_stale_spec|]. intros [u|e]; [|finish].
    eapply (hoare_bind_ok _ _ _ (λ _, Post [])); [eapply hoare_post; [apply start_locked_spec|by intros [] s Hs]|].
    intros ?. apply hoare_exists. intros c'. finish.
Qed.

(** ** Apply and reconcile *)
Lemma install_and_publish_spec x X plan :
  inst_epoch x = cr_epoch (ep_revision plan) →
  hoare (I (x :: X) None) (install_and_publish x plan) (λ _, I X (Some (mkActive x plan))).
Proof.
  intros Hx. unfold install_and_publish, pid_of, publish_active. step.
  eapply hoare_bind; [by apply install_spec|]. intros ?. apply inert_hoare, publish_instance_inert.
Qed.

Lemma roll_back_spec old txt pre m :
  inert m → hoare (I [] None) (roll_back self old txt pre m) (λ _, Post []).
Proof.
  intros Hm. unfold roll_back. step. with_spec spawn_replacement_spec as [x|e].
  - apply hoare_pure. intros Hx. eapply hoare_bind; [by apply install_and_publish_spec|]. intros ?.
    apply hoare_inert_bind; [done|]. intros ?. finish.
  - destruct (is_stop_unconfirmed e); [|finish]. weaken. apply fail_quarantine_spec.
Qed.

Lemma remove_backup_inert b : inert (lift (remove_backup b)).
Proof. apply inert_lift, remove_backup_quiesces. Qed.

Lemma restart_with_compensation_spec act d b :
  hoare (I [] (Some act)) (restart_with_compensation self d b) (λ _, Post []).
Proof.
  unfold restart_with_compensation. with_spec retire_current_spec as [[old|]|[e err]].
  - apply hoare_pure. intros _. step. with_spec spawn_replacement_spec as [x|e].
    + apply hoare_pure. intros Hx. eapply hoare_bind; [by apply install_and_publish_spec|]. intros ?.
      step. finish.
    + destruct (is_stop_unconfirmed e); [weaken; apply fail_quarantine_spec|].
      step as [cm|re]; [|finish].
      eapply hoare_bind; [apply roll_back_spec|].
      { apply inert_bind; [apply remove_backup_inert|intros ?; apply inert_ret]. }
      intros r. apply hoare_exists. intros c'. finish.
  - apply hoare_pure. by intros [=].
  - apply hoare_pure. intros Hu. rewrite Hu. weaken. apply fail_quarantine_spec.
Qed.

Lemma switch_with_compensation_spec act input sn :
  hoare (I [] (Some act)) (switch_with_compensation self input sn) (λ _, Post []).
Proof.
  unfold switch_with_compensation. apply hoare_next_epoch; intros epoch. step? as desired.
  with_spec retire_current_spec as [[old|]|[e err]].
  - apply hoare_pure. intros _. step. with_spec spawn_replacement_spec as [x|e].
    + apply hoare_pure. intros Hx. eapply hoare_bind; [by apply install_and_publish_spec|]. intros ?.
      step. finish.
    + destruct (is_stop_unconfirmed e); [weaken; apply fail_quarantine_spec|].
      step. apply roll_back_spec, inert_ret.
  - apply hoare_pure. by intros [=].
  - apply hoare_pure. intros Hu. eapply hoare_bind; [apply IQ_inert; eauto with inert|]. intros ?.
    rewrite Hu. weaken. apply fail_quarantine_spec.
Qed.

(** Replacing the plan of the installed epoch by one of the same epoch. *)
Lemma replace_plan_spec act plan f :
  cr_epoch (ep_revision plan) = cr_epoch (ep_revision (ac_plan act)) →
  (∀ s, mg_current (f s) = Some (mkActive (ac_instance act) plan)
        ∧ mg_quarantine (f s) = mg_quarantine s ∧ mg_world (f s) = mg_world s) →
  hoare (I [] (Some act)) (modify f) (λ _, I [] (Some (mkActive (ac_instance act) plan))).
Proof.
  intros He Hf s [[Hc Hi Hd] Hcur]. destruct (Hf s) as (E1 & E2 & E3). split; [split|]; simpl; [| |by rewrite E2, E3|done].
  - intros i. rewrite E3. intros Hal. destruct (Hc i Hal) as [?|[(a & Ha & <-)|?]]; [by left| |].
    + right. left. rewrite E1. rewrite Hcur in Ha. simplify_eq. by eexists.
    + right. right. by rewrite E2.
  - rewrite E1. intros a [= <-]. simpl. rewrite He. by apply Hi.
Qed.

Lemma prepare_apply_epoch act input sn :
  hoare (λ _, True) (prepare_apply self act input sn)
    (λ r _, match r with
            | Ok p => cr_epoch (ep_revision p.1) = cr_epoch (ep_revision (ac_plan act))
                      ∧ cr_generation (ep_revision p.1) = (cr_generation (ep_revision (ac_plan act)) + 1)%Z
            | Err _ => True
            end).
Proof.
  unfold prepare_apply.
  results.
Qed.

Lemma apply_in_place_spec act ch d st :
  cr_epoch (ep_revision d) = cr_epoch (ep_revision (ac_plan act)) →
  hoare (I [] (Some act)) (apply_in_place self act ch d st) (λ _, Post []).
Proof.
  intros Hd. unfold apply_in_place. step as [bk|e].
  2:{ step. finish. }
  step as [cm|e].
  2:{ step. finish. }
  apply hoare_inert_bind; [apply inert_lift, timeout_quiesces, reconcile_in_place_quiesces|]. intros r.
  destruct (default false r).
  - eapply hoare_bind; [by apply (replace_plan_spec act d)|]. intros ?. unfold pid_of, publish_active.
    step. step. eapply hoare_bind; [apply set_last_spec_hoare|]. intros ?. step. finish.
  - eapply hoare_bind; [apply restart_with_compensation_spec|]. intros ?. apply hoare_exists. intros c'. finish.
Qed.

Lemma apply_locked_spec c input exp : hoare (I [] c) (apply_locked self input exp) (λ _, Post []).
Proof.
  unfold apply_locked. apply hoare_get_current. destruct c as [act|]; [|finish].
  unfold status_of. step as st. destruct (is_terminal (st_state st)); [finish|].
  step? as ?. step? as sn.
  eapply hoare_bind_ok.
  { eapply hoare_post; [apply hoare_inert_result; [eauto with inert|apply prepare_apply_epoch]|].
    intros [p|e] s [Hp Hs]; [exact (conj (proj1 Hp) Hs)|exact (I_post _ _ _ Hs)]. }
  intros [d stg]. apply hoare_pure. intros Hd. simpl in Hd.
  destruct (classify _ _) as [[| | |]|e].
  - eapply hoare_bind; [eapply replace_plan_spec; [|intros s; split_and!; reflexivity]; done|].
    intros ?. step. finish.
  - by apply apply_in_place_spec.
  - by apply apply_in_place_spec.
  - step. apply switch_with_compensation_spec.
  - step. finish.
Qed.

Lemma reconcile_locked_spec c spec exp : hoare (I [] c) (reconcile_locked self spec exp) (λ _, Post []).
Proof.
  unfold reconcile_locked. apply hoare_get_running; [intros _; apply apply_locked_spec|].
  destruct exp; [finish|]. with_spec discard_stale_spec as [u|e]; [|finish].
  eapply (hoare_bind_ok _ _ _ (λ _, Post [])); [eapply hoare_post; [apply start_locked_spec|by intros [] s Hs]|].
  intros ?. apply hoare_exists. intros c'. step as [b|]; finish.
Qed.
End transactions.

(** * The public operations *)

Section public.
Context {PL : ProcessLib} {YF : YamlFloat} {PC : PatchCodec}.
Context {YC : YamlCodec} {UL : UrlLib} {SV : Semver}.
Context {W : Type} {EN : Env W} {FS : RuntimeFs W} {BH : BinaryHost W} {EL : EnvLaws W}.
Context (self : Inner).

(** The invariant between operations. *)
Definition safe (s : Mgr) : Prop := Post (G:=false) [] s.

Lemma quarantine_error_none q : quarantine_error q = None → q = [].
Proof. by destruct q. Qed.

(** Past the gate the quarantine is empty. *)
Lemma gate_spec {B} (k : M Mgr (result B Error)) :
  (∀ c, hoare (I (G:=true) [] c) k (λ _, Post (G:=true) [])) →
  hoare safe (_ <-? reject_quarantine ;; k) (λ _, safe).
Proof.
  intros Hk s [c [[Hc He Hd] Hcur]]. unfold bind_ok, bind, reject_quarantine, gets.
  destruct (quarantine_error (mg_quarantine s)) eqn:E; [by exists c|].
  apply quarantine_error_none in E.
  assert (I (G:=true) [] c s) as HI.
  { split; [split|done]; [exact Hc|exact He|]. rewrite E. intros x Hx. by apply elem_of_nil in Hx. }
  destruct (Hk c s HI) as [c' [[Hc' He' Hd'] Hcur']]. exists c'. split; [split|done]; [exact Hc'|exact He'|].
  intros x Hx Hp. by destruct (Hd' x Hx Hp).
Qed.

Lemma safe_exists {A} (m : M Mgr A) :
  (∀ c, hoare (I (G:=false) [] c) m (λ _, safe)) → hoare safe m (λ _, safe).
Proof. intros H. apply hoare_exists. exact H. Qed.

Instance gate_passed : Launching (G:=true) := eq_refl.

Lemma start_safe spec : hoare safe (start self spec) (λ _, safe).
Proof.
  apply gate_spec. intros c. step as b. destruct b; [finish|]. apply restart_stale_spec.
Qed.

Lemma restart_safe : hoare safe (restart self) (λ _, safe).
Proof. apply gate_spec. intros c. step as [sp|]; [apply switch_locked_spec|finish]. Qed.

Lemma switch_safe spec : hoare safe (switch self spec) (λ _, safe).
Proof. apply gate_spec. intros c. apply switch_locked_spec. Qed.

Lemma apply_config_safe input exp : hoare safe (apply_config self input exp) (λ _, safe).
Proof. apply gate_spec. intros c. apply apply_locked_spec. Qed.

Lemma reconcile_safe spec exp : hoare safe (reconcile self spec exp) (λ _, safe).
Proof.
  apply gate_spec. intros c. with_spec reconcile_locked_spec as r. apply hoare_exists. intros c'.
  step as b. destruct (res_is_ok r || negb b); step; finish.
Qed.

Lemma stop_safe : hoare safe (stop self) (λ _, safe).
Proof. apply safe_exists. intros c. apply stop_spec. Qed.

Lemma shutdown_safe : hoare safe (shutdown self) (λ _, safe).
Proof. apply safe_exists. intros c. apply shutdown_spec. Qed.

Lemma forward_safe : hoare safe forward_status (λ _, safe).
Proof. apply safe_exists. intros c. finish. Qed.

(** ** Recovery *)

(** Operations during which no process comes up. *)
Definition calm {A} (m : M Mgr A) : Prop :=
  ∀ s i, alive (mg_world (m s).2) i → alive (mg_world s) i.

Lemma calm_bind {A B} (m : M Mgr A) (k : A → M Mgr B) : calm m → (∀ a, calm (k a)) → calm (bind m k).
Proof.
  intros Hm Hk s i. unfold bind. specialize (Hm s). destruct (m s) as [a s']. intros H%Hk. by apply Hm.
Qed.

Lemma calm_lift {A} (m : M W A) : quiesces alive m → calm (lift m).
Proof. intros Hm s i. unfold lift. specialize (Hm (mg_world s) i). by destruct (m (mg_world s)). Qed.

Lemma recover_entry_calm entry : calm (recover_entry self entry).
Proof.
  apply calm_bind.
  - destruct (qe_death_proven entry); [by intros s i|]. apply calm_bind; [apply calm_lift; quiesce|].
    intros [[]|]; by intros s i.
  - intros [u|e]; [|by intros s i]. apply calm_bind; [|intros []; by intros s i]. apply calm_lift, quiesces_bind_ok.
    + apply cleanup_controller_quiesces.
    + intros ?. apply cleanup_artifacts_quiesces.
Qed.

Lemma mark_dead_epochs e q : qe_epoch <$> mark_dead e q = qe_epoch <$> q.
Proof.
  induction q as [|x q IH]; [done|]. cbn [mark_dead].
  destruct (Z.eqb_spec (qe_epoch x) e); [done|]. by rewrite !fmap_cons, IH.
Qed.

Lemma mark_dead_elem e q x :
  x ∈ mark_dead e q → x ∈ q ∨ qe_epoch x = e.
Proof.
  induction q as [|y q IH]; simpl; [auto|]. destruct (Z.eqb_spec (qe_epoch y) e); rewrite !elem_of_cons.
  - intros [->|?]; [by right|auto].
  - intros [->|?%IH]; [auto|tauto].
Qed.

Lemma mark_dead_spec c e :
  hoare (λ s, I (G:=false) [] c s ∧ epoch_dead (mg_world s) e)
    (modify (λ s, set_quarantine (mark_dead e (mg_quarantine s)) s))
    (λ _ s, I (G:=false) [] c s ∧ epoch_dead (mg_world s) e).
Proof.
  intros s [[[Hc He Hd] Hcur] Hdead]. split; [|done]. split; [split|done]; simpl; [|exact He|].
  - intros i Hi. unfold covered. simpl. rewrite mark_dead_epochs. by apply Hc.
  - intros x Hx Hp. destruct (mark_dead_elem _ _ _ Hx) as [Hx'| ->]; [by apply Hd|done].
Qed.

(** Forgetting an epoch whose death is proven loses nothing. *)
Lemma forget_spec c e :
  hoare (λ s, I (G:=false) [] c s ∧ epoch_dead (mg_world s) e)
    (modify (λ s, set_quarantine (List.filter (λ x, negb (qe_epoch x =? e)%Z) (mg_quarantine s)) s))
    (λ _, I (G:=false) [] c).
Proof.
  intros s [[[Hc He Hd] Hcur] Hdead]. split; [split|done]; simpl; [|exact He|].
  - intros i Hi. destruct (Hc i Hi) as [?|[?|Hq]]; [by left|right; by left|]. right. right. simpl.
    apply list_elem_of_fmap in Hq as (x & Hix & Hx). apply list_elem_of_fmap. exists x. split; [done|].
    apply list_elem_of_In, filter_In. split; [by apply list_elem_of_In|].
    destruct (Z.eqb_spec (qe_epoch x) e) as [<-|]; [|done]. by destruct (Hdead i Hi).
  - intros x Hx. apply list_elem_of_In, filter_In in Hx as [Hx _]. apply Hd. by apply list_elem_of_In.
Qed.

Lemma reap_spec c entry :
  hoare (I (G:=false) [] c)
    (lift (reap_epoch_pid_file (pid_path (in_store self) (qe_epoch entry)) (rs_dir (in_store self))))
    (λ r s, I (G:=false) [] c s ∧
       match r with
       | Ok ReapNotFound | Err _ => True
       | Ok _ => epoch_dead (mg_world s) (qe_epoch entry)
       end).
Proof.
  intros s Hs. split; [apply inert_hoare; [apply inert_lift, reap_quiesces|done]|].
  pose proof (reap_proves (in_store self) (qe_epoch entry) (mg_world s)) as Hp. unfold lift.
  destruct (reap_epoch_pid_file _ _ (mg_world s)) as [[[]|] w]; [| |done|done].
  all: intros i Hi He; by eapply Hp.
Qed.

Lemma recover_entry_spec c entry :
  hoare (λ s, I (G:=false) [] c s ∧ (qe_death_proven entry = true → epoch_dead (mg_world s) (qe_epoch entry)))
    (recover_entry self entry) (λ _, I (G:=false) [] c).
Proof.
  unfold recover_entry.
  eapply (hoare_bind _ _ _ (λ r s, I (G:=false) [] c s ∧ (res_is_ok r = true → epoch_dead (mg_world s) (qe_epoch entry)))).
  - destruct (qe_death_proven entry).
    + apply hoare_ret. intros s [? H]. split; [done|]. intros _. by apply H.
    + eapply hoare_bind; [eapply hoare_pre; [apply reap_spec|by intros s [? _]]|].
      intros [[]|e]; try (apply hoare_ret; intros s [? _]; split; [done|by intros [=]]).
      all: eapply hoare_bind; [apply mark_dead_spec|]; intros ?; apply hoare_ret; intros s [? ?]; by split.
  - intros [u|e]; [|apply hoare_ret; by intros s [? _]].
    eapply (hoare_bind _ _ _ (λ _ s, I (G:=false) [] c s ∧ epoch_dead (mg_world s) (qe_epoch entry))).
    + intros s [Hs Hd]. split; [apply inert_hoare; [apply mgr_cleanup_epoch_inert|done]|]. intros i Hi.
      apply Hd; [done|]. revert Hi. apply calm_lift, quiesces_bind_ok.
      * apply cleanup_controller_quiesces.
      * intros ?. apply cleanup_artifacts_quiesces.
    + intros [v|e]; [|apply hoare_ret; by intros s [? _]].
      eapply hoare_bind; [apply forget_spec|]. intros ?. apply hoare_ret. done.
Qed.

Lemma recover_loop_spec c entries :
  hoare (λ s, I (G:=false) [] c s ∧ deaths (G:=false) (mg_world s) entries)
    (recover_loop self entries) (λ _, I (G:=false) [] c).
Proof.
  induction entries as [|x l IH]; simpl; [apply hoare_ret; by intros s [? _]|].
  eapply (hoare_bind _ _ _ (λ _ s, I (G:=false) [] c s ∧ deaths (G:=false) (mg_world s) l)).
  - intros s [Hs Hd]. split.
    + apply recover_entry_spec. split; [done|]. intros Hp. apply (Hd x); [set_solver|done].
    + eapply deaths_mono; [apply recover_entry_calm|]. intros y Hy. apply Hd. set_solver.
  - intros f. eapply hoare_bind; [apply IH|]. intros fs. by apply hoare_ret.
Qed.

Lemma recover_safe : hoare safe (recover_quarantine self) (λ _, safe).
Proof.
  apply safe_exists. intros c. unfold recover_quarantine.
  eapply (hoare_bind _ _ _ (λ q s, I (G:=false) [] c s ∧ deaths (G:=false) (mg_world s) q)).
  { intros s Hs. split; [done|]. apply Hs. }
  intros q. destruct (bool_decide (length q = 0%nat)).
  { apply hoare_ret. intros s [Hs _]. exact (I_post _ _ _ Hs). }
  eapply hoare_bind; [apply recover_loop_spec|]. intros [|f fs]; [step; step; finish|]. step as [e|]; finish.
Qed.
End public.
