(* ===== verification/ManagerControl.v ===== *)
(** What the operations of the orchestrator do to the control state: which
    epoch is installed after a success, which revision an outcome reports, and
    how the epoch numbers grow.  The lifecycle part of the control state is the
    [Slot] of [ManagerSafety]; inert operations leave it alone, so the proofs
    only follow the steps that allocate, install, retire or quarantine. *)
From S2P Require Import Prelude Text Paths Metadata Types Health Yaml Diff Mihomo Config Capability RuntimeStore Runtime Manager ManagerSafety.
From Stdlib Require Import ZArith Lia.

Section control.
Context {PL : ProcessLib} {YF : YamlFloat} {PC : PatchCodec}.
Context {YC : YamlCodec} {UL : UrlLib} {SV : Semver}.
Context {W : Type} {EN : Env W} {FS : RuntimeFs W} {BH : BinaryHost W} {EL : EnvLaws W}.
Context (self : Inner).
Implicit Types (κ : Slot).

(** * Assertions *)

Definition At κ (s : Mgr) : Prop := slot_of s = κ.

Abbreviation plan_epoch p := (cr_epoch (ep_revision p)).

(** Every epoch in use was allocated, and none is quarantined twice. *)
Record bounded κ : Prop := {
  bd_current : ∀ a, sl_current κ = Some a → (plan_epoch (ac_plan a) ≤ sl_last κ)%Z;
  bd_quarantine : ∀ e, e ∈ qe_epoch <$> sl_quarantine κ → (e ≤ sl_last κ)%Z;
  bd_nodup : NoDup (qe_epoch <$> sl_quarantine κ);
}.

Lemma record_quarantine_nodup e r q :
  NoDup (qe_epoch <$> q) → NoDup (qe_epoch <$> record_quarantine e r q).
Proof.
  induction q as [|x q IH]; [intros _; by apply NoDup_singleton|]. cbn [record_quarantine].
  destruct (Z.eqb_spec (qe_epoch x) e) as [He|Hne]; [done|]. rewrite !fmap_cons, !NoDup_cons.
  rewrite record_quarantine_epochs. naive_solver.
Qed.

(** How an operation may change the slot, as far as epochs go. *)
Definition grows κ κ' : Prop := (sl_last κ ≤ sl_last κ')%Z ∧ (bounded κ → bounded κ').

Lemma grows_refl κ : grows κ κ.
Proof. split; [lia|done]. Qed.

Lemma grows_trans κ1 κ2 κ3 : grows κ1 κ2 → grows κ2 κ3 → grows κ1 κ3.
Proof. intros [? H1] [? H2]. split; [lia|auto]. Qed.

Definition allocated κ : Slot := mkSlot (sl_last κ + 1) (sl_current κ) (sl_last_spec κ) (sl_quarantine κ).
Definition retired κ : Slot := mkSlot (sl_last κ) None (sl_last_spec κ) (sl_quarantine κ).
Definition installed (a : Active) κ : Slot :=
  mkSlot (sl_last κ) (Some a) (Some (ep_source_spec (ac_plan a))) (sl_quarantine κ).
Definition quarantined (e : Epoch) (reason : string) κ : Slot :=
  mkSlot (sl_last κ) (sl_current κ) (sl_last_spec κ) (record_quarantine e reason (sl_quarantine κ)).

Lemma grows_allocated κ : grows κ (allocated κ).
Proof.
  split; simpl; [lia|]. intros [Hc Hq Hn]. split; simpl; [intros a Ha|intros e He|done].
  - specialize (Hc a Ha). lia.
  - specialize (Hq e He). lia.
Qed.

Lemma grows_retired κ : grows κ (retired κ).
Proof. split; simpl; [lia|]. intros [Hc Hq Hn]. by split. Qed.

(** Installing or quarantining an allocated epoch. *)
Lemma grows_via_installed κ0 κ a :
  grows κ0 κ → (bounded κ0 → plan_epoch (ac_plan a) ≤ sl_last κ)%Z → grows κ0 (installed a κ).
Proof.
  intros [Hl Hb] Ha. split; simpl; [done|]. intros H0. split; simpl; [|by apply Hb..]. intros b [= <-]. by apply Ha.
Qed.

Lemma grows_via_quarantined κ0 κ e r :
  grows κ0 κ → (bounded κ0 → e ≤ sl_last κ)%Z → grows κ0 (quarantined e r κ).
Proof.
  intros [Hl Hb] He. split; simpl; [done|]. intros H0. split; simpl; [by apply Hb| |by apply record_quarantine_nodup, Hb].
  intros e' [->|?]%record_quarantine_epochs; [by apply He|by apply Hb].
Qed.

(** The epoch of a retired plan was allocated. *)
Lemma grows_retired_quarantined κ a r :
  sl_current κ = Some a → grows κ (quarantined (plan_epoch (ac_plan a)) r (retired κ)).
Proof.
  intros Ha. split; simpl; [lia|]. intros Hb. split; simpl; [done| |by apply record_quarantine_nodup, Hb].
  intros e [->|?]%record_quarantine_epochs; by apply Hb.
Qed.

(** * Rules *)
Lemma at_bind {A B} (m : M Mgr A) (k : A → M Mgr B) κ Q :
  inert m → (∀ a, hoare (At κ) (k a) Q) → hoare (At κ) (bind m k) Q.
Proof.
  intros Hm Hk. eapply (hoare_bind _ _ _ (λ _, At κ)); [|done].
  intros s Hs. unfold At. rewrite (proj1 (Hm s)). exact Hs.
Qed.

Lemma at_bind_ok {A B E} (m : M Mgr (result A E)) (k : A → M Mgr (result B E)) κ Q :
  inert m → (∀ e s, At κ s → Q (Err e) s) → (∀ a, hoare (At κ) (k a) Q) → hoare (At κ) (bind_ok m k) Q.
Proof. intros Hm He Hk. apply at_bind; [done|]. intros [a|e]; [done|]. apply hoare_ret, He. Qed.

Lemma at_end {A} (m : M Mgr A) κ Q : inert m → (∀ a s, At κ s → Q a s) → hoare (At κ) m Q.
Proof. intros Hm HQ s Hs. apply HQ. unfold At. rewrite (proj1 (Hm s)). exact Hs. Qed.

Lemma at_current {B} (k : option Active → M Mgr B) κ Q :
  hoare (At κ) (k (sl_current κ)) Q → hoare (At κ) (bind (gets mg_current) k) Q.
Proof. intros H s Hs. unfold bind, gets. rewrite <-Hs in H. by apply H. Qed.

Lemma at_next_epoch {B} (k : Epoch → M Mgr B) κ Q :
  hoare (At (allocated κ)) (k (sl_last κ + 1)%Z) Q → hoare (At κ) (bind next_epoch k) Q.
Proof. intros H s Hs. unfold At in Hs. subst κ. by apply H. Qed.

Lemma at_gets {A B} (f : Mgr → A) (k : A → M Mgr B) κ Q :
  (∀ a, hoare (At κ) (k a) Q) → hoare (At κ) (bind (gets f) k) Q.
Proof. apply at_bind, inert_gets. Qed.

Lemma spawn_at κ plan :
  hoare (At κ) (spawn_instance plan) (λ r s,
    match r with Ok x => inst_epoch x = plan_epoch plan | Err _ => True end ∧ At κ s).
Proof.
  intros s Hs. unfold spawn_instance, lift. set (req := mkLaunch _ _ _ _ _).
  pose proof (launch_ok req (mg_world s)) as H.
  destruct (backend_launch req (mg_world s)) as [[x|e] w]; simpl in *; [|done].
  destruct (H x eq_refl) as (? & _). by split.
Qed.

Lemma stop_at κ x :
  hoare (At κ) (stop_instance self x) (λ r s,
    match r with Ok _ => True | Err e => is_stop_unconfirmed e = true end ∧ At κ s).
Proof.
  intros s Hs. unfold stop_instance, lift.
  pose proof (stop_honest x (stop_timeout self) (mg_world s)) as H.
  destruct (stop_and_confirm_dead x (stop_timeout self) (mg_world s)) as [[u|e] w]; simpl in *; [done|].
  split; [by apply H|done].
Qed.

Lemma spawn_replacement_at κ plan :
  hoare (At κ) (spawn_replacement self plan) (λ r s,
    match r with Ok x => inst_epoch x = plan_epoch plan | Err _ => True end ∧ At κ s).
Proof.
  unfold spawn_replacement. eapply hoare_bind; [apply spawn_at|]. intros [x|e]; [|by apply hoare_ret; intros s [_ ?]].
  apply hoare_pure. intros Hx. apply at_bind; [inertly|]. intros [u|e]; [by apply hoare_ret|].
  eapply hoare_bind; [apply stop_at|]. intros [u|e']; apply hoare_ret; by intros s [_ ?].
Qed.

Lemma latch_at κ e err :
  hoare (At κ) (latch_quarantine e err) (λ r s, r = err ∧ At (quarantined e (error_display err) κ) s).
Proof.
  unfold latch_quarantine. eapply (hoare_bind _ _ _ (λ _, At (quarantined e (error_display err) κ))).
  { apply hoare_modify. intros s <-. done. }
  intros ?. apply at_gets. intros q. apply at_bind; [inertly|]. intros ?. by apply hoare_ret.
Qed.

Lemma fail_quarantine_at {A} κ e err :
  hoare (At κ) (fail_quarantine (A:=A) e err) (λ r s, r = Err err ∧ At (quarantined e (error_display err) κ) s).
Proof.
  unfold fail_quarantine. eapply hoare_bind; [apply latch_at|]. intros a. apply hoare_pure. intros ->. by apply hoare_ret.
Qed.

Lemma fail_terminal_at {A} κ err :
  hoare (At κ) (fail_terminal (A:=A) err) (λ r s, r = Err err ∧ At κ s).
Proof. unfold fail_terminal. apply at_bind; [inertly|]. intros ?. by apply hoare_ret. Qed.

Lemma install_at κ x plan :
  hoare (At κ) (install x plan) (λ _, At (installed (mkActive x plan) κ)).
Proof. apply hoare_modify. by intros s <-. Qed.

Lemma install_and_publish_at κ x plan :
  hoare (At κ) (install_and_publish x plan) (λ _, At (installed (mkActive x plan) κ)).
Proof.
  unfold install_and_publish, pid_of, publish_active. apply at_gets. intros pid.
  eapply hoare_bind; [apply install_at|]. intros ?. apply at_end; [inertly|done].
Qed.

Lemma retire_at κ :
  hoare (At κ) (retire_current self) (λ r s,
    match r with
    | Ok p => p = ac_plan <$> sl_current κ
    | Err (e, err) => is_stop_unconfirmed err = true ∧ ∃ a, sl_current κ = Some a ∧ e = plan_epoch (ac_plan a)
    end ∧ At (retired κ) s).
Proof.
  unfold retire_current. apply at_current. destruct (sl_current κ) as [a|] eqn:Hc.
  - eapply (hoare_bind _ _ _ (λ _, At (retired κ))); [apply hoare_modify; by intros s <-|]. intros ?.
    eapply hoare_bind; [apply stop_at|]. intros [u|e]; apply hoare_ret.
    + intros s [_ ?]. done.
    + intros s [? ?]. split; [|done]. eauto.
  - apply hoare_ret. intros s Hs. split; [done|]. destruct κ as [n c l q]. simpl in Hc. subst c. exact Hs.
Qed.
End control.

(** Step over an inert operation. *)
Tactic Notation "go" "as" simple_intropattern(p) :=
  apply at_bind; [solve [inertly; eauto with inert]|intros p].
Tactic Notation "go" := go as ?.

Section transactions.
Context {PL : ProcessLib} {YF : YamlFloat} {PC : PatchCodec}.
Context {YC : YamlCodec} {UL : UrlLib} {SV : Semver}.
Context {W : Type} {EN : Env W} {FS : RuntimeFs W} {BH : BinaryHost W} {EL : EnvLaws W}.
Context (self : Inner).
Implicit Types (κ : Slot).

Abbreviation plan_epoch p := (cr_epoch (ep_revision p)).

(** A transaction from the slot [κ]: epochs only grow, and a success leaves a
    good slot. *)
Definition Tx κ {A} (good : A → Slot → Prop) (r : result A Error) (s : Mgr) : Prop :=
  grows κ (slot_of s) ∧ match r with Ok a => good a (slot_of s) | Err _ => True end.

Section endings.
Context {A : Type} (κ κ' : Slot) (good : A → Slot → Prop) (Hg : grows κ κ').

Lemma tx_err e s : At κ' s → Tx κ good (Err e) s.
Proof. intros <-. by split. Qed.

Lemma tx_ret_err e : hoare (At κ') (ret (Err e)) (Tx κ good).
Proof. apply hoare_ret. intros s. apply tx_err. Qed.

Lemma tx_ok a : good a κ' → hoare (At κ') (ret (Ok a)) (Tx κ good).
Proof. intros Ha. apply hoare_ret. intros s <-. by split. Qed.

Lemma tx_terminal e : hoare (At κ') (fail_terminal e) (Tx κ good).
Proof. eapply hoare_post; [apply fail_terminal_at|]. intros r s [-> Hs]. by apply tx_err. Qed.

Lemma tx_quarantine e err :
  (bounded κ → e ≤ sl_last κ')%Z → hoare (At κ') (fail_quarantine e err) (Tx κ good).
Proof.
  intros He. eapply hoare_post; [apply fail_quarantine_at|]. intros r s [-> Hs]. split; [|done].
  rewrite Hs. by apply grows_via_quarantined.
Qed.

Lemma tx_stop e err : (bounded κ → e ≤ sl_last κ')%Z → hoare (At κ') (fail_stop e err) (Tx κ good).
Proof. intros He. unfold fail_stop. case_match; [by apply tx_quarantine|apply tx_terminal]. Qed.
End endings.

Lemma tx_weaken {A} κ κ' (good good' : A → Slot → Prop) m :
  grows κ κ' → (∀ a κ'', good' a κ'' → good a κ'') → hoare (At κ') m (Tx κ' good') → hoare (At κ') m (Tx κ good).
Proof.
  intros Hg Hgood Hm. eapply hoare_post; [exact Hm|]. intros [a|e] s [H1 H2]; (split; [by eapply grows_trans|]); auto.
Qed.

Lemma at_result {A} (m : M Mgr A) (φ : A → Prop) κ :
  inert m → hoare (λ _, True) m (λ a _, φ a) → hoare (At κ) m (λ a s, φ a ∧ At κ s).
Proof. intros Hm Hφ s Hs. split; [by apply Hφ|]. unfold At. by rewrite (proj1 (Hm s)). Qed.

(** ** Launching *)

(** The plan of a fresh epoch. *)
Definition new_plan (spec : InstanceSpec) (e : Epoch) (plan : EpochPlan) : Prop :=
  ep_source_spec plan = spec ∧ plan_epoch plan = e ∧ cr_generation (ep_revision plan) = 1%Z.

Definition planned {A} (φ : A → Prop) (r : result A Error) : Prop :=
  match r with Ok p => φ p | Err _ => True end.

Lemma prepare_features_plan spec e sn r :
  hoare (λ _, True) (prepare_launch_with_features self spec e sn r) (λ r _, planned (new_plan spec e) r).
Proof. unfold prepare_launch_with_features. results. Qed.

Lemma prepare_launch_plan spec e sn :
  hoare (λ _, True) (prepare_launch self spec e sn) (λ r _, planned (new_plan spec e) r).
Proof. unfold prepare_launch, prepare_launch_with_features. results. Qed.

Lemma prepare_graceful_plan spec e sn r :
  hoare (λ _, True) (prepare_graceful self spec e sn r) (λ r _, planned (λ g, new_plan spec e (pg_plan g)) r).
Proof. unfold prepare_graceful, or_drop_staged. results. Qed.

(** Installed with its plan. *)
Definition installs (plan : EpochPlan) κ κ' : Prop :=
  ∃ x, inst_epoch x = plan_epoch plan ∧ κ' = installed (mkActive x plan) κ.

Lemma start_prepared_tx κ plan :
  (plan_epoch plan ≤ sl_last κ)%Z →
  hoare (At κ) (start_prepared self plan) (Tx κ (λ _, installs plan κ)).
Proof.
  intros Hp. pose proof (grows_refl κ) as Hg. unfold start_prepared. go.
  eapply hoare_bind; [apply spawn_at|]. intros [x|e]; apply hoare_pure; intros Hx.
  2:{ go. by apply tx_terminal. }
  go as [u|e].
  - unfold pid_of. go. go. eapply hoare_bind; [apply install_at|]. intros ?. apply tx_ok; [|by exists x].
    by apply grows_via_installed.
  - eapply hoare_bind; [apply stop_at|]. intros [u|e']; apply hoare_pure; intros Hu.
    + go. by apply tx_terminal.
    + by apply tx_quarantine.
Qed.

(** A fresh epoch of [spec] is installed. *)
Definition launched (spec : InstanceSpec) κ κ' : Prop :=
  ∃ a, κ' = installed a (allocated κ) ∧ new_plan spec (sl_last κ + 1) (ac_plan a)
       ∧ inst_epoch (ac_instance a) = (sl_last κ + 1)%Z.

Lemma installs_launched spec plan κ κ' κ0 :
  sl_last κ = sl_last κ0 → sl_quarantine κ = sl_quarantine κ0 →
  new_plan spec (sl_last κ0 + 1) plan → installs plan (allocated κ) κ' → launched spec κ0 κ'.
Proof.
  intros E1 E2 Hplan (x & Hx & ->). exists (mkActive x plan). split_and!; [|done|].
  - unfold installed, allocated. simpl. by rewrite E1, E2.
  - simpl. rewrite Hx. by destruct Hplan as (_ & -> & _).
Qed.

Lemma start_locked_tx κ spec :
  hoare (At κ) (start_locked self spec) (Tx κ (λ _, launched spec κ)).
Proof.
  pose proof (grows_allocated κ) as Hg. unfold start_locked. apply at_next_epoch.
  go as [sn|e]; [|by apply tx_terminal].
  eapply hoare_bind; [apply at_result; [eauto with inert|apply prepare_launch_plan]|].
  intros [plan|e]; apply hoare_pure; intros Hplan.
  - eapply tx_weaken; [exact Hg| |apply start_prepared_tx].
    + intros ? κ'. by apply installs_launched.
    + destruct Hplan as (_ & -> & _). simpl. lia.
  - go. by apply tx_terminal.
Qed.

Lemma discard_stale_tx κ :
  hoare (At κ) (discard_stale self) (λ r s, grows κ (slot_of s) ∧
    (res_is_ok r = true → At (retired κ) s)).
Proof.
  pose proof (grows_retired κ) as Hg. unfold discard_stale. eapply hoare_bind; [apply retire_at|].
  intros [[p|]|[e err]]; apply hoare_pure; intros Hr.
  - apply at_end; [eauto with inert|]. intros r s Hs. split; [by rewrite Hs|done].
  - apply hoare_ret. intros s Hs. split; [by rewrite Hs|done].
  - destruct Hr as (Hu & a & Ha & ->). rewrite Hu.
    eapply hoare_post; [apply (fail_quarantine_at (A:=unit))|]. intros r s [-> Hs]. split; [|done].
    rewrite Hs. by apply grows_retired_quarantined.
Qed.

Lemma tx_retired_stop {A} κ κ0 (good : A → Slot → Prop) a err :
  grows κ0 κ → sl_current κ = Some a →
  hoare (At (retired κ)) (fail_stop (plan_epoch (ac_plan a)) err) (Tx κ0 good).
Proof.
  intros Hg Ha. unfold fail_stop. destruct (is_stop_unconfirmed err).
  - eapply hoare_post; [apply fail_quarantine_at|]. intros r s [-> Hs]. split; [|done]. rewrite Hs.
    eapply grows_trans; [exact Hg|by apply grows_retired_quarantined].
  - apply tx_terminal. eapply grows_trans; [exact Hg|apply grows_retired].
Qed.

(** ** Switching *)
Lemma hard_switch_tx κ spec sn r :
  hoare (At κ) (hard_switch self spec sn r) (Tx κ (λ _, launched spec κ)).
Proof.
  pose proof (grows_allocated κ) as Hg. unfold hard_switch. apply at_next_epoch.
  eapply hoare_bind; [apply at_result; [eauto with inert|apply prepare_features_plan]|].
  intros [plan|e]; apply hoare_pure; intros Hplan.
  2:{ go. go. by apply tx_ret_err. }
  assert (grows κ (retired (allocated κ))) as Hg' by (eapply grows_trans; [exact Hg|apply grows_retired]).
  go. go. eapply hoare_bind; [apply retire_at|]. intros [[old|]|[e err]]; apply hoare_pure; intros Hr.
  - go as [u|e]; [|by apply tx_terminal]. eapply tx_weaken; [exact Hg'| |apply start_prepared_tx].
    + intros ? κ'. change (retired (allocated κ)) with (allocated (retired κ)). by apply installs_launched.
    + destruct Hplan as (_ & -> & _). simpl. lia.
  - by apply (tx_ret_err _ (retired (allocated κ))).
  - destruct Hr as (Hu & act & Ha & ->). go. by apply tx_retired_stop.
Qed.

Lemma with_switch_durability_tx κ good r s w :
  Tx κ (λ _ : SwitchOutcome, good) r s → Tx κ (λ _, good) (with_switch_durability_result r w) s.
Proof. intros [H1 H2]. destruct r as [o|e], w as [w|]; by split. Qed.

Lemma with_durability_tx κ (good : ApplyOutcome → Slot → Prop) r s w :
  (∀ o w, good o (slot_of s) → good (ADurabilityUncertain o w) (slot_of s)) →
  Tx κ good r s → Tx κ good (with_durability_result r w) s.
Proof. intros Hw [H1 H2]. destruct r as [o|e], w as [w|]; (split; [done|]); simpl; auto. Qed.

(** Settle the durability of a transaction. *)
Lemma hoare_switch_durability κ κ' good (m : M Mgr (result SwitchOutcome Error)) w :
  hoare (At κ') m (Tx κ (λ _, good)) →
  hoare (At κ') (r <- m ;; ret (with_switch_durability_result r w)) (Tx κ (λ _, good)).
Proof.
  intros Hm. eapply hoare_bind; [exact Hm|]. intros r. apply hoare_ret. intros s. apply with_switch_durability_tx.
Qed.

(** The replacement is up: publish, install, and clean the old epoch. *)
Lemma take_over_tx κ κ0 x plan old o w :
  grows κ0 κ → (plan_epoch plan ≤ sl_last κ)%Z → inst_epoch x = plan_epoch plan →
  hoare (At κ) (pid <- pid_of x ;;
    publish_instance x (Running (plan_epoch plan) pid) plan ;;; install x plan ;;;
    c <- mgr_cleanup_epoch self old ;;
    ret (with_switch_durability_result (res_map (λ _, o) c) w)) (Tx κ0 (λ _, installs plan κ)).
Proof.
  intros Hg Hp Hx. unfold pid_of. go. go. eapply hoare_bind; [apply install_at|]. intros ?.
  assert (grows κ0 (installed (mkActive x plan) κ)) as Hg'.
  { by apply grows_via_installed. }
  go as [u|e]; apply hoare_ret; intros s Hs; apply with_switch_durability_tx; rewrite <-Hs in Hg'; split; try done.
  exists x. by rewrite <-Hs.
Qed.

Lemma graceful_commit_tx κ κ0 x plan st rest old :
  grows κ0 κ → (plan_epoch plan ≤ sl_last κ)%Z → inst_epoch x = plan_epoch plan →
  hoare (At κ) (graceful_commit self x plan st rest old) (Tx κ0 (λ _, installs plan κ)).
Proof.
  intros Hg Hp Hx. unfold graceful_commit. go as [cm|e].
  - go as b. destruct b; [by apply take_over_tx|].
    eapply hoare_bind; [apply stop_at|]. intros [u|e]; apply hoare_pure; intros Hu.
    + eapply hoare_bind; [apply spawn_replacement_at|]. intros [y|e]; apply hoare_pure; intros Hy.
      * by apply take_over_tx.
      * destruct (is_stop_unconfirmed e); [by apply hoare_switch_durability, tx_quarantine|]. go.
        by apply hoare_switch_durability, tx_terminal.
    + by apply hoare_switch_durability, tx_stop.
  - eapply hoare_bind; [apply stop_at|]. intros [u|e']; apply hoare_pure; intros Hu.
    + go. by apply tx_stop.
    + rewrite bind_ret_l. by apply tx_stop.
Qed.

Lemma graceful_switch_tx κ spec sn r :
  hoare (At κ) (graceful_switch self spec sn r) (Tx κ (λ _, launched spec κ)).
Proof.
  pose proof (grows_allocated κ) as Hg. unfold graceful_switch. go as old. apply at_next_epoch.
  eapply hoare_bind; [apply at_result; [eauto with inert|apply prepare_graceful_plan]|].
  intros [g|e]; apply hoare_pure; intros Hplan.
  2:{ go. go. by apply tx_ret_err. }
  assert (plan_epoch (pg_plan g) = sl_last κ + 1)%Z as Ep by (by destruct Hplan as (_ & -> & _)).
  go. eapply hoare_bind; [apply spawn_at|]. intros [x|e]; apply hoare_pure; intros Hx.
  2:{ go. go. go. by apply tx_ret_err. }
  go as [u|e].
  2:{ go. eapply hoare_bind; [apply stop_at|]. intros [u|e']; apply hoare_pure; intros Hu.
      - go. go. by apply tx_ret_err.
      - apply tx_quarantine; [done|]. simpl. lia. }
  assert (grows κ (retired (allocated κ))) as Hg' by (eapply grows_trans; [exact Hg|apply grows_retired]).
  eapply hoare_bind; [apply retire_at|]. intros [[p|]|[e err]]; apply hoare_pure; intros Hr.
  - eapply hoare_post; [apply graceful_commit_tx; [exact Hg'|simpl; lia|done]|].
    intros [o|e] s [H1 H2]; (split; [done|]); [|done]. by apply (installs_launched spec (pg_plan g) (retired κ)).
  - by apply tx_ret_err.
  - destruct Hr as (Hu & act & Ha & ->). go. eapply hoare_bind; [apply stop_at|].
    intros [v|e]; apply hoare_pure; intros Hv.
    + go. by apply tx_retired_stop.
    + rewrite Hu. eapply (hoare_bind _ _ _ (λ _, At (quarantined _ _ (retired (allocated κ))))); [apply hoare_modify; by intros s <-|].
      intros ?. apply tx_quarantine; [|simpl; lia]. eapply grows_trans; [exact Hg|]. by apply grows_retired_quarantined.
Qed.

Lemma switch_locked_tx κ spec :
  hoare (At κ) (switch_locked self spec) (Tx κ (λ _, launched spec κ)).
Proof.
  pose proof (grows_refl κ) as Hg. unfold switch_locked. go as b. destruct b; cbn [negb].
  - apply at_bind_ok; [inertly|intros; by eapply tx_err|]. intros sn.
    apply at_bind_ok; [inertly|intros; by eapply tx_err|]. intros ?.
    apply at_bind_ok; [inertly|intros; by eapply tx_err|]. intros r. go.
    destruct (graceful_degrade_reason _ _ _); [|apply graceful_switch_tx].
    eapply hoare_bind; [apply hard_switch_tx|]. intros [u|e]; apply hoare_ret; by intros s [H1 H2].
  - eapply hoare_bind; [apply discard_stale_tx|]. intros [u|e].
    + eapply hoare_pre; [|intros s [_ Hs]; exact (Hs eq_refl)].
      eapply hoare_bind; [apply start_locked_tx|]. intros [v|e]; apply hoare_ret; intros s [H1 H2]; (split; [|done]);
        (eapply grows_trans; [apply grows_retired|done]).
    + apply hoare_ret. intros s [H1 _]. by split.
Qed.

(** ** Applying *)

(** The outcome names the revision of the installed epoch. *)
Definition serving κ (o : ApplyOutcome) κ' : Prop :=
  ∃ a, κ' = installed a κ' ∧ ep_revision (ac_plan a) = outcome_revision o
       ∧ sl_quarantine κ' = sl_quarantine κ.

Lemma serving_installed κ κ' o x plan :
  sl_quarantine κ' = sl_quarantine κ → ep_revision plan = outcome_revision o →
  serving κ o (installed (mkActive x plan) κ').
Proof. intros Hq Hr. exists (mkActive x plan). done. Qed.

Lemma hoare_durability κ0 κ κ' (m : M Mgr (result ApplyOutcome Error)) w :
  hoare (At κ') m (Tx κ (serving κ0)) →
  hoare (At κ') (r <- m ;; ret (with_durability_result r w)) (Tx κ (serving κ0)).
Proof.
  intros Hm. eapply hoare_bind; [exact Hm|]. intros r. apply hoare_ret. intros s. by apply with_durability_tx.
Qed.

Lemma roll_back_tx κ0 κ old txt pre m :
  inert m → grows κ0 κ → (bounded κ0 → plan_epoch old ≤ sl_last κ)%Z → sl_quarantine κ = sl_quarantine κ0 →
  hoare (At κ) (roll_back self old txt pre m) (Tx κ0 (serving κ0)).
Proof.
  intros Hm Hg Hold Hq. unfold roll_back. go.
  eapply hoare_bind; [apply spawn_replacement_at|]. intros [x|e]; apply hoare_pure; intros Hx.
  - eapply hoare_bind; [apply install_and_publish_at|]. intros ?. apply at_bind; [done|]. intros ?.
    apply (tx_ok _ (installed (mkActive x old) κ)); [by apply grows_via_installed|by apply serving_installed].
  - destruct (is_stop_unconfirmed e); [by apply tx_quarantine|by apply tx_terminal].
Qed.

Lemma restart_with_compensation_tx κ0 κ act desired b :
  sl_current κ = Some act → plan_epoch desired = plan_epoch (ac_plan act) → κ = κ0 →
  hoare (At κ) (restart_with_compensation self desired b) (Tx κ0 (serving κ0)).
Proof.
  intros Ha Hd ->. pose proof (grows_retired κ0) as Hg. unfold restart_with_compensation.
  assert (bounded κ0 → plan_epoch (ac_plan act) ≤ sl_last κ0)%Z as Hb by (intros Hb; by apply Hb).
  eapply hoare_bind; [apply retire_at|]. intros [[old|]|[e err]]; apply hoare_pure; intros Hr; rewrite Ha in Hr; [|done|].
  - simplify_eq/=. go. eapply hoare_bind; [apply spawn_replacement_at|]. intros [x|e]; apply hoare_pure; intros Hx.
    + eapply hoare_bind; [apply install_and_publish_at|]. intros ?. go.
      apply (tx_ok _ (installed (mkActive x desired) (retired κ0))); [|by apply serving_installed].
      apply grows_via_installed; [done|]. simpl. by rewrite Hd.
    + destruct (is_stop_unconfirmed e); [apply tx_quarantine; [done|by rewrite Hd]|].
      go as [cm|re]; [|by apply tx_terminal]. apply hoare_durability, roll_back_tx; [|done..].
      apply inert_bind; [apply remove_backup_inert|intros; apply inert_ret].
  - destruct Hr as (Hu & ? & [= <-] & ->). rewrite Hu. by apply tx_quarantine.
Qed.

Lemma switch_with_compensation_tx κ act input sn :
  sl_current κ = Some act →
  hoare (At κ) (switch_with_compensation self input sn) (Tx κ (serving κ)).
Proof.
  intros Ha. pose proof (grows_allocated κ) as Hg. unfold switch_with_compensation. apply at_next_epoch.
  assert (bounded κ → plan_epoch (ac_plan act) ≤ sl_last κ + 1)%Z as Hb.
  { intros Hb. apply Hb in Ha. lia. }
  assert (grows κ (retired (allocated κ))) as Hg' by (eapply grows_trans; [exact Hg|apply grows_retired]).
  eapply hoare_bind; [apply at_result; [eauto with inert|apply prepare_launch_plan]|].
  intros [plan|e]; apply hoare_pure; intros Hplan; [|by apply tx_ret_err].
  assert (plan_epoch plan = sl_last κ + 1)%Z as Ep by (by destruct Hplan as (_ & -> & _)).
  eapply hoare_bind; [apply retire_at|]. intros [[old|]|[e err]]; apply hoare_pure; intros Hr; simpl in Hr; rewrite Ha in Hr; [|done|].
  - simplify_eq/=. go. eapply hoare_bind; [apply spawn_replacement_at|]. intros [x|e]; apply hoare_pure; intros Hx.
    + eapply hoare_bind; [apply install_and_publish_at|]. intros ?. go.
      apply (tx_ok _ (installed (mkActive x plan) (retired (allocated κ)))); [|by apply serving_installed].
      apply grows_via_installed; [done|]. simpl. lia.
    + destruct (is_stop_unconfirmed e); [apply tx_quarantine; [done|simpl; lia]|].
      go. by apply roll_back_tx; [apply inert_ret|..].
  - destruct Hr as (Hu & ? & [= <-] & ->). go. rewrite Hu. by apply tx_quarantine.
Qed.

(** The plan of the installed epoch is replaced. *)
Lemma tx_replace κ act plan :
  sl_current κ = Some act → plan_epoch plan = plan_epoch (ac_plan act) →
  grows κ (installed (mkActive (ac_instance act) plan) κ).
Proof.
  intros Ha Hp. apply grows_via_installed; [apply grows_refl|]. intros Hb. simpl. rewrite Hp. by apply Hb.
Qed.

Lemma apply_in_place_tx κ act change desired st :
  sl_current κ = Some act → plan_epoch desired = plan_epoch (ac_plan act) →
  hoare (At κ) (apply_in_place self act change desired st) (Tx κ (serving κ)).
Proof.
  intros Ha Hd. pose proof (grows_refl κ) as Hg. unfold apply_in_place. go as [bk|e].
  2:{ go. by apply tx_ret_err. }
  go as [cm|e].
  2:{ go. by apply tx_ret_err. }
  apply at_bind; [apply inert_lift, timeout_quiesces, reconcile_in_place_quiesces|]. intros r.
  destruct (default false r); [|by apply hoare_durability; eapply restart_with_compensation_tx].
  eapply (hoare_bind _ _ _ (λ _, At (mkSlot (sl_last κ) (Some (mkActive (ac_instance act) desired))
    (sl_last_spec κ) (sl_quarantine κ)))); [apply hoare_modify; by intros s <-|]. intros ?.
  unfold pid_of, publish_active. go. go.
  eapply (hoare_bind _ _ _ (λ _, At (installed (mkActive (ac_instance act) desired) κ))); [apply hoare_modify; intros s Hs|].
  { unfold At, slot_of in Hs |- *. injection Hs as E1 E2 E3 E4. unfold installed. simpl. by rewrite E1, E2, E4. }
  intros ?. go. apply hoare_ret. intros s Hs. apply with_durability_tx; [done|]. unfold Tx. rewrite Hs.
  split; [by apply tx_replace|]. apply serving_installed; [done|]. by destruct change.
Qed.

Lemma apply_locked_tx κ input expected :
  hoare (At κ) (apply_locked self input expected) (Tx κ (serving κ)).
Proof.
  pose proof (grows_refl κ) as Hg. unfold apply_locked. apply at_current.
  destruct (sl_current κ) as [act|] eqn:Ha; [|by apply tx_ret_err].
  unfold status_of. go as st. destruct (is_terminal (st_state st)); [by apply tx_ret_err|].
  apply at_bind_ok; [inertly|intros; by eapply tx_err|]. intros ?.
  apply at_bind_ok; [inertly|intros; by eapply tx_err|]. intros sn.
  eapply hoare_bind; [apply at_result; [eauto with inert|apply prepare_apply_epoch]|].
  intros [[d stg]|e]; apply hoare_pure; intros Hd; [|by apply tx_ret_err]. simpl in Hd. destruct Hd as [Hd _].
  destruct (classify _ _) as [[| | |]|e].
  - set (plan := mkPlan _ _ _ _ _ _ _ _).
    eapply (hoare_bind _ _ _ (λ _, At (installed (mkActive (ac_instance act) plan) κ))); [apply hoare_modify; by intros s <-|].
    intros ?. go. apply (tx_ok _ (installed (mkActive (ac_instance act) plan) κ)); [by apply tx_replace|].
    by apply serving_installed.
  - by apply apply_in_place_tx.
  - by apply apply_in_place_tx.
  - go. by eapply switch_with_compensation_tx.
  - go. by apply tx_ret_err.
Qed.

Lemma launched_serving spec κ κ' : launched spec κ κ' → ∃ a, sl_current κ' = Some a ∧ serving κ (Started (ep_revision (ac_plan a))) κ'.
Proof. intros (a & -> & _). exists a. split; [done|]. by exists a. Qed.

Lemma reconcile_locked_tx κ spec expected :
  hoare (At κ) (reconcile_locked self spec expected) (Tx κ (serving κ)).
Proof.
  pose proof (grows_retired κ) as Hg. unfold reconcile_locked. go as b.
  destruct b; [apply apply_locked_tx|]. destruct expected; [apply tx_ret_err, grows_refl|].
  eapply hoare_bind; [apply discard_stale_tx|]. intros [u|e]; [|apply hoare_ret; intros s [H _]; by split].
  eapply hoare_pre; [|intros s [_ Hs]; exact (Hs eq_refl)].
  eapply hoare_bind; [apply start_locked_tx|]. intros [v|e].
  - intros s [H1 H2]. unfold bind, gets.
    destruct (launched_serving _ _ _ H2) as (a & Ha & Hserv). simpl in Ha. rewrite Ha.
    split; [by eapply grows_trans|done].
  - apply hoare_ret. intros s [H1 _]. split; [by eapply grows_trans|done].
Qed.

(** ** Stopping *)

(** The slot is empty at the end, and a success quarantined nothing. *)
Definition vacated κ (r : result unit Error) (s : Mgr) : Prop :=
  grows κ (slot_of s) ∧ mg_current s = None
  ∧ (res_is_ok r = true → mg_quarantine s = sl_quarantine κ).

Section vacating.
Context (κ κ' : Slot) (Hg : grows κ κ') (Hc : sl_current κ' = None) (Hq : sl_quarantine κ' = sl_quarantine κ).

Lemma vacated_at r s : At κ' s → vacated κ r s.
Proof. intros <-. done. Qed.

Lemma vacated_terminal e : hoare (At κ') (fail_terminal e) (vacated κ).
Proof. eapply hoare_post; [apply fail_terminal_at|]. intros r s [_ Hs]. by apply vacated_at. Qed.

Lemma vacated_quarantine e err :
  (bounded κ → e ≤ sl_last κ')%Z → hoare (At κ') (fail_quarantine e err) (vacated κ).
Proof.
  intros He. eapply hoare_post; [apply fail_quarantine_at|]. intros r s [-> Hs]. split_and!; [|by injection Hs as _ ->|done].
  rewrite Hs. by apply grows_via_quarantined.
Qed.

Lemma vacated_stop_active x plan :
  (bounded κ → inst_epoch x ≤ sl_last κ')%Z → hoare (At κ') (stop_active self x plan) (vacated κ).
Proof.
  intros Hx. unfold stop_active. go. eapply hoare_bind; [apply stop_at|].
  intros [u|e]; apply hoare_pure; intros Hu.
  - go as [v|e]; [|apply vacated_terminal]. go. apply hoare_ret. intros s. apply vacated_at.
  - unfold fail_stop. rewrite Hu. by apply vacated_quarantine.
Qed.
End vacating.

(** The installed instance is of its plan's epoch. *)
Definition coherent κ : Prop :=
  ∀ a, sl_current κ = Some a → inst_epoch (ac_instance a) = plan_epoch (ac_plan a).

Lemma coherent_bound κ a :
  coherent κ → sl_current κ = Some a → bounded κ → (inst_epoch (ac_instance a) ≤ sl_last κ)%Z.
Proof. intros Hco Ha Hb. rewrite (Hco a Ha). by apply Hb. Qed.

Lemma stop_vacates κ : coherent κ → hoare (At κ) (stop self) (vacated κ).
Proof.
  intros Hco. pose proof (grows_retired κ) as Hg. unfold stop. go. apply at_current.
  destruct (sl_current κ) as [act|] eqn:Ha.
  2:{ apply hoare_ret. intros s. by apply vacated_at; [apply grows_refl|..]. }
  pose proof (coherent_bound κ act Hco Ha) as Hb.
  eapply (hoare_bind _ _ _ (λ _, At (retired κ))); [apply hoare_modify; by intros s <-|]. intros ?.
  unfold status_of. go as st. destruct (is_terminal (st_state st)); [|by apply vacated_stop_active].
  go. eapply hoare_bind; [apply stop_at|]. intros [u|e]; apply hoare_pure; intros Hu.
  - go as [v|e]; [|by apply vacated_terminal]. apply hoare_ret. intros s. by apply vacated_at.
  - rewrite Hu. by apply vacated_quarantine.
Qed.

Lemma shutdown_vacates κ : coherent κ → hoare (At κ) (shutdown self) (vacated κ).
Proof.
  intros Hco. pose proof (grows_retired κ) as Hg. unfold shutdown. go. apply at_current.
  eapply (hoare_bind _ _ _ (vacated κ)).
  - destruct (sl_current κ) as [act|] eqn:Ha.
    + pose proof (coherent_bound κ act Hco Ha) as Hb.
      eapply (hoare_bind _ _ _ (λ _, At (retired κ))); [apply hoare_modify; by intros s <-|]. intros ?.
      by apply vacated_stop_active.
    + apply hoare_ret. intros s. by apply vacated_at; [apply grows_refl|..].
  - intros r s (H1 & H2 & H3). unfold vacated.
    assert (inert (sink <- gets mg_sink ;; modify (set_sink false) ;;;
      (if sink then lift sink_shutdown else ret tt) ;;; ret r)) as Hin by inertly.
    assert (∀ t, ((sink <- gets mg_sink ;; modify (set_sink false) ;;;
      (if sink then lift sink_shutdown else ret tt) ;;; ret r) t).1 = r) as Hr.
    { intros t. unfold bind, gets, modify, ret, lift. simpl. destruct (mg_sink t); [|done]. by case_match. }
    rewrite Hr. destruct (Hin s) as [E _]. rewrite E. injection E as _ E1 _ E2. rewrite E1, E2. done.
Qed.

(** ** Recovery *)

Definition with_quarantine (q : list QuarantinedEpoch) κ : Slot :=
  mkSlot (sl_last κ) (sl_current κ) (sl_last_spec κ) q.

(** The slot's quarantine lists the epochs [es]. *)
Definition Lists κ (es : list Epoch) (s : Mgr) : Prop :=
  ∃ q, At (with_quarantine q κ) s ∧ qe_epoch <$> q = es.

Lemma lists_inert {A} (m : M Mgr A) κ es : inert m → hoare (Lists κ es) m (λ _, Lists κ es).
Proof. intros Hm s (q & Hs & Hq). exists q. split; [|done]. unfold At. by rewrite (proj1 (Hm s)). Qed.

Lemma lists_mark κ es e :
  hoare (Lists κ es) (modify (λ s, set_quarantine (mark_dead e (mg_quarantine s)) s)) (λ _, Lists κ es).
Proof.
  apply hoare_modify. intros s (q & Hs & Hq). injection Hs as E1 E2 E3 E4. exists (mark_dead e q). split.
  - unfold At, with_quarantine, slot_of. simpl. by rewrite E1, E2, E3, E4.
  - by rewrite mark_dead_epochs.
Qed.

Lemma filter_epochs e q :
  qe_epoch <$> List.filter (λ x, negb (qe_epoch x =? e)%Z) q = filter (λ e', e' ≠ e) (qe_epoch <$> q).
Proof.
  induction q as [|x q IH]; [done|]. cbn [List.filter].
  destruct (Z.eqb_spec (qe_epoch x) e) as [He|Hne]; cbn [negb]; rewrite !fmap_cons.
  - rewrite filter_cons_False; [done|]. intros Hx. by apply Hx.
  - rewrite filter_cons_True by done. by rewrite IH.
Qed.

Lemma filter_nodup (F rest : list Epoch) e :
  NoDup (F ++ e :: rest) → filter (λ e', e' ≠ e) (F ++ e :: rest) = F ++ rest.
Proof.
  assert (∀ l : list Epoch, e ∉ l → filter (λ e', e' ≠ e) l = l) as Hid.
  { induction l as [|x l IH]; [done|]. rewrite elem_of_cons. intros Hl.
    rewrite filter_cons_True by naive_solver. by rewrite IH by naive_solver. }
  rewrite NoDup_app, NoDup_cons. intros (_ & HF & Hr & _).
  rewrite filter_app, filter_cons_False by (intros Hx; by apply Hx).
  rewrite !Hid; [done|done|]. intros He. apply (HF e He), elem_of_cons. by left.
Qed.

Lemma lists_forget κ F e rest :
  NoDup (F ++ e :: rest) →
  hoare (Lists κ (F ++ e :: rest))
    (modify (λ s, set_quarantine (List.filter (λ x, negb (qe_epoch x =? e)%Z) (mg_quarantine s)) s))
    (λ _, Lists κ (F ++ rest)).
Proof.
  intros Hn. apply hoare_modify. intros s (q & Hs & Hq). injection Hs as E1 E2 E3 E4.
  exists (List.filter (λ x, negb (qe_epoch x =? e)%Z) q). split.
  - unfold At, with_quarantine, slot_of. simpl. by rewrite E1, E2, E3, E4.
  - rewrite filter_epochs, Hq. by apply filter_nodup.
Qed.

(** An entry leaves the quarantine exactly when its recovery did not fail. *)
Lemma recover_entry_lists κ F entry rest :
  NoDup (F ++ qe_epoch entry :: rest) →
  hoare (Lists κ (F ++ qe_epoch entry :: rest)) (recover_entry self entry)
    (λ r, Lists κ (match r with None => F ++ rest | Some _ => F ++ qe_epoch entry :: rest end)).
Proof.
  intros Hn. unfold recover_entry.
  eapply (hoare_bind _ _ _ (λ _, Lists κ (F ++ qe_epoch entry :: rest))).
  - destruct (qe_death_proven entry); [by apply hoare_ret|].
    eapply hoare_bind; [apply lists_inert; inertly|]. intros [[]|e]; try by apply hoare_ret.
    all: eapply hoare_bind; [apply lists_mark|]; intros ?; by apply hoare_ret.
  - intros [u|e]; [|by apply hoare_ret].
    eapply hoare_bind; [apply lists_inert, mgr_cleanup_epoch_inert|]. intros [v|e]; [|by apply hoare_ret].
    eapply hoare_bind; [by apply lists_forget|]. intros ?. by apply hoare_ret.
Qed.

(** What is left in quarantine: one epoch per failure. *)
Lemma recover_loop_lists κ F entries :
  NoDup (F ++ (qe_epoch <$> entries)) →
  hoare (Lists κ (F ++ (qe_epoch <$> entries))) (recover_loop self entries)
    (λ fs s, ∃ F', Lists κ (F ++ F') s ∧ F' ⊆+ qe_epoch <$> entries ∧ length F' = length fs).
Proof.
  revert F. induction entries as [|x l IH]; intros F Hn; cbn [recover_loop].
  { apply hoare_ret. intros s Hs. by exists []. }
  rewrite fmap_cons in Hn |- *. eapply hoare_bind; [by apply recover_entry_lists|]. intros [f|].
  - rewrite cons_middle, app_assoc in Hn |- *.
    eapply hoare_bind; [by apply IH|].
    intros fs. apply hoare_ret. intros s (F' & Hs & Hsub & Hlen). exists (qe_epoch x :: F').
    rewrite <-app_assoc in Hs. split_and!; [done|by apply submseteq_skip|simpl; by rewrite Hlen].
  - eapply hoare_bind; [apply (IH F)|].
    { apply NoDup_app in Hn as (? & HF & [? ?]%NoDup_cons). apply NoDup_app. split_and!; [done| |done]. set_solver. }
    intros fs. apply hoare_ret. intros s (F' & Hs & Hsub & Hlen). exists F'. split_and!; [done|by apply submseteq_cons|done].
Qed.
End transactions.
