(* ===== verification/Simulation.v ===== *)
(** A simulated host on which the orchestrator runs: a disk, the processes that
    are up, and a script of what goes wrong (epochs whose readiness never
    comes, epochs whose death cannot be confirmed, a controller that answers
    with the wrong configuration).  It satisfies [EnvLaws], so it shows that
    the laws can hold, and it evaluates, so the behaviours of the orchestrator
    can be run. *)
From S2P Require Import Prelude Text Paths Metadata Types Health Yaml Diff Mihomo Config Capability RuntimeStore Runtime.
From Stdlib Require String.
From Stdlib Require Import ZArith Lia.

#[export] Existing Instances bits_float echo_codec toy_process toy_url.

(** Configurations are the text of their [mode], over a fixed HTTP controller. *)
#[export] Instance sim_yaml : YamlCodec := {|
  yaml_from_slice raw := Ok (VMapping
    [(VString "external-controller", VString "127.0.0.1:9090"); (VString "mode", VString raw)]);
  yaml_to_string m := match map_get m "mode" with Some (VString t) => Ok t | _ => Err "no mode" end;
|}.

Record SimInstance := mkSim { si_id : Z; si_epoch : Epoch; si_controller : ResolvedController }.
#[export] Instance SimInstance_eq_dec : EqDecision SimInstance.
Proof. solve_decision. Defined.

Record Sim := mkSimWorld {
  sw_disk : Disk;
  sw_live : list SimInstance;
  sw_next : Z;
  sw_clock : Z;
  sw_unready : list Z;    (* epochs that never become ready *)
  sw_stuck : list Z;      (* epochs whose death is not confirmed *)
  sw_deaf : bool;         (* the controller refuses changes *)
}.

Definition set_disk (d : Disk) (w : Sim) : Sim :=
  mkSimWorld d (sw_live w) (sw_next w) (sw_clock w) (sw_unready w) (sw_stuck w) (sw_deaf w).
Definition set_live (l : list SimInstance) (w : Sim) : Sim :=
  mkSimWorld (sw_disk w) l (sw_next w) (sw_clock w) (sw_unready w) (sw_stuck w) (sw_deaf w).
Definition set_clock (t : Z) (w : Sim) : Sim :=
  mkSimWorld (sw_disk w) (sw_live w) (sw_next w) t (sw_unready w) (sw_stuck w) (sw_deaf w).
Definition set_next (n : Z) (w : Sim) : Sim :=
  mkSimWorld (sw_disk w) (sw_live w) n (sw_clock w) (sw_unready w) (sw_stuck w) (sw_deaf w).
Definition set_script (unready stuck : list Z) (deaf : bool) (w : Sim) : Sim :=
  mkSimWorld (sw_disk w) (sw_live w) (sw_next w) (sw_clock w) unready stuck deaf.

Definition on_disk {A} (m : M Disk A) : M Sim A :=
  λ w, let '(a, d) := m (sw_disk w) in (a, set_disk d w).

#[export] Instance sim_fs : RuntimeFs Sim := {|
  fs_process_id := 4242;
  fs_next_temp := on_disk (@fs_next_temp _ disk_fs);
  fs_validate_absent p := on_disk (@fs_validate_absent _ disk_fs p);
  fs_validate_existing p := on_disk (@fs_validate_existing _ disk_fs p);
  fs_create_new p := on_disk (@fs_create_new _ disk_fs p);
  fs_set_mode p z := on_disk (@fs_set_mode _ disk_fs p z);
  fs_write_sync p c := on_disk (@fs_write_sync _ disk_fs p c);
  fs_read p := on_disk (@fs_read _ disk_fs p);
  fs_remove_file p := on_disk (@fs_remove_file _ disk_fs p);
  fs_move_new a b := on_disk (@fs_move_new _ disk_fs a b);
  fs_replace a b := on_disk (@fs_replace _ disk_fs a b);
  fs_sync_dir p := on_disk (@fs_sync_dir _ disk_fs p);
  fs_remove_regular p := on_disk (@fs_remove_regular _ disk_fs p);
  fs_symlink_metadata p := on_disk (@fs_symlink_metadata _ disk_fs p);
  fs_read_dir q := on_disk (@fs_read_dir _ disk_fs q);
  fs_create_dir_all p := on_disk (@fs_create_dir_all _ disk_fs p);
  fs_canonicalize p := on_disk (@fs_canonicalize _ disk_fs p);
  fs_lock_dir p := on_disk (@fs_lock_dir _ disk_fs p);
|}.

#[export] Instance sim_binary : BinaryHost Sim := {|
  bin_modified _ := ret (Ok 5%Z);
  bin_version_output _ := ret (Ok (mkOutput true "Some(0)" "v1.19.2" ""));
|}.

Definition sim_launch (r : RuntimeLaunchRequest) : M Sim (result SimInstance Error) :=
  λ w, let x := mkSim (sw_next w) (lr_epoch r) (lr_controller r) in
       (Ok x, set_next (sw_next w + 1) (set_live (x :: sw_live w) w)).

Definition sim_stop (x : SimInstance) : M Sim (result unit Error) :=
  λ w, if bool_decide (si_epoch x ∈ sw_stuck w) then (Err (StopUnconfirmed "stuck"), w)
       else (Ok (), set_live (filter (λ y, y ≠ x) (sw_live w)) w).

(** Reaping kills whatever was recorded at that path. *)
Definition sim_reap (p d : string) : M Sim (result OrphanReapOutcome string) :=
  λ w, (Ok Killed, set_live (filter (λ y, pid_path (mkStore d) (si_epoch y) ≠ p) (sw_live w)) w).

Definition sim_status (x : SimInstance) (w : Sim) : InstanceStatus :=
  if bool_decide (x ∈ sw_live w)
  then mkInstanceStatus (Some (si_id x)) (IRunning (1000 + si_id x))
         (Some (mkHealthStatus HHealthy 0 0 None None))
  else mkInstanceStatus None (IStopped Finished) None.

#[export] Instance sim_env : Env Sim := {|
  Instance_ := SimInstance;
  inst_epoch := si_epoch;
  inst_controller := si_controller;
  inst_status := sim_status;
  inst_pid x w := Some (1000 + si_id x)%Z;
  backend_launch := sim_launch;
  backend_check_config _ := ret (Ok ());
  wait_ready x w := (if bool_decide (si_epoch x ∈ sw_unready w) then Err (StartupTimeout "") else Ok (), w);
  probe_now x p w := (if bool_decide (x ∈ sw_live w) then Healthy else Unhealthy None, w);
  stop_and_confirm_dead x _ := sim_stop x;
  Client := unit;
  build_control_client _ _ := Ok ();
  client_patch_config _ p w := (if sw_deaf w then Err "refused" else Ok (), w);
  client_configs _ w := (Ok (VMapping [(VString "mode", VString "direct")]), w);
  client_update_config _ _ w := (if sw_deaf w then Err "refused" else Ok (), w);
  dns_desired doc :=
    match map_get doc "mode" with
    | Some (VString t) => if String.eqb t "dns" then Some (mkIntent ["127.0.0.1"]) else None
    | _ => None
    end;
  dns_apply i e := ret (Ok (mkDnsRecord "eth0" [] (di_servers i) e None DApplied));
  dns_restore_host _ := ret (Ok ());
  dns_record_to_json r := Ok "{}";
  dns_record_from_json _ := Err "not modelled";
  now_ms w := (sw_clock w, set_clock (sw_clock w + 1) w);
  file_present _ := ret true;
  try_exists p w := (Ok (bool_decide (is_Some (dk_files (sw_disk w) !! p))), w);
  canon_view _ := λ p, Ok (Utf8 p);
  write_file_sync p c := on_disk (λ d, (Ok (), with_files (<[p:=c]>) d));
  reap_epoch_pid_file := sim_reap;
  timeout A _ m := r <- m ;; ret (Some r);
  sink_shutdown := ret ();
|}.

Lemma on_disk_live {A} (m : M Disk A) w : sw_live (on_disk m w).2 = sw_live w.
Proof. unfold on_disk. by destruct (m (sw_disk w)). Qed.

#[export] Instance sim_laws : EnvLaws Sim.
Proof.
  refine {| alive w x := x ∈ sw_live w |}; intros;
    try (intros w' j; first [exact (λ H, H) | by intros H; cbn in H; rewrite on_disk_live in H]).

  - done.
  - simpl in *. simplify_eq. split_and!; [done..|]. intros i. simpl. rewrite elem_of_cons. tauto.
  - intros w' i. simpl. unfold sim_stop. case_bool_decide; simpl; [done|]. rewrite list_elem_of_filter. tauto.
  - simpl in *. unfold sim_stop in *. case_bool_decide; [done|]. simpl in *. rewrite list_elem_of_filter. tauto.
  - simpl in *. unfold sim_stop in *. case_bool_decide; simpl in *; by simplify_eq.
  - intros w' i. simpl. rewrite list_elem_of_filter. tauto.
  - simpl in *. rewrite list_elem_of_filter. intros [Hne _]. destruct s. subst. done.
  - intros w' i. simpl. unfold bind, ret. specialize (H w' i). by destruct (m w').
Defined.
