(* ===== verification/Runs.v ===== *)
(** Concrete runs of the orchestrator on the simulated host: the states the
    witnesses of the manager's theorems are taken at. *)
From S2P Require Import Prelude Text Paths Metadata Types Health Yaml Diff Mihomo Config Capability RuntimeStore Runtime Manager Simulation.
From Stdlib Require Import ZArith Lia.

Definition sim_self : Inner :=
  mkInner (mkManagerOptions None Prefer None None (secs 10) (secs 30) (secs 10) (secs 10) false 0 0)
    (mkStore "/run") true None.

Definition sim_spec (config : string) : InstanceSpec :=
  mkInstanceSpec (mkCoreSpec Mihomo "/bin/mihomo" None []) config "/work" None instance_options_default.

Definition sim_world : Sim :=
  mkSimWorld (mkDisk {[ "/etc/a.yaml" := "rule"; "/etc/b.yaml" := "direct"; "/etc/dns.yaml" := "dns" ]} 0)
    [] 1 100 [] [] false.

Definition sim_booted : Mgr := mgr_new 0 0 false sim_world.

(** The script of the host from here on. *)
Definition scripted (unready stuck : list Z) (deaf : bool) (s : Mgr) : Mgr :=
  set_env (mg_cache s) (set_script unready stuck deaf (mg_world s)) s.

(** Started. *)
Definition sim_started : Mgr := (start sim_self (sim_spec "/etc/a.yaml") sim_booted).2.

(** A switch whose replacement neither becomes ready nor dies: the old epoch
    keeps running and the new one is quarantined. *)
Definition sim_quarantined : Mgr :=
  (switch sim_self (sim_spec "/etc/b.yaml") (scripted [2%Z] [2%Z] false sim_started)).2.

(** Started with a configuration that wants the host's DNS, twice. *)
Definition sim_dns_started : Mgr := (reconcile sim_self (sim_spec "/etc/dns.yaml") None sim_booted).2.

(** The first instance. *)
Definition sim_first : SimInstance := mkSim 1 1 (mkController (UnixSocket "/run/core-1.sock") None).
(** The bootstrap of the failed switch. *)
Definition sim_second : SimInstance := mkSim 2 2 (mkController (UnixSocket "/run/core-2.sock") None).

Example started_runs_first : sw_live (mg_world sim_started) = [sim_first] ∧ running sim_started = true.
Proof. by vm_compute. Qed.

Example quarantined_runs_both :
  sw_live (mg_world sim_quarantined) = [sim_second; sim_first] ∧ running sim_quarantined = true.
Proof. by vm_compute. Qed.

(** Reading a run without reading its state back. *)
Lemma run_some {A} (o : option A) : (if o is Some _ then true else false) = true → ∃ a, o = Some a.
Proof. destruct o; [eauto|done]. Qed.
Lemma run_ok {A E} (r : result A E) : res_is_ok r = true → ∃ a, r = Ok a.
Proof. destruct r; [eauto|done]. Qed.

Definition sim_recovered : Mgr := (recover_quarantine sim_self sim_quarantined).2.

(** The old epoch survives the recovery of the new one, yet the recovery
    publishes [Stopped] without a revision, so that neither the forwarder nor a
    [start], which finds the core running, can correct the status. *)
Lemma recovery_reports_stopped_while_running :
  (recover_quarantine sim_self sim_quarantined).1 = Ok tt
  ∧ mg_quarantine sim_recovered = [] ∧ running sim_recovered = true
  ∧ sw_live (mg_world sim_recovered) = [sim_first]
  ∧ co_state (mg_status sim_recovered) = Stopped None
  ∧ co_state (mg_status (forward_status sim_recovered).2) = Stopped None
  ∧ (start sim_self (sim_spec "/etc/a.yaml") sim_recovered).1 = Err AlreadyRunning.
Proof. split_and!; vm_compute; reflexivity. Qed.
