(* ===== verification/ManagerProps.v ===== *)
(** The manager as a state machine: its operations, the status forwarder and
    the exits of processes as a step relation, the invariants of the reachable
    states, and the guarantees of the single operations. *)
From S2P Require Import Prelude Text Paths Metadata Types Health Yaml Diff Mihomo Config Capability RuntimeStore Runtime Manager ManagerSafety ManagerControl Simulation Runs.
From Stdlib Require Import ZArith Lia.

Section reach.
Context {PL : ProcessLib} {YF : YamlFloat} {PC : PatchCodec}.
Context {YC : YamlCodec} {UL : UrlLib} {SV : Semver}.
Context {W : Type} {EN : Env W} {FS : RuntimeFs W} {BH : BinaryHost W} {EL : EnvLaws W}.
Context (self : Inner).

(** * The state machine *)

(** One public operation under the control lock, one turn of the forwarder, or
    anything else that happens on the host without a new core process. *)
Inductive mgr_step : Mgr → Mgr → Prop :=
| step_start spec s : mgr_step s (start self spec s).2
| step_stop s : mgr_step s (stop self s).2
| step_restart s : mgr_step s (restart self s).2
| step_switch spec s : mgr_step s (switch self spec s).2
| step_apply input expected s : mgr_step s (apply_config self input expected s).2
| step_reconcile spec expected s : mgr_step s (reconcile self spec expected s).2
| step_recover s : mgr_step s (recover_quarantine self s).2
| step_shutdown s : mgr_step s (shutdown self s).2
| step_forward s : mgr_step s (forward_status s).2
| step_host w s : (∀ i, alive w i → alive (mg_world s) i) → mgr_step s (set_env (mg_cache s) w s).

(** A manager just built, on a host with no core process of this directory. *)
Definition booted (s : Mgr) : Prop :=
  ∃ max_epoch now sink w, (∀ i, ¬ alive w i) ∧ s = mgr_new max_epoch now sink w.

Definition reachable (s : Mgr) : Prop := ∃ s0, booted s0 ∧ rtc mgr_step s0 s.

Lemma booted_safe s : booted s → safe s.
Proof.
  intros (max & now & sink & w & Hw & ->). exists None. split; [split|done]; simpl; [|done|].
  - intros i Hi. by destruct (Hw i).
  - intros x Hx. by apply elem_of_nil in Hx.
Qed.

Lemma step_safe s s' : mgr_step s s' → safe s → safe s'.
Proof.
  intros Hstep Hs. destruct Hstep as [| | | | | | | | |w s Hw].
  - by apply start_safe.
  - by apply stop_safe.
  - by apply restart_safe.
  - by apply switch_safe.
  - by apply apply_config_safe.
  - by apply reconcile_safe.
  - by apply recover_safe.
  - by apply shutdown_safe.
  - by apply forward_safe.
  - destruct Hs as [c [[Hc He Hd] Hcur]]. exists c. split; [split|done]; simpl; [|exact He|].
    + intros i Hi. exact (Hc i (Hw i Hi)).
    + by eapply deaths_mono.
Qed.

Lemma reachable_safe s : reachable s → safe s.
Proof.
  intros (s0 & H0 & Hs). apply booted_safe in H0. induction Hs as [|s0 s1 s Hstep _ IH]; [done|].
  by apply IH, (step_safe s0).
Qed.

(** C1: no core process is ever lost.  In every reachable state, an instance
    that may still have a process is the installed one or belongs to an epoch
    listed in quarantine, whatever was launched, stopped, switched, applied,
    rolled back or recovered on the way and whatever failed. *)
Theorem no_process_lost (s : Mgr) (i : Instance_) :
  reachable s → alive (mg_world s) i →
  (∃ a, mg_current s = Some a ∧ ac_instance a = i) ∨ inst_epoch i ∈ qe_epoch <$> mg_quarantine s.
Proof.
  intros [c [[Hc _ _] _]]%reachable_safe Hi. destruct (Hc i Hi) as [Hnil|?]; [by apply elem_of_nil in Hnil|done].
Qed.

(** the manager runs at most one core: outside quarantine, two instances
    that may still have a process are the same instance. *)
Theorem at_most_one_core (s : Mgr) (i j : Instance_) :
  reachable s → mg_quarantine s = [] → alive (mg_world s) i → alive (mg_world s) j → i = j.
Proof.
  intros [c [[Hc _ _] _]]%reachable_safe Hq Hi Hj.
  assert (∀ k, alive (mg_world s) k → ∃ a, mg_current s = Some a ∧ ac_instance a = k) as H.
  { intros k Hk. destruct (Hc k Hk) as [Hn|[?|Hin]]; [by apply elem_of_nil in Hn|done|].
    rewrite Hq in Hin. by apply elem_of_nil in Hin. }
  destruct (H i Hi) as (a & Ha & <-), (H j Hj) as (b & Hb & <-). congruence.
Qed.

(** * The quarantine gate *)

(** while an epoch is quarantined, [start], [switch], [restart],
    [apply_config] and [reconcile] answer [ManagerQuarantined] for the first
    quarantined epoch and change nothing at all. *)
Theorem quarantine_gate (s : Mgr) (q : QuarantinedEpoch) (rest : list QuarantinedEpoch)
    (spec : InstanceSpec) (expected : option RevisionId) :
  mg_quarantine s = q :: rest →
  ∃ reason, let refused := ManagerQuarantined (qe_epoch q) reason in
    start self spec s = (Err refused, s) ∧ switch self spec s = (Err refused, s)
    ∧ restart self s = (Err refused, s) ∧ apply_config self spec expected s = (Err refused, s)
    ∧ reconcile self spec expected s = (Err refused, s).
Proof.
  intros Hq. eexists. unfold start, switch, restart, apply_config, reconcile.
  unfold reject_quarantine, bind_ok, bind, gets. rewrite Hq. simpl. done.
Qed.

(** * Compare and swap *)

(** a configuration is applied only over the revision the caller saw: with
    another expected revision [apply_config] answers [RevisionConflict] with
    the revision actually installed, and changes nothing. *)
Theorem apply_conflict (s : Mgr) (a : Active) (input : InstanceSpec) (expected : RevisionId) :
  mg_quarantine s = [] → mg_current s = Some a → running s = true →
  expected ≠ revision_id (ep_revision (ac_plan a)) →
  apply_config self input (Some expected) s
    = (Err (RevisionConflict expected (Some (revision_id (ep_revision (ac_plan a))))), s).
Proof.
  intros Hq Ha Hrun Hne. unfold apply_config, apply_locked, reject_quarantine, status_of, bind_ok, bind, gets.
  unfold running in Hrun. rewrite Ha in Hrun. apply negb_true_iff in Hrun. rewrite Hq. simpl. rewrite Ha, Hrun.
  rewrite bool_decide_false by done. done.
Qed.

(** * What a success installs *)

(** Past the gate. *)
Lemma gate_ok {A} (k : M Mgr (result A Error)) s a s' :
  (_ <-? reject_quarantine ;; k) s = (Ok a, s') → mg_quarantine s = [] ∧ k s = (Ok a, s').
Proof.
  unfold bind_ok, bind, reject_quarantine, gets. destruct (quarantine_error (mg_quarantine s)) eqn:E; [done|].
  apply quarantine_error_none in E. done.
Qed.

(** Read a transaction's result off its run. *)
Lemma run_tx {A} (m : M Mgr (result A Error)) good s a s' :
  hoare (At (slot_of s)) m (Tx (slot_of s) good) → m s = (Ok a, s') → good a (slot_of s').
Proof. intros Hm E. destruct (Hm s eq_refl) as [_ H]. by rewrite E in H. Qed.

(** A fresh epoch of [spec] runs: the next number, generation 1, launched from
    [spec], nothing quarantined. *)
Definition fresh_epoch_of (spec : InstanceSpec) (s s' : Mgr) : Prop :=
  mg_last s' = (mg_last s + 1)%Z ∧ mg_quarantine s' = [] ∧ mg_last_spec s' = Some spec
  ∧ ∃ a, mg_current s' = Some a ∧ ep_source_spec (ac_plan a) = spec
      ∧ inst_epoch (ac_instance a) = (mg_last s + 1)%Z
      ∧ cr_epoch (ep_revision (ac_plan a)) = (mg_last s + 1)%Z ∧ cr_generation (ep_revision (ac_plan a)) = 1%Z.

Lemma launched_fresh spec s s' :
  mg_quarantine s = [] → launched spec (slot_of s) (slot_of s') → fresh_epoch_of spec s s'.
Proof.
  intros Hq (a & E & (H1 & H2 & H3) & H4). injection E as E1 E2 E3 E4. simpl in *.
  unfold fresh_epoch_of. rewrite E1, E3, E4, H1. split_and!; [done..|]. by exists a.
Qed.

Lemma stale_start_tx κ spec :
  hoare (At κ) (_ <-? discard_stale self ;; start_locked self spec) (Tx κ (λ _, launched spec κ)).
Proof.
  eapply hoare_bind; [apply discard_stale_tx|]. intros [u|e]; [|apply hoare_ret; intros s [H _]; by split].
  eapply hoare_pre; [|intros s [_ Hs]; exact (Hs eq_refl)].
  eapply tx_weaken; [apply grows_retired| |apply start_locked_tx]. by intros ? κ'' (a & -> & H); exists a.
Qed.

(** a [start] that answers [Ok] installed a fresh epoch: the number after
    the last one allocated, generation 1, launched from the given spec, which
    is also the one a later [restart] uses. *)
Theorem start_installs_fresh_epoch (spec : InstanceSpec) (s s' : Mgr) (u : unit) :
  start self spec s = (Ok u, s') → fresh_epoch_of spec s s'.
Proof.
  intros [Hq H]%gate_ok. apply launched_fresh; [done|].
  unfold bind, gets in H. destruct (running s); [done|].
  exact (run_tx _ (λ _, launched spec (slot_of s)) _ _ _ (stale_start_tx _ _) H).
Qed.

(** a [switch] that answers [Ok], by whichever strategy, and a [restart],
    which switches to the last spec, end with a fresh epoch of that spec. *)
Theorem switch_installs_fresh_epoch (spec : InstanceSpec) (s s' : Mgr) (o : SwitchOutcome) :
  switch self spec s = (Ok o, s') ∨ restart self s = (Ok o, s') ∧ mg_last_spec s = Some spec →
  fresh_epoch_of spec s s'.
Proof.
  assert (∀ Hq : mg_quarantine s = [], switch_locked self spec s = (Ok o, s') → fresh_epoch_of spec s s') as Hsw.
  { intros Hq H. apply launched_fresh; [done|].
    exact (run_tx _ (λ _, launched spec (slot_of s)) _ _ _ (switch_locked_tx self _ _) H). }
  intros [[Hq H]%gate_ok|[[Hq H]%gate_ok Hspec]]; [by apply Hsw|].
  unfold bind, gets in H. rewrite Hspec in H. by apply Hsw.
Qed.

(** C5: an outcome tells the truth: when [apply_config] or [reconcile] answers
    [Ok], whether the change was applied in place, by a restart, by a switch or
    rolled back, the revision it reports is that of the installed epoch, whose
    source spec is the one remembered, and nothing is quarantined. *)
Theorem outcome_is_installed (input : InstanceSpec) (expected : option RevisionId) (s s' : Mgr)
    (o : ApplyOutcome) :
  apply_config self input expected s = (Ok o, s') ∨ reconcile self input expected s = (Ok o, s') →
  mg_quarantine s' = [] ∧ ∃ a, mg_current s' = Some a ∧ ep_revision (ac_plan a) = outcome_revision o
    ∧ mg_last_spec s' = Some (ep_source_spec (ac_plan a)).
Proof.
  assert (∀ t, mg_quarantine s = [] → serving (slot_of s) o (slot_of t) →
    mg_quarantine t = [] ∧ ∃ a, mg_current t = Some a ∧ ep_revision (ac_plan a) = outcome_revision o
      ∧ mg_last_spec t = Some (ep_source_spec (ac_plan a))) as Hend.
  { intros t Hq (a & E & Hr & Hq'). injection E as E1 E2. simpl in *. split; [congruence|]. by exists a. }
  intros [[Hq H]%gate_ok|[Hq H]%gate_ok]; [apply Hend; [done|]|].
  - exact (run_tx _ _ _ _ _ (apply_locked_tx self _ _ _) H).
  - unfold bind, gets in H. destruct (reconcile_locked self input expected s) as [r s1] eqn:E.
    destruct (res_is_ok r || negb (running s1)).
    2:{ injection H as -> ->. apply Hend; [done|]. exact (run_tx _ _ _ _ _ (reconcile_locked_tx self _ _ _) E). }
    destruct (dns_converge_inert self s1) as [Es _]. destruct (dns_converge self s1) as [u s2].
    injection H as -> ->. apply Hend; [done|]. simpl in Es. rewrite Es.
    exact (run_tx _ _ _ _ _ (reconcile_locked_tx self _ _ _) E).
Qed.

(** * Epoch numbers *)
Lemma gate_grows {A} (k : M Mgr (result A Error)) s :
  hoare (At (slot_of s)) k (λ _ s', grows (slot_of s) (slot_of s')) →
  grows (slot_of s) (slot_of ((_ <-? reject_quarantine ;; k) s).2).
Proof.
  intros Hk. unfold bind_ok, bind, reject_quarantine, gets.
  destruct (quarantine_error _); [apply grows_refl|by apply Hk].
Qed.

Lemma tx_grows {A} (m : M Mgr (result A Error)) κ good :
  hoare (At κ) m (Tx κ good) → hoare (At κ) m (λ _ s', grows κ (slot_of s')).
Proof. intros Hm. eapply hoare_post; [exact Hm|]. by intros r s [H _]. Qed.

Lemma safe_coherent s : safe s → coherent (slot_of s).
Proof. intros [c [[_ He _] _]] a Ha. by apply He. Qed.

Lemma inert_grows {A} (m : M Mgr A) s : inert m → grows (slot_of s) (slot_of (m s).2).
Proof. intros Hm. rewrite (proj1 (Hm s)). apply grows_refl. Qed.

(** What is left after a recovery. *)
Lemma recover_lists s :
  NoDup (qe_epoch <$> mg_quarantine s) →
  let '(r, s') := recover_quarantine self s in
  ∃ F', Lists (slot_of s) F' s' ∧ F' ⊆+ qe_epoch <$> mg_quarantine s
    ∧ match r with
      | Ok _ => F' = []
      | Err e => ∃ x rest reason, mg_quarantine s' = x :: rest ∧ e = ManagerQuarantined (qe_epoch x) reason
      end.
Proof.
  intros Hn. unfold recover_quarantine. unfold bind at 1, gets at 1. case_bool_decide as Hlen.
  { destruct (mg_quarantine s) eqn:Hq; [|done]. exists []. split_and!; [|done|done]. exists []. split; [|done].
    unfold At, with_quarantine, slot_of. simpl. by rewrite Hq. }
  assert (Lists (slot_of s) ([] ++ (qe_epoch <$> mg_quarantine s)) s) as H0 by (by exists (mg_quarantine s)).
  pose proof (recover_loop_lists self (slot_of s) [] (mg_quarantine s) Hn s H0) as H.
  unfold bind at 1. destruct (recover_loop self (mg_quarantine s) s) as [fs s1]. simpl in H.
  destruct H as (F' & HL & Hsub & Hfs). destruct fs as [|f fs].
  - assert (inert (publish (Stopped None) None ;;; dns_restore self ;;; ret (Ok (E:=Error) tt))) as Hin by (inertly; eauto with inert).
    pose proof (lists_inert _ (slot_of s) F' Hin s1 HL) as HL'.
    destruct (bind _ _ s1) as [r s2] eqn:E. assert (r = Ok tt) as ->.
    { revert E. unfold bind, ret. destruct (publish _ _ s1) as [? ?]. destruct (dns_restore self _). congruence. }
    exists F'. split_and!; [done|done|]. by destruct F'.
  - destruct HL as (q & Hs & Hq). unfold bind, gets. injection Hs as E1 E2 E3 E4. rewrite E4.
    destruct q as [|x rest]; [by subst F'|]. simpl. exists F'. split_and!; [|done|].
    + exists (x :: rest). split; [|done]. unfold At, with_quarantine, slot_of. by rewrite E1, E2, E3, E4.
    + by exists x, rest, (join " | " (f :: fs)).
Qed.

Lemma lists_grows κ F' s :
  Lists κ F' s → F' ⊆+ qe_epoch <$> sl_quarantine κ → grows κ (slot_of s).
Proof.
  intros (q & Hs & <-) Hsub. rewrite Hs. split; simpl; [lia|]. intros [Hc Hq Hn]. split; simpl; [done| |].
  - intros e He. apply Hq. by eapply elem_of_submseteq.
  - destruct (submseteq_Permutation _ _ Hsub) as [k Hk]. rewrite Hk in Hn. by apply NoDup_app in Hn as [? _].
Qed.

Lemma step_bounded s s' : mgr_step s s' → safe s → bounded (slot_of s) → bounded (slot_of s').
Proof.
  intros Hstep Hs Hb.
  assert (grows (slot_of s) (slot_of s')) as Hg; [|by apply Hg].
  destruct Hstep as [| | | | | | | | |w s Hw].
  - apply gate_grows. apply at_bind; [inertly|]. intros [|]; [apply hoare_ret; intros t <-; apply grows_refl|].
    apply (tx_grows _ _ (λ _, launched spec (slot_of s))). apply stale_start_tx.
  - by apply (stop_vacates self (slot_of s) (safe_coherent s Hs)).
  - apply gate_grows. apply at_bind; [inertly|].
    intros [spec|]; [|apply hoare_ret; intros t <-; apply grows_refl]. eapply tx_grows, switch_locked_tx.
  - apply gate_grows. eapply tx_grows, switch_locked_tx.
  - apply gate_grows. eapply tx_grows, apply_locked_tx.
  - apply gate_grows. eapply hoare_bind; [apply reconcile_locked_tx|]. intros r s1 [H _].
    eapply grows_trans; [exact H|]. apply inert_grows. inertly; eauto with inert.
  - pose proof (recover_lists s (bd_nodup _ Hb)) as H. destruct (recover_quarantine self s) as [r s1].
    destruct H as (F' & HL & Hsub & _). by eapply lists_grows.
  - by apply (shutdown_vacates self (slot_of s) (safe_coherent s Hs)).
  - apply inert_grows. eauto with inert.
  - apply grows_refl.
Qed.

Lemma reachable_bounded s : reachable s → safe s ∧ bounded (slot_of s).
Proof.
  intros (s0 & H0 & Hs).
  assert (safe s0 ∧ bounded (slot_of s0)) as H.
  { split; [by apply booted_safe|]. destruct H0 as (? & ? & ? & ? & _ & ->).
    split; simpl; [done| |by apply NoDup_nil]. intros e He. by apply elem_of_nil in He. }
  clear H0. induction Hs as [|s0 s1 s Hstep _ IH]; [done|]. destruct H as [H1 H2].
  apply IH. split; [by eapply step_safe|by eapply step_bounded].
Qed.


(** * Stopping *)

(** C25: [stop] leaves nothing behind unnoticed.  It always empties the slot;
    when it answers [Ok] in a reachable state with nothing quarantined, no core
    process can be left, and otherwise whatever may be left is quarantined. *)
Theorem stop_leaves_nothing (s s' : Mgr) (r : result unit Error) :
  reachable s → stop self s = (r, s') →
  mg_current s' = None
  ∧ (∀ i, alive (mg_world s') i → inst_epoch i ∈ qe_epoch <$> mg_quarantine s')
  ∧ (mg_quarantine s = [] → r = Ok tt → ∀ i, ¬ alive (mg_world s') i).
Proof.
  intros [Hs _]%reachable_bounded E.
  pose proof (stop_vacates self (slot_of s) (safe_coherent s Hs) s eq_refl) as (_ & Hc & Hq).
  pose proof (stop_safe self s Hs) as [c [[Hcov _ _] _]]. rewrite E in Hc, Hq, Hcov. simpl in *.
  assert (∀ i, alive (mg_world s') i → inst_epoch i ∈ qe_epoch <$> mg_quarantine s') as Hall.
  { intros i Hi. destruct (Hcov i Hi) as [Hin|[(a & Ha & _)|Hin]]; [by apply elem_of_nil in Hin|congruence|done]. }
  split_and!; [done|done|]. intros Hnil -> i Hi. specialize (Hall i Hi). rewrite Hq, Hnil in Hall by done.
  by apply elem_of_nil in Hall.
Qed.

(** * Recovery *)

(** [recover_quarantine] lifts the quarantine exactly when it says so: in
    a reachable state it answers [Ok] if and only if no epoch is left in
    quarantine, and otherwise names the first epoch left, so its [expect] is
    never reached; it only ever removes epochs, and does not touch the
    installed one. *)
Theorem recover_lifts_quarantine (s s' : Mgr) (r : result unit Error) :
  reachable s → recover_quarantine self s = (r, s') →
  (r = Ok tt ↔ mg_quarantine s' = [])
  ∧ (∀ e, r = Err e → ∃ q rest reason, mg_quarantine s' = q :: rest ∧ e = ManagerQuarantined (qe_epoch q) reason)
  ∧ (qe_epoch <$> mg_quarantine s') ⊆ (qe_epoch <$> mg_quarantine s)
  ∧ mg_current s' = mg_current s ∧ mg_last s' = mg_last s.
Proof.
  intros [_ Hb]%reachable_bounded E. pose proof (recover_lists s (bd_nodup _ Hb)) as H. rewrite E in H.
  destruct H as (F' & (q & Hat & Hq) & Hsub & Hr). injection Hat as E1 E2 E3 E4. rewrite E4 in Hr |- *.
  split_and!; [split| | |done|done].
  - intros ->. subst F'. by destruct q.
  - intros ->. destruct r as [[]|e]; [done|]. by destruct Hr as (? & ? & ? & ? & _).
  - by intros e ->.
  - rewrite Hq. intros e He. by eapply elem_of_submseteq.
Qed.
End reach.

(** ** At the simulated states *)
Lemma sim_booted_ok : booted sim_booted.
Proof. exists 0%Z, 0%Z, false, sim_world. split; [|done]. intros i Hi. by apply elem_of_nil in Hi. Qed.

Lemma sim_started_reachable : reachable sim_self sim_started.
Proof. exists sim_booted. split; [apply sim_booted_ok|]. apply rtc_once, step_start. Qed.

Lemma scripted_step self unready stuck deaf s : mgr_step self s (scripted unready stuck deaf s).
Proof. apply step_host. by intros i. Qed.

Lemma sim_quarantined_reachable : reachable sim_self sim_quarantined.
Proof.
  exists sim_booted. split; [apply sim_booted_ok|]. eapply rtc_l; [apply step_start|].
  eapply rtc_l; [apply scripted_step|]. apply rtc_once, step_switch.
Qed.

Lemma no_process_lost_witness :
  inst_epoch sim_second ∈ qe_epoch <$> mg_quarantine sim_quarantined.
Proof.
  destruct (no_process_lost sim_self sim_quarantined sim_second sim_quarantined_reachable) as [(a & Ha & Hi)|H].
  - apply (bool_decide_unpack (sim_second ∈ sw_live (mg_world sim_quarantined))). vm_compute. exact Logic.I.
  - exfalso. assert ((λ a, si_id (ac_instance a)) <$> mg_current sim_quarantined = Some 1%Z) as H by (vm_compute; reflexivity).
    rewrite Ha in H. simpl in H. rewrite Hi in H. discriminate H.
  - exact H.
Defined.

Lemma at_most_one_core_witness : ∀ i, alive (mg_world sim_started) i → i = sim_first.
Proof.
  intros i Hi. apply (at_most_one_core sim_self sim_started i sim_first sim_started_reachable).
  - vm_compute. reflexivity.
  - exact Hi.
  - apply (bool_decide_unpack (sim_first ∈ sw_live (mg_world sim_started))). vm_compute. exact Logic.I.
Defined.

Lemma quarantine_gate_witness :
  ∃ q reason, mg_quarantine sim_quarantined = [q]
    ∧ start sim_self (sim_spec "/etc/a.yaml") sim_quarantined
      = (Err (ManagerQuarantined (qe_epoch q) reason), sim_quarantined).
Proof.
  destruct (run_some (head (mg_quarantine sim_quarantined))) as [q Hq]; [vm_compute; reflexivity|].
  assert (tail (mg_quarantine sim_quarantined) = []) as Ht by (vm_compute; reflexivity).
  assert (mg_quarantine sim_quarantined = [q]) as E.
  { destruct (mg_quarantine sim_quarantined) as [|q0 l]; [discriminate Hq|]. injection Hq as ->. simpl in Ht. by rewrite Ht. }
  destruct (quarantine_gate sim_self sim_quarantined q [] (sim_spec "/etc/a.yaml") None E) as (reason & H & _).
  exists q, reason. split; [exact E|exact H].
Defined.

Lemma apply_conflict_witness :
  ∃ a, mg_current sim_started = Some a
    ∧ (apply_config sim_self (sim_spec "/etc/b.yaml") (Some (mkRevisionId 1 7 "")) sim_started).1
      = Err (RevisionConflict (mkRevisionId 1 7 "") (Some (revision_id (ep_revision (ac_plan a))))).
Proof.
  destruct (run_some (mg_current sim_started)) as [a E]; [vm_compute; reflexivity|].
  exists a. split; [exact E|].
  assert ((λ a, ri_generation (revision_id (ep_revision (ac_plan a)))) <$> mg_current sim_started = Some 1%Z) as H
    by (vm_compute; reflexivity).
  rewrite (apply_conflict sim_self sim_started a (sim_spec "/etc/b.yaml") (mkRevisionId 1 7 "")).
  - reflexivity.
  - vm_compute. reflexivity.
  - exact E.
  - vm_compute. reflexivity.
  - rewrite E in H. simpl in H. intros Heq. apply (f_equal ri_generation) in Heq. simpl in Heq. rewrite <-Heq in H. discriminate H.
Defined.

Lemma start_installs_fresh_epoch_witness : fresh_epoch_of (sim_spec "/etc/a.yaml") sim_booted sim_started.
Proof.
  apply (start_installs_fresh_epoch sim_self (sim_spec "/etc/a.yaml") sim_booted sim_started tt).
  assert ((start sim_self (sim_spec "/etc/a.yaml") sim_booted).1 = Ok tt) as H by (vm_compute; reflexivity).
  rewrite <-H. unfold sim_started. apply surjective_pairing.
Defined.

Lemma switch_installs_fresh_epoch_witness :
  fresh_epoch_of (sim_spec "/etc/b.yaml") sim_started (switch sim_self (sim_spec "/etc/b.yaml") sim_started).2.
Proof.
  apply (switch_installs_fresh_epoch sim_self (sim_spec "/etc/b.yaml") sim_started _ Graceful). left.
  assert ((switch sim_self (sim_spec "/etc/b.yaml") sim_started).1 = Ok Graceful) as H by (vm_compute; reflexivity).
  rewrite <-H. apply surjective_pairing.
Defined.

Lemma outcome_is_installed_witness :
  ∃ o, (apply_config sim_self (sim_spec "/etc/b.yaml") None sim_started).1 = Ok o
    ∧ ∃ a, mg_current (apply_config sim_self (sim_spec "/etc/b.yaml") None sim_started).2 = Some a
      ∧ ep_revision (ac_plan a) = outcome_revision o.
Proof.
  destruct (run_ok (apply_config sim_self (sim_spec "/etc/b.yaml") None sim_started).1) as [o E]; [vm_compute; reflexivity|].
  exists o. split; [exact E|].
  destruct (outcome_is_installed sim_self (sim_spec "/etc/b.yaml") None sim_started
    (apply_config sim_self (sim_spec "/etc/b.yaml") None sim_started).2 o) as (_ & a & H1 & H2 & _).
  - left. rewrite <-E. apply surjective_pairing.
  - exists a. split; [exact H1|exact H2].
Defined.


Lemma stop_leaves_nothing_witness :
  (stop sim_self sim_started).1 = Ok tt ∧ ∀ i, ¬ alive (mg_world (stop sim_self sim_started).2) i.
Proof.
  assert ((stop sim_self sim_started).1 = Ok tt) as H by (vm_compute; reflexivity). split; [exact H|].
  apply (stop_leaves_nothing sim_self sim_started _ (stop sim_self sim_started).1 sim_started_reachable).
  - apply surjective_pairing.
  - vm_compute. reflexivity.
  - exact H.
Defined.

Lemma recover_lifts_quarantine_witness :
  (recover_quarantine sim_self sim_quarantined).1 = Ok tt
  ∧ mg_quarantine (recover_quarantine sim_self sim_quarantined).2 = [].
Proof.
  assert ((recover_quarantine sim_self sim_quarantined).1 = Ok tt) as H by (vm_compute; reflexivity). split; [exact H|].
  apply (recover_lifts_quarantine sim_self sim_quarantined _ (recover_quarantine sim_self sim_quarantined).1
    sim_quarantined_reachable).
  - apply surjective_pairing.
  - exact H.
Defined.
