(* ===== verification/ManagerStatus.v ===== *)
(** What the orchestrator publishes and records: the status forwarder of an
    epoch (publish.rs) and the ownership of the host's DNS (dns_sync.rs). *)
From S2P Require Import Prelude Text Paths Metadata Types Health Yaml Diff Mihomo Config Capability RuntimeStore Runtime Manager ManagerSafety ManagerControl Simulation Runs.
From Stdlib Require String.
From Stdlib Require Import ZArith Lia.

Section status.
Context {PL : ProcessLib} {YF : YamlFloat} {PC : PatchCodec}.
Context {YC : YamlCodec} {UL : UrlLib} {SV : Semver}.
Context {W : Type} {EN : Env W} {FS : RuntimeFs W} {BH : BinaryHost W}.
Context (self : Inner).

(** * The forwarder *)

(** the forwarder of an epoch publishes only over a status of that epoch,
    never touches the revision, the spec or the controller, publishes the
    instance's state, health and identity, moves [changed_at] only when the
    state changed, and is idempotent: the same snapshot is published once. *)
Theorem forwarder_epoch_guard (st st' : CoreStatus) (epoch : Epoch) (x : InstanceStatus) (now : Z) :
  apply_epoch_status st epoch x now = Some st' →
  (cr_epoch <$> co_revision st) = Some epoch
  ∧ co_revision st' = co_revision st ∧ co_spec st' = co_spec st ∧ co_controller st' = co_controller st
  ∧ co_state st' = instance_core_state epoch (st_state x) ∧ co_health st' = st_health x
  ∧ co_instance_id st' = st_instance_id x
  ∧ co_changed_at st' = (if bool_decide (co_state st = co_state st') then co_changed_at st else now)
  ∧ ∀ now', apply_epoch_status st' epoch x now' = None.
Proof.
  unfold apply_epoch_status. case_bool_decide as He; cbn [negb]; [|done].
  destruct (bool_decide (co_state st = _) && _ && _); [done|]. intros [= <-]. simpl.
  split_and!; [done..|]. intros now'. rewrite !bool_decide_true by done. done.
Qed.

(** * Host DNS *)

(** A successful record update is the only way the recorded override changes. *)
Lemma persist_record rec s :
  mg_dns_record (persist_dns_record self rec s).2
    = (if res_is_ok (persist_dns_record self rec s).1 then rec else mg_dns_record s).
Proof.
  unfold persist_dns_record, bind_ok, bind, lift, modify, ret.
  by destruct ((match rec with Some e => publish_dns_record self e | None => clear_dns_record self end)
     (mg_world s)) as [[u|e] w].
Qed.

Lemma lift_record {A} (m : M W A) s : mg_dns_record (lift m s).2 = mg_dns_record s.
Proof. unfold lift. by destruct (m (mg_world s)). Qed.

(** What is kept of an owned override: its interface and the user's servers. *)
Definition keeps_baseline (interface : string) (previous : list string) (s : Mgr) : Prop :=
  ∀ r, mg_dns_record s = Some r → dr_interface r = interface ∧ dr_previous r = previous.

Section keeps.
Context (interface : string) (previous : list string).

Lemma keeps_persist rec :
  (∀ r, rec = Some r → dr_interface r = interface ∧ dr_previous r = previous) →
  hoare (keeps_baseline interface previous) (persist_dns_record self rec)
    (λ _, keeps_baseline interface previous).
Proof.
  intros Hrec s Hs r. rewrite persist_record. destruct (res_is_ok _); [by apply Hrec|by apply Hs].
Qed.

Lemma keeps_lift {A} (m : M W A) :
  hoare (keeps_baseline interface previous) (lift m) (λ _, keeps_baseline interface previous).
Proof. intros s Hs r. rewrite lift_record. by apply Hs. Qed.
End keeps.

Lemma dns_restore_keeps s r :
  mg_dns_record s = Some r → keeps_baseline (dr_interface r) (dr_previous r) (dns_restore self s).2.
Proof.
  intros Hr. assert (keeps_baseline (dr_interface r) (dr_previous r) s) as H0.
  { intros r' Hr'. by simplify_eq. }
  unfold dns_restore. destruct (negb (in_dns self)); [done|]. unfold bind at 1, gets. rewrite Hr.
  revert s Hr H0. assert (∀ m : M Mgr unit,
    hoare (keeps_baseline (dr_interface r) (dr_previous r)) m (λ _, keeps_baseline (dr_interface r) (dr_previous r)) →
    ∀ s, mg_dns_record s = Some r → keeps_baseline (dr_interface r) (dr_previous r) s →
      keeps_baseline (dr_interface r) (dr_previous r) (m s).2) as Huse by (by intros m Hm s _; apply Hm).
  apply Huse. eapply hoare_bind; [apply keeps_persist; by intros r' [= <-]|]. intros ?.
  eapply hoare_bind; [apply keeps_lift|]. intros [[u|e]|]; [|by apply hoare_ret..].
  eapply hoare_bind; [by apply keeps_persist|]. intros ?. by apply hoare_ret.
Qed.

(** the user's DNS servers are never lost: while an override is owned,
    converging it again (also from another epoch, and whatever the host
    reports as the previous servers) keeps the interface and the servers that
    were there before the first override. *)
Theorem dns_baseline_kept (s : Mgr) (r r' : DnsOverrideRecord) :
  mg_dns_record s = Some r → dr_interface r ≠ "" →
  mg_dns_record (dns_converge self s).2 = Some r' →
  dr_interface r' = dr_interface r ∧ dr_previous r' = dr_previous r.
Proof.
  intros Hr Hne. enough (keeps_baseline (dr_interface r) (dr_previous r) (dns_converge self s).2) as H by (by apply H).
  assert (keeps_baseline (dr_interface r) (dr_previous r) s) as H0 by (intros r0 Hr0; by simplify_eq).
  unfold dns_converge. destruct (negb (in_dns self)); [done|]. unfold bind at 1, gets.
  destruct (dns_wanted s) as [[intent epoch]|]; [|by apply dns_restore_keeps].
  unfold bind at 1, gets. rewrite Hr. unfold dns_baseline. destruct (String.eqb_spec (dr_interface r) "") as [|_]; [done|].
  assert (∀ m : M Mgr unit,
    hoare (keeps_baseline (dr_interface r) (dr_previous r)) m (λ _, keeps_baseline (dr_interface r) (dr_previous r)) →
    keeps_baseline (dr_interface r) (dr_previous r) (m s).2) as Huse by (intros m Hm; by apply Hm).
  apply Huse. eapply hoare_bind; [apply keeps_persist; by intros r0 [= <-]|]. intros [u|e]; [|by apply hoare_ret].
  eapply hoare_bind; [apply keeps_lift|]. intros [[rec|e]|]; [|by apply hoare_ret..].
  destruct (String.eqb_spec (dr_interface rec) (dr_interface r)) as [Hi|]; cbn [negb]; [|by apply hoare_ret].
  eapply hoare_bind; [apply keeps_persist; by intros r0 [= <-]|]. intros ?. by apply hoare_ret.
Qed.

Lemma persist_err rec e s s1 :
  persist_dns_record self (Some rec) s = (Err e, s1) →
  publish_dns_record self rec (mg_world s) = (Err e, mg_world s1) ∧ mg_dns_record s1 = mg_dns_record s.
Proof.
  unfold persist_dns_record, bind_ok, bind, lift, modify, ret.
  destruct (publish_dns_record self rec (mg_world s)) as [[u|e'] w]; [done|]. by intros [= -> <-].
Qed.

Lemma recorded_persist rec :
  hoare (λ s, is_Some (mg_dns_record s)) (persist_dns_record self (Some rec)) (λ _ s, is_Some (mg_dns_record s)).
Proof. intros s Hs. rewrite persist_record. by destruct (res_is_ok _). Qed.

Lemma recorded_lift {A} (m : M W A) :
  hoare (λ s, is_Some (mg_dns_record s)) (lift m) (λ _ s, is_Some (mg_dns_record s)).
Proof. intros s Hs. by rewrite lift_record. Qed.

(** the host's DNS is never overridden without a record to undo it from:
    when the running epoch wants an override, either the record could not be
    made durable and the world is left as that attempt left it, or a record is
    held afterwards, whatever the host answered and even when it timed out. *)
Theorem dns_override_is_recorded (s : Mgr) (intent : DnsIntent) (epoch : Epoch) :
  in_dns self = true → dns_wanted s = Some (intent, epoch) →
  (∃ record e, publish_dns_record self record (mg_world s) = (Err e, mg_world (dns_converge self s).2)
     ∧ mg_dns_record (dns_converge self s).2 = mg_dns_record s)
  ∨ is_Some (mg_dns_record (dns_converge self s).2).
Proof.
  intros Hin Hw. unfold dns_converge. rewrite Hin. cbn [negb].
  rewrite (bind_run (gets dns_wanted) _ s _ s eq_refl), Hw. rewrite (bind_run (gets _) _ s _ s eq_refl).
  set (pre := mkDnsRecord _ _ _ _ _ _). destruct (persist_dns_record self (Some pre) s) as [[u|e] s1] eqn:E;
    rewrite (bind_run _ _ _ _ _ E).
  - right. pose proof (persist_record (Some pre) s) as Hrec. rewrite E in Hrec. simpl in Hrec.
    assert (is_Some (mg_dns_record s1)) as Hs1 by (by rewrite Hrec). clear E Hrec. revert s1 Hs1.
    apply (hoare_bind _ _ (λ s, is_Some (mg_dns_record s)) (λ _ s, is_Some (mg_dns_record s)) (λ _ s, is_Some (mg_dns_record s)) (recorded_lift _)).
    assert (∀ rec, hoare (λ s, is_Some (mg_dns_record s)) (persist_dns_record self (Some rec) ;;; ret tt)
      (λ _ s, is_Some (mg_dns_record s))) as Hp.
    { intros rec. eapply hoare_bind; [apply recorded_persist|]. intros ?. by apply hoare_ret. }
    intros [[rec|e]|]; [|by apply hoare_ret..]. destruct (dns_baseline _) as [[i p]|]; [|by apply Hp].
    destruct (negb _); [by apply hoare_ret|by apply Hp].
  - left. exists pre, e. by apply persist_err.
Qed.
End status.

(** ** At the simulated states *)

(** A status of epoch 1, and a snapshot of its instance. *)
Definition sim_status_1 : CoreStatus :=
  mkCoreStatus None (Starting 1) 5 None None None (Some (mkRevision 1 1 "" "" "/run/config-1.yaml")).
Definition sim_snapshot : InstanceStatus := mkInstanceStatus (Some 9%Z) (IRunning 77) None.

Lemma forwarder_epoch_guard_witness :
  ∃ st', apply_epoch_status sim_status_1 1 sim_snapshot 8 = Some st'
    ∧ co_state st' = Running 1 77 ∧ apply_epoch_status st' 1 sim_snapshot 9 = None.
Proof.
  destruct (run_some (apply_epoch_status sim_status_1 1 sim_snapshot 8)) as [st' E]; [vm_compute; reflexivity|].
  exists st'. split; [exact E|].
  destruct (forwarder_epoch_guard _ _ _ _ _ E) as (_ & _ & _ & _ & H & _ & _ & _ & Hn).
  split; [exact H|apply Hn].
Defined.

(** Servers the user had configured. *)
Definition sim_owned : Mgr :=
  set_dns_record (Some (mkDnsRecord "eth0" ["1.1.1.1"] ["127.0.0.1"] 1 None DApplied)) sim_dns_started.

Lemma dns_baseline_kept_witness :
  ∃ r, mg_dns_record (dns_converge sim_self sim_owned).2 = Some r ∧ dr_previous r = ["1.1.1.1"].
Proof.
  destruct (run_some (mg_dns_record (dns_converge sim_self sim_owned).2)) as [r E]; [vm_compute; reflexivity|].
  exists r. split; [exact E|].
  apply (dns_baseline_kept sim_self sim_owned (mkDnsRecord "eth0" ["1.1.1.1"] ["127.0.0.1"] 1 None DApplied) r).
  - reflexivity.
  - discriminate.
  - exact E.
Defined.

Lemma dns_override_is_recorded_witness :
  dns_wanted sim_dns_started = Some (mkIntent ["127.0.0.1"], 1%Z)
  ∧ ((∃ record e, publish_dns_record sim_self record (mg_world sim_dns_started)
        = (Err e, mg_world (dns_converge sim_self sim_dns_started).2)
        ∧ mg_dns_record (dns_converge sim_self sim_dns_started).2 = mg_dns_record sim_dns_started)
     ∨ is_Some (mg_dns_record (dns_converge sim_self sim_dns_started).2)).
Proof.
  assert (dns_wanted sim_dns_started = Some (mkIntent ["127.0.0.1"], 1%Z)) as H by (vm_compute; reflexivity).
  split; [exact H|]. apply (dns_override_is_recorded sim_self sim_dns_started (mkIntent ["127.0.0.1"]) 1).
  - reflexivity.
  - exact H.
Defined.
