(* ===== verification/Log.v ===== *)
(** Normalization of core console output (log.rs, with the frame types of
    nyanpasu-core-metadata/src/log.rs): ANSI stripping, the header parsers of
    the four core kinds, multi-line records, the caps on every frame, and the
    summaries.

    The clock arithmetic of [chrono] is a parameter.  A slice at a position
    that is no character boundary panics in the source; a function in which
    that is possible returns a [run]. *)
From S2P Require Import Prelude Text Metadata Types Health Capability.
From Stdlib Require String Ascii.
From Stdlib Require Import ZArith Lia.

(** * Frames *)

Inductive LogLevel := LTrace | LDebug | LInfo | LWarning | LError | LFatal.
Inductive LogStream := Stdout | Stderr.

#[export] Instance LogLevel_eq_dec : EqDecision LogLevel.
Proof. solve_decision. Defined.
#[export] Instance LogStream_eq_dec : EqDecision LogStream.
Proof. solve_decision. Defined.

(** The derived order. *)
Definition level_rank (l : LogLevel) : nat :=
  match l with LTrace => 0 | LDebug => 1 | LInfo => 2 | LWarning => 3 | LError => 4 | LFatal => 5 end.

Record LogTimestamp := mkTimestamp { ts_raw : string; ts_unix_ms : option Z; ts_inferred : bool }.
Record LogField := mkField { lf_key : string; lf_value : string }.

Record LogFrame := mkFrame {
  fr_at : Z;
  fr_epoch : Z;
  fr_kind : ClashCoreKind;
  fr_stream : LogStream;
  fr_level : LogLevel;
  fr_timestamp : option LogTimestamp;
  fr_target : option string;
  fr_message : string;
  fr_fields : list LogField;
  fr_raw : string;
  fr_truncated : bool;
}.

Definition LOG_CHANNEL_CAPACITY : nat := 256.
Definition MAX_CONTINUATION_LINES : nat := 16.
Definition MAX_LOG_TEXT_BYTES : nat := 16 * 1024.
Definition MAX_LOG_TARGET_BYTES : nat := 2048.
Definition MAX_LOG_TIMESTAMP_RAW_BYTES : nat := 256.
Definition MAX_LOG_FIELDS : nat := 64.
Definition MAX_LOG_FIELD_TEXT_BYTES : nat := 1024.

(** * Bounding *)

(** [char_boundary_at_or_below]. *)
Definition char_boundary_at_or_below (text : string) (max_bytes : nat) : nat :=
  boundary_before text max_bytes.

(** [truncate_text]: the text, and whether it was cut. *)
Definition truncate_text (text : string) (max_bytes : nat) : string * bool :=
  if (String.length text <=? max_bytes)%nat then (text, false)
  else (String.substring 0 (char_boundary_at_or_below text max_bytes) text, true).

(** [append_bounded]: the text, and whether something was left behind. *)
Definition append_bounded (text line : string) (max_bytes : nat) : string * bool :=
  if (max_bytes <=? String.length text)%nat then (text, true)
  else if String.eqb line "" then (text +:+ nl, false)
  else
    let budget := (max_bytes - String.length text - 1)%nat in
    let stop := char_boundary_at_or_below line (budget `min` String.length line) in
    if (stop =? 0)%nat then (text, true)
    else (text +:+ nl +:+ String.substring 0 stop line, (stop <? String.length line)%nat).

Definition bound_field (f : LogField) : LogField * bool :=
  let '(key, cut1) := truncate_text (lf_key f) MAX_LOG_FIELD_TEXT_BYTES in
  let '(value, cut2) := truncate_text (lf_value f) MAX_LOG_FIELD_TEXT_BYTES in
  (mkField key value, cut1 || cut2).

(** [bound_frame]. *)
Definition bound_frame (f : LogFrame) : LogFrame :=
  let '(message, cut1) := truncate_text (fr_message f) MAX_LOG_TEXT_BYTES in
  let '(raw, cut2) := truncate_text (fr_raw f) MAX_LOG_TEXT_BYTES in
  let '(target, cut3) :=
    match fr_target f with
    | Some t => let '(t, c) := truncate_text t MAX_LOG_TARGET_BYTES in (Some t, c)
    | None => (None, false)
    end in
  let '(timestamp, cut4) :=
    match fr_timestamp f with
    | Some t => let '(r, c) := truncate_text (ts_raw t) MAX_LOG_TIMESTAMP_RAW_BYTES in
                (Some (mkTimestamp r (ts_unix_ms t) (ts_inferred t)), c)
    | None => (None, false)
    end in
  let cut5 := (MAX_LOG_FIELDS <? length (fr_fields f))%nat in
  let fields := bound_field <$> take MAX_LOG_FIELDS (fr_fields f) in
  let cut6 := existsb snd fields in
  mkFrame (fr_at f) (fr_epoch f) (fr_kind f) (fr_stream f) (fr_level f) timestamp target message
    fields.*1 raw (fr_truncated f || (cut1 || cut2 || cut3 || cut4 || cut5 || cut6)).

Record Pending := mkPending { pe_frame : LogFrame; pe_continuations : nat }.

Definition set_texts (raw message : string) (truncated : bool) (f : LogFrame) : LogFrame :=
  mkFrame (fr_at f) (fr_epoch f) (fr_kind f) (fr_stream f) (fr_level f) (fr_timestamp f) (fr_target f)
    message (fr_fields f) raw truncated.

(** [Pending::append]. *)
Definition pending_append (p : Pending) (line : string) : Pending :=
  let f := pe_frame p in
  if (pe_continuations p =? MAX_CONTINUATION_LINES)%nat
  then mkPending (set_texts (fr_raw f) (fr_message f) true f) (pe_continuations p)
  else
    let '(raw, cut1) := append_bounded (fr_raw f) line MAX_LOG_TEXT_BYTES in
    let '(message, cut2) := append_bounded (fr_message f) line MAX_LOG_TEXT_BYTES in
    if cut1 || cut2
    then mkPending (set_texts raw message true f) MAX_CONTINUATION_LINES
    else mkPending (set_texts raw message (fr_truncated f) f) (S (pe_continuations p)).

(** * Text *)

Definition byte (c : Ascii.ascii) : Z := Z.of_nat (Ascii.nat_of_ascii c).
Definition esc : Ascii.ascii := Ascii.ascii_of_nat 27.
Definition lbracket : Ascii.ascii := Ascii.ascii_of_nat 91.

Fixpoint has_byte (c : Ascii.ascii) (s : string) : bool :=
  match s with
  | EmptyString => false
  | String d s' => Ascii.eqb c d || has_byte c s'
  end.

(** The final byte of a CSI sequence. *)
Definition csi_final (c : Ascii.ascii) : bool := (64 <=? byte c)%Z && (byte c <=? 126)%Z.

(** The loop of [strip_ansi]; [csi] says that it is inside a sequence. *)
Fixpoint strip_loop (csi : bool) (s : string) : string :=
  match s with
  | EmptyString => EmptyString
  | String c s' =>
      if csi then (if csi_final c then strip_loop false s' else strip_loop true s')
      else if negb (Ascii.eqb c esc) then String c (strip_loop false s')
      else match s' with
           | String d s'' => if Ascii.eqb d lbracket then strip_loop true s'' else strip_loop false s'
           | EmptyString => EmptyString
           end
  end.

(** [strip_ansi]; that the bytes left are UTF-8 is [strip_ansi_clean]. *)
Definition strip_ansi (line : string) : string :=
  if negb (has_byte esc line) then line else strip_loop false line.

(** [parse_level]. *)
Definition parse_level (level : string) : option LogLevel :=
  let among l := existsb (String.eqb level) l in
  if among ["trace"; "TRC"; "TRACE"] then Some LTrace
  else if among ["debug"; "DBG"; "DEBUG"] then Some LDebug
  else if among ["info"; "INF"; "INFO"] then Some LInfo
  else if among ["warn"; "warning"; "WRN"; "WARN"] then Some LWarning
  else if among ["error"; "ERR"; "ERROR"] then Some LError
  else if among ["fatal"; "panic"; "FTL"; "PNC"] then Some LFatal
  else if among ["???"] then Some LInfo
  else None.

(** Well-formed UTF-8, by the table of RFC 3629. *)
Definition cont (c : Ascii.ascii) : bool := is_continuation c.
Definition byte_in (lo hi : Z) (c : Ascii.ascii) : bool := (lo <=? byte c)%Z && (byte c <=? hi)%Z.
Definition utf8_2 (a b : Ascii.ascii) : bool := byte_in 194 223 a && cont b.
Definition utf8_3 (a b c : Ascii.ascii) : bool :=
  (byte_in 224 224 a && byte_in 160 191 b || byte_in 225 236 a && cont b
   || byte_in 237 237 a && byte_in 128 159 b || byte_in 238 239 a && cont b) && cont c.
Definition utf8_4 (a b c d : Ascii.ascii) : bool :=
  (byte_in 240 240 a && byte_in 144 191 b || byte_in 241 243 a && cont b
   || byte_in 244 244 a && byte_in 128 143 b) && cont c && cont d.

(** [String::from_utf8] succeeds. *)
Fixpoint utf8_ok (s : string) : bool :=
  match s with
  | EmptyString => true
  | String a s1 =>
      if (byte a <? 128)%Z then utf8_ok s1
      else match s1 with
           | EmptyString => false
           | String b s2 =>
               if utf8_2 a b then utf8_ok s2
               else match s2 with
                    | EmptyString => false
                    | String c s3 =>
                        if utf8_3 a b c then utf8_ok s3
                        else match s3 with
                             | EmptyString => false
                             | String d s4 => utf8_4 a b c d && utf8_ok s4
                             end
                    end
           end
  end.

(** [str::get(lo..hi)]. *)
Definition str_get (lo hi : nat) (s : string) : option string :=
  if (lo <=? hi)%nat && (hi <=? String.length s)%nat && is_char_boundary s lo && is_char_boundary s hi
  then Some (String.substring lo (hi - lo) s) else None.
Definition str_get_from (lo : nat) (s : string) : option string := str_get lo (String.length s) s.

(** [str::find(char::is_whitespace)], as the two parts. *)
Fixpoint split_at_ws (s : string) : option (string * string) :=
  match ws_len s with
  | O => match s with
         | EmptyString => None
         | String c s' => (λ '(a, b), (String c a, b)) <$> split_at_ws s'
         end
  | S _ => Some (EmptyString, s)
  end.

(** [take_token]. *)
Definition take_token (input : string) : option (string * string) :=
  (λ '(token, rest), (token, str_trim_start (String.length rest) rest))
    <$> split_at_ws (str_trim_start (String.length input) input).

(** * Time *)

(** What the source uses of [chrono]; differences are in nanoseconds. *)
Class Chrono := {
  NaiveDate : Type;
  NaiveTime : Type;
  FixedOffset : Type;
  from_ymd_opt : Z → Z → Z → option NaiveDate;
  from_hms_nano_opt : Z → Z → Z → Z → option NaiveTime;
  (** [NaiveTime::parse_from_str(_, "%H:%M:%S")]. *)
  parse_hms : string → option NaiveTime;
  time_since : NaiveTime → NaiveTime → Z;
  succ_opt : NaiveDate → option NaiveDate;
  pred_opt : NaiveDate → option NaiveDate;
  (** [offset.from_local_datetime(..).single()], in milliseconds. *)
  local_unix_ms : NaiveDate → NaiveTime → FixedOffset → option Z;
  parse_rfc3339_ms : string → option Z;
}.

(** A [DateTime<FixedOffset>]. *)
Record Observed `{Chrono} := mkObserved {
  ob_ms : Z; ob_date : NaiveDate; ob_time : NaiveTime; ob_offset : FixedOffset;
}.

(** A computation that may panic. *)
Inductive run (A : Type) := Val (a : A) | Panic.
Arguments Val {A} a.
Arguments Panic {A}.

Definition run_bind {A B} (m : run A) (k : A → run B) : run B :=
  match m with Val a => k a | Panic => Panic end.

Record ParsedLine := mkParsed {
  pl_timestamp : option LogTimestamp;
  pl_level : LogLevel;
  pl_target : option string;
  pl_message : string;
  pl_fields : list LogField;
}.

(** * logfmt *)

(** [u8::is_ascii_whitespace]. *)
Definition ascii_ws (c : Ascii.ascii) : bool := existsb (Z.eqb (byte c)) [32; 9; 10; 12; 13]%Z.
Definition dquote : Ascii.ascii := Ascii.ascii_of_nat 34.
Definition backslash : Ascii.ascii := Ascii.ascii_of_nat 92.
Definition equals : Ascii.ascii := Ascii.ascii_of_nat 61.

Fixpoint skip_ws (s : string) : string :=
  match s with
  | EmptyString => EmptyString
  | String c s' => if ascii_ws c then skip_ws s' else s
  end.

(** A key and what follows its [=].  The slices of the source begin after an
    ASCII byte and end before one, so its [line.get(..)?] always succeeds. *)
Fixpoint logfmt_key (s : string) : option (string * string) :=
  match s with
  | EmptyString => None
  | String c s' =>
      if Ascii.eqb c equals then Some (EmptyString, s')
      else if ascii_ws c then None
      else (λ '(k, r), (String c k, r)) <$> logfmt_key s'
  end.

(** What the escape of a byte stands for. *)
Definition unescape (e : Ascii.ascii) (rest : string) : string :=
  if (byte e =? 34)%Z || (byte e =? 92)%Z then String e rest
  else if (byte e =? 110)%Z then String (Ascii.ascii_of_nat 10) rest
  else if (byte e =? 114)%Z then String (Ascii.ascii_of_nat 13) rest
  else if (byte e =? 116)%Z then String (Ascii.ascii_of_nat 9) rest
  else String backslash (String e rest).

(** The bytes of a quoted value, and what follows the closing quote. *)
Fixpoint logfmt_quoted (s : string) : option (string * string) :=
  match s with
  | EmptyString => None
  | String c s' =>
      if Ascii.eqb c dquote then
        match s' with
        | String d _ => if ascii_ws d then Some (EmptyString, s') else None
        | EmptyString => Some (EmptyString, s')
        end
      else if Ascii.eqb c backslash then
        match s' with
        | EmptyString => None
        | String e s'' => (λ '(v, r), (unescape e v, r)) <$> logfmt_quoted s''
        end
      else (λ '(v, r), (String c v, r)) <$> logfmt_quoted s'
  end.

Fixpoint logfmt_bare (s : string) : string * string :=
  match s with
  | EmptyString => (EmptyString, EmptyString)
  | String c s' =>
      if ascii_ws c then (EmptyString, s)
      else let '(v, r) := logfmt_bare s' in (String c v, r)
  end.

Definition logfmt_value (s : string) : option (string * string) :=
  match s with
  | String c s' =>
      if Ascii.eqb c dquote then
        match logfmt_quoted s' with
        | Some (v, r) => if utf8_ok v then Some (v, r) else None
        | None => None
        end
      else Some (logfmt_bare s)
  | EmptyString => Some (EmptyString, EmptyString)
  end.

(** The loop of [scan_logfmt]; every round reads at least one byte. *)
Fixpoint scan_loop (fuel : nat) (s : string) : option (list (string * string)) :=
  match fuel with
  | O => Some []
  | S fuel' =>
      match skip_ws s with
      | EmptyString => Some []
      | s1 =>
          match logfmt_key s1 with
          | None => None
          | Some (key, s2) =>
              if String.eqb key "" then None
              else match logfmt_value s2 with
                   | None => None
                   | Some (value, s3) => cons (key, value) <$> scan_loop fuel' s3
                   end
          end
      end
  end.

(** [scan_logfmt]. *)
Definition scan_logfmt (line : string) : option (list (string * string)) :=
  scan_loop (S (String.length line)) line.

(** * The header parsers *)

Section Parser.
Context `{Chrono}.

(** The body of the loop in [parse_mihomo]: time, level, message, fields. *)
Definition mihomo_field (acc : option string * option LogLevel * option string * list LogField)
    (kv : string * string) : option string * option LogLevel * option string * list LogField :=
  let '(time, level, message, fields) := acc in
  let '(key, value) := kv in
  if String.eqb key "time" then (Some value, level, message, fields)
  else if String.eqb key "level" then (time, parse_level value, message, fields)
  else if String.eqb key "msg" then (time, level, Some value, fields)
  else (time, level, message, fields ++ [mkField key value]).

(** [parse_mihomo]. *)
Definition parse_mihomo (line : string) : option ParsedLine :=
  pairs ← scan_logfmt line;
  let '(time, level, message, fields) := foldl mihomo_field (None, None, None, []) pairs in
  raw_time ← time;
  level ← level;
  message ← message;
  Some (mkParsed (Some (mkTimestamp raw_time (parse_rfc3339_ms raw_time) false))
          level None message fields).

(** [parse_meow]. *)
Definition parse_meow (line : string) : option ParsedLine :=
  '(raw_time, rest) ← take_token line;
  '(level, rest) ← take_token rest;
  level ← parse_level level;
  '(target, message) ← split_once ": " rest;
  if String.eqb target "" then None
  else Some (mkParsed (Some (mkTimestamp raw_time (parse_rfc3339_ms raw_time) false))
               level (Some target) message []).

Definition byte_at (i : nat) (s : string) : Z :=
  match String.get i s with Some c => byte c | None => (-1)%Z end.
Definition digit_at (i : nat) (s : string) : bool :=
  (48 <=? byte_at i s)%Z && (byte_at i s <=? 57)%Z.

Fixpoint leading_digits (s : string) : nat :=
  match s with
  | EmptyString => 0
  | String c s' => if is_dec_digit c then S (leading_digits s') else 0
  end.

(** [clash_rs_timestamp_end]. *)
Definition clash_rs_timestamp_end (line : string) : option nat :=
  if negb (forallb (λ '(i, b), (byte_at i line =? b)%Z)
             [(2%nat, 45%Z); (5%nat, 45%Z); (8%nat, 32%Z); (11%nat, 58%Z); (14%nat, 58%Z); (17%nat, 58%Z)])
     || negb (forallb (λ i, digit_at i line) [0; 1; 3; 4; 6; 7; 9; 10; 12; 13; 15; 16]%nat)
  then None
  else
    let digits := leading_digits (String.substring 18 (String.length line - 18) line) in
    if (1 <=? digits)%nat && (digits <=? 9)%nat && (byte_at (18 + digits) line =? 32)%Z
    then Some (18 + digits)%nat else None.

(** [str::parse::<u32>]. *)
Definition parse_u32 (s : string) : option Z := from_str_radix 10 (2 ^ 32 - 1) s.

(** [clash_rs_unix_ms]; the caller passes at most nine subsecond digits, so
    the source's [u32] product and power stay in range. *)
Definition clash_rs_unix_ms (raw : string) (offset : FixedOffset) : option Z :=
  let number lo hi := s ← str_get lo hi raw; parse_u32 s in
  subsecond ← str_get_from 18 raw;
  n ← parse_u32 subsecond;
  let nanos := (n * 10 ^ (9 - Z.of_nat (String.length subsecond)))%Z in
  yy ← number 0 2; mo ← number 3 5; dd ← number 6 8;
  date ← from_ymd_opt (2000 + yy) mo dd;
  hh ← number 9 11; mi ← number 12 14; ss ← number 15 17;
  time ← from_hms_nano_opt hh mi ss nanos;
  local_unix_ms date time offset.

(** [match_indices(": ")], from position [i] on. *)
Fixpoint anchors (i : nat) (s : string) : list nat :=
  match s with
  | EmptyString => []
  | String _ s' => (if starts_with ": " s then [i] else []) ++ anchors (S i) s'
  end.

(** [rfind(char::is_whitespace)], from position [i] on. *)
Fixpoint rfind_ws (i : nat) (s : string) : option nat :=
  match s with
  | EmptyString => None
  | String _ s' =>
      match rfind_ws (S i) s' with
      | Some j => Some j
      | None => if (0 <? ws_len s)%nat then Some i else None
      end
  end.

Definition colon : Ascii.ascii := Ascii.ascii_of_nat 58.

(** One round of the loop in [clash_rs_source]: [Val None] is [continue]. *)
Definition clash_rs_anchor (rest : string) (separator : nat) : run (option (string * string)) :=
  let head := String.substring 0 separator rest in
  match rsplit_once colon head with
  | None => Val None
  | Some (before, number) =>
      if String.eqb number "" || negb (string_forallb is_dec_digit number) then Val None
      else
        let start := match rfind_ws 0 before with Some i => S i | None => 0%nat end in
        if (start =? String.length before)%nat then Val None
        else if negb (is_char_boundary head start) then Panic
        else Val (Some (String.substring start (String.length head - start) head,
                        String.substring (separator + 2) (String.length rest - (separator + 2)) rest))
  end.

Fixpoint clash_rs_scan (rest : string) (separators : list nat) : run (option (string * string)) :=
  match separators with
  | [] => Val None
  | i :: more =>
      run_bind (clash_rs_anchor rest i) (λ o,
        match o with Some r => Val (Some r) | None => clash_rs_scan rest more end)
  end.

(** [clash_rs_source]. *)
Definition clash_rs_source (rest : string) : run (option (string * string)) :=
  clash_rs_scan rest (anchors 0 rest).

(** [parse_clash_rs]. *)
Definition parse_clash_rs (line : string) (observed_at : Observed) : run (option ParsedLine) :=
  match clash_rs_timestamp_end line ≫= (λ stop,
          raw_time ← str_get 0 stop line;
          tail ← str_get_from stop line;
          '(level, rest) ← take_token tail;
          level ← parse_level level;
          Some (raw_time, level, rest)) with
  | None => Val None
  | Some (raw_time, level, rest) =>
      run_bind (clash_rs_source rest) (λ source,
        Val ('(target, message) ← source;
             Some (mkParsed
               (Some (mkTimestamp raw_time (clash_rs_unix_ms raw_time (ob_offset observed_at)) true))
               level (Some target) message [])))
  end.

(** [premium_target]. *)
Definition premium_target (body : string) : option string * string :=
  match (strip_prefix "[" body ≫= split_once "] ") with
  | Some (tag, message) =>
      if negb (String.eqb tag "") && negb (contains " " tag) then (Some tag, message) else (None, body)
  | None => (None, body)
  end.

(** [Duration::hours(12)]. *)
Definition half_day : Z := 12 * 3600 * 1000000000.

(** [premium_unix_ms], with the clock it leaves. *)
Definition premium_unix_ms (time : NaiveTime) (observed_at : Observed)
    (clock : option (NaiveDate * NaiveTime)) : option Z * option (NaiveDate * NaiveTime) :=
  let date :=
    match clock with
    | Some (date, previous) =>
        if (half_day <? time_since previous time)%Z then succ_opt date else Some date
    | None =>
        if (half_day <? time_since time (ob_time observed_at))%Z
        then pred_opt (ob_date observed_at) else Some (ob_date observed_at)
    end in
  match date with
  | Some date => (local_unix_ms date time (ob_offset observed_at), Some (date, time))
  | None => (None, clock)
  end.

(** [parse_premium], with the clock it leaves. *)
Definition parse_premium (line : string) (observed_at : Observed)
    (clock : option (NaiveDate * NaiveTime)) : option ParsedLine * option (NaiveDate * NaiveTime) :=
  if negb (byte_at 8 line =? 32)%Z || negb (byte_at 12 line =? 32)%Z then (None, clock)
  else
    match (raw_time ← str_get 0 8 line;
           time ← parse_hms raw_time;
           name ← str_get 9 12 line;
           level ← parse_level name;
           body ← str_get_from 13 line;
           Some (raw_time, time, level, body)) with
    | None => (None, clock)
    | Some (raw_time, time, level, body) =>
        let '(target, message) := premium_target body in
        let '(unix_ms, clock) := premium_unix_ms time observed_at clock in
        (Some (mkParsed (Some (mkTimestamp raw_time unix_ms true)) level target message []), clock)
    end.

(** * The parser *)

Record LogParser := mkParser {
  lp_kind : ClashCoreKind;
  lp_epoch : Z;
  lp_premium_clock : option (NaiveDate * NaiveTime);
  lp_stdout : option Pending;
  lp_stderr : option Pending;
  lp_newest_pending : option LogStream;
}.

(** [LogParser::new]. *)
Definition parser_new (kind : ClashCoreKind) (epoch : Z) : LogParser :=
  mkParser kind epoch None None None None.

(** [pending[stream_index(stream)]]. *)
Definition pending_of (p : LogParser) (s : LogStream) : option Pending :=
  match s with Stdout => lp_stdout p | Stderr => lp_stderr p end.
Definition set_pending (s : LogStream) (x : option Pending) (p : LogParser) : LogParser :=
  match s with
  | Stdout => mkParser (lp_kind p) (lp_epoch p) (lp_premium_clock p) x (lp_stderr p) (lp_newest_pending p)
  | Stderr => mkParser (lp_kind p) (lp_epoch p) (lp_premium_clock p) (lp_stdout p) x (lp_newest_pending p)
  end.
Definition set_newest (x : option LogStream) (p : LogParser) : LogParser :=
  mkParser (lp_kind p) (lp_epoch p) (lp_premium_clock p) (lp_stdout p) (lp_stderr p) x.
Definition set_clock (x : option (NaiveDate * NaiveTime)) (p : LogParser) : LogParser :=
  mkParser (lp_kind p) (lp_epoch p) x (lp_stdout p) (lp_stderr p) (lp_newest_pending p).

(** [ParsedFrames]: the frames of the array that are there, in order. *)
Definition frames2 (a b : option LogFrame) : list LogFrame := option_list a ++ option_list b.

(** [LogParser::parse_header]. *)
Definition parse_header (p : LogParser) (line : string) (observed_at : Observed) :
    run (option ParsedLine * LogParser) :=
  match lp_kind p with
  | Mihomo => Val (parse_mihomo line, p)
  | Meow => Val (parse_meow line, p)
  | ClashRust => run_bind (parse_clash_rs line observed_at) (λ o, Val (o, p))
  | ClashPremium =>
      let '(o, clock) := parse_premium line observed_at (lp_premium_clock p) in
      Val (o, set_clock clock p)
  end.

(** [LogParser::emit]. *)
Definition emit (p : LogParser) (stream : LogStream) (frame : LogFrame) (hold : bool) :
    list LogFrame * LogParser :=
  let flushed := pe_frame <$> pending_of p stream in
  if hold
  then (frames2 flushed None,
        set_pending stream (Some (mkPending frame 0)) (set_newest (Some stream) p))
  else (frames2 flushed (Some frame), set_pending stream None p).

(** [LogParser::push_at]. *)
Definition push_at (p : LogParser) (stream : LogStream) (line : string) (observed_at : Observed) :
    run (list LogFrame * LogParser) :=
  let line := strip_ansi line in
  run_bind (parse_header p line observed_at) (λ '(header, p),
  Val match header with
  | Some parsed =>
      let hold := (level_rank LError <=? level_rank (pl_level parsed))%nat in
      let frame := mkFrame (ob_ms observed_at) (lp_epoch p) (lp_kind p) stream (pl_level parsed)
                     (pl_timestamp parsed) (pl_target parsed) (pl_message parsed) (pl_fields parsed)
                     line false in
      emit p stream (bound_frame frame) hold
  | None =>
      let error_root := starts_with "Error:" line in
      let warning_root := starts_with "warning:" line in
      match (if error_root || warning_root then None else pending_of p stream) with
      | Some pending => ([], set_pending stream (Some (pending_append pending line)) p)
      | None =>
          let level := if error_root then LError else if warning_root then LWarning
                       else match stream with Stdout => LInfo | Stderr => LWarning end in
          let frame := mkFrame (ob_ms observed_at) (lp_epoch p) (lp_kind p) stream level
                         None None line [] line false in
          emit p stream (bound_frame frame) (error_root && bool_decide (stream = Stderr))
      end
  end).

(** [LogParser::finish]. *)
Definition finish (p : LogParser) : list LogFrame * LogParser :=
  let stdout := pe_frame <$> lp_stdout p in
  let stderr := pe_frame <$> lp_stderr p in
  (match lp_newest_pending p with
   | Some Stdout => frames2 stderr stdout
   | _ => frames2 stdout stderr
   end, set_newest None (set_pending Stdout None (set_pending Stderr None p))).

(** A sequence of [push] calls. *)
Fixpoint feed (p : LogParser) (input : list (LogStream * string * Observed)) :
    run (list LogFrame * LogParser) :=
  match input with
  | [] => Val ([], p)
  | (stream, line, at_) :: more =>
      run_bind (push_at p stream line at_) (λ '(frames, p),
      run_bind (feed p more) (λ '(rest, p), Val (frames ++ rest, p)))
  end.

(** * Summaries *)

(** [error_summary]. *)
Definition error_summary (frames : list LogFrame) : option string :=
  let severe := filter (λ f, level_rank LWarning ≤ level_rank (fr_level f))%nat frames in
  match severe with
  | [] => None
  | _ =>
      let top := foldr Nat.max 0%nat ((λ f, level_rank (fr_level f)) <$> severe) in
      fr_message <$> List.find (λ f, (level_rank (fr_level f) =? top)%nat) (reverse frames)
  end.

(** [format_tail]. *)
Definition format_tail (frames : list LogFrame) : string := join nl (fr_raw <$> frames).

Record CapturedOutput := mkCaptured { co_stdout : string; co_stderr : string }.

(** [str::lines], with the trailing carriage return of each line dropped. *)
Definition drop_cr (line : string) : string :=
  match strip_suffix (String (Ascii.ascii_of_nat 13) EmptyString) line with
  | Some l => l | None => line end.
Fixpoint lines_fuel (fuel : nat) (s : string) : list string :=
  match fuel with
  | O => []
  | S fuel' =>
      if String.eqb s "" then []
      else match split_once nl s with
           | Some (line, rest) => drop_cr line :: lines_fuel fuel' rest
           | None => [s]
           end
  end.
Definition str_lines (s : string) : list string := lines_fuel (S (String.length s)) s.

(** [verbatim_output]. *)
Definition verbatim_output (output : CapturedOutput) : string :=
  let text := join nl (filter (λ t, t ≠ "") [str_trim (co_stdout output); str_trim (co_stderr output)]) in
  if String.eqb text "" then "core reported no output" else text.

(** [summarize_output]; [now] is the reading of the clock by the n-th push. *)
Definition summarize_output (kind : ClashCoreKind) (output : CapturedOutput) (now : nat → Observed) :
    run string :=
  let lines := ((λ l, (Stdout, l)) <$> str_lines (co_stdout output))
               ++ ((λ l, (Stderr, l)) <$> str_lines (co_stderr output)) in
  run_bind (feed (parser_new kind 0) (imap (λ i '(s, l), (s, l, now i)) lines)) (λ '(frames, p),
  Val (match error_summary (frames ++ (finish p).1) with
       | Some cause => cause
       | None => verbatim_output output
       end)).
End Parser.
