(* ===== verification/LogProps.v ===== *)
(** What the log parser guarantees: clean UTF-8 text, the caps of every frame,
    a faithful grouping of the lines of each stream, the choice of the cause of
    a failure, and the logfmt round trip. *)
From S2P Require Import Prelude Text Metadata Types Health Capability Log.
From Stdlib Require String Ascii.
From Stdlib Require Import ZArith Lia.

(** * UTF-8 *)

Abbreviation high1 c := ((byte c <? 128)%Z = false).
Abbreviation high := (string_forallb (λ c, negb (byte c <? 128)%Z)).

Lemma byte_in_high lo hi c : (128 ≤ lo)%Z → byte_in lo hi c = true → high1 c.
Proof. unfold byte_in. rewrite andb_true_iff, Z.leb_le, Z.ltb_ge. lia. Qed.

Lemma cont_high c : cont c = true → high1 c.
Proof.
  unfold cont, is_continuation. cbn zeta. fold (byte c).
  rewrite andb_true_iff, Z.leb_le, Z.ltb_ge. lia.
Qed.

Ltac utf8_split :=
  repeat match goal with
  | H : (_ && _)%bool = true |- _ => apply andb_true_iff in H as [? ?]
  | H : (_ || _)%bool = true |- _ => apply orb_true_iff in H as [?|?]
  end.
Ltac highs := split_and?; first [by apply cont_high | eapply byte_in_high; [|done]; lia].

Lemma utf8_2_high a b : utf8_2 a b = true → high1 b.
Proof. unfold utf8_2. intros ?. utf8_split; highs. Qed.
Lemma utf8_3_high a b c : utf8_3 a b c = true → high1 b ∧ high1 c.
Proof. unfold utf8_3. intros ?. utf8_split; split; highs. Qed.
Lemma utf8_4_high a b c d : utf8_4 a b c d = true → high1 b ∧ high1 c ∧ high1 d.
Proof. unfold utf8_4. intros ?. utf8_split; split_and!; highs. Qed.

(** Close the case of one character of several bytes. *)
Ltac rw_all H :=
  match type of H with
  | _ ∧ _ => let H1 := fresh in let H2 := fresh in destruct H as [H1 H2]; rw_all H1; rw_all H2
  | _ => rewrite ?H
  end.
Ltac utf8_char Ea H Hh :=
  pose proof Hh as Hhigh; pose proof H as Hlead; split_and!; try done;
  [cbn [string_forallb]; rewrite Ea; rw_all Hhigh; done
  |intros t; rewrite !app_cons_str, app_nil_l_str; cbn [utf8_ok]; rewrite Ea; rw_all Hlead; done].

(** A valid text is empty, or an ASCII byte or a run of high bytes that makes
    one character, before a valid text. *)
Lemma utf8_ok_cases s :
  utf8_ok s = true →
  s = "" ∨ (∃ a s', s = String a s' ∧ (byte a <? 128)%Z = true ∧ utf8_ok s' = true)
  ∨ (∃ c s', s = c +:+ s' ∧ c ≠ "" ∧ high c = true ∧ utf8_ok s' = true
             ∧ ∀ t, utf8_ok (c +:+ t) = utf8_ok t).
Proof.
  destruct s as [|a s1]; intros Hs; [by left|right]. cbn [utf8_ok] in Hs.
  destruct (byte a <? 128)%Z eqn:Ea; [left; by eauto|right].
  destruct s1 as [|b s2]; [done|]. destruct (utf8_2 a b) eqn:E2.
  { exists (String a (String b "")), s2. utf8_char Ea E2 (utf8_2_high _ _ E2). }
  destruct s2 as [|c s3]; [done|]. destruct (utf8_3 a b c) eqn:E3.
  { exists (String a (String b (String c ""))), s3. utf8_char Ea (conj E2 E3) (utf8_3_high _ _ _ E3). }
  destruct s3 as [|d s4]; [done|]. apply andb_true_iff in Hs as [E4 ?].
  exists (String a (String b (String c (String d "")))), s4.
  utf8_char Ea (conj E2 (conj E3 E4)) (utf8_4_high _ _ _ _ E4).
Qed.

(** Induction on the characters of a text, two at a time where an escape
    starts. *)
Lemma string_length_ind (P : string → Prop) :
  (∀ s, (∀ t, (String.length t < String.length s)%nat → P t) → P s) → ∀ s, P s.
Proof. intros IH s. induction s as [s ?] using (induction_ltof1 _ String.length). by apply IH. Qed.

Lemma strip_loop_high csi c s :
  high c = true →
  strip_loop csi (c +:+ s) = if csi then strip_loop true s else c +:+ strip_loop false s.
Proof.
  induction c as [|a c IH]; intros Hh; [by destruct csi|].
  cbn in Hh. apply andb_true_iff in Hh as [Ha%negb_true_iff Hc]. rewrite app_cons_str.
  assert (Hf : csi_final a = false).
  { unfold csi_final. apply andb_false_iff. right. apply Z.leb_gt. apply Z.ltb_ge in Ha. lia. }
  assert (He : Ascii.eqb a esc = false).
  { apply Ascii.eqb_neq. intros ->. by vm_compute in Ha. }
  destruct csi; cbn [strip_loop].
  - rewrite Hf. by apply IH.
  - rewrite He. cbn. by rewrite IH.
Qed.

Lemma strip_loop_utf8 s : utf8_ok s = true → ∀ csi, utf8_ok (strip_loop csi s) = true.
Proof.
  induction s as [s IH] using string_length_ind. intros Hs csi.
  destruct (utf8_ok_cases _ Hs) as [->|[(a & s' & -> & Ha & Hs')|(c & s' & -> & Hc & Hh & Hs' & Ht)]].
  - done.
  - cbn [strip_loop]. assert (Hrec : ∀ csi, utf8_ok (strip_loop csi s') = true) by (apply IH; cbn; [lia|done]).
    destruct csi; [by destruct (csi_final a)|].
    destruct (negb (Ascii.eqb a esc)); [by cbn; rewrite Ha|].
    destruct s' as [|d s'']; [done|]. destruct (Ascii.eqb d lbracket) eqn:Ed; [|done].
    apply IH; [cbn; lia|]. apply Ascii.eqb_eq in Ed as ->. done.
  - rewrite strip_loop_high by done.
    assert (String.length s' < String.length (c +:+ s'))%nat.
    { rewrite length_app_str. destruct c; cbn; [done|lia]. }
    destruct csi; [by apply IH|]. rewrite Ht. by apply IH.
Qed.

Lemma strip_loop_no_esc s csi : has_byte esc (strip_loop csi s) = false.
Proof.
  revert csi. induction s as [s IH] using string_length_ind. intros csi.
  destruct s as [|a s']; [done|]. cbn [strip_loop].
  assert (Hrec : ∀ csi, has_byte esc (strip_loop csi s') = false) by (apply IH; cbn; lia).
  destruct csi; [by destruct (csi_final a)|].
  destruct (Ascii.eqb a esc) eqn:Ea; cbn [negb].
  - destruct s' as [|d s'']; [done|]. destruct (Ascii.eqb d lbracket); [|done]. apply IH. cbn. lia.
  - cbn. rewrite Hrec, Ascii.eqb_sym, Ea. done.
Qed.

Lemma has_byte_app c a b : has_byte c (a +:+ b) = has_byte c a || has_byte c b.
Proof. induction a as [|d a IH]; [done|]. rewrite app_cons_str. cbn. by rewrite IH, orb_assoc. Qed.

(** stripping the escapes of a valid line leaves valid UTF-8 (the
    conversion back to a string that the code expects to succeed does) and no
    escape byte. *)
Theorem strip_ansi_clean (line : string) (Hutf8 : utf8_ok line = true) :
  utf8_ok (strip_ansi line) = true ∧ has_byte esc (strip_ansi line) = false.
Proof.
  unfold strip_ansi. destruct (has_byte esc line) eqn:E; cbn [negb]; [|done].
  split; [by apply strip_loop_utf8|apply strip_loop_no_esc].
Qed.

Definition e_byte (n : nat) (s : string) : string := String (Ascii.ascii_of_nat n) s.

(** A coloured level beside a two-byte character. *)
Lemma strip_ansi_clean_witness :
  let line := e_byte 27 "[32mINFO" +:+ e_byte 27 "[0m " +:+ e_byte 195 (e_byte 169 "") in
  utf8_ok (strip_ansi line) = true ∧ has_byte esc (strip_ansi line) = false.
Proof. intros line. exact (strip_ansi_clean line (eq_refl true)). Defined.

(** * The caps *)

Definition field_ok (f : LogField) : Prop :=
  (String.length (lf_key f) ≤ MAX_LOG_FIELD_TEXT_BYTES)%nat
  ∧ (String.length (lf_value f) ≤ MAX_LOG_FIELD_TEXT_BYTES)%nat.

Record within_caps (f : LogFrame) : Prop := {
  wc_message : (String.length (fr_message f) ≤ MAX_LOG_TEXT_BYTES)%nat;
  wc_raw : (String.length (fr_raw f) ≤ MAX_LOG_TEXT_BYTES)%nat;
  wc_target : ∀ t, fr_target f = Some t → (String.length t ≤ MAX_LOG_TARGET_BYTES)%nat;
  wc_timestamp : ∀ t, fr_timestamp f = Some t →
    (String.length (ts_raw t) ≤ MAX_LOG_TIMESTAMP_RAW_BYTES)%nat;
  wc_fields : (length (fr_fields f) ≤ MAX_LOG_FIELDS)%nat;
  wc_field : Forall field_ok (fr_fields f);
}.

Lemma truncate_text_spec text n t cut :
  truncate_text text n = (t, cut) →
  (String.length t ≤ n)%nat ∧ (cut = false → t = text).
Proof.
  unfold truncate_text, char_boundary_at_or_below.
  destruct (Nat.leb_spec (String.length text) n); intros [= <- <-]; [done|].
  destruct (boundary_before_spec text n) as (Hb & _).
  destruct (substring_prefix text (boundary_before text n)) as [-> _]; [lia|]. done.
Qed.

Lemma append_bounded_spec text line n t cut :
  append_bounded text line n = (t, cut) → (String.length text ≤ n)%nat →
  (String.length t ≤ n)%nat ∧ (cut = false → t = text +:+ nl +:+ line).
Proof.
  unfold append_bounded, char_boundary_at_or_below. intros Ha Hn.
  destruct (Nat.leb_spec n (String.length text)) as [|Hlt]; [by simplify_eq|].
  destruct (String.eqb_spec line "") as [->|Hne].
  { simplify_eq. rewrite length_app_str. split; [cbn; lia|]. by rewrite app_nil_str_r. }
  destruct (boundary_before_spec line ((n - String.length text - 1) `min` String.length line))
    as (Hstop & _).
  revert Hstop Ha. generalize (boundary_before line ((n - String.length text - 1) `min` String.length line)).
  intros stop Hstop Ha.
  destruct (substring_prefix line stop) as [Hlen Hsplit]; [lia|].
  destruct (stop =? 0)%nat; [by simplify_eq|]. simplify_eq.
  rewrite !length_app_str, Hlen. split; [cbn; lia|].
  intros Hfull%Nat.ltb_ge. replace stop with (String.length line) in * by lia.
  rewrite Nat.sub_diag in Hsplit. f_equal. f_equal. rewrite Hsplit at 3.
  clear. replace (String.substring _ 0 line) with "" by (induction line; cbn; congruence).
  by rewrite app_nil_str_r.
Qed.

Lemma bound_field_ok f : field_ok (bound_field f).1.
Proof.
  unfold bound_field, field_ok. destruct (truncate_text (lf_key f) _) eqn:E1.
  destruct (truncate_text (lf_value f) _) eqn:E2.
  apply truncate_text_spec in E1 as [? _], E2 as [? _]. done.
Qed.

Lemma bound_frame_spec f :
  within_caps (bound_frame f)
  ∧ (fr_truncated (bound_frame f) = false → fr_raw (bound_frame f) = fr_raw f)
  ∧ fr_stream (bound_frame f) = fr_stream f.
Proof.
  unfold bound_frame. destruct (truncate_text (fr_message f) _) as [m c1] eqn:E1.
  destruct (truncate_text (fr_raw f) _) as [r c2] eqn:E2.
  apply truncate_text_spec in E1 as [Hm _], E2 as [Hr Hr'].
  destruct (match fr_target f with Some _ => _ | None => _ end) as [tg c3] eqn:E3.
  destruct (match fr_timestamp f with Some _ => _ | None => _ end) as [ts c4] eqn:E4.
  assert (∀ t, tg = Some t → (String.length t ≤ MAX_LOG_TARGET_BYTES)%nat).
  { destruct (fr_target f) as [x|]; [|by simplify_eq]. destruct (truncate_text x _) eqn:Ex.
    apply truncate_text_spec in Ex as [? _]. intros; by simplify_eq. }
  assert (∀ t, ts = Some t → (String.length (ts_raw t) ≤ MAX_LOG_TIMESTAMP_RAW_BYTES)%nat).
  { destruct (fr_timestamp f) as [x|]; [|by simplify_eq]. destruct (truncate_text (ts_raw x) _) eqn:Ex.
    apply truncate_text_spec in Ex as [? _]. intros; by simplify_eq. }
  split_and!; [|cbn|done].
  - constructor; cbn [fr_message fr_raw fr_target fr_timestamp fr_fields]; try done.
    + rewrite !length_fmap, length_take. lia.
    + rewrite <-list_fmap_compose. apply Forall_fmap, Forall_true. intros x. apply bound_field_ok.
  - intros Hc. apply Hr'. apply orb_false_iff in Hc as [_ Hc].
    repeat (apply orb_false_iff in Hc as [Hc ?]). done.
Qed.

Lemma pending_append_caps p line :
  within_caps (pe_frame p) → within_caps (pe_frame (pending_append p line)).
Proof.
  intros Hp. unfold pending_append. destruct (pe_continuations p =? _)%nat; [by destruct Hp; constructor|].
  destruct (append_bounded (fr_raw (pe_frame p)) line _) as [r c1] eqn:E1.
  destruct (append_bounded (fr_message (pe_frame p)) line _) as [m c2] eqn:E2.
  apply append_bounded_spec in E1 as [? _]; [|by apply Hp].
  apply append_bounded_spec in E2 as [? _]; [|by apply Hp].
  destruct (c1 || c2); destruct Hp; by constructor.
Qed.

(** * The lines of a frame *)

(** [f] carries the lines [g]: all of them when it is not marked truncated,
    and then they are a header and at most sixteen continuations. *)
Definition carries (f : LogFrame) (g : list string) : Prop :=
  g ≠ [] ∧ (fr_truncated f = false →
            fr_raw f = join nl g ∧ (length g ≤ S MAX_CONTINUATION_LINES)%nat).

(** A record that still waits for continuations. *)
Definition collects (p : Pending) (g : list string) : Prop :=
  carries (pe_frame p) g ∧ (pe_continuations p ≤ MAX_CONTINUATION_LINES)%nat
  ∧ (fr_truncated (pe_frame p) = false → length g = S (pe_continuations p)).

Definition holds_lines (o : option Pending) (g : list string) : Prop :=
  match o with Some p => collects p g | None => g = [] end.

Lemma join_snoc sep g x : g ≠ [] → join sep (g ++ [x]) = join sep g +:+ sep +:+ x.
Proof.
  induction g as [|y g IH]; intros Hg; [done|]. destruct g as [|z g]; [done|].
  change (y +:+ sep +:+ join sep ((z :: g) ++ [x]) = (y +:+ sep +:+ join sep (z :: g)) +:+ sep +:+ x).
  rewrite IH by done. by rewrite !app_assoc_str.
Qed.

Lemma pending_append_collects p g line :
  within_caps (pe_frame p) → collects p g → collects (pending_append p line) (g ++ [line]).
Proof.
  intros Hcaps ((Hg & Hraw) & Hcont & Hlen). unfold pending_append, collects, carries.
  assert (g ++ [line] ≠ []) by (by destruct g).
  destruct (Nat.eqb_spec (pe_continuations p) MAX_CONTINUATION_LINES) as [|Hne]; [done|].
  destruct (append_bounded (fr_raw (pe_frame p)) line _) as [r c1] eqn:E1.
  destruct (append_bounded (fr_message (pe_frame p)) line _) as [m c2] eqn:E2.
  apply append_bounded_spec in E1 as [_ Hr]; [|by apply Hcaps].
  destruct c1, c2; cbn; try done. split_and!; [done| |lia|].
  - intros Ht. rewrite (Hr eq_refl), join_snoc, length_app by done. destruct (Hraw Ht) as [<- _].
    rewrite (Hlen Ht). cbn. split; [done|lia].
  - intros Ht. rewrite length_app, (Hlen Ht). cbn. lia.
Qed.

Lemma fresh_collects f line :
  fr_raw f = line → fr_truncated f = false →
  collects (mkPending (bound_frame f) 0) [line] ∧ carries (bound_frame f) [line].
Proof.
  intros Hraw Ht. destruct (bound_frame_spec f) as (_ & Hr & _).
  assert (carries (bound_frame f) [line]).
  { split; [done|]. intros E. rewrite (Hr E), Hraw. cbn. split; [done|lia]. }
  split; [|done]. split_and!; [done|cbn; lia|done].
Qed.

Section Runs.
Context `{Chrono}.

(** The state between two lines: what each stream holds is bounded and was
    read from that stream. *)
Definition parser_ok (p : LogParser) : Prop :=
  ∀ s x, pending_of p s = Some x → within_caps (pe_frame x) ∧ fr_stream (pe_frame x) = s.

Lemma pending_of_set s t x p :
  pending_of (set_pending t x p) s = if decide (s = t) then x else pending_of p s.
Proof. by destruct s, t. Qed.
Lemma pending_of_newest s x p : pending_of (set_newest x p) s = pending_of p s.
Proof. by destruct s. Qed.
Lemma pending_of_clock s x p : pending_of (set_clock x p) s = pending_of p s.
Proof. by destruct s. Qed.

(** The header parsers leave what is pending alone. *)
Lemma parse_header_pending p line at_ o p' :
  parse_header p line at_ = Val (o, p') → ∀ s, pending_of p' s = pending_of p s.
Proof.
  unfold parse_header, run_bind. intros Hp s. repeat case_match; simplify_eq; by destruct s.
Qed.

(** What one call adds: frames within the caps, whose groups of lines continue
    what the stream held. *)
Definition accounts (p : LogParser) (lines : LogStream → list string)
    (frames : list LogFrame) (p' : LogParser) : Prop :=
  parser_ok p → parser_ok p' ∧ Forall within_caps frames
  ∧ ∀ s g, holds_lines (pending_of p s) g →
      ∃ groups g', concat groups ++ g' = g ++ lines s
        ∧ Forall2 carries (filter (λ f, fr_stream f = s) frames) groups
        ∧ holds_lines (pending_of p' s) g'.

Definition only (stream : LogStream) (line : string) : LogStream → list string :=
  λ s, if decide (s = stream) then [line] else [].

Lemma accounts_same p p1 lines frames p' :
  (∀ s, pending_of p1 s = pending_of p s) → accounts p1 lines frames p' → accounts p lines frames p'.
Proof.
  intros Heq Ha Hok. destruct Ha as (H1 & H2 & H3).
  { intros s x. rewrite Heq. apply Hok. }
  split_and!; [done..|]. intros s g. rewrite <-Heq. apply H3.
Qed.

Lemma accounts_trans p1 p2 p3 l1 l2 l12 f1 f2 :
  (∀ s, l12 s = l1 s ++ l2 s) →
  accounts p1 l1 f1 p2 → accounts p2 l2 f2 p3 → accounts p1 l12 (f1 ++ f2) p3.
Proof.
  intros Hl H1 H2 Hok. destruct (H1 Hok) as (Hok2 & Hc1 & Hg1). destruct (H2 Hok2) as (Hok3 & Hc2 & Hg2).
  split_and!; [done|by apply Forall_app_2|]. intros s g Hg.
  destruct (Hg1 s g Hg) as (gs1 & g1 & E1 & F1 & P1). destruct (Hg2 s g1 P1) as (gs2 & g2 & E2 & F2 & P2).
  exists (gs1 ++ gs2), g2. split_and!; [|rewrite filter_app; by apply Forall2_app|done].
  rewrite concat_app, <-app_assoc, E2, app_assoc, E1, Hl. by rewrite app_assoc.
Qed.

Ltac red_opt :=
  unfold option_list, option_rect; cbn [fmap option_fmap option_map app]; rewrite ?filter_nil, ?app_nil_l, ?app_nil_r.

(** The groups of the stream that [emit] flushes. *)
Lemma emit_accounts p stream f line hold :
  fr_raw f = line → fr_truncated f = false → fr_stream f = stream →
  let '(frames, p') := emit p stream (bound_frame f) hold in
  accounts p (only stream line) frames p'.
Proof.
  intros Hraw Ht Hs. destruct (fresh_collects f line Hraw Ht) as [Hcol Hcar].
  destruct (bound_frame_spec f) as (Hcaps & _ & Hs'). rewrite Hs in Hs'.
  destruct (emit p stream (bound_frame f) hold) as [frames p'] eqn:E. intros Hok.
  assert (Hp' : ∀ s, pending_of p' s = if decide (s = stream)
                       then (if hold then Some (mkPending (bound_frame f) 0) else None) else pending_of p s).
  { unfold emit in E. destruct hold; simplify_eq; intros s; rewrite pending_of_set; [|done].
    by rewrite pending_of_newest. }
  assert (Hf : frames = option_list (pe_frame <$> pending_of p stream)
                        ++ (if hold then [] else [bound_frame f])).
  { unfold emit, frames2 in E. by destruct hold; simplify_eq. }
  assert (Hflush : ∀ x, pending_of p stream = Some x → within_caps (pe_frame x) ∧ fr_stream (pe_frame x) = stream)
    by (intros x; apply Hok).
  split_and!.
  - intros s x. rewrite Hp'. case_decide as Hd; [subst s|apply Hok]. destruct hold; [|done].
    intros [= <-]. done.
  - rewrite Hf. apply Forall_app. split; [|destruct hold; [constructor|by constructor]].
    destruct (pending_of p stream) as [x|] eqn:Ex; cbn; [|done]. constructor; [by apply Hflush|done].
  - intros s g Hg. unfold only. rewrite Hp', Hf, filter_app. case_decide as Hd; cycle 1.
    { exists [], g. rewrite app_nil_r. split_and!; [done| |done].
      destruct (pending_of p stream) as [x|] eqn:Ex; red_opt;
        [rewrite filter_cons_False by (destruct (Hflush x eq_refl); congruence)|];
      (destruct hold; red_opt; [constructor|rewrite filter_cons_False by congruence; constructor]). }
    subst s. destruct (pending_of p stream) as [x|] eqn:Ex; red_opt; cbn [holds_lines] in Hg.
    + destruct Hg as [Hgx _]. rewrite filter_cons_True by (by apply Hflush). destruct hold; red_opt.
      * exists [g], [line]. cbn. rewrite app_nil_r. split_and!; [done| |done].
        constructor; [done|constructor].
      * rewrite filter_cons_True by done. exists [g; [line]], []. cbn. rewrite !app_nil_r.
        split_and!; [done| |done]. constructor; [done|constructor; [done|constructor]].
    + subst g. destruct hold; red_opt.
      * by exists [], [line].
      * rewrite filter_cons_True by done. exists [[line]], []. cbn. split_and!; [done| |done].
        constructor; [done|constructor].
Qed.

Ltac by_emit E :=
  match type of E with
  | emit ?p ?s (bound_frame ?f) ?h = _ =>
      let He := fresh in
      pose proof (emit_accounts p s f _ h eq_refl eq_refl eq_refl) as He; rewrite E in He; exact He
  end.

Lemma push_at_accounts p stream line at_ frames p' :
  push_at p stream line at_ = Val (frames, p') →
  accounts p (only stream (strip_ansi line)) frames p'.
Proof.
  unfold push_at. destruct (parse_header p (strip_ansi line) at_) as [[header p1]|] eqn:Eh; cbn; [|done].
  pose proof (parse_header_pending _ _ _ _ _ Eh) as Heq. intros [= E].
  eapply accounts_same; [exact Heq|]. destruct header as [parsed|].
  { by_emit E. }
  destruct (if _ || _ then None else pending_of p1 stream) as [x|] eqn:Ex.
  - simplify_eq. assert (Hx : pending_of p1 stream = Some x) by (by destruct (_ || _)).
    intros Hok. destruct (Hok _ _ Hx) as [Hc Hs]. split_and!; [|done|].
    + intros s y. rewrite pending_of_set. case_decide; [|apply Hok]. intros [= <-]. subst.
      split; [by apply pending_append_caps|]. unfold pending_append. by repeat case_match.
    + intros s g Hg. unfold only. rewrite pending_of_set. case_decide as Hd.
      * subst s. rewrite Hx in Hg. exists [], (g ++ [strip_ansi line]). split_and!; [done|constructor|].
        by apply pending_append_collects.
      * exists [], g. rewrite app_nil_r. split_and!; [done|constructor|done].
  - by_emit E.
Qed.

(** The lines of a stream, as the parser sees them. *)
Definition lines_of (input : list (LogStream * string * Observed)) (s : LogStream) : list string :=
  (λ x, strip_ansi x.1.2) <$> filter (λ x, x.1.1 = s) input.

Lemma feed_accounts input p frames p' :
  feed p input = Val (frames, p') → accounts p (lines_of input) frames p'.
Proof.
  revert p frames p'. induction input as [|[[stream line] at_] more IH]; intros p frames p'; cbn [feed].
  { intros [= <- <-] Hok. split_and!; [done..|]. intros s g Hg. exists [], g.
    rewrite app_nil_r. split_and!; [done|constructor|done]. }
  destruct (push_at p stream line at_) as [[f1 p1]|] eqn:E1; cbn; [|done].
  destruct (feed p1 more) as [[f2 p2]|] eqn:E2; cbn; [|done]. intros [= <- <-].
  eapply accounts_trans; [|by eapply push_at_accounts|by apply IH].
  intros s. unfold lines_of, only. case_decide; subst.
  - by rewrite filter_cons_True.
  - by rewrite filter_cons_False.
Qed.

(** [finish] gives out what is pending, and nothing is left behind. *)
Lemma finish_accounts p :
  accounts p (λ _, []) (finish p).1 (finish p).2 ∧ ∀ s, pending_of (finish p).2 s = None.
Proof.
  assert (Hnone : ∀ s, pending_of (finish p).2 s = None) by (by intros []). split; [|done]. intros Hok.
  assert (Hin : ∀ f, f ∈ (finish p).1 → ∃ s x, pending_of p s = Some x ∧ f = pe_frame x).
  { intros f. unfold finish, frames2. cbn [fst].
    assert (∀ s, f ∈ option_list (pe_frame <$> pending_of p s) → ∃ s x, pending_of p s = Some x ∧ f = pe_frame x).
    { intros s. destruct (pending_of p s) as [x|] eqn:Ex; cbn; [|set_solver].
      intros ->%list_elem_of_singleton. eauto. }
    destruct (lp_newest_pending p) as [[]|]; rewrite elem_of_app; intros [Hf|Hf];
      first [by apply (H0 Stdout)|by apply (H0 Stderr)]. }
  assert (Hfilter : ∀ s, filter (λ f, fr_stream f = s) (finish p).1 = option_list (pe_frame <$> pending_of p s)).
  { assert (Ho : ∀ s t, filter (λ f, fr_stream f = s) (option_list (pe_frame <$> pending_of p t))
                        = if decide (s = t) then option_list (pe_frame <$> pending_of p t) else []).
    { intros s t. destruct (pending_of p t) as [x|] eqn:Ex; red_opt; [|by case_decide].
      destruct (Hok _ _ Ex) as [_ Hs]. case_decide;
        [by rewrite filter_cons_True by congruence|by rewrite filter_cons_False by congruence]. }
    intros s. pose proof (Ho s Stdout) as H1. pose proof (Ho s Stderr) as H2. unfold finish, frames2.
    destruct (lp_newest_pending p) as [[]|], s; cbn [fst pending_of] in *; rewrite filter_app, H1, H2;
      cbn; by rewrite ?app_nil_r. }
  split_and!.
  - intros s x. by rewrite Hnone.
  - apply Forall_forall. intros f (s & x & Hx & ->)%Hin. by apply (Hok s x).
  - intros s g Hg. rewrite Hfilter, Hnone, app_nil_r. destruct (pending_of p s) as [x|]; cbn in Hg |- *.
    + exists [g], []. cbn. rewrite !app_nil_r. split_and!; [done| |done].
      destruct Hg as [? _]. constructor; [done|constructor].
    + subst. by exists [], [].
Qed.

Lemma parser_new_ok kind epoch : parser_ok (parser_new kind epoch).
Proof. by intros []. Qed.

(** A whole session: the lines of both streams, then [finish]. *)
Definition session (kind : ClashCoreKind) (epoch : Z) (input : list (LogStream * string * Observed)) :
    run (list LogFrame) :=
  run_bind (feed (parser_new kind epoch) input) (λ '(frames, p), Val (frames ++ (finish p).1)).

Lemma session_accounts kind epoch input frames :
  session kind epoch input = Val frames →
  ∃ p', accounts (parser_new kind epoch) (lines_of input) frames p' ∧ ∀ s, pending_of p' s = None.
Proof.
  unfold session. destruct (feed _ input) as [[f p]|] eqn:E; cbn; [|done]. intros [= <-].
  destruct (finish_accounts p) as [Hf Hnone]. exists (finish p).2. split; [|done].
  eapply accounts_trans; [|by apply feed_accounts|exact Hf]. intros s. by rewrite app_nil_r.
Qed.

(** whatever a core prints, every frame the parser gives out respects the
    caps on its texts and on its fields. *)
Theorem frames_are_bounded (kind : ClashCoreKind) (epoch : Z)
    (input : list (LogStream * string * Observed)) (frames : list LogFrame)
    (Hrun : session kind epoch input = Val frames) :
  Forall within_caps frames.
Proof.
  destruct (session_accounts _ _ _ _ Hrun) as (p' & Ha & _). apply Ha, parser_new_ok.
Qed.

(** C15: the lines of a stream, in order, fall into one group per frame of that
    stream, in order; a frame that is not marked truncated carries its whole
    group, a first line and at most sixteen continuations.  Nothing of one
    stream reaches a frame of the other, and nothing is lost silently. *)
Theorem no_line_is_lost_silently (kind : ClashCoreKind) (epoch : Z)
    (input : list (LogStream * string * Observed)) (frames : list LogFrame)
    (Hrun : session kind epoch input = Val frames) :
  ∀ s, ∃ groups, concat groups = lines_of input s
       ∧ Forall2 carries (filter (λ f, fr_stream f = s) frames) groups.
Proof.
  intros s. destruct (session_accounts _ _ _ _ Hrun) as (p' & Ha & Hnone).
  destruct (Ha (parser_new_ok _ _)) as (_ & _ & Hg).
  destruct (Hg s []) as (groups & g' & Hcat & Hall & Hlast); [by destruct s|].
  rewrite Hnone in Hlast. cbn in Hlast. subst. rewrite app_nil_r in Hcat. by exists groups.
Qed.

(** * Totality *)

Definition is_ascii (s : string) : bool := string_forallb (λ c, (byte c <? 128)%Z) s.

Lemma substring_forallb f n m s : string_forallb f s = true → string_forallb f (String.substring n m s) = true.
Proof.
  revert n m. induction s as [|c s IH]; intros n m; [by destruct n, m|]. cbn.
  intros [Hc Hs]%andb_true_iff. destruct n, m; cbn; rewrite ?Hc; by try apply IH.
Qed.

Lemma trim_start_forallb f n s : string_forallb f s = true → string_forallb f (str_trim_start n s) = true.
Proof.
  revert s. induction n as [|n IH]; intros s Hs; [done|]. cbn. destruct (ws_len s); [done|].
  by apply IH, substring_forallb.
Qed.

Lemma split_at_ws_forallb f s a b :
  string_forallb f s = true → split_at_ws s = Some (a, b) → string_forallb f b = true.
Proof.
  revert a. induction s as [|c s IH]; intros a Hs; [done|]. cbn [split_at_ws].
  destruct (ws_len (String c s)); [|by intros [= <- <-]].
  destruct (split_at_ws s) as [[a' b']|]; [|done]. cbn. intros [= <- <-].
  apply (IH a'); [|done]. by apply andb_true_iff in Hs as [_ ?].
Qed.

Lemma take_token_forallb f s a b :
  string_forallb f s = true → take_token s = Some (a, b) → string_forallb f b = true.
Proof.
  unfold take_token. intros Hs. destruct (split_at_ws _) as [[t r]|] eqn:E; [|done]. cbn. intros [= <- <-].
  apply trim_start_forallb. eapply split_at_ws_forallb; [|done]. by apply trim_start_forallb.
Qed.

Lemma get_forallb f s i c : string_forallb f s = true → String.get i s = Some c → f c = true.
Proof.
  revert i. induction s as [|d s IH]; intros [|i] Hs; cbn in *; try done;
    apply andb_true_iff in Hs as [? ?]; [by intros [= <-]|by apply IH].
Qed.

Lemma get_lt s i : (i < String.length s)%nat → ∃ c, String.get i s = Some c.
Proof. revert i. induction s as [|d s IH]; intros [|i] Hi; cbn in *; try lia; [eauto|apply IH; lia]. Qed.

(** Every position of an ASCII text is a character boundary. *)
Lemma ascii_boundary s i : is_ascii s = true → (i ≤ String.length s)%nat → is_char_boundary s i = true.
Proof.
  intros Hs Hi. unfold is_char_boundary. destruct (i =? 0)%nat; [done|].
  destruct (Nat.eqb_spec i (String.length s)); [done|].
  destruct (get_lt s i) as [c Hc]; [lia|]. rewrite Hc.
  pose proof (get_forallb _ _ _ _ Hs Hc) as Hb. cbn in Hb. apply negb_true_iff.
  destruct (is_continuation c) eqn:E; [|done]. apply cont_high in E. congruence.
Qed.

Lemma rfind_ws_bound s i j : rfind_ws i s = Some j → (i ≤ j < i + String.length s)%nat.
Proof.
  revert i. induction s as [|c s IH]; intros i; cbn; [done|].
  destruct (rfind_ws (S i) s) as [k|] eqn:E; [intros [= <-]; apply IH in E; lia|].
  case_match; [|done]. intros [= <-]. lia.
Qed.

Lemma rsplit_once_Some c s a b : rsplit_once c s = Some (a, b) → s = a +:+ String c b.
Proof.
  revert a. induction s as [|d s IH]; intros a; cbn; [done|].
  destruct (rsplit_once c s) as [[a' b']|] eqn:E.
  - intros [= <- <-]. rewrite app_cons_str. f_equal. by apply IH.
  - destruct (Ascii.eqb_spec c d) as [->|]; [|done]. by intros [= <- <-].
Qed.

Lemma clash_rs_source_ascii rest : is_ascii rest = true → ∃ o, clash_rs_source rest = Val o.
Proof.
  intros Hs. unfold clash_rs_source. generalize (anchors 0 rest). intros l.
  induction l as [|i l IH]; [by eexists|]. cbn.
  assert (Hone : ∃ o, clash_rs_anchor rest i = Val o).
  { unfold clash_rs_anchor. destruct (rsplit_once colon _) as [[a b]|] eqn:E; [|by eexists].
    destruct (_ || _); [by eexists|]. case_match eqn:Est; [by eexists|].
    rewrite ascii_boundary; [by eexists|by apply substring_forallb|].
    rewrite (rsplit_once_Some _ _ _ _ E), length_app_str.
    destruct (rfind_ws 0 a) as [j|] eqn:Ej; [apply rfind_ws_bound in Ej; lia|lia]. }
  destruct Hone as [o ->]. cbn. destruct o; [by eexists|done].
Qed.

Lemma parse_clash_rs_ascii line at_ : is_ascii line = true → ∃ o, parse_clash_rs line at_ = Val o.
Proof.
  intros Hs. unfold parse_clash_rs. destruct (clash_rs_timestamp_end line ≫= _) as [[[raw l] rest]|] eqn:E; [|by eexists].
  destruct (clash_rs_source_ascii rest) as [o ->]; [|by eexists].
  apply bind_Some in E as (stop & _ & E). apply bind_Some in E as (? & _ & E).
  apply bind_Some in E as (tail & Htail & E). apply bind_Some in E as ([lv r] & Htok & E).
  apply bind_Some in E as (? & _ & E). simplify_eq. eapply take_token_forallb; [|exact Htok].
  unfold str_get_from, str_get in Htail. case_match; [|done]. simplify_eq. by apply substring_forallb.
Qed.

Lemma strip_loop_forallb f s csi : string_forallb f s = true → string_forallb f (strip_loop csi s) = true.
Proof.
  revert csi. induction s as [s IH] using string_length_ind. intros csi Hs.
  destruct s as [|a s']; [done|]. apply andb_true_iff in Hs as [Ha Hs]. cbn [strip_loop].
  assert (Hrec : ∀ csi, string_forallb f (strip_loop csi s') = true) by (intros ?; apply IH; cbn; [lia|done]).
  destruct csi; [by destruct (csi_final a)|]. destruct (negb _); [cbn; by rewrite Ha, Hrec|].
  destruct s' as [|d s'']; [done|]. destruct (Ascii.eqb d lbracket); [|done].
  apply IH; [cbn; lia|]. by apply andb_true_iff in Hs as [_ ?].
Qed.

(** The parser survives every line of a core whose header parser takes no
    unchecked slice, and every ASCII line of the other. *)
Definition tame (kind : ClashCoreKind) (input : list (LogStream * string * Observed)) : Prop :=
  kind ≠ ClashRust ∨ Forall (λ x, is_ascii x.1.2 = true) input.

Lemma lp_kind_set_pending s x p : lp_kind (set_pending s x p) = lp_kind p.
Proof. by destruct s. Qed.

Lemma push_at_total p s line at_ :
  lp_kind p ≠ ClashRust ∨ is_ascii line = true →
  ∃ frames p', push_at p s line at_ = Val (frames, p') ∧ lp_kind p' = lp_kind p.
Proof.
  intros Ht.
  assert (∃ o p1, parse_header p (strip_ansi line) at_ = Val (o, p1) ∧ lp_kind p1 = lp_kind p)
    as (o & p1 & Hh & Hk).
  { unfold parse_header. destruct (lp_kind p) eqn:Ek; [by eauto| | |by eauto].
    - destruct Ht as [|Ha]; [done|]. destruct (parse_clash_rs_ascii (strip_ansi line) at_) as [o ->].
      + unfold strip_ansi. destruct (has_byte esc line); [by apply strip_loop_forallb|done].
      + cbn. eauto.
    - destruct (parse_premium _ _ _). eauto. }
  unfold push_at. rewrite Hh. cbn. rewrite <-Hk.
  match goal with |- ∃ a b, Val ?x = _ ∧ _ => destruct x as [fs p2] eqn:E end.
  exists fs, p2. split; [done|]. unfold emit in E.
  repeat case_match; simplify_eq; by rewrite lp_kind_set_pending.
Qed.

Lemma feed_total (input : list (LogStream * string * Observed)) p :
  tame (lp_kind p) input → ∃ frames p', feed p input = Val (frames, p').
Proof.
  revert p. induction input as [|[[s line] at_] more IH]; intros p Ht; [by do 2 eexists|]. cbn.
  destruct (push_at_total p s line at_) as (f & p' & -> & Hk).
  { destruct Ht as [|Hf]; [by left|right]. by apply Forall_cons in Hf as [? _]. }
  cbn. destruct (IH p') as (f2 & p2 & ->); [|by do 2 eexists].
  rewrite Hk. destruct Ht as [|Hf]; [by left|right]. by apply Forall_cons in Hf as [_ ?].
Qed.

(** The parser returns on every input of a mihomo, meow or premium core,
    and on every ASCII input of a clash-rs core. *)
Theorem session_returns (kind : ClashCoreKind) (epoch : Z)
    (input : list (LogStream * string * Observed)) (Htame : tame kind input) :
  ∃ frames, session kind epoch input = Val frames.
Proof.
  unfold session. change kind with (lp_kind (parser_new kind epoch)) in Htame.
  destruct (feed_total _ _ Htame) as (f & p' & ->). by eexists.
Qed.
End Runs.

(** * The cause of a failure *)

Abbreviation rank f := (level_rank (fr_level f)).

Lemma find_reverse {A} (P : A → bool) l x :
  List.find P (reverse l) = Some x →
  ∃ before after, l = before ++ x :: after ∧ P x = true ∧ Forall (λ y, P y = false) after.
Proof.
  induction l as [|y l IH] using rev_ind; [done|]. rewrite reverse_snoc. cbn.
  destruct (P y) eqn:Ey.
  - intros [= <-]. by exists l, [].
  - intros (before & after & -> & Hx & Ha)%IH. exists before, (after ++ [y]).
    rewrite <-app_assoc. split_and!; [done..|]. apply Forall_app. by repeat constructor.
Qed.

Lemma foldr_max_spec (l : list nat) :
  (∀ n, n ∈ l → n ≤ foldr Nat.max 0 l)%nat ∧ (l ≠ [] → foldr Nat.max 0%nat l ∈ l).
Proof.
  induction l as [|x l [IH1 IH2]]; cbn; [set_solver|]. split.
  - intros n [->|Hn]%elem_of_cons; [lia|]. specialize (IH1 n Hn). lia.
  - intros _. destruct l as [|y l]; [cbn; rewrite Nat.max_0_r; set_solver|].
    destruct (Nat.max_dec x (foldr Nat.max 0%nat (y :: l))) as [->| ->]; [set_solver|].
    apply elem_of_cons. right. by apply IH2.
Qed.

(** the cause reported for a failed run is the message of the latest frame
    of the highest severity, and there is none exactly when nothing reached a
    warning. *)
Theorem error_summary_spec (frames : list LogFrame) :
  match error_summary frames with
  | None => Forall (λ f, rank f < level_rank LWarning)%nat frames
  | Some cause =>
      ∃ before f after, frames = before ++ f :: after ∧ cause = fr_message f
        ∧ (level_rank LWarning ≤ rank f)%nat
        ∧ Forall (λ g, rank g ≤ rank f)%nat frames ∧ Forall (λ g, rank g < rank f)%nat after
  end.
Proof.
  unfold error_summary. destruct (filter _ frames) as [|f0 severe] eqn:Ef.
  { apply Forall_forall. intros f Hf. destruct (Nat.lt_ge_cases (rank f) (level_rank LWarning)); [done|].
    assert (Hin : f ∈ filter (λ f, level_rank LWarning ≤ rank f)%nat frames) by (by apply list_elem_of_filter).
    rewrite Ef in Hin. set_solver. }
  rewrite <-Ef. set (ranks := (λ f, rank f) <$> _). set (top := foldr Nat.max 0%nat ranks).
  destruct (foldr_max_spec ranks) as [Hmax Htop]. fold top in Hmax, Htop.
  assert (top ∈ ranks) as (f1 & Etop & [Hwarn Hin]%list_elem_of_filter)%list_elem_of_fmap.
  { apply Htop. unfold ranks. by rewrite Ef. }
  assert (Hle : ∀ g, g ∈ frames → (rank g ≤ top)%nat).
  { intros g Hg. destruct (Nat.lt_ge_cases (rank g) (level_rank LWarning)); [lia|].
    apply Hmax, list_elem_of_fmap. exists g. split; [done|]. by apply list_elem_of_filter. }
  destruct (List.find _ (reverse frames)) as [f|] eqn:E; cycle 1.
  { exfalso. eapply List.find_none in E; [|apply list_elem_of_In, elem_of_reverse, Hin].
    cbn in E. apply Nat.eqb_neq in E. by rewrite Etop in E. }
  destruct (find_reverse _ _ _ E) as (before & after & -> & Hf%Nat.eqb_eq & Hafter).
  exists before, f, after. rewrite Hf. split_and!; [done..|lia| |].
  - apply Forall_forall. intros g Hg. by apply Hle.
  - rewrite !Forall_forall in *. intros g Hg. specialize (Hafter g Hg). apply Nat.eqb_neq in Hafter.
    assert (rank g ≤ top)%nat by (apply Hle; set_solver). lia.
Qed.

(** * logfmt *)

(** What a logfmt printer writes for a byte of a quoted value. *)
Definition escape_byte (c : Ascii.ascii) : string :=
  let quoted d := String backslash (String d EmptyString) in
  if Ascii.eqb c dquote then quoted dquote
  else if Ascii.eqb c backslash then quoted backslash
  else if (byte c =? 10)%Z then quoted (Ascii.ascii_of_nat 110)
  else if (byte c =? 13)%Z then quoted (Ascii.ascii_of_nat 114)
  else if (byte c =? 9)%Z then quoted (Ascii.ascii_of_nat 116)
  else String c EmptyString.

Fixpoint escape (v : string) : string :=
  match v with EmptyString => EmptyString | String c v' => escape_byte c +:+ escape v' end.

Definition print_pair (kv : string * string) : string :=
  kv.1 +:+ String equals (String dquote (escape kv.2 +:+ String dquote EmptyString)).

Definition logfmt_key_char (c : Ascii.ascii) : bool := negb (ascii_ws c) && negb (Ascii.eqb c equals).

(** A pair logfmt can carry: a bare word as key, any text as value. *)
Definition printable (kv : string * string) : Prop :=
  kv.1 ≠ "" ∧ string_forallb logfmt_key_char kv.1 = true ∧ utf8_ok kv.2 = true.

Lemma logfmt_key_word k r :
  string_forallb logfmt_key_char k = true → logfmt_key (k +:+ String equals r) = Some (k, r).
Proof.
  induction k as [|c k IH]; [done|]. rewrite app_cons_str. cbn [string_forallb logfmt_key].
  intros [[Hw He]%andb_true_iff Hk]%andb_true_iff. apply negb_true_iff in Hw, He.
  by rewrite He, Hw, IH.
Qed.

Definition rest_ok (r : string) : Prop :=
  match r with EmptyString => True | String d _ => ascii_ws d = true end.

Lemma quoted_escape e r v s :
  logfmt_quoted r = Some (v, s) →
  logfmt_quoted (String backslash (String e EmptyString) +:+ r) = Some (unescape e v, s).
Proof.
  intros Hr. rewrite !app_cons_str, app_nil_l_str.
  change (logfmt_quoted (String backslash (String e r)))
    with ((λ '(v, r), (unescape e v, r)) <$> logfmt_quoted r).
  by rewrite Hr.
Qed.

Lemma unescape_escape c v s r :
  logfmt_quoted r = Some (v, s) → logfmt_quoted (escape_byte c +:+ r) = Some (String c v, s).
Proof.
  intros Hr. unfold escape_byte. destruct (Ascii.eqb_spec c dquote) as [->|Hd]; [by apply (quoted_escape dquote)|].
  destruct (Ascii.eqb_spec c backslash) as [->|Hb]; [by apply (quoted_escape backslash)|].
  assert (Hc : ∀ n, (byte c =? Z.of_nat n)%Z = true → (n < 256)%nat → c = Ascii.ascii_of_nat n).
  { intros n E Hn. apply Z.eqb_eq in E. unfold byte in E. apply Nat2Z.inj in E.
    by rewrite <-E, Ascii.ascii_nat_embedding. }
  destruct (byte c =? 10)%Z eqn:E1; [rewrite (Hc 10%nat) by (done || lia); exact (quoted_escape (Ascii.ascii_of_nat 110) _ _ _ Hr)|].
  destruct (byte c =? 13)%Z eqn:E2; [rewrite (Hc 13%nat) by (done || lia); exact (quoted_escape (Ascii.ascii_of_nat 114) _ _ _ Hr)|].
  destruct (byte c =? 9)%Z eqn:E3; [rewrite (Hc 9%nat) by (done || lia); exact (quoted_escape (Ascii.ascii_of_nat 116) _ _ _ Hr)|].
  rewrite app_cons_str, app_nil_l_str. cbn [logfmt_quoted].
  apply Ascii.eqb_neq in Hd, Hb. by rewrite Hd, Hb, Hr.
Qed.

Lemma logfmt_quoted_escape v r :
  rest_ok r → logfmt_quoted (escape v +:+ String dquote r) = Some (v, r).
Proof.
  intros Hr. induction v as [|c v IH]; cbn [escape].
  - rewrite app_nil_l_str. cbn. destruct r as [|d r]; [done|]. cbn in Hr. by rewrite Hr.
  - rewrite app_assoc_str. by apply unescape_escape.
Qed.

Lemma skip_ws_word k r :
  k ≠ "" → string_forallb logfmt_key_char k = true → skip_ws (k +:+ r) = k +:+ r ∧ k +:+ r ≠ "".
Proof.
  destruct k as [|c k]; [done|]. intros _ [[Hw _]%andb_true_iff _]%andb_true_iff.
  rewrite app_cons_str. cbn [skip_ws]. apply negb_true_iff in Hw. by rewrite Hw.
Qed.

Lemma scan_pair fuel kv r :
  printable kv → rest_ok r → scan_loop (S fuel) (print_pair kv +:+ r) = cons kv <$> scan_loop fuel r.
Proof.
  destruct kv as [k v]. intros (Hne & Hk & Hv) Hr. unfold print_pair. cbn [fst snd] in *.
  rewrite app_assoc_str, !app_cons_str, app_assoc_str, app_cons_str, app_nil_l_str.
  destruct (skip_ws_word k (String equals (String dquote (escape v +:+ String dquote r))) Hne Hk) as [Hskip Hnil].
  cbn [scan_loop]. rewrite Hskip. destruct (k +:+ _) as [|a s1] eqn:E; [done|]. rewrite <-E.
  rewrite logfmt_key_word by done. destruct (String.eqb_spec k ""); [done|].
  cbn [logfmt_value]. rewrite Ascii.eqb_refl, logfmt_quoted_escape, Hv by done. done.
Qed.

(** [scan_logfmt] reads back every list of fields a logfmt printer wrote,
    quotes, line breaks and non-ASCII text in the values included. *)
Theorem scan_logfmt_roundtrip (pairs : list (string * string)) (Hp : Forall printable pairs) :
  scan_logfmt (join " " (print_pair <$> pairs)) = Some pairs.
Proof.
  unfold scan_logfmt.
  assert (Hfuel : (length pairs ≤ String.length (join " " (print_pair <$> pairs)))%nat).
  { clear. induction pairs as [|kv [|kv' l] IH]; [done| |]; cbn in *;
      unfold print_pair at 1; rewrite !length_app_str; cbn; lia. }
  revert Hfuel. generalize (String.length (join " " (print_pair <$> pairs))). intros fuel.
  revert fuel. induction pairs as [|kv l IH]; intros fuel Hfuel; [done|].
  apply Forall_cons in Hp as [Hkv Hl]. destruct fuel as [|fuel]; [cbn in Hfuel; lia|].
  destruct l as [|kv' l].
  - cbn [fmap list_fmap join]. rewrite <-(app_nil_str_r (print_pair kv)). by rewrite scan_pair.
  - change (join " " (print_pair <$> kv :: kv' :: l))
      with (print_pair kv +:+ String (Ascii.ascii_of_nat 32) (join " " (print_pair <$> kv' :: l))).
    rewrite scan_pair by done. change (scan_loop (S fuel) (String _ ?s)) with (scan_loop (S fuel) s).
    rewrite IH; [done|done|cbn in *; lia].
Qed.

(** * Concrete sessions *)

(** A reading of [chrono]: a date is a day number of a calendar of 31-day
    months, a time its nanosecond of the day, an offset its seconds. *)
#[local] Instance calendar : Chrono := {|
  NaiveDate := Z; NaiveTime := Z; FixedOffset := Z;
  from_ymd_opt y m d :=
    if (1 <=? m)%Z && (m <=? 12)%Z && (1 <=? d)%Z && (d <=? 31)%Z
    then Some (y * 372 + (m - 1) * 31 + (d - 1))%Z else None;
  from_hms_nano_opt h m s n :=
    if (h <? 24)%Z && (m <? 60)%Z && (s <? 60)%Z
    then Some (((h * 60 + m) * 60 + s) * 1000000000 + n)%Z else None;
  parse_hms s :=
    h ← str_get 0 2 s ≫= parse_u32; m ← str_get 3 5 s ≫= parse_u32; x ← str_get 6 8 s ≫= parse_u32;
    Some (((h * 60 + m) * 60 + x) * 1000000000)%Z;
  time_since a b := (a - b)%Z;
  succ_opt d := Some (d + 1)%Z;
  pred_opt d := Some (d - 1)%Z;
  local_unix_ms d t o := Some ((d * 86400 - o) * 1000 + t / 1000000)%Z;
  parse_rfc3339_ms _ := None;
|}.

Definition noon : Observed := mkObserved calendar 1000 0%Z (12 * 3600 * 1000000000)%Z 0%Z.

Definition q (s : string) : string := String dquote (s +:+ String dquote EmptyString).

Definition mihomo_session : list (LogStream * string * Observed) :=
  [(Stdout, "time=" +:+ q "t" +:+ " level=info msg=" +:+ q "up" +:+ " port=7890", noon);
   (Stderr, "Error: boom", noon); (Stdout, "plain", noon); (Stderr, "  at line 1", noon)].

Definition returns {A} (r : run A) : bool := match r with Val _ => true | Panic => false end.

Lemma returns_Val {A} (r : run A) : returns r = true → ∃ a, r = Val a.
Proof. destruct r; [by eexists|done]. Qed.

(** An error block of stderr around a line of stdout. *)
Lemma frames_are_bounded_witness :
  ∃ frames, session Mihomo 1 mihomo_session = Val frames ∧ Forall within_caps frames.
Proof.
  destruct (returns_Val (session Mihomo 1 mihomo_session)) as [frames E]; [by vm_compute|].
  exists frames. split; [done|]. exact (frames_are_bounded _ _ _ _ E).
Defined.

Lemma no_line_is_lost_silently_witness :
  ∃ frames, session Mihomo 1 mihomo_session = Val frames
    ∧ ∃ groups, concat groups = ["Error: boom"; "  at line 1"]
        ∧ Forall2 carries (filter (λ f, fr_stream f = Stderr) frames) groups.
Proof.
  destruct (returns_Val (session Mihomo 1 mihomo_session)) as [frames E]; [by vm_compute|].
  exists frames. split; [done|]. exact (no_line_is_lost_silently _ _ _ _ E Stderr).
Defined.

Lemma session_returns_witness : ∃ frames, session ClashRust 1 mihomo_session = Val frames.
Proof. apply session_returns. right. repeat constructor. Defined.

(** A level, and a value with a quote, a line break and a two-byte character. *)
Lemma scan_logfmt_roundtrip_witness :
  let pairs := [("level", "info"); ("msg", q "a" +:+ nl +:+ e_byte 195 (e_byte 169 ""))] in
  scan_logfmt (join " " (print_pair <$> pairs)) = Some pairs.
Proof.
  intros pairs. apply (scan_logfmt_roundtrip pairs). repeat constructor; done.
Defined.

(** A white-space character of more than one byte before a [file:line] makes
    [clash_rs_source] slice inside it. *)
Theorem clash_rs_parser_panics :
  let nbsp := e_byte 194 (e_byte 160 "") in
  utf8_ok nbsp = true
  ∧ session ClashRust 1 [(Stdout, "25-01-01 00:00:00:1 INFO x" +:+ nbsp +:+ "a.rs:1: m", noon)] = Panic.
Proof. by vm_compute. Qed.

Fixpoint repeat_x (n : nat) (tail : string) : string :=
  match n with O => tail | S n' => String (Ascii.ascii_of_nat 120) (repeat_x n' tail) end.

Definition single_raw (r : run (list LogFrame)) : string :=
  match r with Val [f] => fr_raw f | _ => "" end.

(** A first line cut below the cap, at a character boundary, still takes a
    continuation: the text has a hole. *)
Theorem cut_record_still_grows :
  let kept := repeat_x (MAX_LOG_TEXT_BYTES - 9) "" in
  let euro := e_byte 226 (e_byte 130 (e_byte 172 "")) in
  String.eqb
    (single_raw (session Mihomo 1 [(Stderr, "Error: " +:+ kept +:+ euro, noon); (Stderr, "y", noon)]))
    ("Error: " +:+ kept +:+ nl +:+ "y") = true.
Proof. by vm_compute. Qed.
