(* ===== verification/LogSink.v ===== *)
(** The JSONL archive of core logs (log_sink.rs): file names, retention,
    rotation, batches and the drain loop.

    The directory is a finite map from names to contents.  Every I/O call asks
    the oracle [fault] whether it fails, and a write that fails leaves the
    prefix of length [torn].  [serde_json] is a parameter. *)
From stdpp Require Import sorting.
From S2P Require Import Prelude Text Metadata Types Log.
From Stdlib Require String Ascii.
From Stdlib Require Import ZArith Lia.

(** * File names *)

Definition FILE_PREFIX : string := "core-".
Definition FILE_SUFFIX : string := ".jsonl".
Definition MAX_BATCH_RECORDS : nat := 256.

(** [{seq:06}]. *)
Fixpoint zeros (n : nat) (s : string) : string :=
  match n with O => s | S n' => String (Ascii.ascii_of_nat 48) (zeros n' s) end.
Definition pad6 (s : string) : string := zeros (6 - String.length s) s.

(** [file_name]. *)
Definition file_name (seq : Z) : string := FILE_PREFIX +:+ pad6 (fmt_u64 seq) +:+ FILE_SUFFIX.

(** [file_seq]. *)
Definition file_seq (name : string) : option Z :=
  rest ← strip_prefix FILE_PREFIX name;
  digits ← strip_suffix FILE_SUFFIX rest;
  if negb (String.eqb digits "") && string_forallb is_dec_digit digits then parse_u64 digits else None.

(** * Retention *)

Definition newer_first (a b : Z) : Prop := (b ≤ a)%Z.
#[export] Instance newer_first_dec : RelDecision newer_first.
Proof. intros a b. unfold newer_first. apply _. Defined.

(** [prune_targets]. *)
Definition prune_targets (seqs : list Z) (max_files : nat) : list Z :=
  drop max_files (merge_sort newer_first seqs).

Record SinkOptions := mkSinkOptions { so_max_bytes : Z; so_max_files : nat }.

Record Writer := mkWriter { wr_options : SinkOptions; wr_written : Z; wr_seq : Z }.

(** [Entry]. *)
Inductive Entry := ELog (f : LogFrame) | EGap (dropped : Z).

Record Disk := mkDisk { dk_files : gmap string string; dk_tick : nat }.

Definition set_files (g : gmap string string → gmap string string) (d : Disk) : Disk :=
  mkDisk (g (dk_files d)) (dk_tick d).

(** [seq + 1] on a [u64]. *)
Definition succ_u64 (n : Z) : Z := ((n + 1) mod two64)%Z.

(** The receiver of the broadcast channel: what it will hand over next, lag
    reports included, and whether the last sender is gone. *)
Record Chan := mkChan { ch_queue : list Entry; ch_closed : bool }.

Record Round := mkRound {
  rd_arrivals : list Entry; rd_closes : bool; rd_cancelled : bool; rd_at : Z;
}.

Section Sink.
Context (fault : nat → bool) (torn : nat → nat).
Context (encode_log : LogFrame → option string) (encode_gap : Z → Z → option string).

Definition io : M Disk bool :=
  λ d, (fault (dk_tick d), mkDisk (dk_files d) (S (dk_tick d))).

(** [read_seqs]. *)
Definition seqs_of (files : gmap string string) : list Z := omap file_seq (map_to_list files).*1.
Definition read_seqs : M Disk (result (list Z) unit) :=
  failed <- io;;
  if failed then ret (Err tt) else seqs <- gets (λ d, seqs_of (dk_files d));; ret (Ok seqs).

(** [next_seq]. *)
Definition next_seq : M Disk (result Z unit) :=
  seqs <-? read_seqs;; ret (Ok (succ_u64 (foldr Z.max 0%Z seqs))).

Definition remove_file (name : string) : M Disk unit :=
  failed <- io;; if failed then ret tt else modify (set_files (delete name)).

Fixpoint remove_all (seqs : list Z) : M Disk unit :=
  match seqs with
  | [] => ret tt
  | seq :: more => remove_file (file_name seq) ;;; remove_all more
  end.

(** [prune_dir]. *)
Definition prune_dir (keep : nat) (protect : option Z) : M Disk unit :=
  existing <- read_seqs;;
  match existing with
  | Err _ => ret tt
  | Ok seqs => remove_all (filter (λ seq, Some seq ≠ protect) (prune_targets seqs keep))
  end.

(** [create]: opened for appending, created when it is missing. *)
Definition create (seq : Z) : M Disk (result unit unit) :=
  failed <- io;;
  if failed then ret (Err tt)
  else modify (set_files (λ m, match m !! file_name seq with
                               | Some _ => m | None => <[file_name seq := ""]> m end)) ;;; ret (Ok tt).

(** [Writer::open]. *)
Definition writer_open (options : SinkOptions) : M Disk (result Writer unit) :=
  seq <-? next_seq;;
  prune_dir (so_max_files options - 1) None ;;;
  (_ <-? create seq;; ret (Ok (mkWriter options 0 seq))).

(** The bytes reach the file the writer has open, which may have lost its
    name. *)
Definition append_file (w : Writer) (bytes : string) : M Disk unit :=
  modify (set_files (alter (λ c, c +:+ bytes) (file_name (wr_seq w)))).

Definition torn_prefix (buffer : string) (d : Disk) : string :=
  String.substring 0 (torn (dk_tick d)) buffer.

(** [Writer::flush_pending]; it always leaves an empty buffer. *)
Definition flush_pending (w : Writer) (buffer : string) : M Disk Writer :=
  if String.eqb buffer "" then ret w
  else
    failed <- io;;
    if failed then (part <- gets (torn_prefix buffer);; (append_file w part ;;; ret w))
    else
      unflushed <- io;;
      part <- gets (torn_prefix buffer);;
      (append_file w (if unflushed then part else buffer) ;;;
       ret (mkWriter (wr_options w) (wr_written w + Z.of_nat (String.length buffer)) (wr_seq w))).

(** [Writer::rotate]. *)
Definition rotate (w : Writer) : M Disk Writer :=
  let seq := succ_u64 (wr_seq w) in
  prune_dir (so_max_files (wr_options w) - 1) (Some (wr_seq w)) ;;;
  (created <- create seq;;
   match created with
   | Ok _ => prune_dir (so_max_files (wr_options w)) (Some seq) ;;; ret (mkWriter (wr_options w) 0 seq)
   | Err _ => ret w
   end).

Definition encode (e : Entry) (at_ : Z) : option string :=
  match e with ELog f => encode_log f | EGap dropped => encode_gap dropped at_ end.

(** The loop of [Writer::write]. *)
Fixpoint write_loop (at_ : Z) (w : Writer) (buffer : string) (batch : list Entry) : M Disk Writer :=
  match batch with
  | [] => flush_pending w buffer
  | e :: more =>
      wb <- (if (so_max_bytes (wr_options w) <=? wr_written w + Z.of_nat (String.length buffer))%Z
             then w <- flush_pending w buffer;; w <- rotate w;; ret (w, "")
             else ret (w, buffer));;
      let '(w, buffer) := wb in
      match encode e at_ with
      | None => write_loop at_ w buffer more
      | Some record => write_loop at_ w (buffer +:+ record +:+ nl) more
      end
  end.

(** [Writer::write]; [at_] is the reading of the clock. *)
Definition write (w : Writer) (batch : list Entry) (at_ : Z) : M Disk Writer :=
  match batch with [] => ret w | _ => write_loop at_ w "" batch end.

(** * The task *)

(** [drain]: the batch, what is left, and whether the channel is closed. *)
Fixpoint drain_n (room : nat) (batch : list Entry) (c : Chan) : list Entry * Chan * bool :=
  match room with
  | O => (batch, c, false)
  | S room' =>
      match ch_queue c with
      | e :: more => drain_n room' (batch ++ [e]) (mkChan more (ch_closed c))
      | [] => (batch, c, ch_closed c)
      end
  end.
Definition sink_drain (batch : list Entry) (c : Chan) : list Entry * Chan * bool :=
  drain_n (MAX_BATCH_RECORDS - length batch) batch c.

(** One round of [run] when the token is cancelled: the batch, the channel
    after it, and whether the loop ends. *)
Definition round_cancelled (c : Chan) : list Entry * Chan * bool :=
  let '(batch, c, closed) := sink_drain [] c in
  (batch, c, closed || (length batch <? MAX_BATCH_RECORDS)%nat).

(** One round of [run] on a received entry; [None] while [recv] waits. *)
Definition round_received (c : Chan) : option (list Entry * Chan * bool) :=
  match ch_queue c with
  | e :: more => Some (sink_drain [e] (mkChan more (ch_closed c)))
  | [] => if ch_closed c then Some ([], c, true) else None
  end.

(** What happens around one round of the loop: the entries that arrive before
    it, whether the last sender goes, the arm [select!] takes when the token is
    cancelled, and the clock. *)
Definition arrive (r : Round) (c : Chan) : Chan :=
  mkChan (ch_queue c ++ rd_arrivals r) (ch_closed c || rd_closes r).

(** [run], over a schedule of rounds; the flag says that the loop ended. *)
Fixpoint run_sink (rounds : list Round) (w : Writer) (c : Chan) : M Disk (Writer * Chan * bool) :=
  match rounds with
  | [] => ret (w, c, false)
  | r :: more =>
      let c := arrive r c in
      match (if rd_cancelled r then Some (round_cancelled c) else round_received c) with
      | None => run_sink more w c
      | Some (batch, c, stop) =>
          w <- write w batch (rd_at r);;
          if stop then ret (w, c, true) else run_sink more w c
      end
  end.
End Sink.

(** * Names *)
Lemma zeros_digits n s : string_forallb is_dec_digit (zeros n s) = string_forallb is_dec_digit s.
Proof. induction n as [|n IH]; [done|]. exact IH. Qed.

Lemma parse_zeros n s : parse_digits 10 u64_max 0 (zeros n s) = parse_digits 10 u64_max 0 s.
Proof. induction n as [|n IH]; [done|]. exact IH. Qed.

Lemma zeros_nonempty n s : s ≠ "" → zeros n s ≠ "".
Proof. by destruct n. Qed.

(** The name of a log file determines its sequence number. *)
Lemma file_seq_of_name (seq : Z) : is_u64 seq → file_seq (file_name seq) = Some seq.
Proof.
  intros Hseq. unfold file_seq, file_name. rewrite strip_prefix_app. cbn [mbind option_bind].
  rewrite strip_suffix_app. cbn [mbind option_bind]. unfold pad6.
  assert (Hd : string_forallb is_dec_digit (zeros (6 - String.length (fmt_u64 seq)) (fmt_u64 seq)) = true).
  { rewrite zeros_digits. apply fmt_u64_digits, Hseq. }
  assert (Hn : zeros (6 - String.length (fmt_u64 seq)) (fmt_u64 seq) ≠ "")
    by apply zeros_nonempty, fmt_u64_nonempty.
  apply String.eqb_neq in Hn as Hn'. rewrite Hn', Hd. cbn [negb andb].
  unfold parse_u64. rewrite from_str_radix_digits, parse_zeros by done.
  rewrite <-from_str_radix_digits with (radix := 10%Z); [|apply fmt_u64_digits, Hseq|apply fmt_u64_nonempty].
  by apply parse_fmt_u64.
Qed.
