(* ===== verification/LogSinkProps.v ===== *)
(** What the log archive guarantees: the active file and foreign files survive
    every fault, and without faults the directory refines a rolling log of
    which it keeps the newest files. *)
From stdpp Require Import sorting.
From S2P Require Import Prelude Text Metadata Types Log LogSink.
From Stdlib Require String Ascii.
From Stdlib Require Import ZArith Lia.

(** * Names and sequence numbers *)
Lemma file_seq_u64 name n : file_seq name = Some n → is_u64 n.
Proof.
  unfold file_seq. intros (rest & _ & Hn)%bind_Some. apply bind_Some in Hn as (digits & _ & Hn).
  case_match; [|done]. by eapply parse_u64_range.
Qed.

Lemma file_name_inj a b : is_u64 a → is_u64 b → file_name a = file_name b → a = b.
Proof.
  intros Ha Hb E. apply (f_equal file_seq) in E. rewrite !file_seq_of_name in E by done. congruence.
Qed.

Lemma succ_u64_range n : is_u64 n → is_u64 (succ_u64 n).
Proof.
  unfold is_u64, succ_u64, u64_max, two64. intros ?.
  pose proof (Z.mod_pos_bound (n + 1) 18446744073709551616 ltac:(lia)). lia.
Qed.

Lemma succ_u64_small n : (0 ≤ n < u64_max)%Z → succ_u64 n = (n + 1)%Z.
Proof. unfold succ_u64, u64_max, two64. intros ?. apply Z.mod_small. lia. Qed.

Lemma elem_of_seqs_of files n :
  n ∈ seqs_of files ↔ ∃ name, is_Some (files !! name) ∧ file_seq name = Some n.
Proof.
  unfold seqs_of. rewrite list_elem_of_omap. split.
  - intros (name & ([? c] & -> & Hin)%list_elem_of_fmap & Hs).
    apply elem_of_map_to_list in Hin. eauto.
  - intros (name & [c Hc] & Hs). exists name. split; [|done].
    apply list_elem_of_fmap. exists (name, c). split; [done|]. by apply elem_of_map_to_list.
Qed.

Lemma seqs_of_u64 files n : n ∈ seqs_of files → is_u64 n.
Proof. intros (name & _ & Hn)%elem_of_seqs_of. by eapply file_seq_u64. Qed.

(** * Retention *)

#[local] Instance newer_first_trans : Transitive newer_first.
Proof. unfold newer_first. intros a b c. lia. Qed.
#[local] Instance newer_first_total : Total newer_first.
Proof. unfold newer_first. intros a b. lia. Qed.

Lemma distinct_in_range (l : list Z) lo hi :
  NoDup l → (∀ y, y ∈ l → lo < y ≤ hi)%Z → length l ≠ 0%nat → (Z.of_nat (length l) ≤ hi - lo)%Z.
Proof.
  intros Hnd Hl Hne.
  assert (length l ≤ length (seqZ (lo + 1) (hi - lo)))%nat as Hlen.
  { apply submseteq_length, NoDup_submseteq; [done|]. intros y Hy%Hl. apply elem_of_seqZ. lia. }
  rewrite length_seqZ in Hlen. lia.
Qed.

(** What pruning takes has [keep] newer files before it. *)
Lemma prune_targets_old seqs keep top x :
  NoDup seqs → (∀ y, y ∈ seqs → y ≤ top)%Z → x ∈ prune_targets seqs keep → (Z.of_nat keep ≤ top - x)%Z.
Proof.
  intros Hnd Htop Hx. unfold prune_targets in Hx. set (sorted := merge_sort newer_first seqs) in *.
  assert (Hperm : sorted ≡ₚ seqs) by apply merge_sort_Permutation.
  assert (Hss : StronglySorted newer_first sorted) by (apply StronglySorted_merge_sort; apply _).
  assert (Hnd' : NoDup sorted) by (by rewrite Hperm).
  assert (x ∈ seqs) by (rewrite <-Hperm, <-(take_drop keep sorted); set_solver).
  destruct (decide (keep = 0%nat)) as [->|Hk]; [specialize (Htop x); set_solver by lia|].
  assert (Hlen : length (take keep sorted) = keep).
  { rewrite length_take. destruct (Nat.le_gt_cases (length sorted) keep) as [Hle|]; [|lia].
    rewrite drop_ge in Hx by done. set_solver. }
  rewrite <-(take_drop keep sorted) in Hnd', Hss, Hperm.
  apply NoDup_app in Hnd' as (Hnd1 & Hdisj & _). rewrite <-Hlen at 1.
  apply distinct_in_range; [done| |lia]. intros y Hy.
  assert (newer_first y x) by (by eapply StronglySorted_app_1_elem_of; [exact Hss| |]).
  assert (y ≠ x) by (intros ->; by apply (Hdisj x)).
  assert (y ∈ seqs) by (rewrite <-Hperm; set_solver).
  specialize (Htop y). unfold newer_first in *. set_solver by lia.
Qed.

(** What pruning leaves is at most [keep] files, the newest among them. *)
Lemma prune_targets_rest seqs keep top :
  (∀ y, y ∈ seqs → y ≤ top)%Z →
  (∀ x, x ∈ seqs → x ∉ prune_targets seqs keep → x ∈ take keep (merge_sort newer_first seqs))
  ∧ (top ∈ seqs → keep ≠ 0%nat → top ∈ take keep (merge_sort newer_first seqs)).
Proof.
  intros Htop. set (sorted := merge_sort newer_first seqs).
  assert (Hperm : sorted ≡ₚ seqs) by apply merge_sort_Permutation.
  assert (Hss : StronglySorted newer_first sorted) by (apply StronglySorted_merge_sort; apply _).
  split.
  - intros x Hx Hn. unfold prune_targets in Hn. fold sorted in Hn.
    rewrite <-Hperm, <-(take_drop keep sorted) in Hx. set_solver.
  - intros Ht Hk. destruct sorted as [|y rest] eqn:E.
    { apply Permutation_nil_l in Hperm. rewrite <-Hperm in Ht. set_solver. }
    destruct keep as [|keep]; [done|]. cbn.
    assert (y = top) as ->; [|set_solver].
    assert (y ≤ top)%Z by (apply Htop; rewrite <-Hperm; set_solver).
    rewrite <-Hperm in Ht. apply elem_of_cons in Ht as [|Ht]; [done|].
    apply StronglySorted_inv in Hss as [_ Hall]. rewrite Forall_forall in Hall.
    specialize (Hall top Ht). unfold newer_first in Hall. lia.
Qed.

(** * Under faults *)
Lemma hoare_assume {S A} (φ : Prop) (m : M S A) (P : S → Prop) Q :
  (∀ s, P s → φ) → (φ → hoare P m Q) → hoare P m Q.
Proof. intros Hφ Hm s Hs. by apply Hm, Hs; apply (Hφ s). Qed.

Lemma gets_keeps {S A} (f : S → A) P : hoare P (gets f) (λ _, P).
Proof. by apply hoare_gets. Qed.

Lemma hoare_seq {S A B} (m : M S A) (k : M S B) P R Q :
  hoare P m (λ _, R) → hoare R k Q → hoare P (m ;;; k) Q.
Proof. intros Hm Hk. by eapply hoare_bind. Qed.

Section Faults.
Context (fault : nat → bool) (torn : nat → nat).
Context (encode_log : LogFrame → option string) (encode_gap : Z → Z → option string).
(** The directory before the writer opens it. *)
Context (before : gmap string string).

(** Files with foreign names are as they were, and the protected file is
    there. *)
Definition foreign_kept (m : gmap string string) : Prop :=
  ∀ name, file_seq name = None → m !! name = before !! name.
Definition guarded (protect : option Z) (m : gmap string string) : Prop :=
  foreign_kept m ∧ ∀ seq, protect = Some seq → is_u64 seq ∧ is_Some (m !! file_name seq).

Abbreviation on P := (λ d, P (dk_files d)).

Lemma io_keeps P : hoare (on P) (io fault) (λ _, on P).
Proof. by intros d. Qed.

Lemma guarded_delete protect seq m :
  is_u64 seq → Some seq ≠ protect → guarded protect m → guarded protect (delete (file_name seq) m).
Proof.
  intros Hs Hp [Hf Hg]. split.
  - intros name Hn. rewrite lookup_delete_ne; [by apply Hf|]. intros <-. by rewrite file_seq_of_name in Hn.
  - intros p Ep. destruct (Hg p Ep) as [Hu Hsome]. split; [done|].
    rewrite lookup_delete_ne; [done|]. intros E%file_name_inj; [|done..]. congruence.
Qed.

Lemma remove_all_keeps seqs protect :
  Forall (λ s, is_u64 s ∧ Some s ≠ protect) seqs →
  hoare (on (guarded protect)) (remove_all fault seqs) (λ _, on (guarded protect)).
Proof.
  induction 1 as [|s seqs [Hs Hp] _ IH]; [by intros d|].
  cbn [remove_all]. eapply hoare_seq; [|exact IH]. unfold remove_file.
  eapply hoare_bind; [apply io_keeps|]. intros []; [by apply hoare_ret|].
  apply hoare_modify. intros d. by apply guarded_delete.
Qed.

Lemma prune_dir_keeps keep protect :
  hoare (on (guarded protect)) (prune_dir fault keep protect) (λ _, on (guarded protect)).
Proof.
  unfold prune_dir, read_seqs. intros d Hd. unfold bind, io, gets, ret. cbn.
  destruct (fault (dk_tick d)); [done|]. cbn. apply remove_all_keeps; [|done].
  apply Forall_forall. intros x [Hp Hx]%list_elem_of_filter. split; [|done].
  eapply seqs_of_u64. rewrite <-(merge_sort_Permutation newer_first).
  eapply subseteq_drop, Hx.
Qed.

Lemma guarded_create protect seq m :
  is_u64 seq → guarded protect m →
  let m' := match m !! file_name seq with Some _ => m | None => <[file_name seq := ""]> m end in
  guarded protect m' ∧ guarded (Some seq) m'.
Proof.
  intros Hs [Hf Hg]. destruct (m !! file_name seq) eqn:E; cbn.
  { split; [done|]. split; [done|]. intros ? [= <-]. by rewrite E. }
  assert (foreign_kept (<[file_name seq := ""]> m)).
  { intros name Hn. rewrite lookup_insert_ne; [by apply Hf|]. intros <-. by rewrite file_seq_of_name in Hn. }
  split; (split; [done|]).
  - intros p Ep. destruct (Hg p Ep) as [? ?]. split; [done|].
    destruct (decide (file_name seq = file_name p)) as [->|]; [by rewrite lookup_insert_eq|].
    by rewrite lookup_insert_ne.
  - intros ? [= <-]. by rewrite lookup_insert_eq.
Qed.

Lemma create_keeps protect seq :
  is_u64 seq →
  hoare (on (guarded protect)) (create fault seq)
    (λ r d, guarded protect (dk_files d) ∧ (r = Ok tt → guarded (Some seq) (dk_files d))).
Proof.
  intros Hs. eapply hoare_bind; [apply io_keeps|]. intros []; [by apply hoare_ret|].
  eapply hoare_seq; [|apply hoare_ret; intros d Hd; exact Hd].
  apply hoare_modify. intros d Hd. cbn. destruct (guarded_create protect seq _ Hs Hd). done.
Qed.

(** The file the writer has open. *)
Abbreviation open_file w := (on (guarded (Some (wr_seq w)))).

Lemma append_keeps w bytes : hoare (open_file w) (append_file w bytes) (λ _, open_file w).
Proof.
  apply hoare_modify. intros d [Hf Hg]. destruct (Hg _ eq_refl) as [Hu Hs]. cbn. split.
  - intros name Hn. rewrite lookup_alter_ne; [by apply Hf|]. intros <-. by rewrite file_seq_of_name in Hn.
  - intros ? [= <-]. split; [done|]. by rewrite lookup_alter_eq, fmap_is_Some.
Qed.

Lemma flush_keeps w buffer :
  hoare (open_file w) (flush_pending fault torn w buffer) (λ w' d, wr_seq w' = wr_seq w ∧ open_file w' d).
Proof.
  unfold flush_pending. destruct (String.eqb buffer ""); [by apply hoare_ret|].
  eapply hoare_bind; [apply io_keeps|]. intros [].
  - eapply hoare_bind; [apply gets_keeps|]. intros part.
    eapply hoare_seq; [apply append_keeps|]. by apply hoare_ret.
  - eapply hoare_bind; [apply io_keeps|]. intros u.
    eapply hoare_bind; [apply gets_keeps|]. intros part.
    eapply hoare_seq; [apply append_keeps|]. by apply hoare_ret.
Qed.

Lemma rotate_keeps w :
  hoare (open_file w) (rotate fault w) (λ w', open_file w').
Proof.
  apply (hoare_assume (is_u64 (wr_seq w))); [by intros d [_ Hg]; apply Hg|]. intros Hu.
  unfold rotate. eapply hoare_seq; [apply prune_dir_keeps|].
  eapply hoare_bind; [apply create_keeps, succ_u64_range, Hu|]. intros [[]|[]].
  - eapply hoare_seq; [|apply hoare_ret; intros d Hd; exact Hd].
    eapply hoare_pre; [apply prune_dir_keeps|]. intros d [_ Hd]. by apply Hd.
  - apply hoare_ret. by intros d [Hd _].
Qed.

Abbreviation wr_loop := (write_loop fault torn encode_log encode_gap).
Abbreviation wr_batch := (write fault torn encode_log encode_gap).
Abbreviation wr_run := (run_sink fault torn encode_log encode_gap).

Lemma write_loop_keeps at_ batch w buffer :
  hoare (open_file w) (wr_loop at_ w buffer batch) (λ w', open_file w').
Proof.
  revert w buffer. induction batch as [|e batch IH]; intros w buffer; cbn [write_loop].
  { eapply hoare_post; [apply flush_keeps|]. by intros w' d [_ ?]. }
  eapply (hoare_bind _ _ _ (λ wb d, open_file wb.1 d)).
  - destruct (_ <=? _)%Z; [|by apply hoare_ret].
    eapply hoare_bind; [apply flush_keeps|]. intros w1.
    eapply hoare_bind; [eapply hoare_pre; [apply rotate_keeps|by intros d [_ ?]]|]. intros w2.
    by apply hoare_ret.
  - intros [w1 b1]. destruct (encode _ _ e at_); apply IH.
Qed.

Lemma write_keeps w batch at_ : hoare (open_file w) (wr_batch w batch at_) (λ w', open_file w').
Proof. unfold write. destruct batch; [by apply hoare_ret|apply write_loop_keeps]. Qed.

Lemma run_sink_keeps rounds w c :
  hoare (open_file w) (wr_run rounds w c) (λ r d, open_file r.1.1 d).
Proof.
  revert w c. induction rounds as [|r rounds IH]; intros w c; cbn [run_sink]; [by apply hoare_ret|].
  destruct (if rd_cancelled r then _ else _) as [[[batch c'] stop]|]; [|apply IH].
  eapply hoare_bind; [apply write_keeps|]. intros w'. destruct stop; [by apply hoare_ret|apply IH].
Qed.

Lemma open_keeps options :
  hoare (on foreign_kept) (writer_open fault options)
    (λ r d, match r with Ok w => open_file w d | Err _ => foreign_kept (dk_files d) end).
Proof.
  eapply (hoare_bind_ok _ _ _ (λ seq d, is_u64 seq ∧ foreign_kept (dk_files d))).
  - unfold next_seq, read_seqs. intros d Hd. unfold bind_ok, bind, io, gets, ret. cbn.
    destruct (fault (dk_tick d)); cbn; [done|]. split; [|done]. apply succ_u64_range.
    assert (Forall is_u64 (seqs_of (dk_files d))) as Hall
      by (apply Forall_forall; intros x; apply seqs_of_u64).
    induction Hall as [|x l Hx _ IH]; cbn; [by unfold is_u64, u64_max|]. unfold is_u64 in *. lia.
  - intros seq. apply hoare_pure. intros Hs. eapply (hoare_seq _ _ _ (on (guarded None))).
    { eapply hoare_pre; [apply prune_dir_keeps|]. intros d Hd. by split. }
    eapply (hoare_bind_ok _ _ _ (λ _ d, guarded (Some seq) (dk_files d))).
    + eapply hoare_post; [by apply create_keeps|]. intros [[]|] d [[H1 _] H2]; [by apply H2|done].
    + intros _. by apply hoare_ret.
Qed.

(** whatever I/O fails, from the opening of the archive to any later point
    of the task, the file the writer appends to is in the directory, and a file
    whose name is not a log name is never created, changed or removed. *)
Theorem active_file_survives (options : SinkOptions) (t0 : nat) (w0 : Writer) (d0 : Disk)
    (Hopen : writer_open fault options (mkDisk before t0) = (Ok w0, d0))
    (rounds : list Round) (c : Chan) :
  let '(w, _, _, d) := wr_run rounds w0 c d0 in
  is_Some (dk_files d !! file_name (wr_seq w))
  ∧ ∀ name, file_seq name = None → dk_files d !! name = before !! name.
Proof.
  pose proof (open_keeps options (mkDisk before t0)) as Ho. rewrite Hopen in Ho. cbn in Ho.
  pose proof (run_sink_keeps rounds w0 c d0 (Ho ltac:(done))) as Hr.
  destruct (wr_run rounds w0 c d0) as [[[w c'] stop] d]. destruct Hr as [Hf Hg].
  split; [by apply Hg|done].
Qed.
End Faults.

(** * Without faults: a rolling log *)

(** Every log file of the directory bears the name the writer gives it. *)
Definition canonical (m : gmap string string) : Prop :=
  ∀ name n, is_Some (m !! name) → file_seq name = Some n → name = file_name n.

Lemma canonical_seqs m n :
  canonical m → n ∈ seqs_of m ↔ is_u64 n ∧ is_Some (m !! file_name n).
Proof.
  intros Hc. rewrite elem_of_seqs_of. split.
  - intros (name & Hs & Hn). rewrite <-(Hc _ _ Hs Hn). split; [by eapply file_seq_u64|done].
  - intros [Hu Hs]. exists (file_name n). split; [done|by apply file_seq_of_name].
Qed.

Lemma NoDup_omap_inj {A B} (f : A → option B) (l : list A) :
  NoDup l → (∀ x y b, x ∈ l → y ∈ l → f x = Some b → f y = Some b → x = y) → NoDup (omap f l).
Proof.
  induction 1 as [|x l Hx _ IH]; intros Hinj; [constructor|]. cbn.
  assert (NoDup (omap f l)) by (apply IH; intros; eapply Hinj; set_solver).
  destruct (f x) as [b|] eqn:E; [|done]. constructor; [|done].
  intros (y & Hy & Hf)%list_elem_of_omap. assert (x = y) as -> by (eapply Hinj; set_solver). done.
Qed.

Lemma canonical_NoDup m : canonical m → NoDup (seqs_of m).
Proof.
  intros Hc. apply NoDup_omap_inj; [apply NoDup_fst_map_to_list|].
  assert (Hin : ∀ x, x ∈ (map_to_list m).*1 → is_Some (m !! x)).
  { intros x ([? c] & -> & H%elem_of_map_to_list)%list_elem_of_fmap. eauto. }
  intros x y n Hx%Hin Hy%Hin Ex Ey. by rewrite (Hc x n), (Hc y n).
Qed.

Definition delete_all (seqs : list Z) (m : gmap string string) : gmap string string :=
  foldl (λ m s, delete (file_name s) m) m seqs.

Lemma lookup_delete_all seqs m name :
  delete_all seqs m !! name = if decide (name ∈ file_name <$> seqs) then None else m !! name.
Proof.
  unfold delete_all. revert m. induction seqs as [|s seqs IH]; intros m; cbn [foldl].
  { by rewrite decide_False by set_solver. }
  rewrite IH. destruct (decide (name ∈ file_name <$> seqs)).
  { by rewrite decide_True by set_solver. }
  destruct (decide (file_name s = name)) as [<-|Hne].
  - rewrite lookup_delete_eq, decide_True by set_solver. done.
  - rewrite lookup_delete_ne, decide_False by set_solver. done.
Qed.

(** The effect of [prune_dir]. *)
Definition prune_files (keep : nat) (protect : option Z) (m : gmap string string) : gmap string string :=
  delete_all (filter (λ seq, Some seq ≠ protect) (prune_targets (seqs_of m) keep)) m.

Lemma prune_files_sub keep protect m name c :
  prune_files keep protect m !! name = Some c → m !! name = Some c.
Proof. unfold prune_files. rewrite lookup_delete_all. by case_decide. Qed.

Lemma prune_files_canonical keep protect m : canonical m → canonical (prune_files keep protect m).
Proof. intros Hc name n [c Hs%prune_files_sub]. apply Hc. eauto. Qed.

Lemma prune_files_seqs keep protect m y :
  canonical m → y ∈ seqs_of (prune_files keep protect m) → y ∈ seqs_of m.
Proof.
  intros Hc [? [c Hs%prune_files_sub]]%canonical_seqs; [|by apply prune_files_canonical].
  apply canonical_seqs; eauto.
Qed.

Lemma canonical_insert seq m : is_u64 seq → canonical m → canonical (<[file_name seq := ""]> m).
Proof.
  intros Hu Hc name n. destruct (decide (file_name seq = name)) as [<-|Hne].
  - intros _. rewrite file_seq_of_name by done. by intros [= <-].
  - rewrite lookup_insert_ne by done. apply Hc.
Qed.

Lemma seqs_insert seq m y :
  is_u64 seq → canonical m → y ∈ seqs_of (<[file_name seq := ""]> m) → y = seq ∨ y ∈ seqs_of m.
Proof.
  intros Hu Hc [Hy Hs]%canonical_seqs; [|by apply canonical_insert].
  destruct (decide (y = seq)) as [|Hne]; [by left|right].
  rewrite lookup_insert_ne in Hs by (by intros E%file_name_inj). by apply canonical_seqs.
Qed.

Lemma prune_targets_sub m keep x : x ∈ prune_targets (seqs_of m) keep → x ∈ seqs_of m.
Proof. intros Hx. rewrite <-(merge_sort_Permutation newer_first). eapply subseteq_drop, Hx. Qed.

(** Files close to the newest survive. *)
Lemma prune_files_survive keep protect m top x :
  canonical m → (∀ y, y ∈ seqs_of m → y ≤ top)%Z → is_u64 x →
  (top - x < Z.of_nat keep)%Z ∨ protect = Some x →
  prune_files keep protect m !! file_name x = m !! file_name x.
Proof.
  intros Hc Htop Hx Hor. unfold prune_files. rewrite lookup_delete_all, decide_False; [done|].
  intros (y & Ey & [Hp Hy]%list_elem_of_filter)%list_elem_of_fmap.
  assert (is_u64 y) by (by eapply seqs_of_u64, prune_targets_sub).
  apply file_name_inj in Ey as ->; [|done..]. destruct Hor as [Hlt| ->]; [|done].
  apply (prune_targets_old _ _ top) in Hy; [lia|by apply canonical_NoDup|done].
Qed.

(** How many log files pruning leaves. *)
Lemma prune_files_count keep protect m top :
  canonical m → (∀ y, y ∈ seqs_of m → y ≤ top)%Z →
  protect = None ∨ (protect = Some top ∧ top ∈ seqs_of m) →
  (length (seqs_of (prune_files keep protect m)) ≤ if protect is Some _ then 1 `max` keep else keep)%nat.
Proof.
  intros Hc Htop Hp. pose proof (prune_files_canonical keep protect m Hc) as Hc'.
  destruct (prune_targets_rest (seqs_of m) keep top Htop) as [Hrest Hhead].
  assert (Hin : ∀ x, x ∈ seqs_of (prune_files keep protect m) →
                x ∈ seqs_of m ∧ (protect = Some x ∨ x ∈ take keep (merge_sort newer_first (seqs_of m)))).
  { intros x [Hu [c Hs]]%canonical_seqs; [|done]. pose proof (prune_files_sub _ _ _ _ _ Hs) as Hs'.
    assert (Hx : x ∈ seqs_of m) by (apply canonical_seqs; [done|eauto]). split; [done|].
    destruct (decide (protect = Some x)) as [|Hne]; [by left|right]. apply Hrest; [done|].
    intros Ht. unfold prune_files in Hs. rewrite lookup_delete_all, decide_True in Hs; [done|].
    apply list_elem_of_fmap. exists x. split; [done|]. apply list_elem_of_filter. by split. }
  assert (Hlen : ∀ l, (∀ x, x ∈ seqs_of (prune_files keep protect m) → x ∈ l) →
                 (length (seqs_of (prune_files keep protect m)) ≤ length l)%nat).
  { intros l Hl. apply submseteq_length, NoDup_submseteq; [by apply canonical_NoDup|done]. }
  assert (Htake : (length (take keep (merge_sort newer_first (seqs_of m))) ≤ keep)%nat)
    by (rewrite length_take; lia).
  destruct Hp as [->|[-> Hin_top]].
  - etrans; [apply Hlen|exact Htake]. intros x [_ [|?]]%Hin; done.
  - destruct (decide (keep = 0%nat)) as [->|Hk].
    + etrans; [apply (Hlen [top])|cbn; lia]. intros x [_ [[= ->]|Hx]]%Hin; set_solver.
    + etrans; [apply Hlen|etrans; [exact Htake|lia]].
      intros x [_ [[= <-]|Hx]]%Hin; [by apply Hhead|done].
Qed.

(** The abstract archive: the files that are full, oldest first, and the one
    that grows. *)
Definition Roll : Type := list string * string.

Definition roll_entry (max_bytes : Z) (r : Roll) (line : option string) : Roll :=
  let '(closed, active) :=
    if (max_bytes <=? Z.of_nat (String.length r.2))%Z then (r.1 ++ [r.2], "") else r in
  match line with
  | Some record => (closed, active +:+ record +:+ nl)
  | None => (closed, active)
  end.

(** The directory holds the newest files of the rolling log, and no more log
    files than the budget. *)
Record archives (s0 : Z) (r : Roll) (w : Writer) (m : gmap string string) : Prop := {
  ar_seq : wr_seq w = (s0 + Z.of_nat (length r.1))%Z;
  ar_base : (0 ≤ s0)%Z;
  ar_u64 : is_u64 (wr_seq w);
  ar_written : wr_written w = Z.of_nat (String.length r.2);
  ar_canonical : canonical m;
  ar_newest : ∀ y, y ∈ seqs_of m → (y ≤ wr_seq w)%Z;
  ar_count : (length (seqs_of m) ≤ 1 `max` so_max_files (wr_options w))%nat;
  ar_files : ∀ i c, (r.1 ++ [r.2]) !! i = Some c →
    (length r.1 - i < 1 `max` so_max_files (wr_options w))%nat →
    m !! file_name (s0 + Z.of_nat i) = Some c;
}.

Lemma ar_active s0 r w m : archives s0 r w m → m !! file_name (wr_seq w) = Some r.2.
Proof.
  intros Ha. rewrite (ar_seq _ _ _ _ Ha). apply (ar_files _ _ _ _ Ha); [|lia].
  by rewrite lookup_app_r, Nat.sub_diag by lia.
Qed.

Lemma roll_lookup (r : Roll) i c :
  (r.1 ++ [r.2]) !! i = Some c → (i < length r.1)%nat ∧ r.1 !! i = Some c ∨ i = length r.1 ∧ c = r.2.
Proof.
  intros [Hi|[Hle Hi]]%lookup_app_Some; [left; split; [by eapply lookup_lt_Some|done]|right].
  apply list_lookup_singleton_Some in Hi as [Hz <-]. split; [lia|done].
Qed.

Lemma seqs_length_le m m' :
  canonical m' → (∀ x, x ∈ seqs_of m' → x ∈ seqs_of m) → (length (seqs_of m') ≤ length (seqs_of m))%nat.
Proof. intros Hc Hin. apply submseteq_length, NoDup_submseteq; [by apply canonical_NoDup|done]. Qed.

(** Appending to the active file. *)
Lemma archives_append s0 r w m buffer :
  archives s0 r w m →
  archives s0 (r.1, r.2 +:+ buffer)
    (mkWriter (wr_options w) (wr_written w + Z.of_nat (String.length buffer)) (wr_seq w))
    (alter (λ c, c +:+ buffer) (file_name (wr_seq w)) m).
Proof.
  intros Ha. set (m' := alter _ _ m).
  assert (Hdom : ∀ name, is_Some (m' !! name) → is_Some (m !! name)).
  { intros name. unfold m'. destruct (decide (file_name (wr_seq w) = name)) as [<-|].
    - by rewrite lookup_alter_eq, fmap_is_Some.
    - by rewrite lookup_alter_ne. }
  assert (Hc : canonical m') by (intros name n Hs; apply (ar_canonical _ _ _ _ Ha); by apply Hdom).
  assert (Hin : ∀ x, x ∈ seqs_of m' → x ∈ seqs_of m).
  { intros x (name & Hs%Hdom & Hn)%elem_of_seqs_of. apply elem_of_seqs_of. eauto. }
  destruct Ha as [Hseq Hbase Hu Hw _ Hnew Hcount Hfiles]. constructor; cbn [wr_seq wr_options wr_written fst snd]; try done.
  - rewrite Hw, length_app_str. lia.
  - auto.
  - etrans; [by apply seqs_length_le|done].
  - intros i c Hi Hlt. destruct (roll_lookup (r.1, r.2 +:+ buffer) i c Hi) as [[Hl Hi']|[-> ->]]; cbn in *.
    + unfold m'. rewrite lookup_alter_ne; [apply Hfiles; [|done]; by apply lookup_app_l_Some|].
      intros E%file_name_inj; [|done|unfold is_u64 in *; lia]. lia.
    + unfold m'. rewrite <-Hseq, lookup_alter_eq. rewrite Hseq, (Hfiles (length r.1) r.2); [done| |lia].
      by rewrite lookup_app_r, Nat.sub_diag by lia.
Qed.

(** A new active file. *)
Definition rotate_files (mf : nat) (seq : Z) (m : gmap string string) : gmap string string :=
  let m1 := prune_files (mf - 1) (Some seq) m in
  prune_files mf (Some (seq + 1)%Z) (<[file_name (seq + 1) := ""]> m1).

Lemma archives_rotate s0 r w m :
  archives s0 r w m → (wr_seq w < u64_max)%Z →
  archives s0 (r.1 ++ [r.2], "") (mkWriter (wr_options w) 0 (wr_seq w + 1))
    (rotate_files (so_max_files (wr_options w)) (wr_seq w) m).
Proof.
  intros Ha Hmax. unfold rotate_files. set (mf := so_max_files (wr_options w)). set (seq := wr_seq w).
  set (m1 := prune_files (mf - 1) (Some seq) m). set (m2 := <[_ := _]> m1).
  destruct Ha as [Hseq Hbase Hu Hw Hc Hnew Hcount Hfiles]. fold seq mf in Hseq, Hu, Hnew, Hcount, Hfiles, Hmax.
  assert (Hu' : is_u64 (seq + 1)) by (unfold is_u64 in *; lia).
  assert (Hc1 : canonical m1) by by apply prune_files_canonical.
  assert (Hc2 : canonical m2) by by apply canonical_insert.
  assert (Hin2 : ∀ y, y ∈ seqs_of m2 → y = (seq + 1)%Z ∨ y ∈ seqs_of m).
  { intros y [->|Hy%prune_files_seqs]%seqs_insert; [by left|by right|done..]. }
  assert (Htop2 : ∀ y, y ∈ seqs_of m2 → (y ≤ seq + 1)%Z).
  { intros y [->|Hy%Hnew]%Hin2; lia. }
  assert (Hnew2 : (seq + 1)%Z ∈ seqs_of m2).
  { apply canonical_seqs; [done|]. split; [done|]. unfold m2. by rewrite lookup_insert_eq. }
  constructor; cbn [wr_seq wr_options wr_written fst snd]; fold seq mf; try done.
  - rewrite length_app. cbn. lia.
  - by apply prune_files_canonical.
  - intros y Hy%prune_files_seqs; [by apply Htop2|done].
  - apply (prune_files_count mf (Some (seq + 1)%Z) m2 (seq + 1)); [done..|]. by right.
  - intros i c Hi Hlt. rewrite length_app in Hlt. cbn in Hlt.
    destruct (roll_lookup (r.1 ++ [r.2], "") i c Hi) as [[Hl Hi']|[-> ->]]; cbn in *; rewrite length_app in *; cbn in *.
    + assert (is_u64 (s0 + Z.of_nat i)) by (unfold is_u64 in *; lia).
      rewrite (prune_files_survive _ _ _ (seq + 1)); [|done|done|done|left; lia].
      unfold m2. rewrite lookup_insert_ne by (intros E%file_name_inj; done || lia).
      unfold m1. rewrite (prune_files_survive _ _ _ seq); [|done|done|done|].
      * apply Hfiles; [done|lia].
      * left. lia.
    + replace (s0 + Z.of_nat (length r.1 + 1))%Z with (seq + 1)%Z by lia.
      rewrite (prune_files_survive _ _ _ (seq + 1)); [|done|done|done|by right].
      unfold m2. by rewrite lookup_insert_eq.
Qed.

Section Clean.
Context (fault : nat → bool) (torn : nat → nat).
Context (encode_log : LogFrame → option string) (encode_gap : Z → Z → option string).
Hypothesis clean : ∀ n, fault n = false.

Lemma io_clean d : io fault d = (false, mkDisk (dk_files d) (S (dk_tick d))).
Proof. unfold io. by rewrite clean. Qed.

Lemma remove_all_clean seqs d :
  ∃ t, remove_all fault seqs d = (tt, mkDisk (delete_all seqs (dk_files d)) t).
Proof.
  revert d. induction seqs as [|s seqs IH]; intros d; [exists (dk_tick d); by destruct d|].
  cbn [remove_all]. unfold remove_file, bind at 1 2. rewrite io_clean. cbn.
  destruct (IH (mkDisk (delete (file_name s) (dk_files d)) (S (dk_tick d)))) as [t Ht]. by exists t.
Qed.

Lemma prune_dir_clean keep protect d :
  ∃ t, prune_dir fault keep protect d = (tt, mkDisk (prune_files keep protect (dk_files d)) t).
Proof.
  unfold prune_dir, read_seqs, bind at 1 2. rewrite io_clean. cbn. apply remove_all_clean.
Qed.

Lemma flush_clean w buffer d :
  ∃ t, flush_pending fault torn w buffer d
       = (mkWriter (wr_options w) (wr_written w + Z.of_nat (String.length buffer)) (wr_seq w),
          mkDisk (alter (λ c, c +:+ buffer) (file_name (wr_seq w)) (dk_files d)) t).
Proof.
  unfold flush_pending. destruct (String.eqb_spec buffer "") as [->|].
  - exists (dk_tick d). unfold ret. f_equal; [destruct w; cbn; f_equal; lia|]. destruct d as [m t]. cbn. f_equal.
    apply map_eq. intros name. destruct (decide (file_name (wr_seq w) = name)) as [<-|].
    + rewrite lookup_alter_eq. destruct (m !! _) as [c|]; [|done]. cbn. by rewrite app_nil_str_r.
    + by rewrite lookup_alter_ne.
  - unfold bind at 1. rewrite io_clean. unfold bind at 1. rewrite io_clean. cbn. by eexists.
Qed.

Lemma rotate_clean s0 r w d :
  archives s0 r w (dk_files d) → (wr_seq w < u64_max)%Z →
  ∃ t, rotate fault w d
       = (mkWriter (wr_options w) 0 (wr_seq w + 1),
          mkDisk (rotate_files (so_max_files (wr_options w)) (wr_seq w) (dk_files d)) t).
Proof.
  intros Ha Hmax. pose proof (ar_u64 _ _ _ _ Ha) as Hu. unfold rotate, rotate_files.
  rewrite succ_u64_small by (unfold is_u64 in Hu; lia).
  destruct (prune_dir_clean (so_max_files (wr_options w) - 1) (Some (wr_seq w)) d) as [t1 E1].
  rewrite (bind_run _ _ _ _ _ E1). unfold create, bind at 1 2. rewrite io_clean. cbn.
  unfold set_files. cbn [dk_files dk_tick].
  match goal with |- context [match ?x with Some _ => _ | None => _ end] => destruct x as [c|] eqn:Em end.
  { exfalso. apply prune_files_sub in Em.
      assert (wr_seq w + 1 ∈ seqs_of (dk_files d))%Z as Hin%(ar_newest _ _ _ _ Ha); [|lia].
      apply canonical_seqs; [apply Ha|]. split; [unfold is_u64 in *; lia|eauto]. }
  cbn. set (d2 := mkDisk _ _).
  destruct (prune_dir_clean (so_max_files (wr_options w)) (Some (wr_seq w + 1)%Z) d2) as [t2 E2].
  unfold bind. rewrite E2. by exists t2.
Qed.

(** The lines of a batch; an entry that does not serialize leaves none. *)
Definition lines (at_ : Z) (batch : list Entry) : list (option string) :=
  (λ e, encode encode_log encode_gap e at_) <$> batch.

Lemma roll_entry_eq max closed active closed1 active1 l :
  (if (max <=? Z.of_nat (String.length active))%Z then (closed ++ [active], "") else (closed, active))
  = (closed1, active1) →
  roll_entry max (closed, active) l
  = match l with Some record => (closed1, active1 +:+ record +:+ nl) | None => (closed1, active1) end.
Proof. unfold roll_entry. cbn [fst snd]. by intros ->. Qed.

(** The rotation check before a record; what is buffered counts as part of the
    active file. *)
Lemma make_room_clean s0 closed active w buffer d :
  archives s0 (closed, active) w (dk_files d) → (wr_seq w < u64_max)%Z →
  ∃ w1 b1 d1 closed1 active1,
    (if (so_max_bytes (wr_options w) <=? wr_written w + Z.of_nat (String.length buffer))%Z
     then w <- flush_pending fault torn w buffer;; w <- rotate fault w;; ret (w, "")
     else ret (w, buffer)) d = (w1, b1, d1)
    ∧ wr_options w1 = wr_options w ∧ (wr_seq w1 ≤ wr_seq w + 1)%Z
    ∧ (if (so_max_bytes (wr_options w) <=? Z.of_nat (String.length (active +:+ buffer)))%Z
       then (closed ++ [active +:+ buffer], "") else (closed, active +:+ buffer)) = (closed1, active1 +:+ b1)
    ∧ archives s0 (closed1, active1) w1 (dk_files d1).
Proof.
  intros Ha Hmax.
  replace (wr_written w + Z.of_nat (String.length buffer))%Z
    with (Z.of_nat (String.length (active +:+ buffer)))
    by (rewrite (ar_written _ _ _ _ Ha), length_app_str; cbn; lia).
  destruct (_ <=? _)%Z; cycle 1.
  { exists w, buffer, d, closed, active. split_and!; [done..|lia|done|done]. }
  destruct (flush_clean w buffer d) as [t1 E1]. pose proof (archives_append _ _ _ _ buffer Ha) as Ha1.
  destruct (rotate_clean _ _ _ (mkDisk (alter (λ c, c +:+ buffer) (file_name (wr_seq w)) (dk_files d)) t1) Ha1)
    as [t2 E2]; [done|].
  pose proof (archives_rotate _ _ _ _ Ha1 Hmax) as Ha2.
  rewrite (bind_run _ _ _ _ _ E1), (bind_run _ _ _ _ _ E2). unfold ret.
  do 3 eexists. exists (closed ++ [active +:+ buffer]), "". split_and!; [done|done|cbn; lia|done|exact Ha2].
Qed.

Lemma write_loop_clean s0 at_ batch closed active w buffer d :
  archives s0 (closed, active) w (dk_files d) →
  (wr_seq w + Z.of_nat (length batch) ≤ u64_max)%Z →
  ∃ w' d', write_loop fault torn encode_log encode_gap at_ w buffer batch d = (w', d')
    ∧ wr_options w' = wr_options w
    ∧ (wr_seq w' ≤ wr_seq w + Z.of_nat (length batch))%Z
    ∧ archives s0 (foldl (roll_entry (so_max_bytes (wr_options w))) (closed, active +:+ buffer) (lines at_ batch))
        w' (dk_files d').
Proof.
  revert closed active w buffer d. induction batch as [|e batch IH]; intros closed active w buffer d Ha Hseq.
  { destruct (flush_clean w buffer d) as [t E]. cbn [write_loop]. rewrite E. do 2 eexists.
    split_and!; [done|done|cbn; lia|]. apply (archives_append _ _ _ _ buffer Ha). }
  cbn [length] in Hseq. cbn [write_loop lines fmap list_fmap foldl].
  destruct (make_room_clean s0 closed active w buffer d Ha) as (w1 & b1 & d1 & closed1 & active1 & E1 & Ho & Hs & Hr & Ha1); [lia|].
  rewrite (bind_run _ _ _ _ _ E1). rewrite (roll_entry_eq _ _ _ _ _ _ Hr), <-Ho.
  destruct (encode encode_log encode_gap e at_) as [record|].
  - destruct (IH closed1 active1 w1 (b1 +:+ record +:+ nl) d1 Ha1) as (w' & d' & E & Ho' & Hs' & Ha'); [lia|].
    exists w', d'. rewrite app_assoc_str. split_and!; [done|done|cbn; lia|done].
  - destruct (IH closed1 active1 w1 b1 d1 Ha1) as (w' & d' & E & Ho' & Hs' & Ha'); [lia|].
    exists w', d'. split_and!; [done|done|cbn; lia|done].
Qed.

Lemma write_clean s0 at_ batch r w d :
  archives s0 r w (dk_files d) → (wr_seq w + Z.of_nat (length batch) ≤ u64_max)%Z →
  ∃ w' d', write fault torn encode_log encode_gap w batch at_ d = (w', d')
    ∧ wr_options w' = wr_options w ∧ (wr_seq w' ≤ wr_seq w + Z.of_nat (length batch))%Z
    ∧ archives s0 (foldl (roll_entry (so_max_bytes (wr_options w))) r (lines at_ batch)) w' (dk_files d').
Proof.
  destruct r as [closed active]. intros Ha Hs. unfold write. destruct batch as [|e batch].
  { exists w, d. split_and!; [done|done|cbn; lia|done]. }
  destruct (write_loop_clean s0 at_ (e :: batch) closed active w "" d Ha Hs) as (w' & d' & E & Ho & Hs' & Ha').
  exists w', d'. rewrite app_nil_str_r in Ha'. done.
Qed.

(** Opening the archive starts an empty rolling log after every older file. *)
Lemma open_clean options m t :
  canonical m → (∀ y, y ∈ seqs_of m → y < u64_max)%Z →
  ∃ w d, writer_open fault options (mkDisk m t) = (Ok w, d) ∧ wr_options w = options
    ∧ wr_seq w = (foldr Z.max 0 (seqs_of m) + 1)%Z ∧ archives (wr_seq w) ([], "") w (dk_files d).
Proof.
  intros Hc Hlt. set (top := foldr Z.max 0%Z (seqs_of m)).
  assert (Htop : (∀ y, y ∈ seqs_of m → y ≤ top)%Z ∧ (0 ≤ top < u64_max)%Z).
  { unfold top. clear -Hlt. induction (seqs_of m) as [|x l IH]; cbn; [unfold u64_max; split; [set_solver|lia]|].
    destruct IH as [IH1 IH2]; [set_solver|]. specialize (Hlt x ltac:(set_solver)).
    split; [|lia]. intros y [->|Hy%IH1]%elem_of_cons; lia. }
  destruct Htop as [Htop Hrange]. assert (Hu : is_u64 (top + 1)) by (unfold is_u64; lia).
  unfold writer_open, next_seq, read_seqs, bind_ok, bind at 1 2 3 4. rewrite io_clean. cbn. fold top.
  rewrite succ_u64_small by done.
  destruct (prune_dir_clean (so_max_files options - 1) None (mkDisk m (S t))) as [t1 E1]. cbn in E1.
  rewrite (bind_run _ _ _ _ _ E1). unfold create, bind at 1 2 3. rewrite io_clean. cbn.
  set (m1 := prune_files _ _ m). assert (Hc1 : canonical m1) by by apply prune_files_canonical.
  assert (Hsub : ∀ y, y ∈ seqs_of m1 → y ∈ seqs_of m) by (intros y; by apply prune_files_seqs).
  unfold set_files. cbn [dk_files dk_tick].
  match goal with |- context [match ?x with Some _ => _ | None => _ end] => destruct x as [c|] eqn:Em end.
  { exfalso. assert (top + 1 ∈ seqs_of m)%Z as Hin%Htop; [|lia].
    apply Hsub, canonical_seqs; [done|]. split; [done|eauto]. }
  do 2 eexists. split_and!; [done..|]. cbn [wr_seq dk_files].
  pose proof (canonical_insert (top + 1) m1 Hu Hc1) as Hc2.
  assert (Hin2 : ∀ y, y ∈ seqs_of (<[file_name (top + 1) := ""]> m1) → y ∈ (top + 1)%Z :: seqs_of m1)
    by (intros y Hy%seqs_insert; [by apply elem_of_cons|done..]).
  constructor; cbn [wr_seq wr_options wr_written fst snd length]; try done.
  - lia.
  - lia.
  - intros y [->|Hy%Hsub%Htop]%Hin2%elem_of_cons; lia.
  - etrans; [apply submseteq_length, NoDup_submseteq; [by apply canonical_NoDup|exact Hin2]|]. cbn.
    pose proof (prune_files_count (so_max_files options - 1) None m top Hc Htop (or_introl eq_refl)) as Hcount.
    fold m1 in Hcount. cbn in Hcount. lia.
  - intros i c Hi _. apply list_lookup_singleton_Some in Hi as [-> <-].
    by rewrite Z.add_0_r, lookup_insert_eq.
Qed.

(** ** The task *)
Lemma drain_n_spec room batch c batch' c' closed :
  drain_n room batch c = (batch', c', closed) →
  batch' ++ ch_queue c' = batch ++ ch_queue c ∧ (length batch' ≤ length batch + room)%nat
  ∧ ((length batch' < length batch + room)%nat → ch_queue c' = [])
  ∧ (closed = true → ch_queue c' = []).
Proof.
  revert batch c. induction room as [|room IH]; intros batch c; cbn.
  { intros [= <- <- <-]. split_and!; [done|lia|lia|done]. }
  destruct (ch_queue c) as [|e more] eqn:Eq.
  - intros [= <- <- <-]. rewrite Eq. split_and!; [done|lia|done|done].
  - intros (H1 & H2 & H3 & H4)%IH. cbn in H1. rewrite length_app in *. cbn in *.
    rewrite H1, <-app_assoc. split_and!; [done|lia| |done]. intros; apply H3; lia.
Qed.

(** A round hands over a prefix of the queue, and the loop ends only with
    nothing left in it. *)
Lemma round_spec (cancelled : bool) c batch c' stop :
  (if cancelled then Some (round_cancelled c) else round_received c) = Some (batch, c', stop) →
  batch ++ ch_queue c' = ch_queue c ∧ (stop = true → ch_queue c' = []).
Proof.
  destruct cancelled.
  - unfold round_cancelled, sink_drain. destruct (drain_n _ [] c) as [[b c1] closed] eqn:E.
    intros [= <- <- <-]. apply drain_n_spec in E as (H1 & _ & H3 & H4). split; [done|].
    intros [?|Hlt%Nat.ltb_lt]%orb_true_iff; [by apply H4|by apply H3].
  - unfold round_received, sink_drain. destruct (ch_queue c) as [|e more] eqn:Eq.
    + destruct (ch_closed c); [|done]. intros [= <- <- <-]. by rewrite Eq.
    + destruct (drain_n _ [e] _) as [[b c1] closed] eqn:E. intros [= <- <- <-].
      apply drain_n_spec in E as (H1 & _ & _ & H4). by split.
Qed.

(** The entries that arrive in the rounds the loop goes through. *)
Definition arrivals (rounds : list Round) : list Entry := concat (rd_arrivals <$> rounds).

Lemma run_clean s0 rounds r w c d :
  archives s0 r w (dk_files d) →
  (wr_seq w + Z.of_nat (length (ch_queue c ++ arrivals rounds)) ≤ u64_max)%Z →
  ∃ w' c' stop d' batches k,
    run_sink fault torn encode_log encode_gap rounds w c d = (w', c', stop, d')
    ∧ wr_options w' = wr_options w
    ∧ concat batches.*2 ++ ch_queue c' = ch_queue c ++ arrivals (take k rounds)
    ∧ (if stop then ch_queue c' = [] else k = length rounds)
    ∧ archives s0 (foldl (roll_entry (so_max_bytes (wr_options w))) r
                     (concat ((λ b, lines b.1 b.2) <$> batches))) w' (dk_files d').
Proof.
  revert r w c d. induction rounds as [|rd rounds IH]; intros r w c d Ha Hs.
  { exists w, c, false, d, [], 0%nat. split_and!; [done|done|by rewrite app_nil_r|done|done]. }
  cbn [run_sink]. set (c1 := arrive rd c).
  assert (Hq : ch_queue c ++ arrivals (rd :: rounds) = ch_queue c1 ++ arrivals rounds).
  { unfold arrivals, c1, arrive. cbn. by rewrite app_assoc. }
  rewrite Hq in Hs.
  assert (Hq' : ∀ k, ch_queue c ++ arrivals (take (S k) (rd :: rounds)) = ch_queue c1 ++ arrivals (take k rounds)).
  { intros k. unfold arrivals, c1, arrive. cbn. by rewrite app_assoc. }
  destruct (if rd_cancelled rd then _ else _) as [[[batch c2] stop]|] eqn:Er; cycle 1.
  { destruct (IH r w c1 d Ha Hs) as (w' & c' & stop & d' & bs & k & E & Ho & He & Hk & Ha').
    exists w', c', stop, d', bs, (S k). rewrite Hq'. split_and!; [done..| |done].
    destruct stop; [done|cbn; lia]. }
  destruct (round_spec _ _ _ _ _ Er) as [Hb Hstop].
  rewrite <-Hb in Hs. rewrite !length_app in Hs.
  destruct (write_clean s0 (rd_at rd) batch r w d Ha) as (w1 & d1 & E1 & Ho1 & Hs1 & Ha1); [lia|].
  rewrite (bind_run _ _ _ _ _ E1). destruct stop.
  - exists w1, c2, true, d1, [(rd_at rd, batch)], 1%nat. rewrite Hq'. cbn.
    rewrite !app_nil_r, Hb. split_and!; auto.
  - destruct (IH (foldl (roll_entry (so_max_bytes (wr_options w))) r (lines (rd_at rd) batch)) w1 c2 d1 Ha1)
      as (w' & c' & stop & d' & bs & k & E & Ho & He & Hk & Ha').
    { rewrite length_app. lia. }
    exists w', c', stop, d', ((rd_at rd, batch) :: bs), (S k). rewrite Hq'. cbn.
    rewrite Ho1 in Ha'.
    rewrite <-app_assoc, He, app_assoc, Hb, foldl_app. split_and!; [done|congruence|done| |done].
    destruct stop; [done|cbn; lia].
Qed.

(** ** The rolling log *)

(** The text of a list of lines. *)
Fixpoint render (ls : list (option string)) : string :=
  match ls with
  | [] => ""
  | Some record :: more => record +:+ nl +:+ render more
  | None :: more => render more
  end.

Definition text (files : list string) : string := foldr String.append "" files.

Lemma text_snoc files x : text (files ++ [x]) = text files +:+ x.
Proof.
  induction files as [|y files IH]; cbn; [by rewrite app_nil_str_r|].
  unfold text in IH. by rewrite IH, app_assoc_str.
Qed.

(** Rolling loses nothing and bounds every file by one record. *)
Lemma roll_spec max limit ls r :
  (∀ record, Some record ∈ ls → Z.of_nat (String.length (record +:+ nl)) ≤ limit)%Z → (0 ≤ limit)%Z →
  Forall (λ f, Z.of_nat (String.length f) < 1 `max` max + limit)%Z (r.1 ++ [r.2]) →
  let r' := foldl (roll_entry max) r ls in
  text (r'.1 ++ [r'.2]) = text (r.1 ++ [r.2]) +:+ render ls
  ∧ Forall (λ f, Z.of_nat (String.length f) < 1 `max` max + limit)%Z (r'.1 ++ [r'.2]).
Proof.
  intros Hl Hlim. revert r. induction ls as [|l ls IH]; intros r Hr; cbn [foldl].
  { split; [|done]. cbn. by rewrite app_nil_str_r. }
  assert (Hone : text ((roll_entry max r l).1 ++ [(roll_entry max r l).2])
                 = text (r.1 ++ [r.2]) +:+ render [l]
                 ∧ Forall (λ f, Z.of_nat (String.length f) < 1 `max` max + limit)%Z
                     ((roll_entry max r l).1 ++ [(roll_entry max r l).2])).
  { destruct r as [closed active]. cbn [fst snd] in Hr |- *.
    assert (Hrec : ∀ record, l = Some record → (Z.of_nat (String.length (record +:+ nl)) ≤ limit)%Z)
      by (intros record ->; apply Hl; set_solver).
    destruct (max <=? Z.of_nat (String.length active))%Z eqn:E.
    all: rewrite (roll_entry_eq max closed active _ _ l ltac:(by rewrite E)).
    all: destruct l as [record|]; cbn [fst snd render]; rewrite !text_snoc, ?app_nil_str_r, ?app_assoc_str.
    all: split; [done|]. all: apply Forall_app in Hr as [Hc Ha].
    all: repeat (apply Forall_app; split); try done; try (apply Forall_singleton).
    - specialize (Hrec record eq_refl). rewrite app_nil_l_str. lia.
    - cbn. lia.
    - specialize (Hrec record eq_refl). rewrite length_app_str, Nat2Z.inj_add.
      apply Z.leb_gt in E. lia. }
  destruct Hone as [Ht Hf]. destruct (IH ltac:(set_solver) _ Hf) as [Ht' Hf']. split; [|done].
  rewrite Ht', Ht, app_assoc_str. f_equal. by destruct l; cbn; rewrite ?app_nil_str_r, ?app_assoc_str.
Qed.

End Clean.

(** * Concrete archives *)

Definition demo_gap (dropped at_ : Z) : option string := Some ("gap " +:+ fmt_u64 dropped).
Definition demo_log (f : LogFrame) : option string := Some (fr_message f).
Definition demo_options : SinkOptions := mkSinkOptions 5 2.
Definition demo_dir : gmap string string := {[ "core-000007.jsonl" := "old"; "notes.txt" := "mine" ]}.
Definition demo_rounds : list Round :=
  [mkRound [EGap 1; EGap 2] false false 0; mkRound [EGap 3] false true 1].

Lemma demo_dir_names name n : is_Some (demo_dir !! name) → file_seq name = Some n → name = file_name 7 ∧ n = 7%Z.
Proof.
  assert (E7 : file_seq "core-000007.jsonl" = Some 7%Z) by by vm_compute.
  assert (En : file_seq "notes.txt" = None) by by vm_compute.
  intros [c Hc]. unfold demo_dir in Hc. destruct (decide (name = "core-000007.jsonl")) as [->|].
  - rewrite E7. intros [= <-]. split; [by vm_compute|done].
  - rewrite lookup_insert_ne in Hc by done.
    apply lookup_singleton_Some in Hc as [<- _]. by rewrite En.
Qed.

Lemma demo_dir_canonical : canonical demo_dir.
Proof. intros name n Hs Hn. by destruct (demo_dir_names name n Hs Hn) as [-> ->]. Qed.

Lemma demo_dir_seqs y : y ∈ seqs_of demo_dir → y = 7%Z.
Proof. intros (name & Hs & Hn)%elem_of_seqs_of. by destruct (demo_dir_names name y Hs Hn). Qed.


Lemma ok_result {S A E} (x : result A E * S) : res_is_ok x.1 = true → ∃ a s, x = (Ok a, s).
Proof. destruct x as [[a|e] s]; cbn; [by eauto|done]. Qed.

Definition demo_fault (n : nat) : bool := (n =? 6)%nat.

(** The same archive on a disk whose seventh call fails. *)
Lemma active_file_survives_witness :
  ∃ w0 d0, writer_open demo_fault demo_options (mkDisk demo_dir 0) = (Ok w0, d0)
  ∧ let '(w, _, _, d) := run_sink demo_fault (λ _, 1%nat) (λ _, None) demo_gap demo_rounds w0 (mkChan [] false) d0 in
    is_Some (dk_files d !! file_name (wr_seq w))
    ∧ ∀ name, file_seq name = None → dk_files d !! name = demo_dir !! name.
Proof.
  destruct (ok_result (writer_open demo_fault demo_options (mkDisk demo_dir 0))) as (w0 & d0 & E); [by vm_compute|].
  exists w0, d0. split; [exact E|].
  exact (active_file_survives demo_fault (λ _, 1%nat) (λ _, None) demo_gap demo_dir demo_options 0 w0 d0 E
           demo_rounds (mkChan [] false)).
Defined.

(** A name the writer never gives is taken for a log file. *)
Theorem unpadded_name_is_a_log_name :
  file_seq "core-1.jsonl" = Some 1%Z ∧ file_name 1 ≠ "core-1.jsonl".
Proof. by vm_compute. Qed.
