(* ===== verification/Instance.v ===== *)
(** One epoch of a core (instance.rs, health/driver.rs): the monitor loop, the
    probe driver, log diagnostics, waiting for readiness and stopping.

    The process supervisor, the pid-record reaper and the clocks are outside
    the repository: what they report in a round is an input of that round.  A
    round of a [select!] loop is one step, the wait for the supervisor's
    acknowledgement included. *)
From S2P Require Import Prelude Text Paths Metadata Types Health Log.
From Stdlib Require String Ascii.
From Stdlib Require Import ZArith Lia.

Definition LOG_TAIL_FRAMES : nat := 32.

(** [TerminatedPayload]; of its fields the source reads the exit code. *)
Record TerminatedPayload := mkTerminated { tp_code : option Z }.

(** [SupervisorEvent]; [SupOther] is the catch-all of the source. *)
Inductive SupervisorEvent :=
| SupStarted (pid : Z)
| SupRestarting (attempt : Z)
| SupExited (payload : TerminatedPayload)
| SupGaveUp
| SupStopped
| SupOther.

(** * The probe driver *)

(** A [oneshot] response is named by a number. *)
Inductive DriverCommand := UseLiveness | DReconcile (response : Z).

Record Driver := mkDriver {
  dv_run_id : Z;
  dv_pid : Z;
  dv_liveness : bool;
  dv_interval : Z;
  dv_periodic : option ProbePhase;
  dv_next_probe : Z;
  dv_commands : list DriverCommand;
}.

(** [ProbeDriver::start]. *)
Definition driver_start (run_id pid : Z) (liveness : bool) (policy : HealthPolicy) (now : Z) : Driver :=
  mkDriver run_id pid liveness (hp_interval policy) (Some Readiness) now [].

(** [use_liveness] and [reconcile]. *)
Definition driver_send (c : DriverCommand) (d : Driver) : Driver :=
  mkDriver (dv_run_id d) (dv_pid d) (dv_liveness d) (dv_interval d) (dv_periodic d) (dv_next_probe d)
    (dv_commands d ++ [c]).

(** One round of the driver's loop while it is not cancelled: the driver after
    it, the observation it sends and the response it answers.  [ended] and the
    clock readings are those of the attempt, if there is one. *)
Definition driver_round (d : Driver) (timeout_debug : string) (ended : AttemptEnd) (now done_at done_ms : Z) :
    Driver * option ProbeObservation * option (Z * ProbeResult) :=
  let attempt phase := run_attempt (dv_run_id d) (dv_pid d) phase timeout_debug ended done_at done_ms in
  match dv_commands d with
  | UseLiveness :: more =>
      (mkDriver (dv_run_id d) (dv_pid d) (dv_liveness d) (dv_interval d)
         (if dv_liveness d then Some Liveness else None) (now + dv_interval d) more, None, None)
  | DReconcile response :: more =>
      let d' := mkDriver (dv_run_id d) (dv_pid d) (dv_liveness d) (dv_interval d) (dv_periodic d)
                  (dv_next_probe d) more in
      match attempt ReconcilePhase with
      | Some o => (d', Some o, Some (response, ob_result o))
      | None => (d', None, None)
      end
  | [] =>
      match dv_periodic d with
      | Some phase =>
          if (dv_next_probe d <=? now)%Z
          then (mkDriver (dv_run_id d) (dv_pid d) (dv_liveness d) (dv_interval d) (dv_periodic d)
                  (done_at + dv_interval d) [], attempt phase, None)
          else (d, None, None)
      | None => (d, None, None)
      end
  end.

(** * State *)

Record RunState := mkRun {
  rn_run_id : Z;
  rn_pid : Z;
  rn_ack_attempted : bool;
  rn_ready : bool;
  rn_tracker : HealthTracker;
}.

Section Instance.
Context `{PL : ProcessLib} `{CH : Chrono}.

(** [Shared]; [sh_sent] is what went to the log channel so far, and
    [sh_supervisor] says that the slot still holds the supervisor. *)
Record Shared := mkShared {
  sh_status : InstanceStatus;
  sh_user_stop : bool;
  sh_probe_timeout : bool;
  sh_parser : LogParser;
  sh_tail : list LogFrame;
  sh_sent : list LogFrame;
  sh_cancel : bool;
  sh_probe_cancel : bool;
  sh_supervisor : bool;
}.

(** The variables and channels of [monitor_loop]. *)
Record Loop := mkLoop {
  lo_ever_ready : bool;
  lo_timeout_fired : bool;
  lo_probes_cancelled : bool;
  lo_next_run_id : Z;
  lo_current : option RunState;
  lo_driver : option Driver;
  lo_respawn_deadline : option Z;
  lo_last_exit : option TerminatedPayload;
  lo_observations : list ProbeObservation;
  lo_requests : list Z;
  lo_answers : list (Z * ProbeResult);
  lo_returned : bool;
}.

Record Inst := mkInst { in_shared : Shared; in_loop : Loop }.

Definition on_shared (f : Shared → Shared) (i : Inst) : Inst := mkInst (f (in_shared i)) (in_loop i).
Definition on_loop (f : Loop → Loop) (i : Inst) : Inst := mkInst (in_shared i) (f (in_loop i)).

Definition set_status (x : InstanceStatus) (s : Shared) : Shared :=
  mkShared x (sh_user_stop s) (sh_probe_timeout s) (sh_parser s) (sh_tail s) (sh_sent s) (sh_cancel s)
    (sh_probe_cancel s) (sh_supervisor s).
Definition set_user_stop (s : Shared) : Shared :=
  mkShared (sh_status s) true (sh_probe_timeout s) (sh_parser s) (sh_tail s) (sh_sent s) (sh_cancel s)
    (sh_probe_cancel s) (sh_supervisor s).
Definition set_probe_timeout (s : Shared) : Shared :=
  mkShared (sh_status s) (sh_user_stop s) true (sh_parser s) (sh_tail s) (sh_sent s) (sh_cancel s)
    (sh_probe_cancel s) (sh_supervisor s).
Definition set_logs (p : LogParser) (tail sent : list LogFrame) (s : Shared) : Shared :=
  mkShared (sh_status s) (sh_user_stop s) (sh_probe_timeout s) p tail sent (sh_cancel s)
    (sh_probe_cancel s) (sh_supervisor s).
Definition cancel_probes (s : Shared) : Shared :=
  mkShared (sh_status s) (sh_user_stop s) (sh_probe_timeout s) (sh_parser s) (sh_tail s) (sh_sent s)
    (sh_cancel s) true (sh_supervisor s).
Definition cancel_all (s : Shared) : Shared :=
  mkShared (sh_status s) (sh_user_stop s) (sh_probe_timeout s) (sh_parser s) (sh_tail s) (sh_sent s)
    true (sh_probe_cancel s) (sh_supervisor s).
Definition take_supervisor (s : Shared) : Shared :=
  mkShared (sh_status s) (sh_user_stop s) (sh_probe_timeout s) (sh_parser s) (sh_tail s) (sh_sent s)
    (sh_cancel s) (sh_probe_cancel s) false.

(** The assignments of the loop, grouped as the arms make them. *)
Definition set_run (current : option RunState) (respawn : option Z) (l : Loop) : Loop :=
  mkLoop (lo_ever_ready l) (lo_timeout_fired l) (lo_probes_cancelled l) (lo_next_run_id l) current
    (lo_driver l) respawn (lo_last_exit l) (lo_observations l) (lo_requests l) (lo_answers l) (lo_returned l).
Definition set_driver (d : option Driver) (l : Loop) : Loop :=
  mkLoop (lo_ever_ready l) (lo_timeout_fired l) (lo_probes_cancelled l) (lo_next_run_id l) (lo_current l)
    d (lo_respawn_deadline l) (lo_last_exit l) (lo_observations l) (lo_requests l) (lo_answers l) (lo_returned l).
Definition set_ever_ready (l : Loop) : Loop :=
  mkLoop true (lo_timeout_fired l) (lo_probes_cancelled l) (lo_next_run_id l) (lo_current l)
    (lo_driver l) (lo_respawn_deadline l) (lo_last_exit l) (lo_observations l) (lo_requests l) (lo_answers l)
    (lo_returned l).
Definition set_timeout_fired (l : Loop) : Loop :=
  mkLoop (lo_ever_ready l) true (lo_probes_cancelled l) (lo_next_run_id l) (lo_current l)
    (lo_driver l) (lo_respawn_deadline l) (lo_last_exit l) (lo_observations l) (lo_requests l) (lo_answers l)
    (lo_returned l).
Definition set_probes_cancelled (l : Loop) : Loop :=
  mkLoop (lo_ever_ready l) (lo_timeout_fired l) true (lo_next_run_id l) (lo_current l)
    (lo_driver l) (lo_respawn_deadline l) (lo_last_exit l) (lo_observations l) (lo_requests l) (lo_answers l)
    (lo_returned l).
Definition set_next_run_id (n : Z) (l : Loop) : Loop :=
  mkLoop (lo_ever_ready l) (lo_timeout_fired l) (lo_probes_cancelled l) n (lo_current l)
    (lo_driver l) (lo_respawn_deadline l) (lo_last_exit l) (lo_observations l) (lo_requests l) (lo_answers l)
    (lo_returned l).
Definition set_last_exit (p : TerminatedPayload) (l : Loop) : Loop :=
  mkLoop (lo_ever_ready l) (lo_timeout_fired l) (lo_probes_cancelled l) (lo_next_run_id l) (lo_current l)
    (lo_driver l) (lo_respawn_deadline l) (Some p) (lo_observations l) (lo_requests l) (lo_answers l)
    (lo_returned l).
Definition set_queues (obs : list ProbeObservation) (reqs : list Z) (answers : list (Z * ProbeResult))
    (l : Loop) : Loop :=
  mkLoop (lo_ever_ready l) (lo_timeout_fired l) (lo_probes_cancelled l) (lo_next_run_id l) (lo_current l)
    (lo_driver l) (lo_respawn_deadline l) (lo_last_exit l) obs reqs answers (lo_returned l).
Definition set_returned (l : Loop) : Loop :=
  mkLoop (lo_ever_ready l) (lo_timeout_fired l) (lo_probes_cancelled l) (lo_next_run_id l) (lo_current l)
    (lo_driver l) (lo_respawn_deadline l) (lo_last_exit l) (lo_observations l) (lo_requests l) (lo_answers l)
    true.

(** What [spawn_configured] builds before the supervisor starts. *)
Definition instance_new (kind : ClashCoreKind) (epoch now_ms : Z) : Inst :=
  mkInst (mkShared (instance_status_initial now_ms) false false (parser_new kind epoch) [] [] false false true)
    (mkLoop false false false 0 None None None None [] [] [] false).

(** * Publication *)

(** [Shared::publish]. *)
Definition publish (state : InstanceState) (s : Shared) : Shared :=
  let st := sh_status s in
  match state with
  | IStopping | IStopped _ => set_status (mkInstanceStatus None state None) s
  | _ => set_status (mkInstanceStatus (st_instance_id st) state (st_health st)) s
  end.

(** [Shared::publish_log_frame]. *)
Definition publish_log_frame (s : Shared) (f : LogFrame) : Shared :=
  let tail := if (length (sh_tail s) =? LOG_TAIL_FRAMES)%nat then drop 1 (sh_tail s) else sh_tail s in
  set_logs (sh_parser s) (tail ++ [f]) (sh_sent s ++ [f]) s.

(** The [on_process_event] callback; a panic of the parser is [None]. *)
Inductive ProcessEvent := PStdout (line : string) | PStderr (line : string) | PTerminated | POther.

Definition publish_frames (frames : list LogFrame) (s : Shared) : Shared :=
  foldl publish_log_frame s frames.

(** [Shared::flush_log_record]. *)
Definition flush_log_record (s : Shared) : Shared :=
  let '(frames, p) := finish (sh_parser s) in
  publish_frames frames (set_logs p (sh_tail s) (sh_sent s) s).

Definition on_process_event (ev : ProcessEvent) (at_ : Observed) (s : Shared) : option Shared :=
  let parse stream line :=
    match push_at (sh_parser s) stream line at_ with
    | Val (frames, p) => Some (publish_frames frames (set_logs p (sh_tail s) (sh_sent s) s))
    | Panic => None
    end in
  match ev with
  | PStdout line => parse Stdout line
  | PStderr line => parse Stderr line
  | PTerminated => Some (flush_log_record s)
  | POther => Some s
  end.

(** [Shared::diagnostics] and [Shared::failure_summary], with the flush. *)
Definition diagnostics (s : Shared) : string * Shared :=
  let s := flush_log_record s in (format_tail (sh_tail s), s).
Definition failure_summary (lifecycle : string) (s : Shared) : string * Shared :=
  let s := flush_log_record s in
  (match error_summary (sh_tail s) with Some cause => cause | None => lifecycle end, s).

(** [publish_terminal]; [exit_debug] is the [Debug] text of the exit. *)
Definition publish_terminal (exit_debug : option TerminatedPayload → string)
    (last_exit : option TerminatedPayload) (s : Shared) : Shared :=
  let s := flush_log_record s in
  let '(reason, s) :=
    if sh_user_stop s then (User, s)
    else if sh_probe_timeout s
    then let '(text, s) := diagnostics s in (SError ("health probe timed out" +:+ nl +:+ text), s)
    else if (if last_exit is Some p then bool_decide (tp_code p = Some 0%Z) else false) then (Finished, s)
    else let '(text, s) := diagnostics s in
         (SError ("core exited unexpectedly (" +:+ exit_debug last_exit +:+ ")" +:+ nl +:+ text), s) in
  set_status (mkInstanceStatus None (IStopped reason) None) s.

(** * Health *)

(** [reset_starting_health]. *)
Definition reset_starting_health (previous : option HealthStatus) (now_ms : Z) : HealthStatus :=
  mkHealthStatus HStarting
    (match previous with
     | Some p => if bool_decide (hs_state p = HStarting) then hs_changed_at p else now_ms
     | None => now_ms
     end) 0 None None.

Definition health_state_of (t : TrackerState) : HealthState :=
  match t with TStarting => HStarting | THealthy => HHealthy | TUnhealthy => HUnhealthy end.

(** [health_status]. *)
Definition health_status (previous : option HealthStatus) (update : TrackerUpdate) (o : ProbeObservation) :
    HealthStatus :=
  let state := health_state_of (tu_state update) in
  mkHealthStatus state
    (match previous with
     | Some p => if bool_decide (hs_state p = state) then hs_changed_at p else ob_completed_at_ms o
     | None => ob_completed_at_ms o
     end)
    (tu_consecutive_failures update) (tu_last_error update)
    (if is_healthy (ob_result o) then Some (ob_completed_at_ms o) else previous ≫= hs_last_success_at).

(** [observation_applies]. *)
Definition observation_applies (o : ProbeObservation) (run : RunState) : bool :=
  (ob_run_id o =? rn_run_id run)%Z && (ob_pid o =? rn_pid run)%Z.

(** * The monitor loop *)

(** What the loop was started with. *)
Record MonitorArgs := mkMonitorArgs {
  ma_policy : HealthPolicy;
  ma_startup_timeout : Z;
  ma_initial_deadline : Z;
  ma_liveness : bool;
  ma_exit_debug : option TerminatedPayload → string;
}.

(** What the world offers in a round: the clocks, a fresh id, what the event
    channel has ([Some None]: it is closed), and the supervisor's answer to an
    acknowledgement, should the round ask for one. *)
Record Ready := mkReady {
  rdy_now : Z;
  rdy_now_ms : Z;
  rdy_uuid : Uuid;
  rdy_event : option (option SupervisorEvent);
  rdy_ack : bool;
}.

Context (a : MonitorArgs).

(** [shared.publish_status] with a new health and lifecycle state. *)
Definition publish_health (id : option Uuid) (state : InstanceState) (h : HealthStatus) : Inst → Inst :=
  on_shared (set_status (mkInstanceStatus id state (Some h))).

(** [ProbeReconcile::apply]. *)
Definition apply (ack : bool) (o : ProbeObservation) (i : Inst) : bool * Inst :=
  let l := in_loop i in
  match lo_current l with
  | None => (false, i)
  | Some run =>
      if negb (observation_applies o run) then (false, i)
      else
        let beyond_initial := negb (lo_ever_ready l) && (ma_initial_deadline a <? ob_completed_at o)%Z in
        let beyond_respawn :=
          match lo_respawn_deadline l with Some d => (d <? ob_completed_at o)%Z | None => false end in
        if beyond_initial || beyond_respawn then (false, i)
        else
          let '(update, tracker) := observe (ob_completed_at o) (ob_result o) (rn_tracker run) in
          let should_ack := negb (rn_ack_attempted run) && bool_decide (tu_state update = THealthy) in
          let st := sh_status (in_shared i) in
          let health := health_status (st_health st) update o in
          if should_ack then
            let run := mkRun (rn_run_id run) (rn_pid run) true (rn_ready run) tracker in
            if sh_supervisor (in_shared i) && ack then
              let run := mkRun (rn_run_id run) (rn_pid run) true true tracker in
              (true,
               publish_health (st_instance_id st) (IRunning (rn_pid run)) health
                 (on_loop (λ l, set_driver (driver_send UseLiveness <$> lo_driver l)
                                  (set_run (Some run) None (set_ever_ready l))) i))
            else (false, on_loop (set_run (Some run) (lo_respawn_deadline l)) i)
          else
            let run := mkRun (rn_run_id run) (rn_pid run) (rn_ack_attempted run) (rn_ready run) tracker in
            (false,
             publish_health (st_instance_id st) (st_state st) health
               (on_loop (set_run (Some run) (lo_respawn_deadline l)) i))
  end.

Definition set_observations (obs : list ProbeObservation) (l : Loop) : Loop :=
  set_queues obs (lo_requests l) (lo_answers l) l.

(** [ProbeReconcile::drain]. *)
Fixpoint reconcile_drain (ack : bool) (obs : list ProbeObservation) (i : Inst) : bool * Inst :=
  match obs with
  | [] => (false, on_loop (set_observations []) i)
  | o :: more =>
      let '(became_ready, i) := apply ack o i in
      if became_ready then (true, on_loop (set_observations more) i)
      else reconcile_drain ack more i
  end.

(** [stop_probe_driver]: it returns when the driver's task has ended. *)
Definition stop_probe_driver : Inst → Inst := on_loop (set_driver None).

(** The arm of [probe_cancel.cancelled()]. *)
Definition on_probe_cancel (i : Inst) : Inst :=
  on_loop (set_run None None) (stop_probe_driver (on_loop set_probes_cancelled i)).

Definition return_with (f : Shared → Shared) (i : Inst) : Inst := on_loop set_returned (on_shared f i).

Definition gave_up (s : Shared) : Shared :=
  let '(text, s) := diagnostics s in
  set_status (mkInstanceStatus None
    (IStopped (SError ("core kept crashing; restart budget exhausted" +:+ nl +:+ text))) None) s.

(** The arm of [events.recv()]. *)
Definition on_event (r : Ready) (ev : option SupervisorEvent) (i : Inst) : Inst :=
  match ev with
  | Some (SupStarted pid) =>
      let i := stop_probe_driver i in
      let run_id := Z.min (lo_next_run_id (in_loop i) + 1) u64_max in
      let st := sh_status (in_shared i) in
      let i := on_loop (set_next_run_id run_id) i in
      let i := publish_health (Some (rdy_uuid r)) (st_state st)
                 (reset_starting_health (st_health st) (rdy_now_ms r)) i in
      let run := mkRun run_id pid false false (tracker_new (ma_policy a) (rdy_now r)) in
      let respawn := if lo_ever_ready (in_loop i) then Some (rdy_now r + ma_startup_timeout a)%Z else None in
      let i := on_loop (set_run (Some run) respawn) i in
      if lo_probes_cancelled (in_loop i) then i
      else on_loop (set_driver (Some (driver_start run_id pid (ma_liveness a) (ma_policy a) (rdy_now r)))) i
  | Some (SupRestarting attempt) =>
      let i := on_loop (set_run None None) (stop_probe_driver i) in
      publish_health None (IRestarting attempt)
        (reset_starting_health (st_health (sh_status (in_shared i))) (rdy_now_ms r)) i
  | Some (SupExited payload) =>
      on_loop (set_last_exit payload) (on_loop (set_run None None) (stop_probe_driver i))
  | Some SupGaveUp => return_with gave_up (stop_probe_driver i)
  | Some SupStopped =>
      let i := stop_probe_driver i in
      return_with (publish_terminal (ma_exit_debug a) (lo_last_exit (in_loop i))) i
  | Some SupOther => i
  | None => return_with (publish_terminal (ma_exit_debug a) (lo_last_exit (in_loop i))) i
  end.

(** The end of both deadline arms: the probe timed out. *)
Definition probe_timed_out (i : Inst) : Inst :=
  on_shared (λ s, cancel_all (cancel_probes (set_probe_timeout s)))
    (stop_probe_driver (on_loop (set_run None None) i)).

Definition on_initial_deadline (r : Ready) (i : Inst) : Inst :=
  let '(became_ready, i) := reconcile_drain (rdy_ack r) (lo_observations (in_loop i)) i in
  if negb became_ready && negb (lo_ever_ready (in_loop i))
  then probe_timed_out (on_loop set_timeout_fired i) else i.

Definition on_respawn_deadline (r : Ready) (i : Inst) : Inst :=
  let '(became_ready, i) := reconcile_drain (rdy_ack r) (lo_observations (in_loop i)) i in
  if negb became_ready && bool_decide (is_Some (lo_respawn_deadline (in_loop i)))
  then probe_timed_out i else i.

Definition answer (response : Z) (x : ProbeResult) (l : Loop) : Loop :=
  set_queues (lo_observations l) (lo_requests l) (lo_answers l ++ [(response, x)]) l.

(** The arm of [probe_requests.recv()]. *)
Definition on_request (response : Z) (more : list Z) (i : Inst) : Inst :=
  let i := on_loop (λ l, set_queues (lo_observations l) more (lo_answers l) l) i in
  if (if lo_current (in_loop i) is Some run then rn_ready run else false)
  then match lo_driver (in_loop i) with
       | Some d => on_loop (set_driver (Some (driver_send (DReconcile response) d))) i
       | None => on_loop (answer response (Unhealthy (Some "instance probe driver is not running"))) i
       end
  else on_loop (answer response (Unhealthy (Some "instance is not running"))) i.

(** One round of the biased [select!]; [None] while nothing is ready. *)
Definition monitor_round (r : Ready) (i : Inst) : option Inst :=
  let l := in_loop i in
  if lo_returned l then None
  else if sh_probe_cancel (in_shared i) && negb (lo_probes_cancelled l) then Some (on_probe_cancel i)
  else match rdy_event r with
  | Some ev => Some (on_event r ev i)
  | None =>
      if negb (lo_ever_ready l) && negb (lo_timeout_fired l) && (ma_initial_deadline a <=? rdy_now r)%Z
      then Some (on_initial_deadline r i)
      else if (if lo_respawn_deadline l is Some d then (d <=? rdy_now r)%Z else false)
      then Some (on_respawn_deadline r i)
      else match lo_requests l, lo_observations l with
      | response :: more, _ => Some (on_request response more i)
      | [], o :: more => Some (apply (rdy_ack r) o (on_loop (set_observations more) i)).2
      | [], [] => None
      end
  end.

(** A round of the driver's task, seen from the instance. *)
Definition driver_step (timeout_debug : string) (ended : AttemptEnd) (now done_at done_ms : Z) (i : Inst) : Inst :=
  match lo_driver (in_loop i) with
  | None => i
  | Some d =>
      let '(d', o, ans) := driver_round d timeout_debug ended now done_at done_ms in
      on_loop (λ l, set_driver (Some d')
        (set_queues (lo_observations l ++ option_list o) (lo_requests l) (lo_answers l ++ option_list ans) l)) i
  end.
End Instance.

Section Public.
Context `{PL : ProcessLib} `{CH : Chrono}.

(** * Starting *)

(** [epoch_pid_path]. *)
Definition epoch_pid_path (spec : InstanceSpec) (epoch : Epoch) : option string :=
  match is_pid_file spec with
  | None => None
  | Some pid_file =>
      let expected_pid := "core-" +:+ fmt_u64 epoch +:+ ".pid" in
      let expected_config := "config-" +:+ fmt_u64 epoch +:+ ".yaml" in
      if bool_decide (file_name pid_file = Some expected_pid)
         && bool_decide (file_name (is_config_path spec) = Some expected_config)
         && bool_decide (parent pid_file = parent (is_config_path spec))
      then Some pid_file else None
  end.

(** How the process records its pid. *)
Inductive PidRecord :=
| NoPidFile
| PlainPidFile (path : string)
| EpochPidFile (path runtime_config : string) (epoch : Epoch).

(** [nyanpasu_utils::process::Command], as the source fills it. *)
Record Command := mkCommand {
  cmd_program : string;
  cmd_args : list string;
  cmd_env : list (string * string);
  cmd_dir : string;
  cmd_pid : PidRecord;
}.

(** [build_command]; every kind has arguments, so its [expect] holds. *)
Definition build_command (spec : InstanceSpec) (epoch : Epoch) (controller : ResolvedController)
    (pipe_security_descriptor : option string) : Command :=
  let args :=
    match run_args (cs_kind (is_core spec)) (core_paths spec) with Ok args => args | Err _ => [] end in
  let config_dir := default (is_config_path spec) (parent (is_config_path spec)) in
  mkCommand (cs_binary_path (is_core spec))
    (args ++ controller_args (cs_kind (is_core spec)) (rc_host controller))
    ([(MIHOMO_SAFE_PATHS_ENV_NAME, mihomo_safe_paths (is_working_dir spec) config_dir);
      (CLICOLOR_FORCE_ENV_NAME, "0")]
     ++ match pipe_security_descriptor with Some sddl => [("LISTEN_NAMEDPIPE_SDDL", sddl)] | None => [] end)
    (is_working_dir spec)
    (match is_pid_file spec with
     | None => NoPidFile
     | Some pid_file =>
         if epoch_pid_path spec epoch is Some _ then EpochPidFile pid_file (is_config_path spec) epoch
         else PlainPidFile pid_file
     end).

(** The refusals of [spawn_configured] before anything starts; [exists_] is
    [tokio::fs::metadata(..).is_ok()]. *)
Definition spawn_check (exists_ : string → bool) (spec : InstanceSpec) : result unit Error :=
  if negb (exists_ (is_config_path spec)) then Err (ConfigNotFound (is_config_path spec))
  else if negb (exists_ (cs_binary_path (is_core spec))) then Err (BinaryNotFound (cs_binary_path (is_core spec)))
  else res_map (λ _, tt) (run_args (cs_kind (is_core spec)) (core_paths spec)).

(** * Waiting *)


(** One look of [wait_ready] at the status; [None]: it waits for a change.
    The channel cannot close, since the instance holds its sender. *)
Definition wait_ready (s : Shared) : option (result unit Error) * Shared :=
  match st_state (sh_status s) with
  | IRunning _ => (Some (Ok tt), s)
  | IStopped reason =>
      let text := match reason with
                  | SError text => text
                  | Finished => "stopped before ready: Finished"
                  | User => "stopped before ready: User"
                  end in
      let '(stderr_tail, s) := failure_summary text s in
      (Some (Err (if sh_probe_timeout s then StartupTimeout stderr_tail else StartupFailed stderr_tail)), s)
  | _ => (None, s)
  end.

(** [pid]. *)
Definition instance_pid (s : Shared) : option Z :=
  match st_state (sh_status s) with IRunning pid => Some pid | _ => None end.

(** The entry of [probe_now]: the answer at once, or the request queued under
    the number of its response; the request channel is closed when the loop
    has returned. *)
Definition probe_now (phase : ProbePhase) (response : Z) (i : Inst) : option ProbeResult * Inst :=
  match phase with
  | ReconcilePhase =>
      if lo_returned (in_loop i)
      then (Some (Unhealthy (Some "instance probe monitor is not running")), i)
      else (None, on_loop (λ l, set_queues (lo_observations l) (lo_requests l ++ [response]) (lo_answers l) l) i)
  | _ => (Some (Unhealthy (Some "only reconciliation probes can be requested directly")), i)
  end.

(** * Stopping *)

(** [OrphanReapOutcome]; [ReapOther] stands for the outcomes the source does
    not name. *)
Inductive OrphanReapOutcome := NotFound | AlreadyExited | Killed | ReapOther.

#[export] Instance OrphanReapOutcome_eq_dec : EqDecision OrphanReapOutcome.
Proof. solve_decision. Defined.

(** How [timeout(.., supervisor.stop())] ends. *)
Inductive SupervisorStop := StopDone | StopAlreadyExited | StopFailed (message : string) | StopTimedOut.

(** What stopping meets, besides the state: whether the pid record exists, what
    the reaper says, how the supervisor's stop ends, whether the monitor's task
    is joined in time, and the [Debug] text of the time limit. *)
Record StopWorld := mkStopWorld {
  sw_record_exists : result bool string;
  sw_reap : result OrphanReapOutcome string;
  sw_supervisor : SupervisorStop;
  sw_monitor_joined : bool;
  sw_timeout_debug : string;
}.

(** [reap_epoch_record_if_present]. *)
Definition reap_epoch_record_if_present (spec : InstanceSpec) (epoch : Epoch) (w : StopWorld) : result unit Error :=
  match epoch_pid_path spec epoch with
  | None => Ok tt
  | Some _ =>
      match sw_record_exists w with
      | Err e => Err (Io e)
      | Ok false => Ok tt
      | Ok true =>
          if parent (is_config_path spec) is Some _
          then res_map (λ _, tt) (res_map_err Process (sw_reap w))
          else Err (StopUnconfirmed "runtime config has no parent directory")
      end
  end.

(** The marks [stop_and_confirm_dead] sets on an instance that still runs;
    other tasks may run between any two of them. *)
Definition stop_mark : Shared → Shared := λ s, cancel_probes (set_user_stop s).
Definition stop_publish : Shared → Shared := publish IStopping.

(** How the source reads the supervisor's end. *)
Definition stop_result (taken : bool) (w : StopWorld) : result unit string :=
  if taken then
    match sw_supervisor w with
    | StopDone | StopAlreadyExited => Ok tt
    | StopFailed message => Err ("supervisor stop failed: " +:+ message)
    | StopTimedOut => Err ("supervisor stop exceeded " +:+ sw_timeout_debug w)
    end
  else Ok tt.

(** What follows once the supervisor's stop and the monitor's task have ended;
    [taken] says that the slot held the supervisor, [s] is the state then. *)
Definition stop_decide (spec : InstanceSpec) (epoch : Epoch) (w : StopWorld) (taken : bool) (s : Shared) :
    result unit Error * Shared :=
  let terminal := is_terminal (st_state (sh_status s)) in
  let stopped := stop_result taken w in
  if res_is_ok stopped && (sw_monitor_joined w || terminal) then
    (res_map_err (λ e, StopUnconfirmed ("stopped instance identity verification failed: " +:+ error_display e))
       (reap_epoch_record_if_present spec epoch w), s)
  else
    let stop_error := match stopped with
                      | Err e => e | Ok _ => "instance monitor did not confirm termination" end in
    match epoch_pid_path spec epoch with
    | None => (Err (StopUnconfirmed stop_error), s)
    | Some _ =>
        if parent (is_config_path spec) is None
        then (Err (StopUnconfirmed "runtime config has no parent directory"), s)
        else match sw_reap w with
        | Err e => (Err (StopUnconfirmed (stop_error +:+ "; epoch identity reaper failed: " +:+ e)), s)
        | Ok outcome =>
            if bool_decide (outcome = AlreadyExited) || bool_decide (outcome = Killed)
               || (bool_decide (outcome = NotFound) && terminal)
            then (Ok tt, if terminal then s else publish (IStopped User) s)
            else (Err (StopUnconfirmed stop_error), s)
        end
    end.

(** [stop_and_confirm_dead] from its first look at the status; [meanwhile] is
    what the other tasks do to the shared state between its steps. *)
Definition stop_and_confirm_dead (spec : InstanceSpec) (epoch : Epoch) (w : StopWorld)
    (meanwhile : nat → Shared → Shared) (s : Shared) : result unit Error * Shared :=
  if is_terminal (st_state (sh_status s)) then
    (res_map_err (λ e, StopUnconfirmed ("terminal instance identity verification failed: " +:+ error_display e))
       (reap_epoch_record_if_present spec epoch w), s)
  else
    let s := meanwhile 0%nat s in
    let s := meanwhile 1%nat (stop_mark s) in
    let s := meanwhile 2%nat (stop_publish s) in
    let taken := sh_supervisor s in
    let s := meanwhile 3%nat (take_supervisor s) in
    stop_decide spec epoch w taken s.

(** [Drop for Instance]. *)
Definition instance_drop : Shared → Shared := λ s, cancel_all (cancel_probes s).
End Public.
