(* ===== verification/InstanceProps.v ===== *)
(** What one instance guarantees, over every interleaving of the monitor's
    rounds, the driver's rounds, console output, probe requests, a stop and a
    drop. *)
From S2P Require Import Prelude Text Paths Metadata Types Health Log Instance.
From Stdlib Require String Ascii.
From Stdlib Require Import ZArith Lia.

Section Steps.
Context `{PL : ProcessLib} `{CH : Chrono}.
Context (a : MonitorArgs).

(** * Steps *)

(** A round is taken while the run counter has not reached its bound. *)
Inductive istep : Inst → Inst → Prop :=
| step_round r i i' :
    (lo_next_run_id (in_loop i) < u64_max)%Z → monitor_round a r i = Some i' → istep i i'
| step_driver timeout_debug ended now done_at done_ms i :
    istep i (driver_step timeout_debug ended now done_at done_ms i)
| step_output ev at_ i s' :
    on_process_event ev at_ (in_shared i) = Some s' → istep i (mkInst s' (in_loop i))
| step_probe_now phase response i : istep i (probe_now phase response i).2
| step_stop_mark i : istep i (on_shared stop_mark i)
| step_stop_publish i : sh_user_stop (in_shared i) = true → istep i (on_shared stop_publish i)
| step_take_supervisor i : sh_user_stop (in_shared i) = true → istep i (on_shared take_supervisor i)
| step_stop_forced i :
    sh_user_stop (in_shared i) = true → istep i (on_shared (publish (IStopped User)) i)
| step_diagnose lifecycle i : istep i (on_shared (λ s, (failure_summary lifecycle s).2) i)
| step_drop i : istep i (on_shared instance_drop i).

Definition ireachable (i : Inst) : Prop :=
  ∃ kind epoch now_ms, rtc istep (instance_new kind epoch now_ms) i.

Abbreviation status i := (sh_status (in_shared i)).
Abbreviation state i := (st_state (sh_status (in_shared i))).
Abbreviation current i := (lo_current (in_loop i)).

(** * The invariant *)

Record inst_ok (i : Inst) : Prop := {
  ok_run_id : ∀ run, current i = Some run → rn_run_id run = lo_next_run_id (in_loop i);
  ok_driver : ∀ d, lo_driver (in_loop i) = Some d → lo_probes_cancelled (in_loop i) = false
    ∧ dv_run_id d = lo_next_run_id (in_loop i);
  ok_obs : ∀ o, o ∈ lo_observations (in_loop i) → (ob_run_id o ≤ lo_next_run_id (in_loop i))%Z;
  ok_cancelled : lo_probes_cancelled (in_loop i) = true → ∀ run, current i = Some run →
    ∀ o, o ∈ lo_observations (in_loop i) → (ob_run_id o < rn_run_id run)%Z;
  ok_ready : ∀ run, current i = Some run → rn_ready run = true →
    state i = IRunning (rn_pid run) ∨ sh_user_stop (in_shared i) = true ∨ lo_returned (in_loop i) = true;
  ok_tracker : ∀ run, current i = Some run →
    ∃ started h, rn_tracker run = track (ma_policy a) started h;
  ok_fired : lo_timeout_fired (in_loop i) = true →
    lo_ever_ready (in_loop i) = false ∧ sh_probe_timeout (in_shared i) = true;
  ok_timeout : sh_probe_timeout (in_shared i) = true →
    sh_probe_cancel (in_shared i) = true ∧ sh_cancel (in_shared i) = true;
  ok_returned : lo_returned (in_loop i) = true →
    is_terminal (state i) = true ∨ sh_user_stop (in_shared i) = true;
  ok_running : ∀ pid, state i = IRunning pid → lo_ever_ready (in_loop i) = true;
  ok_respawn : ∀ d, lo_respawn_deadline (in_loop i) = Some d → lo_ever_ready (in_loop i) = true;
}.

Lemma instance_new_ok kind epoch now_ms : inst_ok (instance_new kind epoch now_ms).
Proof. constructor; cbn; try done; set_solver. Qed.

(** Steps that touch only the logs. *)
Definition same_but_logs (s s' : Shared) : Prop :=
  sh_status s' = sh_status s ∧ sh_user_stop s' = sh_user_stop s
  ∧ sh_probe_timeout s' = sh_probe_timeout s ∧ sh_cancel s' = sh_cancel s
  ∧ sh_probe_cancel s' = sh_probe_cancel s ∧ sh_supervisor s' = sh_supervisor s.

#[local] Instance same_but_logs_trans : Transitive same_but_logs.
Proof. unfold same_but_logs. intros x y z ? ?. intuition congruence. Qed.

Lemma publish_frames_logs frames s : same_but_logs s (publish_frames frames s).
Proof.
  revert s. induction frames as [|f frames IH]; intros s; [done|].
  unfold publish_frames in *. cbn [foldl]. etrans; [|apply IH]. done.
Qed.

Lemma flush_logs s : same_but_logs s (flush_log_record s).
Proof.
  unfold flush_log_record. destruct (finish (sh_parser s)) as [frames p].
  etrans; [|apply publish_frames_logs]. done.
Qed.

Lemma same_but_logs_ok s s' l : same_but_logs s s' → inst_ok (mkInst s l) → inst_ok (mkInst s' l).
Proof.
  intros (H1 & H2 & H3 & H4 & H5 & H6) [].
  constructor; cbn in *; rewrite ?H1, ?H2, ?H3, ?H4, ?H5, ?H6; done.
Qed.

(** * Observations *)

(** What [apply] may do. *)
Lemma apply_cases ack o i :
  apply a ack o i = (false, i)
  ∨ ∃ run, current i = Some run ∧ observation_applies o run = true
    ∧ (lo_ever_ready (in_loop i) = false → (ob_completed_at o ≤ ma_initial_deadline a)%Z)
    ∧ let tracker := (observe (ob_completed_at o) (ob_result o) (rn_tracker run)).2 in
      (∃ h, ht_state tracker = THealthy ∧ ack = true ∧ sh_supervisor (in_shared i) = true
         ∧ apply a ack o i
           = (true, publish_health (st_instance_id (status i)) (IRunning (rn_pid run)) h
                (on_loop (λ l, set_driver (driver_send UseLiveness <$> lo_driver l)
                   (set_run (Some (mkRun (rn_run_id run) (rn_pid run) true true tracker)) None
                      (set_ever_ready l))) i)))
      ∨ (∃ tried, apply a ack o i
           = (false, on_loop (set_run (Some (mkRun (rn_run_id run) (rn_pid run) tried (rn_ready run) tracker))
                                (lo_respawn_deadline (in_loop i))) i))
      ∨ (∃ h tried, apply a ack o i
           = (false, publish_health (st_instance_id (status i)) (state i) h
                (on_loop (set_run (Some (mkRun (rn_run_id run) (rn_pid run) tried (rn_ready run) tracker))
                            (lo_respawn_deadline (in_loop i))) i))).
Proof.
  unfold apply. destruct (lo_current (in_loop i)) as [run|] eqn:Er; [|by left].
  destruct (observation_applies o run) eqn:Ea; [|by left]. cbn [negb].
  destruct (negb (lo_ever_ready (in_loop i)) && _) eqn:Eb; [by left|]. cbn [orb].
  destruct (match lo_respawn_deadline (in_loop i) with Some _ => _ | None => _ end); [by left|].
  right. exists run. split_and!; [done..| |].
  { intros Hr. rewrite Hr in Eb. cbn in Eb. by apply Z.ltb_ge in Eb. }
  cbn zeta. unfold observe. cbn [fst snd tu_state].
  destruct (negb (rn_ack_attempted run) && _) eqn:Es.
  - apply andb_true_iff in Es as [_ Es%bool_decide_eq_true].
    destruct (sh_supervisor (in_shared i) && ack) eqn:Ek.
    + apply andb_true_iff in Ek as [Ek1 Ek2]. left. eexists. by rewrite Ek2.
    + right; left. by eexists.
  - right; right. by do 2 eexists.
Qed.

(** The loop looks at an observation only while the cancellation token is
    clear, or after it has taken note of it. *)
Definition probing (i : Inst) : Prop :=
  lo_returned (in_loop i) = false
  ∧ (sh_probe_cancel (in_shared i) = true → lo_probes_cancelled (in_loop i) = true).

(** An observation from the channel. *)
Definition known (i : Inst) (o : ProbeObservation) : Prop :=
  (ob_run_id o ≤ lo_next_run_id (in_loop i))%Z
  ∧ (lo_probes_cancelled (in_loop i) = true → ∀ run, current i = Some run → (ob_run_id o < rn_run_id run)%Z).

(** An observation that applies belongs to a run whose probes still run. *)
Lemma applies_live i o run :
  inst_ok i → probing i → known i o → current i = Some run → observation_applies o run = true →
  lo_probes_cancelled (in_loop i) = false ∧ sh_probe_cancel (in_shared i) = false
  ∧ sh_probe_timeout (in_shared i) = false ∧ lo_timeout_fired (in_loop i) = false.
Proof.
  intros Hok [_ Hp] [_ Hk] Hc Ha.
  assert (Hn : lo_probes_cancelled (in_loop i) = false).
  { destruct (lo_probes_cancelled (in_loop i)) eqn:E; [|done]. specialize (Hk eq_refl run Hc).
    apply andb_true_iff in Ha as [Ha%Z.eqb_eq _]. lia. }
  rewrite Hn in Hp.
  assert (Hpc : sh_probe_cancel (in_shared i) = false) by (destruct (sh_probe_cancel _); [by specialize (Hp eq_refl)|done]).
  assert (Hpt : sh_probe_timeout (in_shared i) = false).
  { destruct (sh_probe_timeout _) eqn:E; [|done]. destruct (ok_timeout _ Hok E). congruence. }
  split_and!; [done..|]. destruct (lo_timeout_fired _) eqn:E; [|done].
  destruct (ok_fired _ Hok E). congruence.
Qed.

Lemma track_observe started h now r :
  (observe now r (track (ma_policy a) started h)).2 = track (ma_policy a) started ((now, r) :: h).
Proof. done. Qed.

(** An update of the current run that keeps who it is. *)
Lemma set_run_ok i run run' :
  inst_ok i → current i = Some run →
  rn_run_id run' = rn_run_id run → rn_pid run' = rn_pid run → rn_ready run' = rn_ready run →
  (∃ started h, rn_tracker run' = track (ma_policy a) started h) →
  inst_ok (on_loop (set_run (Some run') (lo_respawn_deadline (in_loop i))) i).
Proof.
  intros [] Hc E1 E2 E3 Ht. constructor; cbn in *; try done.
  - intros ? [= <-]. rewrite E1. auto.
  - intros Hpc ? [= <-] o Ho. rewrite E1. eauto.
  - intros ? [= <-]. rewrite E2, E3. eauto.
  - intros ? [= <-]. done.
Qed.

Lemma apply_ok ack o i :
  inst_ok i → probing i → known i o → inst_ok (apply a ack o i).2.
Proof.
  intros Hok Hp Hk. destruct (apply_cases ack o i) as [->|(run & Hc & Ha & _ & H)]; [done|].
  destruct (applies_live i o run Hok Hp Hk Hc Ha) as (Hn & Hpc & Hpt & Hf).
  destruct (ok_tracker _ Hok run Hc) as (started & h & Ht). rewrite Ht, track_observe in H.
  destruct H as [(hs & _ & _ & _ & ->)|[(tried & ->)|(hs & tried & ->)]]; cbn [snd].
  - destruct Hok. constructor; cbn in *; try done; try congruence.
    + intros ? [= <-]. cbn. auto.
    + intros d. destruct (lo_driver (in_loop i)) as [d0|] eqn:Ed; [|done]. cbn. intros [= <-]. exact (ok_driver0 d0 eq_refl).
    + intros ? [= <-] _. by left.
    + intros ? [= <-]. by exists started, ((ob_completed_at o, ob_result o) :: h).
    + intros Hr. destruct Hp. congruence.
  - eapply set_run_ok; [done..|by eexists _, _].
  - assert (Hok' : inst_ok (on_loop (set_run (Some (mkRun (rn_run_id run) (rn_pid run) tried (rn_ready run)
        (track (ma_policy a) started ((ob_completed_at o, ob_result o) :: h)))) (lo_respawn_deadline (in_loop i))) i))
      by (eapply set_run_ok; [done..|by eexists _, _]).
    destruct Hok'. by constructor.
Qed.

(** [apply] leaves the queue and the run's identity alone. *)
Lemma apply_keeps ack o i :
  let i' := (apply a ack o i).2 in
  lo_observations (in_loop i') = lo_observations (in_loop i)
  ∧ (probing i → probing i') ∧ (∀ x, known i x → known i' x).
Proof.
  destruct (apply_cases ack o i) as [->|(run & Hc & _ & _ & H)]; [done|]. unfold known, probing.
  destruct H as [(hs & _ & _ & _ & ->)|[(tried & ->)|(hs & tried & ->)]]; cbn;
    (split_and!; [done|done|intros x [? Hx]; split; [done|intros Hpc ? [= <-]; cbn; by apply Hx]]).
Qed.

Lemma set_observations_ok obs i :
  inst_ok i → (∀ o, o ∈ obs → known i o) → inst_ok (on_loop (set_observations obs) i).
Proof.
  intros [] Hk. constructor; cbn in *; try done; intros; by apply Hk || (eapply Hk; done).
Qed.

Lemma drain_ok ack obs i :
  inst_ok i → probing i → (∀ o, o ∈ obs → known i o) → inst_ok (reconcile_drain a ack obs i).2.
Proof.
  revert i. induction obs as [|o obs IH]; intros i Hok Hp Hk; cbn.
  { apply set_observations_ok; [done|]. set_solver. }
  pose proof (apply_ok ack o i Hok Hp ltac:(set_solver)) as Hok'.
  destruct (apply_keeps ack o i) as (_ & Hp' & Hk').
  destruct (apply a ack o i) as [[] i'] eqn:E; cbn in *.
  - apply set_observations_ok; [done|]. intros x Hx. apply Hk', Hk. set_solver.
  - apply IH; [done|by apply Hp'|]. intros x Hx. apply Hk', Hk. set_solver.
Qed.

(** * Preservation *)

(** Close the fields of the invariant a step does not touch. *)
Ltac keep_ok Hok := destruct Hok; constructor; cbn in *; try done; try congruence; try set_solver.

Lemma clear_run_ok i : inst_ok i → inst_ok (on_loop (set_run None None) i).
Proof. intros Hok. keep_ok Hok. Qed.

Lemma stop_driver_ok i : inst_ok i → inst_ok (stop_probe_driver i).
Proof. intros Hok. keep_ok Hok. Qed.

Lemma on_probe_cancel_ok i : inst_ok i → inst_ok (on_probe_cancel i).
Proof. intros Hok. keep_ok Hok. Qed.

Lemma probe_timed_out_ok i :
  inst_ok i → lo_timeout_fired (in_loop i) = false → inst_ok (probe_timed_out i).
Proof. intros Hok ?. keep_ok Hok. Qed.

Lemma returned_ok (f : Shared → Shared) i :
  inst_ok i → (∀ s, is_terminal (st_state (sh_status (f s))) = true) →
  (∀ s, sh_user_stop (f s) = sh_user_stop s ∧ sh_probe_timeout (f s) = sh_probe_timeout s
        ∧ sh_probe_cancel (f s) = sh_probe_cancel s ∧ sh_cancel (f s) = sh_cancel s) →
  inst_ok (return_with f i).
Proof.
  intros Hok Hterm Hf. destruct (Hf (in_shared i)) as (Hu & Hpt & Hpc & Hc). specialize (Hterm (in_shared i)).
  destruct Hok. constructor; cbn in *; rewrite ?Hu, ?Hpt, ?Hpc, ?Hc; auto.
  intros pid Hpid. by rewrite Hpid in Hterm.
Qed.

Lemma terminal_marks exit_debug last_exit s :
  is_terminal (st_state (sh_status (publish_terminal exit_debug last_exit s))) = true
  ∧ let s' := publish_terminal exit_debug last_exit s in
    sh_user_stop s' = sh_user_stop s ∧ sh_probe_timeout s' = sh_probe_timeout s
    ∧ sh_probe_cancel s' = sh_probe_cancel s ∧ sh_cancel s' = sh_cancel s.
Proof.
  unfold publish_terminal, diagnostics.
  pose proof (flush_logs s) as (_ & H2 & H3 & H4 & H5 & _).
  pose proof (flush_logs (flush_log_record s)) as (_ & H2' & H3' & H4' & H5' & _).
  revert H2' H3' H4' H5'. generalize (flush_log_record (flush_log_record s)). intros s2.
  revert H2 H3 H4 H5. generalize (flush_log_record s). intros s1 ????????.
  destruct (sh_user_stop s1) eqn:Eu; [cbn; split_and!; congruence|].
  destruct (sh_probe_timeout s1) eqn:Ep; [cbn; split_and!; congruence|].
  destruct (if last_exit is Some _ then _ else _); cbn; split_and!; congruence.
Qed.

Lemma gave_up_marks s :
  is_terminal (st_state (sh_status (gave_up s))) = true
  ∧ sh_user_stop (gave_up s) = sh_user_stop s ∧ sh_probe_timeout (gave_up s) = sh_probe_timeout s
  ∧ sh_probe_cancel (gave_up s) = sh_probe_cancel s ∧ sh_cancel (gave_up s) = sh_cancel s.
Proof.
  unfold gave_up, diagnostics. destruct (flush_logs s) as (_ & H2 & H3 & H4 & H5 & _).
  cbn. done.
Qed.

Lemma publish_health_ok i id st h :
  inst_ok i → (∀ pid, st ≠ IRunning pid) → current i = None → lo_returned (in_loop i) = false →
  inst_ok (publish_health id st h i).
Proof.
  intros Hok Hst Hc Hr. destruct Hok. constructor; cbn in *; try done; try congruence; naive_solver.
Qed.

Lemma started_ok r pid i :
  inst_ok i → lo_returned (in_loop i) = false → (lo_next_run_id (in_loop i) < u64_max)%Z →
  inst_ok (on_event a r (Some (SupStarted pid)) i).
Proof.
  intros Hok Hr Hmax. destruct Hok. unfold on_event. cbn.
  replace (Z.min (lo_next_run_id (in_loop i) + 1) u64_max) with (lo_next_run_id (in_loop i) + 1)%Z by lia.
  destruct (lo_probes_cancelled (in_loop i)) eqn:Epc; constructor; cbn; rewrite ?Epc; try done; try congruence.
  all: try (by intros ? [= <-]). all: try (by intros ? [= <-]; eexists _, []).
  all: try (by destruct (lo_ever_ready (in_loop i))).
  - intros o Ho. specialize (ok_obs0 o Ho). lia.
  - intros _ ? [= <-] o Ho. cbn. specialize (ok_obs0 o Ho). lia.
  - intros o Ho. specialize (ok_obs0 o Ho). lia.
Qed.

Lemma on_event_ok r ev i :
  inst_ok i → lo_returned (in_loop i) = false → (lo_next_run_id (in_loop i) < u64_max)%Z →
  inst_ok (on_event a r ev i).
Proof.
  intros Hok Hr Hmax. destruct ev as [[pid|attempt|payload| | |]|].
  - by apply started_ok.
  - cbn. apply publish_health_ok; [by apply clear_run_ok, stop_driver_ok|done..].
  - cbn. apply stop_driver_ok, clear_run_ok in Hok. keep_ok Hok.
  - apply returned_ok; [by apply stop_driver_ok|intros s; apply gave_up_marks..].
  - apply returned_ok; [by apply stop_driver_ok|intros s; apply terminal_marks..].
  - done.
  - apply returned_ok; [done|intros s; apply terminal_marks..].
Qed.

Lemma all_known i : inst_ok i → ∀ o, o ∈ lo_observations (in_loop i) → known i o.
Proof. intros [] o Ho. split; [by apply ok_obs0|]. intros Hc run Hr. by eapply ok_cancelled0. Qed.

Lemma drain_all_ok ack i :
  inst_ok i → probing i → inst_ok (reconcile_drain a ack (lo_observations (in_loop i)) i).2.
Proof. intros Hok Hp. apply drain_ok; [done..|by apply all_known]. Qed.

(** Draining reports readiness exactly when it made the instance ready, and
    otherwise keeps the deadlines. *)
Lemma drain_result ack obs i :
  let '(b, i') := reconcile_drain a ack obs i in
  (b = true → lo_ever_ready (in_loop i') = true ∧ lo_respawn_deadline (in_loop i') = None)
  ∧ (b = false → lo_ever_ready (in_loop i') = lo_ever_ready (in_loop i)
      ∧ lo_respawn_deadline (in_loop i') = lo_respawn_deadline (in_loop i))
  ∧ lo_timeout_fired (in_loop i') = lo_timeout_fired (in_loop i).
Proof.
  revert i. induction obs as [|o obs IH]; intros i; cbn; [done|].
  destruct (apply_cases ack o i) as [->|(run & Hc & _ & _ & H)]; [by apply IH|].
  destruct H as [(hs & _ & _ & _ & ->)|[(tried & ->)|(hs & tried & ->)]]; [done|..];
    match goal with |- context [reconcile_drain a ack obs ?j] => specialize (IH j) end;
    destruct (reconcile_drain a ack obs _) as [b i']; exact IH.
Qed.

Lemma on_initial_deadline_ok r i :
  inst_ok i → probing i → lo_timeout_fired (in_loop i) = false → inst_ok (on_initial_deadline a r i).
Proof.
  intros Hok Hp Hf. unfold on_initial_deadline.
  pose proof (drain_all_ok (rdy_ack r) i Hok Hp) as Hok'.
  destruct (reconcile_drain a (rdy_ack r) _ i) as [b i']. cbn in Hok'.
  destruct (negb b && _) eqn:E; [|done]. apply andb_true_iff in E as [_ E%negb_true_iff].
  keep_ok Hok'.
Qed.

Lemma on_respawn_deadline_ok r i :
  inst_ok i → probing i → lo_timeout_fired (in_loop i) = false → inst_ok (on_respawn_deadline a r i).
Proof.
  intros Hok Hp Hf. unfold on_respawn_deadline.
  pose proof (drain_all_ok (rdy_ack r) i Hok Hp) as Hok'.
  pose proof (drain_result (rdy_ack r) (lo_observations (in_loop i)) i) as Hd.
  destruct (reconcile_drain a (rdy_ack r) _ i) as [b i']. cbn in Hok'.
  destruct (negb b && _); [|done]. apply probe_timed_out_ok; [done|]. destruct Hd as (_ & _ & ->). done.
Qed.

Lemma on_request_ok response more i : inst_ok i → inst_ok (on_request response more i).
Proof.
  intros Hok. unfold on_request. cbn [on_loop in_loop set_queues lo_current lo_driver].
  destruct (if lo_current (in_loop i) is Some run then rn_ready run else false);
    [destruct (lo_driver (in_loop i)) as [d|] eqn:Ed|].
  - pose proof (ok_driver _ Hok d Ed). destruct Hok. constructor; cbn in *; try done.
    by intros ? [= <-].
  - destruct Hok. by constructor.
  - destruct Hok. by constructor.
Qed.

Lemma driver_round_id d timeout_debug ended now done_at done_ms d' o ans :
  driver_round d timeout_debug ended now done_at done_ms = (d', o, ans) →
  dv_run_id d' = dv_run_id d ∧ dv_pid d' = dv_pid d
  ∧ ∀ x, o = Some x → ob_run_id x = dv_run_id d ∧ ob_pid x = dv_pid d.
Proof.
  unfold driver_round, run_attempt. intros E.
  repeat case_match; simplify_eq/=; split_and!; try done; intros x Hx; by simplify_eq.
Qed.

Lemma driver_step_ok timeout_debug ended now done_at done_ms i :
  inst_ok i → inst_ok (driver_step timeout_debug ended now done_at done_ms i).
Proof.
  intros Hok. unfold driver_step. destruct (lo_driver (in_loop i)) as [d|] eqn:Ed; [|done].
  destruct (driver_round d timeout_debug ended now done_at done_ms) as [[d' o] ans] eqn:Er.
  destruct (driver_round_id _ _ _ _ _ _ _ _ _ Er) as (Hid & _ & Ho).
  destruct (ok_driver _ Hok d Ed) as [Hpc Hrun].
  destruct Hok. constructor; cbn in *; try done; try congruence.
  - intros ? [= <-]. by rewrite Hid.
  - intros x [Hx|Hx]%elem_of_app; [by apply ok_obs0|].
    destruct o as [o|]; cbn in Hx; [|set_solver]. apply list_elem_of_singleton in Hx as ->.
    destruct (Ho o eq_refl) as [-> _]. lia.
Qed.

Lemma monitor_round_ok r i i' :
  inst_ok i → (lo_next_run_id (in_loop i) < u64_max)%Z → monitor_round a r i = Some i' → inst_ok i'.
Proof.
  intros Hok Hmax. unfold monitor_round. destruct (lo_returned (in_loop i)) eqn:Er; [done|].
  destruct (sh_probe_cancel (in_shared i) && _) eqn:Ec; [intros [= <-]; by apply on_probe_cancel_ok|].
  destruct (rdy_event r) as [ev|]; [intros [= <-]; by apply on_event_ok|].
  assert (Hp : probing i).
  { split; [done|]. intros E. rewrite E in Ec. by apply negb_false_iff in Ec. }
  destruct (negb (lo_ever_ready (in_loop i)) && _ && _) eqn:Ei.
  { intros [= <-]. apply on_initial_deadline_ok; [done..|].
    apply andb_true_iff in Ei as [[_ ?%negb_true_iff]%andb_true_iff _]. done. }
  destruct (if lo_respawn_deadline (in_loop i) is Some _ then _ else _) eqn:Eresp.
  { intros [= <-]. apply on_respawn_deadline_ok; [done..|].
    destruct (lo_respawn_deadline (in_loop i)) as [d|] eqn:Ed; [|done]. apply (ok_respawn _ Hok) in Ed.
    destruct (lo_timeout_fired (in_loop i)) eqn:Ef; [|done]. apply (ok_fired _ Hok) in Ef as [? _]. congruence. }
  destruct (lo_requests (in_loop i)) as [|response more]; [|intros [= <-]; by apply on_request_ok].
  destruct (lo_observations (in_loop i)) as [|o more] eqn:Eo; [done|]. intros [= <-].
  assert (Hk : ∀ x, x ∈ o :: more → known i x) by (rewrite <-Eo; by apply all_known).
  apply apply_ok; [apply set_observations_ok; [done|]; intros x Hx; apply Hk; set_solver|done|].
  apply (Hk o). set_solver.
Qed.

Lemma shared_ok (f : Shared → Shared) i :
  inst_ok i →
  (∀ s, (sh_status (f s) = sh_status s
         ∨ sh_user_stop (f s) = true ∧ ∀ pid, st_state (sh_status (f s)) ≠ IRunning pid)
        ∧ (sh_user_stop s = true → sh_user_stop (f s) = true)
        ∧ sh_probe_timeout (f s) = sh_probe_timeout s
        ∧ (sh_probe_cancel s = true → sh_probe_cancel (f s) = true)
        ∧ (sh_cancel s = true → sh_cancel (f s) = true)) →
  inst_ok (on_shared f i).
Proof.
  intros [] Hf. destruct (Hf (in_shared i)) as (Hst & Hu & Hpt & Hpc & Hc).
  constructor; cbn in *; rewrite ?Hpt; try done.
  - intros run Hrun Hr. destruct Hst as [->|[? _]]; [|auto]. destruct (ok_ready0 run Hrun Hr) as [|[|]]; auto.
  - intros Hr. split; [apply Hpc|apply Hc]; by apply ok_timeout0.
  - intros Hr. destruct Hst as [->|[? _]]; [|auto]. destruct (ok_returned0 Hr); auto.
  - intros pid E. destruct Hst as [Hst|[_ Hst]]; [rewrite Hst in E; eauto|]. by destruct (Hst pid).
Qed.

Lemma istep_ok i i' : inst_ok i → istep i i' → inst_ok i'.
Proof.
  intros Hok Hs. destruct Hs as [r i i' Hmax Hr|? ? ? ? ? i|ev at_ i s' He|phase response i|i|i Hu|i Hu|i Hu|l i|i].
  - by eapply monitor_round_ok.
  - by apply driver_step_ok.
  - apply (same_but_logs_ok (in_shared i)); [|by destruct i].
    unfold on_process_event in He. destruct ev as [line|line| |].
    1,2: destruct (push_at _ _ _ _) as [[frames p]|]; [|done]; simplify_eq;
      etrans; [|apply publish_frames_logs]; done.
    + simplify_eq. apply flush_logs.
    + by simplify_eq.
  - destruct phase; cbn; [done..|]. destruct (lo_returned (in_loop i)); [done|].
    destruct Hok. by constructor.
  - apply shared_ok; [done|]. intros s. split_and!; auto.
  - destruct Hok. constructor; cbn in *; auto. done.
  - apply shared_ok; [done|]. intros s. split_and!; auto.
  - destruct Hok. constructor; cbn in *; auto. done.
  - apply (same_but_logs_ok (in_shared i)); [apply flush_logs|by destruct i].
  - apply shared_ok; [done|]. intros s. split_and!; auto.
Qed.

Lemma ireachable_ok i : ireachable i → inst_ok i.
Proof.
  intros (kind & epoch & now_ms & Hr). pose proof (instance_new_ok kind epoch now_ms) as H0.
  induction Hr as [|x y z Hxy _ IH]; [done|]. apply IH. by eapply istep_ok.
Qed.

(** * Running *)

(** The run of [i'] is running, with enough probes behind it, and no stop or
    timeout had cancelled the probes in [i]. *)
Definition earned (i i' : Inst) : Prop :=
  sh_probe_cancel (in_shared i) = false ∧ sh_supervisor (in_shared i) = true
  ∧ ∃ run started h, current i' = Some run ∧ state i' = IRunning (rn_pid run) ∧ rn_ready run = true
      ∧ rn_tracker run = track (ma_policy a) started h ∧ ht_state (rn_tracker run) = THealthy.

Lemma apply_state ack o i :
  inst_ok i → probing i → known i o →
  let '(b, i') := apply a ack o i in
  (b = true → earned i i')
  ∧ (b = false → state i' = state i ∧ sh_probe_cancel (in_shared i') = sh_probe_cancel (in_shared i)
                 ∧ sh_supervisor (in_shared i') = sh_supervisor (in_shared i)).
Proof.
  intros Hok Hp Hk. destruct (apply_cases ack o i) as [->|(run & Hc & Ha & _ & H)]; [done|].
  destruct (applies_live i o run Hok Hp Hk Hc Ha) as (_ & Hpc & _ & _).
  destruct (ok_tracker _ Hok run Hc) as (started & h & Ht).
  destruct H as [(hs & Hh & _ & Hsup & ->)|[(tried & ->)|(hs & tried & ->)]]; [|done..].
  split; [|done]. intros _. split_and!; [done..|]. eexists _, started, ((ob_completed_at o, ob_result o) :: h).
  rewrite Ht, track_observe in *. done.
Qed.

Lemma drain_state ack obs i :
  inst_ok i → probing i → (∀ o, o ∈ obs → known i o) →
  let '(b, i') := reconcile_drain a ack obs i in
  (b = true → earned i i') ∧ (b = false → state i' = state i).
Proof.
  revert i. induction obs as [|o obs IH]; intros i Hok Hp Hk; cbn; [done|].
  pose proof (apply_ok ack o i Hok Hp ltac:(set_solver)) as Hok'.
  pose proof (apply_state ack o i Hok Hp ltac:(set_solver)) as Hst.
  destruct (apply_keeps ack o i) as (_ & Hp' & Hk').
  destruct (apply a ack o i) as [[] i']; cbn in *; [by split; [intros _; apply Hst|]|].
  specialize (IH i' Hok' (Hp' Hp) ltac:(intros x Hx; apply Hk', Hk; set_solver)).
  destruct (reconcile_drain a ack obs i') as [b i'']. destruct Hst as [_ Hst]. destruct (Hst eq_refl) as (E1 & E2 & E3).
  split; intros Hb; [|by rewrite <-E1; apply IH].
  destruct IH as [IH _]. unfold earned in *. rewrite <-E2, <-E3. by apply IH.
Qed.

Lemma terminal_not_running st pid : is_terminal st = true → st = IRunning pid → False.
Proof. by intros H ->. Qed.

Lemma round_state r i i' pid :
  inst_ok i → monitor_round a r i = Some i' → state i' = IRunning pid → state i = IRunning pid ∨ earned i i'.
Proof.
  intros Hok. unfold monitor_round. destruct (lo_returned (in_loop i)) eqn:Er; [done|].
  destruct (sh_probe_cancel (in_shared i) && _) eqn:Ec; [intros [= <-]; by left|].
  assert (Hp : probing i).
  { split; [done|]. intros E. rewrite E in Ec. by apply negb_false_iff in Ec. }
  destruct (rdy_event r) as [ev|].
  { intros [= <-]. destruct ev as [[p|attempt|payload| | |]|].
    - cbn. destruct (lo_probes_cancelled _); cbn; auto.
    - done.
    - auto.
    - intros E. by destruct (terminal_not_running _ _ (proj1 (gave_up_marks (in_shared i))) E).
    - intros E. by destruct (terminal_not_running _ _ (proj1 (terminal_marks _ _ (in_shared i))) E).
    - auto.
    - intros E. by destruct (terminal_not_running _ _ (proj1 (terminal_marks _ _ (in_shared i))) E). }
  pose proof (drain_state (rdy_ack r) (lo_observations (in_loop i)) i Hok Hp (all_known i Hok)) as Hd.
  destruct (negb (lo_ever_ready (in_loop i)) && _ && _).
  { intros [= <-]. unfold on_initial_deadline. destruct (reconcile_drain a _ _ i) as [[] j]; destruct Hd as [H1 H2].
    - cbn. auto.
    - cbn. rewrite <-(H2 eq_refl). destruct (negb (lo_ever_ready (in_loop j))); cbn; auto. }
  destruct (if lo_respawn_deadline (in_loop i) is Some _ then _ else _).
  { intros [= <-]. unfold on_respawn_deadline. destruct (reconcile_drain a _ _ i) as [[] j]; destruct Hd as [H1 H2].
    - cbn. auto.
    - cbn. rewrite <-(H2 eq_refl). destruct (bool_decide _); cbn; auto. }
  destruct (lo_requests (in_loop i)) as [|response more].
  2:{ intros [= <-]. unfold on_request. cbn. repeat case_match; cbn; auto. }
  destruct (lo_observations (in_loop i)) as [|o more] eqn:Eo; [done|]. intros [= <-].
  assert (Hk : ∀ x, x ∈ o :: more → known i x) by (rewrite <-Eo; by apply all_known).
  assert (Hok' : inst_ok (on_loop (set_observations more) i))
    by (apply set_observations_ok; [done|]; intros x Hx; apply Hk; set_solver).
  pose proof (apply_state (rdy_ack r) o _ Hok' Hp (Hk o ltac:(set_solver))) as Ha.
  destruct (apply a _ o _) as [[] j]; cbn; destruct Ha as [H1 H2].
  - intros _. right. exact (H1 eq_refl).
  - destruct (H2 eq_refl) as [-> _]. auto.
Qed.


(** * Starting *)

(** at the start-up deadline the monitor does not wait any longer: its
    round ends with the instance ready or with the start given up, the
    supervisor told to kill the process. *)
Theorem startup_deadline_decides (r : Ready) (i : Inst)
    (Hrun : lo_returned (in_loop i) = false) (Hcancel : sh_probe_cancel (in_shared i) = false)
    (Hquiet : rdy_event r = None) (Hready : lo_ever_ready (in_loop i) = false)
    (Hfired : lo_timeout_fired (in_loop i) = false) (Hlate : (ma_initial_deadline a ≤ rdy_now r)%Z) :
  ∃ i', monitor_round a r i = Some i'
    ∧ (lo_ever_ready (in_loop i') = true
       ∨ lo_timeout_fired (in_loop i') = true ∧ sh_probe_timeout (in_shared i') = true
         ∧ sh_probe_cancel (in_shared i') = true ∧ sh_cancel (in_shared i') = true).
Proof.
  unfold monitor_round. rewrite Hrun, Hcancel, Hquiet, Hready, Hfired. cbn [andb negb].
  apply Z.leb_le in Hlate as ->. eexists. split; [done|]. unfold on_initial_deadline.
  pose proof (drain_result (rdy_ack r) (lo_observations (in_loop i)) i) as Hd.
  destruct (reconcile_drain a (rdy_ack r) _ i) as [[] j]; destruct Hd as (H1 & H2 & _).
  - left. by apply H1.
  - destruct (H2 eq_refl) as [E _]. rewrite Hready in E. rewrite E. by right.
Qed.

(** a start given up at the deadline is never reported as running, the
    supervisor has been told to stop, and waiting for readiness ends in a
    start-up timeout, never in success. *)
Theorem startup_timeout_is_final (i : Inst) (Hi : ireachable i)
    (Hfired : lo_timeout_fired (in_loop i) = true) :
  instance_pid (in_shared i) = None ∧ sh_cancel (in_shared i) = true
  ∧ match (wait_ready (in_shared i)).1 with
    | Some (Ok _) => False
    | Some (Err e) => ∃ tail, e = StartupTimeout tail
    | None => is_terminal (state i) = false
    end.
Proof.
  apply ireachable_ok in Hi as Hok. destruct (ok_fired _ Hok Hfired) as [Hnr Hpt].
  destruct (ok_timeout _ Hok Hpt) as [_ Hc].
  assert (Hnot : ∀ pid, state i ≠ IRunning pid).
  { intros pid E. apply (ok_running _ Hok) in E. congruence. }
  unfold instance_pid, wait_ready, failure_summary.
  destruct (state i) as [|pid| | |reason] eqn:E; [done|by destruct (Hnot pid)|done..|].
  split_and!; [done..|]. destruct (flush_logs (in_shared i)) as (_ & _ & Hpt' & _). rewrite Hpt in Hpt'.
  destruct reason; cbn [fst]; rewrite Hpt'; eauto.
Qed.

(** * Ending *)
Lemma publish_frames_parser frames s : sh_parser (publish_frames frames s) = sh_parser s.
Proof.
  revert s. induction frames as [|f frames IH]; intros s; [done|].
  unfold publish_frames in *. cbn [foldl]. by rewrite IH.
Qed.

Lemma flush_nothing_pending s stream : pending_of (sh_parser (flush_log_record s)) stream = None.
Proof.
  unfold flush_log_record. destruct (finish (sh_parser s)) as [frames p] eqn:E.
  rewrite publish_frames_parser. cbn. unfold finish in E. injection E as _ <-. by destruct stream.
Qed.

(** Why a stop is reported. *)
Definition stop_reason_ok (gave_up_ user timeout : bool) (last_exit : option TerminatedPayload)
    (reason : StopReason) : Prop :=
  match reason with
  | User => gave_up_ = false ∧ user = true
  | Finished => gave_up_ = false ∧ user = false ∧ timeout = false
                ∧ ∃ p, last_exit = Some p ∧ tp_code p = Some 0%Z
  | SError text =>
      (gave_up_ = true ∧ starts_with "core kept crashing; restart budget exhausted" text = true)
      ∨ (gave_up_ = false ∧ user = false ∧ timeout = true ∧ starts_with "health probe timed out" text = true)
      ∨ (gave_up_ = false ∧ user = false ∧ timeout = false
         ∧ ¬ (∃ p, last_exit = Some p ∧ tp_code p = Some 0%Z)
         ∧ starts_with "core exited unexpectedly (" text = true)
  end.

Lemma publish_terminal_reason exit_debug last_exit s :
  let s' := publish_terminal exit_debug last_exit s in
  (∃ reason, sh_status s' = mkInstanceStatus None (IStopped reason) None
     ∧ stop_reason_ok false (sh_user_stop s) (sh_probe_timeout s) last_exit reason)
  ∧ ∀ stream, pending_of (sh_parser s') stream = None.
Proof.
  unfold publish_terminal, diagnostics.
  pose proof (flush_logs s) as (_ & H2 & H3 & _ & _ & _). pose proof (flush_nothing_pending s) as Hp.
  pose proof (flush_nothing_pending (flush_log_record s)) as Hp2. revert Hp2.
  generalize (flush_log_record (flush_log_record s)). intros s2 Hp2.
  revert H2 H3 Hp. generalize (flush_log_record s). intros s1 H2 H3 Hp.
  destruct (sh_user_stop s1) eqn:Eu; [split; [|done]; eexists; split; [done|]; by rewrite <-H2|].
  destruct (sh_probe_timeout s1) eqn:Ep.
  { split; [|done]. eexists. split; [done|]. rewrite <-H2, <-H3. right; left. split_and!; [done..|].
    apply starts_with_app. }
  destruct (if last_exit is Some _ then _ else _) eqn:Ex.
  { split; [|done]. eexists. split; [done|]. rewrite <-H2, <-H3. split_and!; [done..|].
    destruct last_exit as [p|]; [|done]. apply bool_decide_eq_true in Ex. eauto. }
  split; [|done]. eexists. split; [done|]. rewrite <-H2, <-H3. right; right. split_and!; [done..| |].
  - intros (p & -> & Hcode). by rewrite bool_decide_true in Ex.
  - apply starts_with_app.
Qed.

Lemma gave_up_reason s last_exit :
  (∃ reason, sh_status (gave_up s) = mkInstanceStatus None (IStopped reason) None
     ∧ stop_reason_ok true (sh_user_stop s) (sh_probe_timeout s) last_exit reason)
  ∧ ∀ stream, pending_of (sh_parser (gave_up s)) stream = None.
Proof.
  unfold gave_up, diagnostics. pose proof (flush_nothing_pending s) as Hp. revert Hp.
  generalize (flush_log_record s). intros s1 Hp. split; [|done]. eexists. split; [done|].
  left. split; [done|]. apply starts_with_app.
Qed.

Definition gives_up (r : Ready) : bool :=
  match rdy_event r with Some (Some SupGaveUp) => true | _ => false end.

Lemma apply_returned ack o i : lo_returned (in_loop (apply a ack o i).2) = lo_returned (in_loop i).
Proof.
  destruct (apply_cases ack o i) as [->|(run & _ & _ & _ & H)]; [done|].
  by destruct H as [(hs & _ & _ & _ & ->)|[(tried & ->)|(hs & tried & ->)]].
Qed.

Lemma drain_returned ack obs i : lo_returned (in_loop (reconcile_drain a ack obs i).2) = lo_returned (in_loop i).
Proof.
  revert i. induction obs as [|o obs IH]; intros i; cbn; [done|].
  pose proof (apply_returned ack o i) as <-. destruct (apply a ack o i) as [[] i']; [done|apply IH].
Qed.

(** Only an event ends the loop. *)
Lemma round_returns r i i' :
  monitor_round a r i = Some i' → lo_returned (in_loop i') = true →
  ∃ ev, rdy_event r = Some ev ∧ i' = on_event a r ev i ∧ lo_returned (in_loop i) = false.
Proof.
  unfold monitor_round. destruct (lo_returned (in_loop i)) eqn:Er; [done|].
  destruct (sh_probe_cancel (in_shared i) && _); [intros [= <-] H; cbn in H; congruence|].
  destruct (rdy_event r) as [ev|]; [intros [= <-] _; by exists ev|].
  pose proof (drain_returned (rdy_ack r) (lo_observations (in_loop i)) i) as Hd.
  destruct (negb (lo_ever_ready (in_loop i)) && _ && _).
  { intros [= <-]. unfold on_initial_deadline. destruct (reconcile_drain a _ _ i) as [b j]. cbn in Hd.
    destruct (negb b && _); cbn; congruence. }
  destruct (if lo_respawn_deadline (in_loop i) is Some _ then _ else _).
  { intros [= <-]. unfold on_respawn_deadline. destruct (reconcile_drain a _ _ i) as [b j]. cbn in Hd.
    destruct (negb b && _); cbn; congruence. }
  destruct (lo_requests (in_loop i)) as [|response more].
  2:{ intros [= <-]. unfold on_request. cbn. repeat case_match; cbn; congruence. }
  destruct (lo_observations (in_loop i)) as [|o more]; [done|]. intros [= <-]. rewrite apply_returned. cbn. congruence.
Qed.

(** C31: when the monitor ends, the status it leaves is a stop with no health
    and no instance id, its reason is the user's stop, the probe timeout, the
    spent restart budget, a clean exit or an unexpected one as the marks and
    the last exit say, and no log record is still held back. *)
Theorem monitor_end_is_reported (r : Ready) (i i' : Inst)
    (Hround : monitor_round a r i = Some i') (Hend : lo_returned (in_loop i') = true) :
  (∃ reason, status i' = mkInstanceStatus None (IStopped reason) None
     ∧ stop_reason_ok (gives_up r)
         (sh_user_stop (in_shared i)) (sh_probe_timeout (in_shared i)) (lo_last_exit (in_loop i)) reason)
  ∧ ∀ stream, pending_of (sh_parser (in_shared i')) stream = None.
Proof.
  destruct (round_returns _ _ _ Hround Hend) as (ev & Hev & -> & Hr). unfold gives_up. rewrite Hev.
  destruct ev as [[p|attempt|payload| | |]|].
  - cbn in Hend. destruct (lo_probes_cancelled (in_loop i)); cbn in Hend; congruence.
  - cbn in Hend. congruence.
  - cbn in Hend. congruence.
  - apply gave_up_reason.
  - apply publish_terminal_reason.
  - cbn in Hend. congruence.
  - apply publish_terminal_reason.
Qed.

(** * The diagnostic tail *)

Definition tail_ok (s : Shared) : Prop :=
  sh_tail s = drop (length (sh_sent s) - LOG_TAIL_FRAMES) (sh_sent s).

Lemma publish_log_frame_tail s f : tail_ok s → tail_ok (publish_log_frame s f).
Proof.
  unfold tail_ok, publish_log_frame. cbn [set_logs sh_tail sh_sent]. intros ->.
  rewrite length_app, length_drop. cbn [length].
  destruct (Nat.eqb_spec (length (sh_sent s) - (length (sh_sent s) - LOG_TAIL_FRAMES)) LOG_TAIL_FRAMES) as [E|E];
    unfold LOG_TAIL_FRAMES in *.
  - rewrite drop_drop, drop_app_le by lia. do 2 f_equal. lia.
  - replace (length (sh_sent s) - 32)%nat with 0%nat by lia.
    replace (length (sh_sent s) + 1 - 32)%nat with 0%nat by lia. done.
Qed.

Lemma publish_frames_tail frames s : tail_ok s → tail_ok (publish_frames frames s).
Proof.
  revert s. induction frames as [|f frames IH]; intros s Hs; [done|]. by apply IH, publish_log_frame_tail.
Qed.

Lemma flush_tail s : tail_ok s → tail_ok (flush_log_record s).
Proof. intros Hs. unfold flush_log_record. destruct (finish (sh_parser s)). by apply publish_frames_tail. Qed.

Lemma terminal_tail exit_debug last_exit s : tail_ok s → tail_ok (publish_terminal exit_debug last_exit s).
Proof.
  intros Hs. unfold publish_terminal, diagnostics.
  pose proof (flush_tail _ Hs) as H1. pose proof (flush_tail _ H1) as H2. revert H2.
  generalize (flush_log_record (flush_log_record s)). intros s2 H2. revert H1.
  generalize (flush_log_record s). intros s1 H1.
  destruct (sh_user_stop s1); [done|]. destruct (sh_probe_timeout s1); [done|].
  by destruct (if last_exit is Some _ then _ else _).
Qed.

Lemma gave_up_tail s : tail_ok s → tail_ok (gave_up s).
Proof.
  intros Hs%flush_tail. unfold gave_up, diagnostics. revert Hs. by generalize (flush_log_record s).
Qed.

Lemma apply_tail ack o i : tail_ok (in_shared i) → tail_ok (in_shared (apply a ack o i).2).
Proof.
  destruct (apply_cases ack o i) as [->|(run & _ & _ & _ & H)]; [done|].
  by destruct H as [(hs & _ & _ & _ & ->)|[(tried & ->)|(hs & tried & ->)]].
Qed.

Lemma drain_tail ack obs i : tail_ok (in_shared i) → tail_ok (in_shared (reconcile_drain a ack obs i).2).
Proof.
  revert i. induction obs as [|o obs IH]; intros i Hi; cbn; [done|].
  pose proof (apply_tail ack o i Hi) as Ha. destruct (apply a ack o i) as [[] i']; [done|by apply IH].
Qed.

Lemma round_tail r i i' : monitor_round a r i = Some i' → tail_ok (in_shared i) → tail_ok (in_shared i').
Proof.
  intros Hround Hi. unfold monitor_round in Hround.
  pose proof (drain_tail (rdy_ack r) (lo_observations (in_loop i)) i Hi) as Hd.
  destruct (lo_returned (in_loop i)); [done|].
  destruct (sh_probe_cancel (in_shared i) && _); [by simplify_eq|].
  destruct (rdy_event r) as [ev|].
  { simplify_eq. destruct ev as [[p|attempt|payload| | |]|]; try done.
    - cbn. by destruct (lo_probes_cancelled (in_loop i)).
    - by apply gave_up_tail.
    - by apply terminal_tail.
    - by apply terminal_tail. }
  destruct (negb (lo_ever_ready (in_loop i)) && _ && _).
  { simplify_eq. unfold on_initial_deadline. destruct (reconcile_drain a _ _ i) as [b j]. by destruct (negb b && _). }
  destruct (if lo_respawn_deadline (in_loop i) is Some _ then _ else _).
  { simplify_eq. unfold on_respawn_deadline. destruct (reconcile_drain a _ _ i) as [b j]. by destruct (negb b && _). }
  destruct (lo_requests (in_loop i)) as [|response more].
  2:{ simplify_eq. unfold on_request. cbn. by repeat case_match. }
  destruct (lo_observations (in_loop i)) as [|o more]; [done|]. simplify_eq. by apply apply_tail.
Qed.

(** the diagnostic tail is at all times the last 32 frames that went to
    the log channel. *)
Theorem tail_is_last_frames (i : Inst) (Hi : ireachable i) :
  sh_tail (in_shared i)
  = drop (length (sh_sent (in_shared i)) - LOG_TAIL_FRAMES) (sh_sent (in_shared i)).
Proof.
  destruct Hi as (kind & epoch & now_ms & Hr). change (tail_ok (in_shared i)).
  assert (H0 : tail_ok (in_shared (instance_new kind epoch now_ms))) by done.
  induction Hr as [|x y z Hxy _ IH]; [done|]. apply IH. clear IH.
  destruct Hxy as [r i i' _ Hround|? ? ? ? ? i|ev at_ i s' He|phase response i|i|i Hu|i Hu|i Hu|l i|i]; try done.
  - by eapply round_tail.
  - unfold driver_step. destruct (lo_driver _); [|done]. by destruct (driver_round _ _ _ _ _ _) as [[? ?] ?].
  - unfold on_process_event in He. cbn. destruct ev as [line|line| |].
    1,2: destruct (push_at _ _ _ _) as [[frames p]|]; [|done]; simplify_eq; by apply publish_frames_tail.
    + simplify_eq. by apply flush_tail.
    + by simplify_eq.
  - destruct phase; cbn; [done..|]. by destruct (lo_returned (in_loop i)).
  - by apply flush_tail.
Qed.
End Steps.

(** * Stopping *)

Section Stopping.
Context `{PL : ProcessLib} `{CH : Chrono}.
(** The process of the epoch is dead. *)
Context (dead : Prop).
Context (spec : InstanceSpec) (epoch : Epoch) (w : StopWorld).
(** Documented behaviour: a supervisor that has stopped has no process left,
    and so has an epoch whose recorded process was killed or had exited. *)
Hypothesis supervisor_stops : sw_supervisor w = StopDone ∨ sw_supervisor w = StopAlreadyExited → dead.
Hypothesis reaper_kills : sw_reap w = Ok Killed ∨ sw_reap w = Ok AlreadyExited → dead.

(** The shared state when the stop takes the supervisor out of its slot, and
    when it decides. *)
Definition before_take (meanwhile : nat → Shared → Shared) (s : Shared) : Shared :=
  meanwhile 2%nat (stop_publish (meanwhile 1%nat (stop_mark (meanwhile 0%nat s)))).
Definition at_decision (meanwhile : nat → Shared → Shared) (s : Shared) : Shared :=
  meanwhile 3%nat (take_supervisor (before_take meanwhile s)).

(** C11: stopping an instance succeeds only when its process is dead, provided
    a terminal status is published only for a dead process and nobody else has
    taken the supervisor; every failure says that the stop is unconfirmed. *)
Theorem stop_confirms_death (meanwhile : nat → Shared → Shared) (s : Shared)
    (Hfirst : is_terminal (st_state (sh_status s)) = true → dead)
    (Hlast : is_terminal (st_state (sh_status (at_decision meanwhile s))) = true → dead)
    (Hslot : sh_supervisor (before_take meanwhile s) = true) :
  match (stop_and_confirm_dead spec epoch w meanwhile s).1 with
  | Ok _ => dead
  | Err e => ∃ message, e = StopUnconfirmed message
  end.
Proof.
  unfold stop_and_confirm_dead. destruct (is_terminal (st_state (sh_status s))) eqn:Et.
  { destruct (reap_epoch_record_if_present spec epoch w); cbn; [|by eexists]. by apply Hfirst. }
  fold (before_take meanwhile s). fold (at_decision meanwhile s). rewrite Hslot.
  revert Hlast. generalize (at_decision meanwhile s). intros s3 Ht3. unfold stop_decide, stop_result.
  destruct (res_is_ok _ && _) eqn:Eok.
  - apply andb_true_iff in Eok as [Eok _].
    destruct (reap_epoch_record_if_present spec epoch w); cbn; [|by eexists].
    apply supervisor_stops. destruct (sw_supervisor w); auto; done.
  - destruct (epoch_pid_path spec epoch); [|by eexists]. destruct (parent (is_config_path spec)); [|by eexists].
    destruct (sw_reap w) as [outcome|e] eqn:Er; [|by eexists].
    destruct (bool_decide (outcome = AlreadyExited) || _ || _) eqn:Eo; [|by eexists]. cbn [fst].
    apply orb_true_iff in Eo as [[->%bool_decide_eq_true| ->%bool_decide_eq_true]%orb_true_iff|[_ H]%andb_true_iff];
      [apply reaper_kills; auto..|by apply Ht3].
Qed.
End Stopping.
