(* ===== verification/InstanceRuns.v ===== *)
(** Concrete runs of one instance: a start that becomes ready, a start that
    misses its deadline, an exit, and a stop that overtakes the monitor. *)
From S2P Require Import Prelude Text Paths Metadata Types Health Log LogProps Instance InstanceProps.
From Stdlib Require String Ascii.
From Stdlib Require Import ZArith Lia.

#[local] Existing Instance calendar.
#[local] Existing Instance toy_process.

Definition demo_args : MonitorArgs :=
  mkMonitorArgs health_policy_default 100 1000 true (λ _, "exit").

Definition quiet (now : Z) (ack : bool) : Ready := mkReady now now 7%Z None ack.
Definition event (now : Z) (ev : SupervisorEvent) : Ready := mkReady now now 7%Z (Some (Some ev)) false.

Definition demo_new : Inst := instance_new Mihomo 1 0.

(** A round of the monitor, or nothing. *)
Definition round (r : Ready) (i : Inst) : Inst := default i (monitor_round demo_args r i).

(** Started, probed healthy once, and looked at by the monitor. *)
Definition demo_started : Inst := round (event 1 (SupStarted 42)) demo_new.
Definition demo_probed : Inst := driver_step "1s" (Answered Healthy) 1 5 5 demo_started.
Definition demo_running : Inst := round (quiet 6 true) demo_probed.

(** Started, never healthy, and looked at past the deadline. *)
Definition demo_late : Inst := round (quiet 1000 false) demo_started.
(** The loop then takes note of the cancellation. *)
Definition demo_late_noted : Inst := round (quiet 1001 false) demo_late.

(** A round whose result is known to exist is a step. *)
Definition can_round (r : Ready) (i : Inst) : bool :=
  (lo_next_run_id (in_loop i) <? u64_max)%Z && bool_decide (is_Some (monitor_round demo_args r i)).

Lemma round_step r i : can_round r i = true → istep demo_args i (round r i).
Proof.
  intros [Hlt%Z.ltb_lt [i' E]%bool_decide_eq_true]%andb_true_iff.
  unfold round. rewrite E. by apply (step_round _ r).
Qed.

Lemma demo_new_reachable : ireachable demo_args demo_new.
Proof. exists Mihomo, 1%Z, 0%Z. apply rtc_refl. Qed.

Lemma reachable_step i i' : ireachable demo_args i → istep demo_args i i' → ireachable demo_args i'.
Proof. intros (k & e & t & Hr) Hs. exists k, e, t. by eapply rtc_r. Qed.

Lemma demo_started_reachable : ireachable demo_args demo_started.
Proof. eapply reachable_step; [apply demo_new_reachable|]. apply round_step. by vm_compute. Qed.
Lemma demo_probed_reachable : ireachable demo_args demo_probed.
Proof. eapply reachable_step; [apply demo_started_reachable|]. apply step_driver. Qed.
Lemma demo_late_reachable : ireachable demo_args demo_late.
Proof. eapply reachable_step; [apply demo_started_reachable|]. apply round_step. by vm_compute. Qed.

Lemma default_policy_ok : policy_ok health_policy_default.
Proof. unfold policy_ok, u32_max. cbn. lia. Qed.


(** The start that misses its deadline. *)
Lemma startup_deadline_decides_witness :
  ∃ i', monitor_round demo_args (quiet 1000 false) demo_started = Some i'
    ∧ (lo_ever_ready (in_loop i') = true
       ∨ lo_timeout_fired (in_loop i') = true ∧ sh_probe_timeout (in_shared i') = true
         ∧ sh_probe_cancel (in_shared i') = true ∧ sh_cancel (in_shared i') = true).
Proof. apply startup_deadline_decides; by vm_compute. Defined.

Lemma startup_timeout_is_final_witness :
  instance_pid (in_shared demo_late) = None ∧ sh_cancel (in_shared demo_late) = true.
Proof.
  destruct (startup_timeout_is_final demo_args demo_late demo_late_reachable) as (H1 & H2 & _);
    [by vm_compute|exact (conj H1 H2)].
Defined.

Definition ends (r : Ready) (i : Inst) : bool :=
  match monitor_round demo_args r i with Some i' => lo_returned (in_loop i') | None => false end.

Lemma ends_round r i :
  ends r i = true → ∃ i', monitor_round demo_args r i = Some i' ∧ lo_returned (in_loop i') = true.
Proof. unfold ends. destruct (monitor_round demo_args r i) as [i'|]; [by exists i'|done]. Qed.

Lemma monitor_end_is_reported_witness :
  ∃ i' reason, monitor_round demo_args (event 1003 SupStopped) demo_late_noted = Some i'
    ∧ sh_status (in_shared i') = mkInstanceStatus None (IStopped reason) None.
Proof.
  destruct (ends_round (event 1003 SupStopped) demo_late_noted) as (i' & E & H); [by vm_compute|].
  destruct (monitor_end_is_reported demo_args _ _ _ E H) as [[reason [Hs _]] _].
  exists i', reason. exact (conj E Hs).
Defined.

Lemma tail_is_last_frames_witness :
  sh_tail (in_shared demo_late)
  = drop (length (sh_sent (in_shared demo_late)) - LOG_TAIL_FRAMES) (sh_sent (in_shared demo_late)).
Proof. exact (tail_is_last_frames demo_args demo_late demo_late_reachable). Defined.

(** * Stops *)

Definition demo_spec : InstanceSpec :=
  mkInstanceSpec (mkCoreSpec Mihomo "/bin/core" None []) "/run/config-1.yaml" "/work" (Some "/run/core-1.pid")
    instance_options_default.
Definition demo_world : StopWorld := mkStopWorld (Ok true) (Ok Killed) StopTimedOut false "10s".

(** The supervisor does not stop in time; the pid record leads to the process. *)
Lemma stop_confirms_death_witness :
  match (stop_and_confirm_dead demo_spec 1 demo_world (λ _ s, s) (in_shared demo_new)).1 with
  | Ok _ => sw_reap demo_world = Ok Killed
  | Err e => ∃ message, e = StopUnconfirmed message
  end.
Proof.
  apply (stop_confirms_death (sw_reap demo_world = Ok Killed) demo_spec 1 demo_world).
  - by intros [|].
  - done.
  - by vm_compute.
  - by vm_compute.
  - by vm_compute.
Defined.

(** What the other tasks do between the first look of a stop and its marks: the
    monitor ends and reports an exit. *)
Definition overtaken (n : nat) (s : Shared) : Shared :=
  if (n =? 0)%nat then publish_terminal (λ _, "exit") (Some (mkTerminated (Some 0%Z))) s else s.

(** The stop then succeeds, and the last status is [Stopping]: the terminal
    status of the monitor is overwritten. *)
Theorem stop_overwrites_terminal_status :
  let s := in_shared demo_running in
  let w := mkStopWorld (Ok false) (Ok NotFound) StopAlreadyExited true "10s" in
  st_state (sh_status (overtaken 0 s)) = IStopped Finished
  ∧ (stop_and_confirm_dead demo_spec 1 w overtaken s).1 = Ok tt
  ∧ st_state (sh_status (stop_and_confirm_dead demo_spec 1 w overtaken s).2) = IStopping.
Proof. by vm_compute. Qed.
