(* ===== verification/Executor.v ===== *)
(** The body of one operation (control/executor.rs: [execute], [reconcile],
    [materialize]) and the composition of the control plane with the manager it
    drives. *)
From S2P Require Import Prelude Text Paths Metadata Types Operation Control Health Yaml Diff Mihomo Config Capability RuntimeStore Runtime Manager ManagerSafety ManagerControl Simulation Runs ManagerProps.
From Stdlib Require Import ZArith Lia.

(** [tokio::fs::create_dir_all], [tokio::fs::write] and [tokio::fs::remove_file]. *)
Class SourceFs (W : Type) := {
  create_dir_all : string → M W (result unit IoError);
  write_source : string → string → M W (result unit IoError);
  remove_source : string → M W (result unit IoError);
}.

Section execute.
Context {PL : ProcessLib} {YF : YamlFloat} {PC : PatchCodec}.
Context {YC : YamlCodec} {UL : UrlLib} {SV : Semver}.
Context {W : Type} {EN : Env W} {FS : RuntimeFs W} {BH : BinaryHost W} {SF : SourceFs W}.
Context (self : Inner).

(** [ExecutorContext], without the manager and the registry. *)
Record ExecutorContext := mkContext { ec_source_dir : string; ec_working_dir : string }.
Context (context : ExecutorContext).

Definition domain {A} (id : OperationId) (r : result A Error) : result A CoreError :=
  res_map_err (λ e, core_error_from_domain e (Some id)) r.

(** [materialize]. *)
Definition materialize (source_dir file_name : string) (config : ConfigInput) (id : OperationId) :
    M Mgr (result string CoreError) :=
  let mismatch :=
    match ci_expected_digest config with
    | Some declared =>
        let computed := payload_digest (ci_bytes config) in
        if String.eqb declared computed then None
        else Some ("config digest mismatch: declared " +:+ declared +:+ ", computed " +:+ computed)
    | None => None
    end in
  match mismatch with
  | Some message => ret (Err (with_operation id (core_error_new CoreErrorKind.InvalidConfig message false)))
  | None =>
      r <- lift (io (create_dir_all source_dir)) ;;
      match r with
      | Err e => ret (Err (core_error_from_domain e (Some id)))
      | Ok _ =>
          let path := path_join source_dir file_name in
          r <- lift (io (write_source path (ci_bytes config))) ;;
          match r with
          | Err e => ret (Err (core_error_from_domain e (Some id)))
          | Ok _ => ret (Ok path)
          end
      end
  end.

(** [reconcile] of the executor. *)
Definition executor_reconcile (id : OperationId) (request : ReconcileRequest) :
    M Mgr (result ApplyOutcome CoreError) :=
  config_path <-? materialize (ec_source_dir context) "reconcile-source.yaml" (rr_config request) id ;;
  (let spec := mkInstanceSpec (rr_core request) config_path (ec_working_dir context) None (rr_options request) in
   r <- reconcile self spec (rr_expected_applied request) ;;
   ret (domain id r)).

(** [execute]. *)
Definition execute (id : OperationId) (command : CoreCommand) : M Mgr (result OperationOutput CoreError) :=
  match command with
  | Reconcile request => r <- executor_reconcile id request ;; ret (res_map Reconciled r)
  | Stop => r <- stop self ;; ret (res_map (λ _, OStopped) (domain id r))
  | Recover => r <- recover_quarantine self ;; ret (res_map (λ _, Recovered) (domain id r))
  | Shutdown => r <- shutdown self ;; ret (res_map (λ _, ShutDown) (domain id r))
  end.

Record CheckRequest := mkCheckRequest { cr_core : CoreSpec; cr_config : ConfigInput }.

(** The source file of one check. *)
Definition check_file_name (bytes : string) (id : OperationId) : string :=
  "check-source-" +:+ payload_digest bytes +:+ "-" +:+ operation_id_display id +:+ ".yaml".

(** [CoreControl::check] with a permit in hand and the operation id it
    generates; the semaphore is never closed. *)
Definition check_request (id : OperationId) (request : CheckRequest) : M Mgr (result unit CoreError) :=
  config_path <-? materialize (ec_source_dir context)
                    (check_file_name (ci_bytes (cr_config request)) id) (cr_config request) id ;;
  (let spec := mkInstanceSpec (cr_core request) config_path (ec_working_dir context) None instance_options_default in
   result <- lift (backend_check_config spec) ;;
   _ <- lift (remove_source config_path) ;;
   ret (res_map_err (λ e, core_error_from_domain e None) result)).

(** * The whole: a control plane over a manager *)

Context {Q : Type} {MP : Mpsc Q} {EL : EnvLaws W}.

Definition outcome_of (r : result OperationOutput CoreError) : Outcome :=
  match r with Ok o => OutOk o | Err e => OutErr e end.

Record System := mkSystem { sy_control : Control (Q:=Q); sy_manager : Mgr }.

(** A step: a submission, the closing latch, the shutdown request, a turn of
    the executor, the end of the running operation with what the manager
    answers, the end of the executor, a configuration check, or anything the manager and the host do
    outside the control plane's operations. *)
Inductive sys_step (settings : LocalIpcSettings) : System → System → Prop :=
| sys_submit c m id command :
    sys_step settings (mkSystem c m) (mkSystem (submit settings id command c).2 m)
| sys_latch c m : sys_step settings (mkSystem c m) (mkSystem (shutdown_latch c) m)
| sys_enqueue c m id :
    ct_closing c = true → (length (q_items (ct_queue c)) < q_capacity (ct_queue c))%nat →
    q_closed (ct_queue c) = false →
    sys_step settings (mkSystem c m) (mkSystem (shutdown_enqueue id c).2 m)
| sys_recv c m :
    ct_running c = None → ct_exit c = None → sys_step settings (mkSystem c m) (mkSystem (exec_recv c) m)
| sys_finish c m work :
    ct_running c = Some work → ct_exit c = None →
    sys_step settings (mkSystem c m)
      (let '(r, m') := execute (ew_id work) (ew_command work) m in
       mkSystem (exec_finish work (outcome_of r) c) m')
| sys_disconnect c m :
    ct_running c = None → ct_exit c = None → q_items (ct_queue c) = [] →
    sys_step settings (mkSystem c m) (mkSystem (exec_exit_clean (ct_registry c) (ct_queue c) (ct_closing c)) m)
| sys_check c m id request :
    sys_step settings (mkSystem c m) (mkSystem c (check_request id request m).2)
| sys_manager c m m' :
    mgr_step self m m' → sys_step settings (mkSystem c m) (mkSystem c m').

(** A control plane and a manager just built. *)
Definition sys_booted (rc qc : nat) (sy : System) : Prop :=
  sy_control sy = control_spawn rc qc ∧ booted (sy_manager sy).

Definition sys_reachable (settings : LocalIpcSettings) (rc qc : nat) (sy : System) : Prop :=
  ∃ sy0, sys_booted rc qc sy0 ∧ rtc (sys_step settings) sy0 sy.

(** Documented behaviour: writing or removing the source starts no process. *)
Class SourceFsLaws := {
  create_dir_all_quiesces p : quiesces alive (create_dir_all p);
  write_source_quiesces p c : quiesces alive (write_source p c);
  remove_source_quiesces p : quiesces alive (remove_source p);
}.
Context {SL : SourceFsLaws}.

(** * Safety *)
Lemma lift_safe {A} (m : M W A) : quiesces alive m → hoare safe (lift m) (λ _, safe).
Proof.
  intros Hm s Hs. unfold lift, bind, ret.
  pose proof (Hm (mg_world s)) as Hw. destruct (m (mg_world s)) as [r w]. cbn in *.
  exact (step_safe self s _ (step_host self w s Hw) Hs).
Qed.

Lemma lift_io_safe {A} (m : M W (result A IoError)) :
  quiesces alive m → hoare safe (lift (io m)) (λ _, safe).
Proof.
  intros Hm. apply lift_safe. intros w i. unfold io, bind, ret.
  specialize (Hm w i). by destruct (m w).
Qed.

Lemma materialize_safe dir name config id : hoare safe (materialize dir name config id) (λ _, safe).
Proof.
  unfold materialize. case_match; [by apply hoare_ret|].
  eapply (hoare_bind _ _ _ (λ _, safe)); [apply lift_io_safe, create_dir_all_quiesces|].
  intros [?|e]; [|by apply hoare_ret].
  eapply (hoare_bind _ _ _ (λ _, safe)); [apply lift_io_safe, write_source_quiesces|].
  intros [?|e]; by apply hoare_ret.
Qed.

Lemma execute_safe id command : hoare safe (execute id command) (λ _, safe).
Proof.
  destruct command as [request| | |]; cbn [execute].
  - eapply (hoare_bind _ _ _ (λ _, safe)); [|intros r; by apply hoare_ret].
    unfold executor_reconcile. eapply (hoare_bind_ok _ _ _ (λ _, safe)).
    + eapply hoare_post; [apply materialize_safe|]. by intros [].
    + intros path. eapply (hoare_bind _ _ _ (λ _, safe)); [apply reconcile_safe|]. intros r. by apply hoare_ret.
  - eapply (hoare_bind _ _ _ (λ _, safe)); [apply stop_safe|]. intros r. by apply hoare_ret.
  - eapply (hoare_bind _ _ _ (λ _, safe)); [apply recover_safe|]. intros r. by apply hoare_ret.
  - eapply (hoare_bind _ _ _ (λ _, safe)); [apply shutdown_safe|]. intros r. by apply hoare_ret.
Qed.

Lemma check_request_safe id request : hoare safe (check_request id request) (λ _, safe).
Proof.
  unfold check_request. eapply (hoare_bind_ok _ _ _ (λ _, safe)).
  - eapply hoare_post; [apply materialize_safe|]. by intros [].
  - intros path. eapply (hoare_bind _ _ _ (λ _, safe)); [apply lift_safe, check_config_quiesces|]. intros r.
    eapply (hoare_bind _ _ _ (λ _, safe)); [apply lift_safe, remove_source_quiesces|]. intros ?. by apply hoare_ret.
Qed.

(** The parts of a reachable system are reachable and safe. *)
Lemma sys_parts settings rc qc sy :
  sys_reachable settings rc qc sy →
  Control.reachable settings rc qc (sy_control sy) ∧ safe (sy_manager sy).
Proof.
  intros (sy0 & [Hc Hm] & Hs).
  assert (H0 : Control.reachable settings rc qc (sy_control sy0) ∧ safe (sy_manager sy0)).
  { split; [rewrite Hc; exact (reach_init _ _ _)|by apply booted_safe]. }
  clear Hc Hm. induction Hs as [|x y z Hstep _ IH]; [done|]. apply IH. clear IH.
  destruct H0 as [Hr Hsafe].
  destruct Hstep as [c m id command|c m|c m id ???|c m ??|c m work Hrun Hex|c m ???|c m id request|c m m' Hm]; cbn in *.
  - split; [|done]. exact (reach_step _ _ _ _ _ Hr (step_submit _ c id command)).
  - split; [|done]. exact (reach_step _ _ _ _ _ Hr (step_shutdown_latch _ c)).
  - split; [|done]. by refine (reach_step _ _ _ _ _ Hr (step_shutdown_enqueue _ c id _ _ _)).
  - split; [|done]. by refine (reach_step _ _ _ _ _ Hr (step_recv _ c _ _)).
  - pose proof (execute_safe (ew_id work) (ew_command work) m Hsafe) as He.
    destruct (execute (ew_id work) (ew_command work) m) as [r m']. cbn in *.
    split; [|done]. by refine (reach_step _ _ _ _ _ Hr (step_finish _ c work (outcome_of r) _ _)).
  - split; [|done]. by refine (reach_step _ _ _ _ _ Hr (step_disconnect _ c _ _ _)).
  - split; [done|]. by apply check_request_safe.
  - split; [done|]. by eapply step_safe.
Qed.

(** however operations are submitted, queued, run, refused or abandoned by
    the control plane, no core process is lost: what may still run is the
    manager's installed instance or an epoch in quarantine. *)
Theorem system_no_process_lost (settings : LocalIpcSettings) (rc qc : nat) (sy : System) (i : Instance_)
    (Hsy : sys_reachable settings rc qc sy) (Hi : alive (mg_world (sy_manager sy)) i) :
  (∃ a, mg_current (sy_manager sy) = Some a ∧ ac_instance a = i)
  ∨ inst_epoch i ∈ qe_epoch <$> mg_quarantine (sy_manager sy).
Proof.
  destruct (sys_parts _ _ _ _ Hsy) as [_ [c [[Hc _ _] _]]].
  destruct (Hc i Hi) as [Hnil|?]; [by apply elem_of_nil in Hnil|done].
Qed.

(** the operation the control plane reports as running is the one its
    executor works on, and when it ends, the state its handle shows is the
    manager's own answer. *)
Theorem operation_answer_is_the_managers {ML : MpscLaws Q} (settings : LocalIpcSettings) (rc qc : nat)
    (sy : System) (work : ExecutorWork)
    (Hsy : sys_reachable settings rc qc sy) (Hrun : ct_running (sy_control sy) = Some work)
    (Hcommand : is_shutdown (ew_command work) = false) :
  registry_get (ew_id work) (ct_registry (sy_control sy)) = Some ORunning
  ∧ ∀ r m', execute (ew_id work) (ew_command work) (sy_manager sy) = (r, m') →
    registry_get (ew_id work) (ct_registry (exec_finish work (outcome_of r) (sy_control sy)))
    = Some match r with Ok o => Succeeded o | Err e => Failed e end.
Proof.
  destruct (sys_parts _ _ _ _ Hsy) as [Hr _]. apply reachable_inv in Hr as [Hl _ _ _].
  destruct (li_live _ _ Hl (ew_id work) ORunning) as [_ Hst]; [rewrite Hrun; by left|].
  split; [done|]. intros r m' _.
  apply fmap_Some in Hst as (op & Hop & _).
  unfold registry_get. destruct r as [o|e]; cbn; rewrite Hcommand; cbn; rewrite lookup_alter_eq, Hop; done.
Qed.

(** a configuration whose bytes do not have the declared digest is refused
    as invalid before anything happens: the manager and the host are as they
    were. *)
Theorem corrupt_config_is_refused (id : OperationId) (request : ReconcileRequest) (declared : string) (m : Mgr)
    (Hdeclared : ci_expected_digest (rr_config request) = Some declared)
    (Hcorrupt : declared ≠ payload_digest (ci_bytes (rr_config request))) :
  ∃ e, execute id (Reconcile request) m = (Err e, m)
    ∧ ce_kind e = Some CoreErrorKind.InvalidConfig ∧ ce_operation_id e = Some id.
Proof.
  cbn [execute]. unfold executor_reconcile, bind_ok, materialize. rewrite Hdeclared.
  apply String.eqb_neq in Hcorrupt as ->. by eexists.
Qed.
End execute.

(** * A concrete run *)

#[export] Instance sim_source : SourceFs Sim := {|
  create_dir_all _ := ret (Ok ());
  write_source p c := on_disk (λ d, (Ok (), with_files (<[p:=c]>) d));
  remove_source p := on_disk (λ d, (Ok (), with_files (delete p) d));
|}.

#[export] Instance sim_source_laws : SourceFsLaws (W:=Sim).
Proof. split; intros; intros w i; cbn; exact (λ H, H). Qed.

Module demo_system.
Definition settings : LocalIpcSettings := mkLocalIpc Prefer false.
Definition context : ExecutorContext := mkContext "/var/source" "/work".
Definition request (digest : option string) : ReconcileRequest :=
  mkReconcileRequest (mkCoreSpec Mihomo "/bin/mihomo" None []) (Inline "rule" digest)
    (let o := instance_options_default in
     mkInstanceOptions (Some settings) (io_startup_timeout o) (io_health o) (io_restart_policy o) (io_backoff o))
    None.
Definition work : ExecutorWork := mkWork (demo.opid 1) (Reconcile (request None)).

Definition c1 : Control (Q:=ListQueue) :=
  (submit settings (ew_id work) (ew_command work) (control_spawn 4 2)).2.
Definition c2 : Control := exec_recv c1.
(** The operation is running. *)
Definition running_system : System := mkSystem c2 sim_booted.
(** The operation has run, and the core is up. *)
Definition run : result OperationOutput CoreError * Mgr :=
  execute sim_self context (ew_id work) (ew_command work) sim_booted.
Definition done_system : System := mkSystem (exec_finish work (outcome_of run.1) c2) run.2.

Lemma boots : sys_booted 4 2 (mkSystem (control_spawn 4 2) sim_booted).
Proof. split; [reflexivity|]. exists 0%Z, 0%Z, false, sim_world. split; [|reflexivity]. by intros i ?%elem_of_nil. Qed.

Lemma running_reachable : sys_reachable sim_self context settings 4 2 running_system.
Proof.
  eexists. split; [exact boots|]. eapply rtc_l; [apply sys_submit|].
  eapply rtc_l; [apply sys_recv; vm_compute; reflexivity|]. apply rtc_refl.
Qed.

Lemma done_reachable : sys_reachable sim_self context settings 4 2 done_system.
Proof.
  destruct running_reachable as (sy0 & Hb & Hr). exists sy0. split; [exact Hb|].
  eapply rtc_r; [exact Hr|]. unfold done_system, run.
  pose proof (sys_finish sim_self context settings c2 sim_booted work) as Hs.
  destruct (execute sim_self context (ew_id work) (ew_command work) sim_booted) as [r m].
  apply Hs; vm_compute; reflexivity.
Qed.
End demo_system.

Lemma system_no_process_lost_witness :
  (∃ a, mg_current (sy_manager demo_system.done_system) = Some a ∧ ac_instance a = sim_first)
  ∨ inst_epoch sim_first ∈ qe_epoch <$> mg_quarantine (sy_manager demo_system.done_system).
Proof.
  apply (system_no_process_lost sim_self demo_system.context demo_system.settings 4 2
           demo_system.done_system sim_first demo_system.done_reachable).
  apply (bool_decide_unpack (sim_first ∈ sw_live (mg_world (sy_manager demo_system.done_system)))).
  vm_compute. exact Logic.I.
Defined.

Lemma operation_answer_is_the_managers_witness :
  registry_get (ew_id demo_system.work) (ct_registry (sy_control demo_system.running_system)) = Some ORunning.
Proof.
  refine (proj1 (operation_answer_is_the_managers sim_self demo_system.context demo_system.settings 4 2
           demo_system.running_system demo_system.work demo_system.running_reachable _ _)); vm_compute; reflexivity.
Defined.

Lemma corrupt_config_is_refused_witness :
  ∃ e, execute sim_self demo_system.context (demo.opid 1) (Reconcile (demo_system.request (Some "x"))) sim_booted
       = (Err e, sim_booted)
    ∧ ce_kind e = Some CoreErrorKind.InvalidConfig ∧ ce_operation_id e = Some (demo.opid 1).
Proof.
  apply (corrupt_config_is_refused sim_self demo_system.context (demo.opid 1)
           (demo_system.request (Some "x")) "x" sim_booted); [reflexivity|].
  apply String.eqb_neq. vm_compute. reflexivity.
Defined.
