(* ===== verification/LogIndex.v ===== *)
(** The index over a log file of the service (nyanpasu-logging, index.rs): the
    bytes of a file arrive in contiguous batches, every complete line becomes an
    entry with its physical offsets, old entries are evicted, and bounded pages
    are read off the index under a filter.

    [serde_json] and [chrono] are the class [LineCodec], the string interner of
    the [lasso] crate is the class [Interner].  Offsets are [u64] in the source
    and do not wrap before a file of 2^64 bytes; they are integers here.  A
    function that can panic returns an option, [None] being the panic. *)
From stdpp Require Import base gmap strings list sets.
From S2P Require Import Prelude Text.
From Stdlib Require Import ZArith Lia.

Definition MAX_WINDOW : Z := 33554432.
Definition MAX_ENTRIES : Z := 250000.
Definition MAX_LINE : Z := 262144.
Definition MAX_BATCH : Z := 1048576.
Definition MAX_TARGET_BYTES : Z := 8388608.
Definition MAX_PAGE : Z := 200.
Definition MAX_SCAN : Z := 2000.
(** The longest target that is indexed. *)
Definition MAX_TARGET : Z := 4096.

Inductive Level := Trace | Debug | Info | Warn | Error | Fatal | Unknown.
#[export] Instance Level_eq_dec : EqDecision Level.
Proof. solve_decision. Defined.

(** [level as usize]. *)
Definition level_index (l : Level) : nat :=
  match l with Trace => 0 | Debug => 1 | Info => 2 | Warn => 3 | Error => 4 | Fatal => 5 | Unknown => 6 end.

(** [u8::to_ascii_lowercase] and [str::to_ascii_lowercase]. *)
Definition ascii_lower (c : Ascii.ascii) : Ascii.ascii :=
  let n := Ascii.nat_of_ascii c in
  if (65 <=? n)%nat && (n <=? 90)%nat then Ascii.ascii_of_nat (n + 32) else c.
Fixpoint to_ascii_lowercase (s : string) : string :=
  match s with EmptyString => EmptyString | String c s' => String (ascii_lower c) (to_ascii_lowercase s') end.

(** [Level::parse]. *)
Definition level_parse (value : string) : Level :=
  let v := to_ascii_lowercase value in
  if String.eqb v "trace" then Trace
  else if String.eqb v "debug" then Debug
  else if String.eqb v "info" then Info
  else if String.eqb v "warn" || String.eqb v "warning" then Warn
  else if String.eqb v "error" then Error
  else if String.eqb v "fatal" then Fatal
  else Unknown.

Record Filter := mkFilter {
  fl_levels : list Level;
  fl_target : option string;
  fl_from_ms : option Z;
  fl_to_ms : option Z;
  fl_text : option string;
}.

(** [chars().count()] of UTF-8 text: the bytes that do not continue a
    character. *)
Fixpoint chars_count (s : string) : Z :=
  match s with
  | EmptyString => 0
  | String c s' =>
      let n := Ascii.nat_of_ascii c in
      (if (128 <=? n)%nat && (n <? 192)%nat then 0 else 1) + chars_count s'
  end.

(** [Filter::valid]. *)
Definition filter_valid (f : Filter) : bool :=
  (length (fl_levels f) <=? 7)%nat
  && (if fl_target f is Some s then Z.of_nat (String.length s) <=? 4096 else true)%Z
  && (if fl_text f is Some s then chars_count s <=? 256 else true)%Z
  && negb (match fl_from_ms f, fl_to_ms f with Some a, Some b => b <? a | _, _ => false end)%Z.

Inductive Direction := Latest | Before | After.
#[export] Instance Direction_eq_dec : EqDecision Direction.
Proof. solve_decision. Defined.

(** * Parameters *)

(** [serde_json::from_slice::<Value>], [Value::is_object], [v[key].as_str()]
    and [DateTime::parse_from_rfc3339 .. timestamp_millis]. *)
Class LineCodec := {
  JsonValue : Type;
  json_from_slice : list Ascii.ascii → option JsonValue;
  json_is_object : JsonValue → bool;
  json_str : JsonValue → string → option string;
  rfc3339_ms : string → option Z;
}.

(** [lasso::Rodeo].  Resolving a key of another pool panics. *)
Class Interner := {
  Spur : Type;
  Spur_eq_dec :: EqDecision Spur;
  Spur_countable :: Countable Spur;
  Rodeo : Type;
  rodeo_new : Rodeo;
  rodeo_get : Rodeo → string → option Spur;
  rodeo_intern : Rodeo → string → Spur * Rodeo;
  rodeo_resolve : Rodeo → Spur → option string;
}.

(** Documented behaviour of the interner: a pool assigns distinct strings
    distinct keys, keeps them, and resolves exactly the keys it assigned. *)
Class InternerLaws (I : Interner) := {
  get_new s : rodeo_get rodeo_new s = None;
  get_intern r s s' :
    rodeo_get (rodeo_intern r s).2 s' = if decide (s = s') then Some (rodeo_intern r s).1 else rodeo_get r s';
  resolve_get r k s : rodeo_resolve r k = Some s ↔ rodeo_get r s = Some k;
}.

(** * Binary search of a sorted slice *)

(** The bisection of [partition_point] over the positions [lo..hi). *)
Fixpoint bisect (fuel : nat) (p : nat → bool) (lo hi : nat) : nat :=
  match fuel with
  | O => lo
  | S fuel' =>
      if (lo <? hi)%nat then
        let mid := (lo + (hi - lo) / 2)%nat in
        if p mid then bisect fuel' p (S mid) hi else bisect fuel' p lo mid
      else lo
  end.

Definition partition_point {A} (p : A → bool) (l : list A) : nat :=
  bisect (length l) (λ i, if l !! i is Some x then p x else false) 0 (length l).

(** [binary_search_by_key] over distinct keys. *)
Definition binary_search_by_key {A} (key : A → Z) (id : Z) (l : list A) : option nat :=
  let i := partition_point (λ x, key x <? id)%Z l in
  if l !! i is Some x then if (key x =? id)%Z then Some i else None else None.

Section index.
Context {LC : LineCodec} {IN : Interner}.

Record LEntry := mkEntry {
  en_start : Z;
  en_end : Z;
  en_timestamp : option Z;
  en_level : Level;
  en_target : Spur;
  en_unparsed : bool;
  en_truncated : bool;
}.

Definition retarget (k : Spur) (e : LEntry) : LEntry :=
  mkEntry (en_start e) (en_end e) (en_timestamp e) (en_level e) k (en_unparsed e) (en_truncated e).

Record LScan := mkScan { sn_entries : list LEntry; sn_boundary : Z; sn_more : bool }.

(** The fields [entries], [targets], [postings], [levels] and [target_bytes] of
    [Index], which one entry enters together. *)
Record Tables := mkTables {
  tb_entries : list LEntry;
  tb_targets : Rodeo;
  tb_postings : gmap Spur (list Z);
  tb_levels : list (list Z);
  tb_target_bytes : Z;
}.

Definition tables_new : Tables := mkTables [] rodeo_new ∅ (replicate 7 []) 0.

Record Index := mkIndex {
  ix_tables : Tables;
  ix_pending : list Ascii.ascii;
  ix_line_start : Z;
  ix_next_read : Z;
  ix_committed : Z;
  ix_skipping : bool;
  ix_malformed : Z;
  ix_truncated : Z;
  ix_partial : bool;
}.

Definition ix_entries (ix : Index) : list LEntry := tb_entries (ix_tables ix).
Definition ix_targets (ix : Index) : Rodeo := tb_targets (ix_tables ix).

(** [Index::new]. *)
Definition index_new (start : Z) : Index :=
  mkIndex tables_new [] start start start (negb (start =? 0)%Z) 0 0 (negb (start =? 0)%Z).

(** [Index::start]. *)
Definition index_start (ix : Index) : Z :=
  if ix_entries ix is e :: _ then en_start e else ix_committed ix.

(** [targets.get(name).unwrap_or_else(|| { bytes += name.len(); get_or_intern(name) })]
    and the three pushes that follow it. *)
Definition push_entry (name : string) (entry : Spur → LEntry) (t : Tables) : Tables :=
  let '(key, pool, bytes) :=
    match rodeo_get (tb_targets t) name with
    | Some key => (key, tb_targets t, tb_target_bytes t)
    | None =>
        let '(key, pool) := rodeo_intern (tb_targets t) name in
        (key, pool, tb_target_bytes t + Z.of_nat (String.length name))%Z
    end in
  let e := entry key in
  mkTables (tb_entries t ++ [e]) pool
    (<[key := default [] (tb_postings t !! key) ++ [en_start e]]> (tb_postings t))
    (alter (λ l, l ++ [en_start e]) (level_index (en_level e)) (tb_levels t))
    bytes.

(** The [while] loop of [evict]. *)
Fixpoint pop_old (floor : Z) (l : list LEntry) : list LEntry * bool :=
  match l with
  | [] => ([], false)
  | e :: l' =>
      if (MAX_ENTRIES <? Z.of_nat (length l))%Z || (en_start e <? floor)%Z
      then ((pop_old floor l').1, true)
      else (l, false)
  end.

(** The [for] loop of [evict]. *)
Fixpoint rebuild (old : Rodeo) (t : Tables) (l : list LEntry) : option Tables :=
  match l with
  | [] => Some t
  | e :: l' =>
      name ← rodeo_resolve old (en_target e);
      rebuild old (push_entry name (λ k, retarget k e) t) l'
  end.

(** [Index::evict]. *)
Definition evict (ix : Index) : option Index :=
  let floor := Z.max 0 (ix_next_read ix - MAX_WINDOW) in
  let '(kept, removed) := pop_old floor (ix_entries ix) in
  if removed then
    t ← rebuild (ix_targets ix) tables_new kept;
    Some (mkIndex t (ix_pending ix) (ix_line_start ix) (ix_next_read ix) (ix_committed ix)
            (ix_skipping ix) (ix_malformed ix) (ix_truncated ix) true)
  else Some ix.

(** What [insert] reads off a line: the time, the level, the target, and
    whether it was no object. *)
Definition line_object (line : list Ascii.ascii) : option JsonValue :=
  v ← json_from_slice line; if json_is_object v then Some v else None.
Definition line_timestamp (line : list Ascii.ascii) : option Z :=
  v ← line_object line; s ← json_str v "timestamp"; rfc3339_ms s.
Definition line_level (line : list Ascii.ascii) : Level :=
  default Unknown (level_parse <$> (v ← line_object line; json_str v "level")).
Definition line_target (line : list Ascii.ascii) : string :=
  default "" (v ← line_object line; json_str v "target").

(** [Index::insert]. *)
Definition insert_line (line : list Ascii.ascii) (ix : Index) : option Index :=
  let raw_target := line_target line in
  let truncated := (MAX_TARGET <? Z.of_nat (String.length raw_target))%Z in
  let target := if truncated then "" else raw_target in
  let over ix := (MAX_TARGET_BYTES <? tb_target_bytes (ix_tables ix) + Z.of_nat (String.length target))%Z in
  let absent := if rodeo_get (ix_targets ix) target is Some _ then false else true in
  '(ix, target, truncated) ←
    (if absent && over ix then
       ix ← evict ix;
       Some (if over ix then (ix, "", true) else (ix, target, truncated))
     else Some (ix, target, truncated));
  let unparsed := if line_object line is Some _ then false else true in
  let entry key :=
    mkEntry (ix_line_start ix) (ix_next_read ix) (line_timestamp line) (line_level line) key unparsed truncated in
  Some (mkIndex (push_entry target entry (ix_tables ix)) (ix_pending ix) (ix_line_start ix) (ix_next_read ix)
          (ix_committed ix) (ix_skipping ix) (ix_malformed ix + Z.b2z unparsed)
          (ix_truncated ix + Z.b2z truncated) (ix_partial ix)).

(** [b'\n']. *)
Definition newline : Ascii.ascii := Ascii.ascii_of_nat 10.

(** The body of the loop of [append]. *)
Definition append_byte (byte : Ascii.ascii) (ix : Index) : option Index :=
  let ix := mkIndex (ix_tables ix) (ix_pending ix) (ix_line_start ix) (ix_next_read ix + 1) (ix_committed ix)
              (ix_skipping ix) (ix_malformed ix) (ix_truncated ix) (ix_partial ix) in
  if Ascii.eqb byte newline then
    ix ← (if ix_skipping ix then Some ix else insert_line (ix_pending ix) ix);
    Some (mkIndex (ix_tables ix) [] (ix_next_read ix) (ix_next_read ix) (ix_next_read ix) false
            (ix_malformed ix) (ix_truncated ix) (ix_partial ix))
  else if ix_skipping ix then Some ix
  else if (Z.of_nat (length (ix_pending ix)) =? MAX_LINE)%Z then
    Some (mkIndex (ix_tables ix) [] (ix_line_start ix) (ix_next_read ix) (ix_committed ix) true
            (ix_malformed ix) (ix_truncated ix + 1) true)
  else
    Some (mkIndex (ix_tables ix) (ix_pending ix ++ [byte]) (ix_line_start ix) (ix_next_read ix) (ix_committed ix)
            false (ix_malformed ix) (ix_truncated ix) (ix_partial ix)).

Fixpoint append_bytes (bytes : list Ascii.ascii) (ix : Index) : option Index :=
  match bytes with
  | [] => Some ix
  | b :: bytes' => ix ← append_byte b ix; append_bytes bytes' ix
  end.

(** [Index::append]. *)
Definition append (offset : Z) (bytes : list Ascii.ascii) (ix : Index) : option (result unit string * Index) :=
  if negb (offset =? ix_next_read ix)%Z || (MAX_BATCH <? Z.of_nat (length bytes))%Z
  then Some (Err "noncontiguous or oversized batch", ix)
  else ix ← append_bytes bytes ix; ix ← evict ix; Some (Ok (), ix).

(** The tests of [scan] on one entry, in its order. *)
Definition scan_keeps (f : Filter) (target_key : option Spur) (e : LEntry) : bool :=
  negb (negb (bool_decide (fl_levels f = [])) && negb (bool_decide (en_level e ∈ fl_levels f)))
  && negb (if target_key is Some key then bool_decide (key ≠ en_target e) else false)
  && negb (if fl_from_ms f is Some from then (if en_timestamp e is Some t then t <? from else true)%Z else false)
  && negb (if fl_to_ms f is Some to then (if en_timestamp e is Some t then to <=? t else true)%Z else false).

(** The [for] loop of [scan]: the kept entries in the order of the walk, the
    boundary, and whether the walk was cut.  A position is [None] when the
    entry of a posting is not found, on which the source panics. *)
Fixpoint scan_loop (f : Filter) (target_key : option Spur) (backward : bool) (cap : Z) (entries : list LEntry)
    (positions : list (option nat)) (scanned : Z) (acc : list LEntry) (boundary : Z) :
    option (list LEntry * Z * bool) :=
  match positions with
  | [] => Some (acc, boundary, false)
  | p :: positions' =>
      position ← p;
      if (MAX_SCAN <=? scanned)%Z || (cap <=? Z.of_nat (length acc))%Z then Some (acc, boundary, true)
      else
        entry ← entries !! position;
        scan_loop f target_key backward cap entries positions' (scanned + 1)
          (if scan_keeps f target_key entry then acc ++ [entry] else acc)
          (if backward then en_start entry else en_end entry)
  end.

(** The shortest posting that applies. *)
Definition scan_posting (ix : Index) (f : Filter) (target_key : option Spur) : option (list Z) :=
  let by_target := key ← target_key; tb_postings (ix_tables ix) !! key in
  let by_level :=
    if fl_levels f is [l] then tb_levels (ix_tables ix) !! level_index l else None in
  match by_target, by_level with
  | Some a, Some b => Some (if (length a <? length b)%nat then a else b)
  | a, b => if a is Some _ then a else b
  end.

Definition scan_positions (ix : Index) (posting : option (list Z)) (backward : bool) (boundary : Z) :
    list (option nat) :=
  match posting with
  | Some posting =>
      let split := partition_point (λ p, p <? boundary)%Z posting in
      let ids := if backward then reverse (take split posting) else drop split posting in
      (λ id, binary_search_by_key en_start id (ix_entries ix)) <$> ids
  | None =>
      let split := partition_point (λ e, en_start e <? boundary)%Z (ix_entries ix) in
      Some <$> (if backward then reverse (seq 0 split) else seq split (length (ix_entries ix) - split))
  end.

(** [usize::clamp(1, MAX_PAGE)]. *)
Definition page_cap (limit : Z) : Z := Z.min (Z.max 1 limit) MAX_PAGE.

Definition is_reverse (d : Direction) : bool := bool_decide (d ≠ After).

(** [Index::scan]. *)
Definition scan (f : Filter) (direction : Direction) (boundary : option Z) (limit : Z) (ix : Index) : option LScan :=
  let backward := is_reverse direction in
  let boundary := default (if backward then ix_committed ix else index_start ix) boundary in
  let last := if backward then index_start ix else ix_committed ix in
  let target_key := t ← fl_target f; rodeo_get (ix_targets ix) t in
  if (match fl_target f with Some _ => true | None => false end)
     && (match target_key with Some _ => false | None => true end)
  then Some (mkScan [] last false)
  else
    match scan_loop f target_key backward (page_cap limit) (ix_entries ix)
            (scan_positions ix (scan_posting ix f target_key) backward boundary) 0 [] boundary with
    | None => None
    | Some (found, boundary, more) =>
        Some (mkScan (if backward then reverse found else found) (if more then boundary else last) more)
    end.
End index.
