(* ===== verification/LogIndexProps.v ===== *)
(** The index of a log file holds what the file says: its tables agree with its
    entries, and its entries are the complete lines of the file that the window
    and the entry bound retain, whatever batches the bytes came in. *)
From stdpp Require Import base gmap strings list sets fin_sets.
From S2P Require Import Prelude Text LogIndex.
From Stdlib Require Import ZArith Lia.

(** * What an entry says, and the file it is read from *)

(** The bytes of a set of targets. *)
Definition name_bytes (X : gset string) : Z := set_fold (λ s n, Z.of_nat (String.length s) + n)%Z 0%Z X.

Lemma name_bytes_add X s : s ∉ X → name_bytes ({[s]} ∪ X) = (Z.of_nat (String.length s) + name_bytes X)%Z.
Proof.
  intros Hs. unfold name_bytes. rewrite set_fold_disj_union_strong; [|try apply _..|set_solver].
  - rewrite set_fold_singleton. cbn.
    assert (∀ n, set_fold (λ s n, Z.of_nat (String.length s) + n)%Z n X
                 = (n + set_fold (λ s n, Z.of_nat (String.length s) + n)%Z 0%Z X)%Z) as H.
    { intros n. unfold set_fold; cbn. induction (elements X) as [|x l IH]; cbn; [lia|]. rewrite IH. lia. }
    rewrite H. lia.
  - intros. lia.
Qed.

Lemma name_bytes_nonneg X : (0 ≤ name_bytes X)%Z.
Proof.
  induction X as [|s X Hs IH] using set_ind_L; [by unfold name_bytes; rewrite set_fold_empty|].
  rewrite name_bytes_add by done. lia.
Qed.

Lemma name_bytes_mono X Y : X ⊆ Y → (name_bytes X ≤ name_bytes Y)%Z.
Proof.
  revert Y. induction X as [|s X Hs IH] using set_ind_L; intros Y HY.
  - unfold name_bytes at 1. rewrite set_fold_empty. apply name_bytes_nonneg.
  - replace Y with ({[s]} ∪ Y ∖ {[s]}).
    + rewrite !name_bytes_add by set_solver. specialize (IH (Y ∖ {[s]})). 
      assert (X ⊆ Y ∖ {[s]}) by set_solver. specialize (IH H). lia.
    + apply set_eq. intros x. destruct (decide (x = s)); set_solver.
Qed.

Section props.
Context {LC : LineCodec} {IN : Interner} {IL : InternerLaws IN}.

(** An entry with its target read out of the pool. *)
Record Row := mkRow {
  rw_start : Z;
  rw_end : Z;
  rw_timestamp : option Z;
  rw_level : Level;
  rw_target : option string;
  rw_unparsed : bool;
  rw_truncated : bool;
}.

Definition row (r : Rodeo) (e : LEntry) : Row :=
  mkRow (en_start e) (en_end e) (en_timestamp e) (en_level e) (rodeo_resolve r (en_target e))
    (en_unparsed e) (en_truncated e).

Definition table_rows (t : Tables) : list Row := row (tb_targets t) <$> tb_entries t.
Definition rows (ix : Index) : list Row := table_rows (ix_tables ix).

(** The complete lines of a file that is read from [start] on, each with its
    offset: [skip] is set when the first line is a fragment, [cur] is what was
    read of the current line.  Lines over the bound are left out. *)
Fixpoint lines_from (skip : bool) (start : Z) (cur bytes : list Ascii.ascii) : list (Z * list Ascii.ascii) :=
  match bytes with
  | [] => []
  | b :: bytes' =>
      if Ascii.eqb b newline then
        let later := lines_from false (start + Z.of_nat (length cur) + 1) [] bytes' in
        if skip || (MAX_LINE <? Z.of_nat (length cur))%Z then later else (start, cur) :: later
      else lines_from skip start (cur ++ [b]) bytes'
  end.

Definition file_lines (start : Z) (bytes : list Ascii.ascii) : list (Z * list Ascii.ascii) :=
  lines_from (negb (start =? 0)%Z) start [] bytes.

(** The lines an index keeps: at most [MAX_ENTRIES] of them, the last ones, and
    none that begins before the window. *)
Fixpoint retained (floor : Z) (l : list (Z * list Ascii.ascii)) : list (Z * list Ascii.ascii) :=
  match l with
  | [] => []
  | x :: l' =>
      if (MAX_ENTRIES <? Z.of_nat (length l))%Z || (x.1 <? floor)%Z then retained floor l' else l
  end.

Definition window_floor (next_read : Z) : Z := Z.max 0 (next_read - MAX_WINDOW).

(** The entry of a line.  A target is the line's own, unless it was cut: then it
    is empty and the entry is marked. *)
Definition describes (l : Z * list Ascii.ascii) (r : Row) : Prop :=
  rw_start r = l.1
  ∧ rw_end r = (l.1 + Z.of_nat (length l.2) + 1)%Z
  ∧ rw_timestamp r = line_timestamp l.2
  ∧ rw_level r = line_level l.2
  ∧ rw_unparsed r = (if line_object l.2 is Some _ then false else true)
  ∧ rw_target r = Some (if rw_truncated r then "" else line_target l.2).

(** * The invariant of the tables *)

Definition names (t : Tables) : gset string :=
  list_to_set (omap (λ e, rodeo_resolve (tb_targets t) (en_target e)) (tb_entries t)).

Record tables_ok (t : Tables) : Prop := {
  to_resolves e : e ∈ tb_entries t → is_Some (rodeo_resolve (tb_targets t) (en_target e));
  to_used s k : rodeo_get (tb_targets t) s = Some k → s ∈ names t;
  to_postings k :
    default [] (tb_postings t !! k) = en_start <$> filter (λ e, en_target e = k) (tb_entries t);
  to_levels l :
    tb_levels t !! level_index l = Some (en_start <$> filter (λ e, en_level e = l) (tb_entries t));
  to_bytes : tb_target_bytes t = name_bytes (names t);
}.

Lemma tables_new_ok : tables_ok tables_new.
Proof.
  split; cbn.
  - by intros e ?%elem_of_nil.
  - intros s k. by rewrite get_new.
  - intros k. by rewrite lookup_empty.
  - by intros [].
  - reflexivity.
Qed.

(** ** Pushing an entry *)

(** The key and the pool after [name] is interned. *)
Definition interned (name : string) (r : Rodeo) : Spur * Rodeo :=
  match rodeo_get r name with Some key => (key, r) | None => rodeo_intern r name end.

Lemma interned_get name r s :
  rodeo_get (interned name r).2 s = if decide (name = s) then Some (interned name r).1 else rodeo_get r s.
Proof.
  unfold interned. destruct (rodeo_get r name) as [k|] eqn:E; cbn; [|apply get_intern].
  by destruct (decide (name = s)) as [<-|].
Qed.

Lemma interned_resolve name r : rodeo_resolve (interned name r).2 (interned name r).1 = Some name.
Proof. apply resolve_get. rewrite interned_get. by rewrite decide_True. Qed.

(** Keys keep their meaning. *)
Lemma interned_keeps name r k s : rodeo_resolve r k = Some s → rodeo_resolve (interned name r).2 k = Some s.
Proof.
  rewrite !resolve_get, interned_get. intros H. case_decide as Hs; [|done]. subst s.
  unfold interned. rewrite H. done.
Qed.

Lemma push_entry_eq name entry t :
  push_entry name entry t =
  let '(key, pool) := interned name (tb_targets t) in
  mkTables (tb_entries t ++ [entry key]) pool
    (<[key := default [] (tb_postings t !! key) ++ [en_start (entry key)]]> (tb_postings t))
    (alter (λ l, l ++ [en_start (entry key)]) (level_index (en_level (entry key))) (tb_levels t))
    (if rodeo_get (tb_targets t) name is Some _ then tb_target_bytes t
     else tb_target_bytes t + Z.of_nat (String.length name))%Z.
Proof.
  unfold push_entry, interned. destruct (rodeo_get (tb_targets t) name); [done|].
  by destruct (rodeo_intern (tb_targets t) name).
Qed.

Section push.
Context (name : string) (entry : Spur → LEntry) (t : Tables) (Ht : tables_ok t).
Context (Hkey : ∀ k, en_target (entry k) = k).
Abbreviation pushed := (push_entry name entry t).
Abbreviation key := (interned name (tb_targets t)).1.
Abbreviation pool := (interned name (tb_targets t)).2.

Lemma pushed_entries : tb_entries pushed = tb_entries t ++ [entry key].
Proof. rewrite push_entry_eq. by destruct (interned _ _). Qed.
Lemma pushed_targets : tb_targets pushed = pool.
Proof. rewrite push_entry_eq. by destruct (interned _ _). Qed.

Lemma pushed_same e : e ∈ tb_entries t →
  rodeo_resolve pool (en_target e) = rodeo_resolve (tb_targets t) (en_target e).
Proof.
  intros He. destruct (to_resolves t Ht e He) as [s Hs]. rewrite Hs. by apply interned_keeps.
Qed.

Lemma pushed_rows : table_rows pushed = table_rows t ++ [row pool (entry key)].
Proof.
  unfold table_rows. rewrite pushed_entries, pushed_targets, fmap_app. f_equal.
  apply list_fmap_ext. intros i e He%list_elem_of_lookup_2. unfold row. by rewrite pushed_same.
Qed.

Lemma pushed_names : names pushed = {[name]} ∪ names t.
Proof.
  unfold names. rewrite pushed_entries, pushed_targets, omap_app, list_to_set_app_L.
  cbn. rewrite Hkey, interned_resolve. cbn. rewrite union_empty_r_L, (union_comm_L _ {[name]}). f_equal.
  f_equal. clear Hkey.
  assert (∀ l : list LEntry, (∀ e, e ∈ l → e ∈ tb_entries t) →
    omap (λ e, rodeo_resolve pool (en_target e)) l
    = omap (λ e, rodeo_resolve (tb_targets t) (en_target e)) l) as H; [|by apply H].
  induction l as [|e l IH]; intros Hl; [done|]. cbn. rewrite pushed_same, IH; [done|..].
  - intros e' He'. apply Hl. by right.
  - apply Hl. by left.
Qed.

(** Only names of entries are interned, so a name that is not interned is
    new. *)
Lemma unused_name : rodeo_get (tb_targets t) name = None → name ∉ names t.
Proof.
  intros Hn (e & He & Hr)%elem_of_list_to_set%list_elem_of_omap.
  apply resolve_get in Hr. congruence.
Qed.

Lemma push_entry_ok : tables_ok pushed.
Proof.
  split.
  - rewrite pushed_entries, pushed_targets. intros e [He|He%list_elem_of_singleton]%elem_of_app.
    + rewrite pushed_same by done. by apply to_resolves.
    + subst e. rewrite Hkey, interned_resolve. eauto.
  - intros s k. rewrite pushed_targets, interned_get, pushed_names. case_decide; [set_solver|].
    intros Hg. apply elem_of_union_r. by eapply to_used.
  - intros k. rewrite pushed_entries, filter_app, fmap_app, push_entry_eq.
    destruct (interned name (tb_targets t)) as [k0 r0] eqn:Ei.
    cbn [tb_postings fst snd]. rewrite <- (to_postings t Ht k).
    destruct (decide (k0 = k)) as [->|Hne].
    + rewrite lookup_insert_eq. by rewrite filter_cons_True by apply Hkey.
    + rewrite lookup_insert_ne by done. rewrite filter_cons_False by (by rewrite Hkey). cbn. by rewrite app_nil_r.
  - intros l. rewrite pushed_entries, filter_app, fmap_app, push_entry_eq.
    destruct (interned name (tb_targets t)) as [k0 r0] eqn:Ei.
    cbn [tb_levels fst snd]. destruct (decide (en_level (entry k0) = l)) as [<-|Hne].
    + rewrite list_lookup_alter_eq, (to_levels t Ht). by rewrite filter_cons_True.
    + rewrite list_lookup_alter_ne; [|by intros ?; destruct (en_level (entry k0)), l].
      rewrite (to_levels t Ht), filter_cons_False by done. cbn. by rewrite app_nil_r.
  - rewrite pushed_names, push_entry_eq. destruct (interned name (tb_targets t)) as [k0 r0]. cbn.
    destruct (rodeo_get (tb_targets t) name) as [k|] eqn:E; rewrite (to_bytes t Ht).
    + f_equal. apply to_used in E; [|done]. set_solver.
    + rewrite name_bytes_add by (by apply unused_name). lia.
Qed.
End push.

(** ** Rebuilding the tables *)
Lemma rebuild_ok old t l :
  tables_ok t → (∀ e, e ∈ l → is_Some (rodeo_resolve old (en_target e))) →
  ∃ t', rebuild old t l = Some t' ∧ tables_ok t' ∧ table_rows t' = table_rows t ++ (row old <$> l).
Proof.
  revert t. induction l as [|e l IH]; intros t Ht Hl; cbn.
  - exists t. by rewrite app_nil_r.
  - destruct (Hl e) as [name Hn]; [by left|]. rewrite Hn. cbn.
    assert (∀ k, en_target (retarget k e) = k) as Hk by done.
    destruct (IH (push_entry name (λ k, retarget k e) t)) as (t' & Hr & Ht' & Hrows).
    + by apply push_entry_ok.
    + intros e' He'. apply Hl. by right.
    + exists t'. split; [done|]. split; [done|]. rewrite Hrows, pushed_rows by done.
      rewrite <- app_assoc. cbn. do 2 f_equal. unfold row at 1. cbn.
      by rewrite interned_resolve, <- Hn.
Qed.

(** * The invariant of the index *)

(** Rows in physical order, within [lo..hi). *)
Fixpoint chain (lo : Z) (l : list Row) (hi : Z) : Prop :=
  match l with
  | [] => (lo ≤ hi)%Z
  | r :: l' => (lo ≤ rw_start r < rw_end r)%Z ∧ chain (rw_end r) l' hi
  end.

Lemma chain_bounds lo l hi : chain lo l hi → (lo ≤ hi)%Z.
Proof. revert lo. induction l as [|r l IH]; cbn; intros lo; [done|]. intros [H ?%IH]. lia. Qed.

Lemma chain_weaken lo lo' l hi : chain lo l hi → (lo' ≤ lo)%Z → chain lo' l hi.
Proof. destruct l; cbn; [lia|]. intros [? ?] ?. split; [lia|done]. Qed.

Lemma chain_snoc lo l hi r :
  chain lo l hi → (hi ≤ rw_start r < rw_end r)%Z → chain lo (l ++ [r]) (rw_end r).
Proof.
  revert lo. induction l as [|x l IH]; cbn; intros lo.
  - intros ? [? ?]. repeat split; lia.
  - intros [? ?] ?. split; [lia|]. by apply IH.
Qed.

Lemma chain_from lo l hi : chain lo l hi → Forall (λ r, lo ≤ rw_start r)%Z l.
Proof.
  revert lo. induction l as [|x l IH]; intros lo; [by constructor|]. cbn. intros [? Hc].
  constructor; [lia|]. eapply Forall_impl; [by apply IH|]. cbn. lia.
Qed.

(** The lines behind the entries: they may be more than the retained ones, but
    evicting them, now or after more lines, gives the same. *)
Definition kept (lines : list (Z * list Ascii.ascii)) (next : Z) (l : list Row) : Prop :=
  ∃ K, Forall2 describes K l
    ∧ ∀ floor ext, (window_floor next ≤ floor)%Z → retained floor (lines ++ ext) = retained floor (K ++ ext).

Record core_ok (lo : Z) (lines : list (Z * list Ascii.ascii)) (t : Tables) (hi next : Z) : Prop := {
  ck_tables : tables_ok t;
  ck_bytes : (tb_target_bytes t ≤ MAX_TARGET_BYTES)%Z;
  ck_chain : chain lo (table_rows t) hi;
  ck_kept : kept lines next (table_rows t);
}.

(** ** Eviction *)
Lemma retained_idem floor floor' l ext :
  (floor ≤ floor')%Z → retained floor' (l ++ ext) = retained floor' (retained floor l ++ ext).
Proof.
  intros Hf. induction l as [|x l IH]; [done|]. cbn [retained].
  destruct ((MAX_ENTRIES <? Z.of_nat (length (x :: l)))%Z || (x.1 <? floor)%Z) eqn:E; [|done].
  rewrite <- IH. cbn [app retained].
  replace ((MAX_ENTRIES <? Z.of_nat (length (x :: l ++ ext)))%Z || (x.1 <? floor')%Z) with true; [done|].
  symmetry. rewrite orb_true_iff in *. rewrite !Z.ltb_lt in *. cbn [length] in *. rewrite length_app. lia.
Qed.

Lemma pop_old_suffix floor l : ∃ gone, l = gone ++ (pop_old floor l).1 ∧ ((pop_old floor l).2 = false → gone = []).
Proof.
  induction l as [|e l (gone & IH & _)]; [by exists []|]. cbn [pop_old].
  destruct (_ || _); [|by exists []]. exists (e :: gone). cbn. split; [by f_equal|done].
Qed.

Lemma pop_old_retained r floor K l :
  Forall2 describes K (row r <$> l) → Forall2 describes (retained floor K) (row r <$> (pop_old floor l).1).
Proof.
  revert K. induction l as [|e l IH]; intros K HK.
  - apply Forall2_nil_inv_r in HK as ->. constructor.
  - rewrite fmap_cons in HK. apply Forall2_cons_inv_r in HK as (x & K' & Hx & HK' & ->). cbn [retained pop_old].
    assert (length K' = length l) as Hlen by (apply Forall2_length in HK'; by rewrite length_fmap in HK').
    assert (en_start e = x.1) as Hs by apply Hx.
    cbn [length]. rewrite Hlen, Hs. destruct (_ || _); [by apply IH|]. by constructor.
Qed.

Lemma pop_old_chain r floor lo l hi : chain lo (row r <$> l) hi → chain lo (row r <$> (pop_old floor l).1) hi.
Proof.
  revert lo. induction l as [|e l IH]; intros lo; [done|]. cbn [pop_old]. destruct (_ || _); [|done].
  cbn. intros [? Hc]. apply IH. eapply chain_weaken; [done|]. lia.
Qed.

Lemma pop_old_bounded r floor lo l hi :
  chain lo (row r <$> l) hi →
  (Z.of_nat (length (pop_old floor l).1) ≤ MAX_ENTRIES)%Z
  ∧ Forall (λ e, floor ≤ en_start e)%Z (pop_old floor l).1.
Proof.
  revert lo. induction l as [|e l IH]; intros lo; [by split; [cbn; unfold MAX_ENTRIES; lia|constructor]|].
  cbn [pop_old]. destruct (_ || _) eqn:E.
  - cbn. intros [_ Hc]. by eapply IH.
  - apply orb_false_iff in E as [Hl%Z.ltb_ge Hs%Z.ltb_ge]. cbn. intros [? Hc]. split; [cbn in Hl; lia|].
    constructor; [done|]. apply chain_from in Hc. rewrite Forall_fmap in Hc.
    eapply Forall_impl; [exact Hc|]. cbn in *. lia.
Qed.

Lemma names_rows t : names t = list_to_set (omap rw_target (table_rows t)).
Proof.
  unfold names, table_rows. f_equal. induction (tb_entries t) as [|e l IH]; [done|]. cbn. by rewrite IH.
Qed.

Lemma names_suffix t t' gone : table_rows t = gone ++ table_rows t' → names t' ⊆ names t.
Proof. intros H. rewrite !names_rows, H, omap_app, list_to_set_app_L. set_solver. Qed.

Definition set_tables (t : Tables) (partial : bool) (ix : Index) : Index :=
  mkIndex t (ix_pending ix) (ix_line_start ix) (ix_next_read ix) (ix_committed ix)
    (ix_skipping ix) (ix_malformed ix) (ix_truncated ix) partial.

(** What the window and the entry bound leave. *)
Definition bounded (next : Z) (l : list Row) : Prop :=
  (Z.of_nat (length l) ≤ MAX_ENTRIES)%Z ∧ Forall (λ r, window_floor next ≤ rw_start r)%Z l.

Lemma evict_ok lo lines ix hi :
  core_ok lo lines (ix_tables ix) hi (ix_next_read ix) →
  ∃ t partial, evict ix = Some (set_tables t partial ix)
    ∧ core_ok lo lines t hi (ix_next_read ix)
    ∧ bounded (ix_next_read ix) (table_rows t)
    ∧ Forall2 describes (retained (window_floor (ix_next_read ix)) lines) (table_rows t).
Proof.
  intros [Ht Hb Hc (K & HK & Hret)]. unfold evict.
  change (Z.max 0 (ix_next_read ix - MAX_WINDOW)) with (window_floor (ix_next_read ix)).
  set (floor := window_floor (ix_next_read ix)) in *.
  pose proof (pop_old_retained _ floor _ _ HK) as HK'. pose proof (pop_old_chain _ floor _ _ _ Hc) as Hc'.
  pose proof (pop_old_bounded _ floor _ _ _ Hc) as [Hlen Hfl].
  destruct (pop_old_suffix floor (tb_entries (ix_tables ix))) as (gone & Hgone & Hnone).
  assert (∃ t partial, evict ix = Some (set_tables t partial ix) ∧ tables_ok t
    ∧ table_rows t = row (ix_targets ix) <$> (pop_old floor (ix_entries ix)).1) as (t & partial & He & Ht' & Hrows).
  { unfold evict. fold (window_floor (ix_next_read ix)). fold floor. unfold ix_entries.
    destruct (pop_old floor (tb_entries (ix_tables ix))) as [l removed]. cbn in *. destruct removed.
    - destruct (rebuild_ok (ix_targets ix) tables_new l tables_new_ok) as (t & Hr & Ht' & Hrows).
      { intros e He. apply (to_resolves _ Ht). rewrite Hgone. apply elem_of_app. by right. }
      exists t, true. rewrite Hr. by cbn.
    - exists (ix_tables ix), (ix_partial ix). split; [by destruct ix|]. split; [done|].
      rewrite Hnone in Hgone by done. unfold table_rows. by rewrite Hgone. }
  unfold evict in He. fold (window_floor (ix_next_read ix)) in He. fold floor in He.
  exists t, partial. split; [exact He|].
  assert (Forall2 describes (retained floor lines) (table_rows t)) as Hfin.
  { specialize (Hret floor []). rewrite !app_nil_r in Hret. rewrite Hret by done. by rewrite Hrows. }
  split; [|split; [|done]].
  - split; [done| |by rewrite Hrows|].
    + etrans; [|exact Hb]. rewrite (to_bytes t), (to_bytes (ix_tables ix)) by done.
      apply name_bytes_mono, (names_suffix _ _ (row (ix_targets ix) <$> gone)).
      rewrite Hrows. unfold table_rows at 1. rewrite Hgone at 1. by rewrite fmap_app.
    + exists (retained floor lines). split; [done|]. intros floor' ext Hf. by apply retained_idem.
  - rewrite Hrows. split; [by rewrite length_fmap|]. by apply Forall_fmap.
Qed.

(** ** Inserting a line *)

Definition entry_of (line : list Ascii.ascii) (start stop : Z) (truncated : bool) (key : Spur) : LEntry :=
  mkEntry start stop (line_timestamp line) (line_level line) key
    (if line_object line is Some _ then false else true) truncated.

(** Pushing the entry of a line whose target fits. *)
Lemma push_line_ok lo lines t line start next (truncated : bool) target :
  core_ok lo lines t start next → next = (start + Z.of_nat (length line) + 1)%Z →
  target = (if truncated then "" else line_target line) →
  (rodeo_get (tb_targets t) target = None →
     tb_target_bytes t + Z.of_nat (String.length target) ≤ MAX_TARGET_BYTES)%Z →
  core_ok lo (lines ++ [(start, line)]) (push_entry target (entry_of line start next truncated) t) next next.
Proof.
  intros [Ht Hb Hc (K & HK & Hret)] Hnext Htarget Hfits.
  assert (Hk : ∀ k, en_target (entry_of line start next truncated k) = k) by done.
  split; [by apply push_entry_ok| | |].
  - rewrite push_entry_eq. destruct (interned target (tb_targets t)). cbn.
    by destruct (rodeo_get (tb_targets t) target); [|apply Hfits].
  - rewrite pushed_rows by done.
    match goal with |- chain _ (_ ++ [?r]) _ => change (chain lo (table_rows t ++ [r]) (rw_end r)) end.
    apply (chain_snoc _ _ _ _ Hc). cbn. lia.
  - rewrite pushed_rows by done. exists (K ++ [(start, line)]). split.
    + apply Forall2_app; [done|]. constructor; [|constructor].
      repeat split; cbn; [done|]. rewrite interned_resolve. by subst.
    + intros floor ext Hf. rewrite <- !app_assoc. by apply Hret.
Qed.

Lemma insert_line_ok lo lines line ix :
  core_ok lo lines (ix_tables ix) (ix_line_start ix) (ix_next_read ix) →
  ix_next_read ix = (ix_line_start ix + Z.of_nat (length line) + 1)%Z →
  ∃ ix', insert_line line ix = Some ix' ∧ ix_next_read ix' = ix_next_read ix
    ∧ core_ok lo (lines ++ [(ix_line_start ix, line)]) (ix_tables ix') (ix_next_read ix) (ix_next_read ix).
Proof.
  intros Hok Hnext. unfold insert_line.
  set (long := (MAX_TARGET <? _)%Z). set (target := if long then "" else line_target line).
  destruct (rodeo_get (ix_targets ix) target) as [k|] eqn:Eg; cbn [andb mbind option_bind];
    [|destruct (MAX_TARGET_BYTES <? _)%Z eqn:Eo; cbn [andb mbind option_bind]].
  - eexists; split; [reflexivity|]; split; [reflexivity|].
    apply push_line_ok; [done..|]. intros Hn. unfold ix_targets in Eg. congruence.
  - destruct (evict_ok _ _ _ _ Hok) as (t & partial & -> & Hok' & _). cbn [mbind option_bind].
    destruct (MAX_TARGET_BYTES <? tb_target_bytes (ix_tables (set_tables t partial ix)) + _)%Z eqn:Eo';
      (eexists; split; [reflexivity|]; split; [reflexivity|]); apply (push_line_ok lo lines t line); try done.
    + intros _. cbn. pose proof (ck_bytes _ _ _ _ _ Hok'). lia.
    + intros _. by apply Z.ltb_ge in Eo'.
  - eexists; split; [reflexivity|]; split; [reflexivity|].
    apply push_line_ok; [done..|]. intros _. by apply Z.ltb_ge in Eo.
Qed.

(** ** Reading bytes *)

(** The open line: what was read of it so far, and whether it is left out. *)
Definition open_ok (start : Z) (bytes : list Ascii.ascii) (ix : Index) : Prop :=
  ∃ skip cur,
    (∀ rest, file_lines start (bytes ++ rest) = file_lines start bytes ++ lines_from skip (ix_line_start ix) cur rest)
    ∧ ix_skipping ix = skip || (MAX_LINE <? Z.of_nat (length cur))%Z
    ∧ ix_pending ix = (if ix_skipping ix then [] else cur)
    ∧ ix_next_read ix = (ix_line_start ix + Z.of_nat (length cur))%Z
    ∧ ix_committed ix = ix_line_start ix
    ∧ ix_next_read ix = (start + Z.of_nat (length bytes))%Z.

(** The invariant: [ix] is an index of the bytes of a file from [start] on. *)
Record index_ok (start : Z) (bytes : list Ascii.ascii) (ix : Index) : Prop := {
  ik_core : core_ok start (file_lines start bytes) (ix_tables ix) (ix_line_start ix) (ix_next_read ix);
  ik_open : open_ok start bytes ix;
}.

Lemma index_new_ok start : index_ok start [] (index_new start).
Proof.
  split.
  - split; [exact tables_new_ok|by cbn|cbn; lia|]. exists []. split; [constructor|done].
  - exists (negb (start =? 0)%Z), []. cbn. rewrite orb_false_r. repeat split; try lia. by destruct (negb _).
Qed.

Lemma core_ok_advance lo lines t hi hi' next next' :
  core_ok lo lines t hi next → (hi ≤ hi')%Z → (next ≤ next')%Z → core_ok lo lines t hi' next'.
Proof.
  intros [Ht Hb Hc (K & HK & Hret)] Hh Hn. split; [done..| |].
  - clear Ht Hb HK. revert Hc. generalize lo. induction (table_rows t) as [|r l IH]; cbn; [lia|].
    intros lo'' [? ?]. split; [done|]. by apply IH.
  - exists K. split; [done|]. intros floor ext Hf. apply Hret. unfold window_floor in *. lia.
Qed.

Lemma append_byte_ok start bytes b ix :
  index_ok start bytes ix → ∃ ix', append_byte b ix = Some ix' ∧ index_ok start (bytes ++ [b]) ix'.
Proof.
  intros [Hcore (skip & cur & Hlines & Hskip & Hpend & Hnext & Hcom & Hlen)].
  assert (Hnew : ∀ rest, file_lines start ((bytes ++ [b]) ++ rest)
    = file_lines start bytes ++ lines_from skip (ix_line_start ix) cur (b :: rest)).
  { intros rest. by rewrite <- app_assoc. }
  pose proof (Hnew []) as Hfile. rewrite app_nil_r in Hfile.
  unfold append_byte. cbn [ix_skipping ix_pending]. cbn [lines_from] in Hnew, Hfile.
  destruct (Ascii.eqb b newline) eqn:Eb.
  - rewrite <- Hskip in Hnew, Hfile. destruct (ix_skipping ix) eqn:Esk; cbn [mbind option_bind].
    + rewrite app_nil_r in Hfile. eexists; split; [reflexivity|]. split.
      * cbn. rewrite Hfile. eapply core_ok_advance; [done|lia..].
      * exists false, []. cbn. rewrite Hfile. rewrite length_app. cbn [length].
        split; [intros rest; rewrite Hnew; do 2 f_equal; lia|]. repeat split; lia.
    + set (ix1 := mkIndex _ _ _ _ _ _ _ _ _).
      destruct (insert_line_ok start (file_lines start bytes) (ix_pending ix) ix1) as (ix2 & -> & Hnr & Hok).
      { cbn. eapply core_ok_advance; [done|lia..]. }
      { cbn. rewrite Hpend. lia. }
      cbn [mbind option_bind]. eexists; split; [reflexivity|]. cbn in Hnr, Hok. rewrite Hpend in Hok. split.
      * cbn. rewrite Hfile, Hnr. exact Hok.
      * exists false, []. cbn. rewrite Hfile, Hnr, length_app. cbn [length].
        split; [intros rest; rewrite Hnew, <- app_assoc; cbn; do 4 f_equal; lia|]. repeat split; lia.
  - rewrite app_nil_r in Hfile.
    assert (Hopen : ∀ pend sk mal tru par, sk = skip || (MAX_LINE <? Z.of_nat (length (cur ++ [b])))%Z →
      pend = (if sk then [] else cur ++ [b]) →
      index_ok start (bytes ++ [b])
        (mkIndex (ix_tables ix) pend (ix_line_start ix) (ix_next_read ix + 1) (ix_committed ix) sk mal tru par)).
    { intros pend sk mal tru par Hsk Hp. split.
      - cbn. rewrite Hfile. eapply core_ok_advance; [done|lia..].
      - exists skip, (cur ++ [b]). cbn. rewrite Hfile, !length_app. cbn [length].
        rewrite length_app in Hsk. cbn [length] in Hsk. repeat split; [done|done|done|lia|done|lia]. }
    rewrite length_app in Hopen. cbn [length] in Hopen. rewrite Hskip in Hpend. rewrite Hskip.
    destruct skip; cbn [orb] in *; [by eexists; split; [reflexivity|]; apply Hopen|].
    destruct (MAX_LINE <? Z.of_nat (length cur))%Z eqn:El.
    + eexists; split; [reflexivity|]. apply Hopen; [|done]. symmetry. apply Z.ltb_lt in El. apply Z.ltb_lt. lia.
    + apply Z.ltb_ge in El. rewrite Hpend. destruct (Z.eqb_spec (Z.of_nat (length cur)) MAX_LINE).
      * eexists; split; [reflexivity|]. apply Hopen; [|done]. symmetry. apply Z.ltb_lt. lia.
      * eexists; split; [reflexivity|]. apply Hopen; [|done]. symmetry. apply Z.ltb_ge. lia.
Qed.

Lemma append_bytes_ok start bytes more ix :
  index_ok start bytes ix → ∃ ix', append_bytes more ix = Some ix' ∧ index_ok start (bytes ++ more) ix'.
Proof.
  revert bytes ix. induction more as [|b more IH]; intros bytes ix Hok; cbn [append_bytes].
  - exists ix. by rewrite app_nil_r.
  - destruct (append_byte_ok _ _ b _ Hok) as (ix1 & -> & Hok1). cbn [mbind option_bind].
    destruct (IH _ _ Hok1) as (ix2 & -> & Hok2). exists ix2. by rewrite <- app_assoc in Hok2.
Qed.

(** What an index holds between two batches. *)
Record indexes (start : Z) (bytes : list Ascii.ascii) (ix : Index) : Prop := {
  ix_inv : index_ok start bytes ix;
  ix_bounded : bounded (ix_next_read ix) (rows ix);
  ix_lines :
    Forall2 describes (retained (window_floor (start + Z.of_nat (length bytes))) (file_lines start bytes)) (rows ix);
}.

Lemma append_ok start bytes batch ix :
  index_ok start bytes ix → (Z.of_nat (length batch) ≤ MAX_BATCH)%Z →
  ∃ ix', append (ix_next_read ix) batch ix = Some (Ok (), ix') ∧ indexes start (bytes ++ batch) ix'.
Proof.
  intros Hok Hlen. unfold append. rewrite Z.eqb_refl, (proj2 (Z.ltb_ge _ _) Hlen). cbn [negb orb].
  destruct (append_bytes_ok _ _ batch _ Hok) as (ix1 & -> & [Hcore Hopen]). cbn [mbind option_bind].
  destruct (evict_ok _ _ _ _ Hcore) as (t & partial & -> & Hcore' & Hb & Hfin). cbn [mbind option_bind].
  eexists; split; [reflexivity|]. split; [by split|done|].
  destruct Hopen as (? & ? & _ & _ & _ & _ & _ & Hn). by rewrite <- Hn.
Qed.

(** Feeding an index batch after batch, each at the offset it asks for. *)
Fixpoint append_all (batches : list (list Ascii.ascii)) (ix : Index) : option Index :=
  match batches with
  | [] => Some ix
  | batch :: batches' =>
      match append (ix_next_read ix) batch ix with
      | Some (Ok _, ix') => append_all batches' ix'
      | _ => None
      end
  end.

Lemma append_all_ok start bytes batches ix :
  indexes start bytes ix → Forall (λ b, Z.of_nat (length b) ≤ MAX_BATCH)%Z batches →
  ∃ ix', append_all batches ix = Some ix' ∧ indexes start (bytes ++ concat batches) ix'.
Proof.
  revert bytes ix. induction batches as [|b batches IH]; intros bytes ix Hok Hall; cbn.
  - exists ix. by rewrite app_nil_r.
  - apply Forall_cons in Hall as [Hb Hall].
    destruct (append_ok start bytes b ix (ix_inv _ _ _ Hok) Hb) as (ix1 & -> & Hok1).
    destruct (IH _ _ Hok1 Hall) as (ix2 & -> & Hok2). exists ix2. by rewrite <- app_assoc in Hok2.
Qed.

Lemma new_indexes start : indexes start [] (index_new start).
Proof.
  split; [apply index_new_ok|split; [cbn; unfold MAX_ENTRIES; lia|constructor]|constructor].
Qed.

Lemma append_all_indexes start batches ix :
  append_all batches (index_new start) = Some ix → Forall (λ b, Z.of_nat (length b) ≤ MAX_BATCH)%Z batches →
  indexes start (concat batches) ix.
Proof.
  intros He Hall. destruct (append_all_ok _ _ _ _ (new_indexes start) Hall) as (ix' & He' & Hok). by simplify_eq.
Qed.

(** C17: whatever batches the bytes of a file arrive in, indexing never panics,
    and the entries are the complete lines of the file, cut to the window and
    the entry bound, each with its offsets, time, level and target; only lines
    over the length bound and a leading fragment are left out. *)
Theorem index_is_the_file (start : Z) (batches : list (list Ascii.ascii))
    (Hbatches : Forall (λ b, Z.of_nat (length b) ≤ MAX_BATCH)%Z batches) :
  ∃ ix, append_all batches (index_new start) = Some ix
    ∧ let bytes := concat batches in
      Forall2 describes
        (retained (window_floor (start + Z.of_nat (length bytes))) (file_lines start bytes)) (rows ix).
Proof.
  destruct (append_all_ok _ _ _ _ (new_indexes start) Hbatches) as (ix & He & Hok).
  exists ix. split; [done|]. apply Hok.
Qed.

(** the memory of an index is bounded however long the file grows: the
    entries, the open line and the bytes of the distinct targets it holds, and
    no entry begins before the window. *)
Theorem index_is_bounded (start : Z) (batches : list (list Ascii.ascii)) (ix : Index)
    (Hbatches : Forall (λ b, Z.of_nat (length b) ≤ MAX_BATCH)%Z batches)
    (Hix : append_all batches (index_new start) = Some ix) :
  (Z.of_nat (length (ix_entries ix)) ≤ MAX_ENTRIES)%Z
  ∧ (Z.of_nat (length (ix_pending ix)) ≤ MAX_LINE)%Z
  ∧ (name_bytes (names (ix_tables ix)) ≤ MAX_TARGET_BYTES)%Z
  ∧ Forall (λ e, ix_next_read ix - MAX_WINDOW ≤ en_start e)%Z (ix_entries ix).
Proof.
  destruct (append_all_indexes _ _ _ Hix Hbatches) as [[[Ht Hb _ _] (skip & cur & _ & Hs & Hp & _)] [Hl Hf] _].
  unfold rows, table_rows in *. rewrite length_fmap in Hl. rewrite Forall_fmap in Hf. split_and!.
  - done.
  - rewrite Hp, Hs. destruct (MAX_LINE <? Z.of_nat (length cur))%Z eqn:E.
    + rewrite orb_true_r. cbn. unfold MAX_LINE. lia.
    + apply Z.ltb_ge in E. destruct skip; cbn; [unfold MAX_LINE; lia|done].
  - by rewrite <- (to_bytes _ Ht).
  - eapply Forall_impl; [exact Hf|]. cbn. unfold window_floor. lia.
Qed.
End props.
