(* ===== verification/LogScan.v ===== *)
(** Reading pages off the index of a log file: whatever postings a page is read
    from and wherever it is cut, the pages together are the entries that match
    the filter, each once and in physical order. *)
From stdpp Require Import base gmap strings list sets sorting.
From S2P Require Import Prelude Text LogIndex LogIndexProps.
From Stdlib Require Import ZArith Lia.

(** * Bisection finds the border of a partitioned list *)
Lemma bisect_spec p fuel lo hi m :
  (hi - lo ≤ fuel)%nat → (lo ≤ m ≤ hi)%nat →
  (∀ i, (i < m)%nat → p i = true) → (∀ i, (m ≤ i)%nat → p i = false) → bisect fuel p lo hi = m.
Proof.
  revert lo hi. induction fuel as [|fuel IH]; intros lo hi Hf Hm Hlt Hge; cbn [bisect]; [lia|].
  destruct (Nat.ltb_spec lo hi) as [Hl|]; [|lia].
  pose proof (Nat.div_lt (hi - lo) 2). pose proof (Nat.Div0.div_le_mono 0 (hi - lo) 2).
  set (mid := (lo + (hi - lo) / 2)%nat) in *. assert (lo ≤ mid < hi)%nat by lia.
  destruct (p mid) eqn:E.
  - apply IH; [lia| |done..]. destruct (decide (mid < m)%nat); [lia|]. rewrite Hge in E by lia. done.
  - apply IH; [lia| |done..]. destruct (decide (mid < m)%nat); [|lia]. rewrite Hlt in E by lia. done.
Qed.

Lemma partition_point_app {A} (p : A → bool) (a c : list A) :
  Forall (λ x, p x = true) a → Forall (λ x, p x = false) c → partition_point p (a ++ c) = length a.
Proof.
  intros Ha Hc. unfold partition_point. apply bisect_spec; rewrite ?length_app; [lia..| |].
  - intros i Hi. rewrite lookup_app_l by done. destruct (lookup_lt_is_Some_2 a i Hi) as [x Hx]. rewrite Hx.
    by apply (Forall_lookup_1 _ _ _ _ Ha Hx).
  - intros i Hi. rewrite lookup_app_r by done. destruct (c !! (i - length a)) as [x|] eqn:Hx; [|done].
    by apply (Forall_lookup_1 _ _ _ _ Hc Hx).
Qed.

(** A list sorted by a key falls apart at every bound. *)
Lemma sorted_split {A} (key : A → Z) (l : list A) b :
  StronglySorted (λ x y, key x < key y)%Z l →
  ∃ a c, l = a ++ c ∧ Forall (λ x, key x < b)%Z a ∧ Forall (λ x, b ≤ key x)%Z c.
Proof.
  induction 1 as [|x l Hl (a & c & -> & Ha & Hc) Hx]; [by exists [], []|].
  destruct (decide (key x < b)%Z) as [Hb|Hb].
  - exists (x :: a), c. split_and!; [done|by constructor|done].
  - exists [], (x :: a ++ c). split_and!; [done|constructor|]. constructor; [lia|].
    eapply Forall_impl; [exact Hx|]. cbn. lia.
Qed.

Lemma filter_lt_ge {A} (key : A → Z) a c b :
  Forall (λ x, key x < b)%Z a → Forall (λ x, b ≤ key x)%Z c →
  filter (λ x, key x < b)%Z (a ++ c) = a ∧ filter (λ x, b ≤ key x)%Z (a ++ c) = c.
Proof.
  intros Ha Hc. rewrite !filter_app. split.
  - rewrite (filter_all _ a), (filter_none _ c), app_nil_r; [done| |done].
    eapply Forall_impl; [exact Hc|]. cbn. lia.
  - rewrite (filter_none _ a), (filter_all _ c); [done|done|]. eapply Forall_impl; [exact Ha|]. cbn. lia.
Qed.

(** The entry of a key is found. *)
Lemma binary_search_finds {A} (key : A → Z) (l : list A) x :
  StronglySorted (λ x y, key x < key y)%Z l → x ∈ l →
  ∃ i, binary_search_by_key key (key x) l = Some i ∧ l !! i = Some x.
Proof.
  intros Hs Hx. apply list_elem_of_split in Hx as (a & c & ->).
  apply StronglySorted_app in Hs as (Hac & _ & Hc). apply StronglySorted_inv in Hc as [_ Hc].
  exists (length a). unfold binary_search_by_key. rewrite partition_point_app.
  - rewrite list_lookup_middle by done. by rewrite Z.eqb_refl.
  - apply Forall_forall. intros y Hy. apply Z.ltb_lt. apply Hac; [done|by left].
  - constructor; [apply Z.ltb_irrefl|]. eapply Forall_impl; [exact Hc|]. cbn. intros y Hy. apply Z.ltb_ge. lia.
Qed.

(** A list read from within a filtered one. *)
Lemma filter_middle_inv {A} (P : A → Prop) `{∀ x, Decision (P x)} (l a c : list A) x :
  filter P l = a ++ x :: c → ∃ l1 l2, l = l1 ++ x :: l2 ∧ filter P l1 = a ∧ filter P l2 = c.
Proof.
  revert a. induction l as [|y l IH]; intros a Hf; [by destruct a|].
  destruct (decide (P y)) as [Hy|Hy].
  - rewrite filter_cons_True in Hf by done. destruct a as [|z a]; simplify_eq/=.
    + by exists [], l.
    + destruct (IH a) as (l1 & l2 & -> & <- & <-); [done|]. exists (z :: l1), l2.
      split_and!; [done|by rewrite filter_cons_True|done].
  - rewrite filter_cons_False in Hf by done. destruct (IH a Hf) as (l1 & l2 & -> & <- & <-).
    exists (y :: l1), l2. split_and!; [done|by rewrite filter_cons_False|done].
Qed.

Lemma filter_filter_sub {A} (P Q : A → Prop) `{∀ x, Decision (P x)} `{∀ x, Decision (Q x)} (l : list A) :
  (∀ x, x ∈ l → P x → Q x) → filter P (filter Q l) = filter P l.
Proof.
  induction l as [|x l IH]; intros HPQ; [done|].
  assert (IH' : filter P (filter Q l) = filter P l) by (apply IH; intros ??; apply HPQ; by right).
  destruct (decide (Q x)); [rewrite filter_cons_True by done|rewrite filter_cons_False by done].
  - destruct (decide (P x)); [by rewrite !filter_cons_True, IH'|by rewrite !filter_cons_False].
  - rewrite (filter_cons_False P); [done|]. intros Hp. by apply n, HPQ; [left|].
Qed.

Section scan.
Context {LC : LineCodec} {IN : Interner} {IL : InternerLaws IN}.

(** * The reference: filter the rows of a range *)

(** What a filter asks of a row (the text is matched on the bytes of the file,
    after the scan). *)
Definition matches (f : Filter) (r : Row) : Prop :=
  (fl_levels f = [] ∨ rw_level r ∈ fl_levels f)
  ∧ (if fl_target f is Some t then rw_target r = Some t else True)
  ∧ (if fl_from_ms f is Some from then if rw_timestamp r is Some t then from ≤ t else False else True)%Z
  ∧ (if fl_to_ms f is Some to then if rw_timestamp r is Some t then t < to else False else True)%Z.
#[export] Instance matches_dec f r : Decision (matches f r).
Proof.
  unfold matches. destruct (fl_target f), (fl_from_ms f), (fl_to_ms f), (rw_timestamp r); apply _.
Defined.

(** The entries on the side of a boundary that a direction reads. *)
Definition beyond (backward : bool) (b : option Z) (e : LEntry) : Prop :=
  match b with
  | None => True
  | Some b => if backward then (en_start e < b)%Z else (b ≤ en_start e)%Z
  end.
#[export] Instance beyond_dec backward b e : Decision (beyond backward b e).
Proof. unfold beyond. destruct b; [destruct backward|]; apply _. Defined.

(** In the order of the walk. *)
Definition walk (backward : bool) (b : Z) (l : list LEntry) : list LEntry :=
  let part := filter (beyond backward (Some b)) l in if backward then reverse part else part.

Lemma walk_backward b l : walk true b l = reverse (filter (λ e, en_start e < b)%Z l).
Proof. done. Qed.
Lemma walk_forward b l : walk false b l = filter (λ e, b ≤ en_start e)%Z l.
Proof. done. Qed.

(** Where the next page begins after an entry. *)
Definition bound_of (backward : bool) (e : LEntry) : Z := if backward then en_start e else en_end e.

Definition found_at (l : list LEntry) (p : option nat) (e : LEntry) : Prop :=
  ∃ i, p = Some i ∧ l !! i = Some e.

(** ** The order of the entries *)

Definition spaced (l : list LEntry) : Prop :=
  StronglySorted (λ a b, en_end a ≤ en_start b)%Z l ∧ Forall (λ e, en_start e < en_end e)%Z l.

Lemma chain_spaced r lo l hi :
  chain lo (row r <$> l) hi → spaced l ∧ Forall (λ e, lo ≤ en_start e ∧ en_end e ≤ hi)%Z l.
Proof.
  revert lo. induction l as [|e l IH]; intros lo; [by repeat constructor|]. cbn. intros [? Hc].
  destruct (IH _ Hc) as [[? ?] Hf]. apply chain_bounds in Hc. repeat split.
  - constructor; [done|]. eapply Forall_impl; [exact Hf|]. cbn. tauto.
  - constructor; [lia|done].
  - constructor; [lia|]. eapply Forall_impl; [exact Hf|]. cbn. lia.
Qed.

Lemma spaced_sorted l : spaced l → StronglySorted (λ a b, en_start a < en_start b)%Z l.
Proof.
  intros [Hs Hf]. induction Hs as [|e l Hs IH He]; [constructor|].
  apply Forall_cons in Hf as [Hx Hf]. constructor; [by apply IH|].
  eapply Forall_impl; [exact He|]. cbn. lia.
Qed.

(** ** The positions of a walk *)
Lemma seq_found a c d : Forall2 (found_at (a ++ c ++ d)) (Some <$> seq (length a) (length c)) c.
Proof.
  revert a. induction c as [|e c IH]; intros a; [constructor|]. cbn. constructor.
  - exists (length a). by rewrite list_lookup_middle.
  - specialize (IH (a ++ [e])). rewrite length_app, Nat.add_1_r, <- app_assoc in IH. exact IH.
Qed.

Lemma walk_found (ix : Index) (posting : option (list Z)) (q : LEntry → Prop) `{∀ e, Decision (q e)} backward b :
  spaced (ix_entries ix) →
  match posting with Some p => p = en_start <$> filter q (ix_entries ix) | None => ∀ e, q e end →
  Forall2 (found_at (ix_entries ix)) (scan_positions ix posting backward b) (filter q (walk backward b (ix_entries ix))).
Proof.
  intros Hl Hp. pose proof (spaced_sorted _ Hl) as Hs. unfold scan_positions.
  set (l := ix_entries ix) in *. destruct (sorted_split en_start l b Hs) as (a & c & Hac & Ha & Hc).
  destruct (filter_lt_ge en_start a c b Ha Hc) as [Fa Fc]. rewrite <- Hac in Fa, Fc.
  assert (Hfound : ∀ es, (∀ e, e ∈ es → e ∈ l) →
    Forall2 (found_at l) ((λ id, binary_search_by_key en_start id l) <$> (en_start <$> es)) es).
  { intros es Hes. rewrite <- list_fmap_compose. apply Forall2_fmap_l, Forall_Forall2_diag, Forall_forall.
    intros e He. cbn. destruct (binary_search_finds en_start l e Hs (Hes e He)) as (i & Hi & Hli).
    exists i. done. }
  destruct posting as [p|].
  - assert (partition_point (λ x, x <? b)%Z p = length (en_start <$> filter q a)
      ∧ p = (en_start <$> filter q a) ++ (en_start <$> filter q c)) as [Hpp ->].
    { rewrite Hp, Hac, filter_app, fmap_app. split; [|done]. apply partition_point_app; apply Forall_fmap, Forall_forall;
        intros e [_ He]%list_elem_of_filter; cbn.
      - apply Z.ltb_lt. by apply (proj1 (Forall_forall _ _) Ha).
      - apply Z.ltb_ge. by apply (proj1 (Forall_forall _ _) Hc). }
    rewrite Hpp, take_app_length, drop_app_length. destruct backward.
    + rewrite walk_backward, Fa, filter_reverse, <- fmap_reverse. apply Hfound. intros e He.
      apply elem_of_reverse, list_elem_of_filter in He as [_ He]. rewrite Hac. apply elem_of_app. by left.
    + rewrite walk_forward, Fc. apply Hfound. intros e [_ He]%list_elem_of_filter. rewrite Hac. apply elem_of_app. by right.
  - rewrite (filter_all q) by (apply Forall_forall; intros; apply Hp).
    assert (Hpp : partition_point (λ e, en_start e <? b)%Z l = length a).
    { rewrite Hac. apply partition_point_app; [eapply Forall_impl; [exact Ha|]|eapply Forall_impl; [exact Hc|]]; cbn; intros e He.
      - by apply Z.ltb_lt.
      - by apply Z.ltb_ge. }
    rewrite Hpp. destruct backward.
    + rewrite walk_backward, Fa, fmap_reverse. apply Forall2_reverse. rewrite Hac. exact (seq_found [] a c).
    + rewrite walk_forward, Fc. replace (length l - length a)%nat with (length c) by (rewrite Hac, length_app; lia).
      rewrite Hac. pose proof (seq_found a c []) as Hf. by rewrite app_nil_r in Hf.
Qed.

(** ** Cutting a walk *)

(** After the entry [e] of a walk, the next walk is the rest. *)
Lemma walk_after backward b l w1 e w2 :
  spaced l → walk backward b l = w1 ++ e :: w2 → walk backward (bound_of backward e) l = w2.
Proof.
  intros Hl. pose proof (spaced_sorted _ Hl) as Hs. destruct Hl as [Hsp Hlt].
  destruct (sorted_split en_start l b Hs) as (a & c & -> & Ha & Hc).
  destruct (filter_lt_ge en_start a c b Ha Hc) as [Fa Fc].
  destruct backward; cbn [bound_of]; rewrite ?walk_backward, ?walk_forward, ?Fa, ?Fc; intros Hw.
  - apply (f_equal reverse) in Hw. rewrite reverse_involutive, reverse_app, reverse_cons, <- app_assoc in Hw.
    subst a. apply StronglySorted_app in Hs as (_ & Hs & _). apply StronglySorted_app in Hs as (H12 & _ & H2).
    cbn in H12, H2. apply StronglySorted_inv in H2 as [_ H2].
    rewrite <- !app_assoc.
    destruct (filter_lt_ge en_start (reverse w2) ([e] ++ reverse w1 ++ c) (en_start e)) as [-> _].
    + apply Forall_forall. intros x Hx. apply H12; [done|by left].
    + constructor; [lia|]. apply Forall_app. split.
      * eapply Forall_impl; [exact H2|]. cbn. lia.
      * apply Forall_app in Ha as [_ Ha]. apply Forall_app in Ha as [Ha _]. apply Forall_cons in Ha as [Ha _].
        eapply Forall_impl; [exact Hc|]. cbn. lia.
    + by rewrite reverse_involutive.
  - subst c. rewrite app_assoc in Hsp, Hs, Hlt |- *.
    apply StronglySorted_app in Hsp as (_ & _ & Hsp). apply StronglySorted_inv in Hsp as [_ Hsp].
    apply StronglySorted_app in Hs as (H12 & _ & _). apply Forall_app in Hlt as [_ Hlt].
    apply Forall_cons in Hlt as [He _].
    rewrite (app_assoc _ [e] w2 : (a ++ w1) ++ e :: w2 = _).
    apply filter_lt_ge; [|done]. apply Forall_app. split; [|by constructor].
    apply Forall_forall. intros x Hx. assert (en_start x < en_start e)%Z by (apply H12; [done|by left]). lia.
Qed.

(** The loop of a page: it keeps what passes its tests of a first part of the
    candidates, and stops early only after some. *)
Lemma scan_loop_ok f tk backward cap l positions cand scanned acc b :
  Forall2 (found_at l) positions cand →
  ∃ seen rest more,
    scan_loop f tk backward cap l positions scanned acc b
    = Some (acc ++ filter (λ e, scan_keeps f tk e = true) seen,
            (if last seen is Some e then bound_of backward e else b), more)
    ∧ cand = seen ++ rest
    ∧ (more = false → rest = [])
    ∧ (more = true → seen = [] → MAX_SCAN ≤ scanned ∨ cap ≤ Z.of_nat (length acc))%Z
    ∧ (Z.of_nat (length acc) ≤ cap →
       Z.of_nat (length (acc ++ filter (λ e, scan_keeps f tk e = true) seen)) ≤ cap)%Z.
Proof.
  intros HF. revert scanned acc b. induction HF as [|p e positions cand (i & -> & Hi) HF IH]; intros scanned acc b.
  - exists [], [], false. cbn. rewrite app_nil_r. done.
  - cbn [scan_loop mbind option_bind]. destruct (_ || _) eqn:Estop.
    + exists [], (e :: cand), true. cbn. rewrite app_nil_r. split_and!; [done..| |done].
      intros _ _. by rewrite orb_true_iff, !Z.leb_le in Estop.
    + rewrite Hi. cbn [mbind option_bind]. apply orb_false_iff in Estop as [_ Hcap%Z.leb_gt].
      set (acc' := if scan_keeps f tk e then acc ++ [e] else acc).
      destruct (IH (scanned + 1)%Z acc' (bound_of backward e)) as (seen & rest & more & Hr & -> & Hno & _ & Hc).
      exists (e :: seen), rest, more. unfold bound_of in Hr. rewrite Hr.
      assert (acc' ++ filter (λ e, scan_keeps f tk e = true) seen
              = acc ++ filter (λ e, scan_keeps f tk e = true) (e :: seen)) as Happ.
      { unfold acc'. destruct (scan_keeps f tk e) eqn:Ek.
        - rewrite filter_cons_True by done. by rewrite <- app_assoc.
        - by rewrite filter_cons_False by (by rewrite Ek). }
      rewrite Happ in *. split_and!; [|done|done|done|].
      * rewrite last_cons. by destruct (last seen).
      * intros _. apply Hc. unfold acc'. destruct (scan_keeps f tk e); [rewrite length_app; cbn|]; lia.
Qed.

(** ** One page *)

Section page.
Context (ix : Index) (Htables : tables_ok (ix_tables ix)).
Context (lo : Z) (Hchain : chain lo (rows ix) (ix_committed ix)).
Context (f : Filter).

(** What the filter wants of the index. *)
Definition wants (e : LEntry) : Prop := matches f (row (ix_targets ix) e).

Abbreviation target_key := (t ← fl_target f; rodeo_get (ix_targets ix) t).

Lemma keeps_wants e :
  (fl_target f = None ∨ is_Some target_key) → scan_keeps f target_key e = true ↔ wants e.
Proof.
  intros Htk. unfold scan_keeps, wants, matches. rewrite !andb_true_iff, !negb_true_iff.
  cbn [rw_level rw_target rw_timestamp row]. rewrite !Logic.and_assoc. f_equiv; [|f_equiv; [|f_equiv]].
  - rewrite andb_false_iff, !negb_false_iff, !bool_decide_eq_true. done.
  - destruct (fl_target f) as [t|]; cbn [mbind option_bind]; [|done].
    destruct Htk as [|[key Hk]]; [done|]. cbn in Hk. rewrite Hk, bool_decide_eq_false, resolve_get. 
    rewrite Hk. split; [intros Hn; destruct (decide (key = en_target e)); [by subst|done]|]. intros [= ->]. tauto.
  - destruct (fl_from_ms f), (en_timestamp e); [|done..]. by rewrite Z.ltb_ge.
  - destruct (fl_to_ms f), (en_timestamp e); [|done..]. by rewrite Z.leb_gt.
Qed.

(** A posting lists the starts of entries that include all the filter wants. *)
Lemma posting_ok :
  (fl_target f = None ∨ is_Some target_key) →
  ∃ q : LEntry → Prop, ∃ _ : ∀ e, Decision (q e),
    (∀ e, wants e → q e)
    ∧ match scan_posting ix f target_key with
      | Some p => p = en_start <$> filter q (ix_entries ix)
      | None => ∀ e, q e
      end.
Proof.
  intros Htk.
  assert (Hby_target : ∀ a, (key ← target_key; tb_postings (ix_tables ix) !! key) = Some a →
    ∃ q : LEntry → Prop, ∃ _ : ∀ e, Decision (q e), (∀ e, wants e → q e) ∧ a = en_start <$> filter q (ix_entries ix)).
  { intros a Ha. destruct (fl_target f) as [t|] eqn:Et; cbn [mbind option_bind] in *; [|done].
    destruct (rodeo_get (ix_targets ix) t) as [key|] eqn:Ek; cbn [mbind option_bind] in *; [|done].
    exists (λ e, en_target e = key), _. split.
    - intros e (_ & Ht & _). rewrite Et in Ht. cbn in Ht. apply resolve_get in Ht. congruence.
    - pose proof (to_postings _ Htables key) as Hp. by rewrite Ha in Hp. }
  assert (Hby_level : ∀ a, (if fl_levels f is [l] then tb_levels (ix_tables ix) !! level_index l else None) = Some a →
    ∃ q : LEntry → Prop, ∃ _ : ∀ e, Decision (q e), (∀ e, wants e → q e) ∧ a = en_start <$> filter q (ix_entries ix)).
  { intros a Ha. destruct (fl_levels f) as [|l [|]] eqn:El; [done| |done].
    exists (λ e, en_level e = l), _. split.
    - intros e [[?|Hin] _]; [congruence|]. rewrite El in Hin. by apply list_elem_of_singleton in Hin.
    - rewrite (to_levels _ Htables) in Ha. by simplify_eq. }
  unfold scan_posting.
  destruct (key ← target_key; tb_postings (ix_tables ix) !! key) as [a|];
    destruct (if fl_levels f is [l] then _ else None) as [a'|].
  - destruct (_ <? _)%nat; [by apply Hby_target|by apply Hby_level].
  - by apply Hby_target.
  - by apply Hby_level.
  - by exists (λ _, True), _.
Qed.

Lemma entries_spaced :
  spaced (ix_entries ix) ∧ Forall (λ e, lo ≤ en_start e ∧ en_end e ≤ ix_committed ix)%Z (ix_entries ix).
Proof. exact (chain_spaced _ _ _ _ Hchain). Qed.

(** Nothing lies beyond the last boundary. *)
Lemma walk_last backward :
  walk backward (if backward then index_start ix else ix_committed ix) (ix_entries ix) = [].
Proof.
  destruct entries_spaced as [Hs Hb]. destruct backward.
  - rewrite walk_backward. apply spaced_sorted in Hs. unfold index_start.
    destruct (ix_entries ix) as [|e l]; [done|]. apply StronglySorted_inv in Hs as [_ Hs].
    rewrite filter_none; [done|]. constructor; [lia|]. eapply Forall_impl; [exact Hs|]. cbn. lia.
  - rewrite walk_forward. apply filter_none. destruct Hs as [_ Hs].
    apply Forall_forall. intros e He. rewrite Forall_forall in Hs, Hb. specialize (Hs e He). specialize (Hb e He). lia.
Qed.

(** The two ways of a scan: an unknown target finds nothing, anything else is
    searched. *)
Lemma scan_unknown d b limit t :
  fl_target f = Some t → rodeo_get (ix_targets ix) t = None →
  scan f d b limit ix
  = Some (mkScan [] (if is_reverse d then index_start ix else ix_committed ix) false)
  ∧ ∀ e, ¬ wants e.
Proof.
  intros Ht Hg. split.
  - unfold scan. rewrite Ht. cbn [mbind option_bind]. by rewrite Hg.
  - intros e (_ & Hm & _). rewrite Ht in Hm. apply resolve_get in Hm. congruence.
Qed.

Lemma scan_searched d b limit :
  (fl_target f = None ∨ is_Some target_key) →
  scan f d (Some b) limit ix =
  match scan_loop f target_key (is_reverse d) (page_cap limit) (ix_entries ix)
          (scan_positions ix (scan_posting ix f target_key) (is_reverse d) b) 0 [] b with
  | None => None
  | Some (found, boundary, more) =>
      Some (mkScan (if is_reverse d then reverse found else found)
              (if more then boundary else if is_reverse d then index_start ix else ix_committed ix) more)
  end.
Proof.
  intros [Ht|[key Hk]]; unfold scan.
  - by rewrite Ht.
  - rewrite Hk. by rewrite andb_false_r.
Qed.

(** A page and what lies beyond its boundary are what lay beyond the boundary
    it was asked at. *)
Lemma scan_page backward d b limit :
  is_reverse d = backward →
  let wanted b := filter wants (walk backward b (ix_entries ix)) in
  ∃ found more next,
    scan f d (Some b) limit ix = Some (mkScan (if backward then reverse found else found) next more)
    ∧ wanted b = found ++ wanted next
    ∧ (more = false → wanted next = [])
    ∧ (more = true → (length (walk backward next (ix_entries ix)) < length (walk backward b (ix_entries ix)))%nat)
    ∧ (Z.of_nat (length found) ≤ page_cap limit)%Z.
Proof.
  intros Hd wanted. assert (Hcap : (1 ≤ page_cap limit)%Z) by (unfold page_cap, MAX_PAGE; lia).
  destruct (decide (fl_target f = None ∨ is_Some target_key)) as [Htk|Hno].
  - rewrite scan_searched, Hd by done. destruct (posting_ok Htk) as (q & Hdec & Hq & Hposting).
    pose proof (walk_found ix (scan_posting ix f target_key) q backward b (proj1 entries_spaced) Hposting) as Hfound.
    destruct (scan_loop_ok f target_key backward (page_cap limit) _ _ _ 0 [] b Hfound)
      as (seen & rest & more & -> & Hcand & Hrest & Hseen & Hlen).
    cbn [app length] in *. specialize (Hlen ltac:(lia)). eexists _, more, _. split; [reflexivity|].
    assert (Hwant : ∀ l : list LEntry, filter wants (filter q l) = filter wants l).
    { intros l. apply filter_filter_sub. intros e _. apply Hq. }
    assert (Hkeep : ∀ l : list LEntry, filter (λ e, scan_keeps f target_key e = true) l = filter wants l).
    { intros l. apply list_filter_iff. intros e. by apply keeps_wants. }
    rewrite Hkeep in *. unfold wanted. destruct more.
    + destruct (last seen) as [e|] eqn:El; [|apply last_None in El as ->; by destruct (Hseen eq_refl eq_refl) as [|]; [unfold MAX_SCAN in *|]; lia].
      apply last_Some in El as [seen' ->]. pose proof Hcand as Hcut. rewrite <- app_assoc in Hcut.
      apply filter_middle_inv in Hcut as (w1 & w2 & Hw & _ & <-).
      rewrite (walk_after _ _ _ _ _ _ (proj1 entries_spaced) Hw). split_and!; [|done| |done].
      * by rewrite <- (Hwant (walk backward b _)), Hcand, filter_app, Hwant.
      * intros _. rewrite Hw, length_app. cbn. lia.
    + rewrite walk_last, filter_nil, app_nil_r. rewrite (Hrest eq_refl), app_nil_r in Hcand.
      rewrite <- Hcand, Hwant in *. by split_and!.
  - destruct (fl_target f) as [t|] eqn:Et; [|by destruct Hno; left]. cbn in Hno.
    destruct (rodeo_get (ix_targets ix) t) as [k|] eqn:Ek; [destruct Hno; right; by exists k|].
    destruct (scan_unknown d (Some b) limit t Et Ek) as [-> Hnone]. rewrite Hd.
    exists [], false, (if backward then index_start ix else ix_committed ix). unfold wanted.
    rewrite walk_last, (filter_none wants) by (apply Forall_forall; intros; apply Hnone).
    split_and!; [by destruct backward|done..|cbn; lia].
Qed.

(** ** All pages *)

(** Reading page after page, each from the boundary of the one before it, and
    putting them together in physical order. *)
Fixpoint read_pages (fuel : nat) (d : Direction) (b : option Z) (limit : Z) : option (list LEntry) :=
  match fuel with
  | O => None
  | S fuel' =>
      s ← scan f d b limit ix;
      if sn_more s then
        rest ← read_pages fuel' d (Some (sn_boundary s)) limit;
        Some (if is_reverse d then rest ++ sn_entries s else sn_entries s ++ rest)
      else Some (sn_entries s)
  end.

Lemma read_pages_walk fuel d b limit :
  (length (walk (is_reverse d) b (ix_entries ix)) < fuel)%nat →
  read_pages fuel d (Some b) limit
  = Some (filter wants (filter (beyond (is_reverse d) (Some b)) (ix_entries ix))).
Proof.
  revert b. induction fuel as [|fuel IH]; intros b Hfuel; [lia|]. cbn [read_pages].
  destruct (scan_page (is_reverse d) d b limit eq_refl) as (found & more & next & -> & Hw & Hno & Hmore & _).
  cbn [mbind option_bind sn_more sn_boundary sn_entries].
  assert (Hpart : ∀ b, filter wants (filter (beyond (is_reverse d) (Some b)) (ix_entries ix))
    = (if is_reverse d then reverse else id) (filter wants (walk (is_reverse d) b (ix_entries ix)))).
  { intros b'. unfold walk. destruct (is_reverse d); [|done]. by rewrite filter_reverse, reverse_involutive. }
  rewrite Hpart, Hw. destruct more.
  - rewrite IH, Hpart by (specialize (Hmore eq_refl); lia). cbn [mbind option_bind].
    destruct (is_reverse d); [by rewrite reverse_app|done].
  - rewrite (Hno eq_refl), app_nil_r. by destruct (is_reverse d).
Qed.

Definition first_boundary (d : Direction) (b : option Z) : Z :=
  default (if is_reverse d then ix_committed ix else index_start ix) b.

(** Without a boundary everything is read. *)
Lemma first_boundary_part d b :
  filter (beyond (is_reverse d) (Some (first_boundary d b))) (ix_entries ix)
  = filter (beyond (is_reverse d) b) (ix_entries ix).
Proof.
  destruct b as [b|]; [done|]. rewrite !filter_all; [done|by apply Forall_forall|]. apply Forall_forall. intros e He. cbn.
  destruct entries_spaced as [Hs Hb]. pose proof (spaced_sorted _ Hs) as Hsort. destruct Hs as [_ Hs].
  rewrite Forall_forall in Hs, Hb. specialize (Hs e He). specialize (Hb e He).
  destruct (is_reverse d); [lia|]. unfold index_start.
  destruct (ix_entries ix) as [|e' l]; [by apply elem_of_nil in He|]. apply StronglySorted_inv in Hsort as [_ Hsort].
  rewrite Forall_forall in Hsort. apply elem_of_cons in He as [->|He]; [lia|]. specialize (Hsort e He). lia.
Qed.

Lemma read_pages_all fuel d b limit :
  (length (ix_entries ix) < fuel)%nat →
  read_pages fuel d b limit = Some (filter wants (filter (beyond (is_reverse d) b) (ix_entries ix))).
Proof.
  intros Hfuel. rewrite <- first_boundary_part.
  rewrite <- (read_pages_walk fuel d (first_boundary d b) limit).
  - destruct fuel; [lia|]. by destruct b.
  - eapply Nat.le_lt_trans; [|exact Hfuel]. unfold walk.
    destruct (is_reverse d); rewrite ?length_reverse; apply length_filter.
Qed.
End page.

(** C16: paging through an index under a filter, in either direction and from
    any boundary, with any page size, ends and yields exactly the entries the
    filter wants on that side of the boundary, each once and in physical order:
    neither the postings nor the cuts of the pages show. *)
Theorem pages_are_the_filter (start : Z) (batches : list (list Ascii.ascii)) (ix : Index)
    (f : Filter) (d : Direction) (b : option Z) (limit : Z) (fuel : nat)
    (Hbatches : Forall (λ b, Z.of_nat (length b) ≤ MAX_BATCH)%Z batches)
    (Hix : append_all batches (index_new start) = Some ix)
    (Hfuel : (length (ix_entries ix) < fuel)%nat) :
  read_pages ix f fuel d b limit
  = Some (filter (λ e, matches f (row (ix_targets ix) e))
            (filter (beyond (is_reverse d) b) (ix_entries ix))).
Proof.
  destruct (append_all_indexes _ _ _ Hix Hbatches) as [[[Ht _ Hc _] (? & ? & _ & _ & _ & _ & Hcom & _)] _ _].
  rewrite <- Hcom in Hc. by apply (read_pages_all ix Ht start Hc).
Qed.

(** one page never panics and is bounded: it holds at most [MAX_PAGE]
    entries, at most as many as asked for (one at least), all of which the
    filter wants. *)
Theorem page_is_bounded (start : Z) (batches : list (list Ascii.ascii)) (ix : Index)
    (f : Filter) (d : Direction) (b : option Z) (limit : Z)
    (Hbatches : Forall (λ b, Z.of_nat (length b) ≤ MAX_BATCH)%Z batches)
    (Hix : append_all batches (index_new start) = Some ix) :
  ∃ page, scan f d b limit ix = Some page
    ∧ (Z.of_nat (length (sn_entries page)) ≤ Z.min (Z.max 1 limit) MAX_PAGE)%Z
    ∧ Forall (λ e, e ∈ ix_entries ix ∧ matches f (row (ix_targets ix) e)) (sn_entries page).
Proof.
  destruct (append_all_indexes _ _ _ Hix Hbatches) as [[[Ht _ Hc _] (? & ? & _ & _ & _ & _ & Hcom & _)] _ _].
  rewrite <- Hcom in Hc.
  destruct (scan_page ix Ht start Hc f (is_reverse d) d (first_boundary ix d b) limit eq_refl)
    as (found & more & next & Hs & Hw & _ & _ & Hlen).
  exists (mkScan (if is_reverse d then reverse found else found) next more). split; [|split].
  - rewrite <- Hs. by destruct b.
  - cbn. by destruct (is_reverse d); rewrite ?length_reverse.
  - assert (Forall (λ e, e ∈ ix_entries ix ∧ matches f (row (ix_targets ix) e)) found) as Hf.
    { apply Forall_forall. intros e He. assert (e ∈ filter (wants ix f) (walk (is_reverse d) (first_boundary ix d b) (ix_entries ix))) as [Hm Hin]%list_elem_of_filter
        by (rewrite Hw; apply elem_of_app; by left).
      split; [|done]. unfold walk in Hin. destruct (is_reverse d); rewrite ?elem_of_reverse in Hin; by apply list_elem_of_filter in Hin as [_ ?]. }
    cbn. destruct (is_reverse d); [by apply Forall_reverse|done].
Qed.
End scan.

(** * A concrete index *)

(** A pool as the list of its strings. *)
Fixpoint index_of (s : string) (l : list string) : option nat :=
  match l with
  | [] => None
  | x :: l' => if decide (x = s) then Some 0 else S <$> index_of s l'
  end.

#[local] Instance list_pool : Interner := {|
  Spur := nat;
  Rodeo := list string;
  rodeo_new := [];
  rodeo_get r s := index_of s r;
  rodeo_intern r s := if index_of s r is Some k then (k, r) else (length r, r ++ [s]);
  rodeo_resolve r k := s ← r !! k; if decide (index_of s r = Some k) then Some s else None;
|}.

Lemma index_of_lookup s l k : index_of s l = Some k → l !! k = Some s.
Proof.
  revert k. induction l as [|x l IH]; intros k; cbn; [done|]. case_decide; [by intros [= <-]; subst|].
  destruct (index_of s l); cbn; [|done]. intros [= <-]. by apply IH.
Qed.

Lemma index_of_app s s' l : index_of s l = None →
  index_of s' (l ++ [s]) = if decide (s = s') then Some (length l) else index_of s' l.
Proof.
  induction l as [|x l IH]; cbn; [done|]. destruct (decide (x = s)); [done|].
  destruct (index_of s l); [done|]. intros _.
  rewrite IH by done. by repeat (case_decide; simplify_eq/=).
Qed.

#[local] Instance list_pool_laws : InternerLaws list_pool.
Proof.
  split; cbn.
  - done.
  - intros r s s'. destruct (index_of s r) as [k|] eqn:E; cbn; [by case_decide; subst|by apply index_of_app].
  - intros r k s. split.
    + destruct (r !! k) as [x|]; cbn; [|done]. case_decide; [|done]. by intros [= <-].
    + intros Hs. rewrite (index_of_lookup _ _ _ Hs). cbn. by rewrite decide_True.
Qed.

(** Lines that say [{level target], of which everything else is no object. *)
#[local] Instance toy_lines : LineCodec := {|
  JsonValue := string;
  json_from_slice l := Some (String.string_of_list_ascii l);
  json_is_object v := starts_with "{" v;
  json_str v key :=
    '(level, target) ← split_once " " v;
    if String.eqb key "level" then strip_prefix "{" level
    else if String.eqb key "target" then Some target else None;
  rfc3339_ms _ := None;
|}.

Module demo_index.
Definition nl : string := String newline EmptyString.
(** Four lines and the beginning of a fifth, cut into batches without regard
    for the lines. *)
Definition batches : list (list Ascii.ascii) :=
  String.list_ascii_of_string <$>
    ["{info a" +:+ nl +:+ "{warn"; " b" +:+ nl +:+ "junk" +:+ nl; "{info a" +:+ nl +:+ "{deb"].
Definition ix : Index := default (index_new 0) (append_all batches (index_new 0)).
Definition f : Filter := mkFilter [Info] (Some "a") None None None.

Lemma batches_ok : Forall (λ b, Z.of_nat (length b) ≤ MAX_BATCH)%Z batches.
Proof. repeat constructor; vm_compute; discriminate. Qed.
Lemma ix_eq : append_all batches (index_new 0) = Some ix.
Proof. vm_compute. reflexivity. Qed.
End demo_index.

Lemma index_is_the_file_witness :
  ∃ ix, append_all demo_index.batches (index_new 0) = Some ix ∧ length (rows ix) = 4%nat.
Proof.
  destruct (index_is_the_file 0 demo_index.batches demo_index.batches_ok) as (ix & He & Hrows).
  exists ix. split; [exact He|]. apply Forall2_length in Hrows. rewrite <- Hrows. vm_compute. reflexivity.
Defined.

Lemma index_is_bounded_witness :
  length (ix_entries demo_index.ix) = 4%nat ∧ (name_bytes (names (ix_tables demo_index.ix)) ≤ MAX_TARGET_BYTES)%Z.
Proof.
  split; [vm_compute; reflexivity|].
  destruct (index_is_bounded 0 demo_index.batches demo_index.ix demo_index.batches_ok demo_index.ix_eq) as (_ & _ & H & _).
  exact H.
Defined.

Lemma pages_are_the_filter_witness :
  en_start <$> default [] (read_pages demo_index.ix demo_index.f 5 Latest None 1) = [0; 21]%Z.
Proof.
  rewrite (pages_are_the_filter 0 demo_index.batches demo_index.ix demo_index.f Latest None 1 5
             demo_index.batches_ok demo_index.ix_eq).
  - vm_compute. reflexivity.
  - vm_compute. lia.
Defined.

Lemma page_is_bounded_witness :
  ∃ page, scan demo_index.f After None 1 demo_index.ix = Some page ∧ (Z.of_nat (length (sn_entries page)) ≤ 1)%Z.
Proof.
  destruct (page_is_bounded 0 demo_index.batches demo_index.ix demo_index.f After None 1
              demo_index.batches_ok demo_index.ix_eq) as (page & Hs & Hl & _).
  exists page. split; [exact Hs|exact Hl].
Defined.
