(* ===== verification/LogPage.v ===== *)
(** One refresh of a log file and one page of it (nyanpasu-logging: files.rs,
    protocol.rs, and [refresh_page] of session.rs): reading the next batch into
    the index, starting over when the file is another one, older pages from a
    temporary index, and rows within the response budget.

    The files are the class [LogFiles], of which [fs_catalog] and [fs_read] are
    the implementation over a directory ([LogDir]); the Unicode tables of the
    standard library, [serde_json] and the size of a serialized row are the class
    [RowText].  [None] is a panic. *)
From stdpp Require Import base gmap strings list sets.
From S2P Require Import Prelude Text Metadata Health Capability LogIndex.
From Stdlib Require Import ZArith Lia.

(** * The protocol *)

Inductive LogError :=
| Unavailable | Unsupported | SessionExpired | CursorReset | FileGone | Limit | InvalidRequest.
#[export] Instance LogError_eq_dec : EqDecision LogError.
Proof. solve_decision. Defined.

Record LogFileInfo := mkFileInfo { fi_id : string; fi_name : string; fi_bytes : string }.
Record OpenLogs := mkOpenLogs { ol_request_id : string; ol_file : option string }.
Record LogSession := mkLogSession { ls_id : string; ls_lease_ms : Z }.
Record LogCursor := mkCursor { cu_generation : string; cu_offset : string }.
Record QueryLogs := mkQuery {
  ql_session : string;
  ql_filter : Filter;
  ql_direction : Direction;
  ql_cursor : option LogCursor;
  ql_limit : Z;
}.
Record LogRow := mkLogRow {
  lr_id : string;
  lr_timestamp : option string;
  lr_level : Level;
  lr_target : string;
  lr_message : string;
  lr_raw : string;
  lr_unparsed : bool;
  lr_truncated : bool;
}.
Record LogPage := mkPage {
  pg_rows : list LogRow;
  pg_cursor : LogCursor;
  pg_head : LogCursor;
  pg_start : string;
  pg_file : string;
  pg_building : bool;
  pg_more : bool;
  pg_partial : bool;
  pg_malformed : string;
  pg_truncated : string;
  pg_indexed_bytes : string;
  pg_file_bytes : string;
}.

(** [Filter::default]. *)
Definition filter_default : Filter := mkFilter [] None None None None.

(** [empty_page]. *)
Definition empty_page : LogPage :=
  let cursor := mkCursor "" "0" in
  mkPage [] cursor cursor "0" "" true false false "0" "0" "0" "0".

(** * Files *)

Record FileRead := mkFileRead {
  fr_identity : string;
  fr_name : string;
  fr_len : Z;
  fr_prefix : list Ascii.ascii;
  fr_bytes : list Ascii.ascii;
}.

Class LogFiles (W : Type) := {
  files_catalog : M W (result (list LogFileInfo) LogError);
  files_read : string → Z → Z → M W (result FileRead LogError);
}.

(** What [FsLogFiles] asks of the file system.  An entry of a directory has a
    name ([None] when it is not UTF-8), and its type and length may fail; an
    open handle reports its length and reads ranges. *)
Record DirEntry := mkDirEntry {
  de_name : option string;
  de_is_file : option bool;
  de_len : option Z;
}.
Inductive ReadDirError := DirNotFound | DirOther.
Class LogDir (W : Type) := {
  Handle : Type;
  read_dir : string → M W (result (list (option DirEntry)) ReadDirError);
  path_is_file : string → M W (option bool);
  file_identity : string → M W (option string);
  file_open : string → M W (option Handle);
  handle_len : Handle → M W (option Z);
  (** [seek] to an offset, and [take(n).read_to_end]. *)
  handle_read : Handle → Z → Z → M W (option (list Ascii.ascii));
}.

Record FsLogFiles := mkFsLogFiles { lf_directory : string; lf_prefix : string }.

(** [FsLogFiles::valid]. *)
Definition fs_valid (f : FsLogFiles) (name : string) : bool :=
  starts_with (lf_prefix f +:+ ".") name
  && ends_with ".app.log" name
  && (String.length name <=? 255)%nat
  && negb (contains "/" name || contains "\" name || contains ":" name)
  && negb (contains ".." name).

(** The order of names, backwards. *)
Definition later_name (a b : LogFileInfo) : bool :=
  match String.compare (fi_name a) (fi_name b) with Lt => false | _ => true end.

(** [sort_by(|a, b| b.name.cmp(&a.name))], a stable sort. *)
Fixpoint insert_by_name (x : LogFileInfo) (l : list LogFileInfo) : list LogFileInfo :=
  match l with
  | [] => [x]
  | y :: l' => if later_name x y then x :: l else y :: insert_by_name x l'
  end.
Definition sort_by_name (l : list LogFileInfo) : list LogFileInfo := foldr insert_by_name [] l.

(** The loop of [catalog] over the entries of the directory. *)
Fixpoint catalog_loop (f : FsLogFiles) (l : list (option DirEntry)) : result (list LogFileInfo) LogError :=
  match l with
  | [] => Ok []
  | None :: _ => Err Unavailable
  | Some e :: l' =>
      match de_name e with
      | None => catalog_loop f l'
      | Some name =>
          if negb (fs_valid f name) then catalog_loop f l'
          else match de_is_file e with
               | None => Err Unavailable
               | Some false => catalog_loop f l'
               | Some true =>
                   match de_len e with
                   | None => Err FileGone
                   | Some len =>
                       let? files := catalog_loop f l' in
                       Ok (mkFileInfo name name (fmt_u64 len) :: files)
                   end
               end
      end
  end.

Section files.
Context {W : Type} {LD : LogDir W}.

(** [FsLogFiles::catalog]. *)
Definition fs_catalog (f : FsLogFiles) : M W (result (list LogFileInfo) LogError) :=
  d <- read_dir (lf_directory f) ;;
  ret match d with
      | Err DirNotFound => Ok []
      | Err DirOther => Err Unavailable
      | Ok entries =>
          let? files := catalog_loop f (take 4096 entries) in
          Ok (take 128 (sort_by_name files))
      end.

(** An operation of the file system that answers [None] when it fails. *)
Definition or_log_error {A B} (m : M W (option A)) (e : LogError) (k : A → M W (result B LogError)) :
    M W (result B LogError) :=
  r <- m ;; match r with Some a => k a | None => ret (Err e) end.

(** [FsLogFiles::read]. *)
Definition fs_read (f : FsLogFiles) (file : string) (offset length : Z) : M W (result FileRead LogError) :=
  if negb (fs_valid f file) || (MAX_BATCH <? length)%Z then ret (Err InvalidRequest)
  else
    let path := lf_directory f +:+ "/" +:+ file in
    or_log_error (path_is_file path) FileGone (λ is_file,
    if negb is_file then ret (Err InvalidRequest) else
    or_log_error (file_identity path) FileGone (λ identity,
    or_log_error (file_open path) FileGone (λ handle,
    or_log_error (handle_len handle) FileGone (λ len,
    or_log_error (handle_read handle 0 256) Unavailable (λ prefix,
    or_log_error (handle_read handle offset length) Unavailable (λ bytes,
    or_log_error (file_identity path) FileGone (λ again,
    if negb (String.eqb again identity) then ret (Err CursorReset)
    else ret (Ok (mkFileRead identity file len prefix bytes))))))))).
End files.

(** * One refresh *)

Class RowText := {
  from_utf8_lossy : list Ascii.ascii → string;
  to_lowercase : string → string;
  (** [v["fields"]["message"].as_str()] of the parsed text. *)
  json_message : string → option string;
  (** [serde_json::to_vec(&row).len()]. *)
  row_json_len : LogRow → option Z;
}.

Definition fmt_i64 (z : Z) : string := if (z <? 0)%Z then "-" +:+ fmt_u64 (- z) else fmt_u64 z.

Section refresh.
Context {LC : LineCodec} {IN : Interner} {RT : RowText}.
Context {W : Type} {LF : LogFiles W}.

Record Work := mkWork {
  wk_index : Index;
  wk_identity : string;
  wk_name : string;
  wk_prefix : list Ascii.ascii;
  wk_generation : string;
}.

(** [Work::new], with the generation it draws. *)
Definition work_new (generation : string) : Work := mkWork (index_new 0) "" "" [] generation.

Definition with_index (ix : Index) (work : Work) : Work :=
  mkWork ix (wk_identity work) (wk_name work) (wk_prefix work) (wk_generation work).

(** The file to read: the one asked for, or the newest. *)
Definition refresh_name (key : string) : M W (result string LogError) :=
  if String.eqb key "" then
    c <- files_catalog ;;
    ret (let? files := c in match files with [] => Err FileGone | f :: _ => Ok (fi_id f) end)
  else ret (Ok key).

(** Whether the file read is not the one that was indexed so far. *)
Definition other_file (work : Work) (name : string) (read : FileRead) : bool :=
  let shared_prefix := Nat.min (length (wk_prefix work)) (length (fr_prefix read)) in
  negb (String.eqb (wk_identity work) (fr_identity read))
  || negb (String.eqb (wk_name work) name)
  || (fr_len read <? ix_next_read (wk_index work))%Z
  || negb (bool_decide (take shared_prefix (wk_prefix work) = take shared_prefix (fr_prefix read))).

(** The first part of [refresh_page], up to the batch in the index: the work it
    leaves, the name and the length of the file.  [generation] is drawn when the
    file is indexed afresh. *)
Definition refresh_index (key generation : string) (work : Work) :
    M W (option (Work * result (string * Z) LogError)) :=
  n <- refresh_name key ;;
  match n with
  | Err e => ret (Some (work, Err e))
  | Ok name =>
      r <- files_read name (ix_next_read (wk_index work)) MAX_BATCH ;;
      match r with
      | Err e => ret (Some (work, Err e))
      | Ok read =>
          let fresh := mkWork (index_new (Z.max 0 (fr_len read - MAX_WINDOW))) (fr_identity read) name [] generation in
          again <- (if other_file work name read
                    then r <- files_read name (ix_next_read (wk_index fresh)) MAX_BATCH ;; ret (fresh, r)
                    else ret (work, Ok read)) ;;
          ret (let '(work, r) := again in
               match r with
               | Err e => Some (work, Err e)
               | Ok read =>
                   let work := mkWork (wk_index work) (wk_identity work) (wk_name work) (fr_prefix read)
                                 (wk_generation work) in
                   a ← append (ix_next_read (wk_index work)) (fr_bytes read) (wk_index work);
                   Some (with_index a.2 work,
                         match a.1 with Ok _ => Ok (name, fr_len read) | Err _ => Err InvalidRequest end)
               end)
      end
  end.

Definition cursor_at (work : Work) (offset : Z) : LogCursor := mkCursor (wk_generation work) (fmt_u64 offset).

(** The page before any row. *)
Definition base_page (work : Work) (name : string) (len : Z) : LogPage :=
  let ix := wk_index work in
  mkPage [] (cursor_at work (ix_committed ix)) (cursor_at work (ix_committed ix)) (fmt_u64 (index_start ix)) name
    (ix_next_read ix <? len)%Z false (ix_partial ix) (fmt_u64 (ix_malformed ix)) (fmt_u64 (ix_truncated ix))
    (fmt_u64 (ix_next_read ix)) (fmt_u64 len).

(** The offset a query continues from. *)
Definition query_offset (work : Work) (query : QueryLogs) : result (option Z) LogError :=
  match ql_cursor query with
  | None => Ok None
  | Some cursor =>
      match parse_u64 (cu_offset cursor) with
      | None => Err InvalidRequest
      | Some offset =>
          if negb (String.eqb (cu_generation cursor) (wk_generation work))
             || (bool_decide (ql_direction query = After) && (offset <? index_start (wk_index work))%Z)
             || (ix_committed (wk_index work) <? offset)%Z
          then Err CursorReset else Ok (Some offset)
      end
  end.

(** The index of the lines before the window, and where its bytes start. *)
Definition history (work : Work) (name : string) (query : QueryLogs) (offset : option Z) :
    M W (option (result (option (Index * Z)) LogError)) :=
  match offset with
  | Some last =>
      if bool_decide (ql_direction query = Before) && (0 <? last)%Z && (last <=? index_start (wk_index work))%Z then
        let start := Z.max 0 (last - MAX_BATCH) in
        r <- files_read name start (last - start) ;;
        ret match r with
            | Err e => Some (Err e)
            | Ok content =>
                if negb (String.eqb (fr_identity content) (wk_identity work)) || (fr_len content <? last)%Z
                then Some (Err CursorReset)
                else a ← append start (fr_bytes content) (index_new start);
                     Some (match a.1 with Ok _ => Ok (Some (a.2, start)) | Err _ => Err InvalidRequest end)
            end
      else ret (Some (Ok None))
  | None => ret (Some (Ok None))
  end.

(** One field of a row, cut to its bound. *)
Definition cut_field (s : string) : string * bool :=
  let bound := Z.to_nat (MAX_LINE / 4) in
  if (bound <? String.length s)%nat then (String.substring 0 (boundary_before s bound) s, true) else (s, false).

Definition row_of (work : Work) (entry : LEntry) (target message raw : string) : LogRow :=
  let '(raw, cut) := cut_field raw in
  let '(message, cut') := cut_field message in
  mkLogRow (wk_generation work +:+ ":" +:+ fmt_u64 (en_start entry)) (fmt_i64 <$> en_timestamp entry)
    (en_level entry) target message raw (en_unparsed entry) (en_truncated entry || cut || cut').

(** What the rows of a page have come to: the bytes read, the bytes of the
    response, the offset of the cursor, the rows in the order of the walk, and
    whether the budget ended it. *)
Record Rows := mkRows {
  rs_bytes : Z;
  rs_response : Z;
  rs_cursor : Z;
  rs_rows : list LogRow;
  rs_stopped : bool;
}.

Definition moved (backward : bool) (entry : LEntry) (rows : Rows) : Rows :=
  mkRows (rs_bytes rows) (rs_response rows) (if backward then en_start entry else en_end entry) (rs_rows rows)
    (rs_stopped rows).

(** The loop of [refresh_page] over the entries of the scan. *)
Fixpoint rows_loop (work : Work) (index : Index) (name : string) (text : option string) (backward : bool)
    (entries : list LEntry) (rows : Rows) : M W (option (result Rows LogError)) :=
  match entries with
  | [] => ret (Some (Ok rows))
  | entry :: entries' =>
      let size := (en_end entry - en_start entry)%Z in
      if (MAX_BATCH <? rs_bytes rows + size)%Z
      then ret (Some (Ok (mkRows (rs_bytes rows) (rs_response rows) (rs_cursor rows) (rs_rows rows) true)))
      else
        r <- files_read name (en_start entry) size ;;
        match r with
        | Err e => ret (Some (Err e))
        | Ok content =>
            if negb (String.eqb (fr_identity content) (wk_identity work)) || (fr_len content <? en_end entry)%Z
            then ret (Some (Err CursorReset))
            else
              let rows := mkRows (rs_bytes rows + Z.of_nat (length (fr_bytes content))) (rs_response rows)
                            (rs_cursor rows) (rs_rows rows) (rs_stopped rows) in
              let raw := str_trim_end (from_utf8_lossy (fr_bytes content)) in
              match rodeo_resolve (ix_targets index) (en_target entry) with
              | None => ret None
              | Some target =>
                  let message := default raw (json_message raw) in
                  let missed := if text is Some text
                                then negb (contains text (to_lowercase message))
                                     && negb (contains text (to_lowercase target))
                                else false in
                  if missed then rows_loop work index name text backward entries' (moved backward entry rows)
                  else
                    let row := row_of work entry target message raw in
                    match row_json_len row with
                    | None => ret (Some (Err Unavailable))
                    | Some len =>
                        let row_bytes := (len + 1)%Z in
                        if (MAX_BATCH <? rs_response rows + row_bytes)%Z
                        then ret (Some (Ok (mkRows (rs_bytes rows) (rs_response rows) (rs_cursor rows)
                                              (rs_rows rows) true)))
                        else rows_loop work index name text backward entries'
                               (mkRows (rs_bytes rows) (rs_response rows + row_bytes)
                                  (if backward then en_start entry else en_end entry)
                                  (rs_rows rows ++ [row]) (rs_stopped rows))
                    end
              end
        end
  end.

(** The rest of [refresh_page], over the work the first part left. *)
Definition refresh_rows (query : QueryLogs) (work : Work) (name : string) (len : Z) :
    M W (option (result LogPage LogError)) :=
  let base := base_page work name len in
  if pg_building base then ret (Some (Ok base))
  else match query_offset work query with
  | Err e => ret (Some (Err e))
  | Ok offset =>
      h <- history work name query offset ;;
      match h with
      | None => ret None
      | Some (Err e) => ret (Some (Err e))
      | Some (Ok older) =>
          let index := match older with Some (ix, _) => ix | None => wk_index work end in
          let oldest := match older with
                        | Some (ix, start) => if bool_decide (ix_entries ix = []) then start else index_start ix
                        | None => index_start index
                        end in
          let backward := is_reverse (ql_direction query) in
          match scan (ql_filter query) (ql_direction query) offset (ql_limit query) index with
          | None => ret None
          | Some sn =>
              let text := to_lowercase <$> fl_text (ql_filter query) in
              let first := default (if backward then ix_committed (wk_index work) else index_start (wk_index work)) offset in
              r <- rows_loop work index name text backward
                     (if backward then reverse (sn_entries sn) else sn_entries sn) (mkRows 0 4096 first [] false) ;;
              ret match r with
                  | None => None
                  | Some (Err e) => Some (Err e)
                  | Some (Ok rows) =>
                      let more := sn_more sn || (backward && (0 <? oldest)%Z) || rs_stopped rows in
                      let next := if rs_stopped rows then rs_cursor rows
                                  else if backward && negb (sn_more sn) then oldest else sn_boundary sn in
                      Some (Ok (mkPage (if backward then reverse (rs_rows rows) else rs_rows rows)
                                  (cursor_at work next) (pg_head base) (pg_start base) (pg_file base) false more
                                  (pg_partial base) (pg_malformed base) (pg_truncated base)
                                  (pg_indexed_bytes base) (pg_file_bytes base)))
                  end
          end
      end
  end.

(** [refresh] with [refresh_page]. *)
Definition refresh (key generation : string) (query : QueryLogs) (work : Work) :
    M W (option (Work * result LogPage LogError)) :=
  i <- refresh_index key generation work ;;
  match i with
  | None => ret None
  | Some (work, Err e) => ret (Some (work, Err e))
  | Some (work, Ok (name, len)) =>
      p <- refresh_rows query work name len ;;
      ret (match p with Some page => Some (work, page) | None => None end)
  end.
End refresh.
