(* ===== verification/LogPageProps.v ===== *)
(** What a refresh guarantees: it never panics, it leaves an index of the file,
    and following the cursors of its pages yields exactly the entries the filter
    wants. *)
From stdpp Require Import base gmap strings list sets sorting.
From S2P Require Import Prelude Text Metadata Health Capability LogIndex LogIndexProps LogScan LogPage.
From Stdlib Require Import ZArith Lia.

(** Documented contract of [LogFiles]: a read never returns more than it was
    asked for. *)
Class LogFilesLaws (W : Type) {LF : LogFiles W} := {
  files_read_bounded name offset n w r :
    (files_read name offset n w).1 = Ok r → (Z.of_nat (length (fr_bytes r)) ≤ Z.max 0 n)%Z;
}.

Section page.
Context {LC : LineCodec} {IN : Interner} {IL : InternerLaws IN} {RT : RowText}.
Context {W : Type} {LF : LogFiles W} {FL : LogFilesLaws W}.

(** An index that was fed bytes batch by batch. *)
Definition index_good (ix : Index) : Prop := ∃ start bytes, indexes start bytes ix.
Definition work_ok (work : Work) : Prop := index_good (wk_index work).

Lemma new_good start : index_good (index_new start).
Proof. exists start, []. apply new_indexes. Qed.

Lemma append_good ix bytes :
  index_good ix → (Z.of_nat (length bytes) ≤ MAX_BATCH)%Z →
  ∃ ix', append (ix_next_read ix) bytes ix = Some (Ok (), ix') ∧ index_good ix'.
Proof.
  intros (start & old & Hix) Hlen. destruct (append_ok start old bytes ix (ix_inv _ _ _ Hix) Hlen) as (ix' & He & Hok).
  exists ix'. split; [done|]. by exists start, (old ++ bytes).
Qed.

Lemma good_tables ix : index_good ix → tables_ok (ix_tables ix) ∧ ∃ lo, chain lo (rows ix) (ix_committed ix).
Proof.
  intros (start & bytes & [[[Ht _ Hc _] (? & ? & _ & _ & _ & _ & Hcom & _)] _ _]).
  split; [done|]. exists start. by rewrite Hcom.
Qed.

(** * The first part *)
Lemma refresh_index_ok key generation work w :
  work_ok work →
  ∃ work' r w', refresh_index key generation work w = (Some (work', r), w') ∧ work_ok work'.
Proof.
  intros Hok. unfold refresh_index, bind, ret. destruct (refresh_name key w) as [[name|e] w1]; [|by eexists _, _, _].
  pose proof (files_read_bounded name (ix_next_read (wk_index work)) MAX_BATCH w1) as Hlen.
  destruct (files_read name (ix_next_read (wk_index work)) MAX_BATCH w1) as [[read|e] w2]; [|by eexists _, _, _].
  cbn in Hlen. specialize (Hlen read eq_refl).
  set (fresh := mkWork _ _ _ _ _).
  destruct (other_file work name read).
  - pose proof (files_read_bounded name (ix_next_read (wk_index fresh)) MAX_BATCH w2) as Hlen2.
    destruct (files_read name (ix_next_read (wk_index fresh)) MAX_BATCH w2) as [[read2|e] w3].
    + specialize (Hlen2 read2 eq_refl). cbn [wk_index].
      destruct (append_good (wk_index fresh) (fr_bytes read2)) as (ix' & He & Hg); [apply new_good|unfold MAX_BATCH in *; lia|].
      rewrite He. cbn. eexists _, _, _. split; [reflexivity|exact Hg].
    + eexists _, _, _. split; [reflexivity|]. apply new_good.
  - cbn [wk_index]. destruct (append_good (wk_index work) (fr_bytes read)) as (ix' & He & Hg); [done|unfold MAX_BATCH in *; lia|].
    rewrite He. cbn. eexists _, _, _. split; [reflexivity|exact Hg].
Qed.

(** * The rows *)

Definition row_id (work : Work) (e : LEntry) : string := wk_generation work +:+ ":" +:+ fmt_u64 (en_start e).

Lemma row_of_id work e target message raw : lr_id (row_of work e target message raw) = row_id work e.
Proof. unfold row_of. by destruct (cut_field raw), (cut_field message). Qed.

(** The loop consumes a first part of the entries; its rows are entries of that
    part in order, all of it when no text is asked for; the cursor lies after
    it, and the response stays within its budget. *)
Lemma rows_loop_ok work index name text backward entries rows w :
  (∀ e, e ∈ entries → is_Some (rodeo_resolve (ix_targets index) (en_target e))) →
  (rs_response rows ≤ MAX_BATCH)%Z → rs_stopped rows = false →
  ∃ r w', rows_loop work index name text backward entries rows w = (Some r, w')
  ∧ ∀ rows', r = Ok rows' →
    ∃ seen rest kept,
      entries = seen ++ rest
      ∧ lr_id <$> rs_rows rows' = (lr_id <$> rs_rows rows) ++ (row_id work <$> kept)
      ∧ kept `sublist_of` seen ∧ (text = None → kept = seen)
      ∧ (rs_cursor rows' = if last seen is Some e then bound_of backward e else rs_cursor rows)
      ∧ (rs_stopped rows' = false → rest = [])
      ∧ (rs_response rows' ≤ MAX_BATCH)%Z.
Proof.
  revert rows w. induction entries as [|e entries IH]; intros rows w Hres Hbudget Hgo; cbn [rows_loop].
  - eexists _, _. split; [reflexivity|]. intros rows' [= <-]. exists [], [], []. cbn. rewrite app_nil_r.
    by split_and!.
  - assert (Hstop : ∀ bytes, ∃ seen rest kept, e :: entries = seen ++ rest
      ∧ lr_id <$> rs_rows (mkRows bytes (rs_response rows) (rs_cursor rows) (rs_rows rows) true)
        = (lr_id <$> rs_rows rows) ++ (row_id work <$> kept)
      ∧ kept `sublist_of` seen ∧ (text = None → kept = seen)
      ∧ rs_cursor rows = (if last seen is Some e then bound_of backward e else rs_cursor rows)
      ∧ (true = false → rest = []) ∧ (rs_response rows ≤ MAX_BATCH)%Z).
    { intros bytes. exists [], (e :: entries), []. cbn. rewrite app_nil_r. by split_and!. }
    destruct (MAX_BATCH <? _)%Z; [eexists _, _; split; [reflexivity|]; intros rows' [= <-]; apply Hstop|].
    unfold bind. destruct (files_read _ _ _ w) as [[content|err] w1]; [|by eexists _, _; split; [reflexivity|]].
    destruct (_ || _); [by eexists _, _; split; [reflexivity|]|].
    destruct (Hres e) as [target Ht]; [by left|]. rewrite Ht.
    assert (Hres' : ∀ e', e' ∈ entries → is_Some (rodeo_resolve (ix_targets index) (en_target e'))).
    { intros e' He'. apply Hres. by right. }
    set (raw := str_trim_end _). set (message := default raw (json_message raw)).
    destruct (match text with Some t => _ | None => false end) eqn:Emiss.
    + set (rows1 := moved _ _ _).
      destruct (IH rows1 w1 Hres' Hbudget Hgo) as (r & w' & -> & Hr). eexists _, _. split; [reflexivity|].
      intros rows' ->. destruct (Hr rows' eq_refl) as (seen & rest & kept & -> & Hids & Hsub & Htext & Hcur & Hst & Hb).
      exists (e :: seen), rest, kept. split_and!; [done|done|by apply sublist_cons| | |done|done].
      * intros ->. done.
      * rewrite Hcur, last_cons. by destruct (last seen).
    + destruct (row_json_len _) as [len|]; [|by eexists _, _; split; [reflexivity|]].
      cbn [rs_response rs_bytes rs_cursor rs_rows rs_stopped].
      destruct (MAX_BATCH <? _)%Z eqn:Eb; [eexists _, _; split; [reflexivity|]; intros rows' [= <-]; apply Hstop|].
      apply Z.ltb_ge in Eb. set (row := row_of _ _ _ _ _) in *. set (rows1 := mkRows _ _ _ _ _).
      destruct (IH rows1 w1 Hres' Eb Hgo) as (r & w' & -> & Hr). eexists _, _. split; [reflexivity|].
      intros rows' ->. destruct (Hr rows' eq_refl) as (seen & rest & kept & -> & Hids & Hsub & Htext & Hcur & Hst & Hb).
      exists (e :: seen), rest, (e :: kept). split_and!; [done| |by apply sublist_skip| | |done|done].
      * rewrite Hids. cbn. rewrite fmap_app, <- app_assoc. cbn. unfold row. by rewrite row_of_id.
      * intros Hn. by rewrite Htext.
      * rewrite Hcur, last_cons. by destruct (last seen).
Qed.

(** * A page *)

(** The entries the filter wants beyond a boundary, in the order of the walk. *)
Definition wanted (query : QueryLogs) (index : Index) (b : Z) : list LEntry :=
  filter (wants index (ql_filter query)) (walk (is_reverse (ql_direction query)) b (ix_entries index)).

Lemma wanted_entry query index b e : e ∈ wanted query index b → e ∈ ix_entries index.
Proof.
  intros [_ He]%list_elem_of_filter. unfold walk in He. revert He. destruct (is_reverse _); rewrite ?elem_of_reverse;
    by intros [_ ?]%list_elem_of_filter.
Qed.

(** After a wanted entry, the rest is wanted. *)
Lemma wanted_after query index b l1 e l2 :
  index_good index → wanted query index b = l1 ++ e :: l2 →
  wanted query index (bound_of (is_reverse (ql_direction query)) e) = l2.
Proof.
  intros [Ht [lo Hc]]%good_tables Hw. unfold wanted in *.
  apply filter_middle_inv in Hw as (w1 & w2 & Hw & _ & <-). f_equal.
  eapply walk_after; [|done]. by apply (entries_spaced index lo).
Qed.

(** Nothing of an index lies before its first entry. *)
Lemma wanted_oldest query index oldest :
  index_good index → is_reverse (ql_direction query) = true →
  (ix_entries index = [] ∨ oldest = index_start index) → wanted query index oldest = [].
Proof.
  intros [Ht [lo Hc]]%good_tables Hd Hold. unfold wanted. rewrite Hd. destruct Hold as [-> | ->]; [done|].
  by rewrite (walk_last index lo Hc true).
Qed.

(** A page of the index: its rows are the wanted entries between the offset it
    was asked at and its cursor, of which a text leaves out some. *)
Definition page_of (query : QueryLogs) (work : Work) (index : Index) (first : Z) (page : LogPage) : Prop :=
  ∃ next seen kept,
    pg_cursor page = cursor_at work next
    ∧ wanted query index first = seen ++ wanted query index next
    ∧ kept `sublist_of` seen ∧ (fl_text (ql_filter query) = None → kept = seen)
    ∧ lr_id <$> pg_rows page
      = (if is_reverse (ql_direction query) then reverse else id) (row_id work <$> kept)
    ∧ (Z.of_nat (length seen) ≤ page_cap (ql_limit query))%Z
    ∧ (pg_more page = false → wanted query index next = [] ∧ (is_reverse (ql_direction query) = true → next ≤ 0)%Z).

Lemma cut_page query work index first oldest (sn : LScan) (found : list LEntry) rows base :
  index_good index →
  wanted query index first = found ++ wanted query index (sn_boundary sn) →
  (sn_more sn = false → wanted query index (sn_boundary sn) = []) →
  (Z.of_nat (length found) ≤ page_cap (ql_limit query))%Z →
  (is_reverse (ql_direction query) = true → ix_entries index = [] ∨ oldest = index_start index) →
  (∃ seen rest kept, found = seen ++ rest
     ∧ lr_id <$> rs_rows rows = row_id work <$> kept
     ∧ kept `sublist_of` seen ∧ (to_lowercase <$> fl_text (ql_filter query) = None → kept = seen)
     ∧ (rs_cursor rows = if last seen is Some e then bound_of (is_reverse (ql_direction query)) e else first)
     ∧ (rs_stopped rows = false → rest = [])) →
  let backward := is_reverse (ql_direction query) in
  page_of query work index first
    (mkPage (if backward then reverse (rs_rows rows) else rs_rows rows)
       (cursor_at work (if rs_stopped rows then rs_cursor rows
                        else if backward && negb (sn_more sn) then oldest else sn_boundary sn))
       (pg_head base) (pg_start base) (pg_file base) false
       (sn_more sn || (backward && (0 <? oldest)%Z) || rs_stopped rows)
       (pg_partial base) (pg_malformed base) (pg_truncated base) (pg_indexed_bytes base) (pg_file_bytes base)).
Proof.
  intros Hg Hw Hno Hlen Hold (seen & rest & kept & -> & Hids & Hsub & Htext & Hcur & Hst) backward.
  eexists _, seen, kept. split; [reflexivity|]. cbn [pg_rows pg_more]. rewrite <- app_assoc in Hw.
  assert (Hids' : lr_id <$> (if backward then reverse (rs_rows rows) else rs_rows rows)
    = (if backward then reverse else id) (row_id work <$> kept)).
  { destruct backward; [by rewrite fmap_reverse, Hids|done]. }
  assert (Hnext : wanted query index first = seen ++ wanted query index
      (if rs_stopped rows then rs_cursor rows else if backward && negb (sn_more sn) then oldest else sn_boundary sn)).
  { destruct (rs_stopped rows).
    - rewrite Hcur. destruct (last seen) as [e|] eqn:El; [|by apply last_None in El as ->].
      apply last_Some in El as [seen' ->]. rewrite <- app_assoc in Hw. cbn in Hw.
      rewrite (wanted_after _ _ _ _ _ _ Hg Hw). by rewrite <- app_assoc.
    - rewrite (Hst eq_refl) in Hw. destruct backward eqn:Ed, (sn_more sn); cbn [andb negb]; [done| |done..].
      rewrite (wanted_oldest query index oldest), Hw, (Hno eq_refl); auto. }
  split_and!; [exact Hnext|done| |exact Hids'| |].
  - intros Hn. apply Htext. by rewrite Hn.
  - rewrite length_app in Hlen. lia.
  - rewrite !orb_false_iff. intros [[Hm Hb] Hs]. rewrite Hs, Hm in Hnext |- *. rewrite Hst in Hw by done.
    rewrite (Hno Hm) in Hw. destruct backward eqn:Ed; cbn [andb negb] in *.
    + split; [apply wanted_oldest; auto|]. intros _. by apply Z.ltb_ge in Hb.
    + split; [by apply Hno|]. intros Hd. subst backward. congruence.
Qed.

(** The index of older lines: of the bytes right before the offset. *)
Lemma history_ok work name query offset w :
  ∃ r w', history work name query offset w = (Some r, w')
    ∧ ∀ ix start, r = Ok (Some (ix, start)) → index_good ix ∧ ql_direction query = Before ∧ is_Some offset.
Proof.
  unfold history, bind, ret. destruct offset as [last|]; [|by eexists _, _; split; [reflexivity|]].
  destruct (_ && _) eqn:Ec; [|by eexists _, _; split; [reflexivity|]].
  rewrite !andb_true_iff, bool_decide_eq_true, Z.ltb_lt in Ec. destruct Ec as [[Hd Hpos] _].
  set (start := Z.max 0 (last - MAX_BATCH)).
  pose proof (files_read_bounded name start (last - start) w) as Hlen.
  destruct (files_read name start (last - start) w) as [[content|e] w1]; [|by eexists _, _; split; [reflexivity|]].
  specialize (Hlen content eq_refl).
  destruct (_ || _); [by eexists _, _; split; [reflexivity|]|].
  destruct (append_good (index_new start) (fr_bytes content)) as (ix' & He & Hg);
    [apply new_good|unfold MAX_BATCH in *; lia|].
  cbn [ix_next_read index_new] in He. rewrite He. cbn. eexists _, _. split; [reflexivity|].
  intros ix st [= <- <-]. eauto.
Qed.

(** The index a page is read from: that of the work, or one of older lines when
    the query goes back beyond it. *)
Definition page_index (query : QueryLogs) (work : Work) (index : Index) : Prop :=
  index = wk_index work ∨ (ql_direction query = Before ∧ index_good index).

Lemma scan_wanted query index offset :
  index_good index →
  let first := default (if is_reverse (ql_direction query) then ix_committed index else index_start index) offset in
  ∃ found sn, scan (ql_filter query) (ql_direction query) offset (ql_limit query) index = Some sn
    ∧ (if is_reverse (ql_direction query) then reverse (sn_entries sn) else sn_entries sn) = found
    ∧ wanted query index first = found ++ wanted query index (sn_boundary sn)
    ∧ (sn_more sn = false → wanted query index (sn_boundary sn) = [])
    ∧ (Z.of_nat (length found) ≤ page_cap (ql_limit query))%Z.
Proof.
  intros [Ht [lo Hc]]%good_tables first.
  destruct (scan_page index Ht lo Hc (ql_filter query) _ (ql_direction query) first (ql_limit query) eq_refl)
    as (found & more & next & Hs & Hw & Hno & _ & Hlen).
  exists found, (mkScan (if is_reverse (ql_direction query) then reverse found else found) next more).
  split; [rewrite <- Hs; by destruct offset|]. cbn [sn_entries sn_boundary sn_more].
  split_and!; [destruct (is_reverse _); by rewrite ?reverse_involutive|done..].
Qed.

Lemma refresh_rows_ok query work name len w :
  work_ok work →
  ∃ r w', refresh_rows query work name len w = (Some r, w')
  ∧ ∀ page, r = Ok page → pg_building page = false →
    ∃ index offset, query_offset work query = Ok offset ∧ page_index query work index
      ∧ page_of query work index
          (default (if is_reverse (ql_direction query) then ix_committed (wk_index work)
                    else index_start (wk_index work)) offset) page.
Proof.
  intros Hok. unfold refresh_rows.
  destruct (pg_building (base_page work name len)) eqn:Eb.
  { eexists _, _. split; [reflexivity|]. intros page [= <-]. congruence. }
  destruct (query_offset work query) as [offset|e] eqn:Eo; [|by eexists _, _; split; [reflexivity|]].
  unfold bind at 1. destruct (history_ok work name query offset w) as (h & w1 & -> & Hh).
  destruct h as [older|e]; [|by eexists _, _; split; [reflexivity|]].
  set (index := match older with Some (ix, _) => ix | None => wk_index work end).
  set (oldest := match older with Some (ix, start) => _ | None => _ end).
  assert (Hg : index_good index) by (destruct older as [[ix st]|]; [by apply (Hh ix st)|done]).
  assert (Hpi : page_index query work index).
  { destruct older as [[ix st]|]; [|by left]. right. by destruct (Hh ix st eq_refl) as (? & ? & _). }
  set (first := default _ offset).
  assert (Hfirst : first = default (if is_reverse (ql_direction query) then ix_committed index else index_start index) offset).
  { destruct older as [[ix st]|]; [|done]. destruct (Hh ix st eq_refl) as (_ & _ & [o Ho]). unfold first. by rewrite Ho. }
  destruct (scan_wanted query index offset Hg) as (found & sn & -> & -> & Hw & Hno & Hlen). rewrite <- Hfirst in Hw.
  unfold bind.
  destruct (rows_loop_ok work index name (to_lowercase <$> fl_text (ql_filter query)) (is_reverse (ql_direction query))
              found (mkRows 0 4096 first [] false) w1) as (r & w2 & -> & Hr).
  { intros e He. apply (to_resolves _ (proj1 (good_tables _ Hg))), (wanted_entry query index first).
    rewrite Hw. apply elem_of_app. by left. }
  { cbn. unfold MAX_BATCH. lia. }
  { done. }
  destruct r as [rows|e]; [|by eexists _, _; split; [reflexivity|]].
  eexists _, _. split; [reflexivity|]. intros page [= <-] _. exists index, offset. split_and!; [done..|].
  apply (cut_page query work index first oldest sn found rows (base_page work name len)); [done..| |].
  - intros _. unfold oldest, index. destruct older as [[ix st]|]; [|by right].
    case_bool_decide; [by left|by right].
  - destruct (Hr rows eq_refl) as (seen & rest & kept & -> & Hids & Hsub & Htext & Hcur & Hst & _).
    by exists seen, rest, kept.
Qed.


(** * Older pages may pass over a line *)

(** An older window without an entry gives an empty page whose cursor is the
    beginning of the window, wherever in a line that is. *)
Lemma empty_window_cursor query work name len w w1 ix start offset :
  pg_building (base_page work name len) = false → query_offset work query = Ok (Some offset) →
  history work name query (Some offset) w = (Some (Ok (Some (ix, start))), w1) → ix_entries ix = [] →
  ∃ page, refresh_rows query work name len w = (Some (Ok page), w1)
    ∧ pg_rows page = [] ∧ pg_cursor page = cursor_at work start ∧ pg_more page = (0 <? start)%Z.
Proof.
  intros Hb Ho Hh Hnil. destruct (history_ok work name query (Some offset) w) as (r & w' & Hh' & Hg).
  rewrite Hh in Hh'. simplify_eq. destruct (Hg ix start eq_refl) as (Hgood & Hd & _).
  destruct (good_tables _ Hgood) as [Ht [lo Hc]].
  destruct (scan_page ix Ht lo Hc (ql_filter query) _ (ql_direction query) offset (ql_limit query) eq_refl)
    as (found & more & next & Hs & Hw & _ & Hmore & _).
  assert (Hrev : is_reverse (ql_direction query) = true) by (by rewrite Hd).
  rewrite Hnil, Hrev in *. cbn in Hw. symmetry in Hw. apply app_eq_nil in Hw as [-> _].
  assert (more = false) as -> by (destruct more; [specialize (Hmore eq_refl); cbn in Hmore; lia|done]).
  unfold refresh_rows. rewrite Hb, Ho. unfold bind. rewrite Hh, Hs, Hnil, Hrev. cbn.
  eexists; split; [reflexivity|]. by rewrite orb_false_r.
Qed.
End page.

Definition letter_x : Ascii.ascii := Ascii.ascii_of_nat 120.

(** A file of one short line, which begins before the last [MAX_BATCH] bytes,
    and one line over the bound. *)
Definition straddled (head tail : list Ascii.ascii) : list Ascii.ascii :=
  head ++ tail ++ [newline] ++ replicate (Z.to_nat (MAX_BATCH - 2) - length tail) letter_x ++ [newline].

Lemma lines_from_plain skip start cur l rest :
  Forall (λ b, b ≠ newline) l → lines_from skip start cur (l ++ rest) = lines_from skip start (cur ++ l) rest.
Proof.
  intros Hl. revert cur. induction Hl as [|b l Hb _ IH]; intros cur; cbn; [by rewrite app_nil_r|].
  destruct (Ascii.eqb_spec b newline); [done|]. by rewrite IH, <- app_assoc.
Qed.

(** The line is one of the file's, but neither the window of older lines that
    holds its end nor the window before it holds it. *)
Lemma older_pages_lose_a_line (head tail : list Ascii.ascii) :
  Forall (λ b, b ≠ newline) (head ++ tail) → head ≠ [] → (Z.of_nat (length (head ++ tail)) ≤ MAX_LINE)%Z →
  let file := straddled head tail in
  let start := (Z.of_nat (length file) - MAX_BATCH)%Z in
  (0%Z, head ++ tail) ∈ file_lines 0 file
  ∧ start = Z.of_nat (length head)
  ∧ file_lines start (drop (length head) file) = []
  ∧ file_lines 0 (take (length head) file) = [].
Proof.
  intros Hplain Hhead Hlen file start. apply Forall_app in Hplain as [Hh Ht]. rewrite length_app in Hlen.
  assert (Hstart : start = Z.of_nat (length head)).
  { unfold start, file, straddled. rewrite !length_app, length_replicate. cbn [length].
    unfold MAX_BATCH, MAX_LINE in *. lia. }
  assert (Hx : ∀ n, Forall (λ b, b ≠ newline) (replicate n letter_x)) by (intros n; by apply Forall_replicate).
  split_and!; [|done| |].
  - unfold file_lines, file, straddled. rewrite !lines_from_plain by done. cbn.
    rewrite (proj2 (Z.ltb_ge _ _)) by (rewrite length_app; lia). by left.
  - rewrite Hstart. unfold file_lines, file, straddled. rewrite drop_app_length.
    replace (negb (Z.of_nat (length head) =? 0)%Z) with true
      by (destruct head; [done|]; cbn [length]; symmetry; apply negb_true_iff, Z.eqb_neq; lia).
    rewrite lines_from_plain by done. cbn [app lines_from]. replace (Ascii.eqb newline newline) with true by done.
    cbn [orb]. rewrite lines_from_plain by done. cbn [app lines_from].
    replace (Ascii.eqb newline newline) with true by done. cbn [orb].
    rewrite (proj2 (Z.ltb_lt _ _)); [done|]. rewrite length_replicate. unfold MAX_BATCH, MAX_LINE in *. lia.
  - unfold file, straddled. rewrite take_app_length. unfold file_lines.
    rewrite <- (app_nil_r head), lines_from_plain by done. done.
Qed.

(** * A concrete page *)

#[local] Existing Instances list_pool list_pool_laws toy_lines.

(** A directory of one file, whose bytes are the world. *)
#[export] Instance one_file : LogFiles (list Ascii.ascii) := {|
  files_catalog := ret (Ok [mkFileInfo "app.1.app.log" "app.1.app.log" "0"]);
  files_read name offset len w :=
    (Ok (mkFileRead "inode" name (Z.of_nat (length w)) (take 256 w)
           (take (Z.to_nat len) (drop (Z.to_nat offset) w))), w);
|}.

(** ASCII text without JSON. *)
#[export] Instance plain_text : RowText := {|
  from_utf8_lossy l := String.string_of_list_ascii l;
  to_lowercase := to_ascii_lowercase;
  json_message _ := None;
  row_json_len r := Some (Z.of_nat (String.length (lr_raw r)) + Z.of_nat (String.length (lr_message r)))%Z;
|}.

#[export] Instance one_file_laws : LogFilesLaws (list Ascii.ascii).
Proof. split. intros name offset n w r [= <-]. cbn. rewrite length_take. lia. Qed.

Module demo_page.
Definition query : QueryLogs := mkQuery "s" (mkFilter [Info] None None None None) Latest None 1.
Definition bytes : list Ascii.ascii := concat demo_index.batches.
(** The newest row at level info, and the cursor of the rest. *)
Example page :
  let r := refresh "" "g1" query (work_new "g0") bytes in
  match r.1 with
  | Some (_, Ok page) => Some (lr_raw <$> pg_rows page, cu_offset (pg_cursor page), pg_more page)
  | _ => None
  end = Some (["{info a"], "21", true).
Proof. vm_compute. reflexivity. Qed.
End demo_page.

