(* ===== verification/LogSession.v ===== *)
(** The actor that owns the log sessions (nyanpasu-logging, session.rs): leases,
    slots with one index each, refresh tasks, and the reaping of what is idle.

    Messages are handled one at a time, so a handler is a function on the state
    of the actor.  What it draws from outside, the readings of the clock in
    their order and fresh identifiers, is its argument [Inputs].  A reply port is
    a number, and the replies are recorded in the order they are sent.  A task
    holds the work of its slot until its [Done] message is handled.  [None] is a
    panic. *)
From stdpp Require Import base gmap strings list sets.
From S2P Require Import Prelude Text Metadata Health Capability LogIndex LogPage.
From Stdlib Require Import ZArith Lia.

Definition LEASE : Z := 45000.
Definition GRACE : Z := 30000.
Definition MAX_SESSIONS : nat := 16.
Definition MAX_SLOTS : nat := 4.

Section actor.
Context {LC : LineCodec} {IN : Interner} {RT : RowText}.

Record Session := mkSession {
  se_owner : string;
  se_request : string;
  se_file : string;
  se_expires : Z;
}.

(** A running refresh: the work it took, its query and its reply port. *)
Record Task := mkTask { ta_work : Work; ta_query : QueryLogs; ta_reply : option nat }.

Record Slot := mkSlot {
  sl_work : option Work;
  sl_task : option Task;
  sl_page : LogPage;
  sl_idle : option Z;
}.

Inductive Reply :=
| ROpen (r : result LogSession LogError)
| RQuery (r : result LogPage LogError)
| RClose (r : result unit LogError).

Record State := mkState {
  st_sessions : gmap string Session;
  st_slots : gmap string Slot;
  (** When the next [Tick] is due. *)
  st_timer : option Z;
  st_replies : list (nat * Reply);
}.

(** [pre_start]. *)
Definition state_new : State := mkState ∅ ∅ None [].

Inductive Message :=
| Open (owner : string) (request : OpenLogs) (reply : nat)
| Query (owner : string) (request : QueryLogs) (reply : nat)
| Close (owner session : string) (reply : nat)
| Done (file : string) (outcome : result (Work * result LogPage LogError) LogError) (reply : option nat)
| Tick.

Record Inputs := mkInputs {
  in_reap : Z;       (* the first [reap] *)
  in_now : Z;        (* [now] of the handler *)
  in_reap2 : Z;      (* the second [reap], of [Close] and [Done] *)
  in_schedule : Z;   (* [schedule] *)
  in_session : string;
  in_generation : string;
}.

Definition send (port : nat) (r : Reply) (st : State) : State :=
  mkState (st_sessions st) (st_slots st) (st_timer st) (st_replies st ++ [(port, r)]).
Definition send_opt (port : option nat) (r : Reply) (st : State) : State :=
  if port is Some p then send p r st else st.
Definition set_sessions (m : gmap string Session) (st : State) : State :=
  mkState m (st_slots st) (st_timer st) (st_replies st).
Definition set_slots (m : gmap string Slot) (st : State) : State :=
  mkState (st_sessions st) m (st_timer st) (st_replies st).

(** [self.sessions.values().any(|s| &s.file == file)]. *)
Definition in_use (file : string) (sessions : gmap string Session) : bool :=
  bool_decide (map_Exists (λ _ s, se_file s = file) sessions).

(** The entry of [expired] for a file: the latest of the leases that ran out. *)
Definition expired_at (now : Z) (file : string) (sessions : gmap string Session) : option Z :=
  foldr (λ '(_, s) acc,
    if (se_expires s <=? now)%Z && String.eqb (se_file s) file
    then Some (if acc is Some e then Z.max e (se_expires s) else se_expires s)
    else acc) None (map_to_list sessions).

(** The slots [reap] retains. *)
Definition slot_kept (now : Z) (slot : Slot) : bool :=
  (if sl_task slot is Some _ then true else false)
  || (if sl_idle slot is Some at_ then now <? at_ + GRACE else true)%Z.

(** [State::reap]. *)
Definition reap (now : Z) (st : State) : State :=
  let sessions := filter (λ p, now < se_expires p.2)%Z (st_sessions st) in
  let mark file slot :=
    mkSlot (sl_work slot) (sl_task slot) (sl_page slot)
      (if in_use file sessions then None
       else match sl_idle slot with
            | None => Some (default now (expired_at now file (st_sessions st)))
            | at_ => at_
            end) in
  let slots := map_imap (λ file slot, Some (mark file slot)) (st_slots st) in
  mkState sessions
    (filter (λ p, slot_kept now p.2 = true) slots)
    (st_timer st) (st_replies st).

(** The deadlines the actor wakes up for. *)
Definition deadlines (st : State) : list Z :=
  ((λ p, se_expires p.2) <$> map_to_list (st_sessions st))
  ++ omap (λ p, if sl_task p.2 is Some _ then None else (λ t, t + GRACE)%Z <$> sl_idle p.2)
       (map_to_list (st_slots st)).

Fixpoint list_min (l : list Z) : option Z :=
  match l with
  | [] => None
  | x :: l' => Some (if list_min l' is Some m then Z.min x m else x)
  end.

(** [State::schedule]. *)
Definition schedule (now : Z) (st : State) : State :=
  mkState (st_sessions st) (st_slots st)
    ((λ at_, now + Z.max 1 (Z.max 0 (at_ - now)))%Z <$> list_min (deadlines st)) (st_replies st).

(** [State::launch]. *)
Definition launch (file : string) (query : QueryLogs) (reply : option nat) (st : State) : option State :=
  slot ← st_slots st !! file;
  Some match sl_work slot with
       | None =>
           let p := sl_page slot in
           send_opt reply
             (RQuery (Ok (mkPage [] (pg_cursor p) (pg_head p) (pg_start p) (pg_file p) true (pg_more p) (pg_partial p)
                            (pg_malformed p) (pg_truncated p) (pg_indexed_bytes p) (pg_file_bytes p)))) st
       | Some work =>
           set_slots (<[file := mkSlot None (Some (mkTask work query reply)) (sl_page slot) (sl_idle slot)]>
                        (st_slots st)) st
       end.

(** The query of a refresh nobody asked for. *)
Definition default_query (session : string) : QueryLogs := mkQuery session filter_default Latest None 200.

(** The arm of [Open]. *)
Definition on_open (i : Inputs) (owner : string) (request : OpenLogs) (reply : nat) (st : State) : option State :=
  let file := default "" (ol_file request) in
  let same p := se_owner (p.2 : Session) = owner ∧ se_request (p.2 : Session) = ol_request_id request in
  match map_to_list (filter same (st_sessions st)) with
  | (id, session) :: _ =>
      Some (if negb (String.eqb (se_file session) file)
            then send reply (ROpen (Err InvalidRequest)) st
            else send reply (ROpen (Ok (mkLogSession id LEASE)))
                   (set_sessions (<[id := mkSession (se_owner session) (se_request session) (se_file session)
                                            (in_now i + LEASE)]> (st_sessions st)) st))
  | [] =>
      if (MAX_SESSIONS <=? size (st_sessions st))%nat
         || (negb (bool_decide (is_Some (st_slots st !! file))) && (MAX_SLOTS <=? size (st_slots st))%nat)
      then Some (send reply (ROpen (Err Limit)) st)
      else
        let id := in_session i in
        let session := mkSession owner (ol_request_id request) file (in_now i + LEASE) in
        let slot := match st_slots st !! file with
                    | Some slot => mkSlot (sl_work slot) (sl_task slot) (sl_page slot) None
                    | None => mkSlot (Some (work_new (in_generation i))) None empty_page None
                    end in
        let st := send reply (ROpen (Ok (mkLogSession id LEASE)))
                    (set_slots (<[file := slot]> (st_slots st))
                       (set_sessions (<[id := session]> (st_sessions st)) st)) in
        if sl_task slot is Some _ then Some st else launch file (default_query id) None st
  end.

(** The arm of [Query]. *)
Definition on_query (i : Inputs) (owner : string) (request : QueryLogs) (reply : nat) (st : State) : option State :=
  match st_sessions st !! ql_session request with
  | Some session =>
      if String.eqb (se_owner session) owner then
        let session := mkSession (se_owner session) (se_request session) (se_file session) (in_now i + LEASE) in
        launch (se_file session) request (Some reply)
          (set_sessions (<[ql_session request := session]> (st_sessions st)) st)
      else Some (send reply (RQuery (Err SessionExpired)) st)
  | None => Some (send reply (RQuery (Err SessionExpired)) st)
  end.

(** The arm of [Close]. *)
Definition on_close (i : Inputs) (owner id : string) (reply : nat) (st : State) : State :=
  let foreign := match st_sessions st !! id with
                 | Some s => negb (String.eqb (se_owner s) owner)
                 | None => false
                 end in
  if foreign then send reply (RClose (Err SessionExpired)) st
  else send reply (RClose (Ok ())) (reap (in_reap2 i) (set_sessions (delete id (st_sessions st)) st)).

(** The arm of [Done]. *)
Definition on_done (i : Inputs) (file : string) (outcome : result (Work * result LogPage LogError) LogError)
    (reply : option nat) (st : State) : option State :=
  match st_slots st !! file with
  | None => Some (reap (in_reap2 i) st)
  | Some slot =>
      match outcome with
      | Ok (work, Err error) =>
          Some (send_opt reply (RQuery (Err error))
                  (set_slots (<[file := mkSlot (Some work) None (sl_page slot) (sl_idle slot)]> (st_slots st)) st))
      | Ok (work, Ok page) =>
          let kept := mkPage [] (pg_cursor page) (pg_head page) (pg_start page) (pg_file page) (pg_building page)
                        (pg_more page) (pg_partial page) (pg_malformed page) (pg_truncated page)
                        (pg_indexed_bytes page) (pg_file_bytes page) in
          let st := send_opt reply (RQuery (Ok page))
                      (set_slots (<[file := mkSlot (Some work) None kept (sl_idle slot)]> (st_slots st)) st) in
          st ← (if pg_building page && in_use file (st_sessions st)
                then launch file (default_query "") None st else Some st);
          Some (reap (in_reap2 i) st)
      | Err error =>
          Some (reap (in_reap2 i)
                  (send_opt reply (RQuery (Err error))
                     (set_slots (<[file := mkSlot (Some (work_new (in_generation i))) None empty_page (sl_idle slot)]>
                                   (st_slots st)) st)))
      end
  end.

(** [LogsActor::handle]. *)
Definition handle (i : Inputs) (m : Message) (st : State) : option State :=
  let st := reap (in_reap i) st in
  st ← match m with
       | Open owner request reply => on_open i owner request reply st
       | Query owner request reply => on_query i owner request reply st
       | Close owner id reply => Some (on_close i owner id reply st)
       | Done file outcome reply => on_done i file outcome reply st
       | Tick => Some st
       end;
  Some (schedule (in_schedule i) st).

(** [post_stop]: the tasks are waited for, and their answers are dropped. *)
Definition post_stop (st : State) : State := mkState ∅ ∅ None (st_replies st).

(** What [LogsClient] refuses before the actor is asked. *)
Definition open_refused (owner : string) (request : OpenLogs) (catalog : result (list LogFileInfo) LogError) :
    option LogError :=
  if String.eqb owner "" || (128 <? String.length owner)%nat
     || String.eqb (ol_request_id request) "" || (128 <? String.length (ol_request_id request))%nat
  then Some InvalidRequest
  else match ol_file request with
       | None => None
       | Some file =>
           match catalog with
           | Err e => Some e
           | Ok files => if existsb (λ f, String.eqb (fi_id f) file) files then None else Some FileGone
           end
       end.
Definition query_refused (request : QueryLogs) : bool :=
  negb (filter_valid (ql_filter request)) || (ql_limit request =? 0)%Z || (MAX_PAGE <? ql_limit request)%Z.
End actor.
