(* ===== verification/LogSessionProps.v ===== *)
(** What the session actor guarantees, over every sequence of requests, ticks
    and finished refreshes: its limits, that it never panics, that every request
    is answered once, that a lease is honoured, and that nothing idle is kept. *)
From stdpp Require Import base gmap strings list sets fin_maps.
From S2P Require Import Prelude Text Metadata Health Capability LogIndex LogIndexProps LogScan LogPage LogPageProps LogSession.
From Stdlib Require Import ZArith Lia.

Section actor.
Context {LC : LineCodec} {IN : Interner} {RT : RowText}.
Context {W : Type} {LF : LogFiles W}.

(** * The actor and its tasks *)

(** The port of a request. *)
Definition port_of (m : Message) : option nat :=
  match m with Open _ _ p | Query _ _ p | Close _ _ p => Some p | Done _ _ _ | Tick => None end.

(** What the task of a slot sends when its refresh returned or panicked. *)
Definition outcome_of (r : option (Work * result LogPage LogError)) : result (Work * result LogPage LogError) LogError :=
  match r with Some x => Ok x | None => Err Unavailable end.

Record Sys := mkSys { sy_state : State; sy_world : W; sy_ports : list nat }.

(** A request or a tick is handled, a task ends and its message is handled, or
    the files change. *)
Inductive astep : Sys → Sys → Prop :=
| a_request i m p st st' w ports :
    port_of m = Some p → handle i m st = Some st' → astep (mkSys st w ports) (mkSys st' w (p :: ports))
| a_tick i st st' w ports :
    handle i Tick st = Some st' → astep (mkSys st w ports) (mkSys st' w ports)
| a_done i file slot t generation r st st' w w' ports :
    st_slots st !! file = Some slot → sl_task slot = Some t →
    refresh file generation (ta_query t) (ta_work t) w = (r, w') →
    handle i (Done file (outcome_of r) (ta_reply t)) st = Some st' →
    astep (mkSys st w ports) (mkSys st' w' ports)
| a_files st w w' ports : astep (mkSys st w ports) (mkSys st w' ports).

Definition areachable (sy : Sys) : Prop := ∃ w, rtc astep (mkSys state_new w []) sy.

(** * The invariant *)

(** The ports of running refreshes. *)
Definition slot_port (sl : Slot) : option nat := t ← sl_task sl; ta_reply t.
Definition slot_ports (m : gmap string Slot) : gmap string nat := omap slot_port m.
Definition waiting (st : State) : list nat := (map_to_list (slot_ports (st_slots st))).*2.
Definition answered (st : State) : list nat := (st_replies st).*1.

(** A slot has its work, or a task that holds it. *)
Definition slot_ok (sl : Slot) : Prop := sl_work sl = None ↔ is_Some (sl_task sl).

Record actor_ok (st : State) : Prop := {
  ao_sessions : (size (st_sessions st) ≤ MAX_SESSIONS)%nat;
  ao_slots : (size (st_slots st) ≤ MAX_SLOTS)%nat;
  ao_slot : map_Forall (λ _ s, is_Some (st_slots st !! se_file s)) (st_sessions st);
  ao_work : map_Forall (λ _ sl, slot_ok sl) (st_slots st);
  ao_unique id id' s s' :
    st_sessions st !! id = Some s → st_sessions st !! id' = Some s' →
    se_owner s = se_owner s' → se_request s = se_request s' → id = id';
}.

Definition accounts (st : State) (ports : list nat) : Prop := answered st ++ waiting st ≡ₚ ports.

Lemma state_new_ok : actor_ok state_new ∧ accounts state_new [].
Proof.
  split; [split; cbn|].
  - rewrite map_size_empty. lia.
  - rewrite map_size_empty. lia.
  - apply map_Forall_empty.
  - apply map_Forall_empty.
  - intros id id' s s' H. by rewrite lookup_empty in H.
  - unfold accounts, waiting, slot_ports. cbn. by rewrite omap_empty, map_to_list_empty.
Qed.

(** ** Reaping *)
Lemma map_size_imap {A B} (f : string → A → option B) (m : gmap string A) : (size (map_imap f m) ≤ size m)%nat.
Proof. rewrite <- !size_dom. apply subseteq_size, dom_imap_subseteq. Qed.

Lemma in_use_true file sessions :
  in_use file sessions = true ↔ ∃ id s, sessions !! id = Some s ∧ se_file s = file.
Proof. unfold in_use. rewrite bool_decide_eq_true. by apply map_Exists_lookup. Qed.

(** What [reap] makes of a slot. *)
Definition reap_mark (now : Z) (st : State) (file : string) (slot : Slot) : Slot :=
  mkSlot (sl_work slot) (sl_task slot) (sl_page slot)
    (if in_use file (st_sessions (reap now st)) then None
     else match sl_idle slot with
          | None => Some (default now (expired_at now file (st_sessions st)))
          | at_ => at_
          end).

Lemma reap_session now st id s :
  st_sessions (reap now st) !! id = Some s ↔ st_sessions st !! id = Some s ∧ (now < se_expires s)%Z.
Proof. cbn. by rewrite map_lookup_filter_Some. Qed.

Lemma reap_slot now st file sl :
  st_slots (reap now st) !! file = Some sl ↔
  ∃ sl0, st_slots st !! file = Some sl0 ∧ sl = reap_mark now st file sl0 ∧ slot_kept now sl = true.
Proof.
  cbn. rewrite map_lookup_filter_Some, map_lookup_imap. cbn.
  destruct (st_slots st !! file) as [sl0|]; cbn; naive_solver.
Qed.

Lemma reap_ports now st : slot_ports (st_slots (reap now st)) = slot_ports (st_slots st).
Proof.
  apply map_eq. intros file. unfold slot_ports. rewrite !lookup_omap.
  destruct (st_slots (reap now st) !! file) as [sl|] eqn:E.
  - apply reap_slot in E as (sl0 & -> & -> & _). done.
  - destruct (st_slots st !! file) as [sl0|] eqn:E0; [|done]. cbn. unfold slot_port.
    destruct (sl_task sl0) as [t|] eqn:Et; [|done]. exfalso.
    assert (st_slots (reap now st) !! file = Some (reap_mark now st file sl0)) as H; [|congruence].
    apply reap_slot. exists sl0. split_and!; [done..|]. unfold slot_kept. cbn. by rewrite Et.
Qed.

Lemma reap_ok now st : actor_ok st → actor_ok (reap now st).
Proof.
  intros [Hse Hsl Hslot Hwork Huniq]. split.
  - etrans; [apply map_size_filter|done].
  - cbn. etrans; [apply map_size_filter|]. by etrans; [apply map_size_imap|].
  - intros id s Hs. apply reap_session in Hs as Hs'. destruct Hs' as [Hs0 _].
    destruct (Hslot id s Hs0) as [sl Hsl0]. exists (reap_mark now st (se_file s) sl).
    apply reap_slot. exists sl. split_and!; [done..|]. unfold slot_kept, reap_mark.
    replace (in_use (se_file s) (st_sessions (reap now st))) with true; [by rewrite orb_true_r|].
    symmetry. apply in_use_true. eauto.
  - intros file sl (sl0 & H0 & -> & _)%reap_slot. exact (Hwork file sl0 H0).
  - intros id id' s s' [H _]%reap_session [H' _]%reap_session. by apply Huniq.
Qed.

(** ** The invariant through the handlers *)

Record inv (st : State) (ports : list nat) : Prop := {
  iv_ok : actor_ok st;
  iv_accounts : accounts st ports;
}.

Definition port_list (p : option nat) : list nat := if p is Some p then [p] else [].

Lemma reap_inv now st ports : inv st ports → inv (reap now st) ports.
Proof.
  intros [Hok Hacc]. split; [by apply reap_ok|]. unfold accounts, waiting in *. by rewrite reap_ports.
Qed.

Lemma schedule_inv now st ports : inv st ports → inv (schedule now st) ports.
Proof. by intros [[] ?]. Qed.

Lemma send_inv p r st ports : inv st ports → inv (send p r st) (p :: ports).
Proof.
  intros [[] Hacc]. split; [by split|]. unfold accounts, answered in *. cbn.
  rewrite fmap_app. cbn. rewrite <- Hacc. by rewrite <- app_assoc, Permutation_middle.
Qed.

Lemma send_opt_inv p r st ports : inv st ports → inv (send_opt p r st) (port_list p ++ ports).
Proof. destruct p; [apply send_inv|done]. Qed.

(** Renewing the lease of a session. *)
Lemma renew_inv id s s' st ports :
  st_sessions st !! id = Some s →
  se_owner s' = se_owner s → se_request s' = se_request s → se_file s' = se_file s →
  inv st ports → inv (set_sessions (<[id := s']> (st_sessions st)) st) ports.
Proof.
  intros Hs Ho Hr Hf [[Hse Hsl Hslot Hwork Huniq] Hacc]. split; [split; cbn|done].
  - by rewrite map_size_insert_Some.
  - done.
  - intros id' s'' [[<- <-]|[_ H]]%lookup_insert_Some; [rewrite Hf|]; by eapply Hslot.
  - done.
  - intros i i' a b Ha Hb Hao Har.
    assert (∀ j c, <[id:=s']> (st_sessions st) !! j = Some c →
      ∃ c0, st_sessions st !! j = Some c0 ∧ se_owner c0 = se_owner c ∧ se_request c0 = se_request c) as Hold.
    { intros j c [[<- <-]|[_ H]]%lookup_insert_Some; [by exists s|by exists c]. }
    destruct (Hold i a Ha) as (a0 & Ha0 & Hoa & Hra), (Hold i' b Hb) as (b0 & Hb0 & Ho0 & Hr0).
    apply (Huniq i i' a0 b0); congruence.
Qed.

(** Replacing a slot. *)
Lemma slot_inv file sl sl' st ports port :
  st_slots st !! file = Some sl → slot_ok sl' →
  match slot_port sl, slot_port sl' with
  | None, Some p => ports = p :: port
  | Some p, None => port ≡ₚ p :: ports
  | None, None => ports = port
  | Some p, Some p' => False
  end →
  inv st port → actor_ok (set_slots (<[file := sl']> (st_slots st)) st)
    ∧ answered st ++ waiting (set_slots (<[file := sl']> (st_slots st)) st) ≡ₚ ports.
Proof.
  intros Hsl Hok' Hports [[Hse Hslots Hslot Hwork Huniq] Hacc]. split; [split; cbn; try done|].
  - by rewrite map_size_insert_Some.
  - intros id s Hs. destruct (decide (se_file s = file)) as [->|Hne].
    + rewrite lookup_insert_eq. eauto.
    + rewrite lookup_insert_ne by done. by eapply Hslot.
  - by apply map_Forall_insert_2.
  - unfold accounts, waiting in *. cbn. unfold slot_ports in *.
    assert (Hp : omap slot_port (st_slots st) !! file = slot_port sl) by (by rewrite lookup_omap, Hsl).
    destruct (slot_port sl') as [p'|] eqn:E'.
    + rewrite (omap_insert_Some _ _ _ _ p') by done. destruct (slot_port sl) as [p|]; [done|].
      rewrite map_to_list_insert by done. cbn. rewrite <- Permutation_middle, Hacc. by rewrite Hports.
    + rewrite omap_insert_None by done. destruct (slot_port sl) as [p|].
      * rewrite <- (map_to_list_delete _ _ _ Hp) in Hacc. cbn in Hacc. rewrite <- Permutation_middle in Hacc.
        rewrite Hports in Hacc. by apply Permutation_cons_inv in Hacc.
      * rewrite delete_id by done. by rewrite Hports.
Qed.

Lemma launch_inv file query reply st ports :
  inv st ports → is_Some (st_slots st !! file) →
  ∃ st', launch file query reply st = Some st' ∧ inv st' (port_list reply ++ ports).
Proof.
  intros Hinv [sl Hsl]. unfold launch. rewrite Hsl. cbn [mbind option_bind]. eexists; split; [reflexivity|].
  destruct (sl_work sl) as [work|] eqn:Ew; [|by apply send_opt_inv].
  assert (Ht : sl_task sl = None).
  { pose proof (ao_work _ (iv_ok _ _ Hinv) file sl Hsl) as Hok. unfold slot_ok in Hok.
    destruct (sl_task sl) eqn:E; [|done]. rewrite Ew in Hok. destruct Hok as [_ Hok]. discriminate Hok. eauto. }
  destruct (slot_inv file sl (mkSlot None (Some (mkTask work query reply)) (sl_page sl) (sl_idle sl))
              st (port_list reply ++ ports) ports Hsl) as [Hok Hacc].
  - split; [eauto|done].
  - unfold slot_port. rewrite Ht. cbn. by destruct reply.
  - done.
  - by split.
Qed.

(** A session enters with its slot. *)
Lemma session_admit_inv id s sl st ports :
  inv st ports →
  (size (st_sessions st) < MAX_SESSIONS)%nat →
  (st_slots st !! se_file s = None → (size (st_slots st) < MAX_SLOTS)%nat) →
  (∀ id' s', st_sessions st !! id' = Some s' → ¬ (se_owner s' = se_owner s ∧ se_request s' = se_request s)) →
  match st_slots st !! se_file s with
  | Some sl0 => sl_work sl = sl_work sl0 ∧ sl_task sl = sl_task sl0
  | None => is_Some (sl_work sl) ∧ sl_task sl = None
  end →
  inv (set_slots (<[se_file s := sl]> (st_slots st)) (set_sessions (<[id := s]> (st_sessions st)) st)) ports.
Proof.
  intros [[Hse Hsl Hslot Hwork Huniq] Hacc] Hn Hm Hnew Hsame. split; [split; cbn|].
  - rewrite map_size_insert. destruct (st_sessions st !! id); [exact Hse|lia].
  - rewrite map_size_insert.
    destruct (st_slots st !! se_file s); [done|]. specialize (Hm eq_refl). lia.
  - intros id' s' Hs'. destruct (decide (se_file s' = se_file s)) as [->|Hne]; [rewrite lookup_insert_eq; eauto|].
    rewrite lookup_insert_ne by done. apply lookup_insert_Some in Hs' as [[_ <-]|[_ Hs']]; [done|]. by eapply Hslot.
  - apply map_Forall_insert_2; [|done]. unfold slot_ok. destruct (st_slots st !! se_file s) as [sl0|] eqn:E.
    + destruct Hsame as [-> ->]. exact (Hwork _ _ E).
    + destruct Hsame as [[w ->] ->]. split; [done|]. by intros [].
  - intros i i' a b [[<- <-]|[_ Ha]]%lookup_insert_Some [[<- <-]|[_ Hb]]%lookup_insert_Some Ho Hr.
    + done.
    + destruct (Hnew i' b Hb). done.
    + destruct (Hnew i a Ha). done.
    + by eapply Huniq.
  - unfold accounts, waiting, answered in *. cbn. rewrite <- Hacc. f_equiv. do 2 f_equiv.
    apply map_eq. intros f. unfold slot_ports. rewrite !lookup_omap.
    destruct (decide (f = se_file s)) as [->|Hne]; [|by rewrite lookup_insert_ne].
    rewrite lookup_insert_eq. destruct (st_slots st !! se_file s) as [sl0|]; cbn; unfold slot_port.
    + by destruct Hsame as [_ ->].
    + by destruct Hsame as [_ ->].
Qed.

Lemma on_open_inv i owner request reply st ports :
  inv st ports → ∃ st', on_open i owner request reply st = Some st' ∧ inv st' (reply :: ports).
Proof.
  intros Hinv. unfold on_open. set (file := default "" (ol_file request)).
  set (same := λ p : string * Session, _).
  destruct (map_to_list (filter same (st_sessions st))) as [|[id s] l] eqn:El.
  - assert (Hnew : ∀ id s, st_sessions st !! id = Some s → ¬ (se_owner s = owner ∧ se_request s = ol_request_id request)).
    { apply map_to_list_empty_iff in El. intros id s Hs Hsame.
      assert (filter same (st_sessions st) !! id = Some s) as Hf by (by apply map_lookup_filter_Some).
      rewrite El in Hf. by rewrite lookup_empty in Hf. }
    destruct (_ || _) eqn:Elim; [eexists; split; [reflexivity|]; by apply send_inv|].
    apply orb_false_iff in Elim as [Hn%Nat.leb_gt Hm].
    set (sl := match st_slots st !! file with Some _ => _ | None => _ end).
    set (s := mkSession owner (ol_request_id request) file (in_now i + LEASE)).
    assert (Hadm : inv (set_slots (<[file := sl]> (st_slots st))
                          (set_sessions (<[in_session i := s]> (st_sessions st)) st)) ports).
    { apply (session_admit_inv (in_session i) s sl); [done|done| |done|].
      - cbn. intros Hnone. rewrite Hnone in Hm. cbn [negb bool_decide andb] in Hm. rewrite bool_decide_eq_false_2 in Hm by (by intros []). by apply Nat.leb_gt in Hm.
      - cbn. unfold sl. destruct (st_slots st !! file); cbn; eauto. }
    apply (send_inv reply (ROpen (Ok (mkLogSession (in_session i) LEASE)))) in Hadm.
    destruct (sl_task sl) as [t|]; [eexists; split; [reflexivity|exact Hadm]|].
    apply (launch_inv file (default_query (in_session i)) None _ _ Hadm). cbn. rewrite lookup_insert_eq. eauto.
  - eexists; split; [reflexivity|]. destruct (negb _) eqn:Ef; [by apply send_inv|].
    apply send_inv. assert (filter same (st_sessions st) !! id = Some s) as [Hs _]%map_lookup_filter_Some.
    { apply elem_of_map_to_list. rewrite El. by left. }
    by eapply renew_inv.
Qed.

Lemma on_query_inv i owner request reply st ports :
  inv st ports → ∃ st', on_query i owner request reply st = Some st' ∧ inv st' (reply :: ports).
Proof.
  intros Hinv. unfold on_query. destruct (st_sessions st !! ql_session request) as [s|] eqn:Es;
    [|eexists; split; [reflexivity|by apply send_inv]].
  destruct (String.eqb _ _); [|eexists; split; [reflexivity|by apply send_inv]].
  apply (launch_inv _ _ (Some reply)); [by eapply renew_inv|].
  cbn. exact (ao_slot _ (iv_ok _ _ Hinv) _ _ Es).
Qed.

Lemma on_close_inv i owner id reply st ports : inv st ports → inv (on_close i owner id reply st) (reply :: ports).
Proof.
  intros Hinv. unfold on_close. destruct (match st_sessions st !! id with Some _ => _ | None => _ end);
    [by apply send_inv|]. apply send_inv, reap_inv.
  destruct Hinv as [[Hse Hsl Hslot Hwork Huniq] Hacc]. split; [split; cbn; try done|done].
  - rewrite map_size_delete. destruct (st_sessions st !! id); cbn; lia.
  - by apply map_Forall_delete.
  - intros a b c d [_ Ha]%lookup_delete_Some [_ Hb]%lookup_delete_Some. by apply Huniq.
Qed.

(** The end of a refresh puts the work back and answers its port. *)
Lemma done_slot_inv file slot t sl' r st ports :
  st_slots st !! file = Some slot → sl_task slot = Some t → sl_task sl' = None → is_Some (sl_work sl') →
  inv st ports →
  inv (send_opt (ta_reply t) r (set_slots (<[file := sl']> (st_slots st)) st)) ports.
Proof.
  intros Hsl Ht Ht' [w' Hw'] Hinv.
  assert (Hok' : slot_ok sl') by (split; rewrite ?Ht', ?Hw'; [done|by intros []]).
  assert (Hport : slot_port slot = ta_reply t) by (unfold slot_port; by rewrite Ht).
  assert (Hport' : slot_port sl' = None) by (unfold slot_port; by rewrite Ht').
  destruct (ta_reply t) as [p|] eqn:Er; cbn.
  - assert (∃ rest, ports ≡ₚ p :: rest) as [rest Hrest].
    { destruct Hinv as [_ Hacc]. unfold accounts, waiting, slot_ports in Hacc.
      assert (Hp : omap slot_port (st_slots st) !! file = Some p) by (rewrite lookup_omap, Hsl; exact Hport).
      rewrite <- (map_to_list_delete _ _ _ Hp) in Hacc. cbn in Hacc. rewrite <- Permutation_middle in Hacc.
      eexists. symmetry. exact Hacc. }
    destruct (slot_inv file slot sl' st rest ports Hsl Hok') as [Hok Hacc]; [by rewrite Hport, Hport'|done|].
    destruct (send_inv p r (set_slots (<[file := sl']> (st_slots st)) st) rest) as [H1 H2]; [by split|].
    split; [done|]. unfold accounts in *. by rewrite Hrest.
  - destruct (slot_inv file slot sl' st ports ports Hsl Hok') as [Hok Hacc]; [by rewrite Hport, Hport'|done|]. by split.
Qed.

Lemma on_done_inv i file slot t outcome st ports :
  st_slots st !! file = Some slot → sl_task slot = Some t → inv st ports →
  ∃ st', on_done i file outcome (ta_reply t) st = Some st' ∧ inv st' ports.
Proof.
  intros Hsl Ht Hinv. unfold on_done. rewrite Hsl. destruct outcome as [[work [page|e]]|e].
  - set (sl' := mkSlot _ _ _ _).
    assert (Hd := done_slot_inv file slot t sl' (RQuery (Ok page)) st ports Hsl Ht eq_refl ltac:(by eexists) Hinv).
    destruct (_ && _) eqn:Eb; cbn [mbind option_bind].
    + destruct (launch_inv file (default_query "") None _ _ Hd) as (st' & -> & Hinv').
      { destruct (ta_reply t); cbn; rewrite lookup_insert_eq; eauto. }
      eexists; split; [reflexivity|]. by apply reap_inv.
    + eexists; split; [reflexivity|]. by apply reap_inv.
  - eexists; split; [reflexivity|]. by eapply done_slot_inv.
  - eexists; split; [reflexivity|]. apply reap_inv. by eapply done_slot_inv.
Qed.

(** A message the actor can receive: a request, a tick, or the end of the
    refresh that runs in a slot. *)
Definition receivable (st : State) (m : Message) : Prop :=
  match m with
  | Done file _ reply => ∃ slot t, st_slots st !! file = Some slot ∧ sl_task slot = Some t ∧ reply = ta_reply t
  | _ => True
  end.

(** Reaping leaves running refreshes alone. *)
Lemma reap_task now st file slot t :
  st_slots st !! file = Some slot → sl_task slot = Some t →
  ∃ slot', st_slots (reap now st) !! file = Some slot' ∧ sl_task slot' = Some t.
Proof.
  intros Hsl Ht. exists (reap_mark now st file slot). split; [|done]. apply reap_slot. exists slot.
  split_and!; [done..|]. unfold slot_kept. cbn. by rewrite Ht.
Qed.

Lemma handle_inv i m st ports :
  inv st ports → receivable st m →
  ∃ st', handle i m st = Some st' ∧ inv st' (port_list (port_of m) ++ ports).
Proof.
  intros Hinv Hm. pose proof (reap_inv (in_reap i) st ports Hinv) as Hr. unfold handle.
  assert (∃ st', match m with
    | Open owner request reply => on_open i owner request reply (reap (in_reap i) st)
    | Query owner request reply => on_query i owner request reply (reap (in_reap i) st)
    | Close owner id reply => Some (on_close i owner id reply (reap (in_reap i) st))
    | Done file outcome reply => on_done i file outcome reply (reap (in_reap i) st)
    | Tick => Some (reap (in_reap i) st)
    end = Some st' ∧ inv st' (port_list (port_of m) ++ ports)) as (st' & -> & Hinv').
  { destruct m as [owner request reply|owner request reply|owner id reply|file outcome reply|].
    - by apply on_open_inv.
    - by apply on_query_inv.
    - eexists; split; [reflexivity|]. by apply on_close_inv.
    - destruct Hm as (slot & t & Hsl & Ht & ->). destruct (reap_task (in_reap i) st file slot t Hsl Ht) as (slot' & Hsl' & Ht').
      by eapply on_done_inv.
    - by eexists. }
  cbn [mbind option_bind]. eexists; split; [reflexivity|]. by apply schedule_inv.
Qed.

Lemma actor_reachable_inv sy : areachable sy → inv (sy_state sy) (sy_ports sy).
Proof.
  intros [w Hs]. assert (H0 : inv (sy_state (mkSys state_new w [])) (sy_ports (mkSys state_new w []))).
  { destruct state_new_ok. by split. }
  induction Hs as [|x y z Hstep _ IH]; [done|]. apply IH. clear IH.
  destruct Hstep as [i m p st st' w0 ports Hp Hh|i st st' w0 ports Hh|i file slot t g r st st' w0 w1 ports Hsl Ht Hr Hh|st w0 w1 ports];
    cbn [sy_state sy_ports] in *.
  - destruct (handle_inv i m st ports H0) as (st1 & Hh1 & Hinv); [destruct m; cbn in Hp |- *; done|].
    rewrite Hp in Hinv. by simplify_eq.
  - destruct (handle_inv i Tick st ports H0) as (st1 & Hh1 & Hinv); [done|]. by simplify_eq.
  - destruct (handle_inv i (Done file (outcome_of r) (ta_reply t)) st ports H0) as (st1 & Hh1 & Hinv);
      [by exists slot, t|]. by simplify_eq.
  - done.
Qed.

(** C22: the session actor keeps its limits and its books: at most sixteen
    sessions and four indexed files, every session has a slot, every slot has
    its index or a refresh that holds it, no request has two sessions; and no
    message makes it panic. *)
Theorem sessions_stay_consistent (sy : Sys) (Hsy : areachable sy) :
  actor_ok (sy_state sy)
  ∧ ∀ i m, receivable (sy_state sy) m → is_Some (handle i m (sy_state sy)).
Proof.
  pose proof (actor_reachable_inv _ Hsy) as Hinv. split; [apply Hinv|]. intros i m Hm.
  destruct (handle_inv i m _ _ Hinv Hm) as (st' & -> & _). eauto.
Qed.


(** ** Leases *)
Lemma launch_sessions file q reply st st' : launch file q reply st = Some st' → st_sessions st' = st_sessions st.
Proof.
  unfold launch. destruct (st_slots st !! file) as [sl|]; cbn; [|done]. intros [= <-].
  by destruct (sl_work sl), reply.
Qed.

Lemma send_opt_sessions p r st : st_sessions (send_opt p r st) = st_sessions st.
Proof. by destruct p. Qed.

(** The same session, perhaps with a renewed lease. *)
Definition lives (now : Z) (s : Session) (o : option Session) : Prop :=
  ∃ s', o = Some s' ∧ se_owner s' = se_owner s ∧ se_request s' = se_request s ∧ se_file s' = se_file s
    ∧ (se_expires s' = se_expires s ∨ se_expires s' = now + LEASE)%Z.

Lemma lives_same now s : lives now s (Some s).
Proof. exists s. naive_solver. Qed.

Lemma on_open_lives i owner request reply st st' id s :
  on_open i owner request reply st = Some st' → in_session i ≠ id → st_sessions st !! id = Some s →
  lives (in_now i) s (st_sessions st' !! id).
Proof.
  intros Ho Hid Hs. unfold on_open in Ho.
  destruct (map_to_list (filter _ (st_sessions st))) as [|[id' s0] l] eqn:El.
  - destruct (_ || _); [simplify_eq; cbn; rewrite Hs; apply lives_same|].
    destruct (sl_task _); [simplify_eq|apply launch_sessions in Ho; rewrite Ho]; cbn;
      rewrite lookup_insert_ne, Hs by done; apply lives_same.
  - destruct (negb _); simplify_eq; cbn; [rewrite Hs; apply lives_same|].
    destruct (decide (id' = id)) as [->|Hne]; [|rewrite lookup_insert_ne, Hs by done; apply lives_same].
    assert ((id, s0) ∈ map_to_list (filter (λ p : string * Session, se_owner p.2 = owner ∧ se_request p.2 = ol_request_id request)
      (st_sessions st))) as [Hs0 _]%elem_of_map_to_list%map_lookup_filter_Some by (rewrite El; by left).
    rewrite lookup_insert_eq. eexists; split; [done|]. cbn. simplify_eq. naive_solver.
Qed.

Lemma on_query_lives i owner request reply st st' id s :
  on_query i owner request reply st = Some st' → st_sessions st !! id = Some s →
  lives (in_now i) s (st_sessions st' !! id).
Proof.
  intros Hq Hs. unfold on_query in Hq.
  destruct (st_sessions st !! ql_session request) as [s0|] eqn:E0; [|simplify_eq; cbn; rewrite Hs; apply lives_same].
  destruct (String.eqb _ _); [|simplify_eq; cbn; rewrite Hs; apply lives_same].
  apply launch_sessions in Hq. rewrite Hq. cbn. destruct (decide (ql_session request = id)) as [<-|Hne].
  - rewrite lookup_insert_eq. simplify_eq. eexists; split; [done|]. naive_solver.
  - rewrite lookup_insert_ne, Hs by done. apply lives_same.
Qed.

(** [on_done] changes the sessions as [reap] does, or not at all. *)
Lemma on_done_session i file outcome reply st st' id s :
  on_done i file outcome reply st = Some st' → st_sessions st !! id = Some s → (in_reap2 i < se_expires s)%Z →
  st_sessions st' !! id = Some s.
Proof.
  intros Hd Hs Ht. unfold on_done in Hd.
  assert (Hreap : ∀ st0 : State, st_sessions st0 = st_sessions st → st_sessions (reap (in_reap2 i) st0) !! id = Some s).
  { intros st0 E. apply reap_session. by rewrite E. }
  destruct (st_slots st !! file) as [sl|]; [|simplify_eq; by apply Hreap].
  destruct outcome as [[work [page|e]]|e].
  - destruct (_ && _); cbn [mbind option_bind] in Hd.
    + destruct (launch _ _ _ _) as [st1|] eqn:El; cbn [mbind option_bind] in Hd; [|done]. simplify_eq.
      apply Hreap. apply launch_sessions in El. by rewrite El, send_opt_sessions.
    + simplify_eq. apply Hreap. by rewrite send_opt_sessions.
  - simplify_eq. by rewrite send_opt_sessions.
  - simplify_eq. apply Hreap. by rewrite send_opt_sessions.
Qed.

(** No handler brings a session back: it is one that was there, or the one it
    opens. *)
Lemma handle_no_ghost i m st st' id :
  handle i m st = Some st' → in_session i ≠ id → st_sessions (reap (in_reap i) st) !! id = None →
  st_sessions st' !! id = None.
Proof.
  unfold handle. set (r := reap (in_reap i) st). intros Hh Hid Hnone.
  assert (Hreap : ∀ now (st0 : State), st_sessions st0 !! id = None → st_sessions (reap now st0) !! id = None).
  { intros now st0 H0. apply eq_None_not_Some. intros [x [Hx _]%reap_session]. congruence. }
  destruct m as [owner request reply|owner request reply|owner sid reply|file outcome reply|]; cbn [mbind option_bind] in Hh.
  - destruct (on_open _ _ _ _ _) as [st1|] eqn:E; cbn in Hh; [|done]. simplify_eq. cbn. unfold on_open in E.
    destruct (map_to_list _) as [|[id' s0] l] eqn:El.
    + destruct (_ || _); [by simplify_eq|]. destruct (sl_task _); [simplify_eq|apply launch_sessions in E; rewrite E]; cbn;
        by rewrite lookup_insert_ne.
    + destruct (negb _); simplify_eq; [done|]. cbn. rewrite lookup_insert_ne; [done|]. intros ->.
      assert ((id, s0) ∈ map_to_list (filter (λ p : string * Session, se_owner p.2 = owner ∧ se_request p.2 = ol_request_id request)
        (st_sessions r))) as [Hs0 _]%elem_of_map_to_list%map_lookup_filter_Some by (rewrite El; by left). congruence.
  - destruct (on_query _ _ _ _ _) as [st1|] eqn:E; cbn in Hh; [|done]. simplify_eq. cbn. unfold on_query in E.
    destruct (st_sessions r !! ql_session request) as [s0|] eqn:E0; [|by simplify_eq].
    destruct (String.eqb _ _); [|by simplify_eq]. apply launch_sessions in E. rewrite E. cbn.
    rewrite lookup_insert_ne; [done|]. intros <-. congruence.
  - simplify_eq. cbn. unfold on_close. destruct (match st_sessions r !! sid with Some _ => _ | None => _ end); [done|].
    cbn [send st_sessions]. apply Hreap. cbn. by apply lookup_delete_None; right.
  - destruct (on_done _ _ _ _ _) as [st1|] eqn:E; cbn in Hh; [|done]. simplify_eq. cbn. unfold on_done in E.
    destruct (st_slots r !! file) as [sl|]; [|simplify_eq; by apply Hreap].
    destruct outcome as [[work [page|e]]|e].
    + destruct (_ && _); cbn [mbind option_bind] in E.
      * destruct (launch _ _ _ _) as [st2|] eqn:El; cbn [mbind option_bind] in E; [|done]. simplify_eq.
        apply Hreap. apply launch_sessions in El. by rewrite El, send_opt_sessions.
      * simplify_eq. apply Hreap. by rewrite send_opt_sessions.
    + simplify_eq. by rewrite send_opt_sessions.
    + simplify_eq. apply Hreap. by rewrite send_opt_sessions.
  - by simplify_eq.
Qed.

(** a lease is honoured: until the clock reaches its end a session survives
    every message but its owner's own close, keeping its owner, request and
    file; once the clock has reached its end the next message finds it gone, and
    nothing brings it back. *)
Theorem lease_is_honoured (i : Inputs) (m : Message) (st st' : State) (id : string) (s : Session)
    (Hs : st_sessions st !! id = Some s) (Hh : handle i m st = Some st') (Hid : in_session i ≠ id) :
  ((in_reap i < se_expires s)%Z → (in_reap2 i < se_expires s)%Z → (∀ p, m ≠ Close (se_owner s) id p) →
     lives (in_now i) s (st_sessions st' !! id))
  ∧ ((se_expires s ≤ in_reap i)%Z → st_sessions st' !! id = None).
Proof.
  split.
  - intros Ht Ht2 Hm. assert (Hr : st_sessions (reap (in_reap i) st) !! id = Some s) by (by apply reap_session).
    unfold handle in Hh. destruct m as [owner request reply|owner request reply|owner sid reply|file outcome reply|];
      cbn [mbind option_bind] in Hh.
    + destruct (on_open _ _ _ _ _) as [st1|] eqn:E; cbn in Hh; [|done]. simplify_eq. cbn. by eapply on_open_lives.
    + destruct (on_query _ _ _ _ _) as [st1|] eqn:E; cbn in Hh; [|done]. simplify_eq. cbn. by eapply on_query_lives.
    + simplify_eq. cbn. unfold on_close.
      destruct (decide (sid = id)) as [->|Hne].
      * rewrite Hr. destruct (String.eqb_spec (se_owner s) owner) as [<-|_]; [by destruct (Hm reply)|].
        cbn [negb send st_sessions]. rewrite Hr. apply lives_same.
      * destruct (match st_sessions _ !! sid with Some _ => _ | None => _ end); cbn [send st_sessions].
        -- rewrite Hr. apply lives_same.
        -- rewrite (proj2 (reap_session _ _ id s)); [apply lives_same|]. cbn [set_sessions st_sessions].
           by rewrite lookup_delete_ne.
    + destruct (on_done _ _ _ _ _) as [st1|] eqn:E; cbn in Hh; [|done]. simplify_eq. cbn.
      rewrite (on_done_session _ _ _ _ _ _ _ _ E Hr Ht2). apply lives_same.
    + simplify_eq. cbn. change (lives (in_now i) s (st_sessions (reap (in_reap i) st) !! id)). rewrite Hr. apply lives_same.
  - intros Ht. eapply handle_no_ghost; [done..|]. apply eq_None_not_Some. intros [x [Hx Hlt]%reap_session].
    simplify_eq. lia.
Qed.

(** ** Idle slots *)

(** A slot no session uses knows since when. *)
Definition idle_ok (st : State) : Prop :=
  map_Forall (λ file sl, in_use file (st_sessions st) = false → is_Some (sl_idle sl)) (st_slots st).

Lemma reap_idle now st : idle_ok (reap now st).
Proof.
  intros file sl (sl0 & _ & -> & _)%reap_slot Hu. unfold reap_mark. cbn [sl_idle]. rewrite Hu.
  destruct (sl_idle sl0); eauto.
Qed.

Lemma send_opt_idle p r st : idle_ok st → idle_ok (send_opt p r st).
Proof. by destruct p. Qed.

(** Replacing a slot by one that is idle since the same time. *)
Lemma set_slot_idle file sl sl' st :
  st_slots st !! file = Some sl → sl_idle sl' = sl_idle sl → idle_ok st →
  idle_ok (set_slots (<[file := sl']> (st_slots st)) st).
Proof.
  intros Hsl Hi Hok. apply map_Forall_insert_2; [|done]. rewrite Hi. by apply (Hok file sl).
Qed.

Lemma launch_idle file q reply st st' : launch file q reply st = Some st' → idle_ok st → idle_ok st'.
Proof.
  unfold launch. destruct (st_slots st !! file) as [sl|] eqn:E; cbn; [|done]. intros [= <-] Hok.
  destruct (sl_work sl); [by apply (set_slot_idle file sl)|by apply send_opt_idle].
Qed.

(** More sessions use no less. *)
Lemma sessions_idle m st :
  (∀ file, in_use file (st_sessions st) = true → in_use file m = true) → idle_ok st → idle_ok (set_sessions m st).
Proof.
  intros Hm Hok file sl Hsl Hu. apply (Hok file sl Hsl).
  destruct (in_use file (st_sessions st)) eqn:E; [|done]. apply Hm in E. cbn in Hu. congruence.
Qed.

Lemma in_use_insert id s m file :
  (∀ s0, m !! id = Some s0 → se_file s0 = se_file s) → in_use file m = true → in_use file (<[id := s]> m) = true.
Proof.
  intros Hs (id' & s' & Hs' & <-)%in_use_true. apply in_use_true. destruct (decide (id = id')) as [->|Hne].
  - exists id', s. rewrite lookup_insert_eq. split; [done|]. symmetry. by apply Hs.
  - exists id', s'. by rewrite lookup_insert_ne.
Qed.

Lemma handle_idle i m st st' :
  handle i m st = Some st' → st_sessions st !! in_session i = None → idle_ok st'.
Proof.
  unfold handle. set (r := reap (in_reap i) st). intros Hh Hfresh.
  assert (Hr : idle_ok r) by apply reap_idle.
  assert (Hnew : st_sessions r !! in_session i = None).
  { apply eq_None_not_Some. intros [x [Hx _]%reap_session]. congruence. }
  enough (∀ st1, match m with
    | Open owner request reply => on_open i owner request reply r
    | Query owner request reply => on_query i owner request reply r
    | Close owner id reply => Some (on_close i owner id reply r)
    | Done file outcome reply => on_done i file outcome reply r
    | Tick => Some r
    end = Some st1 → idle_ok st1) as Harm.
  { destruct (match m with Tick => _ | _ => _ end) as [st1|] eqn:E; cbn in Hh; [|done]. simplify_eq.
    exact (Harm st1 eq_refl). }
  clear Hh. intros st1. destruct m as [owner request reply|owner request reply|owner sid reply|file outcome reply|].
  - unfold on_open. set (file := default "" (ol_file request)). destruct (map_to_list _) as [|[id s] l] eqn:El.
    + destruct (_ || _); [by intros [= <-]|].
      set (sl := match st_slots r !! file with Some _ => _ | None => _ end).
      set (s := mkSession owner (ol_request_id request) file _).
      assert (Hadm : idle_ok (set_slots (<[file := sl]> (st_slots r)) (set_sessions (<[in_session i := s]> (st_sessions r)) r))).
      { apply map_Forall_insert_2.
        - intros Hu. exfalso. change (in_use file (<[in_session i := s]> (st_sessions r)) = false) in Hu.
          assert (in_use file (<[in_session i := s]> (st_sessions r)) = true) as H; [|congruence].
          apply in_use_true. exists (in_session i), s. by rewrite lookup_insert_eq.
        - apply (sessions_idle (<[in_session i := s]> (st_sessions r)) r); [|done].
          intros f. apply in_use_insert. intros s0. by rewrite Hnew. }
      destruct (sl_task sl); [by intros [= <-]|]. intros Hl. by eapply launch_idle.
    + destruct (negb _) eqn:Ef; intros [= <-]; [done|]. apply sessions_idle; [|done]. intros f. apply in_use_insert.
      assert ((id, s) ∈ map_to_list (filter (λ p : string * Session, se_owner p.2 = owner ∧ se_request p.2 = ol_request_id request)
        (st_sessions r))) as [Hs0 _]%elem_of_map_to_list%map_lookup_filter_Some by (rewrite El; by left).
      intros s0 Hs1. change (st_sessions r !! id = Some s0) in Hs1. cbn. congruence.
  - unfold on_query. destruct (st_sessions r !! ql_session request) as [s|] eqn:Es; [|by intros [= <-]].
    destruct (String.eqb _ _); [|by intros [= <-]]. intros Hl. eapply launch_idle; [done|].
    apply sessions_idle; [|done]. intros f. apply in_use_insert. intros s0 Hs0. by simplify_eq.
  - intros [= <-]. unfold on_close. destruct (match st_sessions r !! sid with Some _ => _ | None => _ end); [done|].
    apply (reap_idle (in_reap2 i)).
  - unfold on_done. destruct (st_slots r !! file) as [sl|] eqn:Es; [|intros [= <-]; apply reap_idle].
    destruct outcome as [[work [page|e]]|e].
    + destruct (_ && _); cbn [mbind option_bind].
      * destruct (launch _ _ _ _); cbn; [|done]. intros [= <-]. apply reap_idle.
      * intros [= <-]. apply reap_idle.
    + intros [= <-]. apply send_opt_idle. by eapply set_slot_idle.
    + intros [= <-]. apply reap_idle.
  - by intros [= <-].
Qed.

Lemma list_min_le l x : x ∈ l → ∃ m, list_min l = Some m ∧ (m ≤ x)%Z.
Proof.
  induction l as [|y l IH]; [by intros ?%elem_of_nil|]. cbn. intros [->|H]%elem_of_cons.
  - destruct (list_min l); eexists; (split; [done|lia]).
  - destruct (IH H) as (m & -> & Hm). eexists; split; [done|]. lia.
Qed.

(** nothing idle is kept: after every message the actor is set to wake up no
    later than the next deadline (a millisecond from now at the latest when it
    has passed), every file no session uses and no refresh reads has such a
    deadline, and the tick that comes after it releases the file. *)
Theorem idle_slots_are_released (i : Inputs) (m : Message) (st st' : State)
    (Hh : handle i m st = Some st') (Hfresh : st_sessions st !! in_session i = None) :
  (∀ d, d ∈ deadlines st' → ∃ t, st_timer st' = Some t ∧ t ≤ Z.max d (in_schedule i + 1))%Z
  ∧ (∀ file sl, st_slots st' !! file = Some sl → in_use file (st_sessions st') = false → sl_task sl = None →
      ∃ at_, sl_idle sl = Some at_ ∧ (at_ + GRACE)%Z ∈ deadlines st')
  ∧ (∀ file sl at_, m = Tick → st_slots st !! file = Some sl → in_use file (st_sessions st) = false →
      sl_task sl = None → sl_idle sl = Some at_ → (at_ + GRACE ≤ in_reap i)%Z → st_slots st' !! file = None).
Proof.
  pose proof (handle_idle _ _ _ _ Hh Hfresh) as Hidle. split_and!.
  - intros d Hd. unfold handle in Hh. destruct (match m with Tick => _ | _ => _ end) as [st1|]; cbn in Hh; [|done].
    simplify_eq. change (deadlines (schedule (in_schedule i) st1)) with (deadlines st1) in Hd.
    destruct (list_min_le _ _ Hd) as (mn & Hmn & Hle). cbn. rewrite Hmn. cbn. eexists; split; [done|]. lia.
  - intros file sl Hsl Hu Ht. destruct (Hidle file sl Hsl Hu) as [at_ Hat]. exists at_. split; [done|].
    unfold deadlines. apply elem_of_app. right. apply list_elem_of_omap. exists (file, sl).
    split; [by apply elem_of_map_to_list|]. cbn. by rewrite Ht, Hat.
  - intros file sl at_ -> Hsl Hu Ht Hat Hlate. unfold handle in Hh. cbn [mbind option_bind] in Hh. simplify_eq.
    cbn [schedule st_slots]. apply eq_None_not_Some. intros [sl' (sl0 & Hsl0 & -> & Hkept)%reap_slot]. simplify_eq.
    unfold slot_kept, reap_mark in Hkept. cbn [sl_task sl_idle] in Hkept. rewrite Ht, Hat in Hkept.
    destruct (in_use file (st_sessions (reap (in_reap i) st))) eqn:E.
    + apply in_use_true in E as (id & s & [Hs _]%reap_session & Hf).
      assert (in_use file (st_sessions st) = true) as H by (apply in_use_true; eauto). congruence.
    + cbn in Hkept. apply Z.ltb_lt in Hkept. lia.
Qed.
End actor.

(** * A concrete run *)

#[local] Existing Instances list_pool list_pool_laws toy_lines.

Module demo_sessions.
Definition at_ (t : Z) : Inputs := mkInputs t t t t "s1" "g1".
Definition open_request : Message := Open "ui" (mkOpenLogs "r1" None) 7.
(** A session is open, and its first refresh runs. *)
Definition st1 : State := default state_new (handle (at_ 0) open_request state_new).
(** Its owner asks for a page while it runs. *)
Definition ask : Message := Query "ui" (default_query "s1") 8.

Lemma st1_eq : handle (at_ 0) open_request state_new = Some st1.
Proof. vm_compute. reflexivity. Qed.

Definition sys1 : Sys := mkSys st1 ([] : list Ascii.ascii) [7].
Lemma sys1_reachable : areachable sys1.
Proof. exists []. eapply rtc_l; [|apply rtc_refl]. by apply (a_request (at_ 0) open_request 7); [|apply st1_eq]. Qed.

Definition st2 : State := default state_new (handle (at_ 1000) ask st1).
Lemma st2_eq : handle (at_ 1000) ask st1 = Some st2.
Proof. vm_compute. reflexivity. Qed.
End demo_sessions.

Lemma sessions_stay_consistent_witness :
  is_Some (handle (demo_sessions.at_ 1000) demo_sessions.ask demo_sessions.st1).
Proof.
  apply (proj2 (sessions_stay_consistent demo_sessions.sys1 demo_sessions.sys1_reachable)). exact Logic.I.
Defined.


Lemma lease_is_honoured_witness :
  lives 1000 (mkSession "ui" "r1" "" 45000) (st_sessions demo_sessions.st2 !! "s1")
  ∧ st_sessions (default state_new (handle (mkInputs 45000 45000 45000 45000 "s2" "g") Tick demo_sessions.st1)) !! "s1" = None.
Proof.
  split.
  - apply (proj1 (lease_is_honoured (mkInputs 1000 1000 1000 1000 "s2" "g1") demo_sessions.ask demo_sessions.st1
             demo_sessions.st2 "s1" (mkSession "ui" "r1" "" 45000) ltac:(vm_compute; reflexivity)
             ltac:(vm_compute; reflexivity) ltac:(discriminate))); [vm_compute; reflexivity..|].
    intros p. discriminate.
  - apply (proj2 (lease_is_honoured (mkInputs 45000 45000 45000 45000 "s2" "g") Tick demo_sessions.st1 _
             "s1" (mkSession "ui" "r1" "" 45000) ltac:(vm_compute; reflexivity)
             ltac:(vm_compute; reflexivity) ltac:(discriminate))). vm_compute. discriminate.
Defined.

Lemma idle_slots_are_released_witness :
  ∃ t, st_timer demo_sessions.st2 = Some t ∧ (t ≤ Z.max 46000 1001)%Z.
Proof.
  apply (proj1 (idle_slots_are_released (mkInputs 1000 1000 1000 1000 "s2" "g1") demo_sessions.ask demo_sessions.st1
           demo_sessions.st2 ltac:(vm_compute; reflexivity) ltac:(vm_compute; reflexivity))).
  apply (bool_decide_unpack (46000%Z ∈ deadlines demo_sessions.st2)). vm_compute. exact Logic.I.
Defined.
