(* ===== verification/Bridge.v ===== *)
(** The adapter of the service between its wire protocol and the core manager
    (nyanpasu-service-runtime, server/manager_bridge.rs, with the wire types of
    nyanpasu_ipc, api/status.rs and api/core/v2.rs): projections of statuses and
    operations, the two routes of commands, the echo of the requested core type,
    and the stream of status events.

    [CoreType] is the enumeration of [nyanpasu-utils] the source matches
    exhaustively; the name of an executable and the credentials of a URL are
    operations of that crate and of [url] ([WireHost]).  An [anyhow] error is its
    text.  The commands of the first protocol check a snapshot of the status
    before they call the manager; a command is one step here. *)
From S2P Require Import Prelude Text Paths Metadata Types Operation Control Health Yaml Diff Mihomo Config Capability RuntimeStore Runtime Log Manager.
From Stdlib Require Import ZArith Lia.

(** * The wire *)

Inductive ClashCoreType := CMihomo | CMihomoAlpha | CClashRust | CClashRustAlpha | CClashPremium | CMeow.
Inductive CoreType := Clash (t : ClashCoreType) | SingBox.
#[export] Instance ClashCoreType_eq_dec : EqDecision ClashCoreType.
Proof. solve_decision. Defined.
#[export] Instance CoreType_eq_dec : EqDecision CoreType.
Proof. solve_decision. Defined.

(** [nyanpasu_ipc::api::status::CoreState]. *)
Inductive WireState := WRunning | WStopped (reason : option string).
Inductive CoreControllerInfo := CNamedPipe (path : string) | CUnixSocket (path : string) | CHttp (url : string).
Inductive CoreHealthState := CHStarting | CHHealthy | CHUnhealthy.
Record CoreHealthInfo := mkHealthInfo {
  ch_state : CoreHealthState;
  ch_changed_at : Z;
  ch_consecutive_failures : Z;
  ch_last_error : option string;
  ch_last_success_at : option Z;
}.
Record ConfigRevisionInfo := mkRevisionInfo {
  rv_epoch : Z;
  rv_generation : Z;
  rv_source_hash : string;
  rv_effective_hash : string;
}.
Record RevisionIdInfo := mkRevisionIdInfo { ii_epoch : Z; ii_generation : Z; ii_effective_hash : string }.

(** [ConfigRevisionInfo::id]. *)
Definition revision_info_id (r : ConfigRevisionInfo) : RevisionIdInfo :=
  mkRevisionIdInfo (rv_epoch r) (rv_generation r) (rv_effective_hash r).

Inductive CoreStateDetail :=
| DStopped (reason : option string)
| DStarting (epoch : Z)
| DRunning (epoch pid : Z)
| DRestarting (epoch attempt : Z)
| DSwitching (from : option Z) (to : Z)
| DStopping (epoch : Z).

Record CoreInfos := mkCoreInfos {
  ci_instance_id : option Uuid;
  ci_type : option CoreType;
  ci_state : WireState;
  ci_state_changed_at : Z;
  ci_config_path : option string;
  ci_controller : option CoreControllerInfo;
  ci_health : option CoreHealthInfo;
  ci_revision : option ConfigRevisionInfo;
  ci_detail : option CoreStateDetail;
}.

Inductive LocalIpcPolicyInfo := PForce | PPrefer | PDisable.
Record LocalIpcSettingsInfo := mkSettingsInfo { si_policy : LocalIpcPolicyInfo; si_keep_http_controller : bool }.

Inductive CoreCommandInfo :=
| CReconcile (local_ipc : option LocalIpcSettingsInfo) (core_type : CoreType) (config : string)
    (expected_digest : option string) (expected_applied : option RevisionIdInfo)
| CStop
| CRecover.
Record CoreSubmitReq := mkSubmitReq { sq_operation_id : string; sq_command : CoreCommandInfo }.
Record CoreOperationReq := mkOperationReq { oq_operation_id : string; oq_wait_ms : option Z }.

Inductive OperationPhase := PQueued | PRunning | PSucceeded | PFailed.
Inductive ReconcileOutcomeKind := KStarted | KNoop | KPatched | KReloaded | KRestarted | KSwitched | KRolledBack.
Record ReconcileOutcomeInfo := mkOutcomeInfo {
  oi_outcome : ReconcileOutcomeKind;
  oi_revision : ConfigRevisionInfo;
  oi_warning : option string;
  oi_failed_apply : option string;
}.
Inductive OperationOutputInfo := IReconciled (o : ReconcileOutcomeInfo) | IStopped_ | IRecovered | IShutDown.
Record OperationErrorInfo := mkErrorInfo { ei_kind : option string; ei_message : string; ei_retryable : bool }.
Record OperationInfo := mkOperationInfo {
  on_id : string;
  on_phase : OperationPhase;
  on_output : option OperationOutputInfo;
  on_error : option OperationErrorInfo;
}.

(** * Errors *)

Record OpError := mkOpError {
  oe_kind : option CoreErrorKind.t;
  oe_message : string;
  oe_retryable : option bool;
}.

Definition MSG_CORE_ALREADY_RUNNING : string := "core is already running".
Definition MSG_CORE_ALREADY_STOPPED : string := "core is already stopped".
Definition MSG_CORE_NOT_STARTED : string := "core have not been started yet".
Definition MAX_OPERATION_WAIT_MS : Z := 90000.

(** [OpError::plain], [with_kind], [retryable]. *)
Definition op_plain (message : string) : OpError := mkOpError None message None.
Definition op_with_kind (kind : CoreErrorKind.t) (message : string) : OpError := mkOpError (Some kind) message None.
Definition op_retryable (retryable : bool) (e : OpError) : OpError :=
  mkOpError (oe_kind e) (oe_message e) (Some retryable).

(** [From<ManagerError> for OpError]. *)
Definition op_error_from_manager (e : Error) : OpError :=
  mkOpError (error_kind e) (match e with NotStarted => MSG_CORE_NOT_STARTED | _ => error_display e end) None.

(** [op_error_from_control]. *)
Definition op_error_from_control (e : CoreError) : OpError :=
  op_retryable (ce_retryable e)
    (match ce_kind e with
     | Some kind => op_with_kind kind (ce_message e)
     | None => op_plain (ce_message e)
     end).

(** * Projections *)

Class WireHost := {
  executable_name : CoreType → string;
  core_type_text : CoreType → string;
  (** [set_username("")], [set_password(None)] and [to_string]. *)
  without_credentials : string → string;
}.

(** [core_kind]. *)
Definition core_kind (t : CoreType) : result ClashCoreKind string :=
  match t with
  | Clash (CMihomo | CMihomoAlpha) => Ok Mihomo
  | Clash (CClashRust | CClashRustAlpha) => Ok ClashRust
  | Clash CClashPremium => Ok ClashPremium
  | Clash CMeow => Ok Meow
  | SingBox => Err "sing-box is not a supported core"
  end.

(** [map_core_state]. *)
Definition map_core_state (s : CoreState) : WireState :=
  match s with
  | Running _ _ | Switching _ _ | Stopping _ => WRunning
  | Starting _ | Restarting _ _ => WStopped None
  | Stopped reason => WStopped (stop_reason_display <$> reason)
  end.

(** [map_state_detail]. *)
Definition map_state_detail (s : CoreState) : option CoreStateDetail :=
  Some match s with
       | Stopped reason => DStopped (stop_reason_display <$> reason)
       | Starting epoch => DStarting epoch
       | Running epoch pid => DRunning epoch pid
       | Restarting epoch attempt => DRestarting epoch attempt
       | Switching from to => DSwitching from to
       | Stopping epoch => DStopping epoch
       end.

(** [map_health]. *)
Definition map_health (h : HealthStatus) : CoreHealthInfo :=
  mkHealthInfo
    (match hs_state h with HStarting => CHStarting | HHealthy => CHHealthy | HUnhealthy => CHUnhealthy end)
    (hs_changed_at h) (hs_consecutive_failures h) (hs_last_error h) (hs_last_success_at h).

(** [map_revision]. *)
Definition map_revision (r : ConfigRevision) : ConfigRevisionInfo :=
  mkRevisionInfo (cr_epoch r) (cr_generation r) (cr_source_hash r) (cr_effective_hash r).

(** [map_revision_id]. *)
Definition map_revision_id (i : RevisionIdInfo) : result RevisionId OpError :=
  match epoch_new (ii_epoch i) with
  | None => Err (op_plain "expected revision epoch must be nonzero")
  | Some epoch => Ok (mkRevisionId epoch (ii_generation i) (ii_effective_hash i))
  end.

(** [same_ipc_state]. *)
Definition same_ipc_state (previous next : WireState) : bool :=
  match previous, next with
  | WRunning, WRunning => true
  | WStopped a, WStopped b => bool_decide (a = b)
  | _, _ => false
  end.

(** The loops over [DurabilityUncertain]: the warnings from the outside in, and
    the outcome below them. *)
Fixpoint outcome_warnings (o : ApplyOutcome) : list string :=
  match o with ADurabilityUncertain o warning => warning :: outcome_warnings o | _ => [] end.
Fixpoint outcome_core (o : ApplyOutcome) : ApplyOutcome :=
  match o with ADurabilityUncertain o _ => outcome_core o | _ => o end.

(** [map_reconcile_outcome]; the arm of a wrapper is [unreachable!]. *)
Definition map_reconcile_outcome (o : ApplyOutcome) : option ReconcileOutcomeInfo :=
  let warnings := outcome_warnings o in
  c ← match outcome_core o with
      | Started r => Some (KStarted, r, None)
      | Noop r => Some (KNoop, r, None)
      | Patched r => Some (KPatched, r, None)
      | Reloaded r => Some (KReloaded, r, None)
      | Restarted r => Some (KRestarted, r, None)
      | Switched r => Some (KSwitched, r, None)
      | RolledBack r failed => Some (KRolledBack, r, Some failed)
      | ADurabilityUncertain _ _ => None
      end;
  let '(kind, revision, failed) := c in
  Some (mkOutcomeInfo kind (map_revision revision)
          (if bool_decide (warnings = []) then None else Some (join "; " warnings)) failed).

(** [map_operation_output]. *)
Definition map_operation_output (o : OperationOutput) : option OperationOutputInfo :=
  match o with
  | Reconciled outcome => IReconciled <$> map_reconcile_outcome outcome
  | OStopped => Some IStopped_
  | Recovered => Some IRecovered
  | ShutDown => Some IShutDown
  end.

(** [map_operation]. *)
Definition map_operation (id : OperationId) (s : OperationState) : option OperationInfo :=
  let text := operation_id_display id in
  match s with
  | Queued => Some (mkOperationInfo text PQueued None None)
  | ORunning => Some (mkOperationInfo text PRunning None None)
  | Succeeded output =>
      output ← map_operation_output output; Some (mkOperationInfo text PSucceeded (Some output) None)
  | Failed e =>
      Some (mkOperationInfo text PFailed None
              (Some (mkErrorInfo (CoreErrorKind.as_str <$> ce_kind e) (ce_message e) (ce_retryable e))))
  end.

(** * The echo of the core type *)

(** [requested_core] and [echo_applied]. *)
Record Echo := mkEcho { ec_requested : option CoreType; ec_applied : option Z }.

(** [publish_requested_core]. *)
Definition publish_requested_core (committed : option CoreType) (e : Echo) : Echo :=
  mkEcho (if committed is Some t then Some t else ec_requested e) (ec_applied e).

(** [echo_commits]. *)
Definition echo_commits (s : OperationState) : bool :=
  match s with
  | Succeeded (Reconciled outcome) => if outcome_core outcome is RolledBack _ _ then false else true
  | _ => false
  end.

(** The task of [watch_reconcile_echo], once its operation has ended. *)
Definition watch_reconcile_echo (sequence : Z) (core_type : CoreType) (s : OperationState) (e : Echo) : Echo :=
  let commits := echo_commits s in
  let reconciled := match s with Succeeded (Reconciled _) => true | _ => false end in
  if negb commits && negb reconciled then e
  else if (match ec_applied e with Some latest => sequence <=? latest | None => false end)%Z then e
  else
    let e := mkEcho (ec_requested e) (Some sequence) in
    if commits then publish_requested_core (Some core_type) e else publish_requested_core None e.

Section bridge.
Context {WH : WireHost}.

(** [map_controller]. *)
Definition map_controller (h : Host) : option CoreControllerInfo :=
  Some match h with
       | NamedPipe path => CNamedPipe path
       | UnixSocket path => CUnixSocket path
       | Http url => CHttp (without_credentials url)
       end.

(** [project_core_infos]. *)
Definition project_core_infos (s : CoreStatus) (requested_core : option CoreType) : CoreInfos :=
  mkCoreInfos (co_instance_id s) requested_core (map_core_state (co_state s)) (co_changed_at s)
    (ss_config_path <$> co_spec s) (h ← co_controller s; map_controller h) (map_health <$> co_health s)
    (map_revision <$> co_revision s) (map_state_detail (co_state s)).

(** * The event stream *)

Inductive WsEvent := CoreStateChanged (s : WireState) | CoreStatusChanged (i : CoreInfos) | CoreLog (f : LogFrame).

(** What wakes [status_bridge]: a change of the manager's status or of the
    echo, with the values it borrows. *)
Inductive BridgeRound :=
| RState (raw : CoreStatus) (requested : option CoreType)
| REcho (raw : CoreStatus) (requested : option CoreType).

Definition round_projection (r : BridgeRound) : CoreInfos :=
  match r with RState raw requested | REcho raw requested => project_core_infos raw requested end.

(** One round of [status_bridge]: the events it sends and the last legacy
    state. *)
Definition bridge_round (r : BridgeRound) (last : WireState) : list WsEvent * WireState :=
  match r with
  | RState raw requested =>
      let next := map_core_state (co_state raw) in
      let snapshot := CoreStatusChanged (project_core_infos raw requested) in
      let arriving := match co_state raw with Stopping _ | Switching _ _ => true | _ => false end in
      let stopped := match last with WStopped _ => true | WRunning => false end in
      if arriving && stopped then ([snapshot], last)
      else if same_ipc_state last next then ([snapshot], last)
      else ([snapshot; CoreStateChanged next], next)
  | REcho raw requested => ([CoreStatusChanged (project_core_infos raw requested)], last)
  end.

(** [status_bridge] from its second round on. *)
Fixpoint bridge_rounds (rounds : list BridgeRound) (last : WireState) : list WsEvent * WireState :=
  match rounds with
  | [] => ([], last)
  | r :: rounds' =>
      let '(events, last) := bridge_round r last in
      let '(events', last) := bridge_rounds rounds' last in
      (events ++ events', last)
  end.

Definition status_bridge (initial : CoreStatus) (rounds : list BridgeRound) : list WsEvent :=
  (bridge_rounds rounds (map_core_state (co_state initial))).1.

(** * Commands *)

(** A [PathBuf]: UTF-8 text, or something else that is only displayed. *)
Inductive OsPath := PathText (p : string) | PathBytes (display : string).
Definition os_join (p : OsPath) (name : string) : OsPath :=
  match p with PathText p => PathText (path_join p name) | PathBytes d => PathBytes (path_join d name) end.

(** [RuntimeInfos] of server/consts.rs. *)
Record RuntimeInfos := mkInfos {
  in_service_data_dir : OsPath;
  in_service_config_dir : OsPath;
  in_nyanpasu_config_dir : OsPath;
  in_nyanpasu_data_dir : OsPath;
  in_nyanpasu_app_dir : OsPath;
}.

(** What the adapter asks of the file system: [Path::exists],
    [tokio::fs::canonicalize] and [Utf8Path::canonicalize_utf8], each followed by
    [dunce::simplified], and [tokio::fs::metadata]. *)
Inductive ResolveError := ResolveNotFound (text : string) | ResolveOther (text : string).
Class BridgeHost (W : Type) := {
  path_exists : OsPath → M W bool;
  canonicalize_path : string → M W (result OsPath ResolveError);
  canonicalize_utf8 : string → M W (result string string);
  file_metadata : string → M W (result unit string);
}.

Context {PL : ProcessLib} {YF : YamlFloat} {PC : PatchCodec}.
Context {YC : YamlCodec} {UL : UrlLib} {SV : Semver}.
Context {W : Type} {EN : Env W} {FS : RuntimeFs W} {BH : BinaryHost W} {HB : BridgeHost W}.
Context {Q : Type} {MP : Mpsc Q}.
Context (self : Inner).

(** [find_binary_path]. *)
Definition find_binary_path (infos : RuntimeInfos) (t : CoreType) : M Mgr (result OsPath string) :=
  let name := executable_name t in
  let binary_path := os_join (in_nyanpasu_data_dir infos) name in
  found <- lift (path_exists binary_path) ;;
  if (found : bool) then ret (Ok binary_path)
  else
    let binary_path := os_join (in_nyanpasu_app_dir infos) name in
    found <- lift (path_exists binary_path) ;;
    if (found : bool) then ret (Ok binary_path) else ret (Err (name +:+ " not found")).

(** [instance_spec]. *)
Definition instance_spec (infos : RuntimeInfos) (t : CoreType) (config_path : string) :
    M Mgr (result InstanceSpec OpError) :=
  match in_nyanpasu_data_dir infos with
  | PathBytes d => ret (Err (op_plain ("nyanpasu data dir is not UTF-8: " +:+ d)))
  | PathText working_dir =>
      found <- find_binary_path infos t ;;
      ret match found with
          | Err e => Err (op_with_kind CoreErrorKind.BinaryNotFound e)
          | Ok (PathBytes d) => Err (op_plain ("core binary path is not UTF-8: " +:+ d))
          | Ok (PathText binary_path) =>
              match core_kind t with
              | Err e => Err (op_plain e)
              | Ok kind =>
                  Ok (mkInstanceSpec (mkCoreSpec kind binary_path None []) config_path working_dir None
                        instance_options_default)
              end
          end
  end.

(** The adapter: the manager, the control plane over it, the echo and the latch of
    the first protocol; whether a check slot is free is an argument of [check]. *)
Record Service := mkService {
  sv_manager : Mgr;
  sv_control : Control (Q:=Q);
  sv_echo : Echo;
  sv_closing : bool;
}.

Definition on_manager {A} (m : M Mgr A) : M Service A :=
  λ s, let '(a, g) := m (sv_manager s) in (a, mkService g (sv_control s) (sv_echo s) (sv_closing s)).
Definition set_echo (e : Echo) (s : Service) : Service :=
  mkService (sv_manager s) (sv_control s) e (sv_closing s).
Definition set_control (c : Control) (s : Service) : Service :=
  mkService (sv_manager s) c (sv_echo s) (sv_closing s).

Definition SHUTTING_DOWN : string := "service is shutting down".

(** [start] of the first protocol. *)
Definition service_start (infos : RuntimeInfos) (t : CoreType) (config_path : string) :
    M Service (result unit string) :=
  closing <- gets sv_closing ;;
  if (closing : bool) then ret (Err SHUTTING_DOWN) else
  r <- on_manager (lift (canonicalize_utf8 config_path)) ;;
  match r with
  | Err e => ret (Err e)
  | Ok config_path =>
      r <- on_manager (lift (file_metadata config_path)) ;;
      match r with
      | Err e => ret (Err e)
      | Ok _ =>
          status <- gets (λ s, mg_status (sv_manager s)) ;;
          match co_state status with
          | Stopped _ =>
              r <- on_manager (instance_spec infos t config_path) ;;
              match r with
              | Err e => ret (Err (oe_message e))
              | Ok spec =>
                  r <- on_manager (start self spec) ;;
                  match r with
                  | Err e => ret (Err (error_display e))
                  | Ok _ => modify (λ s, set_echo (publish_requested_core (Some t) (sv_echo s)) s) ;;; ret (Ok ())
                  end
              end
          | _ => ret (Err MSG_CORE_ALREADY_RUNNING)
          end
      end
  end.

(** [stop] of the first protocol. *)
Definition service_stop : M Service (result unit string) :=
  closing <- gets sv_closing ;;
  if (closing : bool) then ret (Err SHUTTING_DOWN) else
  r <- on_manager (stop self) ;;
  ret match r with
      | Ok _ => Ok ()
      | Err NotStarted => Err MSG_CORE_ALREADY_STOPPED
      | Err e => Err (error_display e)
      end.

(** [shutdown], up to the request to the control plane: the latch of the first
    protocol.  The answer says whether this call goes on; the latch of the
    control plane is the next step ([service_shutdown_latch]), and a submission
    may come in between. *)
Definition service_shutdown_begin : M Service bool :=
  λ s, if sv_closing s then (false, s)
       else (true, mkService (sv_manager s) (sv_control s) (sv_echo s) true).
Definition service_shutdown_latch (s : Service) : Service := set_control (shutdown_latch (sv_control s)) s.

(** [shutdown], after the control plane answered ([None]: it did not in time):
    with the executor gone the manager is asked directly. *)
Definition service_shutdown_end (answer : option (result unit CoreError)) : M Service unit :=
  closed <- gets (λ s, q_closed (ct_queue (sv_control s))) ;;
  match answer with
  | Some (Err _) => if (closed : bool) then on_manager (shutdown self) ;;; ret () else ret ()
  | _ => ret ()
  end.

(** [canonical_config_path]. *)
Definition canonical_config_path (config_file : string) : M Mgr (result string OpError) :=
  r <- lift (canonicalize_path config_file) ;;
  ret match r with
      | Err (ResolveNotFound t) =>
          Err (op_with_kind CoreErrorKind.ConfigNotFound ("failed to resolve config path " +:+ config_file +:+ ": " +:+ t))
      | Err (ResolveOther t) => Err (op_plain ("failed to resolve config path " +:+ config_file +:+ ": " +:+ t))
      | Ok (PathBytes d) => Err (op_plain ("config path is not UTF-8: " +:+ d))
      | Ok (PathText p) => Ok p
      end.

(** [check] of the first protocol; [slot] says whether a check slot is free. *)
Definition service_check (slot : bool) (infos : RuntimeInfos) (t : CoreType) (config_file : string) :
    M Service (result unit OpError) :=
  closing <- gets sv_closing ;;
  if (closing : bool) then ret (Err (op_plain SHUTTING_DOWN)) else
  if negb slot then ret (Err (op_plain "at most 2 config checks may run at once; retry")) else
  on_manager
    (config_path <-? canonical_config_path config_file ;;
     spec <-? instance_spec infos t config_path ;;
     r <- lift (backend_check_config spec) ;;
     ret (res_map_err op_error_from_manager r)).

(** [status]. *)
Definition service_status (s : Service) : CoreInfos :=
  project_core_infos (mg_status (sv_manager s)) (ec_requested (sv_echo s)).

(** [effective_config] and [api_connection]. *)
Record CoreEffectiveConfig := mkEffectiveInfo {
  fi_instance_id : Uuid;
  fi_revision : ConfigRevisionInfo;
  fi_config : string;
}.
Definition service_effective_config (s : Service) : result (option CoreEffectiveConfig) string :=
  match effective_config (sv_manager s) with
  | None => Ok None
  | Some snapshot =>
      res_map (λ text, Some (mkEffectiveInfo (es_instance_id snapshot) (map_revision (es_revision snapshot)) text))
        (yaml_to_string (es_config snapshot))
  end.
Record CoreApiConnection := mkApiConnection {
  ac_instance_id : Uuid;
  ac_controller_info : CoreControllerInfo;
  ac_secret : option string;
}.
Definition service_api_connection (s : Service) : option CoreApiConnection :=
  '(id, controller) ← api_connection (sv_manager s);
  info ← map_controller (rc_host controller);
  Some (mkApiConnection id info (rc_secret controller)).

(** The wire policy. *)
Definition map_local_ipc (i : LocalIpcSettingsInfo) : LocalIpcSettings :=
  mkLocalIpc (match si_policy i with PForce => Force | PPrefer => Prefer | PDisable => Disable end)
    (si_keep_http_controller i).

(** The command of a submission, and the type its watcher will commit. *)
Definition submit_command (infos : RuntimeInfos) (c : CoreCommandInfo) :
    M Mgr (result (CoreCommand * option CoreType) OpError) :=
  match c with
  | CReconcile local_ipc t config expected_digest expected_applied =>
      spec <-? instance_spec infos t "" ;;
      (let o := is_options spec in
       let options := mkInstanceOptions (map_local_ipc <$> local_ipc) (io_startup_timeout o) (io_health o)
                        (io_restart_policy o) (io_backoff o) in
       ret (match (match expected_applied with
                   | None => Ok None
                   | Some i => res_map Some (map_revision_id i)
                   end) with
            | Err e => Err e
            | Ok applied =>
                Ok (Reconcile (mkReconcileRequest (is_core spec) (Inline config expected_digest) options applied), Some t)
            end))
  | CStop => ret (Ok (Stop, None))
  | CRecover => ret (Ok (Recover, None))
  end.

(** [submit_v2]: the answer, and the watcher it leaves behind (the operation,
    its sequence and the type). *)
Definition submit_v2 (settings : LocalIpcSettings) (infos : RuntimeInfos) (request : CoreSubmitReq) :
    M Service (result (option OperationInfo * option (OperationId * Z * CoreType)) OpError) :=
  match operation_id_from_str (sq_operation_id request) with
  | Err _ => ret (Err (op_plain ("malformed operation id: " +:+ sq_operation_id request)))
  | Ok id =>
      c <- on_manager (submit_command infos (sq_command request)) ;;
      match c with
      | Err e => ret (Err e)
      | Ok (command, echoed) =>
          λ s, match submit settings id command (sv_control s) with
               | (Err e, c) => (Err (op_error_from_control e), set_control c s)
               | (Ok handle, c) =>
                   let state := registry_get (oh_id handle) (ct_registry c) in
                   (Ok (state ≫= map_operation (oh_id handle),
                        match echoed with
                        | Some t => if oh_newly_admitted handle then Some (oh_id handle, oh_sequence handle, t) else None
                        | None => None
                        end), set_control c s)
               end
      end
  end.

(** [operation_v2]; a long poll answers with the state at the end of its wait,
    so it is the same read, taken later. *)
Definition operation_v2 (request : CoreOperationReq) (s : Service) : result (option OperationInfo) OpError :=
  match operation_id_from_str (oq_operation_id request) with
  | Err _ => Err (op_plain ("malformed operation id: " +:+ oq_operation_id request))
  | Ok id =>
      match registry_get id (ct_registry (sv_control s)) with
      | Some state => Ok (map_operation id state)
      | None =>
          Err (op_plain ("unknown operation " +:+ operation_id_display id
                         +:+ ": the registry entry was evicted or never existed; "
                         +:+ "re-read /v2/core/status and rely on the revision CAS"))
      end
  end.
End bridge.
