(* ===== verification/BridgeProps.v ===== *)
(** What the adapter of the service guarantees: the streams of events, the echo
    of the core type, the projections and the compare-and-swap token, and the
    composition of its two protocols with the control plane and the manager. *)
From S2P Require Import Prelude Text Paths Metadata Types Operation Control Health Yaml Diff Mihomo Config Capability RuntimeStore Runtime Manager ManagerSafety ManagerControl Simulation Runs ManagerProps Executor Bridge.
From Stdlib Require Import ZArith Lia.

(** * The event stream *)

Section stream.
Context {WH : WireHost}.

Lemma same_ipc_state_eq a b : same_ipc_state a b = true ↔ a = b.
Proof.
  destruct a, b; cbn; [done|done|done|]. rewrite bool_decide_eq_true. naive_solver.
Qed.

(** The legacy states of a stream, and its snapshots. *)
Definition legacy (events : list WsEvent) : list WireState :=
  omap (λ e, if e is CoreStateChanged s then Some s else None) events.
Definition snapshots (events : list WsEvent) : list CoreInfos :=
  omap (λ e, if e is CoreStatusChanged i then Some i else None) events.

(** Each state differs from the one before it. *)
Fixpoint changes (last : WireState) (l : list WireState) : Prop :=
  match l with [] => True | s :: l' => s ≠ last ∧ changes s l' end.

(** A two-valued state that may stand for a state of the manager: it is its
    projection, or the core is on its way down or over from a stop. *)
Definition stands_for (last : WireState) (s : CoreState) : Prop :=
  last = map_core_state s
  ∨ (match s with Stopping _ | Switching _ _ => True | _ => False end ∧ ∃ reason, last = WStopped reason).

(** The state of the manager the last round on it saw. *)
Fixpoint last_raw (initial : CoreState) (rounds : list BridgeRound) : CoreState :=
  match rounds with
  | [] => initial
  | RState raw _ :: rounds' => last_raw (co_state raw) rounds'
  | REcho _ _ :: rounds' => last_raw initial rounds'
  end.

Lemma bridge_rounds_ok rounds last s :
  stands_for last s →
  let '(events, last') := bridge_rounds rounds last in
  snapshots events = round_projection <$> rounds
  ∧ changes last (legacy events)
  ∧ default last (list.last (legacy events)) = last'
  ∧ stands_for last' (last_raw s rounds).
Proof.
  revert last s. induction rounds as [|r rounds IH]; intros last s Hs; [done|]. cbn [bridge_rounds].
  assert (Hround : let '(events, last1) := bridge_round r last in
    snapshots events = [round_projection r]
    ∧ (legacy events = [] ∧ last1 = last ∨ legacy events = [last1] ∧ last1 ≠ last)
    ∧ stands_for last1 (last_raw s [r])).
  { destruct r as [raw requested|raw requested]; cbn [bridge_round]; [|by split_and!; [|left|]].
    destruct (_ && _) eqn:Ea.
    { apply andb_true_iff in Ea as [Ha Hst]. split_and!; [done|by left|]. right. cbn.
      split; [by destruct (co_state raw)|]. destruct last; [done|]. by eexists. }
    destruct (same_ipc_state last (map_core_state (co_state raw))) eqn:Es.
    - apply same_ipc_state_eq in Es. by split_and!; [done|left|left].
    - split_and!; [done|right|by left]. split; [done|]. intros Heq. symmetry in Heq.
      apply same_ipc_state_eq in Heq. congruence. }
  destruct (bridge_round r last) as [events last1]. destruct Hround as (Hsn & Hleg & Hst).
  assert (Hraw : last_raw s (r :: rounds) = last_raw (last_raw s [r]) rounds) by (by destruct r).
  specialize (IH last1 (last_raw s [r]) Hst). destruct (bridge_rounds rounds last1) as [events' last2].
  destruct IH as (IHsn & IHch & IHlast & IHst). rewrite Hraw. unfold snapshots, legacy in *. rewrite !omap_app.
  split_and!; [by rewrite Hsn, IHsn| | |done].
  - by destruct Hleg as [[-> ->]|[-> Hne]].
  - destruct Hleg as [[-> ->]|[-> Hne]]; [done|]. cbn [app]. rewrite last_cons. by destruct (list.last _).
Qed.

End stream.

(** * The echo *)

(** A reconcile whose watcher has its terminal state: its place in the run
    order, the type it asked for, and that state. *)
Record Completion := mkCompletion { cp_sequence : Z; cp_type : CoreType; cp_state : OperationState }.

Definition observe_echo (c : Completion) (e : Echo) : Echo :=
  watch_reconcile_echo (cp_sequence c) (cp_type c) (cp_state c) e.
Definition observe_echoes (l : list Completion) (e : Echo) : Echo := foldl (λ e c, observe_echo c e) e l.

(** The committed reconcile that ran last. *)
Definition latest (l : list Completion) : option Completion :=
  foldl (λ best c, if echo_commits (cp_state c)
                   then (if best is Some b then if (cp_sequence b <? cp_sequence c)%Z then Some c else best else Some c)
                   else best) None l.

Definition rolled_back (s : OperationState) : bool :=
  match s with Succeeded (Reconciled _) => negb (echo_commits s) | _ => false end.

Lemma observe_no_rollback c e :
  rolled_back (cp_state c) = false →
  observe_echo c e =
    if echo_commits (cp_state c)
       && negb (match ec_applied e with Some l => cp_sequence c <=? l | None => false end)%Z
    then mkEcho (Some (cp_type c)) (Some (cp_sequence c)) else e.
Proof.
  intros Hr. unfold observe_echo, watch_reconcile_echo. destruct (echo_commits (cp_state c)) eqn:Ec; cbn [negb andb].
  - by destruct (match ec_applied e with Some _ => _ | None => _ end).
  - unfold rolled_back in Hr. rewrite Ec in Hr. destruct (cp_state c) as [| |[]|]; try done.
Qed.

(** What [latest] is. *)
Definition is_latest (l : list Completion) (best : option Completion) : Prop :=
  match best with
  | Some c => echo_commits (cp_state c) = true ∧ c ∈ l
      ∧ ∀ c', c' ∈ l → echo_commits (cp_state c') = true → (cp_sequence c' ≤ cp_sequence c)%Z
  | None => ∀ c', c' ∈ l → echo_commits (cp_state c') = false
  end.

Lemma latest_ok l : is_latest l (latest l).
Proof.
  induction l as [|c l IH] using rev_ind; [by intros c' ?%elem_of_nil|].
  unfold latest in *. rewrite foldl_app. cbn [foldl]. set (best := foldl _ None l) in *.
  destruct (echo_commits (cp_state c)) eqn:Ec; destruct best as [b|]; unfold is_latest in *.
  - destruct IH as (Hb & Hin & Hmax). destruct (Z.ltb_spec (cp_sequence b) (cp_sequence c)).
    + split_and!; [done|set_solver|].
      intros c' [Hc'|Hc'%list_elem_of_singleton]%elem_of_app Hk; [|by subst]. specialize (Hmax c' Hc' Hk). lia.
    + split_and!; [done|set_solver|].
      intros c' [Hc'|Hc'%list_elem_of_singleton]%elem_of_app Hk; [by apply Hmax|by subst].
  - split_and!; [done|set_solver|].
    intros c' [Hc'|Hc'%list_elem_of_singleton]%elem_of_app Hk; [|by subst]. rewrite IH in Hk; done.
  - destruct IH as (Hb & Hin & Hmax). split_and!; [done|set_solver|].
    intros c' [Hc'|Hc'%list_elem_of_singleton]%elem_of_app Hk; [by apply Hmax|]. subst. congruence.
  - intros c' [Hc'|Hc'%list_elem_of_singleton]%elem_of_app; [by apply IH|by subst].
Qed.

Lemma observe_echoes_ok requested l :
  Forall (λ c, rolled_back (cp_state c) = false) l →
  observe_echoes l (mkEcho requested None)
  = mkEcho (if latest l is Some c then Some (cp_type c) else requested) (cp_sequence <$> latest l).
Proof.
  induction l as [|c l IH] using rev_ind; [done|]. intros [Hl Hc]%Forall_app. rewrite Forall_singleton in Hc.
  unfold observe_echoes, latest in *. rewrite !foldl_app. cbn [foldl]. rewrite (IH Hl), observe_no_rollback by exact Hc.
  set (best := foldl _ None l) in *. cbn [ec_applied].
  destruct (echo_commits (cp_state c)); [|done]. destruct best as [b|]; [|done].
  cbn.
  destruct (Z.ltb_spec (cp_sequence b) (cp_sequence c)); destruct (Z.leb_spec (cp_sequence c) (cp_sequence b)); try lia; by cbn [negb].
Qed.

(** C20: the echo does not depend on the order in which the ends of reconciles
    are noticed: when none of them was rolled back, the type shown afterwards is
    that of the reconcile that committed last in the order of execution,
    whatever the watchers' order, and what was shown before when none
    committed. *)
Theorem echo_follows_execution_order (requested : option CoreType) (l : list Completion)
    (Hnone : Forall (λ c, rolled_back (cp_state c) = false) l) :
  ec_requested (observe_echoes l (mkEcho requested None))
    = (if latest l is Some c then Some (cp_type c) else requested)
  ∧ is_latest l (latest l).
Proof. split; [by rewrite observe_echoes_ok|apply latest_ok]. Qed.

(** A reconcile that commits one type, and a later one that is rolled back to
    it. *)
Definition some_revision : ConfigRevision := mkRevision 1 1 "s" "e" "/run/core-1.yaml".
Definition committed (sequence : Z) (t : CoreType) : Completion :=
  mkCompletion sequence t (Succeeded (Reconciled (Switched some_revision))).
Definition undone (sequence : Z) (t : CoreType) : Completion :=
  mkCompletion sequence t (Succeeded (Reconciled (RolledBack some_revision "rejected"))).

(** Noticed in the order of execution, the echo is the committed type.  Noticed
    the other way round, the rollback has taken the later sequence, the commit is
    discarded, and the echo keeps the type from before both. *)
Lemma rollback_hides_an_earlier_commit (old new other : CoreType) :
  let echo := mkEcho (Some old) None in
  ec_requested (observe_echoes [committed 1 new; undone 2 other] echo) = Some new
  ∧ ec_requested (observe_echoes [undone 2 other; committed 1 new] echo) = Some old.
Proof. done. Qed.

(** A start of the first protocol takes no sequence: a commit noticed late
    overwrites the type it showed. *)
Lemma late_commit_overwrites_a_start (started earlier : CoreType) (requested : option CoreType) :
  ec_requested (observe_echo (committed 1 earlier)
                  (publish_requested_core (Some started) (mkEcho requested None))) = Some earlier.
Proof. done. Qed.

(** * Projections *)

(** The revision and the warnings an operation's answer carries. *)
Lemma outcome_core_revision o : outcome_revision (outcome_core o) = outcome_revision o.
Proof. by induction o. Qed.

Lemma map_reconcile_outcome_ok o :
  ∃ i, map_reconcile_outcome o = Some i
    ∧ oi_revision i = map_revision (outcome_revision o)
    ∧ oi_warning i = (if outcome_warnings o is [] then None else Some (join "; " (outcome_warnings o)))
    ∧ (is_Some (oi_failed_apply i) ↔ oi_outcome i = KRolledBack)
    ∧ (oi_outcome i = KRolledBack ↔ echo_commits (Succeeded (Reconciled o)) = false).
Proof.
  unfold map_reconcile_outcome, echo_commits. rewrite <- (outcome_core_revision o).
  assert (Hcore : ∀ p w, outcome_core o ≠ ADurabilityUncertain p w) by (induction o; done).
  destruct (outcome_core o) as [r|r|r|r|r|r|r failed|p w] eqn:E; [..|by destruct (Hcore p w)];
    (eexists; split; [reflexivity|]); cbn; (split_and!; [done|by destruct (outcome_warnings o)| |]); split; try done; by intros [].
Qed.

(** the registry's view of an operation survives the wire: the projection
    never fails, keeps the id (its text parses back to it), gives an output
    exactly for a success and an error exactly for a failure, and reports for a
    reconcile the revision that is installed, with every warning, as rolled back
    exactly when the requested type was not committed. *)
Theorem operation_info_is_faithful (id : OperationId) (s : OperationState) (Hid : operation_id_ok id) :
  ∃ info, map_operation id s = Some info
    ∧ operation_id_from_str (on_id info) = Ok id
    ∧ (is_Some (on_output info) ↔ on_phase info = PSucceeded)
    ∧ (is_Some (on_error info) ↔ on_phase info = PFailed)
    ∧ (∀ outcome, s = Succeeded (Reconciled outcome) →
        ∃ i, on_output info = Some (IReconciled i)
          ∧ oi_revision i = map_revision (outcome_revision outcome)
          ∧ oi_warning i = (if outcome_warnings outcome is [] then None else Some (join "; " (outcome_warnings outcome)))
          ∧ (oi_outcome i = KRolledBack ↔ echo_commits s = false)).
Proof.
  assert (Hparse : operation_id_from_str (operation_id_display id) = Ok id) by (by apply operation_id_parse_display).
  destruct s as [| |output|e]; cbn [map_operation].
  - eexists; split; [reflexivity|]. cbn. split_and!; [done|split; [by intros []|done]|split; [by intros []|done]|done].
  - eexists; split; [reflexivity|]. cbn. split_and!; [done|split; [by intros []|done]|split; [by intros []|done]|done].
  - destruct output as [outcome| | |].
    + destruct (map_reconcile_outcome_ok outcome) as (i & Hi & Hrev & Hw & _ & Hroll). cbn [map_operation_output]. rewrite Hi.
      cbn. eexists; split; [reflexivity|]. cbn. split_and!; [done|by split; eauto|split; [by intros []|done]|].
      intros o [= <-]. eauto.
    + cbn. eexists; split; [reflexivity|]. cbn. split_and!; [done|by split; eauto|split; [by intros []|done]|done].
    + cbn. eexists; split; [reflexivity|]. cbn. split_and!; [done|by split; eauto|split; [by intros []|done]|done].
    + cbn. eexists; split; [reflexivity|]. cbn. split_and!; [done|by split; eauto|split; [by intros []|done]|done].
  - eexists; split; [reflexivity|]. cbn. split_and!; [done|split; [by intros []|done]|by split; eauto|done].
Qed.

(** the revision a client reads off a status is the token the manager
    compares: sent back as the expected revision it names the same epoch,
    generation and effective hash, and two revisions give the same token exactly
    when the manager takes them for the same. *)
Theorem revision_token_roundtrip (r r' : ConfigRevision) (Hr : epoch_ok (cr_epoch r)) (Hr' : epoch_ok (cr_epoch r')) :
  map_revision_id (revision_info_id (map_revision r)) = Ok (revision_id r)
  ∧ (map_revision_id (revision_info_id (map_revision r)) = map_revision_id (revision_info_id (map_revision r'))
     ↔ revision_id r = revision_id r').
Proof.
  assert (H : ∀ x, epoch_ok (cr_epoch x) → map_revision_id (revision_info_id (map_revision x)) = Ok (revision_id x)).
  { intros x Hx. unfold map_revision_id, epoch_new, epoch_ok in *. cbn. destruct (Z.eqb_spec (cr_epoch x) 0); [lia|done]. }
  rewrite !H by done. split; [done|]. split; congruence.
Qed.

(** An id of 32 hexadecimal characters without dashes is not an operation id. *)
Lemma plain_hex_id_is_refused : operation_id_from_str "00112233445566778899aabbccddeeff" = Err mkParseOperationIdError.
Proof. vm_compute. reflexivity. Qed.

(** * A concrete adapter *)

#[export] Instance sim_wire : WireHost := {|
  executable_name t := match t with Clash _ => "mihomo" | SingBox => "sing-box" end;
  core_type_text t := match t with Clash _ => "clash" | SingBox => "sing-box" end;
  without_credentials url := url;
|}.

Lemma echo_follows_execution_order_witness :
  ec_requested (observe_echoes [committed 2 SingBox; committed 1 (Clash CMeow)] (mkEcho None None)) = Some SingBox.
Proof.
  refine (proj1 (echo_follows_execution_order None [committed 2 SingBox; committed 1 (Clash CMeow)] _)).
  by repeat constructor.
Defined.

Lemma operation_info_is_faithful_witness :
  ∃ info, map_operation (mkOperationId 1 2 3) (Succeeded (Reconciled (ADurabilityUncertain (Noop some_revision) "fsync")))
          = Some info
    ∧ operation_id_from_str (on_id info) = Ok (mkOperationId 1 2 3).
Proof.
  destruct (operation_info_is_faithful (mkOperationId 1 2 3)
    (Succeeded (Reconciled (ADurabilityUncertain (Noop some_revision) "fsync")))) as (info & Hi & Hp & _).
  { unfold operation_id_ok, is_u64, is_u32, u64_max, u32_max. cbn. lia. }
  exists info. exact (conj Hi Hp).
Defined.

Lemma revision_token_roundtrip_witness :
  map_revision_id (revision_info_id (map_revision some_revision)) = Ok (revision_id some_revision).
Proof.
  refine (proj1 (revision_token_roundtrip some_revision some_revision _ _));
    unfold epoch_ok, is_u64, u64_max; cbn; lia.
Defined.
