(* ===== verification/BridgeSystem.v ===== *)
(** The service as a whole: the adapter's two protocols over the control plane
    and the manager.  Every run of the service is a run of the control plane
    composed with the manager ([Executor]), so what holds there holds here. *)
From S2P Require Import Prelude Text Paths Metadata Types Operation Control Health Yaml Diff Mihomo Config Capability RuntimeStore Runtime Manager ManagerSafety ManagerControl Simulation Runs ManagerProps Executor Bridge BridgeProps.
From Stdlib Require Import ZArith Lia.

Section service.
Context {WH : WireHost}.
Context {PL : ProcessLib} {YF : YamlFloat} {PC : PatchCodec}.
Context {YC : YamlCodec} {UL : UrlLib} {SV : Semver}.
Context {W : Type} {EN : Env W} {FS : RuntimeFs W} {BH : BinaryHost W} {SF : SourceFs W} {HB : BridgeHost W}.
Context {Q : Type} {MP : Mpsc Q} {EL : EnvLaws W} {SL : SourceFsLaws}.
Context (self : Inner) (context : ExecutorContext).

(** Documented behaviour: looking at the file system starts no process. *)
Class BridgeHostLaws := {
  path_exists_quiesces p : quiesces alive (path_exists p);
  canonicalize_path_quiesces p : quiesces alive (canonicalize_path p);
  canonicalize_utf8_quiesces p : quiesces alive (canonicalize_utf8 p);
  file_metadata_quiesces p : quiesces alive (file_metadata p);
}.
Context {HL : BridgeHostLaws}.

(** The part of the service the control plane and the manager are. *)
Definition system_of (s : Service (Q:=Q)) : System := mkSystem (sv_control s) (sv_manager s).

(** A step: a request of either protocol, the two ends of a shutdown, the end of
    a watched reconcile, or a step of the control plane and the manager. *)
Inductive svc_step (settings : LocalIpcSettings) : Service (Q:=Q) → Service (Q:=Q) → Prop :=
| svc_start infos t path s : svc_step settings s (service_start self infos t path s).2
| svc_stop s : svc_step settings s (service_stop self s).2
| svc_check slot infos t file s : svc_step settings s (service_check slot infos t file s).2
| svc_submit infos request s : svc_step settings s (submit_v2 settings infos request s).2
| svc_watch c s : svc_step settings s (set_echo (observe_echo c (sv_echo s)) s)
| svc_shutdown_begin s : svc_step settings s (service_shutdown_begin s).2
| svc_shutdown_latch s : sv_closing s = true → svc_step settings s (service_shutdown_latch s)
| svc_shutdown_end answer s : svc_step settings s (service_shutdown_end self answer s).2
| svc_system s sy :
    sys_step self context settings (system_of s) sy →
    svc_step settings s (mkService (sy_manager sy) (sy_control sy) (sv_echo s) (sv_closing s)).

Definition svc_booted (rc qc : nat) (s : Service (Q:=Q)) : Prop :=
  sys_booted rc qc (system_of s) ∧ sv_echo s = mkEcho None None ∧ sv_closing s = false.

Definition svc_reachable (settings : LocalIpcSettings) (rc qc : nat) (s : Service (Q:=Q)) : Prop :=
  ∃ s0, svc_booted rc qc s0 ∧ rtc (svc_step settings) s0 s.

(** * The simulation *)

(** What a computation does to the manager are steps of the manager. *)
Definition runs {A} (m : M Mgr A) : Prop := ∀ s, rtc (mgr_step self) s (m s).2.

Lemma runs_ret {A} (a : A) : runs (ret a).
Proof. intros s. apply rtc_refl. Qed.

Lemma runs_bind {A B} (m : M Mgr A) (k : A → M Mgr B) : runs m → (∀ a, runs (k a)) → runs (bind m k).
Proof.
  intros Hm Hk s. unfold bind. specialize (Hm s). destruct (m s) as [a s']. cbn in Hm.
  etrans; [exact Hm|]. apply Hk.
Qed.

Lemma runs_bind_ok {A B E} (m : M Mgr (result A E)) (k : A → M Mgr (result B E)) :
  runs m → (∀ a, runs (k a)) → runs (bind_ok m k).
Proof. intros Hm Hk. apply runs_bind; [done|]. intros [a|e]; [apply Hk|apply runs_ret]. Qed.

Lemma runs_lift {A} (m : M W A) : quiesces alive m → runs (lift m).
Proof.
  intros Hm s. unfold lift. specialize (Hm (mg_world s)). destruct (m (mg_world s)) as [a w]. cbn in *.
  apply rtc_once. by apply step_host.
Qed.

Lemma find_binary_path_runs infos t : runs (find_binary_path infos t).
Proof.
  unfold find_binary_path. apply runs_bind; [apply runs_lift, path_exists_quiesces|]. intros [|]; [apply runs_ret|].
  apply runs_bind; [apply runs_lift, path_exists_quiesces|]. intros [|]; apply runs_ret.
Qed.

Lemma instance_spec_runs infos t path : runs (instance_spec infos t path).
Proof.
  unfold instance_spec. destruct (in_nyanpasu_data_dir infos); [|apply runs_ret].
  apply runs_bind; [apply find_binary_path_runs|]. intros r. apply runs_ret.
Qed.

Lemma submit_command_runs infos c : runs (submit_command infos c).
Proof.
  destruct c; cbn [submit_command]; [|apply runs_ret..].
  apply runs_bind_ok; [apply instance_spec_runs|]. intros spec. apply runs_ret.
Qed.

(** A computation of the service that only touches the manager and the echo. *)
Definition svc_runs {A} (m : M (Service (Q:=Q)) A) : Prop :=
  ∀ s, rtc (mgr_step self) (sv_manager s) (sv_manager (m s).2)
    ∧ sv_control (m s).2 = sv_control s ∧ sv_closing (m s).2 = sv_closing s.

Lemma svc_runs_ret {A} (a : A) : svc_runs (ret a).
Proof. intros s. by split; [apply rtc_refl|]. Qed.
Lemma svc_runs_gets {A} (f : Service (Q:=Q) → A) : svc_runs (gets f).
Proof. intros s. by split; [apply rtc_refl|]. Qed.

Lemma svc_runs_bind {A B} (m : M (Service (Q:=Q)) A) (k : A → M (Service (Q:=Q)) B) :
  svc_runs m → (∀ a, svc_runs (k a)) → svc_runs (bind m k).
Proof.
  intros Hm Hk s. unfold bind. specialize (Hm s). destruct (m s) as [a s']. cbn in Hm.
  destruct Hm as (H1 & H2 & H3), (Hk a s') as (K1 & K2 & K3).
  split_and!; [by etrans|congruence..].
Qed.

Lemma svc_runs_manager {A} (m : M Mgr A) : runs m → svc_runs (on_manager m).
Proof. intros Hm s. unfold on_manager. specialize (Hm (sv_manager s)). by destruct (m (sv_manager s)). Qed.

Create HintDb service.
#[local] Hint Resolve svc_runs_ret svc_runs_gets svc_runs_manager runs_lift instance_spec_runs
  canonicalize_utf8_quiesces canonicalize_path_quiesces file_metadata_quiesces path_exists_quiesces
  check_config_quiesces runs_ret : service.

Lemma start_runs spec : runs (start self spec).
Proof. intros s. apply rtc_once, step_start. Qed.
Lemma stop_runs : runs (stop self).
Proof. intros s. apply rtc_once, step_stop. Qed.
Lemma shutdown_runs : runs (shutdown self).
Proof. intros s. apply rtc_once, step_shutdown. Qed.
#[local] Hint Resolve start_runs stop_runs shutdown_runs : service.

Lemma service_start_runs infos t path : svc_runs (service_start self infos t path).
Proof.
  unfold service_start. apply svc_runs_bind; [auto with service|]. intros [|]; [auto with service|].
  apply svc_runs_bind; [auto with service|]. intros [path'|e]; [|auto with service].
  apply svc_runs_bind; [auto with service|]. intros [?|e]; [|auto with service].
  apply svc_runs_bind; [auto with service|]. intros st. destruct (co_state st); auto with service.
  apply svc_runs_bind; [auto with service|]. intros [spec|e]; [|auto with service].
  apply svc_runs_bind; [auto with service|]. intros [?|e]; [|auto with service].
  apply svc_runs_bind; [|auto with service]. intros s. by split; [apply rtc_refl|].
Qed.

Lemma service_stop_runs : svc_runs (service_stop self).
Proof.
  unfold service_stop. apply svc_runs_bind; [auto with service|]. intros [|]; [auto with service|].
  apply svc_runs_bind; auto with service.
Qed.

Lemma service_check_runs slot infos t file : svc_runs (service_check slot infos t file).
Proof.
  unfold service_check. apply svc_runs_bind; [auto with service|]. intros [|]; [auto with service|].
  destruct (negb slot); [auto with service|]. apply svc_runs_manager.
  apply runs_bind_ok.
  - apply runs_bind; auto with service.
  - intros path. apply runs_bind_ok; [auto with service|]. intros spec. apply runs_bind; auto with service.
Qed.

Lemma service_shutdown_end_runs answer : svc_runs (service_shutdown_end self answer).
Proof.
  unfold service_shutdown_end. apply svc_runs_bind; [auto with service|]. intros closed.
  destruct answer as [[?|e]|]; [auto with service| |auto with service].
  destruct closed; [|auto with service]. apply svc_runs_bind; auto with service.
Qed.

(** Steps of the manager are steps of the system. *)
Lemma mgr_steps_sys settings c m m' :
  rtc (mgr_step self) m m' → rtc (sys_step self context settings) (mkSystem c m) (mkSystem c m').
Proof.
  induction 1 as [|x y z Hxy _ IH]; [apply rtc_refl|]. eapply rtc_l; [|exact IH]. by apply sys_manager.
Qed.

Lemma svc_runs_sys {A} settings (m : M (Service (Q:=Q)) A) s :
  svc_runs m → rtc (sys_step self context settings) (system_of s) (system_of (m s).2).
Proof.
  intros Hm. destruct (Hm s) as (H1 & H2 & _). unfold system_of. rewrite H2. by apply mgr_steps_sys.
Qed.

Lemma submit_v2_sys settings infos request s :
  rtc (sys_step self context settings) (system_of s) (system_of (submit_v2 settings infos request s).2).
Proof.
  unfold submit_v2. destruct (operation_id_from_str _) as [id|e]; [|apply rtc_refl].
  unfold bind, on_manager. pose proof (submit_command_runs infos (sq_command request) (sv_manager s)) as Hr.
  destruct (submit_command infos (sq_command request) (sv_manager s)) as [[[command echoed]|e] m']; cbn in Hr.
  - pose proof (sys_submit self context settings (sv_control s) m' id command) as Hs. cbn [sv_control].
    destruct (submit settings id command (sv_control s)) as [[handle|err] c]; cbn in Hs |- *;
      (eapply rtc_r; [by apply mgr_steps_sys|exact Hs]).
  - by apply mgr_steps_sys.
Qed.

Lemma svc_step_sys settings s s' :
  svc_step settings s s' → rtc (sys_step self context settings) (system_of s) (system_of s').
Proof.
  destruct 1 as [infos t path s|s|slot infos t file s|infos request s|c s|s|s _|answer s|s sy Hsy].
  - apply svc_runs_sys, service_start_runs.
  - apply svc_runs_sys, service_stop_runs.
  - apply svc_runs_sys, service_check_runs.
  - apply submit_v2_sys.
  - apply rtc_refl.
  - unfold service_shutdown_begin. destruct (sv_closing s); apply rtc_refl.
  - apply rtc_once, sys_latch.
  - apply svc_runs_sys, service_shutdown_end_runs.
  - destruct sy as [c m]. by apply rtc_once.
Qed.

Lemma svc_reachable_sys settings rc qc s :
  svc_reachable settings rc qc s → sys_reachable self context settings rc qc (system_of s).
Proof.
  intros (s0 & [Hb _] & Hs). exists (system_of s0). split; [done|]. clear Hb.
  induction Hs as [|x y z Hxy _ IH]; [apply rtc_refl|]. etrans; [by apply svc_step_sys|done].
Qed.


(** * The latches *)
Lemma submit_closing settings id command c :
  ct_closing c = true → submit settings id command c = (Err (shutting_down_error "the control plane is shutting down" id), c).
Proof. intros Hc. unfold submit. by rewrite Hc. Qed.

Lemma submit_v2_closing settings infos request s :
  ct_closing (sv_control s) = true →
  ∃ e s', submit_v2 settings infos request s = (Err e, s') ∧ sv_control s' = sv_control s.
Proof.
  intros Hc. unfold submit_v2. destruct (operation_id_from_str _) as [id|e]; [|by eexists _, _].
  unfold bind, on_manager. destruct (submit_command infos (sq_command request) (sv_manager s)) as [[[command echoed]|e] m'];
    [|by eexists _, _].
  cbn [sv_control]. rewrite submit_closing by done. by eexists _, _.
Qed.

Lemma submit_v2_latch settings infos request s :
  sv_closing (submit_v2 settings infos request s).2 = sv_closing s.
Proof.
  unfold submit_v2. destruct (operation_id_from_str _); [|done]. unfold bind, on_manager.
  destruct (submit_command _ _ _) as [[[command echoed]|e] m']; [|done].
  cbn [sv_control]. by destruct (submit _ _ _ _) as [[?|?] ?].
Qed.

(** What a step of the control plane does once its latch is down. *)
Definition only_shutdown (c c' : Control (Q:=Q)) : Prop :=
  ct_closing c' = true ∧ ∀ w, ct_running c' = Some w → ct_running c = Some w ∨ ew_command w = Shutdown.

Lemma only_shutdown_refl c c' : sv_control c = sv_control c' → ct_closing (sv_control c) = true →
  only_shutdown (sv_control c) (sv_control c').
Proof. intros <- Hc. split; [done|]. intros w Hw. by left. Qed.

Lemma step_only_shutdown settings c c' : step settings c c' → ct_closing c = true → only_shutdown c c'.
Proof. intros Hs Hc. by apply (latch_blocks_new_work settings). Qed.

Lemma sys_step_control settings sy sy' :
  sys_step self context settings sy sy' → sy_control sy' = sy_control sy ∨ step settings (sy_control sy) (sy_control sy').
Proof.
  destruct 1 as [c m id command|c m|c m id ???|c m ??|c m work Hrun Hex|c m ???|c m id request|c m m' Hm];
    [right; by constructor..|right| right; by constructor|by left|by left].
  pose proof (step_finish settings c work) as Hf.
  destruct (execute _ _ _ _ _) as [r m']. by apply Hf.
Qed.

(** Both latches stay down, and below them only a shutdown begins. *)
Lemma svc_step_latched settings s s' :
  sv_closing s = true → svc_step settings s s' →
  sv_closing s' = true ∧ (ct_closing (sv_control s) = true → only_shutdown (sv_control s) (sv_control s')).
Proof.
  intros Hclosing Hstep. split.
  - destruct Hstep as [infos t path s|s|slot infos t file s|infos request s|c s|s|s _|answer s|s sy Hsy]; try done.
    + by destruct (service_start_runs infos t path s) as (_ & _ & ->).
    + by destruct (service_stop_runs s) as (_ & _ & ->).
    + by destruct (service_check_runs slot infos t file s) as (_ & _ & ->).
    + by rewrite submit_v2_latch.
    + unfold service_shutdown_begin. by rewrite Hclosing.
    + by destruct (service_shutdown_end_runs answer s) as (_ & _ & ->).
  - intros Hcc.
    destruct Hstep as [infos t path s|s|slot infos t file s|infos request s|c s|s|s _|answer s|s sy Hsy].
    + apply only_shutdown_refl; [|done]. by destruct (service_start_runs infos t path s) as (_ & -> & _).
    + apply only_shutdown_refl; [|done]. by destruct (service_stop_runs s) as (_ & -> & _).
    + apply only_shutdown_refl; [|done]. by destruct (service_check_runs slot infos t file s) as (_ & -> & _).
    + apply only_shutdown_refl; [|done]. destruct (submit_v2_closing settings infos request s Hcc) as (e & s1 & Heq & Hsame). by rewrite Heq.
    + by apply only_shutdown_refl.
    + apply only_shutdown_refl; [|done]. unfold service_shutdown_begin. by rewrite Hclosing.
    + split; [done|]. by left.
    + apply only_shutdown_refl; [|done]. by destruct (service_shutdown_end_runs answer s) as (_ & -> & _).
    + destruct (sys_step_control _ _ _ Hsy) as [He|He]; cbn in He.
      * cbn. rewrite He. split; [done|]. by left.
      * by eapply step_only_shutdown.
Qed.

(** C26: a shutdown is final: from the moment the first protocol's latch is down,
    its start, stop and check answer that the service is shutting down and change
    nothing; once the control plane's latch is down too, every submission is
    refused without touching it, and whatever step the service takes, both
    latches stay down and no operation begins but a shutdown. *)
Theorem shutdown_is_latched (settings : LocalIpcSettings) (s s' : Service (Q:=Q))
    (Hclosing : sv_closing s = true) (Hstep : svc_step settings s s') :
  (∀ infos t path, service_start self infos t path s = (Err SHUTTING_DOWN, s))
  ∧ service_stop self s = (Err SHUTTING_DOWN, s)
  ∧ (∀ slot infos t file, service_check slot infos t file s = (Err (op_plain SHUTTING_DOWN), s))
  ∧ sv_closing s' = true
  ∧ (ct_closing (sv_control s) = true →
      only_shutdown (sv_control s) (sv_control s')
      ∧ ∀ infos request, ∃ e s1, submit_v2 settings infos request s = (Err e, s1) ∧ sv_control s1 = sv_control s).
Proof.
  assert (Hget : ∀ A (k : bool → M Service A), bind (gets sv_closing) k s = k true s)
    by (intros A k; unfold bind, gets; by rewrite Hclosing).
  split_and!; [intros; apply Hget|apply Hget|intros; apply Hget| |].
  - by eapply svc_step_latched.
  - intros Hcc. split; [by eapply svc_step_latched|intros; by apply submit_v2_closing].
Qed.

(** * Submitting and asking *)
Lemma submit_registered settings id command c h c' :
  submit settings id command c = (Ok h, c') →
  oh_id h = id ∧ is_Some (rg_operations (ct_registry c') !! id)
  ∧ (is_Some (rg_operations (ct_registry c) !! id) → oh_newly_admitted h = false ∧ ct_registry c' = ct_registry c).
Proof.
  unfold submit. destruct (ct_closing c); [done|]. unfold registry_admit.
  destruct (rg_operations (ct_registry c) !! id) as [ex|] eqn:Eid.
  - destruct (String.eqb _ _); [|done]. intros [= <- <-]. cbn. rewrite Eid. eauto.
  - destruct (try_send _ _) as [[e|] p]; [done|]. intros [= <- <-]. cbn. rewrite lookup_insert_eq. split_and!; [done|eauto|].
    by intros [].
Qed.

Lemma submit_v2_ok settings infos request s info watch s' :
  submit_v2 settings infos request s = (Ok (info, watch), s') →
  ∃ id command h echoed, operation_id_from_str (sq_operation_id request) = Ok id
    ∧ submit settings id command (sv_control s) = (Ok h, sv_control s')
    ∧ info = (registry_get id (ct_registry (sv_control s')) ≫= map_operation id)
    ∧ watch = (if echoed is Some t then if oh_newly_admitted h then Some (id, oh_sequence h, t) else None else None).
Proof.
  unfold submit_v2. destruct (operation_id_from_str _) as [id|e]; [|done]. unfold bind, on_manager.
  destruct (submit_command _ _ _) as [[[command echoed]|e] m']; [|done].
  cbn [sv_control]. destruct (submit _ _ _ _) as [[h|e] c] eqn:Es; [|done]. intros [= <- <- <-].
  pose proof (submit_registered _ _ _ _ _ _ Es) as (Hid & _). rewrite Hid in *.
  exists id, command, h, echoed. by split_and!.
Qed.

(** a submission that is accepted can be asked about at once: the answer it
    gives is the one a query for the same id gives next; and every further
    submission under that id that is accepted gives the same answer and leaves
    no second watcher behind. *)
Theorem submitted_operation_is_found (settings : LocalIpcSettings) (infos : RuntimeInfos) (request : CoreSubmitReq)
    (s s' : Service (Q:=Q)) (info : option OperationInfo) (watch : option (OperationId * Z * CoreType))
    (Hsubmit : submit_v2 settings infos request s = (Ok (info, watch), s')) :
  is_Some info
  ∧ (∀ wait, operation_v2 (mkOperationReq (sq_operation_id request) wait) s' = Ok info)
  ∧ ∀ request' info' watch' s'', sq_operation_id request' = sq_operation_id request →
      submit_v2 settings infos request' s' = (Ok (info', watch'), s'') → info' = info ∧ watch' = None.
Proof.
  apply submit_v2_ok in Hsubmit as (id & command & h & echoed & Hid & Hs & -> & _).
  apply submit_registered in Hs as (_ & [op Hop] & _).
  assert (Hget : registry_get id (ct_registry (sv_control s')) = Some (ro_state op)).
  { unfold registry_get. by rewrite Hop. }
  rewrite Hget. cbn [mbind option_bind]. split_and!.
  - destruct (ro_state op) as [| |[o| | |]|]; cbn; try (by eexists).
    destruct (map_reconcile_outcome_ok o) as (i & -> & _). by eexists.
  - intros wait. unfold operation_v2. cbn [oq_operation_id]. by rewrite Hid, Hget.
  - intros request' info' watch' s'' Heq H2.
    apply submit_v2_ok in H2 as (id2 & command2 & h2 & echoed2 & Hid2 & Hs2 & -> & ->).
    rewrite Heq, Hid in Hid2. injection Hid2 as <-.
    apply submit_registered in Hs2 as (_ & _ & Hold). destruct Hold as [-> ->]; [by eexists|].
    rewrite Hget. split; [done|]. by destruct echoed2.
Qed.
End service.

(** * A concrete run *)

#[export] Instance sim_bridge : BridgeHost Sim := {|
  path_exists p := ret (match p with PathText p => negb (String.eqb p "/data/sing-box") | PathBytes _ => false end);
  canonicalize_path p := ret (Ok (PathText p));
  canonicalize_utf8 p := ret (Ok p);
  file_metadata _ := ret (Ok ());
|}.

#[export] Instance sim_bridge_laws : BridgeHostLaws (W:=Sim).
Proof. split; intros; intros w i; cbn; exact (λ H, H). Qed.

Module demo_service.
Definition infos : RuntimeInfos := mkInfos (PathText "/svc") (PathText "/svc/config") (PathText "/config") (PathText "/data") (PathText "/app").
Definition booted_service : Service (Q:=ListQueue) :=
  mkService sim_booted (control_spawn 4 2) (mkEcho None None) false.
(** A start of the first protocol. *)
Definition started : Service :=
  (service_start sim_self infos (Clash CMihomoAlpha) "/etc/a.yaml" booted_service).2.
(** Both latches are down. *)
Definition closing : Service := service_shutdown_latch (service_shutdown_begin started).2.
Definition request (t : CoreType) : CoreSubmitReq :=
  mkSubmitReq (operation_id_display (demo.opid 1)) (CReconcile None t "rule" None None).
Definition submitted : result (option OperationInfo * option (OperationId * Z * CoreType)) OpError * Service :=
  submit_v2 demo_system.settings infos (request (Clash CMeow)) booted_service.

Lemma service_boots : svc_booted 4 2 booted_service.
Proof.
  split; [|done]. split; [reflexivity|]. exists 0%Z, 0%Z, false, sim_world. split; [|reflexivity].
  by intros i ?%elem_of_nil.
Qed.

Lemma started_reachable : svc_reachable sim_self demo_system.context demo_system.settings 4 2 started.
Proof. exists booted_service. split; [exact service_boots|]. apply rtc_once, svc_start. Qed.

(** The service shows the type that was asked for. *)
Example started_status :
  (ci_type (service_status started), ci_state (service_status started)) = (Some (Clash CMihomoAlpha), WRunning).
Proof. vm_compute. reflexivity. Qed.

(** A type no core runs is refused before anything is admitted. *)
Example sing_box_refused :
  (submit_v2 demo_system.settings infos (request SingBox) booted_service).1
  = Err (op_plain "sing-box is not a supported core").
Proof. vm_compute. reflexivity. Qed.
End demo_service.


Lemma shutdown_is_latched_witness :
  (service_stop sim_self demo_service.closing) = (Err SHUTTING_DOWN, demo_service.closing).
Proof.
  refine (proj1 (proj2 (shutdown_is_latched sim_self demo_system.context demo_system.settings
           demo_service.closing (service_shutdown_latch demo_service.closing) eq_refl _))).
  apply svc_shutdown_latch. reflexivity.
Defined.

Lemma accepted_parts {A B E S} (r : result (A * B) E * S) :
  (if r.1 is Ok _ then true else false) = true → ∃ a b s, r = (Ok (a, b), s).
Proof. destruct r as [[[a b]|e] s]; [by eauto|done]. Qed.

Lemma submitted_operation_is_found_witness :
  ∃ info watch s', demo_service.submitted = (Ok (info, watch), s')
    ∧ operation_v2 (mkOperationReq (sq_operation_id (demo_service.request (Clash CMeow))) None) s' = Ok info.
Proof.
  destruct (accepted_parts demo_service.submitted) as (info & watch & s' & E); [vm_compute; reflexivity|].
  exists info, watch, s'. split; [exact E|].
  exact (proj1 (proj2 (submitted_operation_is_found demo_system.settings demo_service.infos
           (demo_service.request (Clash CMeow)) demo_service.booted_service s' info watch E)) None).
Defined.
