(* ===== verification/Events.v ===== *)
(** The event stream of the service, from the manager's status to the sockets
    (nyanpasu-service-runtime: server/events.rs, server/routing/ws.rs, and the
    two loops of server/manager_bridge.rs, [status_bridge] and the log bridge of
    [spawn_bridges]).

    The broadcast channel is [tokio]'s ([Broadcast]); the encoding of an event is
    [simd_json]'s.  A [watch] channel is its value and, per receiver, whether the
    value is unseen.  The tasks interleave: reading the manager's status, reading
    the echo and sending are separate steps of [status_bridge], and subscribing
    and reading the snapshot are separate steps of a connection. *)
From S2P Require Import Prelude Text Paths Metadata Types Operation Control Health Yaml Diff Mihomo Config Capability RuntimeStore Runtime Log Manager Bridge.
From Stdlib Require Import ZArith Lia.

(** * The rings *)

Inductive RecvResult (A : Type) := Received (a : A) | Lagged (skipped : nat) | Waiting.
Arguments Received {A} a.
Arguments Lagged {A} skipped.
Arguments Waiting {A}.

(** A bounded broadcast ring and its receivers.  [Waiting] is a pending [recv]. *)
Class Broadcast (A : Type) := {
  Ring : Type;
  Rx : Type;
  ring_new : nat → Ring;
  ring_send : A → Ring → Ring;
  ring_subscribe : Ring → Rx;
  ring_recv : Rx → Ring → RecvResult A * Rx;
}.

Definition EVENT_CHANNEL_CAPACITY : nat := 256.
Definition LOG_EVENT_CHANNEL_CAPACITY : nat := 1024.

Section events.
Context {WH : WireHost}.
Context {BE : Broadcast WsEvent} {BL : Broadcast LogFrame}.
(** Whether [simd_json::to_vec] succeeds. *)
Context (encodes : WsEvent → bool).

(** [EventHub]. *)
Record EventHub := mkHub { hub_tx : Ring (A:=WsEvent); hub_log_tx : Ring (A:=LogFrame) }.

Definition hub_new : EventHub := mkHub (ring_new EVENT_CHANNEL_CAPACITY) (ring_new LOG_EVENT_CHANNEL_CAPACITY).
Definition hub_send (e : WsEvent) (h : EventHub) : EventHub := mkHub (ring_send e (hub_tx h)) (hub_log_tx h).
Definition hub_send_log (f : LogFrame) (h : EventHub) : EventHub := mkHub (hub_tx h) (ring_send f (hub_log_tx h)).
Definition hub_sends (l : list WsEvent) (h : EventHub) : EventHub := foldl (λ h e, hub_send e h) h l.

(** * A connection (ws.rs) *)

Inductive Next := NSend (e : WsEvent) | NLog (f : LogFrame) | NStatusLag (skipped : nat) | NLogLag (skipped : nat) | NClosed.

(** Where the sender of a connection is: before [send_snapshot], at the
    [select!] of its loop, or gone. *)
Inductive Phase := Snapshot | Live | Gone.

(** The two receivers, the frames written so far, and the phase. *)
Record Conn := mkConn {
  cn_events : Rx (A:=WsEvent);
  cn_logs : Rx (A:=LogFrame);
  cn_frames : list WsEvent;
  cn_phase : Phase;
}.

(** [handle_socket], up to its snapshot. *)
Definition connect (h : EventHub) : Conn :=
  mkConn (ring_subscribe (hub_tx h)) (ring_subscribe (hub_log_tx h)) [] Snapshot.

Definition set_phase (p : Phase) (c : Conn) : Conn := mkConn (cn_events c) (cn_logs c) (cn_frames c) p.

(** [send_event]: what cannot be encoded is skipped; [written] says whether the
    socket took the frame. *)
Definition send_event (written : bool) (e : WsEvent) (c : Conn) : Conn :=
  if encodes e then
    if written then mkConn (cn_events c) (cn_logs c) (cn_frames c ++ [e]) Live else set_phase Gone c
  else set_phase Live c.

(** [send_snapshot]. *)
Definition send_snapshot (written : bool) (status : CoreInfos) (c : Conn) : Conn :=
  send_event written (CoreStatusChanged status) c.

(** The branch of the [select!] that is ready, and what it yields; [closed] says
    that the hub is gone. *)
Inductive Branch := FromEvents | FromLogs.

Definition select_next (b : Branch) (closed : bool) (h : EventHub) (c : Conn) : option Next * Conn :=
  match b with
  | FromEvents =>
      let '(r, rx) := ring_recv (cn_events c) (hub_tx h) in
      let c := mkConn rx (cn_logs c) (cn_frames c) (cn_phase c) in
      match r with
      | Received e => (Some (NSend e), c)
      | Lagged n => (Some (NStatusLag n), c)
      | Waiting => (if closed then Some NClosed else None, c)
      end
  | FromLogs =>
      let '(r, rx) := ring_recv (cn_logs c) (hub_log_tx h) in
      let c := mkConn (cn_events c) rx (cn_frames c) (cn_phase c) in
      match r with
      | Received f => (Some (NLog f), c)
      | Lagged n => (Some (NLogLag n), c)
      | Waiting => (if closed then Some NClosed else None, c)
      end
  end.

(** What the loop does with it. *)
Definition apply_next (written : bool) (h : EventHub) (n : Next) (c : Conn) : Conn :=
  match n with
  | NSend e => send_event written e c
  | NLog f => send_event written (CoreLog f) c
  | NStatusLag _ => mkConn (ring_subscribe (hub_tx h)) (cn_logs c) (cn_frames c) Snapshot
  | NLogLag _ => mkConn (cn_events c) (ring_subscribe (hub_log_tx h)) (cn_frames c) Live
  | NClosed => set_phase Gone c
  end.

(** A turn of the sender: its snapshot, or one round of its loop. *)
Definition sender_turn (b : Branch) (written closed : bool) (status : CoreInfos) (h : EventHub) (c : Conn) : Conn :=
  match cn_phase c with
  | Snapshot => send_snapshot written status c
  | Live =>
      let '(n, c) := select_next b closed h c in
      match n with Some n => apply_next written h n c | None => c end
  | Gone => c
  end.

(** * The whole stream *)

(** Where [status_bridge] is: at its [select!], or between reading the manager's
    status and sending, in either arm. *)
Inductive BridgePos := BIdle | BState (raw : CoreStatus) | BEcho (raw : CoreStatus).

Record Stream := mkStream {
  sr_raw : CoreStatus;
  sr_requested : option CoreType;
  sr_states_changed : bool;
  sr_echo_changed : bool;
  sr_bridge : BridgePos;
  sr_last : WireState;
  sr_hub : EventHub;
  sr_conns : list Conn;
}.

(** [spawn_bridges], on a fresh hub. *)
Definition stream_new (raw : CoreStatus) (requested : option CoreType) : Stream :=
  mkStream raw requested false false BIdle (map_core_state (co_state raw)) hub_new [].

Definition stream_status (s : Stream) : CoreInfos := project_core_infos (sr_raw s) (sr_requested s).

(** The manager publishes a status; the adapter publishes the echo. *)
Definition publish_status (raw : CoreStatus) (s : Stream) : Stream :=
  mkStream raw (sr_requested s) true (sr_echo_changed s) (sr_bridge s) (sr_last s) (sr_hub s) (sr_conns s).
Definition publish_echo (requested : option CoreType) (s : Stream) : Stream :=
  mkStream (sr_raw s) requested (sr_states_changed s) true (sr_bridge s) (sr_last s) (sr_hub s) (sr_conns s).

(** [status_bridge] wakes: [borrow_and_update] in the first arm, [borrow] in the
    second. *)
Definition bridge_wake_state (s : Stream) : Stream :=
  mkStream (sr_raw s) (sr_requested s) false (sr_echo_changed s) (BState (sr_raw s)) (sr_last s) (sr_hub s) (sr_conns s).
Definition bridge_wake_echo (s : Stream) : Stream :=
  mkStream (sr_raw s) (sr_requested s) (sr_states_changed s) (sr_echo_changed s) (BEcho (sr_raw s)) (sr_last s)
    (sr_hub s) (sr_conns s).

(** The rest of the round: the echo is read and marked as seen, and the events
    are sent. *)
Definition bridge_emit (s : Stream) : Stream :=
  match (match sr_bridge s with
         | BIdle => None
         | BState raw => Some (RState raw (sr_requested s))
         | BEcho raw => Some (REcho raw (sr_requested s))
         end) with
  | None => s
  | Some r =>
      let '(events, last) := bridge_round r (sr_last s) in
      mkStream (sr_raw s) (sr_requested s) (sr_states_changed s) false BIdle last (hub_sends events (sr_hub s)) (sr_conns s)
  end.

Definition set_hub (h : EventHub) (s : Stream) : Stream :=
  mkStream (sr_raw s) (sr_requested s) (sr_states_changed s) (sr_echo_changed s) (sr_bridge s) (sr_last s) h (sr_conns s).
Definition set_conns (l : list Conn) (s : Stream) : Stream :=
  mkStream (sr_raw s) (sr_requested s) (sr_states_changed s) (sr_echo_changed s) (sr_bridge s) (sr_last s) (sr_hub s) l.

(** [has_log_subscribers]: a connection that is not gone holds a receiver. *)
Definition has_log_subscribers (s : Stream) : bool :=
  existsb (λ c, match cn_phase c with Gone => false | _ => true end) (sr_conns s).

(** The log bridge, on one frame. *)
Definition forward_frame (f : LogFrame) (s : Stream) : Stream :=
  if has_log_subscribers s then set_hub (hub_send_log f (sr_hub s)) s else s.

(** A connection is accepted, takes a turn, or is dropped by its peer. *)
Definition accept (s : Stream) : Stream := set_conns (sr_conns s ++ [connect (sr_hub s)]) s.
Definition conn_turn (i : nat) (b : Branch) (written closed : bool) (s : Stream) : Stream :=
  set_conns (alter (sender_turn b written closed (stream_status s) (sr_hub s)) i (sr_conns s)) s.
Definition hang_up (i : nat) (s : Stream) : Stream := set_conns (alter (set_phase Gone) i (sr_conns s)) s.

Inductive stream_step : Stream → Stream → Prop :=
| st_publish_status raw s : stream_step s (publish_status raw s)
| st_publish_echo requested s : stream_step s (publish_echo requested s)
| st_wake_state s : sr_bridge s = BIdle → sr_states_changed s = true → stream_step s (bridge_wake_state s)
| st_wake_echo s : sr_bridge s = BIdle → sr_echo_changed s = true → stream_step s (bridge_wake_echo s)
| st_emit s : stream_step s (bridge_emit s)
| st_log f s : stream_step s (forward_frame f s)
| st_accept s : stream_step s (accept s)
| st_turn i b written closed s : stream_step s (conn_turn i b written closed s)
| st_hang_up i s : stream_step s (hang_up i s).

Definition stream_reachable (s : Stream) : Prop :=
  ∃ raw requested, rtc stream_step (stream_new raw requested) s.
End events.
