(* ===== verification/EventsProps.v ===== *)
(** What a client of the event stream can rely on: once the service and the
    connection are quiet, the last snapshot it received is the current status,
    however far it lagged; and a connection that keeps reading gets there. *)
From S2P Require Import Prelude Text Paths Metadata Types Operation Control Health Yaml Diff Mihomo Config Capability RuntimeStore Runtime Log Manager Bridge BridgeProps Events.
From Stdlib Require Import ZArith Lia.

(** Documented behaviour of the ring: a receiver sees what is sent after it
    subscribed, in order; what the ring no longer holds when it is read is
    reported once, as a count. *)
Class BroadcastLaws (A : Type) {BR : Broadcast A} := {
  subscribed : Rx → Ring → Prop;
  unread : Rx → Ring → list A;
  lost : Rx → Ring → nat;
  subscribe_ok b : subscribed (ring_subscribe b) b ∧ unread (ring_subscribe b) b = [] ∧ lost (ring_subscribe b) b = 0;
  send_ok a b rx : subscribed rx b → subscribed rx (ring_send a b)
    ∧ (lost rx (ring_send a b) = 0 → lost rx b = 0 ∧ unread rx (ring_send a b) = unread rx b ++ [a]);
  recv_ok rx b : subscribed rx b →
    match lost rx b, unread rx b with
    | S n, _ => ∃ rx', ring_recv rx b = (Lagged (S n), rx')
    | O, a :: l => ∃ rx', ring_recv rx b = (Received a, rx') ∧ subscribed rx' b ∧ lost rx' b = 0 ∧ unread rx' b = l
    | O, [] => ring_recv rx b = (Waiting, rx)
    end;
}.

(** The last snapshot among some events. *)
Fixpoint last_status (l : list WsEvent) : option CoreInfos :=
  match l with
  | [] => None
  | CoreStatusChanged i :: l' => Some (default i (last_status l'))
  | _ :: l' => last_status l'
  end.

Lemma last_status_app l l' :
  last_status (l ++ l') = match last_status l' with Some i => Some i | None => last_status l end.
Proof.
  induction l as [|e l IH]; cbn; [by destruct (last_status l')|].
  destruct e; [done| |done]. rewrite IH. by destruct (last_status l').
Qed.

Section events.
Context {WH : WireHost}.
Context {BE : Broadcast WsEvent} {BL : Broadcast LogFrame} {LE : BroadcastLaws WsEvent}.
Context (encodes : WsEvent → bool) (Hencodes : ∀ e, encodes e = true).

(** Nothing is left for [status_bridge] to do. *)
Definition settled (s : Stream) : Prop :=
  sr_bridge s = BIdle ∧ sr_states_changed s = false ∧ sr_echo_changed s = false.

(** What a connection has yet to read ends with the current status, and if there
    is nothing of it, a connection past its snapshot has shown it. *)
Definition in_step (status : CoreInfos) (h : EventHub) (c : Conn) : Prop :=
  lost (cn_events c) (hub_tx h) = 0 →
  match last_status (unread (cn_events c) (hub_tx h)) with
  | Some i => i = status
  | None => cn_phase c = Live → last_status (cn_frames c) = Some status
  end.

Definition conn_ok (s : Stream) (c : Conn) : Prop :=
  cn_phase c ≠ Gone →
  subscribed (cn_events c) (hub_tx (sr_hub s)) ∧ (settled s → in_step (stream_status s) (sr_hub s) c).

(** What the bridge read is current, or the manager has published again. *)
Definition bridge_ok (s : Stream) : Prop :=
  match sr_bridge s with
  | BIdle => True
  | BState raw | BEcho raw => raw = sr_raw s ∨ sr_states_changed s = true
  end.

Definition stream_ok (s : Stream) : Prop := bridge_ok s ∧ Forall (conn_ok s) (sr_conns s).

(** * The ring *)
Lemma hub_sends_ok l h rx :
  subscribed rx (hub_tx h) →
  subscribed rx (hub_tx (hub_sends l h))
  ∧ (lost rx (hub_tx (hub_sends l h)) = 0 →
      lost rx (hub_tx h) = 0 ∧ unread rx (hub_tx (hub_sends l h)) = unread rx (hub_tx h) ++ l).
Proof.
  revert h. induction l as [|e l IH]; intros h Hs; [by rewrite app_nil_r|].
  destruct (send_ok e (hub_tx h) rx Hs) as [Hs' Hsend].
  change (hub_sends (e :: l) h) with (hub_sends l (hub_send e h)).
  destruct (IH (hub_send e h) Hs') as [H1 H2]. split; [done|]. intros Hl.
  destruct (H2 Hl) as [H3 ->]. destruct (Hsend H3) as [H4 H5]. split; [done|]. cbn [hub_tx hub_send]. rewrite H5.
  by rewrite <- app_assoc.
Qed.

Lemma round_ends_with_snapshot r last :
  last_status (bridge_round r last).1 = Some (round_projection r).
Proof.
  destruct r as [raw requested|raw requested]; cbn [bridge_round round_projection]; [|done].
  destruct (_ && _); [done|]. by destruct (same_ipc_state _ _).
Qed.

(** * The connections *)

(** A connection that was fine with a status and a hub stays so when the stream
    changes nothing it sees. *)
Lemma conns_keep s s' :
  sr_hub s' = sr_hub s → (settled s' → settled s ∧ stream_status s' = stream_status s) →
  Forall (conn_ok s) (sr_conns s) → Forall (conn_ok s') (sr_conns s).
Proof.
  intros Hh Hs Hall. eapply Forall_impl; [exact Hall|]. intros c Hc Hp. destruct (Hc Hp) as [H1 H2]. rewrite Hh. split; [done|].
  intros Hset. destruct (Hs Hset) as [Hs1 Hs2]. rewrite Hs2. auto.
Qed.

Lemma emit_ok s : stream_ok s → stream_ok (bridge_emit s).
Proof.
  intros [Hb Hc]. unfold bridge_emit. unfold bridge_ok in Hb.
  destruct (sr_bridge s) as [|raw|raw] eqn:Eb; [by split; [unfold bridge_ok; rewrite Eb|]|..].
  all: match goal with |- stream_ok (let '(_, _) := bridge_round ?r ?l in _) =>
         pose proof (round_ends_with_snapshot r l) as Hlast; destruct (bridge_round r l) as [events last'] end.
  all: split; [done|]; cbn [sr_conns fst round_projection] in *.
  all: eapply Forall_impl; [exact Hc|]; intros c Hok Hp; destruct (Hok Hp) as [Hsub _]; cbn [sr_hub].
  all: destruct (hub_sends_ok events (sr_hub s) (cn_events c) Hsub) as [Hsub' Hun]; split; [done|].
  all: intros (_ & Hds & _) Hl; destruct (Hun Hl) as [_ ->]; rewrite last_status_app, Hlast.
  all: cbn in Hds; destruct Hb as [Hraw|Hbad]; [subst raw|congruence]; done.
Qed.

Lemma turn_ok s b written closed c :
  conn_ok s c →
  conn_ok s (sender_turn encodes b written closed (stream_status s) (sr_hub s) c).
Proof.
  intros Hc. unfold sender_turn. destruct (cn_phase c) eqn:Ep; [..|done].
  - destruct (Hc ltac:(congruence)) as [Hsub Hin]. unfold send_snapshot, send_event. rewrite Hencodes.
    destruct written; [|by intros Hp]. intros _. split; [done|]. intros Hset Hl. specialize (Hin Hset Hl).
    cbn [cn_events cn_frames cn_phase]. destruct (last_status (unread _ _)) eqn:Eu; [done|]. intros _.
    by rewrite last_status_app.
  - destruct (Hc ltac:(congruence)) as [Hsub Hin].
    destruct b; cbn [select_next].
    + pose proof (recv_ok _ _ Hsub) as Hr.
      destruct (lost (cn_events c) _) as [|n] eqn:El; [destruct (unread (cn_events c) _) as [|e l] eqn:Eu|].
      * rewrite Hr. cbn [snd fst]. destruct closed; [by intros Hp|]. destruct c; done.
      * destruct Hr as (rx' & -> & Hs' & Hl' & Hu'). cbn [apply_next]. unfold send_event. rewrite Hencodes.
        destruct written; [|by intros Hp]. intros _. cbn [cn_events cn_frames cn_phase]. split; [done|].
        intros Hset _. unfold in_step in Hin. specialize (Hin Hset El). rewrite Eu in Hin. cbn [cn_events cn_frames cn_phase]. rewrite Hu'.
        cbn [cn_frames]. rewrite last_status_app. destruct e as [w|i|f]; cbn [last_status] in *.
        -- destruct (last_status l); [done|]. intros _. by apply Hin.
        -- destruct (last_status l); cbn in *; [done|]. intros _. by subst.
        -- destruct (last_status l); [done|]. intros _. by apply Hin.
      * destruct Hr as [rx' ->]. cbn [apply_next]. intros _. cbn [cn_events].
        destruct (subscribe_ok (hub_tx (sr_hub s))) as (H1 & H2 & H3). split; [done|]. intros _ _. cbn [cn_events]. by rewrite H2.
    + destruct (ring_recv (cn_logs c) _) as [r rx]. destruct r as [f|n|]; cbn [apply_next].
      * unfold send_event. rewrite Hencodes. destruct written; [|by intros Hp]. intros _. split; [done|].
        intros Hset Hl. specialize (Hin Hset Hl). cbn [cn_events cn_frames cn_phase] in *.
        destruct (last_status (unread _ _)); [done|]. intros _. rewrite last_status_app. by apply Hin.
      * intros _. split; [done|]. intros Hset Hl. specialize (Hin Hset Hl). cbn [cn_events cn_frames cn_phase] in *.
        destruct (last_status (unread _ _)); [done|]. intros _. by apply Hin.
      * destruct closed; [by intros Hp|]. intros _. split; [done|]. intros Hset Hl. specialize (Hin Hset Hl).
        cbn [cn_events cn_frames cn_phase] in *. by destruct (last_status (unread _ _)).
Qed.

Lemma Forall_alter {A} (P : A → Prop) f i (l : list A) :
  Forall P l → (∀ x, P x → P (f x)) → Forall P (alter f i l).
Proof.
  intros Hl Hf. revert i. induction Hl as [|x l Hx Hl IH]; intros i; [done|].
  destruct i as [|i]; cbn; constructor; auto.
Qed.

Lemma stream_step_ok s s' : stream_ok s → stream_step encodes s s' → stream_ok s'.
Proof.
  intros [Hb Hc] Hs.
  destruct Hs as [raw s|requested s|s Hi Hd|s Hi Hd|s|f s|s|i b written closed s|i s].
  - split; [unfold bridge_ok in *; cbn; destruct (sr_bridge s); auto|].
    apply (conns_keep s); [done| |done]. by intros (_ & Hd & _).
  - split; [done|]. apply (conns_keep s); [done| |done]. by intros (_ & _ & Hd).
  - split; [by left|]. apply (conns_keep s); [done| |done]. by intros (Hd' & _ & _).
  - split; [by left|]. apply (conns_keep s); [done| |done]. by intros (Hd' & _ & _).
  - by apply emit_ok.
  - unfold forward_frame. destruct (has_log_subscribers s); [|done]. by split.
  - split; [done|]. cbn [accept sr_conns set_conns]. apply Forall_app. split; [done|]. rewrite Forall_singleton.
    intros _. destruct (subscribe_ok (hub_tx (sr_hub s))) as (H1 & H2 & _). split; [done|]. intros _ _.
    cbn [cn_events connect]. cbn. by rewrite H2.
  - split; [done|]. apply (Forall_alter (conn_ok s)); [done|]. intros c. by apply turn_ok.
  - split; [done|]. apply (Forall_alter (conn_ok s)); [done|]. by intros c _ Hp.
Qed.

Lemma stream_reachable_ok s : stream_reachable encodes s → stream_ok s.
Proof.
  intros (raw & requested & Hs).
  assert (H0 : stream_ok (stream_new raw requested)) by (split; [done|constructor]).
  induction Hs as [|x y z Hxy _ IH]; [done|]. apply IH. by eapply stream_step_ok.
Qed.

(** C7: a client of the event stream is never left with a stale view: however
    statuses, core types, log bursts and connections interleave, when the bridge
    has nothing left to send and a connection has read its ring, the last
    snapshot written to its socket is the status the service would answer now;
    also for a connection that lagged behind the ring, because it is sent a fresh
    snapshot after it has joined the tail again. *)
Theorem stream_converges (s : Stream) (c : Conn)
    (Hs : stream_reachable encodes s) (Hset : settled s) (Hc : c ∈ sr_conns s) (Hlive : cn_phase c = Live)
    (Hread : unread (cn_events c) (hub_tx (sr_hub s)) = []) (Hlost : lost (cn_events c) (hub_tx (sr_hub s)) = 0) :
  last_status (cn_frames c) = Some (stream_status s).
Proof.
  destruct (stream_reachable_ok s Hs) as [_ Hconns]. rewrite Forall_forall in Hconns.
  destruct (Hconns c Hc ltac:(congruence)) as [_ Hin]. specialize (Hin Hset Hlost). rewrite Hread in Hin. by apply Hin.
Qed.

(** * Getting there *)

Definition read_turns (n : nat) (status : CoreInfos) (h : EventHub) (c : Conn) : Conn :=
  Nat.iter n (sender_turn encodes FromEvents true false status h) c.

(** A connection that has read all there is. *)
Definition caught_up (h : EventHub) (c : Conn) : Prop :=
  cn_phase c = Live ∧ lost (cn_events c) (hub_tx h) = 0 ∧ unread (cn_events c) (hub_tx h) = [].

Lemma read_turns_ok n s c : conn_ok s c → conn_ok s (read_turns n (stream_status s) (sr_hub s) c).
Proof. intros Hc. induction n as [|n IH]; [done|]. by apply turn_ok. Qed.

Lemma read_turns_step n status h c :
  read_turns (S n) status h c = read_turns n status h (sender_turn encodes FromEvents true false status h c).
Proof. apply Nat.iter_succ_r. Qed.

Lemma live_catches_up n status h c :
  subscribed (cn_events c) (hub_tx h) → cn_phase c = Live → lost (cn_events c) (hub_tx h) = 0 →
  length (unread (cn_events c) (hub_tx h)) = n → caught_up h (read_turns n status h c).
Proof.
  revert c. induction n as [|n IH]; intros c Hs Hp Hl Hn; [by apply nil_length_inv in Hn|].
  rewrite read_turns_step. pose proof (recv_ok _ _ Hs) as Hr. rewrite Hl in Hr.
  destruct (unread (cn_events c) (hub_tx h)) as [|e l]; [done|]. destruct Hr as (rx' & Hr & Hs' & Hl' & Hu').
  unfold sender_turn. rewrite Hp. cbn [select_next]. rewrite Hr. cbn [apply_next]. unfold send_event. rewrite Hencodes.
  apply IH; [done..|]. cbn [cn_events]. rewrite Hu'. cbn in Hn. lia.
Qed.

(** A snapshot puts the connection into its loop, a lag back before it, with
    nothing to read. *)
Lemma snapshot_turn status h c :
  cn_phase c = Snapshot →
  sender_turn encodes FromEvents true false status h c
  = mkConn (cn_events c) (cn_logs c) (cn_frames c ++ [CoreStatusChanged status]) Live.
Proof. intros Hp. unfold sender_turn, send_snapshot, send_event. by rewrite Hp, Hencodes. Qed.

Lemma lag_turn status h c n :
  subscribed (cn_events c) (hub_tx h) → cn_phase c = Live → lost (cn_events c) (hub_tx h) = S n →
  sender_turn encodes FromEvents true false status h c = mkConn (ring_subscribe (hub_tx h)) (cn_logs c) (cn_frames c) Snapshot.
Proof.
  intros Hs Hp Hl. pose proof (recv_ok _ _ Hs) as Hr. rewrite Hl in Hr. destruct Hr as [rx' Hr].
  unfold sender_turn. rewrite Hp. cbn [select_next]. by rewrite Hr.
Qed.

Lemma lagged_catches_up status h c n :
  subscribed (cn_events c) (hub_tx h) → cn_phase c = Live → lost (cn_events c) (hub_tx h) = S n →
  caught_up h (read_turns 2 status h c).
Proof.
  intros Hs Hp Hl. rewrite read_turns_step, (lag_turn _ _ _ n) by done. rewrite read_turns_step, snapshot_turn by done.
  destruct (subscribe_ok (hub_tx h)) as (_ & H2 & H3). done.
Qed.

Lemma open_catches_up status h c :
  subscribed (cn_events c) (hub_tx h) → cn_phase c ≠ Gone →
  ∃ n : nat, (n ≤ length (unread (cn_events c) (hub_tx h)) + 3)%nat ∧ caught_up h (read_turns n status h c).
Proof.
  intros Hs Hp. destruct (lost (cn_events c) (hub_tx h)) as [|k] eqn:El; destruct (cn_phase c) eqn:Ep; [| |done| | |done].
  - exists (S (length (unread (cn_events c) (hub_tx h)))). split; [lia|]. rewrite read_turns_step, snapshot_turn by done.
    by apply live_catches_up.
  - exists (length (unread (cn_events c) (hub_tx h))). split; [lia|]. by apply live_catches_up.
  - exists 3. split; [lia|]. rewrite read_turns_step, snapshot_turn by done. by apply (lagged_catches_up _ _ _ k).
  - exists 2. split; [lia|]. by apply (lagged_catches_up _ _ _ k).
Qed.

(** catching up takes a bounded number of turns: in a settled stream, a
    connection that is not gone and whose socket takes its frames has, after at
    most as many turns as its ring holds for it and three (a snapshot, a lag, a
    snapshot), nothing left to read and shows the current status. *)
Theorem connection_catches_up (s : Stream) (c : Conn)
    (Hs : stream_reachable encodes s) (Hset : settled s) (Hc : c ∈ sr_conns s) (Hopen : cn_phase c ≠ Gone) :
  ∃ n : nat, (n ≤ length (unread (cn_events c) (hub_tx (sr_hub s))) + 3)%nat
    ∧ caught_up (sr_hub s) (read_turns n (stream_status s) (sr_hub s) c)
    ∧ last_status (cn_frames (read_turns n (stream_status s) (sr_hub s) c)) = Some (stream_status s).
Proof.
  destruct (stream_reachable_ok s Hs) as [_ Hconns]. rewrite Forall_forall in Hconns.
  destruct (Hconns c Hc Hopen) as [Hsub _].
  destruct (open_catches_up (stream_status s) (sr_hub s) c Hsub Hopen) as (n & Hn & Hup).
  exists n. split_and!; [done|done|]. pose proof (read_turns_ok n s c (Hconns c Hc)) as Hok.
  destruct Hup as (Hp & Hl & Hu). destruct (Hok ltac:(congruence)) as [_ Hin]. specialize (Hin Hset Hl).
  rewrite Hu in Hin. by apply Hin.
Qed.
(** The first connection of a stream, with what can be computed of it. *)
Definition first_phase (s : Stream) : option (Phase * bool) :=
  match sr_conns s with
  | c :: _ => Some (cn_phase c, match lost (cn_events c) (hub_tx (sr_hub s)), unread (cn_events c) (hub_tx (sr_hub s)) with
                                | O, [] => true
                                | _, _ => false
                                end)
  | [] => None
  end.

Lemma first_conn s p quiet :
  first_phase s = Some (p, quiet) →
  ∃ c, c ∈ sr_conns s ∧ cn_phase c = p
    ∧ (quiet = true → unread (cn_events c) (hub_tx (sr_hub s)) = [] ∧ lost (cn_events c) (hub_tx (sr_hub s)) = 0).
Proof.
  unfold first_phase. destruct (sr_conns s) as [|c l]; [done|]. intros H. injection H as Hp Hq. exists c.
  split_and!; [by left|done|]. intros ->. revert Hq. destruct (lost _ _); [|done]. by destruct (unread _ _).
Qed.

Definition is_settled (s : Stream) : bool :=
  (match sr_bridge s with BIdle => true | _ => false end) && negb (sr_states_changed s) && negb (sr_echo_changed s).

Lemma is_settled_ok s : is_settled s = true → settled s.
Proof.
  unfold is_settled, settled. destruct (sr_bridge s); [|done..].
  by destruct (sr_states_changed s), (sr_echo_changed s).
Qed.

End events.

(** * A ring that keeps what was sent *)

(** What was sent, and the capacity; a receiver is a position. *)
Record ListRing (A : Type) := mkRing { lr_sent : list A; lr_capacity : nat }.
Arguments mkRing {A} _ _.
Arguments lr_sent {A} _.
Arguments lr_capacity {A} _.

Definition lr_start {A} (b : ListRing A) : nat := length (lr_sent b) - lr_capacity b.

#[export] Instance list_broadcast (A : Type) : Broadcast A := {|
  Ring := ListRing A;
  Rx := nat;
  ring_new n := mkRing [] n;
  ring_send a b := mkRing (lr_sent b ++ [a]) (lr_capacity b);
  ring_subscribe b := length (lr_sent b);
  ring_recv rx b :=
    match lr_start b - rx with
    | S n => (Lagged (S n), lr_start b)
    | O => match lr_sent b !! rx with Some a => (Received a, S rx) | None => (Waiting, rx) end
    end;
|}.

#[export] Instance list_broadcast_laws (A : Type) : BroadcastLaws A.
Proof.
  refine {| subscribed (rx : Rx) (b : Ring) := (rx ≤ length (lr_sent (b : ListRing A)))%nat;
            unread (rx : Rx) (b : Ring) := drop rx (lr_sent (b : ListRing A));
            lost (rx : Rx) (b : Ring) := lr_start (b : ListRing A) - rx |}.
  - intros b. cbn. split_and!; [done|by apply drop_ge|unfold lr_start; lia].
  - intros a b rx Hs. unfold lr_start. cbn [ring_send list_broadcast lr_sent lr_capacity] in *.
    rewrite !length_app. cbn [length]. split; [lia|]. intros Hl. split; [lia|]. by rewrite drop_app_le.
  - intros rx b Hs. cbn in *. destruct (lr_start b - rx) as [|n] eqn:El; [|by eexists].
    destruct (drop rx (lr_sent b)) as [|a l] eqn:Ed.
    + rewrite lookup_ge_None_2; [done|]. apply (f_equal length) in Ed. rewrite length_drop in Ed. cbn in Ed. lia.
    + assert (Hlook : lr_sent b !! rx = Some a).
      { rewrite <- (Nat.add_0_r rx), <- lookup_drop, Ed. done. }
      rewrite Hlook. apply lookup_lt_Some in Hlook as Hlt. exists (S rx). split_and!; [done|lia|lia|].
      replace (S rx) with (rx + 1) by lia. rewrite <- drop_drop, Ed. done.
Defined.

(** * A concrete stream *)

Module demo_stream.
Definition raw (n : Z) : CoreStatus := core_status_initial n.
Definition all (_ : WsEvent) : bool := true.

(** A round of the bridge on a new status. *)
Definition round (n : Z) (s : Stream) : Stream := bridge_emit (bridge_wake_state (publish_status (raw n) s)).

Lemma round_steps n s : sr_bridge s = BIdle → rtc (stream_step all) s (round n s).
Proof.
  intros Hi. eapply rtc_l; [apply (st_publish_status all (raw n))|].
  eapply rtc_l; [by apply st_wake_state|]. apply rtc_once, st_emit.
Qed.

Definition rounds (k : nat) (s : Stream) : Stream := Nat.iter k (λ s, round (Z.of_nat k) s) s.

Lemma round_idle n s : sr_bridge s = BIdle → sr_bridge (round n s) = BIdle.
Proof. intros Hi. unfold round, bridge_emit. cbn [sr_bridge bridge_wake_state]. by destruct (bridge_round _ _). Qed.

Lemma rounds_steps k s : sr_bridge s = BIdle → rtc (stream_step all) s (rounds k s).
Proof.
  intros Hi. unfold rounds. generalize (Z.of_nat k). intros n.
  assert (H : rtc (stream_step all) s (Nat.iter k (round n) s) ∧ sr_bridge (Nat.iter k (round n) s) = BIdle).
  { induction k as [|k [IH1 IH2]]; [by split; [apply rtc_refl|]|]. cbn [Nat.iter nat_rect].
    split; [|by apply round_idle]. etrans; [exact IH1|by apply round_steps]. }
  exact (proj1 H).
Qed.

(** A client connects and gets its snapshot, then stalls while the ring
    overflows. *)
Definition connected : Stream := conn_turn all 0 FromEvents true false (accept (stream_new (raw 0) None)).
Definition stalled : Stream := rounds 300 connected.
(** It reads again. *)
Definition resumed : Stream := conn_turn all 0 FromEvents true false (conn_turn all 0 FromEvents true false stalled).

Lemma stalled_reachable : stream_reachable all stalled.
Proof.
  exists (raw 0), None. eapply rtc_l; [apply st_accept|]. eapply rtc_l; [apply st_turn|].
  apply rounds_steps. reflexivity.
Qed.

Lemma resumed_reachable : stream_reachable all resumed.
Proof.
  destruct stalled_reachable as (r & q & Hr). exists r, q.
  eapply rtc_r; [eapply rtc_r; [exact Hr|apply st_turn]|apply st_turn].
Qed.
End demo_stream.

Lemma stream_converges_witness :
  ∃ c, c ∈ sr_conns demo_stream.resumed
    ∧ last_status (cn_frames c) = Some (stream_status demo_stream.resumed).
Proof.
  destruct (first_conn demo_stream.resumed Live true) as (c & Hc & Hp & Hq); [vm_compute; reflexivity|].
  destruct (Hq eq_refl) as [Hu Hl]. exists c. split; [exact Hc|].
  refine (stream_converges demo_stream.all (λ _, eq_refl) demo_stream.resumed c demo_stream.resumed_reachable _ Hc Hp Hu Hl).
  apply is_settled_ok. vm_compute. reflexivity.
Defined.

Lemma connection_catches_up_witness :
  ∃ c n, c ∈ sr_conns demo_stream.stalled
    ∧ caught_up (sr_hub demo_stream.stalled)
        (read_turns demo_stream.all n (stream_status demo_stream.stalled) (sr_hub demo_stream.stalled) c).
Proof.
  destruct (first_conn demo_stream.stalled Live false) as (c & Hc & Hp & _); [vm_compute; reflexivity|].
  refine (match connection_catches_up demo_stream.all (λ _, eq_refl) demo_stream.stalled c
            demo_stream.stalled_reachable _ Hc _ with ex_intro _ n (conj _ (conj Hn _)) => _ end).
  - apply is_settled_ok. vm_compute. reflexivity.
  - rewrite Hp. discriminate.
  - exists c, n. exact (conj Hc Hn).
Defined.
