(* ===== verification/Wire.v ===== *)
(** The JSON of the service's answers: the envelope [R] (nyanpasu_ipc,
    api/mod.rs) and the operations it carries (api/core/v2.rs), as the derived
    [Serialize] and [Deserialize] write and read them.

    A JSON document is a value here; its text is [serde_json]'s and [simd_json]'s
    business.  A derived reader takes the fields in any order, refuses a known
    field that is given twice, ignores unknown ones, and takes an absent or null
    optional field for [None].  The further spellings a derived reader accepts (an
    array for a struct, an object of one field for a unit variant), which nothing
    writes, are left out. *)
From S2P Require Import Prelude Text Paths Metadata Types Operation Control Health Yaml Diff Mihomo Config Capability RuntimeStore Runtime Log Manager Bridge.
From Stdlib Require Import ZArith Lia.

(** * JSON *)

Inductive Json :=
| JNull
| JBool (b : bool)
| JInt (z : Z)
| JFloat (text : string)
| JString (s : string)
| JArray (l : list Json)
| JObject (fields : list (string * Json)).

Abbreviation Fields := (list (string * Json)).

(** The first field of that name, and how often it is there. *)
Fixpoint field (k : string) (o : Fields) : option Json :=
  match o with [] => None | (k', j) :: o' => if String.eqb k k' then Some j else field k o' end.
Fixpoint field_count (k : string) (o : Fields) : nat :=
  match o with [] => 0 | (k', _) :: o' => if String.eqb k k' then S (field_count k o') else field_count k o' end.
Definition fields_once (ks : list string) (o : Fields) : bool :=
  forallb (λ k, (field_count k o <=? 1)%nat) ks.

(** Readers of one field: required, or optional. *)
Definition required {A} (k : string) (read : Json → option A) (o : Fields) : option A := field k o ≫= read.
Definition optional {A} (k : string) (read : Json → option A) (o : Fields) : option (option A) :=
  match field k o with
  | None | Some JNull => Some None
  | Some j => Some <$> read j
  end.
(** [skip_serializing_if = "Option::is_none"]. *)
Definition present {A} (k : string) (write : A → Json) (a : option A) : Fields :=
  match a with Some a => [(k, write a)] | None => [] end.

Definition read_string (j : Json) : option string := if j is JString s then Some s else None.
Definition read_bool (j : Json) : option bool := if j is JBool b then Some b else None.
Definition read_u64 (j : Json) : option Z :=
  if j is JInt z then if (0 <=? z)%Z && (z <=? u64_max)%Z then Some z else None else None.
Definition i64_min : Z := -9223372036854775808.
Definition i64_max : Z := 9223372036854775807.
Definition is_i64 (z : Z) : Prop := (i64_min ≤ z ≤ i64_max)%Z.
Definition read_i64 (j : Json) : option Z :=
  if j is JInt z then if (i64_min <=? z)%Z && (z <=? i64_max)%Z then Some z else None else None.
Definition read_object {A} (ks : list string) (read : Fields → option A) (j : Json) : option A :=
  if j is JObject o then if fields_once ks o then read o else None else None.

(** * Operations *)

Definition write_revision (r : ConfigRevisionInfo) : Json :=
  JObject [("epoch", JInt (rv_epoch r)); ("generation", JInt (rv_generation r));
           ("source_hash", JString (rv_source_hash r)); ("effective_hash", JString (rv_effective_hash r))].
Definition read_revision : Json → option ConfigRevisionInfo :=
  read_object ["epoch"; "generation"; "source_hash"; "effective_hash"] (λ o,
    epoch ← required "epoch" read_u64 o;
    generation ← required "generation" read_u64 o;
    source_hash ← required "source_hash" read_string o;
    effective_hash ← required "effective_hash" read_string o;
    Some (mkRevisionInfo epoch generation source_hash effective_hash)).

Definition write_outcome_kind (k : ReconcileOutcomeKind) : Json :=
  JString match k with
          | KStarted => "started" | KNoop => "noop" | KPatched => "patched" | KReloaded => "reloaded"
          | KRestarted => "restarted" | KSwitched => "switched" | KRolledBack => "rolled_back"
          end.
Definition read_outcome_kind (j : Json) : option ReconcileOutcomeKind :=
  s ← read_string j;
  if String.eqb s "started" then Some KStarted
  else if String.eqb s "noop" then Some KNoop
  else if String.eqb s "patched" then Some KPatched
  else if String.eqb s "reloaded" then Some KReloaded
  else if String.eqb s "restarted" then Some KRestarted
  else if String.eqb s "switched" then Some KSwitched
  else if String.eqb s "rolled_back" then Some KRolledBack
  else None.

Definition outcome_fields (i : ReconcileOutcomeInfo) : Fields :=
  [("outcome", write_outcome_kind (oi_outcome i)); ("revision", write_revision (oi_revision i))]
  ++ present "warning" JString (oi_warning i) ++ present "failed_apply" JString (oi_failed_apply i).
Definition read_outcome_fields (o : Fields) : option ReconcileOutcomeInfo :=
  outcome ← required "outcome" read_outcome_kind o;
  revision ← required "revision" read_revision o;
  warning ← optional "warning" read_string o;
  failed_apply ← optional "failed_apply" read_string o;
  Some (mkOutcomeInfo outcome revision warning failed_apply).

(** Tagged by [type], inside the object. *)
Definition write_output (i : OperationOutputInfo) : Json :=
  match i with
  | IReconciled o => JObject (("type", JString "reconciled") :: outcome_fields o)
  | IStopped_ => JObject [("type", JString "stopped")]
  | IRecovered => JObject [("type", JString "recovered")]
  | IShutDown => JObject [("type", JString "shut_down")]
  end.
Definition read_output : Json → option OperationOutputInfo :=
  read_object ["type"] (λ o,
    tag ← required "type" read_string o;
    if String.eqb tag "reconciled" then
      if fields_once ["outcome"; "revision"; "warning"; "failed_apply"] o
      then IReconciled <$> read_outcome_fields o else None
    else if String.eqb tag "stopped" then Some IStopped_
    else if String.eqb tag "recovered" then Some IRecovered
    else if String.eqb tag "shut_down" then Some IShutDown
    else None).

Definition write_error_info (e : OperationErrorInfo) : Json :=
  JObject (present "kind" JString (ei_kind e)
           ++ [("message", JString (ei_message e)); ("retryable", JBool (ei_retryable e))]).
Definition read_error_info : Json → option OperationErrorInfo :=
  read_object ["kind"; "message"; "retryable"] (λ o,
    kind ← optional "kind" read_string o;
    message ← required "message" read_string o;
    retryable ← required "retryable" read_bool o;
    Some (mkErrorInfo kind message retryable)).

Definition write_phase (p : OperationPhase) : Json :=
  JString match p with PQueued => "queued" | PRunning => "running" | PSucceeded => "succeeded" | PFailed => "failed" end.
Definition read_phase (j : Json) : option OperationPhase :=
  s ← read_string j;
  if String.eqb s "queued" then Some PQueued
  else if String.eqb s "running" then Some PRunning
  else if String.eqb s "succeeded" then Some PSucceeded
  else if String.eqb s "failed" then Some PFailed
  else None.

Definition write_operation (i : OperationInfo) : Json :=
  JObject ([("id", JString (on_id i)); ("phase", write_phase (on_phase i))]
           ++ present "output" write_output (on_output i) ++ present "error" write_error_info (on_error i)).
Definition read_operation : Json → option OperationInfo :=
  read_object ["id"; "phase"; "output"; "error"] (λ o,
    id ← required "id" read_string o;
    phase ← required "phase" read_phase o;
    output ← optional "output" read_output o;
    error ← optional "error" read_error_info o;
    Some (mkOperationInfo id phase output error)).

(** * The envelope *)

Inductive ResponseCode := ROk | ROtherError.
#[export] Instance ResponseCode_eq_dec : EqDecision ResponseCode.
Proof. solve_decision. Defined.

(** [ResponseCode::msg]. *)
Definition code_msg (c : ResponseCode) : string :=
  match c with ROk => "ok" | ROtherError => "other error" end.

Record R (T : Type) := mkR {
  r_code : ResponseCode;
  r_msg : string;
  r_data : option T;
  r_ts : Z;
  r_error_kind : option string;
  r_retryable : option bool;
}.
Arguments mkR {T} _ _ _ _ _ _.
Arguments r_code {T} _.
Arguments r_msg {T} _.
Arguments r_data {T} _.
Arguments r_ts {T} _.
Arguments r_error_kind {T} _.
Arguments r_retryable {T} _.

Section envelope.
Context {T : Type}.

(** [RBuilder::other_error], [other_error_with_kind] and [success], at the time
    [ts]. *)
Definition other_error (ts : Z) (msg : string) : R T := mkR ROtherError msg None ts None None.
Definition other_error_with_kind (ts : Z) (msg : string) (kind : option CoreErrorKind.t) (retryable : option bool) : R T :=
  mkR ROtherError msg None ts (CoreErrorKind.as_str <$> kind) retryable.
Definition success (ts : Z) (data : T) : R T := mkR ROk (code_msg ROk) (Some data) ts None None.

(** [R::ok]; the error is the text of the envelope. *)
Definition r_ok (r : R T) : result (R T) (R T) := if bool_decide (r_code r = ROk) then Ok r else Err r.

(** The derived builder: [build] validates what was set, then fills in the
    defaults; a field that was not set and has no default is an error. *)
Record RBuilder := mkBuilder {
  bl_code : option ResponseCode;
  bl_msg : option string;
  bl_data : option (option T);
  bl_error_kind : option (option string);
  bl_retryable : option (option bool);
}.
Definition builder_validate (b : RBuilder) : result unit string :=
  if bl_code b is Some _ then if bl_msg b is Some _ then Ok () else Err "msg is required"
  else Err "code is required".
Definition builder_default_msg (b : RBuilder) : string :=
  match bl_code b with Some c => code_msg c | None => code_msg ROk end.
Definition builder_build (ts : Z) (b : RBuilder) : result (R T) string :=
  let? _ := builder_validate b in
  match bl_code b, bl_data b with
  | Some code, Some data =>
      Ok (mkR code (default (builder_default_msg b) (bl_msg b)) data ts (default None (bl_error_kind b))
            (default None (bl_retryable b)))
  | None, _ => Err "uninitialized field: code"
  | _, None => Err "uninitialized field: data"
  end.

Definition write_code (c : ResponseCode) : Json := JString match c with ROk => "Ok" | ROtherError => "OtherError" end.
Definition read_code (j : Json) : option ResponseCode :=
  s ← read_string j;
  if String.eqb s "Ok" then Some ROk else if String.eqb s "OtherError" then Some ROtherError else None.

Definition write_r (write : T → Json) (r : R T) : Json :=
  JObject ([("code", write_code (r_code r)); ("msg", JString (r_msg r));
            ("data", match r_data r with Some a => write a | None => JNull end); ("ts", JInt (r_ts r))]
           ++ present "error_kind" JString (r_error_kind r) ++ present "retryable" JBool (r_retryable r)).
Definition read_r (read : Json → option T) : Json → option (R T) :=
  read_object ["code"; "msg"; "data"; "ts"; "error_kind"; "retryable"] (λ o,
    code ← required "code" read_code o;
    msg ← required "msg" read_string o;
    data ← optional "data" read o;
    ts ← required "ts" read_i64 o;
    error_kind ← optional "error_kind" read_string o;
    retryable ← optional "retryable" read_bool o;
    Some (mkR code msg data ts error_kind retryable)).
End envelope.
Arguments RBuilder T : clear implicits.
