(* ===== verification/Ipc.v ===== *)
(** The local protocol between the service and its clients: the contract of
    operations (nyanpasu_ipc, api/contract.rs), the routes that serve them
    (nyanpasu-service-runtime, server/routing), the fallbacks around them
    (routing/middleware.rs) and the client (nyanpasu_ipc, client).

    The routing of [axum] by path and method, the codec of JSON text and the
    transport are third-party: a request reaches the handler of its path and
    method, and a body is a value of [JsonText]. *)
From S2P Require Import Prelude Text Paths Metadata Types Operation Control Health Yaml Diff Mihomo Config Capability RuntimeStore Runtime Log Manager Bridge Wire.
From Stdlib Require Import ZArith Lia.

(** * The contract *)

Inductive Method := GET | POST | HEAD | OtherMethod.
#[export] Instance Method_eq_dec : EqDecision Method.
Proof. solve_decision. Defined.

Inductive Op :=
| LogFilesOp | LogOpenOp | LogQueryOp | LogCloseOp
| StatusOp | CoreStart | CoreStop | CoreCheck
| LogsRetrieve | LogsInspect
| CoreV2Submit | CoreV2Operation | CoreV2EffectiveConfig | CoreV2ApiConnection | CoreV2Status
| NetworkSetDns.
#[export] Instance Op_eq_dec : EqDecision Op.
Proof. solve_decision. Defined.

(** [METHOD] and [PATH]. *)
Definition op_method (o : Op) : Method :=
  match o with
  | LogFilesOp | StatusOp | LogsRetrieve | LogsInspect | CoreV2EffectiveConfig | CoreV2ApiConnection | CoreV2Status => GET
  | LogOpenOp | LogQueryOp | LogCloseOp | CoreStart | CoreStop | CoreCheck | CoreV2Submit | CoreV2Operation
  | NetworkSetDns => POST
  end.
Definition op_path (o : Op) : string :=
  match o with
  | LogFilesOp => "/v1/logs/files"
  | LogOpenOp => "/v1/logs/open"
  | LogQueryOp => "/v1/logs/query"
  | LogCloseOp => "/v1/logs/close"
  | StatusOp => "/status"
  | CoreStart => "/core/start"
  | CoreStop => "/core/stop"
  | CoreCheck => "/core/check"
  | LogsRetrieve => "/logs/retrieve"
  | LogsInspect => "/logs/inspect"
  | CoreV2Submit => "/v2/core/submit"
  | CoreV2Operation => "/v2/core/operation"
  | CoreV2EffectiveConfig => "/v2/core/effective-config"
  | CoreV2ApiConnection => "/v2/core/api-connection"
  | CoreV2Status => "/v2/core/status"
  | NetworkSetDns => "/network/set_dns"
  end.
Definition EVENT_URI : string := "/ws/events".

(** What [create_router] registers, in its order: [status::setup],
    [core::setup], [logs::setup], [network::setup], and the sessions. *)
Definition routes : list Op :=
  [StatusOp]
  ++ [CoreStart; CoreStop; CoreCheck; CoreV2Submit; CoreV2Operation; CoreV2Status; CoreV2EffectiveConfig;
      CoreV2ApiConnection]
  ++ [LogsRetrieve; LogsInspect]
  ++ [NetworkSetDns]
  ++ [LogFilesOp; LogOpenOp; LogQueryOp; LogCloseOp].

(** A route mounted for [GET] also answers [HEAD]. *)
Definition filter_accepts (filter method : Method) : bool :=
  bool_decide (filter = method) || (bool_decide (filter = GET) && bool_decide (method = HEAD)).

Inductive Routed := ToOp (o : Op) | ToEvents | NotFoundRoute | MethodNotAllowedRoute.

(** [create_router]: the handler a request reaches. *)
Definition dispatch (method : Method) (path : string) : Routed :=
  if String.eqb path EVENT_URI then ToEvents
  else match List.find (λ o, String.eqb (op_path o) path) routes with
       | None => NotFoundRoute
       | Some o => if filter_accepts (op_method o) method then ToOp o else MethodNotAllowedRoute
       end.

(** * The service side *)

(** [into_envelope]. *)
Definition into_envelope {T} (ts : Z) (e : OpError) : R T :=
  other_error_with_kind ts (oe_message e) (oe_kind e) (oe_retryable e).

Definition OK_STATUS : Z := 200.
Definition INTERNAL_SERVER_ERROR : Z := 500.

(** The two shapes of a handler: the classified one, and that of the first
    protocol's start and stop. *)
Definition respond {T} (ts : Z) (r : result T OpError) : Z * R T :=
  match r with Ok a => (OK_STATUS, success ts a) | Err e => (INTERNAL_SERVER_ERROR, into_envelope ts e) end.
Definition respond_plain {T} (ts : Z) (r : result T string) : Z * R T :=
  match r with Ok a => (OK_STATUS, success ts a) | Err e => (INTERNAL_SERVER_ERROR, other_error ts e) end.

(** How a handler ends: with a response, with a panic, or not in time. *)
Inductive Handled (T : Type) := Responded (r : Z * R T) | Panicked | TimedOut.
Arguments Responded {T} r.
Arguments Panicked {T}.
Arguments TimedOut {T}.

Definition answered {T} (o : option (Z * R T)) : Handled T :=
  match o with Some r => Responded r | None => Panicked end.

(** [error_envelope] and its callers in the middleware. *)
Definition error_envelope (ts : Z) (status : Z) (msg : string) : Z * Json :=
  (status, write_r (λ _ : unit, JNull) (other_error ts msg)).
Definition not_found (ts : Z) : Z * Json := error_envelope ts 404 "not found".
Definition method_not_allowed (ts : Z) : Z * Json := error_envelope ts 405 "method not allowed".
Definition enforce_timeout_response (ts : Z) : Z * Json := error_envelope ts 408 "request timed out".
Definition response_for_panic (ts : Z) : Z * Json := error_envelope ts INTERNAL_SERVER_ERROR "internal server error".

(** What goes out. *)
Definition serve {T} (write : T → Json) (ts : Z) (h : Handled T) : Z * Json :=
  match h with
  | Responded (status, r) => (status, write_r write r)
  | Panicked => response_for_panic ts
  | TimedOut => enforce_timeout_response ts
  end.

Section routes.
Context {WH : WireHost}.
Context {PL : ProcessLib} {YF : YamlFloat} {PC : PatchCodec}.
Context {YC : YamlCodec} {UL : UrlLib} {SV : Semver}.
Context {W : Type} {EN : Env W} {FS : RuntimeFs W} {BH : BinaryHost W} {HB : BridgeHost W}.
Context {Q : Type} {MP : Mpsc Q}.
Context (self : Inner) (settings : LocalIpcSettings) (infos : RuntimeInfos) (ts : Z).

(** routing/core/start.rs: a path that is not UTF-8 panics. *)
Definition route_start (t : CoreType) (config_file : OsPath) : M (Service (Q:=Q)) (Handled unit) :=
  match config_file with
  | PathBytes _ => ret Panicked
  | PathText path => r <- service_start self infos t path ;; ret (Responded (respond_plain ts r))
  end.
(** routing/core/stop.rs. *)
Definition route_stop : M (Service (Q:=Q)) (Handled unit) :=
  r <- service_stop self ;; ret (Responded (respond_plain ts r)).
(** routing/core/check.rs. *)
Definition route_check (slot : bool) (t : CoreType) (config_file : string) : M (Service (Q:=Q)) (Handled unit) :=
  r <- service_check slot infos t config_file ;; ret (Responded (respond ts r)).

(** routing/core/v2.rs; the watcher a submission leaves behind is the adapter's. *)
Definition route_submit (request : CoreSubmitReq) : M (Service (Q:=Q)) (Handled OperationInfo) :=
  r <- submit_v2 settings infos request ;;
  ret (answered match r with
                | Ok (info, _) => (λ i, respond ts (Ok i)) <$> info
                | Err e => Some (respond ts (Err e))
                end).
Definition route_operation (request : CoreOperationReq) (s : Service (Q:=Q)) : Handled OperationInfo :=
  answered match operation_v2 request s with
           | Ok info => (λ i, respond ts (Ok i)) <$> info
           | Err e => Some (respond ts (Err e))
           end.
Definition route_core_status (s : Service (Q:=Q)) : Handled CoreInfos :=
  Responded (OK_STATUS, success ts (service_status s)).
Definition route_api_connection (s : Service (Q:=Q)) : Handled (option CoreApiConnection) :=
  Responded (OK_STATUS, success ts (service_api_connection s)).
Definition route_effective_config (s : Service (Q:=Q)) : Handled (option CoreEffectiveConfig) :=
  Responded match service_effective_config s with
            | Ok snapshot => (OK_STATUS, success ts snapshot)
            | Err _ => (INTERNAL_SERVER_ERROR, other_error ts "failed to serialize effective configuration")
            end.
End routes.

(** * The client *)

Inductive ClientError :=
| ERequest (operation : string) (source : string)
| EHttpStatus (operation : string) (status : Z) (body : option string)
| EDecode (operation : string)
| EServer (operation : string) (code : ResponseCode) (msg : string) (error_kind : option string) (retryable : option bool)
| EEmptyData (operation : string).

(** [core_error_kind]. *)
Definition core_error_kind (e : ClientError) : option CoreErrorKind.t :=
  match e with EServer _ _ _ error_kind _ => error_kind ≫= CoreErrorKind.from_wire | _ => None end.

(** [retryable]. *)
Definition client_retryable (e : ClientError) : bool :=
  match e with
  | EServer _ _ _ _ retryable =>
      default (match core_error_kind e with Some kind => CoreErrorKind.default_retryable kind | None => false end) retryable
  | _ => false
  end.

(** The text of JSON, and [String::from_utf8_lossy] of it. *)
Class JsonText (B : Type) := {
  json_to_vec : Json → B;
  json_from_slice : B → option Json;
  body_text : B → string;
}.

Section client.
Context {B : Type} {JT : JsonText B}.

(** A response as [reqwest] gives it: the status, and the body when it is read. *)
Abbreviation Response := (Z * result B string)%type.

Definition is_success (status : Z) : bool := (200 <=? status)%Z && (status <? 300)%Z.

(** Reading [R<Option<()>>]: any data that is not null is refused. *)
Definition read_empty (j : Json) : option unit := None.

(** The error of an envelope whose code is not [Ok]. *)
Definition server_error {T} (operation : string) (r : R T) : ClientError :=
  EServer operation (r_code r) (r_msg r) (r_error_kind r) (r_retryable r).

(** [send], on what the transport gave. *)
Definition client_send (operation : string) (response : result Response string) : result (result B string) ClientError :=
  match response with
  | Err e => Err (ERequest operation e)
  | Ok (status, body) =>
      if is_success status then Ok body
      else match body with
           | Err e => Err (ERequest operation e)
           | Ok bytes =>
               let http := EHttpStatus operation status
                             (if String.eqb (body_text bytes) "" then None else Some (body_text bytes)) in
               Err match json_from_slice bytes ≫= read_r read_empty with
                   | Some envelope =>
                       if bool_decide (r_code envelope = ROk) then http else server_error operation envelope
                   | None => http
                   end
           end
  end.

(** [call]. *)
Definition client_call {T} (read : Json → option T) (operation : string) (response : result Response string) :
    result (R T) ClientError :=
  match client_send operation response with
  | Err e => Err e
  | Ok (Err e) => Err (ERequest operation e)
  | Ok (Ok bytes) =>
      match json_from_slice bytes ≫= read_r read with
      | None => Err (EDecode operation)
      | Some envelope => if bool_decide (r_code envelope = ROk) then Ok envelope else Err (server_error operation envelope)
      end
  end.

(** The shortcuts that need the data ([submit_core], [core_operation], ...), and
    those that do not ([start_core], [stop_core], [check_config], ...). *)
Definition call_data {T} (read : Json → option T) (operation : string) (response : result Response string) :
    result T ClientError :=
  match client_call read operation response with
  | Err e => Err e
  | Ok envelope => if r_data envelope is Some data then Ok data else Err (EEmptyData operation)
  end.
Definition call_unit (operation : string) (response : result Response string) : result unit ClientError :=
  res_map (λ _, ()) (client_call read_empty operation response).

(** A response delivered whole. *)
Definition deliver (r : Z * Json) : result Response string := Ok (r.1, Ok (json_to_vec r.2)).
End client.
