(* ===== verification/IpcProps.v ===== *)
(** What the local protocol guarantees: the documents of its answers are read
    back as they were written, a request reaches the operation it names, and the
    outcome of an operation, errors with their classification included, is what
    the client is told. *)
From S2P Require Import Prelude Text Paths Metadata Types Operation Control Health Yaml Diff Mihomo Config Capability RuntimeStore Runtime Log Manager ManagerSafety ManagerControl Simulation Runs ManagerProps Executor Bridge BridgeProps BridgeSystem Wire Ipc.
From Stdlib Require Import ZArith Lia.

(** * Documents *)

(** The integers of a document are in range. *)
Definition revision_info_ok (r : ConfigRevisionInfo) : Prop := is_u64 (rv_epoch r) ∧ is_u64 (rv_generation r).
Definition operation_info_ok (i : OperationInfo) : Prop :=
  match on_output i with Some (IReconciled o) => revision_info_ok (oi_revision o) | _ => True end.

Lemma read_u64_ok z : is_u64 z → read_u64 (JInt z) = Some z.
Proof.
  intros [H1 H2]. unfold read_u64. by rewrite (proj2 (Z.leb_le 0 z) H1), (proj2 (Z.leb_le z u64_max) H2).
Qed.
Lemma read_i64_ok z : is_i64 z → read_i64 (JInt z) = Some z.
Proof.
  intros [H1 H2]. unfold read_i64. by rewrite (proj2 (Z.leb_le i64_min z) H1), (proj2 (Z.leb_le z i64_max) H2).
Qed.

Lemma revision_roundtrip r : revision_info_ok r → read_revision (write_revision r) = Some r.
Proof.
  intros [He Hg]. destruct r as [e g s f]. unfold read_revision, read_object, required. cbn -[read_u64] in *.
  by rewrite read_u64_ok, read_u64_ok by done.
Qed.

Lemma outcome_kind_roundtrip k : read_outcome_kind (write_outcome_kind k) = Some k.
Proof. by destruct k. Qed.

Lemma output_roundtrip i :
  (if i is IReconciled o then revision_info_ok (oi_revision o) else True) → read_output (write_output i) = Some i.
Proof.
  destruct i as [o| | |]; [|done..]. intros Hr. destruct o as [k r w f]. cbn [oi_revision] in Hr.
  unfold read_output, write_output, outcome_fields, read_object.
  destruct w as [w|], f as [f|]; cbn -[read_revision write_revision]; unfold read_outcome_fields, required, optional;
    cbn -[read_revision write_revision]; rewrite revision_roundtrip by done; by destruct k.
Qed.

Lemma error_info_roundtrip e : read_error_info (write_error_info e) = Some e.
Proof. by destruct e as [[k|] m r]. Qed.

(** What a writer puts into a field of its own is not null. *)
Lemma optional_present {A} k (write : A → Json) (read : Json → option A) o x :
  field k o = write <$> x → (∀ a, x = Some a → write a ≠ JNull ∧ read (write a) = Some a) →
  optional k read o = Some x.
Proof.
  intros Hf Hw. unfold optional. rewrite Hf. destruct x as [a|]; [|done]. cbn. destruct (Hw a eq_refl) as [Hn Hr].
  destruct (write a) eqn:E; [done|..]; by rewrite Hr.
Qed.

Lemma operation_roundtrip i : operation_info_ok i → read_operation (write_operation i) = Some i.
Proof.
  intros Hok. destruct i as [id p out err]. unfold operation_info_ok in Hok. cbn [on_output] in Hok.
  assert (Hout : ∀ o, out = Some o → write_output o ≠ JNull ∧ read_output (write_output o) = Some o).
  { intros o ->. split; [by destruct o|]. by apply output_roundtrip. }
  assert (Herr : ∀ e, err = Some e → write_error_info e ≠ JNull ∧ read_error_info (write_error_info e) = Some e).
  { intros e _. split; [done|apply error_info_roundtrip]. }
  unfold read_operation, write_operation, read_object. cbn [on_id on_phase on_output on_error].
  match goal with |- context [fields_once _ ?o] => set (fs := o) end.
  assert (Honce : fields_once ["id"; "phase"; "output"; "error"] fs = true) by (by destruct out, err).
  rewrite Honce. rewrite (optional_present "output" write_output read_output fs out) by (by destruct out, err || exact Hout).
  rewrite (optional_present "error" write_error_info read_error_info fs err) by (by destruct out, err || exact Herr).
  by destruct p.
Qed.

(** The envelope. *)
Definition r_wire_ok {T} (r : R T) : Prop := is_i64 (r_ts r).

Lemma r_roundtrip {T} (write : T → Json) (read : Json → option T) (r : R T) :
  r_wire_ok r → (∀ a, r_data r = Some a → write a ≠ JNull ∧ read (write a) = Some a) →
  read_r read (write_r write r) = Some r.
Proof.
  intros Hts Hdata. destruct r as [code msg data ts kind retryable]. unfold r_wire_ok in Hts. cbn [r_ts r_data] in *.
  unfold read_r, write_r, read_object. cbn [r_code r_msg r_data r_ts r_error_kind r_retryable].
  match goal with |- context [fields_once _ ?o] => set (fs := o) end.
  assert (Honce : fields_once ["code"; "msg"; "data"; "ts"; "error_kind"; "retryable"] fs = true)
    by (by destruct kind, retryable).
  assert (Hd : optional "data" read fs = Some data).
  { unfold optional. subst fs. cbn. destruct data as [a|]; [|done]. destruct (Hdata a eq_refl) as [Hn Hr].
    destruct (write a) eqn:E; [done|..]; by rewrite Hr. }
  assert (Ht : required "ts" read_i64 fs = Some ts) by (unfold required; cbn; by apply read_i64_ok).
  rewrite Honce, Hd, Ht.
  rewrite (optional_present "error_kind" JString read_string fs kind) by (by destruct kind, retryable || by intros a ->).
  rewrite (optional_present "retryable" JBool read_bool fs retryable) by (by destruct kind, retryable || by intros a ->).
  by destruct code.
Qed.

(** An envelope without data is read the same whatever its data would be. *)
Lemma r_empty_roundtrip {T U} (write : T → Json) (r : R T) :
  r_wire_ok r → r_data r = None →
  ∀ read : Json → option U, read_r read (write_r write r)
    = Some (mkR (r_code r) (r_msg r) None (r_ts r) (r_error_kind r) (r_retryable r)).
Proof.
  intros Hts Hd read. destruct r as [code msg data ts kind retryable]. cbn in Hd. subst data.
  exact (r_roundtrip (λ _ : U, JNull) read (mkR code msg None ts kind retryable) Hts ltac:(done)).
Qed.

(** * Routes *)
Lemma find_path o : List.find (λ x, String.eqb (op_path x) (op_path o)) routes = Some o.
Proof. by destruct o. Qed.

Lemma path_inj o o' : op_path o = op_path o' → o = o'.
Proof. intros H. pose proof (find_path o) as H1. rewrite H, find_path in H1. congruence. Qed.

(** client and service agree on where an operation is: the paths are
    pairwise different and none of them is the event stream's, so mounting them
    cannot clash; a request sent with an operation's method to its path reaches
    that operation; a request reaches an operation only at its path, with its
    method or the [HEAD] of a [GET]; and it is answered as not found exactly when
    its path is nobody's. *)
Theorem requests_reach_their_operation (method : Method) (path : string) :
  NoDup (op_path <$> routes) ∧ (EVENT_URI ∉ (op_path <$> routes))
  ∧ (∀ o, dispatch (op_method o) (op_path o) = ToOp o)
  ∧ (∀ o, dispatch method path = ToOp o →
      path = op_path o ∧ (method = op_method o ∨ op_method o = GET ∧ method = HEAD))
  ∧ (dispatch method path = NotFoundRoute ↔ path ≠ EVENT_URI ∧ ∀ o, path ≠ op_path o).
Proof.
  split_and!.
  - apply (bool_decide_unpack _). vm_compute. exact Logic.I.
  - apply (bool_decide_unpack _). vm_compute. exact Logic.I.
  - intros o. unfold dispatch. rewrite find_path. by destruct o.
  - intros o. unfold dispatch. destruct (String.eqb path EVENT_URI); [done|].
    destruct (List.find _ routes) as [x|] eqn:Ef; [|done].
    apply List.find_some in Ef as [_ Hx%String.eqb_eq].
    destruct (filter_accepts (op_method x) method) eqn:Ea; [|done]. intros [= <-]. split; [done|].
    unfold filter_accepts in Ea. apply orb_true_iff in Ea as [H%bool_decide_eq_true|H]; [by left|].
    apply andb_true_iff in H as [H1%bool_decide_eq_true H2%bool_decide_eq_true]. by right.
  - unfold dispatch. destruct (String.eqb_spec path EVENT_URI) as [->|Hne]; [split; [done|by intros []]|].
    destruct (List.find _ routes) as [x|] eqn:Ef.
    + apply List.find_some in Ef as [_ Hx%String.eqb_eq]. split.
      * by destruct (filter_accepts _ _).
      * intros [_ Hn]. by destruct (Hn x).
    + split; [|done]. intros _. split; [done|]. intros o ->. by rewrite find_path in Ef.
Qed.

(** * End to end *)

Class JsonTextLaws (B : Type) {JT : JsonText B} := {
  json_roundtrip j : json_from_slice (json_to_vec j) = Some j;
}.

Section client.
Context {B : Type} {JT : JsonText B} {JL : JsonTextLaws B}.

(** An error envelope, whatever the status it comes with, is a server error. *)
Lemma error_delivered {T U} (write : T → Json) (read : Json → option U) operation status (r : R T) :
  is_i64 (r_ts r) → r_data r = None → r_code r = ROtherError →
  client_call read operation (deliver (B:=B) (status, write_r write r))
  = Err (EServer operation ROtherError (r_msg r) (r_error_kind r) (r_retryable r)).
Proof.
  intros Hts Hd Hc. unfold client_call, client_send, deliver. cbn [fst snd].
  destruct (is_success status); rewrite json_roundtrip; cbn [mbind option_bind];
    rewrite (r_empty_roundtrip write r Hts Hd); unfold server_error; cbn; by rewrite Hc.
Qed.

(** A success is its data. *)
Lemma success_delivered {T} (write : T → Json) (read : Json → option T) operation ts (a : T) :
  is_i64 ts → write a ≠ JNull → read (write a) = Some a →
  call_data read operation (deliver (B:=B) (OK_STATUS, write_r write (success ts a))) = Ok a.
Proof.
  intros Hts Hn Hr. unfold call_data, client_call, client_send, deliver. cbn [fst snd].
  change (is_success OK_STATUS) with true. cbn match. rewrite json_roundtrip. cbn [mbind option_bind].
  rewrite (r_roundtrip write read (success ts a) Hts); [done|]. intros b [= <-]. done.
Qed.

(** What the client is told of an outcome of the service. *)
Definition told (operation : string) (r : result OperationInfo OpError) : result OperationInfo ClientError :=
  match r with
  | Ok info => Ok info
  | Err e => Err (EServer operation ROtherError (oe_message e) (CoreErrorKind.as_str <$> oe_kind e) (oe_retryable e))
  end.

Lemma respond_delivered operation ts (r : result OperationInfo OpError) :
  is_i64 ts → (∀ i, r = Ok i → operation_info_ok i) →
  call_data read_operation operation (deliver (B:=B) (serve write_operation ts (Responded (respond ts r))))
  = told operation r.
Proof.
  intros Hts Hok. destruct r as [i|e]; cbn [respond serve told].
  - apply success_delivered; [done|done|]. by apply operation_roundtrip, Hok.
  - unfold call_data. by rewrite error_delivered.
Qed.

(** C19: errors keep their meaning over the wire: a failure the service
    classifies reaches the client, whatever the operation, as a server error with
    its message; the client recovers exactly the service's classification, and
    takes the service's word on whether a retry can help, the default of the kind
    when the service did not say, and no when neither is known. *)
Theorem errors_survive_the_wire {T U} (write : T → Json) (read : Json → option U) (operation : string) (ts : Z)
    (e : OpError) (Hts : is_i64 ts) :
  ∃ err, client_call read operation (deliver (B:=B) (serve write ts (Responded (respond ts (Err e : result T OpError)))))
         = Err err
    ∧ (∃ kind retryable, err = EServer operation ROtherError (oe_message e) kind retryable)
    ∧ core_error_kind err = oe_kind e
    ∧ client_retryable err
      = match oe_retryable e, oe_kind e with
        | Some answer, _ => answer
        | None, Some kind => CoreErrorKind.default_retryable kind
        | None, None => false
        end.
Proof.
  cbn [respond serve]. rewrite error_delivered by done. eexists. split; [reflexivity|].
  assert (Hkind : (CoreErrorKind.as_str <$> oe_kind e) ≫= CoreErrorKind.from_wire = oe_kind e).
  { destruct (oe_kind e) as [k|]; [|done]. cbn. by apply from_wire_as_str. }
  cbn [into_envelope other_error_with_kind r_msg r_error_kind r_retryable core_error_kind].
  split_and!; [by eauto|done|]. cbn [client_retryable core_error_kind]. rewrite Hkind.
  by destruct (oe_retryable e), (oe_kind e).
Qed.

Context {WH : WireHost}.
Context {PL : ProcessLib} {YF : YamlFloat} {PC : PatchCodec}.
Context {YC : YamlCodec} {UL : UrlLib} {SV : Semver}.
Context {W : Type} {EN : Env W} {FS : RuntimeFs W} {BH : BinaryHost W} {HB : BridgeHost W}.
Context {Q : Type} {MP : Mpsc Q}.

(** The integers of what the registry holds are those of the code. *)
Definition outcome_ok (o : ApplyOutcome) : Prop :=
  is_u64 (cr_epoch (outcome_revision o)) ∧ is_u64 (cr_generation (outcome_revision o)).
Definition registry_ok (s : Service (Q:=Q)) : Prop :=
  ∀ id o, registry_get id (ct_registry (sv_control s)) = Some (Succeeded (Reconciled o)) → outcome_ok o.

Lemma map_operation_ok id state i :
  (∀ o, state = Succeeded (Reconciled o) → outcome_ok o) → map_operation id state = Some i → operation_info_ok i.
Proof.
  intros Hok. destruct state as [| |[o| | |]|e]; cbn [map_operation map_operation_output].
  1,2,4,5,6,7: intros H; injection H as <-; exact Logic.I.
  destruct (map_reconcile_outcome_ok o) as (x & -> & Hrev & _). cbn. intros H. injection H as <-.
  unfold operation_info_ok. cbn. rewrite Hrev. destruct (Hok o eq_refl) as [H1 H2]. done.
Qed.

(** asking for an operation over the wire is asking the registry: the
    client gets the operation as the service sees it, every field of it, and an
    id that is malformed or unknown is refused with the service's own error. *)
Theorem operation_query_end_to_end (ts : Z) (request : CoreOperationReq) (s : Service (Q:=Q))
    (Hts : is_i64 ts) (Hok : registry_ok s) :
  let seen := call_data read_operation (op_path CoreV2Operation)
                (deliver (B:=B) (serve write_operation ts (route_operation ts request s))) in
  match operation_v2 request s with
  | Ok (Some info) => seen = Ok info
  | Ok None => False
  | Err e => seen = told (op_path CoreV2Operation) (Err e)
  end.
Proof.
  unfold route_operation. pose proof (@map_operation_ok) as Hmap. unfold registry_ok in Hok.
  destruct (operation_v2 request s) as [[info|]|e] eqn:E.
  - cbn [fmap option_fmap option_map answered]. apply (respond_delivered _ _ (Ok info) Hts).
    intros i [= <-]. unfold operation_v2 in E. destruct (operation_id_from_str _) as [id|]; [|done].
    destruct (registry_get id _) as [state|] eqn:Eg; [|done]. injection E as E.
    apply (Hmap id state info); [|done]. intros o ->. by apply (Hok id).
  - unfold operation_v2 in E. destruct (operation_id_from_str _) as [id|]; [|done].
    destruct (registry_get id _) as [state|] eqn:Eg; [|done]. injection E as E.
    destruct state as [| |[o| | |]|]; try done. cbn in E. destruct (map_reconcile_outcome_ok o) as (x & Hx & _).
    by rewrite Hx in E.
  - cbn [answered]. apply (respond_delivered _ _ (Err e) Hts). done.
Qed.

End client.

(** * Older peers *)

(** An envelope from a service that knows neither [error_kind] nor [retryable]
    is read, with neither. *)
Lemma older_envelope_reads (msg : string) (ts : Z) :
  is_i64 ts →
  read_r read_empty (JObject [("code", JString "OtherError"); ("msg", JString msg); ("data", JNull); ("ts", JInt ts)])
  = Some (other_error ts msg).
Proof. intros Hts. exact (r_empty_roundtrip (λ _ : unit, JNull) (other_error ts msg) Hts eq_refl read_empty). Qed.

(** A success of an operation without data carries null, and is read without
    data: what a client that needs data would take for missing. *)
Lemma unit_data_is_lost ts :
  is_i64 ts → r_data <$> (read_r read_empty (write_r (λ _ : unit, JNull) (success ts ()))) = Some None.
Proof.
  intros Hts.
  assert (Heq : write_r (λ _ : unit, JNull) (success ts ()) = write_r (λ _ : unit, JNull) (mkR ROk "ok" None ts None None))
    by done.
  by rewrite Heq, (r_empty_roundtrip (λ _ : unit, JNull) (mkR ROk "ok" None ts None None) Hts eq_refl).
Qed.

(** The default message of the builder is never used: a builder without a
    message does not build. *)
Lemma builder_default_msg_unused {T} ts (b : RBuilder T) :
  bl_msg b = None → ∃ e, builder_build ts b = Err e.
Proof.
  intros Hm. unfold builder_build, builder_validate. rewrite Hm. destruct (bl_code b); by eexists.
Qed.

(** * Witnesses *)

#[export] Instance plain_json : JsonText Json := {|
  json_to_vec j := j;
  json_from_slice j := Some j;
  body_text _ := "body";
|}.
#[export] Instance plain_json_laws : JsonTextLaws Json.
Proof. by split. Qed.

Lemma some_time : is_i64 1700000000000.
Proof. unfold is_i64, i64_min, i64_max. lia. Qed.

Lemma errors_survive_the_wire_witness :
  ∃ err, client_call read_operation "/v2/core/submit"
           (deliver (B:=Json) (serve write_operation 1700000000000
              (Responded (respond 1700000000000
                 (Err (op_with_kind CoreErrorKind.BinaryNotFound "mihomo not found"))))))
         = Err err
    ∧ core_error_kind err = Some CoreErrorKind.BinaryNotFound.
Proof.
  destruct (errors_survive_the_wire (B:=Json) write_operation read_operation "/v2/core/submit" 1700000000000
    (op_with_kind CoreErrorKind.BinaryNotFound "mihomo not found") some_time) as (err & H1 & _ & H2 & _).
  exists err. exact (conj H1 H2).
Defined.

(** A registry without a finished reconcile. *)
Definition no_reconciled (s : Service (Q:=ListQueue)) : bool :=
  forallb (λ kv, if ro_state kv.2 is Succeeded (Reconciled _) then false else true)
    (map_to_list (rg_operations (ct_registry (sv_control s)))).

Lemma no_reconciled_ok s : no_reconciled s = true → registry_ok s.
Proof.
  unfold no_reconciled. intros H id o Hget. rewrite forallb_forall in H.
  unfold registry_get in Hget. apply fmap_Some in Hget as (op & Hop & Hst).
  specialize (H (id, op)). cbn in H. rewrite <- Hst in H. exfalso.
  enough (false = true) by done. apply H. apply list_elem_of_In, elem_of_map_to_list. exact Hop.
Qed.


Lemma operation_query_end_to_end_witness :
  call_data read_operation (op_path CoreV2Operation)
    (deliver (B:=Json) (serve write_operation 1700000000000
       (route_operation 1700000000000 (mkOperationReq "gone" None) demo_service.booted_service)))
  = told (op_path CoreV2Operation) (Err (op_plain "malformed operation id: gone")).
Proof.
  refine (operation_query_end_to_end (B:=Json) 1700000000000 (mkOperationReq "gone" None) demo_service.booted_service
           some_time _).
  apply no_reconciled_ok. vm_compute. reflexivity.
Defined.
