(* ===== verification/ClashApi.v ===== *)
(** The client of a core's controller (clash-api): the requests of its
    operations (api/), the retry policies (retry.rs), the loop that sends a request
    (client.rs) and the bounded body of an error (client.rs, error.rs).

    [reqwest], [backon] and the URL library are third-party: an attempt is a
    computation over the host ([M W]), an error of the transport is what the
    policy asks of it, and a backoff is the list of its delays, in milliseconds
    ([Backoff]).  The streams are in [ClashStream]; the types of the other answers
    are not modelled. *)
From S2P Require Import Prelude Text Metadata Types Health Yaml Config Bridge Wire.
From Stdlib Require Import ZArith Lia.

(** * Errors (error.rs) *)

(** What the policies ask of a [reqwest::Error]. *)
Record ReqwestError := mkReqwest { re_connect : bool; re_timeout : bool; re_request : bool }.
Inductive WebSocketError := WsReqwest (e : ReqwestError) | WsUnexpectedStatus (status : Z) | WsOther (text : string).

Record ErrorBody := mkErrorBody { eb_message : option string; eb_text : string }.

Inductive ApiError :=
| InvalidBaseUrl (value source : string)
| UnsupportedUrlScheme (scheme : string)
| UrlCannotBeABase (url : string)
| BaseUrlHasQueryOrFragment (url : string)
| AbsoluteEndpoint (endpoint : string)
| InvalidEndpoint (endpoint source : string)
| CannotAppendPathSegment (url : string)
| InvalidArgument (argument message : string)
| UnsupportedTransport (transport platform : string)
| InvalidSecret
| BuildClient (source : string)
| RequestFailed (operation : string) (source : ReqwestError)
| HttpStatus (operation : string) (status : Z) (body : option ErrorBody)
| DecodeFailed (operation source : string)
| StreamFailed (operation source : string)
| WebSocketRead (operation : string) (source : WebSocketError)
| WebSocketFailed (operation : string) (source : WebSocketError).

(** * Requests *)

Inductive HttpMethod := MGet | MPost | MPut | MPatch | MDelete.
#[export] Instance HttpMethod_eq_dec : EqDecision HttpMethod.
Proof. solve_decision. Defined.

(** [RequestMetadata], and the request it goes with: the endpoint, the path
    segments pushed onto it, the query and the body. *)
Record RequestMetadata := mkMetadata { rm_operation : string; rm_method : HttpMethod; rm_retry_safe : bool }.
Record ApiRequest := mkRequest {
  rq_metadata : RequestMetadata;
  rq_endpoint : string;
  rq_segments : list string;
  rq_query : list (string * string);
  rq_body : option Json;
}.

Definition plain (operation : string) (method : HttpMethod) (retry_safe : bool) (endpoint : string) : ApiRequest :=
  mkRequest (mkMetadata operation method retry_safe) endpoint [] [] None.
Definition with_segments (operation : string) (method : HttpMethod) (retry_safe : bool) (endpoint : string)
    (segments : list string) : ApiRequest :=
  mkRequest (mkMetadata operation method retry_safe) endpoint segments [] None.
Definition with_query (query : list (string * string)) (r : ApiRequest) : ApiRequest :=
  mkRequest (rq_metadata r) (rq_endpoint r) (rq_segments r) (rq_query r ++ query) (rq_body r).
Definition with_body (body : Json) (r : ApiRequest) : ApiRequest :=
  mkRequest (rq_metadata r) (rq_endpoint r) (rq_segments r) (rq_query r) (Some body).

(** ** Proxies (api/proxies.rs) *)

Definition u16_max : Z := 65535.
Definition i16_max : Z := 32767.
Definition i32_max : Z := 2147483647.

(** [parse_status]. *)
Definition parse_status (value : string) : option Z := from_str_radix 10 u16_max value.

(** [str::split] at a character. *)
Fixpoint split_char (c : Ascii.ascii) (s : string) : list string :=
  match s with
  | EmptyString => [""]
  | String x s' =>
      if Ascii.eqb x c then "" :: split_char c s'
      else match split_char c s' with [] => [String x ""] | w :: ws => String x w :: ws end
  end.

Definition valid_item (item : string) : bool :=
  match split_once "-" item with
  | Some (first, last) =>
      match parse_status first, parse_status last with
      | Some first, Some last => (first <=? last)%Z
      | _, _ => false
      end
  | None => bool_decide (is_Some (parse_status item))
  end.

(** [validate_expected_status]. *)
Definition validate_expected_status (value : string) : result unit ApiError :=
  if String.eqb value "" then Err (InvalidArgument "expected" "must not be empty")
  else if forallb valid_item (split_char (Ascii.ascii_of_nat 47) value) then Ok ()
  else Err (InvalidArgument "expected" ("invalid status expression `" +:+ value +:+ "`")).

(** [ExpectedStatus] is its text, once validated. *)
Definition expected_status_new (value : string) : result string ApiError :=
  res_map (λ _, value) (validate_expected_status value).

(** [DelayQuery]; the timeout is in milliseconds. *)
Record DelayQuery := mkDelayQuery { dq_url : string; dq_timeout : Z; dq_expected : option string }.
Definition delay_query_new (url : string) (timeout : Z) : result DelayQuery ApiError :=
  if (timeout =? 0)%Z then Err (InvalidArgument "timeout" "must be at least one millisecond")
  else if (i32_max <? timeout)%Z then Err (InvalidArgument "timeout" "does not fit Mihomo's group timeout")
  else Ok (mkDelayQuery url timeout None).
Definition with_expected (expected : string) (q : DelayQuery) : DelayQuery :=
  mkDelayQuery (dq_url q) (dq_timeout q) (Some expected).
Definition query_pairs (q : DelayQuery) : list (string * string) :=
  [("url", dq_url q); ("timeout", fmt_u64 (dq_timeout q))]
  ++ match dq_expected q with Some expected => [("expected", expected)] | None => [] end.
Definition validate_proxy_timeout (q : DelayQuery) : result unit ApiError :=
  if (i16_max <? dq_timeout q)%Z
  then Err (InvalidArgument "timeout" "proxy delay endpoints accept at most 32767 milliseconds") else Ok ().

Definition api_groups : ApiRequest := plain "groups" MGet true "/group/".
Definition api_group (name : string) : ApiRequest := with_segments "group" MGet true "/group" [name; ""].
Definition api_group_delay (name : string) (q : DelayQuery) : ApiRequest :=
  with_query (query_pairs q) (with_segments "group_delay" MGet false "/group" [name; "delay"]).
Definition api_proxies : ApiRequest := plain "proxies" MGet true "/proxies/".
Definition api_proxy (name : string) : ApiRequest := with_segments "proxy" MGet true "/proxies" [name; ""].
Definition api_proxy_delay (name : string) (q : DelayQuery) : result ApiRequest ApiError :=
  let? _ := validate_proxy_timeout q in
  Ok (with_query (query_pairs q) (with_segments "proxy_delay" MGet false "/proxies" [name; "delay"])).
Definition api_select_proxy (group target : string) : ApiRequest :=
  with_body (JObject [("name", JString target)]) (with_segments "select_proxy" MPut false "/proxies" [group; ""]).
Definition api_clear_proxy_selection (group : string) : ApiRequest :=
  with_segments "clear_proxy_selection" MDelete false "/proxies" [group; ""].
Definition api_proxy_providers : ApiRequest := plain "proxy_providers" MGet true "/providers/proxies/".
Definition api_proxy_provider (provider : string) : ApiRequest :=
  with_segments "proxy_provider" MGet true "/providers/proxies" [provider; ""].
Definition api_update_proxy_provider (provider : string) : ApiRequest :=
  with_segments "update_proxy_provider" MPut false "/providers/proxies" [provider; ""].
Definition api_healthcheck_proxy_provider (provider : string) : ApiRequest :=
  with_segments "healthcheck_proxy_provider" MGet false "/providers/proxies" [provider; "healthcheck"].
Definition api_provider_proxy (provider proxy : string) : ApiRequest :=
  with_segments "provider_proxy" MGet true "/providers/proxies" [provider; proxy; ""].
Definition api_provider_proxy_delay (provider proxy : string) (q : DelayQuery) : result ApiRequest ApiError :=
  let? _ := validate_proxy_timeout q in
  Ok (with_query (query_pairs q)
        (with_segments "provider_proxy_delay" MGet false "/providers/proxies" [provider; proxy; "healthcheck"])).

(** ** Configurations (api/configs.rs) *)

Record UpdateConfigRequest := mkUpdateConfig { uc_path : string; uc_payload : string }.
Definition update_from_path (path : string) : UpdateConfigRequest := mkUpdateConfig path "".
Definition update_from_payload (payload : string) : UpdateConfigRequest := mkUpdateConfig "" payload.
Definition fmt_bool (b : bool) : string := if b then "true" else "false".

Definition api_configs : ApiRequest := plain "configs" MGet true "/configs".
Definition api_update_config (request : UpdateConfigRequest) (force : bool) : ApiRequest :=
  with_body (JObject [("path", JString (uc_path request)); ("payload", JString (uc_payload request))])
    (with_query [("force", fmt_bool force)] (plain "update_config" MPut false "/configs")).
Definition api_patch_config (patch : Json) : ApiRequest := with_body patch (plain "patch_config" MPatch false "/configs").
Definition api_update_geo_databases : ApiRequest := plain "update_geo_databases" MPost false "/configs/geo".

(** ** Connections (api/connections.rs) *)

(** [ConnectionStreamQuery::new], in milliseconds, on a 64-bit host. *)
Definition isize_max : Z := 9223372036854775807.
Definition connection_stream_query (interval : Z) : result Z ApiError :=
  if (interval =? 0)%Z then Err (InvalidArgument "interval" "must be at least one millisecond")
  else if (isize_max <? interval)%Z then Err (InvalidArgument "interval" "does not fit Mihomo's millisecond query")
  else Ok interval.

Definition api_connections : ApiRequest := plain "connections" MGet true "/connections".
Definition api_connections_ws (interval : Z) : ApiRequest :=
  with_query [("interval", fmt_u64 interval)] (plain "connections_ws" MGet true "/connections").
Definition api_close_connection (id : string) : ApiRequest :=
  with_segments "close_connection" MDelete true "/connections" [id].
Definition api_close_all_connections : ApiRequest := plain "close_all_connections" MDelete false "/connections".

(** ** Rules (api/rules.rs) *)

Definition api_rules : ApiRequest := plain "rules" MGet true "/rules/".
Definition api_patch_rules (patch : Json) : ApiRequest := with_body patch (plain "patch_rules" MPatch false "/rules/disable").
Definition api_rule_providers : ApiRequest := plain "rule_providers" MGet true "/providers/rules/".
Definition api_update_rule_provider (provider : string) : ApiRequest :=
  with_segments "update_rule_provider" MPut false "/providers/rules" [provider; ""].

(** ** Storage, names, logs, samples and maintenance (api/storage.rs, dns.rs,
    logs.rs, memory.rs, traffic.rs, version.rs, maintenance.rs) *)

(** [StorageKey::new]. *)
Definition storage_key_new (value : string) : result string ApiError :=
  if String.eqb value "" then Err (InvalidArgument "key" "must not be empty") else Ok value.
Definition api_storage_get (key : string) : ApiRequest := with_segments "storage_get" MGet true "/storage" [key].
Definition api_storage_put (key : string) (value : Json) : ApiRequest :=
  with_body value (with_segments "storage_put" MPut false "/storage" [key]).
Definition api_storage_delete (key : string) : ApiRequest := with_segments "storage_delete" MDelete true "/storage" [key].

Definition api_dns_query (name record_type : string) : ApiRequest :=
  with_query [("name", name); ("type", record_type)] (plain "dns_query" MGet true "/dns/query").

Definition api_logs (level : string) : ApiRequest := with_query [("level", level)] (plain "logs" MGet true "/logs").
Definition api_logs_ws (level : string) : ApiRequest := with_query [("level", level)] (plain "logs_ws" MGet true "/logs").
Definition api_structured_logs (level : string) : ApiRequest :=
  with_query [("format", "structured")] (with_query [("level", level)] (plain "structured_logs" MGet true "/logs")).
Definition api_structured_logs_ws (level : string) : ApiRequest :=
  with_query [("format", "structured")] (with_query [("level", level)] (plain "structured_logs_ws" MGet true "/logs")).

Definition api_memory : ApiRequest := plain "memory" MGet true "/memory".
Definition api_memory_ws : ApiRequest := plain "memory_ws" MGet true "/memory".
Definition api_traffic : ApiRequest := plain "traffic" MGet true "/traffic".
Definition api_traffic_ws : ApiRequest := plain "traffic_ws" MGet true "/traffic".
Definition api_version : ApiRequest := plain "version" MGet true "/version".

Definition api_hello : ApiRequest := plain "hello" MGet true "/".
Definition api_collect_garbage : ApiRequest := plain "collect_garbage" MPut false "/debug/gc".
Definition api_flush_fake_ip_cache : ApiRequest := plain "flush_fake_ip_cache" MPost false "/cache/fakeip/flush".
Definition api_flush_dns_cache : ApiRequest := plain "flush_dns_cache" MPost false "/cache/dns/flush".
Definition api_restart : ApiRequest := plain "restart" MPost false "/restart".
Definition api_upgrade (channel : option string) (force : bool) : ApiRequest :=
  with_query ((match channel with Some c => [("channel", c)] | None => [] end) ++ [("force", fmt_bool force)])
    (plain "upgrade" MPost false "/upgrade").
Definition api_upgrade_ui : ApiRequest := plain "upgrade_ui" MPost false "/upgrade/ui".
Definition api_upgrade_geo_databases : ApiRequest := plain "upgrade_geo_databases" MPost false "/upgrade/geo".

(** A request some operation of the client makes. *)
Inductive api_request : ApiRequest → Prop :=
| by_groups : api_request api_groups
| by_group name : api_request (api_group name)
| by_group_delay name q : api_request (api_group_delay name q)
| by_proxies : api_request api_proxies
| by_proxy name : api_request (api_proxy name)
| by_proxy_delay name q r : api_proxy_delay name q = Ok r → api_request r
| by_select_proxy group target : api_request (api_select_proxy group target)
| by_clear_proxy_selection group : api_request (api_clear_proxy_selection group)
| by_proxy_providers : api_request api_proxy_providers
| by_proxy_provider provider : api_request (api_proxy_provider provider)
| by_update_proxy_provider provider : api_request (api_update_proxy_provider provider)
| by_healthcheck provider : api_request (api_healthcheck_proxy_provider provider)
| by_provider_proxy provider proxy : api_request (api_provider_proxy provider proxy)
| by_provider_proxy_delay provider proxy q r : api_provider_proxy_delay provider proxy q = Ok r → api_request r
| by_configs : api_request api_configs
| by_update_config request force : api_request (api_update_config request force)
| by_patch_config patch : api_request (api_patch_config patch)
| by_update_geo : api_request api_update_geo_databases
| by_connections : api_request api_connections
| by_connections_ws interval : api_request (api_connections_ws interval)
| by_close_connection id : api_request (api_close_connection id)
| by_close_all : api_request api_close_all_connections
| by_rules : api_request api_rules
| by_patch_rules patch : api_request (api_patch_rules patch)
| by_rule_providers : api_request api_rule_providers
| by_update_rule_provider provider : api_request (api_update_rule_provider provider)
| by_storage_get key : api_request (api_storage_get key)
| by_storage_put key value : api_request (api_storage_put key value)
| by_storage_delete key : api_request (api_storage_delete key)
| by_dns_query name t : api_request (api_dns_query name t)
| by_logs level : api_request (api_logs level)
| by_logs_ws level : api_request (api_logs_ws level)
| by_structured_logs level : api_request (api_structured_logs level)
| by_structured_logs_ws level : api_request (api_structured_logs_ws level)
| by_memory : api_request api_memory
| by_memory_ws : api_request api_memory_ws
| by_traffic : api_request api_traffic
| by_traffic_ws : api_request api_traffic_ws
| by_version : api_request api_version
| by_hello : api_request api_hello
| by_collect_garbage : api_request api_collect_garbage
| by_flush_fake_ip : api_request api_flush_fake_ip_cache
| by_flush_dns : api_request api_flush_dns_cache
| by_restart : api_request api_restart
| by_upgrade channel force : api_request (api_upgrade channel force)
| by_upgrade_ui : api_request api_upgrade_ui
| by_upgrade_geo : api_request api_upgrade_geo_databases.

(** * Retries (retry.rs) *)

(** [RetryPolicy]. *)
Record RetryPolicy := mkPolicy {
  rp_delays : RequestMetadata → list Z;
  rp_is_retryable : RequestMetadata → ApiError → bool;
}.

(** [NoRetry]. *)
Definition no_retry : RetryPolicy := mkPolicy (λ _, []) (λ _ _, false).

Record ExponentialRetry := mkExponential { er_max_retries : nat; er_min_delay : Z; er_max_delay : Z; er_jitter : bool }.
Definition exponential_conservative : ExponentialRetry := mkExponential 3 100 2000 true.
(** [new]; the assertion on the order of the delays is one of debug builds. *)
Definition exponential_new (max_retries : nat) (min max : Z) : ExponentialRetry := mkExponential max_retries min max false.
Definition with_jitter (jitter : bool) (p : ExponentialRetry) : ExponentialRetry :=
  mkExponential (er_max_retries p) (er_min_delay p) (er_max_delay p) jitter.

Definition transient_status (status : Z) : bool := (status =? 502)%Z || (status =? 503)%Z || (status =? 504)%Z.
Definition transient_reqwest (e : ReqwestError) : bool := re_connect e || re_timeout e || re_request e.

(** [is_transient]. *)
Definition is_transient (e : ApiError) : bool :=
  match e with
  | RequestFailed _ source => transient_reqwest source
  | HttpStatus _ status _ => transient_status status
  | WebSocketFailed _ (WsReqwest source) => transient_reqwest source
  | WebSocketFailed _ (WsUnexpectedStatus status) => transient_status status
  | _ => false
  end.

(** [ExponentialBuilder] of [backon]: the delays of a schedule. *)
Class Backoff := {
  backoff_delays : Z → Z → nat → bool → list Z;
}.

Section retry.
Context {BO : Backoff}.

(** [RetryPolicy for ExponentialRetry]. *)
Definition exponential_policy (p : ExponentialRetry) : RetryPolicy :=
  mkPolicy (λ _, backoff_delays (er_min_delay p) (er_max_delay p) (er_max_retries p) (er_jitter p))
    (λ request e, rm_retry_safe request && is_transient e).
End retry.

(** * Sending (client.rs) *)

Section execute.
Context {W T : Type}.
(** One attempt, the wait between two, and [is_named_pipe_busy]. *)
Context (operation : M W (result T ApiError)) (sleep : Z → M W unit) (is_named_pipe_busy : ApiError → bool).

(** The loop of [execute], with the delays that are left. *)
Fixpoint execute_loop (policy : RetryPolicy) (metadata : RequestMetadata) (delays : list Z) : M W (result T ApiError) :=
  r <- operation ;;
  match r with
  | Ok value => ret (Ok value)
  | Err error =>
      if negb (is_named_pipe_busy error) && rp_is_retryable policy metadata error
      then match delays with
           | [] => ret (Err error)
           | delay :: delays' => sleep delay ;;; execute_loop policy metadata delays'
           end
      else ret (Err error)
  end.

(** [execute]. *)
Definition api_execute (policy : RetryPolicy) (metadata : RequestMetadata) : M W (result T ApiError) :=
  execute_loop policy metadata (rp_delays policy metadata).
End execute.

Definition MAX_ERROR_BODY : nat := 16 * 1024.

(** What [ErrorBody::from_bytes] asks of [String::from_utf8_lossy] and
    [serde_json]. *)
Class BodyText := {
  body_lossy : list Ascii.ascii → string;
  body_message : list Ascii.ascii → option string;
}.

Section body.
Context {BT : BodyText}.

(** [ErrorBody::from_bytes]. *)
Definition error_body_from_bytes (bytes : list Ascii.ascii) : ErrorBody :=
  let bytes := take MAX_ERROR_BODY bytes in mkErrorBody (body_message bytes) (body_lossy bytes).

(** The loop of [ensure_success] over the chunks of the body; a chunk that fails
    ends it. *)
Fixpoint read_body (chunks : list (option (list Ascii.ascii))) (bytes : list Ascii.ascii) : list Ascii.ascii :=
  match chunks with
  | Some chunk :: chunks' =>
      if (length bytes <? MAX_ERROR_BODY)%nat
      then read_body chunks' (bytes ++ take (MAX_ERROR_BODY - length bytes) chunk)
      else bytes
  | _ => bytes
  end.

(** [ensure_success]. *)
Definition ensure_success {A} (operation : string) (status : Z) (response : A) (chunks : list (option (list Ascii.ascii))) :
    result A ApiError :=
  if (200 <=? status)%Z && (status <? 300)%Z then Ok response
  else
    let bytes := read_body chunks [] in
    Err (HttpStatus operation status
           (if bool_decide (bytes = []) then None else Some (error_body_from_bytes bytes))).
End body.
