(* ===== verification/ClashApiProps.v ===== *)
(** What the client of the controller guarantees: requests that change something
    are sent once, the others a bounded number of times and only after failures
    that may pass, and the body of an error is bounded. *)
From S2P Require Import Prelude Text Metadata Types Health Yaml Config Bridge Wire ClashApi.
From Stdlib Require Import ZArith Lia.

(** Documented behaviour of the schedule: as many delays as retries. *)
Class BackoffLaws {BO : Backoff} := {
  backoff_count min max times jitter : length (backoff_delays min max times jitter) = times;
}.

(** The requests that may be repeated read something or delete one thing. *)
Lemma retry_safe_requests r :
  api_request r → rm_retry_safe (rq_metadata r) = true →
  rm_method (rq_metadata r) = MGet
  ∨ rm_method (rq_metadata r) = MDelete ∧ rm_operation (rq_metadata r) ∈ ["close_connection"; "storage_delete"].
Proof.
  destruct 1 as [| | | | |name q r Hr| | | | | | | |provider proxy q r Hr| | | | | | | | | | | | | | | | | | | | | | | | | | | | | | | | |];
    try (by left); try done; try (right; split; [done|set_solver]).
  - unfold api_proxy_delay in Hr. destruct (validate_proxy_timeout q); [|done]. by injection Hr as <-.
  - unfold api_provider_proxy_delay in Hr. destruct (validate_proxy_timeout q); [|done]. by injection Hr as <-.
Qed.

Section execute.
Context {W T : Type}.
Context (operation : M W (result T ApiError)) (sleep : Z → M W unit) (is_named_pipe_busy : ApiError → bool).

Lemma execute_not_retryable policy metadata delays w :
  (∀ e, rp_is_retryable policy metadata e = false) →
  execute_loop operation sleep is_named_pipe_busy policy metadata delays w = operation w.
Proof.
  intros Hn. destruct delays; cbn; unfold bind; destruct (operation w) as [[v|e] w']; try done;
    rewrite Hn, andb_false_r; done.
Qed.

(** An error after which the loop goes on. *)
Definition goes_on (policy : RetryPolicy) (metadata : RequestMetadata) (e : ApiError) : Prop :=
  is_named_pipe_busy e = false ∧ rp_is_retryable policy metadata e = true.

(** A run of attempts: the failures before the last one, with the waits after
    them. *)
Inductive attempts : list (ApiError * Z) → W → result T ApiError → W → Prop :=
| attempt_last w r w' : operation w = (r, w') → attempts [] w r w'
| attempt_again e d l w w1 w2 r w' :
    operation w = (Err e, w1) → sleep d w1 = ((), w2) → attempts l w2 r w' → attempts ((e, d) :: l) w r w'.

Lemma execute_attempts policy metadata delays w r w' :
  execute_loop operation sleep is_named_pipe_busy policy metadata delays w = (r, w') →
  ∃ failures, attempts failures w r w' ∧ failures.*2 `prefix_of` delays
    ∧ Forall (λ f, goes_on policy metadata f.1) failures
    ∧ (∀ e, r = Err e → goes_on policy metadata e → length failures = length delays).
Proof.
  revert w. induction delays as [|d delays IH]; intros w; cbn; unfold bind;
    destruct (operation w) as [[v|e] w1] eqn:Eop.
  - intros [= <- <-]. exists []. split_and!; [by constructor|done|done|done].
  - destruct (_ && _) eqn:Eg; intros [= <- <-]; exists []; (split_and!; [by constructor|done|done|done]).
  - intros [= <- <-]. exists []. split_and!; [by constructor|apply prefix_nil|done|done].
  - destruct (_ && _) eqn:Eg.
    + apply andb_true_iff in Eg as [Hb%negb_true_iff Hr]. destruct (sleep d w1) as [[] w2] eqn:Es. intros Hrun.
      destruct (IH w2 Hrun) as (failures & Ha & Hp & Hf & Hl). exists ((e, d) :: failures). split_and!.
      * by econstructor.
      * cbn. by apply prefix_cons.
      * by constructor.
      * intros e' He Hgo. cbn. by rewrite (Hl e' He Hgo).
    + intros [= <- <-]. exists []. split_and!; [by constructor|apply prefix_nil|done|].
      intros e' [= <-] [Hb Hr]. rewrite Hb, Hr in Eg. done.
Qed.

Context {BO : Backoff} {BL : BackoffLaws}.

(** C32: a request is repeated only as far as its policy goes: under an
    exponential policy the attempts are one more than the waits, at most the
    configured number of retries; every attempt but the last failed with an error
    that may pass, on an operation that may be repeated; the answer is that of the
    last attempt; and it is such a failure only when all retries were spent. *)
Theorem retries_are_bounded (p : ExponentialRetry) (metadata : RequestMetadata) (w w' : W) (r : result T ApiError)
    (Hrun : api_execute operation sleep is_named_pipe_busy (exponential_policy p) metadata w = (r, w')) :
  ∃ failures, attempts failures w r w'
    ∧ (length failures ≤ er_max_retries p)%nat
    ∧ Forall (λ f, rm_retry_safe metadata = true ∧ is_transient f.1 = true ∧ is_named_pipe_busy f.1 = false) failures
    ∧ (∀ e, r = Err e → rm_retry_safe metadata = true → is_transient e = true → is_named_pipe_busy e = false →
        length failures = er_max_retries p).
Proof.
  destruct (execute_attempts _ _ _ _ _ _ Hrun) as (failures & Ha & Hp & Hf & Hl). exists failures.
  assert (Hlen : length (rp_delays (exponential_policy p) metadata) = er_max_retries p) by apply backoff_count.
  split_and!; [done| | |].
  - apply prefix_length in Hp. rewrite length_fmap, Hlen in Hp. done.
  - eapply Forall_impl; [exact Hf|]. intros [e d] [Hb Hr]. cbn in *. apply andb_true_iff in Hr as [??]. done.
  - intros e He Hs Ht Hb. rewrite <- Hlen. apply (Hl e He). split; [done|]. cbn. by rewrite Hs, Ht.
Qed.

(** C33: what changes the core is sent once: for every request of the client
    that creates, replaces or patches something, and every exponential policy,
    sending it is one attempt and nothing else, whatever comes of it. *)
Theorem writes_are_sent_once (p : ExponentialRetry) (request : ApiRequest) (w : W)
    (Hrequest : api_request request)
    (Hwrite : rm_method (rq_metadata request) ∈ [MPost; MPut; MPatch]) :
  api_execute operation sleep is_named_pipe_busy (exponential_policy p) (rq_metadata request) w = operation w.
Proof.
  apply execute_not_retryable. intros e. cbn. destruct (rm_retry_safe (rq_metadata request)) eqn:Es; [|done].
  exfalso. destruct (retry_safe_requests _ Hrequest Es) as [Hm|[Hm _]]; rewrite Hm in Hwrite; set_solver.
Qed.
End execute.

(** * Bodies *)

Section body.
Context {BT : BodyText}.

(** The bytes of the chunks up to the first that fails. *)
Fixpoint received (chunks : list (option (list Ascii.ascii))) : list Ascii.ascii :=
  match chunks with Some chunk :: chunks' => chunk ++ received chunks' | _ => [] end.

Lemma read_body_ok chunks bytes :
  (length bytes ≤ MAX_ERROR_BODY)%nat → read_body chunks bytes = take MAX_ERROR_BODY (bytes ++ received chunks).
Proof.
  remember MAX_ERROR_BODY as cap eqn:Ecap. revert bytes.
  induction chunks as [|[chunk|] chunks IH]; intros bytes Hb; cbn [read_body received].
  - by rewrite app_nil_r, take_ge.
  - rewrite <- Ecap. destruct (Nat.ltb_spec (length bytes) cap) as [Hlt|Hge].
    + rewrite IH.
      * rewrite <- app_assoc, !(take_app bytes). f_equal. rewrite !take_app, take_take, Nat.min_id. f_equal.
        rewrite length_take. destruct (Nat.le_gt_cases (length chunk) (cap - length bytes)).
        -- by rewrite Nat.min_r by lia.
        -- rewrite Nat.min_l, Nat.sub_diag by lia. by replace (cap - length bytes - length chunk) with 0 by lia.
      * rewrite length_app, length_take. lia.
    + rewrite take_app_le by lia. by rewrite take_ge.
  - by rewrite app_nil_r, take_ge.
Qed.

(** a refused request is reported with at most 16 KiB of its body, however
    long the body and however it is cut into chunks: exactly the first bytes of
    what arrived, and no body at all when nothing did. *)
Theorem error_body_is_bounded (A : Type) (operation : string) (status : Z) (response : A)
    (chunks : list (option (list Ascii.ascii))) (Hstatus : ¬ (200 ≤ status < 300)%Z) :
  ensure_success operation status response chunks
  = Err (HttpStatus operation status
           (match received chunks with
            | [] => None
            | bytes => Some (error_body_from_bytes (take MAX_ERROR_BODY bytes))
            end))
  ∧ (length (read_body chunks []) ≤ MAX_ERROR_BODY)%nat.
Proof.
  assert (Hread : read_body chunks [] = take MAX_ERROR_BODY (received chunks))
    by (rewrite read_body_ok; [done|cbn; lia]).
  rewrite Hread. split; [|rewrite length_take; lia].
  unfold ensure_success.
  assert (Hs : (200 <=? status)%Z && (status <? 300)%Z = false).
  { apply andb_false_iff. destruct (Z.leb_spec 200 status), (Z.ltb_spec status 300); try (by left); try (by right). lia. }
  rewrite Hs, Hread. destruct (received chunks) as [|b bs] eqn:E; [by rewrite take_nil|].
  rewrite bool_decide_false; [done|]. intros H. apply (f_equal length) in H. rewrite length_take in H. unfold MAX_ERROR_BODY in H. cbn [length] in H. lia.
Qed.
End body.

(** * Witnesses *)

#[export] Instance flat_backoff : Backoff := {| backoff_delays min max times jitter := replicate times min |}.
#[export] Instance flat_backoff_laws : BackoffLaws.
Proof. split. intros. apply length_replicate. Qed.
#[export] Instance plain_body : BodyText := {| body_lossy _ := "body"; body_message _ := None |}.

Module demo_api.
(** A controller that refuses its first two requests; the host counts them. *)
Definition answer (n : nat) : result string ApiError * nat :=
  (if (n <? 2)%nat then Err (HttpStatus "version" 503 None) else Ok "v1", S n).
Definition wait (_ : Z) (n : nat) : unit * nat := ((), n).
Definition never_busy (_ : ApiError) : bool := false.

(** A read is repeated until it succeeds, a write is not. *)
Example read_repeated :
  api_execute answer wait never_busy (exponential_policy exponential_conservative) (rq_metadata api_version) 0 = (Ok "v1", 3).
Proof. reflexivity. Qed.
Example write_not_repeated :
  (api_execute answer wait never_busy (exponential_policy exponential_conservative) (rq_metadata api_restart) 0).2 = 1.
Proof. reflexivity. Qed.

Example statuses :
  (expected_status_new "200/204/401-429", expected_status_new "429-401", expected_status_new "200/")
  = (Ok "200/204/401-429", Err (InvalidArgument "expected" "invalid status expression `429-401`"),
     Err (InvalidArgument "expected" "invalid status expression `200/`")).
Proof. vm_compute. reflexivity. Qed.
End demo_api.

Lemma retries_are_bounded_witness :
  ∃ failures, attempts demo_api.answer demo_api.wait failures 0 (Ok "v1") 3 ∧ (length failures ≤ 3)%nat.
Proof.
  destruct (retries_are_bounded demo_api.answer demo_api.wait demo_api.never_busy exponential_conservative
              (rq_metadata api_version) 0 3 (Ok "v1") demo_api.read_repeated) as (failures & Ha & Hn & _).
  exists failures. exact (conj Ha Hn).
Defined.

Lemma writes_are_sent_once_witness :
  api_execute demo_api.answer demo_api.wait demo_api.never_busy (exponential_policy exponential_conservative)
    (rq_metadata api_restart) 0 = demo_api.answer 0.
Proof.
  apply (writes_are_sent_once demo_api.answer demo_api.wait demo_api.never_busy exponential_conservative api_restart 0).
  - exact by_restart.
  - left.
Defined.

Lemma error_body_is_bounded_witness :
  ensure_success "version" 503 () [Some []; None] = Err (HttpStatus "version" 503 None).
Proof.
  refine (proj1 (error_body_is_bounded unit "version" 503 () [Some []; None] _)). lia.
Defined.
