(* ===== verification/Commands.v ===== *)
(** The command line of the service (nyanpasu-service-runtime, cmds/, with
    lib.rs and utils/service.rs): the privileges a command needs, and the commands
    that install, start, stop, restart, update, report and remove the service.

    The service manager of the operating system, the file system, the user
    database and the service's own IPC endpoint are the host ([ServiceHost]); [io]
    and [anyhow] errors are their texts.  The platforms are Linux and macOS: the
    access-control file that [install] writes on Windows is left out.  The
    arguments are parsed by [clap]; [--version] and the set-up of logging are left
    out, and [server], [rpc] and [completions] are run by the caller. *)
From S2P Require Import Prelude Text Metadata Types Health Capability.
From Stdlib Require Import ZArith Lia.

Inductive Platform := Linux | MacOS.

Definition APP_NAME : string := "nyanpasu-service".
Definition SERVICE_LABEL : string := "moe.elaina." +:+ APP_NAME.
Definition NYANPASU_USER_GROUP : string := "nyanpasu".

Inductive ServiceStatus := NotInstalled | SvcStopped (reason : option string) | SvcRunning.
#[export] Instance ServiceStatus_eq_dec : EqDecision ServiceStatus.
Proof. solve_decision. Defined.

Inductive CommandError :=
| PermissionDenied
| ServiceNotInstalled
| ServiceAlreadyInstalled
| ServiceAlreadyStopped
| ServiceAlreadyRunning
| JoinError (text : string)
| IoFailed (text : string)
| SimdError (text : string)
| OtherFailed (text : string).

(** [Display for CommandError]. *)
Definition command_error_display (e : CommandError) : string :=
  match e with
  | PermissionDenied => "permission denied"
  | ServiceNotInstalled => "service not installed"
  | ServiceAlreadyInstalled => "service not running"
  | ServiceAlreadyStopped => "service not running"
  | ServiceAlreadyRunning => "service already running"
  | JoinError text => "join error: " +:+ text
  | IoFailed text => "io error: " +:+ text
  | SimdError text => "serde error: " +:+ text
  | OtherFailed text => text
  end.

(** [ExitCode], and [handler] on the outcome of a command (lib.rs). *)
Inductive ExitCode := Normal | CodePermissionDenied | CodeNotInstalled | CodeAlreadyInstalled | CodeAlreadyStopped
| CodeAlreadyRunning | CodeOther.
Definition exit_code_value (c : ExitCode) : Z :=
  match c with
  | Normal => 0 | CodePermissionDenied => 64 | CodeNotInstalled => 100 | CodeAlreadyInstalled => 101
  | CodeAlreadyStopped => 102 | CodeAlreadyRunning => 103 | CodeOther => 1
  end.
Definition handler (r : result unit CommandError) : ExitCode :=
  match r with
  | Ok _ => Normal
  | Err PermissionDenied => CodePermissionDenied
  | Err ServiceNotInstalled => CodeNotInstalled
  | Err ServiceAlreadyInstalled => CodeAlreadyInstalled
  | Err ServiceAlreadyStopped => CodeAlreadyStopped
  | Err ServiceAlreadyRunning => CodeAlreadyRunning
  | Err _ => CodeOther
  end.

Inductive LocalIpcPolicyArg := ArgForce | ArgPrefer | ArgDisable.

(** [From<LocalIpcPolicyArg>], [policy_value], and the values [clap] accepts. *)
Definition policy_of_arg (a : LocalIpcPolicyArg) : LocalIpcPolicy :=
  match a with ArgForce => Force | ArgPrefer => Prefer | ArgDisable => Disable end.
Definition policy_value (a : LocalIpcPolicyArg) : string :=
  match a with ArgForce => "force" | ArgPrefer => "prefer" | ArgDisable => "disable" end.
Definition policy_from_value (s : string) : option LocalIpcPolicyArg :=
  if String.eqb s "force" then Some ArgForce
  else if String.eqb s "prefer" then Some ArgPrefer
  else if String.eqb s "disable" then Some ArgDisable
  else None.

Record InstallCommand := mkInstall {
  ins_user : string;
  ins_nyanpasu_data_dir : string;
  ins_nyanpasu_config_dir : string;
  ins_nyanpasu_app_dir : string;
  ins_local_ipc_policy : LocalIpcPolicyArg;
}.
Record StatusCommand := mkStatusCommand { stc_json : bool; stc_skip_service_check : bool; stc_exit_code : bool }.
Record UpdateCommand := mkUpdate { up_check : bool; up_from : option string }.

Inductive Commands :=
| Install (c : InstallCommand) | Uninstall | StartCmd | StopCmd | RestartCmd | ServerCmd
| StatusCmd (c : StatusCommand) | UpdateCmd (c : UpdateCommand) | RpcCmd | CompletionsCmd.

(** [is_unprivileged]. *)
Definition is_unprivileged (command : option Commands) : bool :=
  match command with
  | None | Some (StatusCmd _) | Some RpcCmd | Some CompletionsCmd => true
  | Some (UpdateCmd ctx) => up_check ctx
  | _ => false
  end.

(** What the service manager is told to install. *)
Record ServiceInstallCtx := mkInstallCtx {
  sic_label : string;
  sic_program : string;
  sic_args : list string;
  sic_username : option string;
  sic_working_directory : option string;
  sic_environment : option (list (string * string));
  sic_autostart : bool;
}.
Record InstallPaths := mkInstallPaths { ip_program : string; ip_working_directory : string }.

(** [build_install_ctx]. *)
Definition build_install_ctx (label : string) (paths : InstallPaths) (ctx : InstallCommand)
    (environment : list (string * string)) : ServiceInstallCtx :=
  mkInstallCtx label (ip_program paths)
    ["server"; "--nyanpasu-data-dir"; ins_nyanpasu_data_dir ctx; "--nyanpasu-config-dir"; ins_nyanpasu_config_dir ctx;
     "--nyanpasu-app-dir"; ins_nyanpasu_app_dir ctx; "--local-ipc-policy"; policy_value (ins_local_ipc_policy ctx);
     "--service"]
    None (Some (ip_working_directory paths)) (Some environment) true.

(** The host. *)
Class ServiceHost (W : Type) := {
  platform : Platform;
  service_data_dir : string;
  service_config_dir : string;
  must_check_elevation : M W bool;
  get_service_manager : M W (result unit string);
  manager_status : M W (result ServiceStatus string);
  plist_exists : M W bool;
  manager_start : M W (result unit string);
  manager_stop : M W (result unit string);
  manager_install : ServiceInstallCtx → M W (result unit string);
  manager_uninstall : M W (result unit string);
  (** The stop under a timeout of eight seconds; [None] when it did not end. *)
  stop_within : M W (option (result unit string));
  (** The processes, with their working directories; [kill] one of them. *)
  processes : M W (list (Z * option string));
  current_pid : Z;
  kill : Z → M W unit;
  sleep_secs : Z → M W unit;
  path_there : string → M W bool;
  create_dirs : string → M W (result unit string);
  copy_file : string → string → M W (result unit string);
  current_exe : M W (result string string);
  (** The output of [getent group], [groupadd], [id -nG] and [usermod]. *)
  group_exists : M W bool;
  create_group : M W (result unit string);
  user_groups : string → M W string;
  (** The output of [dseditgroup -o read], when it succeeds. *)
  group_listing : M W (option string);
  add_user_to_group : string → M W (result unit string);
  home_var : M W (option string);
  (** The version a running service answers with. *)
  server_version : M W (option string);
}.

Section commands.
Context {W : Type} {SH : ServiceHost W}.

(** An [io] error, and an [anyhow] error, through the question mark. *)
Definition io_of {A} (m : M W (result A string)) : M W (result A CommandError) :=
  r <- m ;; ret (res_map_err IoFailed r).
Definition other_of {A} (m : M W (result A string)) : M W (result A CommandError) :=
  r <- m ;; ret (res_map_err OtherFailed r).

(** * utils/service.rs *)

(** [normalize_status]: on macOS a service whose definition is there is
    installed. *)
Definition normalize_status (status : ServiceStatus) (plist : bool) : ServiceStatus :=
  match status with NotInstalled => if plist then SvcStopped None else NotInstalled | _ => status end.

Definition svc_status : M W (result ServiceStatus CommandError) :=
  status <-? io_of manager_status ;;
  match platform with
  | MacOS => plist <- plist_exists ;; ret (Ok (normalize_status status plist))
  | Linux => ret (Ok status)
  end.

(** [{:?}] of a status. *)
Definition status_debug (s : ServiceStatus) : string :=
  match s with
  | NotInstalled => "NotInstalled"
  | SvcStopped None => "Stopped(None)"
  | SvcStopped (Some r) => "Stopped(Some(" +:+ r +:+ "))"
  | SvcRunning => "Running"
  end.

(** * start.rs, stop.rs, restart.rs, uninstall.rs *)

(** The last step of the commands: look again, and compare. *)
Definition confirm (expected : ServiceStatus → bool) (what : string) : M W (result unit CommandError) :=
  status <-? svc_status ;;
  ret (if expected status then Ok () else Err (OtherFailed (what +:+ ", status: " +:+ status_debug status))).
Definition is_running (s : ServiceStatus) : bool := bool_decide (s = SvcRunning).
Definition is_stopped (s : ServiceStatus) : bool := match s with SvcStopped _ => true | _ => false end.
Definition is_not_installed (s : ServiceStatus) : bool := bool_decide (s = NotInstalled).

Definition start_with : M W (result unit CommandError) :=
  status <-? svc_status ;;
  match status with
  | NotInstalled => ret (Err ServiceNotInstalled)
  | SvcRunning => ret (Err ServiceAlreadyRunning)
  | SvcStopped _ =>
      _ <-? io_of manager_start ;;
      sleep_secs 3 ;;; confirm is_running "service start failed"
  end.

(** The processes the fallback kills, in the order they are listed. *)
Definition is_service_process (p : Z * option string) : bool :=
  match p.2 with Some cwd => contains APP_NAME cwd && negb (p.1 =? current_pid)%Z | None => false end.
Fixpoint kill_all (ps : list (Z * option string)) : M W unit :=
  match ps with
  | [] => ret ()
  | p :: ps => (if is_service_process p then kill p.1 else ret ()) ;;; kill_all ps
  end.

(** [stop_running_service]. *)
Definition stop_running_service : M W (result unit CommandError) :=
  r <- stop_within ;;
  match r with
  | Some r => ret (res_map_err OtherFailed r)
  | None => ps <- processes ;; kill_all ps ;;; ret (Ok ())
  end.

(** [stop_impl] with it. *)
Definition stop_with : M W (result unit CommandError) :=
  status <-? svc_status ;;
  match status with
  | NotInstalled => ret (Err ServiceNotInstalled)
  | SvcStopped _ => ret (Err ServiceAlreadyStopped)
  | SvcRunning =>
      _ <-? stop_running_service ;;
      sleep_secs 3 ;;; confirm is_stopped "service stop failed"
  end.

Definition restart_with : M W (result unit CommandError) :=
  status <-? svc_status ;;
  match status with
  | NotInstalled => ret (Err ServiceNotInstalled)
  | SvcStopped _ =>
      _ <-? io_of manager_start ;;
      sleep_secs 3 ;;; confirm is_running "service restart failed"
  | SvcRunning =>
      _ <-? io_of manager_stop ;;
      sleep_secs 3 ;;;
      (_ <-? io_of manager_start ;;
       sleep_secs 3 ;;; confirm is_running "service restart failed")
  end.

Definition uninstall_with : M W (result unit CommandError) :=
  status <-? svc_status ;;
  match status with
  | NotInstalled => ret (Err ServiceNotInstalled)
  | SvcStopped _ =>
      _ <-? io_of manager_uninstall ;; confirm is_not_installed "service uninstall failed"
  | SvcRunning =>
      _ <-? io_of manager_stop ;;
      sleep_secs 5 ;;;
      (_ <-? io_of manager_uninstall ;; confirm is_not_installed "service uninstall failed")
  end.

(** * install.rs *)

Definition ensure_dir (p : string) : M W (result unit CommandError) :=
  found <- path_there p ;; if (found : bool) then ret (Ok ()) else io_of (create_dirs p).

(** The program the service is installed with; [EXE_SUFFIX] is empty. *)
Definition installed_program : string :=
  match platform with Linux => "/usr/bin/" +:+ APP_NAME | MacOS => service_data_dir +:+ "/" +:+ APP_NAME end.

Definition copy_binary (service_binary : string) : M W (result unit CommandError) :=
  current <-? io_of current_exe ;;
  if String.eqb current service_binary then ret (Ok ()) else io_of (copy_file current service_binary).

(** [is_user_in_nyanpasu_group]: the group is looked for in the text of the user's
    groups, or the user in that of the group. *)
Definition is_user_in_nyanpasu_group (user : string) : M W bool :=
  match platform with
  | Linux => groups <- user_groups user ;; ret (contains NYANPASU_USER_GROUP groups)
  | MacOS => listing <- group_listing ;; ret (match listing with Some text => contains user text | None => false end)
  end.

Definition ensure_group (user : string) : M W (result unit CommandError) :=
  found <- group_exists ;;
  _ <-? (if (found : bool) then ret (Ok ()) else other_of create_group) ;;
  (inside <- is_user_in_nyanpasu_group user ;;
   if (inside : bool) then ret (Ok ()) else other_of (add_user_to_group user)).

Definition install_with (ctx : InstallCommand) : M W (result unit CommandError) :=
  status <-? svc_status ;;
  match status with
  | NotInstalled =>
      _ <-? ensure_dir service_data_dir ;;
      _ <-? ensure_dir service_config_dir ;;
      _ <-? copy_binary installed_program ;;
      _ <-? ensure_group (ins_user ctx) ;;
      (home <- home_var ;;
       let envs := match home with Some h => [("HOME", h)] | None => [] end in
       _ <-? io_of (manager_install
                      (build_install_ctx SERVICE_LABEL (mkInstallPaths installed_program service_data_dir) ctx envs)) ;;
       status <-? svc_status ;;
       ret (if is_not_installed status then Err (OtherFailed "Service install failed") else Ok ()))
  | _ => ret (Err ServiceAlreadyInstalled)
  end.

(** * update.rs *)

Inductive UpdatePlan := Seed | ReplaceOffline | StopReplaceStart | UpToDate.
#[export] Instance UpdatePlan_eq_dec : EqDecision UpdatePlan.
Proof. solve_decision. Defined.

End commands.

(** The order of [semver::Version], on the texts a version parses from. *)
Class VersionOrder := {
  Version : Type;
  version_parse : string → option Version;
  version_lt : Version → Version → bool;
}.

Section update.
Context {W : Type} {SH : ServiceHost W} {VO : VersionOrder}.

(** [plan_update]. *)
Definition plan_update (binary_exists : bool) (source : Version) (installed : option Version) : UpdatePlan :=
  if negb binary_exists then Seed
  else match installed with
       | None => ReplaceOffline
       | Some installed => if version_lt installed source then StopReplaceStart else UpToDate
       end.

(** [source_path]. *)
Definition source_path (explicit : option string) : M W (result string CommandError) :=
  match explicit with Some path => ret (Ok path) | None => io_of current_exe end.

(** The binary an update replaces. *)
Definition update_target : string := service_data_dir +:+ "/" +:+ APP_NAME.

Definition copy_source (explicit : option string) : M W (result unit CommandError) :=
  source <-? source_path explicit ;; io_of (copy_file source update_target).

(** [start] and [stop] with the manager they fetch. *)
Definition with_manager (m : M W (result unit CommandError)) : M W (result unit CommandError) :=
  _ <-? other_of get_service_manager ;; m.

(** [update]; [None] is the panic on a version that does not parse.  What
    [--check] prints is the plan. *)
Definition update (client_version : Version) (ctx : UpdateCommand) : M W (option (result UpdatePlan CommandError)) :=
  source_there <- (match up_from ctx with Some from => path_there from | None => ret true end) ;;
  if negb source_there
  then ret (Some (Err (OtherFailed ("update source does not exist: " +:+ default "" (up_from ctx)))))
  else
    binary_exists <- path_there update_target ;;
    answer <- (if (binary_exists : bool) then server_version else ret None) ;;
    match (match answer with Some text => Some <$> version_parse text | None => Some None end) with
    | None => ret None
    | Some installed =>
        let plan := plan_update binary_exists client_version installed in
        if up_check ctx then r <- source_path (up_from ctx) ;; ret (Some (res_map (λ _, plan) r))
        else
          r <- match plan with
               | Seed | ReplaceOffline => copy_source (up_from ctx)
               | StopReplaceStart =>
                   _ <-? with_manager stop_with ;;
                   _ <-? copy_source (up_from ctx) ;;
                   with_manager start_with
               | UpToDate => ret (Ok ())
               end ;;
          ret (Some (res_map (λ _, plan) r))
    end.

(** * status.rs *)

Inductive ReportedStatus := RepNotInstalled | RepStopped | RepRunning.
#[export] Instance ReportedStatus_eq_dec : EqDecision ReportedStatus.
Proof. solve_decision. Defined.

Definition map_service_status (s : ServiceStatus) : ReportedStatus :=
  match s with NotInstalled => RepNotInstalled | SvcStopped _ => RepStopped | SvcRunning => RepRunning end.

(** [status_with]: what is printed, and the outcome.  [server_version] stands
    for the status of the server, which must come within three seconds. *)
Definition status_with (ctx : StatusCommand) :
    M W (result (ReportedStatus * option string) CommandError * result unit CommandError) :=
  r <- (if stc_skip_service_check ctx then ret (Ok SvcRunning) else svc_status) ;;
  match r with
  | Err e => ret (Err e, Err e)
  | Ok status =>
      info <- (match map_service_status status with
               | RepRunning =>
                   server <- server_version ;;
                   ret (match server with Some v => (RepRunning, Some v) | None => (RepStopped, None) end)
               | other => ret (other, None)
               end) ;;
      ret (Ok info,
           if stc_exit_code ctx
           then match info.1 with
                | RepRunning => Ok ()
                | RepStopped => Err ServiceAlreadyStopped
                | RepNotInstalled => Err ServiceNotInstalled
                end
           else Ok ())
  end.

(** * process *)

(** [process], for the commands above; [run_other] is what the rest does. *)
Definition process (client_version : Version) (command : option Commands) (run_other : M W (result unit CommandError)) :
    M W (option (result unit CommandError)) :=
  elevated <- (if is_unprivileged command then ret true else must_check_elevation) ;;
  if negb elevated then ret (Some (Err PermissionDenied))
  else
    let some m := r <- m ;; ret (Some r) in
    match command with
    | Some (Install ctx) => some (with_manager (install_with ctx))
    | Some Uninstall => some (with_manager uninstall_with)
    | Some StartCmd => some (with_manager start_with)
    | Some StopCmd => some (with_manager stop_with)
    | Some RestartCmd => some (with_manager restart_with)
    | Some (StatusCmd ctx) => some (with_manager (r <- status_with ctx ;; ret r.2))
    | Some (UpdateCmd ctx) => r <- update client_version ctx ;; ret (res_map (λ _, ()) <$> r)
    | Some (ServerCmd | RpcCmd | CompletionsCmd) => some run_other
    | None => ret (Some (Ok ()))
    end.
End update.
