(* ===== verification/CommandsProps.v ===== *)
(** What the commands of the service guarantee: success is what was seen last,
    a command that does not apply changes nothing, nothing is changed without the
    privilege, and an update only goes forward. *)
From S2P Require Import Prelude Text Metadata Types Health Capability Commands.
From Stdlib Require Import ZArith Lia.

Section commands.
Context {W : Type} {SH : ServiceHost W} {VO : VersionOrder}.

(** A step before another. *)
Lemma bind_inv {A B} (m : M W A) (k : A → M W B) w b w' :
  bind m k w = (b, w') → ∃ a w1, m w = (a, w1) ∧ k a w1 = (b, w').
Proof. unfold bind. destruct (m w) as [a w1]. intros H. by exists a, w1. Qed.

Lemma confirm_ok expected what w w' :
  confirm expected what w = (Ok (), w') → ∃ w1 s, svc_status w1 = (Ok s, w') ∧ expected s = true.
Proof.
  intros H. apply bind_ok_Ok in H as (s & w1 & Hs & Hk). unfold ret in Hk. destruct (expected s) eqn:E; [|done].
  injection Hk as ->. eauto.
Qed.

(** The status seen last. *)
Definition last_seen (expected : ServiceStatus → bool) (w' : W) : Prop :=
  ∃ w1 s, svc_status w1 = (Ok s, w') ∧ expected s = true.

Ltac confirmed := repeat first
  [ match goal with H : bind_ok _ _ _ = (Ok _, _) |- _ => apply bind_ok_Ok in H as (? & ? & _ & H) end
  | match goal with H : bind _ _ _ = (_, _) |- _ => apply bind_inv in H as (? & ? & _ & H) end ];
  by eapply confirm_ok.

Lemma start_confirmed w w' : start_with w = (Ok (), w') → last_seen is_running w'.
Proof. intros H. apply bind_ok_Ok in H as ([|r|] & w1 & _ & H); [done|confirmed|done]. Qed.
Lemma stop_confirmed w w' : stop_with w = (Ok (), w') → last_seen is_stopped w'.
Proof. intros H. apply bind_ok_Ok in H as ([|r|] & w1 & _ & H); [done|done|confirmed]. Qed.
Lemma restart_confirmed w w' : restart_with w = (Ok (), w') → last_seen is_running w'.
Proof. intros H. apply bind_ok_Ok in H as ([|r|] & w1 & _ & H); [done|confirmed|confirmed]. Qed.
Lemma uninstall_confirmed w w' : uninstall_with w = (Ok (), w') → last_seen is_not_installed w'.
Proof. intros H. apply bind_ok_Ok in H as ([|r|] & w1 & _ & H); [done|confirmed|confirmed]. Qed.
Lemma install_confirmed ctx w w' : install_with ctx w = (Ok (), w') → last_seen (λ s, negb (is_not_installed s)) w'.
Proof.
  intros H. apply bind_ok_Ok in H as ([|r|] & w1 & _ & H); [|done..].
  do 4 apply bind_ok_Ok in H as (? & ? & _ & H). apply bind_inv in H as (? & ? & _ & H).
  apply bind_ok_Ok in H as (? & w3 & _ & H). apply bind_ok_Ok in H as (s & w2 & Hs & H). unfold ret in H.
  destruct (is_not_installed s) eqn:E; [done|]. injection H as ->. exists w3, s. by rewrite E.
Qed.

(** The errors of a status that does not fit the command, and that they come
    before anything else. *)
Definition refusal (command : Commands) (s : ServiceStatus) : option CommandError :=
  match command, s with
  | Install _, (SvcStopped _ | SvcRunning) => Some ServiceAlreadyInstalled
  | (Uninstall | StartCmd | StopCmd | RestartCmd), NotInstalled => Some ServiceNotInstalled
  | StartCmd, SvcRunning => Some ServiceAlreadyRunning
  | StopCmd, SvcStopped _ => Some ServiceAlreadyStopped
  | _, _ => None
  end.

Definition run_command (command : Commands) : M W (result unit CommandError) :=
  match command with
  | Install ctx => install_with ctx
  | Uninstall => uninstall_with
  | StartCmd => start_with
  | StopCmd => stop_with
  | RestartCmd => restart_with
  | _ => ret (Ok ())
  end.

(** What a command promises. *)
Definition promise (command : Commands) : ServiceStatus → bool :=
  match command with
  | Install _ => λ s, negb (is_not_installed s)
  | Uninstall => is_not_installed
  | StopCmd => is_stopped
  | _ => is_running
  end.

(** C34: the commands on the service do what they report: one that succeeds saw
    the state it promises when it looked last (installed, removed, running,
    stopped); one that does not apply to the state it found is refused with the
    error of that state, and the look is all it did. *)
Theorem commands_are_honest (command : Commands) (w : W)
    (Hcommand : command = Uninstall ∨ command = StartCmd ∨ command = StopCmd ∨ command = RestartCmd ∨ ∃ ctx, command = Install ctx) :
  (∀ w', run_command command w = (Ok (), w') → last_seen (promise command) w')
  ∧ (∀ s w1 e, svc_status w = (Ok s, w1) → refusal command s = Some e → run_command command w = (Err e, w1)).
Proof.
  split.
  - intros w' H. destruct Hcommand as [->|[->|[->|[->|[ctx ->]]]]]; cbn [run_command promise] in *.
    + by eapply uninstall_confirmed.
    + by eapply start_confirmed.
    + by eapply stop_confirmed.
    + by eapply restart_confirmed.
    + by eapply install_confirmed.
  - intros s w1 e Hs He.
    assert (Hrun : ∀ k : ServiceStatus → M W (result unit CommandError), bind_ok svc_status k w = k s w1)
      by (intros k; unfold bind_ok, bind; by rewrite Hs).
    destruct Hcommand as [->|[->|[->|[->|[ctx ->]]]]]; cbn [run_command];
      [unfold uninstall_with|unfold start_with|unfold stop_with|unfold restart_with|unfold install_with];
      rewrite Hrun; destruct s; cbn in He; try done; by injection He as <-.
Qed.

(** * Privileges *)

(** Documented behaviour: looking changes nothing that was installed. *)
Class ServiceHostLaws := {
  installation : W → list (string * string);
  path_there_keeps p w : installation (path_there p w).2 = installation w;
  server_version_keeps w : installation (server_version w).2 = installation w;
  current_exe_keeps w : installation (current_exe w).2 = installation w;
  manager_status_keeps w : installation (manager_status w).2 = installation w;
  plist_exists_keeps w : installation (plist_exists w).2 = installation w;
  get_service_manager_keeps w : installation (get_service_manager w).2 = installation w;
  must_check_elevation_keeps w : installation (must_check_elevation w).2 = installation w;
}.
Context {HL : ServiceHostLaws}.

Definition keeps {A} (m : M W A) : Prop := ∀ w, installation (m w).2 = installation w.

Lemma keeps_ret {A} (a : A) : keeps (ret a).
Proof. done. Qed.
Lemma keeps_bind {A B} (m : M W A) (k : A → M W B) : keeps m → (∀ a, keeps (k a)) → keeps (bind m k).
Proof. intros Hm Hk w. unfold bind. specialize (Hm w). destruct (m w) as [a w1]. cbn in Hm. by rewrite Hk. Qed.
Lemma keeps_bind_ok {A B} (m : M W (result A CommandError)) (k : A → M W (result B CommandError)) :
  keeps m → (∀ a, keeps (k a)) → keeps (bind_ok m k).
Proof. intros Hm Hk. apply keeps_bind; [done|]. intros [a|e]; [apply Hk|done]. Qed.
Lemma keeps_io {A} (m : M W (result A string)) : keeps m → keeps (io_of m).
Proof. intros Hm. apply keeps_bind; [done|]. done. Qed.
Lemma keeps_other {A} (m : M W (result A string)) : keeps m → keeps (other_of m).
Proof. intros Hm. apply keeps_bind; [done|]. done. Qed.

Lemma svc_status_keeps : keeps svc_status.
Proof.
  apply keeps_bind_ok; [apply keeps_io; intros ?; apply manager_status_keeps|]. intros s. destruct platform; [done|].
  apply keeps_bind; [intros ?; apply plist_exists_keeps|done].
Qed.

Lemma source_path_keeps explicit : keeps (source_path explicit).
Proof. destruct explicit; [done|]. apply keeps_io; intros ?; apply current_exe_keeps. Qed.

Lemma update_check_keeps v ctx : up_check ctx = true → keeps (update v ctx).
Proof.
  intros Hc. apply keeps_bind; [destruct (up_from ctx); [intros ?; apply path_there_keeps|done]|]. intros [|]; [|done]. cbn [negb].
  apply keeps_bind; [intros ?; apply path_there_keeps|]. intros there.
  apply keeps_bind; [destruct there; [intros ?; apply server_version_keeps|done]|]. intros answer.
  destruct (match answer with Some text => _ | None => _ end) as [installed|]; [|done]. rewrite Hc.
  apply keeps_bind; [apply source_path_keeps|done].
Qed.

Lemma status_keeps ctx : keeps (status_with ctx).
Proof.
  apply keeps_bind; [destruct (stc_skip_service_check ctx); [done|apply svc_status_keeps]|]. intros [s|e]; [|done].
  apply keeps_bind; [|done]. destruct (map_service_status s); [done|done|].
  apply keeps_bind; [intros ?; apply server_version_keeps|done].
Qed.

(** C35: nothing is installed, removed, started, stopped or replaced without the
    privilege: a command that needs it and does not have it is refused before
    anything else, and the commands that run without it, the report of the status
    and an update that only checks, leave the installation as it was. *)
Theorem no_change_without_privilege (v : Version) (command : option Commands)
    (run_other : M W (result unit CommandError)) (w : W)
    (Hother : ∀ c, command = Some c → c ≠ ServerCmd ∧ c ≠ RpcCmd ∧ c ≠ CompletionsCmd)
    (Helevated : (must_check_elevation w).1 = false) :
  installation (process v command run_other w).2 = installation w
  ∧ (is_unprivileged command = false → (process v command run_other w).1 = Some (Err PermissionDenied)).
Proof.
  unfold process. destruct (is_unprivileged command) eqn:Eu.
  - split; [|done]. unfold bind at 1. cbn [ret fst snd negb].
    destruct command as [c|]; [|done]. destruct (Hother c eq_refl) as (H1 & H2 & H3).
    destruct c as [ctx| | | | | |ctx|ctx| |]; try done; cbn in Eu.
    + revert w Helevated. intros w _. refine (keeps_bind _ _ _ (λ _, keeps_ret _) w).
      apply keeps_bind_ok; [apply keeps_other; intros ?; apply get_service_manager_keeps|]. intros _.
      apply keeps_bind; [apply status_keeps|intros ? ?; done].
    + refine (keeps_bind _ _ (update_check_keeps v ctx Eu) (λ _, keeps_ret _) w).
  - unfold bind. pose proof (must_check_elevation_keeps w) as Hk.
    destruct (must_check_elevation w) as [b w1]. cbn in Helevated, Hk. subst b. cbn. split; [exact Hk|]. done.
Qed.

(** * Updates *)

(** an update never goes back: when a service that answers is not older
    than the running program, the update looks and leaves it at that. *)
Theorem update_never_downgrades (v installed : Version) (ctx : UpdateCommand) (w w1 w2 w3 : W) (text : string)
    (Hfrom : (match up_from ctx with Some from => path_there from | None => ret true end) w = (true, w1))
    (Hthere : path_there update_target w1 = (true, w2))
    (Hanswer : server_version w2 = (Some text, w3)) (Hparse : version_parse text = Some installed)
    (Hold : version_lt installed v = false) (Hcheck : up_check ctx = false) :
  update v ctx w = (Some (Ok UpToDate), w3).
Proof.
  unfold update. unfold bind at 1. rewrite Hfrom. cbn [negb]. unfold bind at 1. rewrite Hthere.
  unfold bind at 1. rewrite Hanswer, Hparse. cbn [fmap option_fmap option_map]. rewrite Hcheck.
  unfold plan_update. cbn [negb]. by rewrite Hold.
Qed.

Lemma string_app_inj_r (a b c : string) : a +:+ c = b +:+ c → a = b.
Proof.
  revert b. induction a as [|x a IH]; intros [|y b] H; [done| | |].
  - apply (f_equal String.length) in H. rewrite !length_app_str in H. cbn in H. lia.
  - apply (f_equal String.length) in H. rewrite !length_app_str in H. cbn in H. lia.
  - injection H as -> H. by rewrite (IH _ H).
Qed.

(** On Linux the service is installed under /usr/bin, and an update replaces a
    file in the data directory of the service: another one. *)
Lemma update_misses_the_installed_program :
  platform (W:=W) = Linux → service_data_dir (W:=W) ≠ "/usr/bin" →
  update_target (W:=W) ≠ installed_program (W:=W).
Proof.
  unfold update_target, installed_program. intros -> Hdir Heq. apply Hdir.
  change ("/usr/bin/" +:+ APP_NAME) with ("/usr/bin" +:+ ("/" +:+ APP_NAME)) in Heq.
  by apply string_app_inj_r in Heq.
Qed.
End commands.

(** * Texts *)

(** The policy written into the service definition is the one the server reads
    back. *)
Lemma policy_value_roundtrip a : policy_from_value (policy_value a) = Some a.
Proof. by destruct a. Qed.

(** A service that is already installed is reported as not running. *)
Lemma already_installed_text : command_error_display ServiceAlreadyInstalled = "service not running".
Proof. done. Qed.

(** A member of a group whose name only contains the service's is taken for a
    member. *)
Lemma group_of_another_name : contains NYANPASU_USER_GROUP "users nyanpasu-testers" = true.
Proof. vm_compute. reflexivity. Qed.

(** * A host *)

(** A service manager that does as it is told, and a file system. *)
Module demo_host.
Record Host := mkHost { h_status : ServiceStatus; h_root : bool; h_files : list (string * string); h_answer : option string }.
Definition look {A} (f : Host → A) : M Host A := λ w, (f w, w).
Definition become (s : ServiceStatus) : M Host (result unit string) :=
  λ w, (Ok (), mkHost s (h_root w) (h_files w) (h_answer w)).
Definition write (path text : string) : M Host (result unit string) :=
  λ w, (Ok (), mkHost (h_status w) (h_root w) ((path, text) :: h_files w) (h_answer w)).

#[export] Instance demo_service_host : ServiceHost Host := {|
  platform := Linux;
  service_data_dir := "/var/lib/nyanpasu-service";
  service_config_dir := "/etc/nyanpasu-service";
  must_check_elevation := look h_root;
  get_service_manager := ret (Ok ());
  manager_status := look (λ w, Ok (h_status w));
  plist_exists := ret false;
  manager_start := become SvcRunning;
  manager_stop := become (SvcStopped None);
  manager_install := λ ctx, become (SvcStopped None);
  manager_uninstall := become NotInstalled;
  stop_within := r <- become (SvcStopped None) ;; ret (Some r);
  processes := ret [];
  current_pid := 1%Z;
  kill := λ _, ret ();
  sleep_secs := λ _, ret ();
  path_there := λ p, look (λ w, existsb (λ f, String.eqb f.1 p) (h_files w));
  create_dirs := λ p, write p "";
  copy_file := write;
  current_exe := ret (Ok "/tmp/nyanpasu-service");
  group_exists := ret true;
  create_group := ret (Ok ());
  user_groups := λ _, ret "users nyanpasu";
  group_listing := ret None;
  add_user_to_group := λ _, ret (Ok ());
  home_var := ret (Some "/root");
  server_version := look h_answer;
|}.

#[export] Instance demo_laws : ServiceHostLaws.
Proof. by exists (λ w : Host, (status_debug (h_status w), "") :: h_files w). Defined.

(** Versions by their length. *)
#[export] Instance demo_versions : VersionOrder := {|
  Version := nat; version_parse := λ s, Some (String.length s); version_lt := Nat.ltb |}.

Definition v5 : @Version demo_versions := 5%nat.
Definition demo_install : Commands := Install (mkInstall "nya" "/data" "/config" "/app" ArgPrefer).
Definition bare : Host := mkHost NotInstalled false [] None.
Definition target : string := "/var/lib/nyanpasu-service/nyanpasu-service".
Definition served : Host := mkHost SvcRunning true [(target, "")] (Some "1.4.5").
End demo_host.
Import demo_host.

(** Installing succeeds on a bare host, and is refused on one that has the
    service. *)
Lemma commands_are_honest_witness :
  last_seen (promise demo_install) (run_command demo_install bare).2
  ∧ run_command demo_install served = (Err ServiceAlreadyInstalled, served).
Proof.
  assert (H : demo_install = Uninstall ∨ demo_install = StartCmd ∨ demo_install = StopCmd ∨ demo_install = RestartCmd
              ∨ ∃ ctx, demo_install = Install ctx) by (do 4 right; eexists; reflexivity).
  split.
  - apply (commands_are_honest demo_install bare H). reflexivity.
  - by apply (commands_are_honest demo_install served H) with (s := SvcRunning).
Defined.

Lemma no_change_without_privilege_witness :
  installation (process v5 (Some demo_install) (ret (Ok ())) bare).2 = installation bare
  ∧ (process v5 (Some demo_install) (ret (Ok ())) bare).1 = Some (Err PermissionDenied).
Proof.
  destruct (no_change_without_privilege v5 (Some demo_install) (ret (Ok ())) bare) as [H1 H2].
  - intros c [= <-]. done.
  - reflexivity.
  - split; [exact H1|]. apply H2. reflexivity.
Defined.

Lemma update_never_downgrades_witness :
  update v5 (mkUpdate false None) served = (Some (Ok UpToDate), served).
Proof. by apply (update_never_downgrades v5 v5 (mkUpdate false None) served served served served "1.4.5"). Defined.
