(* ===== verification/Access.v ===== *)
(** Who may talk to a core's controller (server/controller_access.rs and
    [controller_access_for_host] of server/mod.rs, controller_access.rs and
    runtime/process.rs of the manager): the directory the endpoints live in, the
    authorization of an endpoint a core has made, and the probes a launched
    instance runs, which authorize first.

    The file system is a class: names lead to files, files have a kind, an owner,
    a group and a mode.  A call is atomic, and nothing else runs between two calls
    of one authorization.  [ControllerVersionProbe] asks the controller over HTTP
    and is a parameter.  The Unix build is modelled; the choice of a pipe
    descriptor is kept, since it is shared. *)
From S2P Require Import Prelude Text Paths Metadata Types Health Runtime Bridge.
From Stdlib Require Import ZArith Lia.

Inductive ControllerAuthorization := ByCore | ByHost.
#[export] Instance ControllerAuthorization_eq_dec : EqDecision ControllerAuthorization.
Proof. solve_decision. Defined.

Inductive NodeKind := DirNode | SymlinkNode | SocketNode | OtherNode.
#[export] Instance NodeKind_eq_dec : EqDecision NodeKind.
Proof. solve_decision. Defined.
Record Node := mkNode { nd_kind : NodeKind; nd_uid : Z; nd_gid : Z; nd_mode : Z }.

(** An [io::Error]: whether it says that the name is taken, and its text. *)
Record AccessError := mkAccessError { ae_already_exists : bool; ae_text : string }.
Definition access_other (text : string) : AccessError := mkAccessError false text.

Class AccessFs (W : Type) := {
  geteuid : Z;
  getgrnam : string → M W (option Z);
  create_dir : string → Z → M W (result unit AccessError);
  symlink_metadata : string → M W (result Node AccessError);
  chown : string → Z → Z → M W (result unit AccessError);
  set_permissions : string → Z → M W (result unit AccessError);
  canonicalize_dir : string → M W (result OsPath AccessError);
}.

Section access.
Context {W : Type} {AF : AccessFs W}.

(** The trait [ControllerAccess]. *)
Record ControllerAccess := mkAccess {
  ca_supports_local_ipc : bool;
  ca_pipe_security_descriptor : option string;
  ca_authorize : Host → Z → ControllerAuthorization → M W (result unit AccessError);
}.

(** [UnavailableControllerAccess]. *)
Definition unavailable_authorize (host : Host) (pid : Z) (mode : ControllerAuthorization) : M W (result unit AccessError) :=
  ret match host with
      | Http _ => Ok ()
      | _ => Err (access_other "core IPC authorization is unavailable on this host")
      end.
Definition UnavailableControllerAccess : ControllerAccess := mkAccess false None unavailable_authorize.

(** [UnixControllerAccess]. *)
Record UnixControllerAccess := mkUnixAccess { ua_root : OsPath; ua_gid : Z; ua_uid : Z }.

Definition unsafe_directory (metadata : Node) : bool :=
  negb (bool_decide (nd_kind metadata = DirNode))
  || bool_decide (nd_kind metadata = SymlinkNode)
  || negb (nd_uid metadata =? geteuid)%Z
  || negb (Z.land (nd_mode metadata) 18 =? 0)%Z.

(** [prepare]; 0o700, 0o022 and 0o750 are 448, 18 and 488. *)
Definition make_root (root : string) : M W (result unit AccessError) :=
  created <- create_dir root 448 ;;
  ret match created with
      | Ok _ => Ok ()
      | Err error => if ae_already_exists error then Ok () else Err error
      end.
Definition prepare_access (root : string) (gid : Z) : M W (result UnixControllerAccess AccessError) :=
  _ <-? make_root root ;;
  metadata <-? symlink_metadata root ;;
  if unsafe_directory metadata then ret (Err (access_other "unsafe controller directory"))
  else
    _ <-? chown root geteuid gid ;;
    _ <-? set_permissions root 488 ;;
    path <-? canonicalize_dir root ;;
    ret (Ok (mkUnixAccess path gid geteuid)).

(** [authorize]; 0o660 is 432.  Paths are compared as text. *)
Definition inside (a : UnixControllerAccess) (path : string) : bool :=
  match ua_root a with PathText root => bool_decide (parent path = Some root) | PathBytes _ => false end.
Definition unix_authorize (a : UnixControllerAccess) (host : Host) (pid : Z) (mode : ControllerAuthorization) :
    M W (result unit AccessError) :=
  match host with
  | UnixSocket path =>
      if negb (inside a path) then ret (Err (access_other "controller escaped its directory"))
      else
        metadata <-? symlink_metadata path ;;
        if negb (bool_decide (nd_kind metadata = SocketNode)) || negb (nd_uid metadata =? ua_uid a)%Z
        then ret (Err (access_other "unexpected controller owner or file type"))
        else
          _ <-? chown path (ua_uid a) (ua_gid a) ;;
          set_permissions path 432
  | _ => ret (Ok ())
  end.
Definition unix_access (a : UnixControllerAccess) : ControllerAccess := mkAccess true None (unix_authorize a).

(** [controller_access_for_host]. *)
Definition CONTROLLER_ROOT : string := "/var/run/nyanpasu-core".
Definition unavailable : option string * ControllerAccess := (None, UnavailableControllerAccess).
Definition controller_access_for_host : M W (option string * ControllerAccess) :=
  group <- getgrnam "nyanpasu" ;;
  match group with
  | None => ret unavailable
  | Some gid =>
      prepared <- prepare_access CONTROLLER_ROOT gid ;;
      match prepared with
      | Err _ => ret unavailable
      | Ok access =>
          path <- canonicalize_dir CONTROLLER_ROOT ;;
          ret match path with Ok (PathText path) => (Some path, unix_access access) | _ => unavailable end
      end
  end.

(** * The probes of an instance (runtime/process.rs, instance.rs) *)

(** A probe on the endpoint and the process of its context. *)
Definition Probe : Type := Host → Z → M W ProbeResult.
(** [AuthorizedProbe]. *)
Definition AuthorizedProbe (access : ControllerAccess) (inner : Probe) (mode : ControllerAuthorization) : Probe :=
  λ host pid,
    authorized_check (r <- ca_authorize access host pid mode ;; ret (res_map_err ae_text r)) (inner host pid).

Record ProbePlan := mkProbePlan {
  pp_controller_access : option ControllerAccess;
  pp_readiness : option Probe;
  pp_liveness : option Probe;
  pp_liveness_with_readiness : bool;
}.

Record InstanceBuilder := mkBuilder {
  ib_readiness_probe : option Probe;
  ib_liveness_probe : option Probe;
  ib_liveness_with_readiness : bool;
  ib_pipe_security_descriptor : option string;
}.
Definition builder_new : InstanceBuilder := mkBuilder None None false None.
Definition set_descriptor (d : option string) (b : InstanceBuilder) : InstanceBuilder :=
  mkBuilder (ib_readiness_probe b) (ib_liveness_probe b) (ib_liveness_with_readiness b) d.
Definition readiness_probe (p : Probe) (b : InstanceBuilder) : InstanceBuilder :=
  mkBuilder (Some p) (ib_liveness_probe b) (ib_liveness_with_readiness b) (ib_pipe_security_descriptor b).
Definition liveness_probe (p : Probe) (b : InstanceBuilder) : InstanceBuilder :=
  mkBuilder (ib_readiness_probe b) (Some p) false (ib_pipe_security_descriptor b).
Definition liveness_with_readiness_probe (b : InstanceBuilder) : InstanceBuilder :=
  mkBuilder (ib_readiness_probe b) None true (ib_pipe_security_descriptor b).

Context {PL : ProcessLib}.
(** [ControllerVersionProbe::new]. *)
Context (version_probe : ResolvedController → result Probe Error).

(** The descriptor of [launch], and who authorizes then. *)
Definition launch_descriptor (plan : ProbePlan) (request : RuntimeLaunchRequest) : option string :=
  match rc_host (lr_controller request) with
  | NamedPipe _ =>
      if bool_decide (NamedPipeSecurityDescriptor ∈ lr_capabilities request)
      then pp_controller_access plan ≫= ca_pipe_security_descriptor else None
  | _ => None
  end.
Definition launch_mode (descriptor : option string) : ControllerAuthorization :=
  if descriptor is Some _ then ByCore else ByHost.

(** The builder [launch] spawns. *)
Definition launch_builder (plan : ProbePlan) (request : RuntimeLaunchRequest) : result InstanceBuilder Error :=
  let descriptor := launch_descriptor plan request in
  let mode := launch_mode descriptor in
  let builder := set_descriptor descriptor builder_new in
  match pp_controller_access plan with
  | Some access =>
      let? readiness := match pp_readiness plan with
                        | Some probe => Ok probe
                        | None => version_probe (lr_controller request)
                        end in
      let liveness := if pp_liveness_with_readiness plan then readiness
                      else default (λ _ _, ret Healthy) (pp_liveness plan) in
      let wrap inner := AuthorizedProbe access inner mode in
      Ok (liveness_probe (wrap liveness) (readiness_probe (wrap readiness) builder))
  | None =>
      let builder := match pp_readiness plan with Some probe => readiness_probe probe builder | None => builder end in
      let builder := match pp_liveness plan with Some probe => liveness_probe probe builder | None => builder end in
      Ok (if pp_liveness_with_readiness plan then liveness_with_readiness_probe builder else builder)
  end.

(** The probes [spawn_configured] takes from a builder. *)
Definition spawn_probes (controller : ResolvedController) (b : InstanceBuilder) :
    result (Probe * option Probe) Error :=
  let? readiness := match ib_readiness_probe b with Some probe => Ok probe | None => version_probe controller end in
  Ok (readiness, if ib_liveness_with_readiness b then Some readiness else ib_liveness_probe b).

(** [ProcessRuntimeBackend::launch], up to the probes. *)
Definition launch_probes (plan : ProbePlan) (request : RuntimeLaunchRequest) : result (Probe * option Probe) Error :=
  let? builder := launch_builder plan request in spawn_probes (lr_controller request) builder.
End access.
