(* ===== verification/AccessProps.v ===== *)
(** What the authorization of controller endpoints guarantees: it touches nothing
    but the endpoint, an endpoint it passed is the group's alone, the directory is
    never opened when it is unsafe, and a core whose controller was not authorized
    is never healthy. *)
From S2P Require Import Prelude Text Paths Metadata Types Health Runtime Bridge Access Instance InstanceRuns.
From Stdlib Require Import ZArith Lia.

(** What names lead to, and the files. *)
Record FsView := mkView { fv_file : string → option nat; fv_node : nat → option Node }.

(** [p] leads to the file [i], which is [n]. *)
Definition leads (v : FsView) (p : string) (i : nat) (n : Node) : Prop := fv_file v p = Some i ∧ fv_node v i = Some n.

(** Files other than [i] are as they were, and so are the names. *)
Definition same_but (i : nat) (v v' : FsView) : Prop :=
  (∀ p, fv_file v' p = fv_file v p) ∧ ∀ j, j ≠ i → fv_node v' j = fv_node v j.

Lemma same_but_refl i v : same_but i v v.
Proof. done. Qed.
Lemma same_but_trans i v1 v2 v3 : same_but i v1 v2 → same_but i v2 v3 → same_but i v1 v3.
Proof. intros [H1 H2] [H3 H4]. split; [by intros p; rewrite H3|]. intros j Hj. by rewrite H4, H2. Qed.

(** Documented behaviour: looking changes nothing; changing the owner or the mode
    of a name that is no symbolic link changes that of its file or, when it fails,
    nothing; making a directory makes a new file or, when it fails, changes
    nothing. *)
Class AccessFsLaws (W : Type) {AF : AccessFs W} := {
  view : W → FsView;
  getgrnam_keeps g w : view (getgrnam g w).2 = view w;
  canonicalize_keeps p w : view (canonicalize_dir p w).2 = view w;
  symlink_metadata_keeps p w : view (symlink_metadata p w).2 = view w;
  symlink_metadata_node p w n : (symlink_metadata p w).1 = Ok n → ∃ i, leads (view w) p i n;
  chown_other p uid gid w i n : leads (view w) p i n → nd_kind n ≠ SymlinkNode →
    same_but i (view w) (view (chown p uid gid w).2);
  chown_err p uid gid w e : (chown p uid gid w).1 = Err e → view (chown p uid gid w).2 = view w;
  chown_done p uid gid w i n u : leads (view w) p i n → nd_kind n ≠ SymlinkNode → (chown p uid gid w).1 = Ok u →
    ∃ mode, leads (view (chown p uid gid w).2) p i (mkNode (nd_kind n) uid gid mode);
  set_permissions_other p mode w i n : leads (view w) p i n → nd_kind n ≠ SymlinkNode →
    same_but i (view w) (view (set_permissions p mode w).2);
  set_permissions_err p mode w e : (set_permissions p mode w).1 = Err e → view (set_permissions p mode w).2 = view w;
  set_permissions_done p mode w i n u : leads (view w) p i n → nd_kind n ≠ SymlinkNode →
    (set_permissions p mode w).1 = Ok u →
    leads (view (set_permissions p mode w).2) p i (mkNode (nd_kind n) (nd_uid n) (nd_gid n) mode);
  create_dir_err p mode w e : (create_dir p mode w).1 = Err e → view (create_dir p mode w).2 = view w;
  create_dir_fresh p mode w u : (create_dir p mode w).1 = Ok u →
    fv_file (view w) p = None
    ∧ ∃ i n, leads (view (create_dir p mode w).2) p i n ∧ fv_node (view w) i = None
      ∧ ∀ j, j ≠ i → fv_node (view (create_dir p mode w).2) j = fv_node (view w) j;
}.

Section laws.
Context {W : Type} {AF : AccessFs W} {AL : AccessFsLaws W}.

(** Owner, then mode, of a file that is no link: all that both calls touch. *)
Lemma restrict_ok p uid gid mode w i n r w' :
  leads (view w) p i n → nd_kind n ≠ SymlinkNode →
  (_ <-? chown p uid gid ;; set_permissions p mode) w = (r, w') →
  same_but i (view w) (view w') ∧ (r = Ok () → leads (view w') p i (mkNode (nd_kind n) uid gid mode)).
Proof.
  intros Hi Hn. unfold bind_ok, bind.
  pose proof (chown_other p uid gid w i n Hi Hn) as Ho. pose proof (chown_done p uid gid w i n () Hi Hn) as Hd.
  destruct (chown p uid gid w) as [[[]|e] w1]; cbn [fst snd] in *.
  - destruct (Hd eq_refl) as [mode' Hl]. intros Hp.
    pose proof (set_permissions_other p mode w1 i _ Hl Hn) as Ho'.
    pose proof (set_permissions_done p mode w1 i _ () Hl Hn) as Hd'. rewrite Hp in Ho', Hd'. cbn [fst snd] in *.
    split; [by eapply same_but_trans|]. intros ->. by apply Hd'.
  - intros [= <- <-]. by split.
Qed.

(** [unix_authorize] on a local endpoint. *)
Lemma unix_authorize_ok a path pid mode w r w' :
  unix_authorize a (UnixSocket path) pid mode w = (r, w') →
  view w' = view w ∧ r ≠ Ok ()
  ∨ ∃ i n, inside a path = true ∧ leads (view w) path i n ∧ nd_kind n = SocketNode ∧ nd_uid n = ua_uid a
      ∧ same_but i (view w) (view w')
      ∧ (r = Ok () → leads (view w') path i (mkNode SocketNode (ua_uid a) (ua_gid a) 432)).
Proof.
  unfold unix_authorize. destruct (inside a path) eqn:Ein; cbn [negb]; [|intros [= <- <-]; by left].
  unfold bind_ok at 1, bind at 1.
  pose proof (symlink_metadata_keeps path w) as Hk. pose proof (symlink_metadata_node path w) as Hn.
  destruct (symlink_metadata path w) as [[n|e] w1]; cbn [fst snd] in *; [|intros [= <- <-]; by left].
  destruct (bool_decide (nd_kind n = SocketNode)) eqn:Es; cbn [negb orb]; [|intros [= <- <-]; by left].
  apply bool_decide_eq_true in Es.
  destruct (nd_uid n =? ua_uid a)%Z eqn:Eu; cbn [negb]; [|intros [= <- <-]; by left]. apply Z.eqb_eq in Eu.
  intros Hr. right. destruct (Hn n eq_refl) as [i Hi]. rewrite <- Hk in Hi.
  assert (Hlink : nd_kind n ≠ SymlinkNode) by (by rewrite Es).
  destruct (restrict_ok path _ _ _ w1 i n r w' Hi Hlink Hr) as [Hs Hd].
  exists i, n. rewrite <- Hk. by rewrite Es in Hd.
Qed.

(** What [make_root] leaves. *)
Lemma make_root_ok root w r w' :
  make_root root w = (r, w') →
  view w' = view w
  ∨ ∃ i n, fv_file (view w) root = None ∧ leads (view w') root i n ∧ fv_node (view w) i = None
      ∧ ∀ j, j ≠ i → fv_node (view w') j = fv_node (view w) j.
Proof.
  unfold make_root, bind. pose proof (create_dir_err root 448 w) as He. pose proof (create_dir_fresh root 448 w ()) as Hf.
  destruct (create_dir root 448 w) as [[[]|e] w1]; cbn [fst snd] in *; intros [= <- <-].
  - right. destruct (Hf eq_refl) as (Hnone & i & n & H). eauto.
  - left. by apply (He e).
Qed.

(** The steps of [prepare_access] after the directory is there. *)
Lemma secure_root_ok root gid w r w' :
  (metadata <-? symlink_metadata root ;;
   if unsafe_directory metadata then ret (Err (access_other "unsafe controller directory"))
   else
     _ <-? chown root geteuid gid ;;
     _ <-? set_permissions root 488 ;;
     path <-? canonicalize_dir root ;;
     ret (Ok (mkUnixAccess path gid geteuid))) w = (r, w') →
  view w' = view w ∧ (∃ e, r = Err e)
  ∨ ∃ i n, leads (view w) root i n ∧ unsafe_directory n = false ∧ same_but i (view w) (view w')
      ∧ ∀ a, r = Ok a → ua_uid a = geteuid ∧ ua_gid a = gid ∧ leads (view w') root i (mkNode DirNode geteuid gid 488).
Proof.
  unfold bind_ok at 1, bind at 1.
  pose proof (symlink_metadata_keeps root w) as Hk. pose proof (symlink_metadata_node root w) as Hm.
  destruct (symlink_metadata root w) as [[n|e] w1]; cbn [fst snd] in *; [|intros [= <- <-]; left; eauto].
  destruct (unsafe_directory n) eqn:Eu; [intros [= <- <-]; left; eauto|].
  destruct (Hm n eq_refl) as [i Hl].
  assert (Hdir : nd_kind n = DirNode).
  { unfold unsafe_directory in Eu. destruct (bool_decide_reflect (nd_kind n = DirNode)); [done|]. done. }
  intros Hr. right. exists i, n. split; [done|]. split; [done|]. rewrite <- Hk. rewrite <- Hk in Hl.
  set (both := _ <-? chown root geteuid gid ;; set_permissions root 488).
  assert (Hboth : (_ <-? both ;; (path <-? canonicalize_dir root ;; ret (Ok (mkUnixAccess path gid geteuid)))) w1 = (r, w')).
  { revert Hr. unfold both, bind_ok, bind. by destruct (chown root geteuid gid w1) as [[[]|e] w2]. }
  clear Hr. unfold bind_ok at 1, bind at 1 in Hboth. destruct (both w1) as [rb w2] eqn:Eb.
  assert (Hlink : nd_kind n ≠ SymlinkNode) by (by rewrite Hdir).
  destruct (restrict_ok root geteuid gid 488 w1 i n rb w2 Hl Hlink Eb) as [Hs Hd].
  destruct rb as [[]|e]; [|by injection Hboth as <- <-].
  unfold bind_ok, bind in Hboth. pose proof (canonicalize_keeps root w2) as Hc.
  destruct (canonicalize_dir root w2) as [[path|e] w3]; cbn [fst snd] in *; injection Hboth as <- <-; rewrite Hc; [|done].
  split; [done|]. intros a [= <-]. rewrite <- Hdir. split; [done|]. split; [done|]. by apply Hd.
Qed.

(** The directory of the endpoints is never opened up: preparing it touches no
    other file, refuses and leaves alone one that is a link, somebody else's or
    writable for others, and when it succeeds the directory is the service's, for
    its group to enter and for nobody else. *)
Theorem directory_is_safe (root : string) (gid : Z) (w w' : W) (r : result UnixControllerAccess AccessError)
    (Hrun : prepare_access root gid w = (r, w')) :
  (∀ j n, fv_node (view w) j = Some n → fv_file (view w) root ≠ Some j → fv_node (view w') j = Some n)
  ∧ (∀ j n, leads (view w) root j n → unsafe_directory n = true → view w' = view w ∧ ∃ e, r = Err e)
  ∧ (∀ a, r = Ok a → ua_uid a = geteuid ∧ ua_gid a = gid
      ∧ ∃ j, leads (view w') root j (mkNode DirNode geteuid gid 488)).
Proof.
  unfold prepare_access in Hrun. unfold bind_ok at 1, bind at 1 in Hrun.
  destruct (make_root root w) as [rm w1] eqn:Em. apply make_root_ok in Em as [Hsame|(i0 & n0 & Hnone & Hl0 & Hnew & Hother)].
  - destruct rm as [[]|e].
    2: { injection Hrun as <- <-. rewrite Hsame. split; [done|]. split; [eauto|done]. }
    apply secure_root_ok in Hrun. rewrite Hsame in Hrun. destruct Hrun as [[Hv [e ->]]|(i & n & [Hi Hn] & Hsafe & [_ Hs] & Ha)].
    + rewrite Hv. split; [done|]. split; [eauto|done].
    + split; [intros j m Hj Hne; rewrite Hs; [done|congruence]|].
      split; [intros j m [Hj Hm] Hu; congruence|]. intros a Hr. destruct (Ha a Hr) as (? & ? & ?). eauto.
  - assert (Hkeep : ∀ j m, fv_node (view w) j = Some m → j ≠ i0) by congruence.
    destruct rm as [[]|e].
    2: { injection Hrun as <- <-. split; [intros j m Hj _; rewrite Hother; eauto|].
         split; [intros j m [Hj _]; congruence|done]. }
    apply secure_root_ok in Hrun as [[Hv [e ->]]|(i & n & [Hi Hn] & Hsafe & [_ Hs] & Ha)].
    + rewrite Hv. split; [intros j m Hj _; rewrite Hother; eauto|]. split; [intros j m [Hj _]; congruence|done].
    + assert (i = i0) as -> by (destruct Hl0; congruence).
      split; [intros j m Hj _; rewrite Hs, Hother; eauto|].
      split; [intros j m [Hj _]; congruence|]. intros a Hr. destruct (Ha a Hr) as (? & ? & ?). eauto.
Qed.

(** * Probes *)

(** A probe behind an authorization: it is healthy only when the endpoint was
    authorized in that attempt, and the wrapped probe then found it healthy. *)
Lemma authorized_healthy (access : ControllerAccess (W:=W)) (inner : Probe (W:=W)) mode host pid w w' :
  AuthorizedProbe access inner mode host pid w = (Healthy, w') →
  ∃ w1, ca_authorize access host pid mode w = (Ok (), w1) ∧ inner host pid w1 = (Healthy, w').
Proof.
  unfold AuthorizedProbe, authorized_check, bind, ret.
  destruct (ca_authorize access host pid mode w) as [[[]|e] w1]; cbn; [|done]. eauto.
Qed.

Context {PL : ProcessLib} (version_probe : ResolvedController → result (Probe (W:=W)) Error).

(** A probe the plan configures: for readiness the host's or the question for the
    version, for liveness the host's or none. *)
Definition configured (plan : ProbePlan (W:=W)) (request : RuntimeLaunchRequest) (inner : Probe (W:=W)) : Prop :=
  pp_readiness plan = Some inner
  ∨ pp_readiness plan = None ∧ version_probe (lr_controller request) = Ok inner
  ∨ pp_liveness plan = Some inner
  ∨ pp_liveness plan = None ∧ inner = (λ _ _, ret Healthy).

(** With a [ControllerAccess], the probes of a launched instance authorize. *)
Lemma launched_probes_authorize plan access request readiness liveness :
  pp_controller_access plan = Some access →
  launch_probes version_probe plan request = Ok (readiness, liveness) →
  ∀ probe, probe = readiness ∨ liveness = Some probe →
  ∃ inner mode, configured plan request inner ∧ probe = AuthorizedProbe access inner mode.
Proof.
  intros Hp. unfold launch_probes, launch_builder. rewrite Hp.
  destruct (match pp_readiness plan with Some p => Ok p | None => _ end) as [ready|e] eqn:Er; [|done].
  assert (Hready : configured plan request ready).
  { unfold configured. destruct (pp_readiness plan); [left; congruence|by right; left]. }
  assert (Hlive : configured plan request (if pp_liveness_with_readiness plan then ready
                                           else default (λ _ _, ret Healthy) (pp_liveness plan))).
  { destruct (pp_liveness_with_readiness plan); [done|]. unfold configured. destruct (pp_liveness plan); cbn; tauto. }
  intros [= <- <-] probe [->|[= <-]]; eauto.
Qed.

End laws.

(** * A file system *)

(** Names and files, without symbolic links being followed by name. *)
Module demo_access.
Record Fs := mkFs { fs_names : gmap string nat; fs_nodes : list Node }.
Definition gone : AccessError := access_other "No such file or directory".
Definition on_file (p : string) (f : Node → Node) : M Fs (result unit AccessError) := λ w,
  match fs_names w !! p with
  | Some i => match fs_nodes w !! i with
              | Some n => if bool_decide (nd_kind n = SymlinkNode) then (Err gone, w)
                          else (Ok (), mkFs (fs_names w) (alter f i (fs_nodes w)))
              | None => (Err gone, w)
              end
  | None => (Err gone, w)
  end.

#[export] Instance demo_access_fs : AccessFs Fs := {|
  geteuid := 0%Z;
  getgrnam := λ _, ret (Some 989%Z);
  create_dir := λ p mode w,
    match fs_names w !! p with
    | Some _ => (Err (mkAccessError true "File exists"), w)
    | None => (Ok (), mkFs (<[p := length (fs_nodes w)]> (fs_names w)) (fs_nodes w ++ [mkNode DirNode 0 0 mode]))
    end;
  symlink_metadata := λ p w,
    (match fs_names w !! p ≫= λ i, fs_nodes w !! i with Some n => Ok n | None => Err gone end, w);
  chown := λ p uid gid, on_file p (λ n, mkNode (nd_kind n) uid gid (nd_mode n));
  set_permissions := λ p mode, on_file p (λ n, mkNode (nd_kind n) (nd_uid n) (nd_gid n) mode);
  canonicalize_dir := λ p, ret (Ok (PathText p));
|}.

Definition fs_view (w : Fs) : FsView := mkView (λ p, fs_names w !! p) (λ i, fs_nodes w !! i).

Lemma on_file_ok p f w i n :
  leads (fs_view w) p i n → nd_kind n ≠ SymlinkNode →
  same_but i (fs_view w) (fs_view (on_file p f w).2) ∧ leads (fs_view (on_file p f w).2) p i (f n).
Proof.
  intros [Hi Hn] Hk. cbn in Hi, Hn. unfold on_file. rewrite Hi, Hn. rewrite bool_decide_eq_false_2 by done.
  split; [split; [done|]; intros j Hj; cbn; by rewrite list_lookup_alter_ne|].
  split; [done|]. cbn. by rewrite list_lookup_alter_eq, Hn.
Qed.
Lemma on_file_err p f w e : (on_file p f w).1 = Err e → fs_view (on_file p f w).2 = fs_view w.
Proof. unfold on_file. destruct (fs_names w !! p); [|done]. destruct (fs_nodes w !! n); [|done]. by case_bool_decide. Qed.

#[export] Instance demo_access_laws : AccessFsLaws Fs.
Proof.
  exists fs_view.
  - done.
  - done.
  - done.
  - intros p w n. unfold leads. cbn. destruct (fs_names w !! p) as [i|]; cbn; [|done].
    destruct (fs_nodes w !! i) eqn:E; [|done]. intros [= <-]. eauto.
  - intros p uid gid w i n Hl Hn. by eapply on_file_ok.
  - intros p uid gid w e. apply on_file_err.
  - intros p uid gid w i n u Hl Hn _. exists (nd_mode n).
    by apply (on_file_ok p (λ n, mkNode (nd_kind n) uid gid (nd_mode n)) w i n).
  - intros p mode w i n Hl Hn. by eapply on_file_ok.
  - intros p mode w e. apply on_file_err.
  - intros p mode w i n u Hl Hn _.
    by apply (on_file_ok p (λ n, mkNode (nd_kind n) (nd_uid n) (nd_gid n) mode) w i n).
  - intros p mode w e. cbn. by destruct (fs_names w !! p).
  - intros p mode w u. unfold leads. cbn. destruct (fs_names w !! p) eqn:E; [done|]. intros _. split; [done|].
    exists (length (fs_nodes w)), (mkNode DirNode 0 0 mode). cbn.
    split; [split; [by rewrite lookup_insert_eq|]|].
    + by rewrite lookup_app_r, Nat.sub_diag by lia.
    + split; [by apply lookup_ge_None_2|]. intros j Hj. destruct (decide (j < length (fs_nodes w))%nat).
      * by rewrite lookup_app_l by done.
      * rewrite (lookup_ge_None_2 (fs_nodes w) j) by lia. apply lookup_ge_None_2. rewrite length_app. cbn. lia.
Defined.
End demo_access.
Import demo_access.

Definition demo_socket : string := "/var/run/nyanpasu-core/core-1.sock".
(** The directory, and in it the socket of a core that was just started. *)
Definition demo_files : Fs :=
  mkFs {[ CONTROLLER_ROOT := 0%nat; demo_socket := 1%nat ]}
    [mkNode DirNode 0 0 448; mkNode SocketNode 0 0 511].
Definition demo_unix : UnixControllerAccess := mkUnixAccess (PathText CONTROLLER_ROOT) 989 0.
Definition demo_request : RuntimeLaunchRequest :=
  mkLaunch _ [] demo_spec 1%Z (mkController (UnixSocket demo_socket) None).
Definition demo_plan : ProbePlan := mkProbePlan (Some (unix_access demo_unix)) None None false.
Definition demo_version_probe (c : ResolvedController) : result (Probe (W:=Fs)) Error := Ok (λ _ _, ret Healthy).

Lemma directory_is_safe_witness :
  leads (view (prepare_access CONTROLLER_ROOT 989 demo_files).2) CONTROLLER_ROOT 0 (mkNode DirNode 0 989 488).
Proof.
  destruct (directory_is_safe CONTROLLER_ROOT 989 demo_files _ _ (surjective_pairing _)) as (_ & _ & H).
  destruct (H (mkUnixAccess (PathText CONTROLLER_ROOT) 989 0)) as (_ & _ & j & [Hj Hn]); [reflexivity|].
  vm_compute in Hj. injection Hj as <-. split; [reflexivity|exact Hn].
Defined.

