(* ===== verification/Distribution.v ===== *)
(** The identity of a distributed core (nyanpasu-core-metadata, dist.rs): tags
    that are normalized when they are made and when they are decoded, sets of
    them, and their JSON; with the facts about [str::trim] they rest on. *)
From S2P Require Import Prelude Text Metadata Types Capability Yaml Diff LogIndex Wire.
From stdpp Require Import sorting.
From Stdlib Require Import ZArith Lia.

(** * Tags *)

(** [VariantTag::new]; a tag is its text. *)
Definition variant_tag_new (tag : string) : string := to_ascii_lowercase (str_trim tag).
Definition GROUP_CHANNEL : string := "channel".
Definition tag_group (tag : string) : option string := fst <$> split_once ":" tag.
Definition tag_value (tag : string) : string :=
  match split_once ":" tag with Some (_, value) => value | None => tag end.

(** * Distributions *)

(** [CoreDistribution]; the set of tags is the list of its elements in order. *)
Record CoreDistribution := mkDistribution {
  cd_kind : ClashCoreKind;
  cd_variant : option string;
  cd_tags : list string;
}.
Definition distribution_new (kind : ClashCoreKind) : CoreDistribution := mkDistribution kind None [].

(** [tag_value] of a group, and [channel]. *)
Definition group_value (group : string) (d : CoreDistribution) : option string :=
  tag_value <$> List.find (λ tag, bool_decide (tag_group tag = Some group)) (cd_tags d).
Definition channel (d : CoreDistribution) : option string := group_value GROUP_CHANNEL d.

(** The derived codecs. *)
Definition read_kind (j : Json) : option ClashCoreKind :=
  if j is JString s
  then if String.eqb s "mihomo" then Some Mihomo
       else if String.eqb s "clash-rs" then Some ClashRust
       else if String.eqb s "clash" then Some ClashPremium
       else if String.eqb s "meow" then Some Meow
       else None
  else None.
Definition write_distribution (d : CoreDistribution) : Json :=
  JObject ([("kind", JString (kind_as_ref (cd_kind d)))]
           ++ present "variant" JString (cd_variant d)
           ++ (if cd_tags d is [] then [] else [("tags", JArray (JString <$> cd_tags d))])).
Definition read_tags (j : Json) : option (list string) :=
  if j is JArray l then (λ tags, btree_set (variant_tag_new <$> tags)) <$> mapM read_string l else None.
Definition read_distribution : Json → option CoreDistribution :=
  read_object ["kind"; "variant"; "tags"] (λ o,
    kind ← required "kind" read_kind o;
    variant ← optional "variant" read_string o;
    tags ← match field "tags" o with None => Some [] | Some j => read_tags j end;
    Some (mkDistribution kind variant tags)).

(** * Trimming *)
Lemma ws_len_app s t n : ws_len s = S n → ws_len (s +:+ t) = S n.
Proof.
  destruct s as [|c0 [|c1 [|c2 s]]]; rewrite ?app_cons_str, ?app_nil_l_str; unfold ws_len; cbn [String.get];
    [done|..]; intros H;
    repeat (match type of H with context [if ?b then _ else _] => destruct b eqn:? end; try done; try (exfalso; lia)).
Qed.

Lemma ws_len_le s : (ws_len s ≤ String.length s)%nat.
Proof.
  destruct s as [|c0 [|c1 [|c2 s]]]; unfold ws_len; cbn [String.get String.length];
    repeat (match goal with |- context [if ?b then _ else _] => destruct b eqn:? end; try lia).
Qed.

Lemma ws_len_small s : (ws_len s ≤ 3)%nat.
Proof. unfold ws_len. repeat (match goal with |- context [if ?b then _ else _] => destruct b end; try lia). Qed.

Lemma ws_len_prefix a b : ws_len (a +:+ b) = String.length a → ws_len a = String.length a.
Proof.
  intros H. pose proof (ws_len_small (a +:+ b)) as Hs. rewrite H in Hs. revert H.
  destruct a as [|c0 [|c1 [|c2 [|c3 a]]]]; cbn [String.length] in *; [done| | | |lia];
    rewrite ?app_cons_str, ?app_nil_l_str; unfold ws_len; cbn [String.get]; intros H;
    repeat (match type of H with context [if ?b then _ else _] => destruct b eqn:? end; try done; try (exfalso; lia)).
Qed.

Lemma substring_app a b : String.substring (String.length a) (String.length b) (a +:+ b) = b.
Proof.
  induction a as [|c a IH]; [|exact IH]. rewrite app_nil_l_str. cbn [String.length].
  induction b as [|c b IH]; [done|]. cbn. by rewrite IH.
Qed.

(** The text at the head that is white space, and the rest. *)
Lemma ws_len_split s n :
  ws_len s = S n → ∃ a b, s = a +:+ b ∧ String.length a = S n ∧ String.substring (S n) (String.length s - S n) s = b.
Proof.
  intros H. pose proof (ws_len_le s) as Hle. rewrite H in Hle. clear H.
  assert (Hsplit : ∀ m s, (m ≤ String.length s)%nat → ∃ a b, s = a +:+ b ∧ String.length a = m).
  { clear. induction m as [|m IH]; intros s Hs; [by exists "", s|]. destruct s as [|c s]; cbn in Hs; [lia|].
    destruct (IH s) as (a & b & -> & Ha); [lia|]. exists (String c a), b. rewrite app_cons_str. cbn. by rewrite Ha. }
  destruct (Hsplit _ _ Hle) as (a & b & -> & Ha). exists a, b. split; [done|]. split; [done|].
  rewrite <- Ha, length_app_str. replace (_ + _ - _)%nat with (String.length b) by lia. apply substring_app.
Qed.

(** White space throughout. *)
Inductive Ws : string → Prop :=
| Ws_nil : Ws ""
| Ws_app a b : ws_len a = String.length a → a ≠ "" → Ws b → Ws (a +:+ b).

Lemma Ws_concat a b : Ws a → Ws b → Ws (a +:+ b).
Proof.
  induction 1 as [|a a' Ha Hne _ IH]; intros Hb; [by rewrite app_nil_l_str|].
  rewrite app_assoc_str. apply Ws_app; auto.
Qed.

Lemma all_ws_Ws s fuel : (String.length s ≤ fuel)%nat → all_ws fuel s = true ↔ Ws s.
Proof.
  revert s. induction fuel as [|fuel IH]; intros s Hs; cbn [all_ws].
  { destruct s; cbn in Hs; [|lia]. split; [constructor|done]. }
  destruct (String.eqb_spec s "") as [->|Hne]; [split; [constructor|done]|]. split.
  - destruct (ws_len s) as [|n] eqn:E; [done|].
    destruct (ws_len_split s n E) as (a & b & -> & Ha & Hb). rewrite Hb. intros Hall.
    rewrite length_app_str in Hs. apply IH in Hall; [|lia]. apply Ws_app; [|by destruct a|done].
    rewrite <- Ha in E. by apply ws_len_prefix in E.
  - intros H. destruct H as [|a b Ha Hna Hb]; [done|]. destruct a as [|c a]; [done|].
    assert (Hlen : ws_len (String c a +:+ b) = S (String.length a)) by (by apply ws_len_app).
    rewrite Hlen. change (S (String.length a)) with (String.length (String c a)).
    rewrite length_app_str in *. replace (_ + _ - _)%nat with (String.length b) by lia.
    rewrite substring_app. apply IH; [cbn in Hs; lia|done].
Qed.

Lemma all_ws_false s : all_ws (String.length s) s = false ↔ ¬ Ws s.
Proof. rewrite <- (all_ws_Ws s _ (le_n _)). by destruct (all_ws _ s). Qed.

Lemma str_trim_end_nil : str_trim_end "" = "".
Proof. done. Qed.
Lemma str_trim_end_cons c s :
  str_trim_end (String c s)
  = if all_ws (String.length (String c s)) (String c s) then "" else String c (str_trim_end s).
Proof. done. Qed.

(** Only white space is cut off, and none is left. *)
Lemma trim_end_cut s : ∃ r, s = str_trim_end s +:+ r ∧ Ws r.
Proof.
  induction s as [|c s (r & Hr & Hws)]; [exists ""; split; [done|constructor]|].
  rewrite str_trim_end_cons. destruct (all_ws _ _) eqn:E.
  - apply all_ws_Ws in E; [|done]. by exists (String c s).
  - exists r. rewrite app_cons_str. by rewrite <- Hr.
Qed.
Lemma trim_end_idem s : str_trim_end (str_trim_end s) = str_trim_end s.
Proof.
  induction s as [|c s IH]; [done|]. rewrite (str_trim_end_cons c s).
  destruct (all_ws (String.length (String c s)) (String c s)) eqn:E; [done|].
  rewrite str_trim_end_cons, IH.
  destruct (all_ws (String.length (String c (str_trim_end s))) (String c (str_trim_end s))) eqn:E'; [|done].
  apply all_ws_Ws in E'; [|done]. apply all_ws_false in E. destruct E.
  destruct (trim_end_cut s) as (r & Hs & Hr). rewrite Hs, <- app_cons_str. by apply Ws_concat.
Qed.

Lemma trim_start_fixed s fuel : ws_len s = 0%nat → str_trim_start fuel s = s.
Proof. intros H. destruct fuel; [done|]. cbn. by rewrite H. Qed.
Lemma trim_start_clean s fuel : (String.length s ≤ fuel)%nat → ws_len (str_trim_start fuel s) = 0%nat.
Proof.
  revert s. induction fuel as [|fuel IH]; intros s Hs; cbn [str_trim_start].
  { destruct s; cbn in Hs; [done|lia]. }
  destruct (ws_len s) as [|n] eqn:E; [done|]. destruct (ws_len_split s n E) as (a & b & -> & Ha & ->).
  rewrite length_app_str in Hs. apply IH. lia.
Qed.

Lemma trim_idem s : str_trim (str_trim s) = str_trim s.
Proof.
  unfold str_trim at 2 3. set (t := str_trim_start _ s).
  assert (Ht : ws_len t = 0%nat) by (by apply trim_start_clean). destruct (trim_end_cut t) as (r & Hr & _).
  unfold str_trim. rewrite trim_start_fixed; [apply trim_end_idem|].
  destruct (ws_len (str_trim_end t)) as [|n] eqn:E; [done|]. apply (ws_len_app _ r) in E. rewrite <- Hr in E. congruence.
Qed.

(** * Lower case *)
Lemma ascii_lower_val c :
  let n := Ascii.nat_of_ascii c in
  Ascii.nat_of_ascii (ascii_lower c) = if (65 <=? n)%nat && (n <=? 90)%nat then (n + 32)%nat else n.
Proof.
  unfold ascii_lower. cbn zeta. destruct ((65 <=? _)%nat && _) eqn:E; [|done].
  apply andb_true_iff in E as [_ E%Nat.leb_le]. apply Ascii.nat_ascii_embedding. lia.
Qed.
Lemma ascii_lower_idem c : ascii_lower (ascii_lower c) = ascii_lower c.
Proof.
  unfold ascii_lower at 1. rewrite ascii_lower_val. cbn zeta.
  destruct ((65 <=? Ascii.nat_of_ascii c)%nat && (Ascii.nat_of_ascii c <=? 90)%nat) eqn:E;
    match goal with |- context [if ?b then _ else _] => destruct b eqn:E' end; [|done|congruence|done].
  apply andb_true_iff in E as [E _], E' as [_ E']. apply Nat.leb_le in E, E'. lia.
Qed.
Lemma lower_idem s : to_ascii_lowercase (to_ascii_lowercase s) = to_ascii_lowercase s.
Proof. induction s as [|c s IH]; [done|]. cbn. by rewrite ascii_lower_idem, IH. Qed.
Lemma length_lower s : String.length (to_ascii_lowercase s) = String.length s.
Proof. induction s as [|c s IH]; [done|]. cbn. by rewrite IH. Qed.
Lemma substring_lower n m s :
  String.substring n m (to_ascii_lowercase s) = to_ascii_lowercase (String.substring n m s).
Proof.
  revert n m. induction s as [|c s IH]; intros [|n] [|m]; cbn; try done; by rewrite IH.
Qed.

(** Comparisons with a number that is no letter do not see the case. *)
Definition no_letter (k : Z) : bool := (k <? 65)%Z || (122 <? k)%Z.
Lemma lower_eqb c k :
  no_letter k = true → (Z.of_nat (Ascii.nat_of_ascii (ascii_lower c)) =? k)%Z = (Z.of_nat (Ascii.nat_of_ascii c) =? k)%Z.
Proof.
  unfold no_letter. rewrite orb_true_iff, !Z.ltb_lt, ascii_lower_val. cbn zeta. intros Hk.
  apply Bool.eq_iff_eq_true. rewrite ?Z.eqb_eq, ?Z.leb_le.
  destruct (Nat.leb_spec 65 (Ascii.nat_of_ascii c)), (Nat.leb_spec (Ascii.nat_of_ascii c) 90); cbn [andb]; lia.
Qed.
Lemma lower_leb c k :
  no_letter k = true → (Z.of_nat (Ascii.nat_of_ascii (ascii_lower c)) <=? k)%Z = (Z.of_nat (Ascii.nat_of_ascii c) <=? k)%Z.
Proof.
  unfold no_letter. rewrite orb_true_iff, !Z.ltb_lt, ascii_lower_val. cbn zeta. intros Hk.
  apply Bool.eq_iff_eq_true. rewrite ?Z.eqb_eq, ?Z.leb_le.
  destruct (Nat.leb_spec 65 (Ascii.nat_of_ascii c)), (Nat.leb_spec (Ascii.nat_of_ascii c) 90); cbn [andb]; lia.
Qed.
Lemma lower_geb c k :
  no_letter k = true → (k <=? Z.of_nat (Ascii.nat_of_ascii (ascii_lower c)))%Z = (k <=? Z.of_nat (Ascii.nat_of_ascii c))%Z.
Proof.
  unfold no_letter. rewrite orb_true_iff, !Z.ltb_lt, ascii_lower_val. cbn zeta. intros Hk.
  apply Bool.eq_iff_eq_true. rewrite ?Z.eqb_eq, ?Z.leb_le.
  destruct (Nat.leb_spec 65 (Ascii.nat_of_ascii c)), (Nat.leb_spec (Ascii.nat_of_ascii c) 90); cbn [andb]; lia.
Qed.

Lemma ws_len_lower s : ws_len (to_ascii_lowercase s) = ws_len s.
Proof.
  unfold ws_len. destruct s as [|c0 [|c1 [|c2 s]]]; cbn [to_ascii_lowercase String.get]; cbn zeta beta; [done|..];
    rewrite ?lower_eqb, ?lower_leb, ?lower_geb by reflexivity; reflexivity.
Qed.

Lemma all_ws_lower fuel s : all_ws fuel (to_ascii_lowercase s) = all_ws fuel s.
Proof.
  revert s. induction fuel as [|fuel IH]; intros s; cbn [all_ws]; [by destruct s|].
  assert (Heq : String.eqb (to_ascii_lowercase s) "" = String.eqb s "") by (by destruct s). rewrite Heq, ws_len_lower, length_lower.
  destruct (String.eqb s ""); [done|]. destruct (ws_len s); [done|]. by rewrite substring_lower, IH.
Qed.
Lemma trim_lower s : str_trim (to_ascii_lowercase s) = to_ascii_lowercase (str_trim s).
Proof.
  unfold str_trim. rewrite length_lower.
  assert (Hstart : ∀ fuel s, str_trim_start fuel (to_ascii_lowercase s) = to_ascii_lowercase (str_trim_start fuel s)).
  { clear. induction fuel as [|fuel IH]; intros s; cbn [str_trim_start]; [done|]. rewrite ws_len_lower, length_lower.
    destruct (ws_len s); [done|]. by rewrite substring_lower, IH. }
  rewrite Hstart. generalize (str_trim_start (String.length s) s). clear. intros s. induction s as [|c s IH]; [done|].
  cbn [to_ascii_lowercase]. rewrite !str_trim_end_cons.
  change (String (ascii_lower c) (to_ascii_lowercase s)) with (to_ascii_lowercase (String c s)).
  rewrite length_lower, all_ws_lower. destruct (all_ws _ _); [done|]. cbn [to_ascii_lowercase]. by rewrite IH.
Qed.

(** A tag is made once: normalizing it again changes nothing. *)
Lemma variant_tag_normal tag : variant_tag_new (variant_tag_new tag) = variant_tag_new tag.
Proof. unfold variant_tag_new. by rewrite trim_lower, trim_idem, lower_idem. Qed.

(** * Sets of tags *)

#[export] Instance str_lt_antisymm : AntiSymm (=) str_lt.
Proof. intros a b [H1 _] [H2 _]. by apply (anti_symm String.le). Qed.

Lemma btree_set_sorted l : StronglySorted str_lt (btree_set l).
Proof.
  unfold btree_set. assert (Hs : StronglySorted String.le (merge_sort String.le (remove_dups l)))
    by (apply StronglySorted_merge_sort; apply _).
  assert (Hnd : NoDup (merge_sort String.le (remove_dups l)))
    by (rewrite merge_sort_Permutation; apply NoDup_remove_dups).
  induction Hs as [|s l' _ IH Hall]; [constructor|]. apply NoDup_cons in Hnd as [Hin Hnd]. constructor; [auto|].
  apply Forall_forall. intros t Ht. rewrite Forall_forall in Hall. split; [by apply Hall|]. congruence.
Qed.
Lemma btree_set_fixed l : StronglySorted str_lt l → btree_set l = l.
Proof.
  intros Hl. apply (StronglySorted_unique str_lt); [apply btree_set_sorted|done|].
  apply NoDup_Permutation.
  - apply sorted_strict_NoDup, btree_set_sorted.
  - by apply sorted_strict_NoDup.
  - intros t. apply elem_of_btree_set.
Qed.

(** A distribution as the constructors make it. *)
Definition distribution_ok (d : CoreDistribution) : Prop :=
  StronglySorted str_lt (cd_tags d) ∧ Forall (λ tag, variant_tag_new tag = tag) (cd_tags d).

Lemma read_tags_ok j tags :
  read_tags j = Some tags → StronglySorted str_lt tags ∧ Forall (λ tag, variant_tag_new tag = tag) tags.
Proof.
  destruct j; try done. cbn. destruct (mapM read_string l) as [raw|]; [|done]. intros [= <-].
  split; [apply btree_set_sorted|]. apply Forall_forall. intros tag Htag. rewrite elem_of_btree_set in Htag.
  apply list_elem_of_fmap in Htag as (t & -> & _). apply variant_tag_normal.
Qed.

Lemma read_written_tags tags :
  StronglySorted str_lt tags → Forall (λ tag, variant_tag_new tag = tag) tags →
  read_tags (JArray (JString <$> tags)) = Some tags.
Proof.
  intros Hs Hn. cbn.
  assert (Hm : mapM read_string (JString <$> tags) = Some tags)
    by (clear; induction tags as [|t tags IH]; [done|]; cbn; by rewrite IH).
  rewrite Hm. cbn. f_equal. rewrite (map_ext_in variant_tag_new id), map_id, btree_set_fixed; [done|done|].
  intros t Ht. rewrite Forall_forall in Hn. by apply Hn, list_elem_of_In.
Qed.

(** the identity of a distribution survives the wire, whatever tags a
    manifest invents: what is decoded has its tags normalized, in order and once
    each, so that equality is that of the sets; what is encoded decodes to the
    same distribution; a tag is its group and its value around the first colon;
    and the value of a group is that of its first tag. *)
Theorem distribution_roundtrip (d : CoreDistribution) (Hd : distribution_ok d) :
  (∀ j d', read_distribution j = Some d' → distribution_ok d')
  ∧ read_distribution (write_distribution d) = Some d
  ∧ (∀ tag, match tag_group tag with Some group => tag = group +:+ ":" +:+ tag_value tag | None => tag_value tag = tag end)
  ∧ ∀ group v, group_value group d = Some v →
      group +:+ ":" +:+ v ∈ cd_tags d
      ∧ ∀ tag, tag ∈ cd_tags d → tag_group tag = Some group → tag = group +:+ ":" +:+ v ∨ str_lt (group +:+ ":" +:+ v) tag.
Proof.
  destruct Hd as [Hsort Hnorm].
  assert (Htag : ∀ tag group, tag_group tag = Some group → tag = group +:+ ":" +:+ tag_value tag).
  { intros tag group. unfold tag_group, tag_value. destruct (split_once ":" tag) as [[g v]|] eqn:E; [|done].
    intros [= <-]. by apply split_once_Some in E. }
  split; [|split; [|split]].
  - intros j d'. unfold read_distribution, read_object. destruct j; try done. destruct (fields_once _ _); [|done].
    destruct (required _ _ _) as [kind|]; [|done]. cbn. destruct (optional _ _ _) as [variant|]; [|done]. cbn.
    destruct (field "tags" fields) as [j|]; cbn; [|intros [= <-]; split; constructor].
    destruct (read_tags j) as [tags|] eqn:E; [|done]. intros [= <-]. by apply read_tags_ok in E.
  - pose proof (read_written_tags _ Hsort Hnorm) as Ht. destruct d as [kind variant tags].
    unfold read_distribution, write_distribution, read_object. cbn [cd_kind cd_variant cd_tags] in *.
    destruct tags as [|t tags]; [by destruct kind, variant|].
    revert Ht. generalize (JArray (JString <$> t :: tags)) (t :: tags). intros j l Ht.
    destruct kind, variant; cbn -[read_tags]; by rewrite Ht.
  - intros tag. destruct (tag_group tag) eqn:E; [by apply Htag|]. unfold tag_group in E. unfold tag_value.
    by destruct (split_once ":" tag).
  - intros group v. unfold group_value. clear Hnorm. induction Hsort as [|t tags _ IH Hall]; [done|].
    cbn [cd_tags List.find] in *. destruct (bool_decide_reflect (tag_group t = Some group)) as [Hg|Hg].
    + intros [= <-]. rewrite <- (Htag t group Hg). split; [by left|]. intros tag Hin _.
      apply elem_of_cons in Hin as [->|Hin]; [by left|right]. rewrite Forall_forall in Hall. by apply Hall.
    + intros Hv. destruct (IH Hv) as [Hin Hfirst]. split; [by right|]. intros tag Hin' Hg'.
      apply elem_of_cons in Hin' as [->|Hin']; [done|]. by apply Hfirst.
Qed.

Definition demo_distribution : CoreDistribution :=
  mkDistribution Mihomo (Some "alpha-goamd64-v3") ["channel:alpha"; "goamd64:v3"; "portable"].

Lemma distribution_roundtrip_witness :
  read_distribution (write_distribution demo_distribution) = Some demo_distribution
  ∧ channel demo_distribution = Some "alpha" ∧ variant_tag_new "  Channel:ALPHA  " = "channel:alpha".
Proof.
  assert (Hd : distribution_ok demo_distribution).
  { split; [|repeat constructor]. repeat constructor; vm_compute; done. }
  destruct (distribution_roundtrip demo_distribution Hd) as (_ & H & _).
  split; [exact H|]. split; reflexivity.
Defined.
