(* ===== verification/ClashStream.v ===== *)
(** What a controller streams (clash-api: stream.rs, and the samples of
    api/traffic.rs, api/memory.rs, api/logs.rs and the ports of
    api/connections.rs): the decoding of a WebSocket and of a body of lines, frame
    by frame, and of numbers that may come as text.

    The socket and the line codec are third-party: the client sees a list of
    frames, and a list of lines or errors; the text of JSON is [JsonText]. *)
From S2P Require Import Prelude Text Metadata Types Health Capability Config Bridge LogIndex LogPage Wire Ipc IpcProps ClashApi.
From Stdlib Require Import Ascii ZArith Lia.

(** * Numbers *)

(** [i64::from_str]. *)
Definition parse_i64 (s : string) : option Z :=
  match s with
  | String "-"%char s' => if String.eqb s' "" then None else Z.opp <$> parse_digits 10 (- i64_min) 0 s'
  | _ => from_str_radix 10 i64_max s
  end.

(** [deserialize_number]: the number, or a text of it. *)
Definition deserialize_number (number : Json → option Z) (parse : string → option Z) (j : Json) : option Z :=
  match number j with
  | Some z => Some z
  | None => if j is JString text then parse text else None
  end.

(** [optional_port]. *)
Definition read_u16 (j : Json) : option Z :=
  if j is JInt z then if (0 <=? z)%Z && (z <=? u16_max)%Z then Some z else None else None.
Definition write_port (port : option Z) : Json :=
  match port with Some port => JString (fmt_u64 port) | None => JNull end.
Definition read_port (j : Json) : option (option Z) :=
  match j with
  | JNull => Some None
  | JString text => Some <$> from_str_radix 10 u16_max text
  | j => Some <$> read_u16 j
  end.

(** * Samples *)

Record Traffic := mkTraffic { tr_up : Z; tr_down : Z; tr_up_total : option Z; tr_down_total : option Z }.
Definition write_total (t : option Z) : Json := if t is Some z then JInt z else JNull.
Definition write_traffic (t : Traffic) : Json :=
  JObject [("up", JInt (tr_up t)); ("down", JInt (tr_down t)); ("upTotal", write_total (tr_up_total t));
           ("downTotal", write_total (tr_down_total t))].
Definition read_traffic : Json → option Traffic :=
  read_object ["up"; "down"; "upTotal"; "downTotal"] (λ o,
    up ← required "up" (deserialize_number read_i64 parse_i64) o;
    down ← required "down" (deserialize_number read_i64 parse_i64) o;
    up_total ← optional "upTotal" read_i64 o;
    down_total ← optional "downTotal" read_i64 o;
    Some (mkTraffic up down up_total down_total)).

Record Memory := mkMemory { me_in_use : Z; me_os_limit : Z }.
Definition write_memory (m : Memory) : Json := JObject [("inuse", JInt (me_in_use m)); ("oslimit", JInt (me_os_limit m))].
Definition read_memory : Json → option Memory :=
  read_object ["inuse"; "oslimit"] (λ o,
    in_use ← required "inuse" (deserialize_number read_u64 parse_u64) o;
    os_limit ← match field "oslimit" o with
               | None => Some 0%Z
               | Some j => deserialize_number read_u64 parse_u64 j
               end;
    Some (mkMemory in_use os_limit)).

(** [ConfigEnum]: a value this client knows, or the text. *)
Inductive ConfigEnum (T : Type) := Known (value : T) | UnknownValue (text : string).
Arguments Known {T} value.
Arguments UnknownValue {T} text.
Definition read_config_enum {T} (read : string → option T) (j : Json) : option (ConfigEnum T) :=
  text ← read_string j;
  Some match read text with Some value => Known value | None => UnknownValue text end.
Definition config_enum_as_str {T} (as_ref : T → string) (v : ConfigEnum T) : string :=
  match v with Known value => as_ref value | UnknownValue text => text end.

Inductive LogSeverity := SevDebug | SevInfo | SevWarning | SevError | SevSilent.
Definition severity_as_ref (l : LogSeverity) : string :=
  match l with
  | SevDebug => "debug" | SevInfo => "info" | SevWarning => "warning" | SevError => "error" | SevSilent => "silent"
  end.
Definition severity_read (s : string) : option LogSeverity :=
  if String.eqb s "debug" then Some SevDebug
  else if String.eqb s "info" then Some SevInfo
  else if String.eqb s "warning" then Some SevWarning
  else if String.eqb s "error" then Some SevError
  else if String.eqb s "silent" then Some SevSilent
  else None.
Record LogEntry := mkLogEntry { le_level : ConfigEnum LogSeverity; le_payload : string }.
Definition write_log_entry (e : LogEntry) : Json :=
  JObject [("type", JString (config_enum_as_str severity_as_ref (le_level e))); ("payload", JString (le_payload e))].
Definition read_log_entry : Json → option LogEntry :=
  read_object ["type"; "payload"] (λ o,
    level ← required "type" (read_config_enum severity_read) o;
    payload ← required "payload" read_string o;
    Some (mkLogEntry level payload)).

(** * Streams *)

Section streams.
Context {B : Type} {JT : JsonText B} {T : Type}.

(** The frames of a socket; the text of both kinds is JSON. *)
Inductive Message := MText (text : B) | MBinary (bytes : B) | MPing | MPong | MClose.

(** [serde_json::from_str] and [from_slice] at the type of the stream. *)
Definition decode (read : Json → option T) (operation : string) (body : B) : result T ApiError :=
  match json_from_slice body ≫= read with
  | Some value => Ok value
  | None => Err (DecodeFailed operation "invalid value")
  end.

(** [WebSocketStream::new]. *)
Definition is_close (frame : result Message WebSocketError) : bool := if frame is Ok MClose then true else false.
Fixpoint before_close (frames : list (result Message WebSocketError)) : list (result Message WebSocketError) :=
  match frames with
  | [] => []
  | frame :: frames => if is_close frame then [] else frame :: before_close frames
  end.
Definition frame_item (read : Json → option T) (operation : string) (frame : result Message WebSocketError) :
    option (result T ApiError) :=
  match frame with
  | Ok (MText body) | Ok (MBinary body) => Some (decode read operation body)
  | Ok _ => None
  | Err source => Some (Err (WebSocketRead operation source))
  end.
Definition websocket_stream (read : Json → option T) (operation : string)
    (frames : list (result Message WebSocketError)) : list (result T ApiError) :=
  omap (frame_item read operation) (before_close frames).

(** [HttpStream::from_response], over the lines of the body; [line_text] is the
    line as text. *)
Definition line_item (read : Json → option T) (line_text : B → string) (operation : string)
    (line : result B string) : option (result T ApiError) :=
  match line with
  | Ok line => if String.eqb (str_trim (line_text line)) "" then None else Some (decode read operation line)
  | Err source => Some (Err (StreamFailed operation source))
  end.
Definition http_stream (read : Json → option T) (line_text : B → string) (operation : string)
    (lines : list (result B string)) : list (result T ApiError) :=
  omap (line_item read line_text operation) lines.
End streams.
Arguments Message : clear implicits.

(** * Round trips *)
Lemma parse_fmt_i64 z : is_i64 z → parse_i64 (fmt_i64 z) = Some z.
Proof.
  unfold is_i64, i64_min, i64_max. intros Hz. unfold fmt_i64. destruct (Z.ltb_spec z 0) as [Hneg|Hpos].
  - change ("-" +:+ fmt_u64 (- z)) with (String "-"%char (fmt_u64 (- z))). cbn [parse_i64].
    destruct (String.eqb_spec (fmt_u64 (- z)) "") as [E|_]; [by apply fmt_u64_nonempty in E|].
    unfold fmt_u64. rewrite parse_fmt_dec_fuel; [cbn; f_equal; lia| |unfold i64_min; lia|done].
    split; [lia|]. cbn. lia.
  - pose proof (fmt_u64_digits z Hpos) as Hd. pose proof (fmt_u64_nonempty z) as Hne.
    assert (Hsame : parse_i64 (fmt_u64 z) = from_str_radix 10 i64_max (fmt_u64 z)).
    { destruct (fmt_u64 z) as [|c s]; [done|]. cbn in Hd. apply andb_true_iff in Hd as [Hc _].
      destruct (Ascii.eqb_spec c "-"%char) as [->|Hd]; [done|]. cbn [parse_i64].
      destruct c as [[] [] [] [] [] [] [] []]; try done. }
    rewrite Hsame, from_str_radix_digits by done. unfold fmt_u64, i64_max.
    rewrite parse_fmt_dec_fuel; [done| |lia|done]. split; [lia|]. cbn. lia.
Qed.

(** What a stream asks of its samples: what is written is read back. *)
Class SampleCodec (T : Type) := {
  sample_write : T → Json;
  sample_read : Json → option T;
  sample_ok : T → Prop;
  sample_roundtrip x : sample_ok x → sample_read (sample_write x) = Some x;
  sample_object x : ∃ o, sample_write x = JObject o;
}.

Lemma number_i64 z : is_i64 z → deserialize_number read_i64 parse_i64 (JInt z) = Some z.
Proof. intros Hz. unfold deserialize_number. by rewrite read_i64_ok. Qed.
Lemma number_u64 z : is_u64 z → deserialize_number read_u64 parse_u64 (JInt z) = Some z.
Proof. intros Hz. unfold deserialize_number. by rewrite read_u64_ok. Qed.

Definition total_ok (t : option Z) : Prop := if t is Some z then is_i64 z else True.
Lemma read_total k t o : total_ok t → field k o = Some (write_total t) → optional k read_i64 o = Some t.
Proof. intros Ht Hf. unfold optional. rewrite Hf. destruct t; cbn [write_total] in *; [|done]. by rewrite read_i64_ok. Qed.

#[export] Program Instance traffic_codec : SampleCodec Traffic := {|
  sample_write := write_traffic;
  sample_read := read_traffic;
  sample_ok t := is_i64 (tr_up t) ∧ is_i64 (tr_down t) ∧ total_ok (tr_up_total t) ∧ total_ok (tr_down_total t);
|}.
Next Obligation.
  intros [up down ut dt] (H1 & H2 & H3 & H4). unfold read_traffic, write_traffic, read_object.
  cbn [tr_up tr_down tr_up_total tr_down_total] in *. set (o := ("up", _) :: _).
  change (fields_once _ o) with true. cbn match. unfold required.
  change (field "up" o) with (Some (JInt up)). change (field "down" o) with (Some (JInt down)). cbn [mbind option_bind].
  rewrite (number_i64 up H1). cbn [mbind option_bind]. rewrite (number_i64 down H2). cbn [mbind option_bind].
  rewrite (read_total "upTotal" ut o H3 eq_refl). cbn [mbind option_bind].
  by rewrite (read_total "downTotal" dt o H4 eq_refl).
Qed.
Next Obligation. intros t. by eexists. Qed.

#[export] Program Instance memory_codec : SampleCodec Memory := {|
  sample_write := write_memory;
  sample_read := read_memory;
  sample_ok m := is_u64 (me_in_use m) ∧ is_u64 (me_os_limit m);
|}.
Next Obligation.
  intros [u l] [Hu Hl]. unfold read_memory, write_memory, read_object. cbn [me_in_use me_os_limit] in *.
  set (o := ("inuse", _) :: _). change (fields_once _ o) with true. cbn match. unfold required.
  change (field "inuse" o) with (Some (JInt u)). change (field "oslimit" o) with (Some (JInt l)). cbn [mbind option_bind].
  rewrite (number_u64 u Hu). cbn [mbind option_bind]. by rewrite (number_u64 l Hl).
Qed.
Next Obligation. intros m. by eexists. Qed.

(** A level this client does not know is one it would not have written. *)
Definition entry_ok (e : LogEntry) : Prop :=
  match le_level e with UnknownValue text => severity_read text = None | Known _ => True end.
#[export] Program Instance log_entry_codec : SampleCodec LogEntry := {|
  sample_write := write_log_entry;
  sample_read := read_log_entry;
  sample_ok := entry_ok;
|}.
Next Obligation.
  intros [[level|text] payload] He; unfold entry_ok in He; cbn [le_level] in He; [by destruct level|]. unfold read_log_entry, write_log_entry, read_object.
  cbn -[severity_read]. by rewrite He.
Qed.
Next Obligation. intros e. by eexists. Qed.

Lemma port_roundtrip p : (if p is Some z then (0 ≤ z ≤ u16_max)%Z else True) → read_port (write_port p) = Some p.
Proof.
  destruct p as [z|]; [|done]. unfold u16_max. intros Hz. cbn [write_port read_port].
  rewrite from_str_radix_digits; [|apply fmt_u64_digits; lia|apply fmt_u64_nonempty].
  unfold fmt_u64. rewrite parse_fmt_dec_fuel; [done| |unfold u16_max; lia|done]. split; [lia|]. cbn. lia.
Qed.

(** A rate that a controller sends as text. *)
Lemma number_as_text z : is_i64 z → deserialize_number read_i64 parse_i64 (JString (fmt_i64 z)) = Some z.
Proof. apply parse_fmt_i64. Qed.

Section delivery.
Context {B : Type} {JT : JsonText B} {JL : JsonTextLaws B} {T : Type} {SC : SampleCodec T}.

(** What a controller puts on the wire, and what the client should make of it. *)
Inductive Sent := SampleSent (x : T) (binary : bool) | Quiet | Garbage (body : B) | Broken (e : string).
Definition sent_ok (s : Sent) : Prop :=
  match s with
  | SampleSent x _ => sample_ok x
  | Garbage body => json_from_slice body ≫= sample_read = None
  | _ => True
  end.
Definition frame_of (s : Sent) : result (Message B) WebSocketError :=
  match s with
  | SampleSent x false => Ok (MText (json_to_vec (sample_write x)))
  | SampleSent x true => Ok (MBinary (json_to_vec (sample_write x)))
  | Quiet => Ok MPing
  | Garbage body => Ok (MText body)
  | Broken e => Err (WsOther e)
  end.
Definition line_of (blank : B) (s : Sent) : result B string :=
  match s with
  | SampleSent x _ => Ok (json_to_vec (sample_write x))
  | Quiet => Ok blank
  | Garbage body => Ok body
  | Broken e => Err e
  end.

Definition seen_as (operation : string) (broken : string → ApiError) (s : Sent) : option (result T ApiError) :=
  match s with
  | SampleSent x _ => Some (Ok x)
  | Quiet => None
  | Garbage _ => Some (Err (DecodeFailed operation "invalid value"))
  | Broken e => Some (Err (broken e))
  end.

Lemma decode_sample operation x : sample_ok x → decode sample_read operation (json_to_vec (sample_write x)) = Ok x.
Proof. intros Hx. unfold decode. rewrite json_roundtrip. cbn [mbind option_bind]. by rewrite sample_roundtrip. Qed.

(** a stream delivers what the controller sent: every sample once and in
    order, over a socket and over a body of lines alike; a frame or line that is
    no sample is one error at its place and the stream goes on after it, a
    control frame or blank line nothing; and what follows a close is not read. *)
Theorem streams_deliver_samples (operation : string) (line_text : B → string) (blank : B) (script : list Sent)
    (rest : list (result (Message B) WebSocketError))
    (Hscript : Forall sent_ok script)
    (Hblank : str_trim (line_text blank) = "")
    (Hobject : ∀ o, str_trim (line_text (json_to_vec (JObject o))) ≠ "")
    (Hgarbage : ∀ body, Garbage body ∈ script → str_trim (line_text body) ≠ "") :
  websocket_stream sample_read operation ((frame_of <$> script) ++ Ok MClose :: rest)
    = omap (seen_as operation (λ e, WebSocketRead operation (WsOther e))) script
  ∧ http_stream sample_read line_text operation (line_of blank <$> script)
    = omap (seen_as operation (StreamFailed operation)) script.
Proof.
  unfold websocket_stream, http_stream.
  induction Hscript as [|s script Hs _ IH]; [done|]. destruct IH as [IHw IHh]; [by intros body H; apply Hgarbage; right|].
  destruct s as [x binary| |body|e]; cbn [frame_of line_of seen_as fmap list_fmap omap list_omap app] in *.
  - destruct (sample_object x) as [o Ho].
    destruct binary; cbn [before_close is_close frame_item line_item omap list_omap];
      rewrite decode_sample, IHw, IHh by done; rewrite Ho; destruct (String.eqb_spec (str_trim (line_text (json_to_vec (JObject o)))) "");
      done || by destruct (Hobject o).
  - cbn [before_close is_close frame_item line_item omap list_omap]. rewrite Hblank. done.
  - cbn [before_close is_close frame_item line_item omap list_omap]. unfold decode in *. cbn in Hs. rewrite Hs, IHw, IHh.
    destruct (String.eqb_spec (str_trim (line_text body)) "") as [E|_]; [|done]. by destruct (Hgarbage body); [left|].
  - cbn [before_close is_close frame_item line_item omap list_omap]. by rewrite IHw, IHh.
Qed.
End delivery.

Definition demo_line (j : Json) : string := if j is JNull then " " else "x".
Definition demo_script : list (Sent (B:=Json) (T:=Traffic)) :=
  [SampleSent (mkTraffic 10 20 (Some 30%Z) None) false; Quiet; Garbage (JBool true); SampleSent (mkTraffic 1 2 None None) true].

(** Two samples around a ping and a frame that is none. *)
Lemma streams_deliver_samples_witness :
  websocket_stream sample_read "traffic_ws" ((frame_of <$> demo_script) ++ [Ok MClose; Ok (MText JNull)])
  = [Ok (mkTraffic 10 20 (Some 30%Z) None); Err (DecodeFailed "traffic_ws" "invalid value"); Ok (mkTraffic 1 2 None None)].
Proof.
  destruct (streams_deliver_samples "traffic_ws" demo_line JNull demo_script [Ok (MText JNull)]) as [H _].
  - repeat constructor; vm_compute; congruence.
  - reflexivity.
  - intros o. discriminate.
  - intros body Hin. unfold demo_script in Hin. rewrite !elem_of_cons in Hin.
    destruct Hin as [H|[H|[H|[H|H]]]]; try discriminate H; [|by apply elem_of_nil in H]. injection H as ->. discriminate.
  - exact H.
Defined.
