(* ===== verification/ConfigCodec.v ===== *)
(** The bodies of [/configs] (clash-api, api/configs.rs): the patch a manager
    sends, the runtime view a core answers with, and their codecs.

    The derives of serde are given by tables: a structure is the list of its
    fields in the order of the source, each with its type and what happens when it
    is missing.  Reading and writing go through a data format ([Format], the
    [Deserializer] and [Serializer] of the source): YAML values for the
    classification of a change, JSON on the wire.  A structure is read from a
    mapping and an enumeration from its name; values come without YAML tags, which
    the configuration pipeline refuses.  The texts of networks and addresses are
    those of [ipnet] and the standard library ([IpLib]). *)
From S2P Require Import Prelude Text Metadata Types Yaml Diff Mihomo Wire.
From Stdlib Require Import ZArith Lia.

(** * Types *)

#[local] Set Warnings "-register-all".

(** The fallback of an enumeration: none, [serde(other)] (the variant and its
    name), or the open [ConfigEnum], which keeps the text. *)
Inductive Fallback := Closed | Other (name : string) | Open.
Inductive Presence := Optional | Defaulted.

Inductive FType :=
| TBool
| TInt (lo hi : Z)
| TString
| TNet
| TAddr
| TEnum (names : list string) (fallback : Fallback)
| TVec (t : FType)
| TStringMap
| TStruct (fields : list (string * Presence * FType)).

Definition ty_i64 : FType := TInt (-9223372036854775808) 9223372036854775807.
Definition ty_u32 : FType := TInt 0 4294967295.
Definition ty_u16 : FType := TInt 0 65535.
Definition opt (name : string) (t : FType) : string * Presence * FType := (name, Optional, t).
Definition dflt (name : string) (t : FType) : string * Presence * FType := (name, Defaulted, t).

(** * The structures of configs.rs *)

Definition TunnelMode : FType := TEnum ["global"; "rule"; "direct"] Closed.
Definition RuntimeTunnelMode : FType := TEnum ["global"; "rule"; "direct"] Open.
Definition PatchLogLevel : FType := TEnum ["debug"; "info"; "warning"; "error"; "silent"] Closed.
Definition RuntimeLogLevel : FType := TEnum ["debug"; "info"; "warning"; "error"; "silent"] Open.
Definition FindProcessMode : FType := TEnum ["strict"; "always"; "off"] Closed.
Definition TunStack : FType := TEnum ["gVisor"; "system"; "mixed"] (Other "Unknown").

Definition GeoUrls : FType :=
  TStruct [dflt "geo-ip" TString; dflt "mmdb" TString; dflt "asn" TString; dflt "geo-site" TString].
Definition BrutalOptions : FType := TStruct [dflt "enabled" TBool; dflt "up" TString; dflt "down" TString].
Definition MuxOptions : FType := TStruct [dflt "padding" TBool; dflt "brutal" BrutalOptions].

Definition RuntimeTun : FType := TStruct [
  dflt "enable" TBool; dflt "device" TString; dflt "stack" TunStack; dflt "dns-hijack" (TVec TString);
  dflt "auto-route" TBool; dflt "auto-detect-interface" TBool; dflt "mtu" ty_u32; dflt "gso" TBool;
  dflt "gso-max-size" ty_u32; dflt "inet4-address" (TVec TNet); dflt "inet6-address" (TVec TNet);
  dflt "iproute2-table-index" ty_i64; dflt "iproute2-rule-index" ty_i64; dflt "auto-redirect" TBool;
  dflt "auto-redirect-input-mark" ty_u32; dflt "auto-redirect-output-mark" ty_u32;
  dflt "auto-redirect-iproute2-fallback-rule-index" ty_i64; dflt "loopback-address" (TVec TAddr);
  dflt "strict-route" TBool; dflt "route-address" (TVec TNet); dflt "route-address-set" (TVec TString);
  dflt "route-exclude-address" (TVec TNet); dflt "route-exclude-address-set" (TVec TString);
  dflt "include-interface" (TVec TString); dflt "exclude-interface" (TVec TString); dflt "include-uid" (TVec ty_u32);
  dflt "include-uid-range" (TVec TString); dflt "exclude-uid" (TVec ty_u32); dflt "exclude-uid-range" (TVec TString);
  dflt "exclude-src-port" (TVec ty_u16); dflt "exclude-src-port-range" (TVec TString);
  dflt "exclude-dst-port" (TVec ty_u16); dflt "exclude-dst-port-range" (TVec TString);
  dflt "include-android-user" (TVec ty_i64); dflt "include-package" (TVec TString);
  dflt "exclude-package" (TVec TString); dflt "include-mac-address" (TVec TString);
  dflt "exclude-mac-address" (TVec TString); dflt "endpoint-independent-nat" TBool; dflt "udp-timeout" ty_i64;
  dflt "icmp-timeout" ty_i64; dflt "disable-icmp-forwarding" TBool; dflt "file-descriptor" ty_i64;
  dflt "inet4-route-address" (TVec TNet); dflt "inet6-route-address" (TVec TNet);
  dflt "inet4-route-exclude-address" (TVec TNet); dflt "inet6-route-exclude-address" (TVec TNet);
  dflt "recvmsgx" TBool; dflt "sendmsgx" TBool].

Definition RuntimeTuicServer : FType := TStruct [
  dflt "enable" TBool; dflt "listen" TString; dflt "token" (TVec TString); dflt "users" TStringMap;
  dflt "certificate" TString; dflt "private-key" TString; dflt "client-auth-type" TString;
  dflt "client-auth-cert" TString; dflt "ech-key" TString; dflt "congestion-controller" TString;
  dflt "max-idle-time" ty_i64; dflt "authentication-timeout" ty_i64; dflt "alpn" (TVec TString);
  dflt "max-udp-relay-packet-size" ty_i64; dflt "max-datagram-frame-size" ty_i64; dflt "cwnd" ty_i64;
  dflt "bbr-profile" TString; dflt "mux-option" MuxOptions].

Definition RuntimeConfig_type : FType := TStruct [
  opt "socket-port" ty_i64; opt "external-controller" TString; opt "secret" TString; opt "port" ty_i64;
  opt "socks-port" ty_i64; opt "redir-port" ty_i64; opt "tproxy-port" ty_i64; opt "mixed-port" ty_i64;
  opt "tun" RuntimeTun; opt "tuic-server" RuntimeTuicServer; opt "ss-config" TString; opt "vmess-config" TString;
  opt "tcptun-config" TString; opt "udptun-config" TString; opt "authentication" (TVec TString);
  opt "skip-auth-prefixes" (TVec TNet); opt "lan-allowed-ips" (TVec TNet); opt "lan-disallowed-ips" (TVec TNet);
  opt "allow-lan" TBool; opt "bind-address" TString; opt "inbound-tfo" TBool; opt "inbound-mptcp" TBool;
  opt "mode" RuntimeTunnelMode; opt "unified-delay" TBool; opt "log-level" RuntimeLogLevel; opt "ipv6" TBool;
  opt "interface-name" TString; opt "routing-mark" ty_i64; opt "geox-url" GeoUrls; opt "geo-auto-update" TBool;
  opt "geo-update-interval" ty_i64; opt "geodata-mode" TBool; opt "geodata-loader" TString;
  opt "geosite-matcher" TString; opt "tcp-concurrent" TBool; opt "find-process-mode" FindProcessMode;
  opt "sniffing" TBool; opt "global-ua" TString; opt "etag-support" TBool; opt "keep-alive-idle" ty_i64;
  opt "keep-alive-interval" ty_i64; opt "disable-keep-alive" TBool].

Definition TunPatch : list (string * Presence * FType) := [
  dflt "enable" TBool; opt "device" TString; opt "stack" TunStack; opt "dns-hijack" (TVec TString);
  opt "auto-route" TBool; opt "auto-detect-interface" TBool; opt "mtu" ty_u32; opt "gso" TBool;
  opt "gso-max-size" ty_u32; opt "inet6-address" (TVec TNet); opt "iproute2-table-index" ty_i64;
  opt "iproute2-rule-index" ty_i64; opt "auto-redirect" TBool; opt "auto-redirect-input-mark" ty_u32;
  opt "auto-redirect-output-mark" ty_u32; opt "auto-redirect-iproute2-fallback-rule-index" ty_i64;
  opt "loopback-address" (TVec TAddr); opt "strict-route" TBool; opt "route-address" (TVec TNet);
  opt "route-address-set" (TVec TString); opt "route-exclude-address" (TVec TNet);
  opt "route-exclude-address-set" (TVec TString); opt "include-interface" (TVec TString);
  opt "exclude-interface" (TVec TString); opt "include-uid" (TVec ty_u32); opt "include-uid-range" (TVec TString);
  opt "exclude-uid" (TVec ty_u32); opt "exclude-uid-range" (TVec TString); opt "include-android-user" (TVec ty_i64);
  opt "include-package" (TVec TString); opt "exclude-package" (TVec TString); opt "include-mac-address" (TVec TString);
  opt "exclude-mac-address" (TVec TString); opt "endpoint-independent-nat" TBool; opt "udp-timeout" ty_i64;
  opt "icmp-timeout" ty_i64; opt "file-descriptor" ty_i64; opt "inet4-route-address" (TVec TNet);
  opt "inet6-route-address" (TVec TNet); opt "inet4-route-exclude-address" (TVec TNet);
  opt "inet6-route-exclude-address" (TVec TNet); opt "recvmsgx" TBool; opt "sendmsgx" TBool].

Definition TuicServerPatch : list (string * Presence * FType) := [
  dflt "enable" TBool; opt "listen" TString; opt "token" (TVec TString); opt "users" TStringMap;
  opt "certificate" TString; opt "private-key" TString; opt "congestion-controller" TString;
  opt "max-idle-time" ty_i64; opt "authentication-timeout" ty_i64; opt "alpn" (TVec TString);
  opt "max-udp-relay-packet-size" ty_i64; opt "cwnd" ty_i64; opt "bbr-profile" TString].

Definition ConfigPatch_fields : list (string * Presence * FType) := [
  opt "port" ty_i64; opt "socks-port" ty_i64; opt "redir-port" ty_i64; opt "tproxy-port" ty_i64; opt "mixed-port" ty_i64;
  opt "tun" (TStruct TunPatch); opt "tuic-server" (TStruct TuicServerPatch); opt "ss-config" TString;
  opt "vmess-config" TString; opt "tcptun-config" TString; opt "udptun-config" TString; opt "allow-lan" TBool;
  opt "skip-auth-prefixes" (TVec TNet); opt "lan-allowed-ips" (TVec TNet); opt "lan-disallowed-ips" (TVec TNet);
  opt "bind-address" TString; opt "mode" TunnelMode; opt "log-level" PatchLogLevel; opt "ipv6" TBool;
  opt "sniffing" TBool; opt "tcp-concurrent" TBool; opt "find-process-mode" FindProcessMode;
  opt "interface-name" TString].

(** * Data *)

Class IpLib := {
  IpNet : Type;
  IpAddr : Type;
  net_parse : string → option IpNet;
  net_display : IpNet → string;
  addr_parse : string → option IpAddr;
  addr_display : IpAddr → string;
}.

(** A data format. *)
Class Format (F : Type) := {
  get_null : F → bool;
  get_bool : F → option bool;
  get_int : F → option Z;
  get_str : F → option string;
  get_seq : F → option (list F);
  get_map : F → option (list (string * F));
  put_bool : bool → F;
  put_int : Z → F;
  put_str : string → F;
  put_seq : list F → F;
  put_map : list (string * F) → F;
}.

(** [serde_yaml_ng::Value]; the keys of a structure or map are strings.  A null
    is taken by the optional field it is in, before its type is read. *)
Definition string_key {YF : YamlFloat} (kv : Value * Value) : option (string * Value) :=
  match kv.1 with VString k => Some (k, kv.2) | _ => None end.
#[export] Instance yaml_format {YF : YamlFloat} : Format Value := {|
  get_null := is_null;
  get_bool := as_bool;
  get_int v := match untag v with VNumber (PosInt n) | VNumber (NegInt n) => Some n | _ => None end;
  get_str := as_str;
  get_seq v := match untag v with VSequence l => Some l | _ => None end;
  get_map v := as_mapping v ≫= mapM string_key;
  put_bool := VBool;
  put_int z := VNumber (if (z <? 0)%Z then NegInt z else PosInt z);
  put_str := VString;
  put_seq := VSequence;
  put_map es := VMapping (to_mapping es);
|}.

(** [serde_json]. *)
#[export] Instance json_format : Format Json := {|
  get_null j := match j with JNull => true | _ => false end;
  get_bool := read_bool;
  get_int j := match j with JInt z => Some z | _ => None end;
  get_str := read_string;
  get_seq j := match j with JArray l => Some l | _ => None end;
  get_map j := match j with JObject o => Some o | _ => None end;
  put_bool := JBool;
  put_int := JInt;
  put_str := JString;
  put_seq := JArray;
  put_map := JObject;
|}.

(** * Reading and writing *)
Section codec.
Context {IL : IpLib}.

(** The value of a type; a structure has one slot per declared field, which is
    [None] for an absent optional one. *)
Inductive FVal :=
| FBool (b : bool)
| FInt (z : Z)
| FStr (s : string)
| FNet (n : IpNet)
| FAddr (a : IpAddr)
| FEnum (name : string)
| FVec (l : list FVal)
| FMap (es : list (string * string))
| FStruct (slots : list (option FVal)).

(** [Default]; networks, addresses and closed enumerations have none. *)
Fixpoint default_of (t : FType) : option FVal :=
  match t with
  | TBool => Some (FBool false)
  | TInt _ _ => Some (FInt 0)
  | TString => Some (FStr "")
  | TNet | TAddr => None
  | TEnum _ (Other name) => Some (FEnum name)
  | TEnum _ _ => None
  | TVec _ => Some (FVec [])
  | TStringMap => Some (FMap [])
  | TStruct fields =>
      FStruct <$> (fix go (fs : list (string * Presence * FType)) : option (list (option FVal)) :=
        match fs with
        | [] => Some []
        | (_, Optional, _) :: fs' => cons None <$> go fs'
        | (_, Defaulted, t') :: fs' => v ← default_of t'; cons (Some v) <$> go fs'
        end) fields
  end.

(** [IndexMap::insert]: a later entry of a key replaces the value in place. *)
Fixpoint index_insert (k v : string) (es : list (string * string)) : list (string * string) :=
  match es with
  | [] => [(k, v)]
  | e :: es' => if String.eqb k e.1 then (k, v) :: es' else e :: index_insert k v es'
  end.

Section format.
Context {F : Type} {FM : Format F}.

(** Every entry of that name. *)
Definition occurrences (name : string) (es : list (string * F)) : list F :=
  omap (λ e, if String.eqb name e.1 then Some e.2 else None) es.

(** A field from its occurrences: a repeated one is an error. *)
Definition decode_slot (dec : FType → F → option FVal) (p : Presence) (t : FType) (found : list F) :
    option (option FVal) :=
  match found, p with
  | [], Optional => Some None
  | [], Defaulted => Some <$> default_of t
  | [x], Optional => if get_null x then Some None else Some <$> dec t x
  | [x], Defaulted => Some <$> dec t x
  | _, _ => None
  end.

Definition decode_slots (dec : FType → F → option FVal) (es : list (string * F)) :
    list (string * Presence * FType) → option (list (option FVal)) :=
  fix go fs :=
    match fs with
    | [] => Some []
    | (name, p, t) :: fs' =>
        v ← decode_slot dec p t (occurrences name es); cons v <$> go fs'
    end.

Definition decode_enum (names : list string) (fallback : Fallback) (s : string) : option FVal :=
  if listed s names then Some (FEnum s)
  else match fallback with
       | Closed => None
       | Other name => Some (FEnum name)
       | Open => Some (FEnum s)
       end.

(** [Deserialize]; fields a structure does not declare are skipped. *)
Fixpoint decode (t : FType) (x : F) : option FVal :=
  match t with
  | TBool => FBool <$> get_bool x
  | TInt lo hi => z ← get_int x; if (lo <=? z)%Z && (z <=? hi)%Z then Some (FInt z) else None
  | TString => FStr <$> get_str x
  | TNet => s ← get_str x; FNet <$> net_parse s
  | TAddr => s ← get_str x; FAddr <$> addr_parse s
  | TEnum names fallback => s ← get_str x; decode_enum names fallback s
  | TVec t' => l ← get_seq x; FVec <$> mapM (decode t') l
  | TStringMap =>
      es ← get_map x;
      ss ← mapM (λ e, pair e.1 <$> get_str e.2) es;
      Some (FMap (fold_left (λ m e, index_insert e.1 e.2 m) ss []))
  | TStruct fields => es ← get_map x; FStruct <$> decode_slots decode es fields
  end.

(** [Serialize], with [skip_serializing_if = "Option::is_none"] on every
    optional field. *)
Definition encode_slots (enc : FType → FVal → F) :
    list (string * Presence * FType) → list (option FVal) → list (string * F) :=
  fix go fs slots :=
    match fs, slots with
    | (name, _, t) :: fs', Some v :: slots' => (name, enc t v) :: go fs' slots'
    | _ :: fs', None :: slots' => go fs' slots'
    | _, _ => []
    end.

(** A value has the shape of its type; the last case is not reached. *)
Fixpoint encode (t : FType) (v : FVal) : F :=
  match t, v with
  | TBool, FBool b => put_bool b
  | TInt _ _, FInt z => put_int z
  | TString, FStr s => put_str s
  | TNet, FNet n => put_str (net_display n)
  | TAddr, FAddr a => put_str (addr_display a)
  | TEnum _ _, FEnum name => put_str name
  | TVec t', FVec l => put_seq (encode t' <$> l)
  | TStringMap, FMap es => put_map ((λ e, (e.1, put_str e.2)) <$> es)
  | TStruct fs, FStruct slots => put_map (encode_slots encode fs slots)
  | _, _ => put_map []
  end.
End format.
End codec.

(** * The codec of the classification *)

(** [serde_yaml_ng::from_value::<ConfigPatch>] and [to_value] of a patch and of
    a runtime view. *)
Definition ConfigPatch_type : FType := TStruct ConfigPatch_fields.

Definition serde_codec {YF : YamlFloat} {IL : IpLib} : PatchCodec := {|
  ConfigPatch := FVal;
  RuntimeConfig := FVal;
  patch_from_value := decode ConfigPatch_type;
  patch_to_value patch := Ok (encode ConfigPatch_type patch);
  runtime_config_to_value actual := Ok (encode RuntimeConfig_type actual);
|}.

(** The body of [patch_config] and the answer of [configs] on the wire. *)
Definition patch_body {IL : IpLib} (patch : FVal) : Json := encode ConfigPatch_type patch.
Definition configs_answer {IL : IpLib} (body : Json) : option FVal := decode RuntimeConfig_type body.
