(* ===== verification/ConfigCodecProps.v ===== *)
(** What the codecs of [/configs] guarantee, and what they make of the patch a
    configuration change is turned into. *)
From S2P Require Import Prelude Text Metadata Types Yaml Diff Mihomo Wire ConfigCodec.
From Stdlib Require Import ZArith Lia.

(** * Well-formed types and typed values *)

(** Induction with hypotheses for the fields of structures. *)
Lemma FType_induction (P : FType → Prop) :
  P TBool → (∀ lo hi, P (TInt lo hi)) → P TString → P TNet → P TAddr →
  (∀ names fallback, P (TEnum names fallback)) → (∀ t, P t → P (TVec t)) → P TStringMap →
  (∀ fields, Forall (λ f, P f.2) fields → P (TStruct fields)) →
  ∀ t, P t.
Proof.
  intros Hb Hi Hs Hn Ha He Hv Hm Hst. fix rec 1. intros [|lo hi| | | |names fb|t| |fields].
  - exact Hb.
  - apply Hi.
  - exact Hs.
  - exact Hn.
  - exact Ha.
  - apply He.
  - apply Hv, rec.
  - exact Hm.
  - apply Hst. induction fields as [|f fields IH]; constructor; [apply rec|exact IH].
Qed.

Definition field_names (fields : list (string * Presence * FType)) : list string := (λ f, f.1.1) <$> fields.

(** Distinct field names, and ranges that hold the default of a number. *)
Fixpoint wf_type (t : FType) : bool :=
  match t with
  | TInt lo hi => (lo <=? 0)%Z && (0 <=? hi)%Z
  | TVec t' => wf_type t'
  | TStruct fields => bool_decide (NoDup (field_names fields)) && forallb (λ f, wf_type f.2) fields
  | _ => true
  end.

Lemma wf_struct fields :
  wf_type (TStruct fields) = true → NoDup (field_names fields) ∧ Forall (λ f, wf_type f.2 = true) fields.
Proof.
  cbn [wf_type]. intros [H1%bool_decide_eq_true H2%forallb_Forall]%andb_true_iff. by split.
Qed.

Section typing.
Context {IL : IpLib}.

#[local] Set Warnings "-register-all".

Inductive has_type : FType → FVal → Prop :=
| ty_bool b : has_type TBool (FBool b)
| ty_int lo hi z : (lo ≤ z ≤ hi)%Z → has_type (TInt lo hi) (FInt z)
| ty_string s : has_type TString (FStr s)
| ty_net n : has_type TNet (FNet n)
| ty_addr a : has_type TAddr (FAddr a)
| ty_known names fallback s : s ∈ names → has_type (TEnum names fallback) (FEnum s)
| ty_other names s : has_type (TEnum names (Other s)) (FEnum s)
| ty_open names s : has_type (TEnum names Open) (FEnum s)
| ty_vec t l : Forall (has_type t) l → has_type (TVec t) (FVec l)
| ty_map es : NoDup es.*1 → has_type TStringMap (FMap es)
| ty_struct fields slots : slots_typed fields slots → has_type (TStruct fields) (FStruct slots)
with slots_typed : list (string * Presence * FType) → list (option FVal) → Prop :=
| slots_nil : slots_typed [] []
| slots_some name p t v fields slots :
    has_type t v → slots_typed fields slots → slots_typed ((name, p, t) :: fields) (Some v :: slots)
| slots_none name t fields slots :
    slots_typed fields slots → slots_typed ((name, Optional, t) :: fields) (None :: slots).

(** ** Values read from any format are typed *)
Lemma default_typed t v : wf_type t = true → default_of t = Some v → has_type t v.
Proof.
  revert v. induction t as [|lo hi| | | |names fb|t IH| |fields IH] using FType_induction; intros v Hwf;
    cbn [default_of]; try (intros [= <-]; by constructor); try done.
  - intros [= <-]. constructor. cbn in Hwf. apply andb_true_iff in Hwf as [?%Z.leb_le ?%Z.leb_le]. lia.
  - destruct fb; try done. intros [= <-]. apply ty_other.
  - intros [= <-]. constructor. constructor.
  - apply wf_struct in Hwf as [_ Hwf]. intros (slots & E & ->)%fmap_Some. constructor.
    revert slots E. induction IH as [|[[name p] t] fields IHt _ IHfs]; intros slots E.
    { injection E as <-. constructor. }
    inversion Hwf as [|? ? Hw1 Hw2]; subst. destruct p.
    + apply fmap_Some in E as (s & E & ->). constructor. by apply IHfs.
    + apply bind_Some in E as (w & Ew & (s & E & ->)%fmap_Some). constructor; [by apply IHt|by apply IHfs].
Qed.

Lemma index_insert_keys k v es : (index_insert k v es).*1 = if bool_decide (k ∈ es.*1) then es.*1 else es.*1 ++ [k].
Proof.
  induction es as [|[k' v'] es IH]; [done|]. cbn [index_insert fst fmap list_fmap].
  destruct (String.eqb_spec k k') as [->|Hne]; cbn [fst fmap list_fmap].
  - rewrite bool_decide_eq_true_2; [done|set_solver].
  - rewrite IH. case_bool_decide; case_bool_decide; try done; set_solver.
Qed.

Lemma index_insert_NoDup k v es : NoDup es.*1 → NoDup (index_insert k v es).*1.
Proof.
  intros H. rewrite index_insert_keys. case_bool_decide; [done|].
  apply NoDup_app. split_and!; [done| |apply NoDup_singleton]. set_solver.
Qed.

Lemma index_insert_fresh k v es : k ∉ es.*1 → index_insert k v es = es ++ [(k, v)].
Proof.
  induction es as [|[k' v'] es IH]; [done|]. intros H. cbn [index_insert fst].
  destruct (String.eqb_spec k k') as [->|Hne]; [set_solver|]. rewrite IH by set_solver. done.
Qed.

Lemma index_collect_NoDup ss acc : NoDup acc.*1 → NoDup (fold_left (λ m e, index_insert e.1 e.2 m) ss acc).*1.
Proof. revert acc. induction ss as [|e ss IH]; intros acc H; [done|]. by apply IH, index_insert_NoDup. Qed.

Lemma index_collect_id ss acc :
  NoDup (acc.*1 ++ ss.*1) → fold_left (λ m e, index_insert e.1 e.2 m) ss acc = acc ++ ss.
Proof.
  revert acc. induction ss as [|[k v] ss IH]; intros acc H; cbn [fold_left fst snd]; [by rewrite app_nil_r|].
  cbn in H. pose proof H as (_ & Hd & _)%NoDup_app.
  rewrite index_insert_fresh by (intros Hin; apply (Hd k Hin); set_solver).
  rewrite IH; [by rewrite <-app_assoc|]. rewrite fmap_app, <-app_assoc. exact H.
Qed.

Section format.
Context {F : Type} {FM : Format F}.

Lemma decode_typed t (x : F) v : wf_type t = true → decode t x = Some v → has_type t v.
Proof.
  revert x v. induction t as [|lo hi| | | |names fb|t IH| |fields IH] using FType_induction; intros x v Hwf;
    cbn [decode].
  - intros (b & _ & ->)%fmap_Some. constructor.
  - intros (z & _ & E)%bind_Some. destruct (_ && _) eqn:El in E; [|done]. injection E as <-.
    apply andb_true_iff in El as [?%Z.leb_le ?%Z.leb_le]. constructor. lia.
  - intros (s & _ & ->)%fmap_Some. constructor.
  - intros (s & _ & (n & _ & ->)%fmap_Some)%bind_Some. constructor.
  - intros (s & _ & (n & _ & ->)%fmap_Some)%bind_Some. constructor.
  - intros (s & _ & E)%bind_Some. unfold decode_enum in E. destruct (listed s names) eqn:El.
    + injection E as <-. apply ty_known. by apply listed_In.
    + destruct fb; simplify_eq; [apply ty_other|apply ty_open].
  - intros (l & _ & (vs & Hm & ->)%fmap_Some)%bind_Some. constructor.
    apply mapM_Some_1 in Hm. clear -Hm IH Hwf. induction Hm; constructor; eauto.
  - intros (es & _ & (ss & _ & [= <-])%bind_Some)%bind_Some. constructor. apply index_collect_NoDup. constructor.
  - apply wf_struct in Hwf as [_ Hwf]. intros (es & _ & (slots & E & ->)%fmap_Some)%bind_Some. constructor.
    revert slots E. induction IH as [|[[name p] t] fields IHt _ IHfs]; intros slots E.
    { injection E as <-. constructor. }
    inversion Hwf as [|? ? Hw1 Hw2]; subst. apply bind_Some in E as (o & Eo & (s & E & ->)%fmap_Some).
    specialize (IHfs Hw2 s E). cbn in IHt, Hw1.
    destruct (occurrences name es) as [|y [|? ?]], p; cbn in Eo; try done.
    + injection Eo as <-. by constructor.
    + apply fmap_Some in Eo as (w & Ew & ->). constructor; [by apply default_typed|done].
    + destruct (get_null y); [injection Eo as <-; by constructor|].
      apply fmap_Some in Eo as (w & Ew & ->). constructor; [by eapply IHt|done].
    + apply fmap_Some in Eo as (w & Ew & ->). constructor; [by eapply IHt|done].
Qed.

(** ** The entries a structure looks at *)
Lemma encode_slots_names fields slots (enc : FType → FVal → F) k :
  k ∈ (encode_slots enc fields slots).*1 → k ∈ field_names fields.
Proof.
  revert slots. induction fields as [|[[name p] t] fields IH]; intros slots; [set_solver|].
  destruct slots as [|[v|] slots]; cbn; [set_solver| |]; intros H.
  - apply elem_of_cons in H as [->|H]; [by left|right; by eapply IH].
  - right. by eapply IH.
Qed.

Lemma occurrences_none name (es : list (string * F)) : name ∉ es.*1 → occurrences name es = [].
Proof.
  induction es as [|[k x] es IH]; [done|]. intros H. unfold occurrences. cbn [omap list_omap fst].
  destruct (String.eqb_spec name k) as [->|]; [set_solver|]. apply IH. set_solver.
Qed.

Lemma occurrences_cons name k (x : F) es :
  occurrences name ((k, x) :: es) = if String.eqb name k then x :: occurrences name es else occurrences name es.
Proof. unfold occurrences. cbn [omap list_omap fst]. by destruct (String.eqb name k). Qed.

(** Reading the slots of a structure only looks at the entries of its fields. *)
Lemma decode_slots_cons dec name x es fields :
  name ∉ field_names fields →
  decode_slots dec ((name, x) :: es) fields = decode_slots dec (es : list (string * F)) fields.
Proof.
  induction fields as [|[[n p] t] fields IH]; [done|]. intros H. cbn [decode_slots].
  cbn in H. rewrite occurrences_cons. destruct (String.eqb_spec n name) as [->|]; [set_solver|].
  rewrite IH by set_solver. done.
Qed.
End format.
End typing.

(** * Round trips *)

(** What the source relies on of a format and of the address texts. *)
Class FormatLaws {F : Type} (FM : Format F) : Prop := {
  law_bool b : get_bool (put_bool b) = Some b;
  law_int z : get_int (put_int z) = Some z;
  law_str s : get_str (put_str s) = Some s;
  law_seq l : get_seq (put_seq l) = Some l;
  law_map es : get_map (put_map es) = Some es;
  law_null : (∀ b, get_null (put_bool b) = false) ∧ (∀ z, get_null (put_int z) = false)
    ∧ (∀ s, get_null (put_str s) = false) ∧ (∀ l, get_null (put_seq l) = false)
    ∧ (∀ es, get_null (put_map es) = false);
}.

Class IpLaws (IL : IpLib) : Prop := {
  net_parse_display n : net_parse (net_display n) = Some n;
  addr_parse_display a : addr_parse (addr_display a) = Some a;
}.

Lemma string_keys_mapping {YF : YamlFloat} (m : Mapping) es :
  mapM string_key m = Some es ↔ m = to_mapping es.
Proof.
  rewrite mapM_Some. split.
  - induction 1 as [|[k v] [k' v'] m es Hk _ IH]; [done|]. subst. destruct k; try discriminate Hk. injection Hk as -> ->. done.
  - intros ->. induction es as [|[k v] es IH]; constructor; done.
Qed.

#[export] Instance yaml_laws {YF : YamlFloat} : FormatLaws yaml_format.
Proof.
  split; cbn; try done.
  - intros z. by destruct (z <? 0)%Z.
  - intros es. by apply string_keys_mapping.
Qed.

#[export] Instance json_laws : FormatLaws json_format.
Proof. by split; cbn. Qed.

Section roundtrip.
Context {IL : IpLib} {IPL : IpLaws IL} {F : Type} {FM : Format F} {FL : FormatLaws FM}.

Lemma encode_not_null t v : get_null (encode t v : F) = false.
Proof. destruct law_null as (? & ? & ? & ? & ?). destruct t, v; cbn [encode]; auto. Qed.

Lemma decode_encode t v : wf_type t = true → has_type t v → decode t (encode t v : F) = Some v.
Proof.
  revert v. induction t as [|lo hi| | | |names fb|t IH| |fields IH] using FType_induction; intros v Hwf Hty;
    inversion Hty; subst; cbn [decode encode].
  - by rewrite law_bool.
  - rewrite law_int. cbn. by rewrite (proj2 (Z.leb_le _ _)), (proj2 (Z.leb_le _ _)) by lia.
  - by rewrite law_str.
  - rewrite law_str. cbn. by rewrite net_parse_display.
  - rewrite law_str. cbn. by rewrite addr_parse_display.
  - rewrite law_str. cbn. unfold decode_enum. by rewrite (proj2 (listed_In _ _)).
  - rewrite law_str. cbn. unfold decode_enum. by case_match.
  - rewrite law_str. cbn. unfold decode_enum. by case_match.
  - rewrite law_seq. cbn. rewrite mapM_fmap_Forall_Some; [done|].
    eapply Forall_impl; [eassumption|]. intros w Hw. by apply IH.
  - rewrite law_map. cbn. rewrite mapM_fmap_Forall_Some.
    2:{ apply Forall_forall. intros [k s] _. cbn. by rewrite law_str. }
    cbn. by rewrite index_collect_id.
  - rewrite law_map. cbn. enough (∀ slots, slots_typed fields slots →
      decode_slots decode (encode_slots encode fields slots : list (string * F)) fields = Some slots) as ->; [done|done|].
    clear dependent slots. intros slots Hs. apply wf_struct in Hwf as [Hnd Hwf].
    revert slots Hs. induction IH as [|[[name p] t] fields IHt _ IHfs]; intros slots Hs; [by inversion Hs|].
    cbn in Hnd. apply NoDup_cons in Hnd as [Hnin Hnd]. inversion Hwf as [|? ? Hw1 Hw2]; subst.
    assert (∀ sl, occurrences name (encode_slots encode fields sl : list (string * F)) = []) as Hocc.
    { intros sl. apply occurrences_none. by intros ?%encode_slots_names. }
    inversion Hs; subst; cbn [encode_slots decode_slots].
    + rewrite occurrences_cons, String.eqb_refl, Hocc, decode_slots_cons by done.
      rewrite (IHfs Hnd Hw2) by done. cbn in IHt, Hw1.
      destruct p; cbn [decode_slot]; rewrite ?encode_not_null, (IHt v) by done; done.
    + rewrite Hocc, (IHfs Hnd Hw2) by done. done.
Qed.
End roundtrip.

(** * The tables agree with each other *)

(** The field lists of config/mihomo.rs are the fields of the patch. *)
Lemma patch_tables :
  field_names ConfigPatch_fields = PATCH_FIELDS ∧ field_names TunPatch = TUN_PATCH_FIELDS
  ∧ field_names TuicServerPatch = TUIC_SERVER_PATCH_FIELDS.
Proof. done. Qed.

Lemma configs_types_wf : wf_type ConfigPatch_type = true ∧ wf_type RuntimeConfig_type = true.
Proof. by split; vm_compute. Qed.

Lemma patch_optional name p t : (name, p, t) ∈ ConfigPatch_fields → p = Optional.
Proof.
  assert (Forall (λ f, f.1.2 = Optional) ConfigPatch_fields) as H by (repeat constructor).
  rewrite Forall_forall in H. apply (H (name, p, t)).
Qed.

(** * The patch of a change *)

(** A verified projection holds leaf by leaf. *)
Lemma projection_verify_true {YF : YamlFloat} {PC : PatchCodec} p actual v q leaf :
  runtime_config_to_value actual = Ok v → projection_verify p actual = Ok true → (q, leaf) ∈ rp_expected p →
  ∃ w, value_at v q = Some w ∧ value_eqb w leaf = true.
Proof.
  unfold projection_verify. intros ->. intros [= Hv] Hin. apply forallb_Forall in Hv.
  rewrite Forall_forall in Hv. specialize (Hv (q, leaf) Hin). cbn beta iota in Hv.
  destruct (value_at v q) as [w|]; [|done]. by exists w.
Qed.
Section patch.
Context {YF : YamlFloat} {IL : IpLib}.
#[local] Existing Instance serde_codec.

(** Texts that the typed patch writes the way they were read: integers in the
    form of their sign, addresses in canonical notation, known names. *)
Fixpoint plain (t : FType) (x : Value) : bool :=
  match t, x with
  | TInt _ _, VNumber (PosInt n) => (0 <=? n)%Z
  | TInt _ _, VNumber (NegInt n) => (n <? 0)%Z
  | TNet, VString s => match net_parse s with Some n => String.eqb (net_display n) s | None => false end
  | TAddr, VString s => match addr_parse s with Some a => String.eqb (addr_display a) s | None => false end
  | TEnum names (Other name), VString s => listed s (name :: names)
  | TVec t', VSequence l => forallb (plain t') l
  | _, _ => true
  end.

(** Not a structure. *)
Fixpoint leaf_type (t : FType) : bool :=
  match t with TVec t' => leaf_type t' | TStruct _ => false | _ => true end.

Lemma canonical_untag x : canonical x → untag x = x.
Proof. by destruct 1. Qed.

(** A leaf that is read back as it was. *)
Lemma plain_exact t x v :
  canonical x → leaf_type t = true → plain t x = true → decode t x = Some v → encode t v = x.
Proof.
  revert x v. induction t as [|lo hi| | | |names fb|t IH| |fields IH] using FType_induction; intros x v Hc Hl Hp;
    cbn [decode]; unfold as_bool, as_str; cbn [get_bool get_int get_str get_seq get_map yaml_format];
    unfold as_bool, as_str, as_mapping; rewrite ?(canonical_untag x Hc).
  - intros (b & E & ->)%fmap_Some. destruct x; by simplify_eq.
  - intros (z & E & Ev)%bind_Some. destruct (_ && _) in Ev; [|done]. injection Ev as <-.
    destruct x as [| |[n|n|] | | | |]; simplify_eq; cbn in Hp |- *.
    + apply Z.leb_le in Hp. by rewrite (proj2 (Z.ltb_ge _ _)).
    + by rewrite Hp.
  - intros (s & E & ->)%fmap_Some. destruct x; by simplify_eq.
  - intros (s & E & (n & En & ->)%fmap_Some)%bind_Some. destruct x; simplify_eq. cbn in Hp |- *.
    rewrite En in Hp. apply String.eqb_eq in Hp. by rewrite Hp.
  - intros (s & E & (n & En & ->)%fmap_Some)%bind_Some. destruct x; simplify_eq. cbn in Hp |- *.
    rewrite En in Hp. apply String.eqb_eq in Hp. by rewrite Hp.
  - intros (s & E & Ed)%bind_Some. destruct x; simplify_eq. unfold decode_enum in Ed. cbn [plain] in Hp.
    destruct (listed s names) eqn:El; [by simplify_eq|]. destruct fb as [|name|]; simplify_eq; [|done].
    unfold listed in Hp, El. cbn [existsb] in Hp. rewrite El, orb_false_r in Hp.
    apply String.eqb_eq in Hp as ->. done.
  - intros (l & E & (vs & Em & ->)%fmap_Some)%bind_Some. destruct x; simplify_eq. cbn in Hp |- *. f_equal.
    apply forallb_Forall in Hp. inversion Hc as [| | | |? Hall|]; subst.
    apply mapM_Some_1 in Em. clear -Em IH Hp Hall Hl. induction Em as [|y w ys ws Hy _ IHl]; [done|].
    inversion Hp; inversion Hall; subst. cbn. f_equal; [by apply IH|by apply IHl].
  - intros (es & E & (ss & Em & [= <-])%bind_Some)%bind_Some. destruct x as [| | | | |m|]; simplify_eq.
    apply string_keys_mapping in E as ->.
    inversion Hc as [| | | | |es' Hs Hall Eq]; subst. apply to_mapping_inj in Eq as ->.
    apply mapM_Some_1 in Em. assert (ss.*1 = es.*1 ∧ ((λ e, (e.1, VString e.2)) <$> ss) = es) as [Ek Ev].
    { clear -Em Hall. induction Em as [|[k y] [k' s] es ss Hy _ IH]; [done|].
      inversion Hall as [|? ? Hy' Hall']; subst. cbn in Hy, Hy'. apply fmap_Some in Hy as (w & Hw & [= -> ->]).
      unfold as_str in Hw. rewrite canonical_untag in Hw by done. destruct y; simplify_eq.
      destruct (IH Hall') as [IH1 IH2]. split; cbn; by f_equal. }
    rewrite index_collect_id by (cbn; rewrite Ek; by apply sorted_strict_NoDup). cbn. by rewrite Ev.
  - done.
Qed.

(** ** Structures, field by field *)
Lemma map_get_occurrences name es : map_get (to_mapping es) name = head (occurrences name es).
Proof.
  induction es as [|[k x] es IH]; [done|].
  change (to_mapping ((k, x) :: es)) with ((VString k, x) :: to_mapping es).
  rewrite map_get_cons, occurrences_cons, IH. by destruct (String.eqb name k).
Qed.

Lemma encode_slots_other k fields slots :
  k ∉ field_names fields → map_get (to_mapping (encode_slots encode fields slots)) k = None.
Proof.
  intros H. rewrite map_get_occurrences, occurrences_none; [done|]. by intros ?%encode_slots_names.
Qed.

Lemma decode_slots_field (es : list (string * Value)) fields slots name p t :
  NoDup (field_names fields) → decode_slots decode es fields = Some slots → (name, p, t) ∈ fields →
  ∃ o, decode_slot decode p t (occurrences name es) = Some o
    ∧ map_get (to_mapping (encode_slots encode fields slots)) name = encode t <$> o.
Proof.
  intros Hnd. revert slots. induction fields as [|[[n p'] t'] fields IH]; intros slots; [set_solver|].
  cbn in Hnd. apply NoDup_cons in Hnd as [Hnin Hnd]. cbn [decode_slots].
  intros (o & Eo & (sl & Es & ->)%fmap_Some)%bind_Some.
  intros [E|Hin]%elem_of_cons.
  - injection E as -> -> ->. exists o. split; [done|]. destruct o as [v|]; cbn [encode_slots].
    + change (to_mapping ((n, encode t' v) :: encode_slots encode fields sl))
        with ((VString n, encode t' v) :: to_mapping (encode_slots encode fields sl)).
      by rewrite map_get_cons, String.eqb_refl.
    + by rewrite encode_slots_other.
  - assert (name ≠ n) as Hne. { intros ->. apply Hnin. unfold field_names. apply list_elem_of_fmap. by exists (n, p, t). }
    destruct (IH Hnd sl Es Hin) as (o' & Eo' & Hg). exists o'. split; [done|]. rewrite <-Hg.
    destruct o as [v|]; cbn [encode_slots]; [|done].
    change (to_mapping ((n, encode t' v) :: encode_slots encode fields sl))
      with ((VString n, encode t' v) :: to_mapping (encode_slots encode fields sl)).
    rewrite map_get_cons. by destruct (String.eqb_spec name n).
Qed.

(** What a structure read from a mapping is written as: nothing under names it
    does not declare; of its fields, nothing for an absent or null optional one,
    and otherwise the value read. *)
Definition field_written (m out : Mapping) (name : string) (p : Presence) (t : FType) : Prop :=
  (map_get m name = None → p = Optional → map_get out name = None)
  ∧ ∀ x, map_get m name = Some x →
      (p = Optional ∧ is_null x = true ∧ map_get out name = None)
      ∨ ∃ v, decode t x = Some v ∧ map_get out name = Some (encode t v).

Lemma decode_struct_spec fields w m v :
  NoDup (field_names fields) → as_mapping w = Some m → decode (TStruct fields) w = Some v →
  ∃ out, encode (TStruct fields) v = VMapping out
    ∧ (∀ k, k ∉ field_names fields → map_get out k = None)
    ∧ ∀ name p t, (name, p, t) ∈ fields → field_written m out name p t.
Proof.
  intros Hnd Hm. cbn [decode get_map yaml_format]. rewrite Hm. cbn [mbind option_bind].
  intros (es & ->%string_keys_mapping & (slots & Es & ->)%fmap_Some)%bind_Some.
  exists (to_mapping (encode_slots encode fields slots)). split; [done|]. split; [intros k; apply encode_slots_other|].
  intros name p t Hin. destruct (decode_slots_field _ _ _ _ _ _ Hnd Es Hin) as (o & Eo & Hg).
  unfold field_written. rewrite Hg, map_get_occurrences. clear Hg.
  destruct (occurrences name es) as [|x [|? ?]]; cbn [head]; [|split; [done|]|by destruct p].
  { split; [|done]. intros _ ->. cbn in Eo. by injection Eo as <-. }
  intros y [= <-]. destruct p; cbn [decode_slot get_null yaml_format] in Eo.
  - destruct (is_null x) eqn:En; [injection Eo as <-; by left|].
    apply fmap_Some in Eo as (v & Ev & ->). right. eauto.
  - apply fmap_Some in Eo as (v & Ev & ->). right. eauto.
Qed.

(** ** The paths a patch can set *)

Definition field_of (fields : list (string * Presence * FType)) (k : string) : option (string * Presence * FType) :=
  List.find (λ f, String.eqb k f.1.1) fields.

(** The type of a settable path: a leaf of the patch, or a field of one of its
    two structures. *)
Definition patch_path_type (path : list string) : option FType :=
  match path with
  | [k] => f ← field_of ConfigPatch_fields k; if leaf_type f.2 then Some f.2 else None
  | [root; k] =>
      f ← field_of ConfigPatch_fields root;
      match f.2 with TStruct fields => snd <$> field_of fields k | _ => None end
  | _ => None
  end.

Lemma field_of_Some fields k f : field_of fields k = Some f → f ∈ fields ∧ f.1.1 = k.
Proof. intros [Hin ?%String.eqb_eq]%find_some. by rewrite <-list_elem_of_In in Hin. Qed.

Lemma field_of_listed fields k : listed k (field_names fields) = true → ∃ f, field_of fields k = Some f.
Proof.
  rewrite listed_In. intros (f & -> & Hf)%list_elem_of_fmap. unfold field_of.
  destruct (List.find _ fields) as [g|] eqn:E; [by exists g|].
  apply list_elem_of_In in Hf. apply (find_none _ _ E) in Hf. by rewrite String.eqb_refl in Hf.
Qed.

(** The two structures are [tun] and [tuic-server], the other fields are
    leaves, and so are the fields of the structures. *)
Lemma patch_fields_shape f :
  f ∈ ConfigPatch_fields →
  ((f.1.1 ∈ ["tun"; "tuic-server"]) ∧ ∃ fields, f.2 = TStruct fields ∧ NoDup (field_names fields)
     ∧ Forall (λ g, leaf_type g.2 = true) fields)
  ∨ ((f.1.1 ∉ ["tun"; "tuic-server"]) ∧ leaf_type f.2 = true).
Proof.
  set (ok (f : string * Presence * FType) :=
    match f.2 with
    | TStruct fields => listed f.1.1 ["tun"; "tuic-server"] && bool_decide (NoDup (field_names fields))
                        && forallb (λ g, leaf_type g.2) fields
    | t => negb (listed f.1.1 ["tun"; "tuic-server"]) && leaf_type t
    end).
  assert (forallb ok ConfigPatch_fields = true) as H by (vm_compute; reflexivity).
  intros Hf. apply forallb_Forall in H. rewrite Forall_forall in H. specialize (H f Hf). unfold ok in H.
  destruct f as [[name p] t]. cbn [fst snd] in *. rewrite <-(listed_In name).
  destruct t; try (right; apply andb_true_iff in H as [->%negb_true_iff H]; done).
  left. apply andb_true_iff in H as [[H1 H2%bool_decide_eq_true]%andb_true_iff H3]. split; [done|].
  exists fields. split_and!; [done..|]. by apply forallb_Forall.
Qed.

Lemma value_at_two v k f : value_at v [k; f] = value_at v [k] ≫= λ w, value_at w [f].
Proof. cbn. destruct (as_mapping v) as [m|]; [|done]. cbn. by destruct (map_get m k). Qed.

Lemma value_at_app v p q : value_at v (p ++ q) = value_at v p ≫= λ w, value_at w q.
Proof.
  revert v. induction p as [|k p IH]; intros v; [done|]. cbn.
  destruct (as_mapping v) as [m|]; [|done]. cbn. by destruct (map_get m k); cbn.
Qed.

(** ** Leaves *)
Lemma collect_leaves_key v m k x path e :
  as_mapping v = Some m → map_get m k = Some x → e ∈ collect_leaves x (path ++ [k]) → e ∈ collect_leaves v path.
Proof.
  intros Hm Hk He. unfold collect_leaves. generalize v at 1 as whole. intros whole. revert Hm.
  induction v as [| | | | |m'|t v IH] using Value_rect; try done.
  intros [= ->]. destruct m as [|kv m]; [done|].
  cbn [collect_leaves_of]. apply list_elem_of_In, in_flat_map.
  unfold map_get in Hk. apply fmap_Some in Hk as (kv' & Hf & ->). apply find_some in Hf as [Hin Hkey].
  exists kv'. split; [done|]. unfold is_key in Hkey. destruct kv' as [[] y]; try done.
  cbn in Hkey. apply String.eqb_eq in Hkey as <-. by apply list_elem_of_In.
Qed.

(** The leaves of a part are leaves of the whole. *)
Lemma collect_leaves_at v path x base e :
  value_at v path = Some x → e ∈ collect_leaves x (base ++ path) → e ∈ collect_leaves v base.
Proof.
  revert v base. induction path as [|k path IH]; intros v base.
  { intros [= ->]. by rewrite app_nil_r. }
  cbn [value_at]. intros (m & Hm & (w & Hw & Hx)%bind_Some)%bind_Some He.
  eapply collect_leaves_key; [done..|]. eapply IH; [exact Hx|]. by rewrite <-app_assoc.
Qed.

(** ** The classified patch *)
Lemma classify_patch_entries a b patch projection :
  classify_documents a b = Ok (CPatch patch projection) → forallb entry_patchable (diff a b) = true.
Proof.
  unfold classify_documents. destruct (negb _); [done|]. case_bool_decide; [done|].
  destruct (forallb entry_patchable _); [done|]. by destruct (forallb entry_reloadable _).
Qed.

(** Every difference lies under a settable path that the desired document sets. *)
Lemma patch_paths_cover a b e :
  canonical (VMapping a) → canonical (VMapping b) → forallb entry_patchable (diff a b) = true → e ∈ diff a b →
  ∃ path rest t x, de_path e = path ++ rest ∧ patch_path_type path = Some t
    ∧ value_at (VMapping b) path = Some x.
Proof.
  intros Ha Hb Hall He. apply forallb_Forall in Hall. rewrite Forall_forall in Hall. specialize (Hall e He).
  destruct (diff_sound_complete a b Ha Hb) as [Hs _]. destruct (Hs e He) as [Hnew _].
  unfold entry_patchable in Hall. apply andb_true_iff in Hall as [Hsome%bool_decide_eq_true Hroot].
  rewrite Hnew in Hsome. destruct Hsome as [y Hy].
  destruct (de_path e) as [|k rest]; [done|]. cbn [root_is] in Hroot.
  apply andb_true_iff in Hroot as [Hk Hsup]. destruct patch_tables as (E1 & E2 & E3).
  rewrite <-E1 in Hk. apply field_of_listed in Hk as [f Hf]. pose proof (field_of_Some _ _ _ Hf) as [Hin <-].
  assert (∀ g fields, f.2 = TStruct fields → (∃ r, rest = g :: r) → listed g (field_names fields) = true →
    ∃ path rest' t x, f.1.1 :: rest = path ++ rest' ∧ patch_path_type path = Some t
      ∧ value_at (VMapping b) path = Some x) as Hnested.
  { intros g fields Ef [r ->] [h Hh]%field_of_listed. exists [f.1.1; g], r, h.2.
    change (f.1.1 :: g :: r) with ([f.1.1; g] ++ r) in Hy. rewrite value_at_app in Hy.
    apply bind_Some in Hy as (x & Hx & _). exists x. split_and!; [done| |done].
    cbn [patch_path_type]. rewrite Hf. cbn. by rewrite Ef, Hh. }
  destruct f as [[name p] t]. cbn [fst snd] in *. unfold patch_nested_path_is_supported in Hsup.
  destruct (String.eqb_spec name "tun") as [->|Hn1].
  { destruct rest as [|g r]; [done|]. eapply (Hnested g TunPatch); [|eauto|done].
    cbn in Hf. by injection Hf as _ <-. }
  destruct (String.eqb_spec name "tuic-server") as [->|Hn2].
  { destruct rest as [|g r]; [done|]. eapply (Hnested g TuicServerPatch); [|eauto|done].
    cbn in Hf. by injection Hf as _ <-. }
  apply bool_decide_eq_true in Hsup as ->. exists [name], [], t, y. split_and!; [done| |done].
  cbn [patch_path_type]. rewrite Hf. cbn.
  destruct (patch_fields_shape _ Hin) as [[H _]|[_ Hl]]; cbn [fst snd] in *; [set_solver|by rewrite Hl].
Qed.

Lemma leaf_written m out name p t x :
  field_written m out name p t → map_get m name = Some x → canonical x → leaf_type t = true →
  is_null x = false → plain t x = true → map_get out name = Some x.
Proof.
  intros [_ Hw] Hx Hc Hl Hnull Hp. destruct (Hw x Hx) as [(_ & ? & _)|(v & Hv & ->)]; [congruence|].
  by rewrite (plain_exact t x v).
Qed.

Lemma canonical_value_at v path x : canonical v → value_at v path = Some x → canonical x.
Proof.
  revert v. induction path as [|k path IH]; intros v Hc; [by intros [= ->]|]. cbn.
  intros (m & Hm & (w & Hw & Hx)%bind_Some)%bind_Some. apply canonical_as_mapping in Hm as ->; [|done].
  eapply IH; [|exact Hx]. by eapply canonical_get.
Qed.

(** The patch sets exactly the desired value at every settable path. *)
Lemma patch_sets_desired a b D patch path t x :
  canonical (VMapping b) → patch_covers a b D → decode ConfigPatch_type (VMapping D) = Some patch →
  patch_path_type path = Some t → value_at (VMapping a) path ≠ value_at (VMapping b) path →
  value_at (VMapping b) path = Some x → is_null x = false → plain t x = true →
  value_at (encode ConfigPatch_type patch) path = Some x.
Proof.
  unfold ConfigPatch_type. intros Hb (_ & Hflat & Hnest) Hdec Ht Hne Hx Hnull Hp.
  pose proof (canonical_value_at _ _ _ Hb Hx) as Hcx.
  destruct (decode_struct_spec ConfigPatch_fields (VMapping D) D patch) as (out & -> & _ & Hout);
    [by apply (wf_struct ConfigPatch_fields)|done|done|].
  destruct path as [|k [|g [|? ?]]]; cbn [patch_path_type] in Ht; try done;
    apply bind_Some in Ht as (f & [Hin <-]%field_of_Some & Ht); destruct f as [[k p] tf]; cbn [fst snd] in *.
  - destruct (leaf_type tf) eqn:El; [|done]. injection Ht as ->. rewrite value_at_key in *.
    assert (k ∉ ["tun"; "tuic-server"]) as Hk.
    { destruct (patch_fields_shape _ Hin) as [(_ & fields & E & _)|[? _]]; [|done]. cbn in E. by subst. }
    rewrite value_at_key in Hne. destruct (Hflat k Hne Hk) as [HD _]. rewrite Hx in HD.
    eapply leaf_written; [by apply (Hout k p t)|done..].
  - destruct tf as [| | | | | | | |fields]; try done.
    apply fmap_Some in Ht as (h & [Hh <-]%field_of_Some & ->). destruct h as [[g ph] th]. cbn [fst snd] in *.
    destruct (patch_fields_shape _ Hin) as [(Hk & fields' & [= <-] & Hnd & Hleaf)|[_ ?]]; [|done]. cbn in Hk.
    specialize (Hnest k g Hk Hne). rewrite Hx in Hnest. rewrite value_at_two, value_at_key in Hnest |- *.
    apply bind_Some in Hnest as (w & HDk & Hw). cbn [value_at] in Hw.
    apply bind_Some in Hw as (m & Hm & (y & Hy & [= ->])%bind_Some).
    destruct (Hout k p (TStruct fields) Hin) as [_ Hwr].
    destruct (Hwr w HDk) as [(_ & Hn & _)|(v & Hv & ->)].
    { unfold is_null in Hn. unfold as_mapping in Hm. by destruct (untag w). }
    destruct (decode_struct_spec fields w m v Hnd Hm Hv) as (sub & -> & _ & Hsub). cbn [mbind option_bind].
    rewrite value_at_key. eapply leaf_written; [by apply (Hsub g ph th)|done|done| |done|done].
    rewrite Forall_forall in Hleaf. by apply (Hleaf (g, ph, th)).
Qed.

Lemma classified_patch a b patch projection :
  canonical (VMapping a) → canonical (VMapping b) → classify_documents a b = Ok (CPatch patch projection) →
  ∃ D, decode ConfigPatch_type (VMapping D) = Some patch ∧ patch_covers a b D
    ∧ rp_expected projection = collect_leaves (encode ConfigPatch_type patch) [].
Proof.
  intros Ha Hb H. destruct (classify_documents_sound a b _ Ha Hb H) as (_ & D & v & HD & Hcov & Hv & Hrp).
  exists D. split_and!; [exact HD|exact Hcov|]. rewrite Hrp. f_equal. exact (eq_sym (Ok_inj _ _ Hv)).
Qed.

(** C9: a patch is the change, no more and no less.  When two canonical
    documents classify as a patch, with the codec of the controller API: every
    difference lies under a path that the patch can set and the desired document
    sets; at every such path that differs, the serialized patch holds exactly
    the desired value, provided that it is not null and is written in the
    canonical text of its type; under unchanged keys the patch holds nothing;
    and a core whose runtime view passes the verification reports each leaf of
    every such value. *)
Theorem patch_is_the_change (a b : Mapping) (patch : FVal) (projection : RuntimeProjection) :
  canonical (VMapping a) → canonical (VMapping b) → classify_documents a b = Ok (CPatch patch projection) →
  (∀ e, e ∈ diff a b → ∃ path rest t x,
     de_path e = path ++ rest ∧ patch_path_type path = Some t ∧ value_at (VMapping b) path = Some x)
  ∧ (∀ k, map_get a k = map_get b k → value_at (encode ConfigPatch_type patch) [k] = None)
  ∧ ∀ path t x,
      patch_path_type path = Some t → value_at (VMapping a) path ≠ value_at (VMapping b) path →
      value_at (VMapping b) path = Some x → is_null x = false → plain t x = true →
      value_at (encode ConfigPatch_type patch) path = Some x
      ∧ ∀ actual q leaf,
          projection_verify projection actual = Ok true → (q, leaf) ∈ collect_leaves x path →
          ∃ w, value_at (encode (F:=Value) RuntimeConfig_type actual) q = Some w ∧ value_eqb w leaf = true.
Proof.
  intros Ha Hb H. pose proof (classify_patch_entries _ _ _ _ H) as Hall.
  destruct (classified_patch _ _ _ _ Ha Hb H) as (D & HD & Hcov & Hrp). split_and!.
  - intros e. by apply patch_paths_cover.
  - intros k Hk. destruct Hcov as (Hnone & _ & _). specialize (Hnone k Hk).
    destruct (decode_struct_spec ConfigPatch_fields (VMapping D) D patch) as (out & E & Hoth & Hout);
      [by apply (wf_struct ConfigPatch_fields)|done|done|].
    unfold ConfigPatch_type. rewrite E, value_at_key.
    destruct (decide (k ∈ field_names ConfigPatch_fields)) as [Hin|Hin]; [|exact (Hoth k Hin)].
    apply list_elem_of_fmap in Hin as ([[name p] t] & -> & Hin).
    destruct (Hout name p t Hin) as [Hw _]. apply Hw; [done|]. by eapply patch_optional.
  - intros path t x Ht Hne Hx Hnull Hp.
    assert (value_at (encode ConfigPatch_type patch) path = Some x) as Hset by (by eapply patch_sets_desired).
    split; [done|]. intros actual q leaf Hv Hleaf.
    eapply projection_verify_true; [reflexivity|exact Hv|]. rewrite Hrp.
    exact (collect_leaves_at _ _ _ [] _ Hset Hleaf).
Qed.

(** A changed field whose desired value is null is not sent, and the
    verification does not look at it. *)
Lemma null_change_dropped a b (patch : FVal) projection k p t x :
  canonical (VMapping a) → canonical (VMapping b) → classify_documents a b = Ok (CPatch patch projection) →
  (k, p, t) ∈ ConfigPatch_fields → leaf_type t = true →
  map_get a k ≠ map_get b k → map_get b k = Some x → is_null x = true →
  value_at (encode ConfigPatch_type patch) [k] = None.
Proof.
  intros Ha Hb H Hin Hleaf Hne Hx Hnull. destruct (classified_patch _ _ _ _ Ha Hb H) as (D & HD & (_ & Hflat & _) & _).
  destruct (decode_struct_spec ConfigPatch_fields (VMapping D) D patch) as (out & E & _ & Hout);
    [by apply (wf_struct ConfigPatch_fields)|done|done|].
  unfold ConfigPatch_type. rewrite E, value_at_key. destruct (Hout k p t Hin) as [_ Hw].
  destruct (Hflat k Hne) as [HDk _].
  { destruct (patch_fields_shape _ Hin) as [(_ & fields & E' & _)|[? _]]; [|done]. cbn in E'. by subst. }
  rewrite Hx in HDk. destruct (Hw x HDk) as [(_ & _ & ?)|(v & Hv & _)]; [done|].
  exfalso. unfold is_null in Hnull. destruct t; cbn in Hv; unfold as_bool, as_str, as_mapping in Hv;
    destruct (untag x); done.
Qed.
End patch.

(** the codec of [/configs] loses nothing.  Whatever typed value a patch or
    a runtime view was read from, in YAML or in JSON, writing it in either format
    and reading that back gives the same typed value; and reading never gives a
    value outside its type (numbers in range, known names or the declared
    fallback, distinct keys, every non-optional field filled). *)
Theorem configs_codec_roundtrip {YF : YamlFloat} {IL : IpLib} {IPL : IpLaws IL} (t : FType) (v : FVal) :
  t ∈ [ConfigPatch_type; RuntimeConfig_type] →
  (∃ x : Value, decode t x = Some v) ∨ (∃ j : Json, decode t j = Some v) →
  has_type t v ∧ decode t (encode (F:=Value) t v) = Some v ∧ decode t (encode (F:=Json) t v) = Some v.
Proof.
  intros Ht Hd. assert (wf_type t = true) as Hwf.
  { destruct configs_types_wf as [H1 H2]. apply elem_of_cons in Ht as [->|Ht%list_elem_of_singleton]; [exact H1|].
    rewrite Ht. exact H2. }
  assert (has_type t v) as Hty.
  { destruct Hd as [[x Hx]|[j Hj]]; [exact (decode_typed t x v Hwf Hx)|exact (decode_typed t j v Hwf Hj)]. }
  split_and!; [exact Hty|exact (decode_encode t v Hwf Hty)|exact (decode_encode t v Hwf Hty)].
Qed.

(** * Concrete runs *)

(** Addresses kept as their text. *)
Definition text_ip : IpLib := {|
  IpNet := string; IpAddr := string;
  net_parse := Some; net_display s := s; addr_parse := Some; addr_display s := s;
|}.

#[local] Existing Instances bits_float text_ip serde_codec.

#[local] Instance text_ip_laws : IpLaws text_ip.
Proof. by split. Qed.

Module codec_demo.
Definition num (z : Z) : Value := VNumber (PosInt z).
Definition current : Mapping :=
  [(VString "mode", VString "rule"); (VString "port", num 7890);
   (VString "tun", VMapping [(VString "enable", VBool true); (VString "mtu", num 1500)])].
Definition desired : Mapping :=
  [(VString "mode", VString "global"); (VString "port", num 7890);
   (VString "tun", VMapping [(VString "enable", VBool true); (VString "mtu", num 9000)])].
Definition without_port : Mapping :=
  [(VString "mode", VString "global"); (VString "port", VNull);
   (VString "tun", VMapping [(VString "enable", VBool true); (VString "mtu", num 1500)])].
Definition lower_case_stack : Mapping :=
  [(VString "mode", VString "rule"); (VString "port", num 7890);
   (VString "tun", VMapping [(VString "enable", VBool true); (VString "mtu", num 1500);
                             (VString "stack", VString "gvisor")])].

Lemma ok m : canonicalize (VMapping m) = Ok (VMapping m) → wf (VMapping m) = true → canonical (VMapping m).
Proof. intros H Hw. by eapply canonicalize_canonical. Qed.
Lemma current_ok : canonical (VMapping current).
Proof. by apply ok; vm_compute. Qed.
Lemma desired_ok : canonical (VMapping desired).
Proof. by apply ok; vm_compute. Qed.

(** The patch and the projection of a change. *)
Definition patch_of (a b : Mapping) : option (FVal * list (list string * Value)) :=
  match classify_documents a b with
  | Ok (CPatch patch projection) => Some (patch, rp_expected projection)
  | _ => None
  end.
Lemma patch_of_classified a b p :
  patch_of a b = Some p → classify_documents a b = Ok (CPatch p.1 (mkProjection p.2)).
Proof. unfold patch_of. destruct (classify_documents a b) as [[|q [l]| |]|]; by intros [= <-]. Qed.

Definition empty : FVal * list (list string * Value) := (FStruct [], []).
Definition set_mtu := Eval vm_compute in default empty (patch_of current desired).
Definition drop_port := Eval vm_compute in default empty (patch_of current without_port).
Definition stack := Eval vm_compute in default empty (patch_of current lower_case_stack).

(** The typed runtime view of a core that applied [drop_port] and kept its port. *)
Definition kept_port : FVal := Eval vm_compute in
  default (FStruct []) (decode RuntimeConfig_type (VMapping
    [(VString "mode", VString "global"); (VString "port", num 7890);
     (VString "tun", VMapping [(VString "enable", VBool true); (VString "mtu", num 1500)])])).
End codec_demo.

(** Setting a field to null together with another change: the patch leaves the
    field out, and the core passes the verification with its old value. *)
Lemma null_change_verified_unapplied :
  codec_demo.patch_of codec_demo.current codec_demo.without_port = Some codec_demo.drop_port
  ∧ value_at (encode ConfigPatch_type codec_demo.drop_port.1) ["port"] = None
  ∧ value_at (encode RuntimeConfig_type codec_demo.kept_port) ["port"] = Some (codec_demo.num 7890)
  ∧ projection_verify (mkProjection codec_demo.drop_port.2) codec_demo.kept_port = Ok true.
Proof. split_and!; vm_compute; reflexivity. Qed.

(** An unlisted spelling of [tun.stack] is sent as the fallback's name. *)
Lemma unknown_stack_sent :
  codec_demo.patch_of codec_demo.current codec_demo.lower_case_stack = Some codec_demo.stack
  ∧ value_at (encode ConfigPatch_type codec_demo.stack.1) ["tun"; "stack"] = Some (VString "Unknown")
  ∧ (["tun"; "stack"], VString "Unknown") ∈ codec_demo.stack.2.
Proof.
  split_and!; [vm_compute; reflexivity..|]. apply list_elem_of_In. cbn. tauto.
Qed.

Lemma patch_is_the_change_witness :
  value_at (encode ConfigPatch_type codec_demo.set_mtu.1) ["tun"; "mtu"] = Some (codec_demo.num 9000)
  ∧ value_at (encode ConfigPatch_type codec_demo.set_mtu.1) ["port"] = None.
Proof.
  destruct (patch_is_the_change codec_demo.current codec_demo.desired codec_demo.set_mtu.1
              (mkProjection codec_demo.set_mtu.2) codec_demo.current_ok codec_demo.desired_ok)
    as (_ & Hnone & Hset); [apply codec_demo.patch_of_classified; vm_compute; reflexivity|]. split.
  - refine (proj1 (Hset ["tun"; "mtu"] ty_u32 (codec_demo.num 9000) _ _ _ _ _)); vm_compute;
      [reflexivity|congruence|reflexivity|reflexivity|reflexivity].
  - apply Hnone. vm_compute. reflexivity.
Defined.

Lemma configs_codec_roundtrip_witness :
  decode ConfigPatch_type (encode (F:=Json) ConfigPatch_type codec_demo.set_mtu.1) = Some codec_demo.set_mtu.1.
Proof.
  refine (proj2 (proj2 (configs_codec_roundtrip ConfigPatch_type codec_demo.set_mtu.1 _ _))).
  - apply elem_of_cons. by left.
  - left. exists (encode ConfigPatch_type codec_demo.set_mtu.1). vm_compute. reflexivity.
Defined.
