(* ===== verification/ManagerBuild.v ===== *)
(** Building a manager (manager/mod.rs, [CoreManagerBuilder] and
    [build_configured]): the store and its lock, the checks of the options, the
    sweep of what an earlier process left behind, the recorded DNS override and
    the log archive.  The main theorem discharges the assumption of the run
    theorems that a manager starts on a host without a core of its directory. *)
From S2P Require Import Prelude Text Paths Metadata Types Health Yaml Diff Mihomo Config Capability RuntimeStore Runtime Manager ManagerSafety ManagerProps Simulation.
From stdpp Require Import sorting.
From Stdlib Require Import ZArith Lia.

(** [log_sink::spawn], on the directory; its writer is that of [LogSink]. *)
Class SinkHost (W : Type) := {
  sink_spawn : string → Z → Z → M W (result unit Error);
}.

Section build.
Context {PL : ProcessLib} {YF : YamlFloat} {PC : PatchCodec}.
Context {YC : YamlCodec} {UL : UrlLib} {SV : Semver}.
Context {W : Type} {EN : Env W} {FS : RuntimeFs W} {BH : BinaryHost W} {SH : SinkHost W}.

(** [CoreManagerBuilder], with the probes and the backend left to [Access]: the
    options, whether there is a DNS component, and the answer of the controller
    access. *)
Record CoreManagerBuilder := mkBuilder {
  mb_options : ManagerOptions;
  mb_dns : bool;
  mb_access : option bool;
}.
Definition manager_builder (options : ManagerOptions) : CoreManagerBuilder := mkBuilder options false None.
Definition dns_controller (b : CoreManagerBuilder) : CoreManagerBuilder := mkBuilder (mb_options b) true (mb_access b).
Definition controller_access (available : bool) (b : CoreManagerBuilder) : CoreManagerBuilder :=
  mkBuilder (mb_options b) (mb_dns b) (Some available).

(** The checks of the numbers, in the order of the source. *)
Definition positive (name : string) (value : Z) : result unit Error :=
  if (value =? 0)%Z then Err (InvalidManagerOptions (name +:+ " must be greater than zero")) else Ok ().
Definition validate_options (o : ManagerOptions) : result unit Error :=
  let? _ := positive "control_timeout" (mo_control_timeout o) in
  let? _ := positive "reconcile_timeout" (mo_reconcile_timeout o) in
  let? _ := positive "stop_timeout" (mo_stop_timeout o) in
  let? _ := positive "dns_timeout" (mo_dns_timeout o) in
  let? _ := positive "log_max_bytes" (mo_log_max_bytes o) in
  positive "log_max_files" (mo_log_max_files o).

(** The store and its lock. *)
Definition open_store (dir : string) : M W (result RuntimeConfigStore Error) :=
  store <-? store_new dir ;; _ <-? acquire_ownership store ;; ret (Ok store).

(** [log_sink::prepare_dir] (Unix): the directory is made unless something that is
    a directory is there, and closed to others. *)
Definition LOG_DIR_NAME : string := "logs".
Definition prepare_dir (parent : string) : M W (result string Error) :=
  let dir := path_join parent LOG_DIR_NAME in
  _ <-? (r <- fs_symlink_metadata dir ;;
         match r with
         | Ok md => ret (validate_directory_metadata dir md)
         | Err NotFound => io (fs_create_dir_all dir)
         | Err e => ret (Err (io_error e))
         end) ;;
  _ <-? io (fs_set_mode dir 448 (* 0o700 *)) ;;
  ret (Ok dir).

(** The archive of the core's log, when it is asked for. *)
Definition open_sink (o : ManagerOptions) (store : RuntimeConfigStore) : M W (result (option string) Error) :=
  if mo_log_sink_enabled o then
    dir <-? prepare_dir (rs_dir store) ;;
    _ <-? sink_spawn dir (mo_log_max_bytes o) (mo_log_max_files o) ;;
    ret (Ok (Some dir))
  else ret (Ok None).

(** Everything after the checks. *)
Definition take_over (self : Inner) : M W (result (Inner * Mgr) Error) :=
  max_epoch <-? sweep_orphans self ;;
  reconcile_orphan_record self ;;;
  now <- now_ms ;;
  log_dir <-? open_sink (in_options self) (in_store self) ;;
  λ w, (Ok (self, mgr_new max_epoch now (bool_decide (is_Some log_dir)) w), w).

(** [build_configured]: the manager's constant part, and its first state on the
    host as it is then. *)
Definition build_configured (b : CoreManagerBuilder) : M W (result (Inner * Mgr) Error) :=
  let options := mb_options b in
  match mo_runtime_dir options with
  | None => ret (Err (InvalidManagerOptions "runtime_dir is required"))
  | Some runtime_dir =>
      store <-? open_store runtime_dir ;;
      canon <- gets canon_view ;;
      _ <-? ret (validate_managed_endpoint canon (default (rs_dir store) (mo_controller_dir options))
                   (mo_controller_template options)) ;;
      _ <-? ret (validate_options options) ;;
      take_over (mkInner options store (mb_dns b) (mb_access b))
  end.

(** * What building establishes *)
Context {EL : EnvLaws W} {FL : RuntimeFsLaws W}.

(** What building relies on besides: looking for a file and reaping the record of
    an epoch leave other files alone, a record that is there is found, a socket is
    no regular file, and opening the archive and making its directory start no core. *)
Class BootLaws := {
  try_exists_keeps p w q : contents (try_exists p w).2 q = contents w q;
  try_exists_sees p w b : is_Some (contents w p) → (try_exists p w).1 = Ok b → b = true;
  reap_keeps p d w q : q ≠ p → contents (reap_epoch_pid_file p d w).2 q = contents w q;
  reap_finds p d w o : is_Some (contents w p) → (reap_epoch_pid_file p d w).1 = Ok o → o ≠ ReapNotFound;
  socket_is_special p w md : (fs_symlink_metadata p w).1 = Ok md → md_is_socket md = true → contents w p = None;
  create_dirs_quiesces d : quiesces alive (fs_create_dir_all d);
  spawn_quiesces d x y : quiesces alive (sink_spawn d x y);
}.
Context {BL : BootLaws}.

(** The record of an epoch is on disk. *)
Definition recorded (s : RuntimeConfigStore) (w : W) (epoch : Z) : Prop := is_Some (contents w (pid_path s epoch)).

(** What is left after a step was there before it. *)
Lemma quiesces_run {A} (m : M W A) w a w' i : quiesces alive m → m w = (a, w') → alive w' i → alive w i.
Proof. intros Hm E Hi. apply Hm. by rewrite E. Qed.

(** ** Steps that leave a file alone *)
Definition keeps {A} (p : string) (m : M W A) : Prop := ∀ w, contents (m w).2 p = contents w p.

Lemma leaves_ret {A} p (a : A) : keeps p (ret a).
Proof. by intros w. Qed.
Lemma leaves_bind {A B} p (m : M W A) (k : A → M W B) : keeps p m → (∀ a, keeps p (k a)) → keeps p (bind m k).
Proof. intros Hm Hk w. unfold bind. specialize (Hm w). destruct (m w) as [a w1]. by rewrite Hk. Qed.
Lemma leaves_bind_ok {A B E} p (m : M W (result A E)) (k : A → M W (result B E)) :
  keeps p m → (∀ a, keeps p (k a)) → keeps p (bind_ok m k).
Proof. intros Hm Hk. apply leaves_bind; [done|]. intros [a|e]; [apply Hk|apply leaves_ret]. Qed.
Lemma leaves_io {A} p (m : M W (result A IoError)) : keeps p m → keeps p (io m).
Proof. intros Hm. apply leaves_bind; [done|]. intros r. apply leaves_ret. Qed.

(** The names of one number's artifacts are not the record of another's. *)
Lemma core_name_inj n e suf :
  is_u64 n → is_u64 e → "core-" +:+ fmt_u64 n +:+ "." +:+ suf = pid_name e → n = e ∧ suf = "pid".
Proof.
  intros Hn He E. unfold pid_name in E. apply (inj (String.append "core-")), (f_equal (split_once ".")) in E.
  assert (split_once "." (fmt_u64 n +:+ "." +:+ suf) = Some (fmt_u64 n, suf)) as H1
    by (apply split_once_digits; [apply fmt_u64_digits, Hn|done]).
  assert (split_once "." (fmt_u64 e +:+ ".pid") = Some (fmt_u64 e, "pid")) as H2
    by (apply (split_once_digits _ _ "" "pid"); [apply fmt_u64_digits, He|done]).
  rewrite H1, H2 in E.
  injection E as E ->. split; [|done]. by apply fmt_u64_inj.
Qed.

Lemma keeps_other_regular s e name :
  is_absolute name = false → name ≠ pid_name e → keeps (pid_path s e) (fs_remove_regular (path_join (rs_dir s) name)).
Proof.
  intros Ha Hne w. apply remove_regular_ok. intros E. apply path_join_inj in E; [by subst|reflexivity|done].
Qed.

Lemma keeps_sweep s n e entries : is_u64 n → is_u64 e → keeps (pid_path s e) (sweep s n entries).
Proof.
  intros Hn He. induction entries as [|[name|] entries IH]; cbn [sweep]; [apply leaves_ret| |exact IH].
  destruct (swept n name) eqn:Es; [|exact IH]. apply leaves_bind_ok; [|intros ?; exact IH].
  unfold swept in Es. apply orb_true_iff in Es as [Es|Es]; [apply orb_true_iff in Es as [Es|Es]|];
    apply starts_with_spec in Es as [r ->]; (apply keeps_other_regular; [reflexivity|]); try done.
  unfold pid_temp_prefix. rewrite !app_assoc_str. intros E.
  change (".pid.tmp-" +:+ r) with ("." +:+ ("pid.tmp-" +:+ r)) in E. by apply core_name_inj in E as [_ E].
Qed.

Lemma cleanup_keeps s n e : is_u64 n → is_u64 e → n ≠ e → keeps (pid_path s e) (cleanup_artifacts s n).
Proof.
  intros Hn He Hne. unfold cleanup_artifacts. apply leaves_bind_ok; [by apply keeps_other_regular|intros ?].
  apply leaves_bind_ok.
  { apply keeps_other_regular; [reflexivity|]. intros E. by apply core_name_inj in E as [? _]. }
  intros ?. apply leaves_bind_ok.
  { unfold remove_socket_artifact. apply leaves_bind; [intros w; apply symlink_metadata_ok|]. intros [md|[]]; try apply leaves_ret.
    destruct (_ || _); [apply leaves_ret|]. destruct (negb _); [apply leaves_ret|]. apply leaves_io.
    intros w. apply remove_file_ok. intros E. apply path_join_inj in E; [|reflexivity..].
    symmetry in E. by apply (core_name_inj n e "sock") in E as [_ ?]. }
  intros ?. apply leaves_bind_ok; [apply leaves_io; intros w; apply read_dir_ok|]. intros entries.
  apply leaves_bind_ok; [by apply keeps_sweep|]. intros ?. apply leaves_io. intros w. apply sync_dir_ok.
Qed.

(** Removing a controller's socket is no removal of a regular file. *)
Lemma controller_keeps self epoch p w :
  is_Some (contents w p) → is_Some (contents (cleanup_controller self epoch w).2 p).
Proof.
  intros Hp. unfold cleanup_controller. destruct (mo_controller_dir _) as [dir|]; [|done].
  unfold bind, gets. destruct (managed_endpoint_path _ _ _ _) as [endpoint|]; [|done].
  pose proof (symlink_metadata_ok endpoint w p) as Hk. pose proof (socket_is_special endpoint w) as Hs.
  destruct (fs_symlink_metadata endpoint w) as [[md|[]] w1]; cbn in Hk, Hs |- *; try by rewrite Hk.
  destruct (md_is_socket md) eqn:Em; cbn; [|by rewrite Hk]. specialize (Hs md eq_refl Em).
  assert (p ≠ endpoint) as Hne by (intros ->; rewrite Hs in Hp; by destruct Hp).
  pose proof (remove_file_ok endpoint w1 p Hne) as Hr. unfold io, bind.
  destruct (fs_remove_file endpoint w1). cbn in *. by rewrite Hr, Hk.
Qed.

(** ** The sweep *)
Lemma elem_of_dedup x l : x ∈ dedup l ↔ x ∈ l.
Proof.
  induction l as [|y l IH]; [done|]. destruct l as [|z l]; [done|]. cbn [dedup].
  destruct (Z.eqb_spec y z) as [->|]; rewrite ?elem_of_cons in *; rewrite IH, ?elem_of_cons; tauto.
Qed.

Lemma artifact_epoch_u64 name n : artifact_epoch name = Some n → is_u64 n.
Proof. unfold artifact_epoch. intros (rest & _ & H)%bind_Some. by eapply parse_u64_range. Qed.

(** The name of a record has no directory part. *)
Lemma pid_name_no_slash e : is_u64 e → no_slash (pid_name e) = true.
Proof.
  intros He. unfold pid_name, no_slash. rewrite !string_forallb_app, !andb_true_iff. split; [done|]. split; [|done].
  apply (string_forallb_impl is_dec_digit); [|apply fmt_u64_digits, He].
  intros c Hc. destruct (Ascii.eqb_spec c slash) as [->|]; done.
Qed.

Lemma artifact_epochs_spec s w l :
  (artifact_epochs s w).1 = Ok l → Forall is_u64 l ∧ ∀ e, is_u64 e → recorded s w e → e ∈ l.
Proof.
  unfold artifact_epochs, bind_ok, io, bind. pose proof (read_dir_complete (rs_dir s) w) as Hc.
  destruct (fs_read_dir (rs_dir s) w) as [[entries|e] w1]; [|done]. intros [= <-]. split.
  - apply Forall_forall. intros n Hn. rewrite elem_of_dedup, merge_sort_Permutation, list_elem_of_omap in Hn.
    destruct Hn as ([name|] & _ & Hn); [|done]. by eapply artifact_epoch_u64.
  - intros e He Hr. rewrite elem_of_dedup, merge_sort_Permutation, list_elem_of_omap.
    exists (Some (pid_name e)). split.
    + apply (Hc entries (pid_name e) eq_refl); [|exact Hr]. by apply pid_name_no_slash.
    + cbn. by apply (artifact_epoch_names e "0").
Qed.

Lemma reap_step_quiesces p d (present : bool) :
  quiesces alive (if present then
     r <- reap_epoch_pid_file p d ;; ret (match r with Ok _ => Ok tt | Err e => Err (Process e) end)
   else ret (Ok tt) : M W (result unit Error)).
Proof.
  destruct present; [|apply quiesces_ret]. apply quiesces_bind; [apply reap_quiesces|intros []; apply quiesces_ret].
Qed.

Lemma artifact_epochs_keeps s w p : contents (artifact_epochs s w).2 p = contents w p.
Proof.
  apply (leaves_bind_ok p); [apply leaves_io; intros w'; apply read_dir_ok|intros ?; apply leaves_ret].
Qed.
Lemma artifact_epochs_quiesces s : quiesces alive (artifact_epochs s).
Proof. unfold artifact_epochs. quiesce. Qed.

Lemma foldr_max_ge l e : e ∈ l → (e ≤ foldr Z.max 0 l)%Z.
Proof. induction 1; cbn [foldr]; lia. Qed.

Section sweep.
Context (self : Inner).

(** Once its record was reaped, a core is dead. *)
Lemma reap_kills w w1 w2 present i :
  recorded (in_store self) w (inst_epoch i) →
  io (try_exists (pid_path (in_store self) (inst_epoch i))) w = (Ok present, w1) →
  (if (present : bool) then
     r <- reap_epoch_pid_file (pid_path (in_store self) (inst_epoch i)) (rs_dir (in_store self)) ;;
     ret (match r with Ok _ => Ok tt | Err e => Err (Process e) end)
   else ret (Ok tt)) w1 = (Ok tt : result unit Error, w2) →
  ¬ alive w2 i.
Proof.
  intros Hr E1 E2 Hi.
  pose proof (try_exists_keeps (pid_path (in_store self) (inst_epoch i)) w (pid_path (in_store self) (inst_epoch i))) as Hk.
  pose proof (λ b, try_exists_sees (pid_path (in_store self) (inst_epoch i)) w b Hr) as Hs.
  unfold io, bind, ret in E1. destruct (try_exists _ w) as [[b|e] w0]; [|discriminate E1].
  cbn in E1, Hk, Hs. injection E1 as -> ->. rewrite (Hs _ eq_refl) in E2. unfold bind in E2.
  unfold recorded in Hr. rewrite <-Hk in Hr.
  pose proof (λ o, reap_finds (pid_path (in_store self) (inst_epoch i)) (rs_dir (in_store self)) w1 o Hr) as Hf.
  pose proof (reap_proves (in_store self) (inst_epoch i) w1) as Hp.
  destruct (reap_epoch_pid_file _ _ w1) as [[o|e] w3]; cbn in *; [|done].
  injection E2 as ->. by apply (Hp o eq_refl (Hf o eq_refl) i eq_refl).
Qed.

(** The record of another epoch is still there after an artifact was swept. *)
Lemma record_survives n e w w1 w2 w3 w4 present (r : result unit Error) (q : result unit Error) (c : result unit Error) :
  is_u64 n → is_u64 e → n ≠ e → recorded (in_store self) w e →
  io (try_exists (pid_path (in_store self) n)) w = (Ok present, w1) →
  (if (present : bool) then
     r <- reap_epoch_pid_file (pid_path (in_store self) n) (rs_dir (in_store self)) ;;
     ret (match r with Ok _ => Ok tt | Err e => Err (Process e) end)
   else ret (Ok tt)) w1 = (r, w2) →
  (match epoch_new n with Some epoch => cleanup_controller self epoch | None => ret (Ok tt) end) w2 = (q, w3) →
  cleanup_artifacts (in_store self) n w3 = (c, w4) →
  recorded (in_store self) w4 e.
Proof.
  intros Hn He Hne Hr E1 E2 E3 E4. unfold recorded in *.
  assert (pid_path (in_store self) e ≠ pid_path (in_store self) n) as Hpath.
  { intros E. apply path_join_inj in E; [|reflexivity..]. symmetry in E. by apply (core_name_inj n e "pid") in E as [? _]. }
  pose proof (cleanup_keeps (in_store self) n e Hn He Hne w3) as H4. rewrite E4 in H4. cbn in H4. rewrite H4.
  assert (is_Some (contents w2 (pid_path (in_store self) e))) as H2.
  { assert (contents w1 (pid_path (in_store self) e) = contents w (pid_path (in_store self) e)) as H1.
    { pose proof (leaves_io (pid_path (in_store self) e) _ (λ w, try_exists_keeps (pid_path (in_store self) n) w _) w) as H.
      by rewrite E1 in H. }
    destruct present; [|injection E2 as _ <-; by rewrite H1].
    pose proof (reap_keeps (pid_path (in_store self) n) (rs_dir (in_store self)) w1 _ Hpath) as Hk.
    unfold bind in E2. destruct (reap_epoch_pid_file _ _ w1). cbn in Hk. injection E2 as _ <-. by rewrite Hk, H1. }
  destruct (epoch_new n) as [ep|]; [|by injection E3 as _ <-].
  pose proof (controller_keeps self ep _ _ H2) as H3. by rewrite E3 in H3.
Qed.

Lemma sweep_loop_quiesces found : quiesces alive (sweep_loop self found).
Proof.
  induction found as [|n rest IH]; cbn [sweep_loop]; [quiesce|].
  apply quiesces_bind_ok; [quiesce|intros present]. apply quiesces_bind_ok; [apply reap_step_quiesces|intros ?].
  apply quiesces_bind_ok; [destruct (epoch_new n); [apply cleanup_controller_quiesces|quiesce]|intros ?].
  apply quiesces_bind_ok; [apply cleanup_artifacts_quiesces|intros ?; exact IH].
Qed.

Lemma sweep_loop_kills found w w' i :
  Forall is_u64 found → is_u64 (inst_epoch i) → recorded (in_store self) w (inst_epoch i) →
  sweep_loop self found w = (Ok tt, w') → alive w' i → alive w i ∧ inst_epoch i ∉ found.
Proof.
  intros Hall He. revert w. induction Hall as [|n rest Hn _ IH]; intros w Hr; cbn [sweep_loop].
  { intros [= ->] Hi. split; [done|]. by intros ?%elem_of_nil. }
  intros (present & w1 & E1 & E)%bind_ok_Ok Hi. apply bind_ok_Ok in E as ([] & w2 & E2 & E).
  apply bind_ok_Ok in E as ([] & w3 & E3 & E). apply bind_ok_Ok in E as ([] & w4 & E4 & E5).
  assert (∀ j, alive w4 j → alive w2 j) as H42.
  { intros j Hj. eapply quiesces_run; [|exact E3|].
    - destruct (epoch_new n); [apply cleanup_controller_quiesces|apply quiesces_ret].
    - eapply quiesces_run; [apply cleanup_artifacts_quiesces|exact E4|done]. }
  assert (∀ j, alive w2 j → alive w j) as H20.
  { intros j Hj. eapply quiesces_run; [|exact E1|]; [quiesce|].
    by eapply quiesces_run; [apply reap_step_quiesces|exact E2|]. }
  destruct (decide (n = inst_epoch i)) as [->|Hne].
  - assert (alive w4 i) as Hi4 by (by eapply quiesces_run; [apply sweep_loop_quiesces|exact E5|]).
    exfalso. by eapply reap_kills, H42.
  - assert (recorded (in_store self) w4 (inst_epoch i)) as Hr4 by (by eapply (record_survives n)).
    destruct (IH w4 Hr4 E5 Hi) as [Hi4 Hrest]. split; [auto|]. rewrite not_elem_of_cons. by split.
Qed.

(** A sweep that succeeds leaves no core alive of which there was a record, and
    reports a number no artifact exceeds. *)
Lemma sweep_clears w w' max :
  (∀ i, alive w i → is_u64 (inst_epoch i) ∧ recorded (in_store self) w (inst_epoch i)) →
  sweep_orphans self w = (Ok max, w') →
  (∀ i, ¬ alive w' i) ∧ ∃ l, (artifact_epochs (in_store self) w).1 = Ok l ∧ ∀ e, e ∈ l → (e ≤ max)%Z.
Proof.
  intros Hrec (l & w1 & E1 & E)%bind_ok_Ok. apply bind_ok_Ok in E as ([] & w2 & E2 & [= <- <-]).
  pose proof (artifact_epochs_spec (in_store self) w l) as Hl. pose proof (artifact_epochs_keeps (in_store self) w) as Hk.
  rewrite E1 in Hl, Hk. cbn in Hl, Hk. destruct (Hl eq_refl) as [Hu Hin]. split.
  - intros i Hi.
    assert (alive w i) as Hw.
    { eapply quiesces_run; [apply artifact_epochs_quiesces|exact E1|].
      by eapply quiesces_run; [apply sweep_loop_quiesces|exact E2|]. }
    destruct (Hrec i Hw) as [He Hr].
    assert (recorded (in_store self) w1 (inst_epoch i)) as Hr1 by (unfold recorded; by rewrite Hk).
    apply (sweep_loop_kills _ _ _ _ Hu He Hr1 E2) in Hi as [_ Hi]. by apply Hi, Hin.
  - exists l. rewrite E1. split; [done|]. intros e He. by apply foldr_max_ge.
Qed.

Lemma reconcile_record_quiesces : quiesces alive (reconcile_orphan_record self).
Proof. unfold reconcile_orphan_record. quiesce. Qed.

Lemma prepare_quiesces d : quiesces alive (prepare_dir d).
Proof.
  unfold prepare_dir. apply quiesces_bind_ok.
  - apply quiesces_bind; [quiesce|]. intros [md|[|m]]; [quiesce| |quiesce].
    apply quiesces_io, create_dirs_quiesces.
  - intros []. quiesce.
Qed.

(** What is not a directory of its own is never used for the archive: a link there
    is an error, and so is a file, and nothing is made, opened or changed. *)
Lemma prepare_refuses d w md w1 :
  fs_symlink_metadata (path_join d LOG_DIR_NAME) w = (Ok md, w1) →
  md_is_symlink md = true ∨ md_is_dir md = false →
  prepare_dir d w = (Err (UnsafeRuntimeArtifact (path_join d LOG_DIR_NAME)), w1).
Proof.
  intros E Hmd. unfold prepare_dir, bind_ok at 1, bind at 1. unfold bind at 1. rewrite E.
  unfold ret, validate_directory_metadata. by destruct Hmd as [-> | ->]; destruct (md_is_symlink md).
Qed.

Lemma open_sink_quiesces o s : quiesces alive (open_sink o s).
Proof.
  unfold open_sink. destruct (mo_log_sink_enabled o); [|quiesce].
  apply quiesces_bind_ok; [apply prepare_quiesces|intros d]. apply quiesces_bind_ok; [apply spawn_quiesces|intros ?; quiesce].
Qed.

Lemma take_over_boots w w' s self' :
  (∀ i, alive w i → is_u64 (inst_epoch i) ∧ recorded (in_store self) w (inst_epoch i)) →
  take_over self w = (Ok (self', s), w') →
  self' = self ∧ mg_world s = w' ∧ booted s
  ∧ ∃ l, (artifact_epochs (in_store self) w).1 = Ok l ∧ ∀ e, e ∈ l → (e < (next_epoch s).1)%Z.
Proof.
  intros Hrec (max & w1 & E1 & E)%bind_ok_Ok. destruct (sweep_clears _ _ _ Hrec E1) as (Hdead & l & El & Hl).
  unfold bind at 1 in E. destruct (reconcile_orphan_record self w1) as [[] w2] eqn:E2.
  unfold bind at 1 in E. destruct (now_ms w2) as [now w3] eqn:E3.
  apply bind_ok_Ok in E as (dir & w4 & E4 & [= <- <- <-]). split_and!; [done..| |].
  - eexists max, now, _, w4. split; [|done]. intros i Hi. apply (Hdead i).
    eapply quiesces_run; [apply reconcile_record_quiesces|exact E2|].
    eapply quiesces_run; [apply now_ms_quiesces|exact E3|].
    by eapply quiesces_run; [apply open_sink_quiesces|exact E4|].
  - exists l. split; [done|]. intros e He. cbn. specialize (Hl e He). lia.
Qed.
End sweep.

(** C3: a manager takes its directory over.  A build that succeeds has checked the
    options, and its manager starts in a state the run theorems start from: no core
    of the directory is alive on the host, whatever an earlier process left behind,
    provided that it left a record of each; and the first epoch the manager hands out
    is beyond every artifact that was there.  A build that fails on its options has
    swept nothing: the host is as the store and its lock left it. *)
Theorem build_takes_over (b : CoreManagerBuilder) (w w' : W) (r : result (Inner * Mgr) Error) :
  (∀ dir store w1 i, mo_runtime_dir (mb_options b) = Some dir → open_store dir w = (Ok store, w1) → alive w1 i →
     is_u64 (inst_epoch i) ∧ recorded store w1 (inst_epoch i)) →
  build_configured b w = (r, w') →
  match r with
  | Ok (self, s) =>
      in_options self = mb_options b ∧ in_dns self = mb_dns b ∧ in_access self = mb_access b
      ∧ validate_options (mb_options b) = Ok tt ∧ mg_world s = w' ∧ booted s
      ∧ ∃ dir w1 l, mo_runtime_dir (mb_options b) = Some dir ∧ open_store dir w = (Ok (in_store self), w1)
        ∧ (artifact_epochs (in_store self) w1).1 = Ok l ∧ ∀ e, e ∈ l → (e < (next_epoch s).1)%Z
  | Err _ =>
      validate_options (mb_options b) ≠ Ok tt →
      w' = match mo_runtime_dir (mb_options b) with Some dir => (open_store dir w).2 | None => w end
  end.
Proof.
  unfold build_configured. destruct (mo_runtime_dir (mb_options b)) as [dir|]; [|by intros _ [= <- <-]].
  intros Hrec. unfold bind_ok at 1, bind at 1. destruct (open_store dir w) as [[store|e] w1] eqn:Eo; [|by intros [= <- <-]].
  unfold bind at 1, gets, bind_ok at 1, bind at 1, ret at 1.
  destruct (validate_managed_endpoint _ _ _) as [endpoint|e]; [|by intros [= <- <-]].
  unfold bind_ok at 1, bind at 1, ret at 1.
  destruct (validate_options (mb_options b)) as [[]|e]; [|by intros [= <- <-]].
  destruct (take_over _ w1) as [r' w2] eqn:Et. intros [= <- <-]. destruct r' as [[self s]|e]; [|done].
  apply take_over_boots in Et as (-> & Hw & Hb & l & El & Hl); [|by intros i; apply (Hrec dir)].
  split_and!; [done..|]. exists dir, w1, l. by split_and!.
Qed.
End build.

(** * A host on which a crashed process left a core running *)
Module demo_build.
#[local] Existing Instance disk_fs.
#[export] Instance sim_fs_laws : RuntimeFsLaws Sim.
Proof.
  refine {| contents w p := @contents Disk disk_fs disk_fs_laws (sw_disk w) p |}; intros; cbn in *;
    try done; rewrite ?lookup_insert_eq, ?lookup_delete_eq, ?lookup_insert_ne, ?lookup_delete_ne by done;
    try done; try (by right); auto using disk_move_other, disk_move_target.
  - by case_match; simplify_eq.
  - simplify_eq. by apply dir_names_complete.
Defined.

#[export] Instance sim_sink : SinkHost Sim := {|
  sink_spawn _ _ _ := ret (Ok tt);
|}.

#[export] Instance sim_boot_laws : BootLaws (W:=Sim).
Proof.
  split; cbn; try done; try (by intros ? ? ? ?).
  - intros p w b Hp [= <-]. by rewrite bool_decide_eq_true.
  - by intros p d w o _ [= <-].
  - intros p w md. case_match; [|done]. by intros [= <-].
Qed.

Definition orphan : SimInstance := mkSim 1 7 (mkController (UnixSocket "/run/core-7.sock") None).
Definition world : Sim :=
  mkSimWorld (mkDisk {[ "/run/core-7.pid" := "12"; "/run/config-7.yaml" := "rule" ]} 0) [orphan] 2 100 [] [] false.
Definition options : ManagerOptions :=
  mkManagerOptions (Some "/run") Prefer None None (secs 10) (secs 30) (secs 10) (secs 10) true 1024 2.
End demo_build.

Import demo_build.

Lemma build_takes_over_witness :
  ∃ self s w', build_configured (manager_builder demo_build.options) demo_build.world = (Ok (self, s), w')
    ∧ sw_live demo_build.world = [demo_build.orphan] ∧ booted s ∧ (next_epoch s).1 = 8%Z.
Proof.
  destruct (build_configured (manager_builder demo_build.options) demo_build.world) as [r w'] eqn:E.
  assert (match r with Ok (_, s) => (next_epoch s).1 | Err _ => 0%Z end = 8%Z) as Hr.
  { change r with (r, w').1. rewrite <-E. vm_compute. reflexivity. }
  destruct r as [[self s]|e]; [|discriminate Hr]. exists self, s, w'. split; [done|]. split; [done|]. split; [|done].
  apply (build_takes_over (manager_builder demo_build.options) demo_build.world w' (Ok (self, s))); [|exact E].
  intros dir store w1 i [= <-] Eo Hi. assert (open_store "/run" demo_build.world = (Ok (mkStore "/run"), demo_build.world)) as Ew by reflexivity.
  pose proof (f_equal fst (eq_trans (eq_sym Ew) Eo)) as Es. pose proof (f_equal snd (eq_trans (eq_sym Ew) Eo)) as Ew1.
  cbn [fst snd] in Es, Ew1. injection Es as Es. subst store w1.
  apply list_elem_of_singleton in Hi as ->. split; [by unfold is_u64, u64_max; cbn; lia|].
  vm_compute. by eexists.
Defined.
