(* ===== verification/ClashClient.v ===== *)
(** The HTTP client of a controller (clash-api, client.rs): how it is built from a
    host and a secret, how the requests of the operations are resolved against its
    base URL, and how they are sent.

    The transport of [reqwest] and the URL library are operations; what the client
    relies on of resolving relative references is [UrlLaws]. *)
From S2P Require Import Prelude Text Types Config Wire ClashApi.
From Stdlib Require Import ZArith Lia.

Definition LOCAL_TRANSPORT_BASE_URL : string := "http://localhost/".

(** [Url::join], pushing path segments ([None]: the URL cannot be a base), and the
    origin: scheme, host and port. *)
Class UrlOps {UL : UrlLib} := {
  url_join : Url → string → result Url string;
  url_push : Url → list string → option Url;
  url_origin : Url → string;
  local_url : Url;  (** [LOCAL_TRANSPORT_BASE_URL], parsed *)
}.

Section client.
Context {UL : UrlLib} {UO : UrlOps}.

(** [Host], with its URL. *)
Inductive ApiHost := ApiNamedPipe (path : string) | ApiUnixSocket (path : string) | ApiHttp (url : Url).

(** [normalize_base_url], with its errors. *)
Definition api_normalize_base_url (base_url : Url) : result Url ApiError :=
  if negb (String.eqb (url_scheme base_url) "http" || String.eqb (url_scheme base_url) "https")
  then Err (UnsupportedUrlScheme (url_scheme base_url))
  else if url_cannot_be_a_base base_url then Err (UrlCannotBeABase (url_text base_url))
  else if bool_decide (is_Some (url_query base_url)) || bool_decide (is_Some (url_fragment base_url))
  then Err (BaseUrlHasQueryOrFragment (url_text base_url))
  else if negb (ends_with "/" (url_path base_url))
  then Ok (url_set_path (url_path base_url +:+ "/") base_url)
  else Ok base_url.

(** [Host::url], [Host::http] and [Host::https]: [parse_complete_url] and
    [parse_controller_url], on the URL itself. *)
Definition api_host_url (value : string) : result ApiHost ApiError :=
  match url_parse value with
  | Err source => Err (InvalidBaseUrl value source)
  | Ok url => let? url := api_normalize_base_url url in Ok (ApiHttp url)
  end.
Definition api_host (scheme value : string) : result ApiHost ApiError :=
  api_host_url (if contains "://" value then value else scheme +:+ "://" +:+ value).

(** [HeaderValue::from_str]: visible characters, tabs and bytes above ASCII. *)
Definition header_char (c : Ascii.ascii) : bool :=
  let n := Ascii.nat_of_ascii c in ((32 <=? n) && negb (n =? 127) || (n =? 9))%nat.
Definition header_value (s : string) : option string :=
  if forallb header_char (String.list_ascii_of_string s) then Some s else None.

Record ClientBuilder := mkClientBuilder { cb_host : ApiHost; cb_secret : option string; cb_policy : RetryPolicy }.
Definition client_builder (host : ApiHost) : ClientBuilder := mkClientBuilder host None no_retry.
Definition builder_secret (secret : string) (b : ClientBuilder) : ClientBuilder :=
  mkClientBuilder (cb_host b) (Some secret) (cb_policy b).
Definition builder_retry_policy (policy : RetryPolicy) (b : ClientBuilder) : ClientBuilder :=
  mkClientBuilder (cb_host b) (cb_secret b) policy.

Record Client := mkClient {
  cl_host : ApiHost;
  cl_base_url : Url;
  cl_authorization : option string;
  cl_policy : RetryPolicy;
}.

(** The transport of a platform and the base URL of a host. *)
Definition resolve_host (windows : bool) (platform : string) (host : ApiHost) : result (ApiHost * Url) ApiError :=
  match host with
  | ApiHttp url => let? url := api_normalize_base_url url in Ok (ApiHttp url, url)
  | ApiNamedPipe path =>
      if windows then Ok (ApiNamedPipe path, local_url) else Err (UnsupportedTransport "Windows named pipe" platform)
  | ApiUnixSocket path =>
      if windows then Err (UnsupportedTransport "Unix domain socket" platform) else Ok (ApiUnixSocket path, local_url)
  end.

(** The header of a secret: none for a local transport or an empty secret. *)
Definition authorization_of (host : ApiHost) (secret : option string) : result (option string) ApiError :=
  match host, secret with
  | ApiHttp _, Some secret =>
      if String.eqb secret "" then Ok None
      else match header_value ("Bearer " +:+ secret) with Some v => Ok (Some v) | None => Err InvalidSecret end
  | _, _ => Ok None
  end.

(** [ClientBuilder::build]; [reqwest_build] is that of the transport. *)
Definition client_build (windows : bool) (platform : string) (reqwest_build : result unit string) (b : ClientBuilder) :
    result Client ApiError :=
  let? resolved := resolve_host windows platform (cb_host b) in
  let '(host, base_url) := resolved in
  let? authorization := authorization_of host (cb_secret b) in
  match reqwest_build with
  | Err e => Err (BuildClient e)
  | Ok _ => Ok (mkClient host base_url authorization (cb_policy b))
  end.

(** [trim_start_matches('/')]. *)
Fixpoint trim_slashes (s : string) : string :=
  match s with
  | String.String c s' => if Ascii.eqb c (Ascii.ascii_of_nat 47) then trim_slashes s' else s
  | String.EmptyString => s
  end.

(** [endpoint] and [endpoint_with_segments]. *)
Definition endpoint (c : Client) (ep : string) : result Url ApiError :=
  match url_parse ep with
  | Ok _ => Err (AbsoluteEndpoint ep)
  | Err _ =>
      match url_join (cl_base_url c) (trim_slashes ep) with
      | Ok url => Ok url
      | Err source => Err (InvalidEndpoint ep source)
      end
  end.
Definition endpoint_with_segments (c : Client) (ep : string) (segments : list string) : result Url ApiError :=
  let? url := endpoint c ep in
  match url_push url segments with Some url => Ok url | None => Err (CannotAppendPathSegment (url_text url)) end.

(** A request as it is sent: [request_url] with its query and body. *)
Record HttpRequest := mkHttp {
  hr_method : HttpMethod;
  hr_url : Url;
  hr_authorization : option string;
  hr_query : list (string * string);
  hr_body : option Json;
}.
Definition request_url (c : Client) (method : HttpMethod) (url : Url) : HttpRequest :=
  mkHttp method url (cl_authorization c) [] None.

(** The closure that makes the request of an operation. *)
Definition make_request (c : Client) (r : ApiRequest) : result HttpRequest ApiError :=
  let? url := (if bool_decide (rq_segments r = []) then endpoint c (rq_endpoint r)
               else endpoint_with_segments c (rq_endpoint r) (rq_segments r)) in
  let q := request_url c (rm_method (rq_metadata r)) url in
  Ok (mkHttp (hr_method q) (hr_url q) (hr_authorization q) (rq_query r) (rq_body r)).

Section sending.
Context {W : Type} {BT : BodyText}.
(** [send_with_named_pipe_retry] and [upgrade_with_named_pipe_retry]: the status and
    the chunks of a body ([None]: reading it failed), or the upgraded socket; the
    wait between two attempts. *)
Context {Socket : Type}.
Context (transport : HttpRequest → M W (result (Z * list (option (list Ascii.ascii))) ReqwestError)).
Context (upgrade : HttpRequest → M W (result Socket WebSocketError)).
Context (sleep : Z → M W unit) (is_named_pipe_busy : ApiError → bool).

(** One attempt of [send]. *)
Definition send_attempt (c : Client) (r : ApiRequest) : M W (result (list (option (list Ascii.ascii))) ApiError) :=
  match make_request c r with
  | Err e => ret (Err e)
  | Ok q =>
      response <- transport q ;;
      ret match response with
          | Err source => Err (RequestFailed (rm_operation (rq_metadata r)) source)
          | Ok (status, chunks) => ensure_success (rm_operation (rq_metadata r)) status chunks chunks
          end
  end.
Definition api_send (c : Client) (r : ApiRequest) : M W (result (list (option (list Ascii.ascii))) ApiError) :=
  api_execute (send_attempt c r) sleep is_named_pipe_busy (cl_policy c) (rq_metadata r).

(** [Response::bytes]: every chunk, or the failure of one. *)
Definition all_bytes (chunks : list (option (list Ascii.ascii))) : option (list Ascii.ascii) :=
  mjoin <$> mapM (λ c, c) chunks.

(** [decode_json], [send_json] and [send_empty]; [from_slice] is that of
    [serde_json] for the type of the answer. *)
Definition decode_json {T} (broken : ReqwestError) (from_slice : list Ascii.ascii → result T string) (operation : string)
    (chunks : list (option (list Ascii.ascii))) : result T ApiError :=
  match all_bytes chunks with
  | None => Err (RequestFailed operation broken)
  | Some bytes => res_map_err (DecodeFailed operation) (from_slice bytes)
  end.
Definition send_json {T} (broken : ReqwestError) (from_slice : list Ascii.ascii → result T string) (c : Client) (r : ApiRequest) :
    M W (result T ApiError) :=
  chunks <-? api_send c r ;; ret (decode_json broken from_slice (rm_operation (rq_metadata r)) chunks).
Definition send_empty (c : Client) (r : ApiRequest) : M W (result unit ApiError) :=
  _ <-? api_send c r ;; ret (Ok ()).

(** [websocket]; failing to upgrade and failing to become a socket are the same
    error. *)
Definition websocket_attempt (c : Client) (r : ApiRequest) : M W (result Socket ApiError) :=
  match make_request c r with
  | Err e => ret (Err e)
  | Ok q =>
      response <- upgrade q ;;
      ret (res_map_err (WebSocketFailed (rm_operation (rq_metadata r))) response)
  end.
Definition websocket (c : Client) (r : ApiRequest) : M W (result Socket ApiError) :=
  api_execute (websocket_attempt c r) sleep is_named_pipe_busy (cl_policy c) (rq_metadata r).
End sending.
End client.

(** * Properties *)

(** A reference that is only a path: no colon, no leading slash or backslash. *)
Definition relative_path (s : string) : bool :=
  let l := String.list_ascii_of_string s in
  forallb (λ c, negb (Ascii.eqb c (Ascii.ascii_of_nat 58))) l
  && match l with
     | c :: _ => negb (Ascii.eqb c (Ascii.ascii_of_nat 47)) && negb (Ascii.eqb c (Ascii.ascii_of_nat 92))
     | [] => true
     end.

(** Documented behaviour of the URL library: resolving a path, appending segments
    and replacing the path keep the origin; a text that starts with a slash is no
    URL. *)
Class UrlLaws {UL : UrlLib} (UO : UrlOps) : Prop := {
  join_origin u s v : relative_path s = true → url_join u s = Ok v → url_origin v = url_origin u;
  push_origin u l v : url_push u l = Some v → url_origin v = url_origin u;
  set_path_origin p u : url_origin (url_set_path p u) = url_origin u;
  slash_is_relative s : ∃ e, url_parse (String.String (Ascii.ascii_of_nat 47) s) = Err e;
}.

(** The endpoints of the operations. *)
Lemma api_endpoint r :
  api_request r →
  (∃ s, rq_endpoint r = String.String (Ascii.ascii_of_nat 47) s) ∧ relative_path (trim_slashes (rq_endpoint r)) = true.
Proof.
  destruct 1 as [| | | | |name q r H| | | | | | | |provider proxy q r H| | | | | | | | | | | | | | | | | | | | | | | | | | | | | | | | |];
    try (split; [by eexists|reflexivity]).
  - unfold api_proxy_delay in H. destruct (validate_proxy_timeout q) as [[]|]; [|done]. injection H as <-.
    split; [by eexists|reflexivity].
  - unfold api_provider_proxy_delay in H. destruct (validate_proxy_timeout q) as [[]|]; [|done]. injection H as <-.
    split; [by eexists|reflexivity].
Qed.

Section safety.
Context {UL : UrlLib} {UO : UrlOps} {URL : UrlLaws UO}.

Lemma endpoint_origin c ep u :
  relative_path (trim_slashes ep) = true → endpoint c ep = Ok u → url_origin u = url_origin (cl_base_url c).
Proof.
  intros Hr. unfold endpoint. destruct (url_parse ep); [done|].
  destruct (url_join _ _) as [v|] eqn:E; [|done]. intros [= <-]. by eapply join_origin.
Qed.

Lemma make_request_origin c r q :
  api_request r → make_request c r = Ok q →
  hr_authorization q = cl_authorization c ∧ url_origin (hr_url q) = url_origin (cl_base_url c)
  ∧ hr_method q = rm_method (rq_metadata r) ∧ hr_query q = rq_query r ∧ hr_body q = rq_body r.
Proof.
  intros [_ Hrel]%api_endpoint. unfold make_request, endpoint_with_segments. case_bool_decide.
  - destruct (endpoint c (rq_endpoint r)) as [u|] eqn:E; [|done]. intros [= <-]. cbn. split_and!; try done.
    by eapply endpoint_origin.
  - destruct (endpoint c (rq_endpoint r)) as [u|] eqn:E; [|done].
    destruct (url_push u _) as [v|] eqn:Ep; [|done]. intros [= <-]. cbn. split_and!; try done.
    rewrite (push_origin _ _ _ Ep). by eapply endpoint_origin.
Qed.

Lemma normalize_origin u v : api_normalize_base_url u = Ok v → url_origin v = url_origin u.
Proof.
  unfold api_normalize_base_url. repeat (case_match; [done|]). case_match; intros [= <-]; [apply set_path_origin|done].
Qed.

(** The header a builder asks for. *)
Definition wanted_authorization (b : ClientBuilder) : option string :=
  match cb_host b, cb_secret b with
  | ApiHttp _, Some secret => if String.eqb secret "" then None else Some ("Bearer " +:+ secret)
  | _, _ => None
  end.
Definition wanted_origin (b : ClientBuilder) : string :=
  match cb_host b with ApiHttp u => url_origin u | _ => url_origin local_url end.

Lemma build_spec windows platform reqwest_build b c :
  client_build windows platform reqwest_build b = Ok c →
  cl_authorization c = wanted_authorization b ∧ url_origin (cl_base_url c) = wanted_origin b ∧ cl_policy c = cb_policy b.
Proof.
  unfold client_build, wanted_authorization, wanted_origin, resolve_host, authorization_of.
  destruct (cb_host b) as [path|path|url].
  - destruct windows; [|done]. destruct reqwest_build; [|done]. by intros [= <-].
  - destruct windows; [done|]. destruct reqwest_build; [|done]. by intros [= <-].
  - destruct (api_normalize_base_url url) as [u|] eqn:En; [|done]. cbn match.
    destruct (cb_secret b) as [secret|].
    + destruct (String.eqb secret "").
      * destruct reqwest_build; [|done]. intros [= <-]. cbn. split_and!; [done|by apply normalize_origin|done].
      * unfold header_value. destruct (forallb _ _); [|done]. destruct reqwest_build; [|done].
        intros [= <-]. cbn. split_and!; [done|by apply normalize_origin|done].
    + destruct reqwest_build; [|done]. intros [= <-]. cbn. split_and!; [done|by apply normalize_origin|done].
Qed.

End safety.

(** * A concrete client *)

(** URLs as an origin and a path. *)
Definition pair_url : UrlLib := {|
  Url := string * string;
  url_parse s := if negb (starts_with "/" s) && contains "://" s then Ok (s, "/") else Err "relative URL without a base";
  url_scheme _ := "http"; url_cannot_be_a_base _ := false; url_query _ := None; url_fragment _ := None;
  url_path u := u.2; url_set_path p u := (u.1, p); url_text u := u.1 +:+ u.2;
|}.
#[local] Existing Instance pair_url.
#[local] Instance pair_ops : UrlOps := {|
  url_join u s := Ok (u.1, "/" +:+ s);
  url_push u l := Some (u.1, foldl (λ p seg, p +:+ "/" +:+ seg) u.2 l);
  url_origin u := u.1;
  local_url := ("http://localhost", "/");
|}.
#[local] Instance pair_laws : UrlLaws pair_ops.
Proof.
  split; cbn.
  - by intros u s v _ [= <-].
  - by intros u l v [= <-].
  - done.
  - intros s. by eexists.
Qed.

Module demo_client.
Definition builder : ClientBuilder := builder_secret "s3cret" (client_builder (ApiHttp ("http://127.0.0.1:9090", "/"))).
Definition client : Client := mkClient (cb_host builder) ("http://127.0.0.1:9090", "/") (Some "Bearer s3cret") no_retry.
End demo_client.

