(* ===== verification/Server.v ===== *)
(** The service process: the tail of its own log and the routes that are not
    about the core (server/logger.rs, routing/logs.rs, routing/status.rs,
    routing/network.rs), the server over the local socket (nyanpasu_ipc
    server/mod.rs, utils/mod.rs, utils/os.rs), the protected log directory
    (logging.rs), the server command (cmds/server.rs) and the run of the process
    from its set-up to its end (server/mod.rs).

    The sockets, [axum::serve], the programs [chown] and [chmod] and the file
    system are operations of classes.  A run after its set-up is a step relation:
    the requests and tasks of the service go on while [run] itself moves from the
    select over the awaits of its chosen arm to the end. *)
From S2P Require Import Prelude Text Paths Metadata Types Operation Control Health Yaml Diff Mihomo Config Capability RuntimeStore Runtime Manager ManagerProps Executor Bridge BridgeProps BridgeSystem LogIndex LogPage Wire Ipc Commands.
From Stdlib Require Import ZArith Lia.

(** * The tail of the log (logger.rs) *)

Definition LOG_BUFFER_CAPACITY : nat := 100.

(** The buffer, oldest message first. *)
Definition Logger : Type := list string.
Definition logger_new : Logger := [].

(** [BoundedVecDeque::push_back]: a full buffer loses its front. *)
Definition bounded_push (capacity : nat) (msg : string) (b : Logger) : Logger :=
  (if (capacity <=? length b)%nat then drop 1 b else b) ++ [msg].

(** [write], of the message [String::from_utf8_lossy] made of the bytes; the
    length of the bytes is the answer. *)
Definition logger_write (msg : string) (len : Z) : M Logger (result Z string) :=
  modify (bounded_push LOG_BUFFER_CAPACITY msg) ;;; ret (Ok len).
Definition retrieve_logs : M Logger (list string) := λ b, (b, []).
Definition inspect_logs : M Logger (list string) := λ b, (b, b).

(** * Routes *)

(** routing/logs.rs: a request to the sessions; [None] when the answer does not
    come within [LOG_REQUEST_TIMEOUT]. *)
Definition LOG_REQUEST_TIMEOUT : Z := 4.
Definition bounded {T} (ts : Z) (outcome : option (result T LogError)) : Handled (result T LogError) :=
  Responded (OK_STATUS, success ts (default (Err Unavailable) outcome)).
Definition route_retrieve_logs (ts : Z) : M Logger (Handled (list string)) :=
  logs <- retrieve_logs ;; ret (Responded (OK_STATUS, success ts logs)).
Definition route_inspect_logs (ts : Z) : M Logger (Handled (list string)) :=
  logs <- inspect_logs ;; ret (Responded (OK_STATUS, success ts logs)).

(** routing/network.rs, on macOS and elsewhere. *)
Class Network (W : Type) := {
  get_default_network_hardware_port : M W (result string string);
  set_dns : string → option (list string) → M W (result unit string);
}.
Definition NOT_IMPLEMENTED : Z := 501.
Definition route_network_macos {W} {NW : Network W} (ts : Z) (dns_servers : option (list string)) : M W (Handled unit) :=
  r <- get_default_network_hardware_port ;;
  match r with
  | Err e => ret (Responded (INTERNAL_SERVER_ERROR, other_error ts e))
  | Ok default_interface =>
      r <- set_dns default_interface dns_servers ;;
      ret (Responded match r with
                     | Ok _ => (OK_STATUS, success ts ())
                     | Err e => (INTERNAL_SERVER_ERROR, other_error ts e)
                     end)
  end.
Definition route_network (ts : Z) (dns_servers : option (list string)) : Handled unit :=
  Responded (NOT_IMPLEMENTED, other_error ts "Not implemented").

(** * The server over the local socket (nyanpasu_ipc) *)

Inductive HostOs := LinuxOs | MacOs.

(** [get_name_string]. *)
Definition get_name_string (placeholder : string) : string := "/var/run/" +:+ placeholder +:+ ".sock".

Inductive ServerError := ServerIo (text : string) | ServerOther (text : string).
Definition io_err {A} (r : result A string) : result A ServerError := res_map_err ServerIo r.

(** The mode [configure_listener_mode] asks for before the socket is bound; 664 in
    octal. *)
Definition SOCKET_MODE : Z := 436.
Definition configure_listener_mode (os : HostOs) : option Z :=
  match os with LinuxOs => Some SOCKET_MODE | MacOs => None end.

Class IpcHost (W : Type) := {
  to_fs_name : string → result string string;
  metadata_ok : string → M W bool;
  remove_file : string → M W (result unit string);
  create_listener : string → option Z → M W (result unit string);
  (** run a program and wait: could not run, or whether it succeeded *)
  run_program : string → list string → M W (result bool string);
  (** [axum::serve] until the listener or the shutdown signal ends it *)
  axum_serve : bool → M W (result unit string);
}.

Section ipc_server.
Context {W : Type} {IH : IpcHost W}.

(** [remove_socket_if_exists]. *)
Definition remove_socket_if_exists (placeholder : string) : M W (result unit string) :=
  let path := get_name_string placeholder in
  found <- metadata_ok path ;;
  if (found : bool) then remove_file path else ret (Ok ()).

(** [change_socket_group] and [change_socket_mode]. *)
Definition change_socket (program arg failed placeholder : string) : M W (result unit string) :=
  r <- run_program program [arg; get_name_string placeholder] ;;
  ret match r with
      | Err e => Err e
      | Ok true => Ok ()
      | Ok false => Err failed
      end.
Definition change_socket_group : string → M W (result unit string) :=
  change_socket "chown" ("root:" +:+ "nyanpasu") "failed to change socket group".
Definition change_socket_mode : string → M W (result unit string) :=
  change_socket "chmod" "664" "failed to change socket mode".

(** [create_server]. *)
Definition create_server (os : HostOs) (placeholder : string) (graceful : bool) : M W (result unit ServerError) :=
  let name_str := get_name_string placeholder in
  match to_fs_name name_str with
  | Err e => ret (Err (ServerIo e))
  | Ok name =>
      _ <-? (r <- remove_socket_if_exists placeholder ;; ret (io_err r)) ;;
      _ <-? (r <- create_listener name (configure_listener_mode os) ;; ret (io_err r)) ;;
      _ <-? (r <- change_socket_group placeholder ;; ret (io_err r)) ;;
      _ <-? (r <- change_socket_mode placeholder ;; ret (io_err r)) ;;
      (r <- axum_serve graceful ;; ret (io_err r))
  end.
End ipc_server.

(** [handle_accept_error] and [accept]: the attempts of the listener, the first
    connection, how often it slept for a second, and the attempts left; [None] is
    a listener that is still waiting. *)
Inductive AcceptError := ConnectionRefused | ConnectionAborted | ConnectionReset | OtherAccept.
Definition is_connection_error (e : AcceptError) : bool :=
  match e with ConnectionRefused | ConnectionAborted | ConnectionReset => true | OtherAccept => false end.
Definition handle_accept_error (e : AcceptError) : nat := if is_connection_error e then 0 else 1.
Fixpoint accept {C} (attempts : list (result C AcceptError)) : option (C * nat * list (result C AcceptError)) :=
  match attempts with
  | [] => None
  | Ok stream :: rest => Some (stream, 0, rest)
  | Err e :: rest => '(stream, slept, rest) ← accept rest; Some (stream, handle_accept_error e + slept, rest)
  end.

(** * The log directory (logging.rs) *)

Inductive MetaError := MetaNotFound (text : string) | MetaOther (text : string).
Inductive LevelFilter := LevelDebug | LevelInfo.

Class LogHost (W : Type) := {
  (** whether the path is a directory and neither a link nor a reparse point *)
  symlink_metadata : string → M W (result bool MetaError);
  make_dirs : string → M W (result unit string);
  set_permissions : string → Z → M W (result unit string);
  (** the daily appender, which keeps so many files *)
  build_appender : string → nat → M W (result unit string);
  log_tracer_init : M W (result unit string);
  set_global_default : LevelFilter → bool → M W (result unit string);
}.

Section logging.
Context {W : Type} {LH : LogHost W}.

Definition ensure_plain_dir (dir : string) : M W (result unit string) :=
  r <- symlink_metadata dir ;;
  match r with
  | Ok false => ret (Err ("service log path is not a plain directory: " +:+ dir))
  | Ok true => ret (Ok ())
  | Err (MetaNotFound _) => make_dirs dir
  | Err (MetaOther e) => ret (Err e)
  end.

(** 700 in octal. *)
Definition LOG_DIR_MODE : Z := 448.
Definition harden_log_dir (dir : string) : M W (result unit string) :=
  r <- set_permissions dir LOG_DIR_MODE ;;
  ret (res_map_err (λ e, "failed to protect the service log directory: " +:+ e) r).

Definition LOG_MAX_FILES : nat := 7.

(** [init], without the feature [tracing]; the last operation says whether the
    layers of the file and of the tail are there. *)
Definition init_logging (log_dir : string) (debug write_file : bool) : M W (result unit string) :=
  _ <-? (if write_file then _ <-? ensure_plain_dir log_dir ;; harden_log_dir log_dir else ret (Ok ())) ;;
  _ <-? (if write_file then build_appender log_dir LOG_MAX_FILES else ret (Ok ())) ;;
  _ <-? log_tracer_init ;;
  (r <- set_global_default (if debug then LevelDebug else LevelInfo) write_file ;;
   ret (res_map_err (λ e, "setup logging error: " +:+ e) r)).
End logging.

(** * The server command (cmds/server.rs) *)

Record ServerContext := mkServerContext {
  sx_nyanpasu_config_dir : OsPath;
  sx_nyanpasu_data_dir : OsPath;
  sx_nyanpasu_app_dir : OsPath;
  sx_service : bool;
  sx_local_ipc_policy : LocalIpcPolicyArg;
}.

Class ServerHost (W : Type) := {
  sh_data_dir : OsPath;
  sh_config_dir : OsPath;
  (** the process of a stale pid file, when its name is one of these *)
  kill_by_pid_file : OsPath → list string → M W (result unit CommandError);
  canonicalize_dir : OsPath → M W (result OsPath string);
  dir_exists : OsPath → M W bool;
  create_dir_tree : OsPath → M W (result unit string);
  create_pid_file : OsPath → M W (result unit string);
}.

Section server_command.
Context {W : Type} {SH : ServerHost W}.

Definition service_pid_file : OsPath := os_join sh_data_dir "service.pid".
Definition service_logs_dir : OsPath := os_join sh_data_dir "logs".
Definition service_core_runtime_dir : OsPath := os_join sh_data_dir "core-runtime".

Definition io_failed {A} (m : M W (result A string)) : M W (result A CommandError) :=
  r <- m ;; ret (res_map_err IoFailed r).
Definition create_missing (dir : OsPath) : M W (result unit CommandError) :=
  found <- dir_exists dir ;;
  if (found : bool) then ret (Ok ()) else io_failed (create_dir_tree dir).

(** [server_inner]; [run] is that of server/mod.rs. *)
Definition server_inner (ctx : ServerContext)
    (run : RuntimeInfos → LocalIpcPolicy → M W (result unit string)) : M W (result unit CommandError) :=
  _ <-? kill_by_pid_file service_pid_file ["mihomo"; "clash"] ;;
  nyanpasu_config_dir <-? io_failed (canonicalize_dir (sx_nyanpasu_config_dir ctx)) ;;
  nyanpasu_data_dir <-? io_failed (canonicalize_dir (sx_nyanpasu_data_dir ctx)) ;;
  nyanpasu_app_dir <-? io_failed (canonicalize_dir (sx_nyanpasu_app_dir ctx)) ;;
  _ <-? create_missing sh_data_dir ;;
  _ <-? create_missing sh_config_dir ;;
  create_pid_file service_pid_file ;;;
  (r <- run (mkInfos sh_data_dir sh_config_dir nyanpasu_config_dir nyanpasu_data_dir nyanpasu_app_dir)
         (policy_of_arg (sx_local_ipc_policy ctx)) ;;
   ret (res_map_err OtherFailed r)).
End server_command.

(** * The run of the process (server/mod.rs) *)

(** The set-up of [run], over its components: the directory and authorization of
    the controllers, the adapter over both directories, its bridges to the event
    hub, and the log sessions. *)
Definition run_setup {W A S L} (runtime_dir : OsPath) (infos : RuntimeInfos) (access : M W (result A string))
    (manager : string → string → A → M W (result S string)) (spawn_bridges : S → M W unit)
    (logs : M W (result L string)) : M W (result (S * L) string) :=
  match runtime_dir, in_nyanpasu_data_dir infos with
  | PathBytes d, _ => ret (Err ("core runtime dir is not UTF-8: " +:+ d))
  | _, PathBytes d => ret (Err ("nyanpasu data dir is not UTF-8: " +:+ d))
  | PathText runtime_dir, PathText data_dir =>
      a <-? access ;;
      core_manager <-? manager runtime_dir data_dir a ;;
      spawn_bridges core_manager ;;;
      l <-? logs ;;
      ret (Ok (core_manager, l))
  end.

(** The arms of the [select!]. *)
Inductive Arm :=
| ServerEnded (r : result unit string)
| TokenCancelled
| ControlClosed (exit : ExecutorExit).

(** Where [run] is: in the select, or at an await of the chosen arm.
    [ShutBegin], [ShutLatch] and [ShutWait] are the parts of the adapter's
    [shutdown]. *)
Inductive Phase :=
| Serving
| ShutLogs (a : Arm)
| ShutBegin (a : Arm)
| ShutLatch (a : Arm)
| ShutWait (a : Arm)
| Drain (a : Arm)
| Exited (a : Arm) (r : result unit string).

Definition SERVER_DRAIN_TIMEOUT : Z := 5.
Definition EXECUTOR_DIED : string := "the core control executor died".

(** [drain]: what the server answered within [SERVER_DRAIN_TIMEOUT], if it did. *)
Definition drain (outcome : option (result unit string)) : result unit string := default (Ok ()) outcome.

(** The end of an arm, after [drain]. *)
Definition arm_result (a : Arm) (drained : result unit string) : result unit string :=
  match drained, a with
  | Err e, _ => Err e
  | Ok _, ControlClosed Died => Err EXECUTOR_DIED
  | Ok _, _ => Ok ()
  end.

(** The first arm returns the server's own result at once; the others drain. *)
Definition after_shutdown (a : Arm) : Phase :=
  match a with ServerEnded r => Exited a r | _ => Drain a end.

Section run.
Context {WH : WireHost}.
Context {PL : ProcessLib} {YF : YamlFloat} {PC : PatchCodec}.
Context {YC : YamlCodec} {UL : UrlLib} {SV : Semver}.
Context {W : Type} {EN : Env W} {FS : RuntimeFs W} {BH : BinaryHost W} {SF : SourceFs W} {HB : BridgeHost W}.
Context {Q : Type} {MP : Mpsc Q} {EL : EnvLaws W} {SL : SourceFsLaws}.
Context (self : Inner) (context : ExecutorContext).
Context {HL : BridgeHostLaws}.

Record Run := mkRun {
  rn_service : Service (Q:=Q);
  rn_cancelled : bool;
  rn_logs : bool;  (** the log sessions run *)
  rn_phase : Phase;
}.

(** What the service does besides its own shutdown: requests, watchers, and the
    steps of the executor and the manager. *)
Inductive request_step (settings : LocalIpcSettings) : Service (Q:=Q) → Service (Q:=Q) → Prop :=
| req_start infos t path s : request_step settings s (service_start self infos t path s).2
| req_stop s : request_step settings s (service_stop self s).2
| req_check slot infos t file s : request_step settings s (service_check slot infos t file s).2
| req_submit infos request s : request_step settings s (submit_v2 settings infos request s).2
| req_watch c s : request_step settings s (set_echo (observe_echo c (sv_echo s)) s)
| req_system s sy :
    sys_step self context settings (system_of s) sy →
    request_step settings s (mkService (sy_manager sy) (sy_control sy) (sv_echo s) (sv_closing s)).

Definition exited (p : Phase) : bool := match p with Exited _ _ => true | _ => false end.

(** The server task and its connections live until the process ends. *)
Inductive run_step (settings : LocalIpcSettings) : Run → Run → Prop :=
| run_request s s' t l p :
    exited p = false → request_step settings s s' → run_step settings (mkRun s t l p) (mkRun s' t l p)
| run_cancel s t l p : exited p = false → run_step settings (mkRun s t l p) (mkRun s true l p)
| run_server_ended s t l r : run_step settings (mkRun s t l Serving) (mkRun s t l (ShutLogs (ServerEnded r)))
| run_cancelled s l : run_step settings (mkRun s true l Serving) (mkRun s true l (ShutLogs TokenCancelled))
| run_control_closed s t l exit :
    ct_exit (sv_control s) = Some exit →
    run_step settings (mkRun s t l Serving) (mkRun s t l (ShutLogs (ControlClosed exit)))
| run_logs_shutdown s t l a : run_step settings (mkRun s t l (ShutLogs a)) (mkRun s t false (ShutBegin a))
| run_shutdown_begin s t l a :
    run_step settings (mkRun s t l (ShutBegin a))
      (let '(first, s') := service_shutdown_begin s in
       mkRun s' t l (if (first : bool) then ShutLatch a else after_shutdown a))
| run_shutdown_latch s t l a :
    run_step settings (mkRun s t l (ShutLatch a)) (mkRun (service_shutdown_latch s) t l (ShutWait a))
| run_shutdown_end s t l a answer :
    run_step settings (mkRun s t l (ShutWait a)) (mkRun (service_shutdown_end self answer s).2 t l (after_shutdown a))
| run_drain s t l a outcome :
    run_step settings (mkRun s t l (Drain a)) (mkRun s t l (Exited a (arm_result a (drain outcome)))).

(** A process whose set-up succeeded. *)
Definition run_started (rc qc : nat) (r : Run) : Prop :=
  svc_booted rc qc (rn_service r) ∧ rn_cancelled r = false ∧ rn_logs r = true ∧ rn_phase r = Serving.

Definition run_reachable (settings : LocalIpcSettings) (rc qc : nat) (r : Run) : Prop :=
  ∃ r0, run_started rc qc r0 ∧ rtc (run_step settings) r0 r.

(** routing/status.rs: the dirs are those of the process, the core's log directory
    that of the manager. *)
Record StatusResBody := mkStatusBody {
  sb_version : string;
  sb_core_infos : CoreInfos;
  sb_service_data_dir : OsPath;
  sb_service_config_dir : OsPath;
  sb_nyanpasu_config_dir : OsPath;
  sb_nyanpasu_data_dir : OsPath;
  sb_logs : option (OsPath * option string);
  sb_log_query_version : option Z;
}.
Definition LOG_QUERY_VERSION : Z := 1.
Definition route_status (ts : Z) (version : string) (infos : RuntimeInfos) (logs_dir : OsPath)
    (core_log_dir : option string) (s : Service (Q:=Q)) : Handled StatusResBody :=
  Responded (OK_STATUS, success ts
    (mkStatusBody version (service_status s) (in_service_data_dir infos) (in_service_config_dir infos)
       (in_nyanpasu_config_dir infos) (in_nyanpasu_data_dir infos) (Some (logs_dir, core_log_dir))
       (Some LOG_QUERY_VERSION))).
End run.
