(* ===== verification/ServerProps.v ===== *)
(** Properties of the service process: the tail of its log, the socket it serves
    on, its log directory, and how its run ends. *)
From S2P Require Import Prelude Text Paths Metadata Types Operation Control Health Yaml Diff Mihomo Config Capability RuntimeStore Runtime Manager ManagerSafety ManagerControl Simulation Runs ManagerProps Executor Bridge BridgeProps BridgeSystem LogIndex LogPage Wire Ipc Commands Server.
From Stdlib Require Import ZArith Lia.

(** * The end of a run *)
Section run.
Context {WH : WireHost}.
Context {PL : ProcessLib} {YF : YamlFloat} {PC : PatchCodec}.
Context {YC : YamlCodec} {UL : UrlLib} {SV : Semver}.
Context {W : Type} {EN : Env W} {FS : RuntimeFs W} {BH : BinaryHost W} {SF : SourceFs W} {HB : BridgeHost W}.
Context {Q : Type} {MP : Mpsc Q} {EL : EnvLaws W} {SL : SourceFsLaws}.
Context (self : Inner) (context : ExecutorContext).
Context {HL : BridgeHostLaws}.
Context (settings : LocalIpcSettings) (rc qc : nat).

Lemma request_step_svc s s' :
  request_step self context settings s s' → svc_step self context settings s s' ∧ sv_closing s' = sv_closing s.
Proof.
  destruct 1 as [infos t path s|s|slot infos t file s|infos request s|c s|s sy Hsy].
  - split; [constructor|]. by destruct (service_start_runs self infos t path s) as (_ & _ & ->).
  - split; [constructor|]. by destruct (service_stop_runs self s) as (_ & _ & ->).
  - split; [constructor|]. by destruct (service_check_runs self slot infos t file s) as (_ & _ & ->).
  - split; [constructor|]. by rewrite submit_v2_latch.
  - split; [constructor|done].
  - split; [by constructor|done].
Qed.

(** Both latches are down. *)
Definition shut (s : Service (Q:=Q)) : Prop := sv_closing s = true ∧ ct_closing (sv_control s) = true.

(** What each phase knows. *)
Definition phase_ok (r : Run (Q:=Q)) : Prop :=
  match rn_phase r with
  | Serving | ShutLogs _ => sv_closing (rn_service r) = false ∧ rn_logs r = true
  | ShutBegin _ => sv_closing (rn_service r) = false ∧ rn_logs r = false
  | ShutLatch _ => sv_closing (rn_service r) = true ∧ rn_logs r = false
  | ShutWait _ => shut (rn_service r) ∧ rn_logs r = false
  | Drain a => shut (rn_service r) ∧ rn_logs r = false ∧ ∀ own, a ≠ ServerEnded own
  | Exited a res =>
      shut (rn_service r) ∧ rn_logs r = false
      ∧ match a with ServerEnded own => res = own | _ => ∃ o, res = arm_result a (drain o) end
  end.

Lemma shut_stays s s' : shut s → svc_step self context settings s s' → shut s'.
Proof.
  intros [H1 H2] Hs. destruct (svc_step_latched self context settings s s' H1 Hs) as [H3 H4].
  split; [done|]. by destruct (H4 H2).
Qed.

Lemma run_step_ok r r' :
  run_step self context settings r r' → phase_ok r →
  phase_ok r' ∧ rtc (svc_step self context settings) (rn_service r) (rn_service r').
Proof.
  destruct 1 as [s s' t l p Hp Hreq|s t l p Hp|s t l res|s l|s t l exit Hexit|s t l a|s t l a|s t l a|s t l a answer|s t l a outcome];
    cbn [rn_service rn_phase rn_logs]; intros Hok; try (split; [exact Hok|apply rtc_refl]).
  - apply request_step_svc in Hreq as [Hs Hc]. split; [|by apply rtc_once].
    destruct p; cbn in Hok |- *; rewrite ?Hc; try done;
      destruct Hok as [? ?]; (split; [|done]); by eapply shut_stays.
  - destruct Hok as [Hc _]. by split; [|apply rtc_refl].
  - destruct Hok as [Hc Hl]. cbn in Hc, Hl. subst.
    pose proof (svc_shutdown_begin self context settings s) as Hb. unfold service_shutdown_begin in *.
    rewrite Hc in *. split; [done|by apply rtc_once].
  - destruct Hok as [Hc Hl]. split; [|by apply rtc_once, svc_shutdown_latch]. by split.
  - destruct Hok as [Hc Hl]. assert (svc_step self context settings s (service_shutdown_end self answer s).2) as Hs
      by constructor. split; [|by apply rtc_once].
    pose proof (shut_stays _ _ Hc Hs) as Hc'. destruct a; by split_and!.
  - destruct Hok as (Hc & Hl & Ha). split; [|apply rtc_refl]. destruct a; [by destruct (Ha r)|..]; split_and!; eauto.
Qed.

Lemma run_reachable_ok r :
  run_reachable self context settings rc qc r →
  phase_ok r ∧ svc_reachable self context settings rc qc (rn_service r).
Proof.
  intros (r0 & (Hb & _ & Hl & Hp) & Hrtc).
  assert (phase_ok r0) as Hok0. { unfold phase_ok. rewrite Hp. by destruct Hb as (_ & _ & ?). }
  assert (svc_reachable self context settings rc qc (rn_service r0)) as Hs0 by (exists (rn_service r0); by split).
  clear Hb Hl Hp. induction Hrtc as [r|r r1 r2 Hstep _ IH]; [done|].
  destruct (run_step_ok r r1 Hstep Hok0) as [H1 H2]. apply IH; [done|].
  destruct Hs0 as (s0 & Hb & Hr). exists s0. split; [done|]. by etrans.
Qed.

Lemma shutdown_first s t l a :
  sv_closing s = false →
  run_step self context settings (mkRun s t l (ShutBegin a)) (mkRun (service_shutdown_begin s).2 t l (ShutLatch a)).
Proof.
  intros Hc. pose proof (run_shutdown_begin self context settings s t l a) as H.
  unfold service_shutdown_begin in *. by rewrite Hc in *.
Qed.

(** How far a run is from its end. *)
Definition phase_rank (p : Phase) : nat :=
  match p with
  | Serving => 6 | ShutLogs _ => 5 | ShutBegin _ => 4 | ShutLatch _ => 3 | ShutWait _ => 2 | Drain _ => 1 | Exited _ _ => 0
  end.

Lemma run_step_rank r r' :
  run_step self context settings r r' → exited (rn_phase r) = false ∧ (phase_rank (rn_phase r') ≤ phase_rank (rn_phase r))%nat.
Proof.
  destruct 1 as [s s' t l p Hp Hreq|s t l p Hp|s t l res|s l|s t l exit Hexit|s t l a|s t l a|s t l a|s t l a answer|s t l a outcome];
    cbn; try (split; [done|lia]).
  - unfold service_shutdown_begin. destruct (sv_closing s), a; cbn; (split; [done|lia]).
  - destruct a; cbn; (split; [done|lia]).
Qed.

(** An await of the run has an answer in every state, and brings it on. *)
Lemma run_advances r :
  exited (rn_phase r) = false → rn_phase r ≠ Serving ∨ rn_cancelled r = true →
  ∃ r', run_step self context settings r r' ∧ rn_cancelled r' = rn_cancelled r
    ∧ (phase_rank (rn_phase r') < phase_rank (rn_phase r))%nat.
Proof.
  destruct r as [s t l p]. cbn. intros Hp Hc. destruct p as [|a|a|a|a|a|a res]; try done.
  - destruct Hc as [?| ->]; [done|]. eexists. split; [apply run_cancelled|]. cbn. split; [done|lia].
  - eexists. split; [apply run_logs_shutdown|]. cbn. split; [done|lia].
  - eexists. split; [apply run_shutdown_begin|]. unfold service_shutdown_begin.
    destruct (sv_closing s), a; cbn; (split; [done|lia]).
  - eexists. split; [apply run_shutdown_latch|]. cbn. split; [done|lia].
  - eexists. split; [apply (run_shutdown_end _ _ _ _ _ _ _ None)|]. destruct a; cbn; (split; [done|lia]).
  - eexists. split; [apply (run_drain _ _ _ _ _ _ _ None)|]. cbn. split; [done|lia].
Qed.


End run.

(** * The tail of the log *)

Inductive LogAction := LWrite (msg : string) | LRetrieve | LInspect.

(** The buffer after an action, and what a retrieval handed out. *)
Definition log_step (st : list string * Logger) (a : LogAction) : list string * Logger :=
  match a with
  | LWrite msg => (st.1, (logger_write msg 0 st.2).2)
  | LRetrieve => let '(logs, b) := retrieve_logs st.2 in (st.1 ++ logs, b)
  | LInspect => (st.1, (inspect_logs st.2).2)
  end.
Definition log_run (acts : list LogAction) : list string * Logger := fold_left log_step acts ([], logger_new).

(** All messages, those since the last retrieval, and the longest such run. *)
Definition written (acts : list LogAction) : list string :=
  omap (λ a, match a with LWrite msg => Some msg | _ => None end) acts.
Definition pending_step (p : list string) (a : LogAction) : list string :=
  match a with LWrite msg => p ++ [msg] | LRetrieve => [] | LInspect => p end.
Definition pending (acts : list LogAction) : list string := fold_left pending_step acts [].
Definition last_n (n : nat) (l : list string) : list string := drop (length l - n) l.

Lemma last_n_push n msg l :
  (0 < n)%nat → bounded_push n msg (last_n n l) = last_n n (l ++ [msg]).
Proof.
  intros Hn. unfold bounded_push, last_n. rewrite length_drop, length_app. cbn [length].
  destruct (Nat.leb_spec n (length l - (length l - n))) as [H|H].
  - rewrite drop_drop, drop_app_le by lia. f_equal. f_equal. lia.
  - rewrite drop_app_le by lia. f_equal. f_equal. lia.
Qed.

Lemma bounded_push_small n msg b : (length b < n)%nat → bounded_push n msg b = b ++ [msg].
Proof. intros H. unfold bounded_push. destruct (Nat.leb_spec n (length b)); [lia|done]. Qed.

Lemma log_run_buffer acts : (log_run acts).2 = last_n LOG_BUFFER_CAPACITY (pending acts).
Proof.
  induction acts as [|a acts IH] using rev_ind; [done|]. unfold log_run, pending in *. rewrite !fold_left_app.
  cbn [fold_left]. destruct a; cbn; rewrite ?IH; [|done|done].
  apply (last_n_push LOG_BUFFER_CAPACITY). unfold LOG_BUFFER_CAPACITY. lia.
Qed.

Lemma log_run_snoc acts a : log_run (acts ++ [a]) = log_step (log_run acts) a.
Proof. unfold log_run. by rewrite fold_left_app. Qed.

(** the tail of the log is the tail.  After any sequence of messages,
    retrievals and inspections the buffer holds exactly the last messages since
    the last retrieval, at most [LOG_BUFFER_CAPACITY] of them; what was retrieved
    and what is left are messages in their order, each at most once; and as long
    as no more than that many come between two retrievals, none is missing. *)
Theorem log_tail_exact (acts : list LogAction) :
  (log_run acts).2 = last_n LOG_BUFFER_CAPACITY (pending acts)
  ∧ (length (log_run acts).2 ≤ LOG_BUFFER_CAPACITY)%nat
  ∧ (log_run acts).1 ++ (log_run acts).2 `sublist_of` written acts
  ∧ ((∀ n, (length (pending (take n acts)) ≤ LOG_BUFFER_CAPACITY)%nat) →
     (log_run acts).1 ++ (log_run acts).2 = written acts).
Proof.
  split_and!; [apply log_run_buffer|rewrite log_run_buffer; unfold last_n; rewrite length_drop; lia| |].
  - induction acts as [|a acts IH] using rev_ind; [done|]. unfold written. rewrite log_run_snoc, omap_app.
    destruct a; cbn; rewrite ?app_nil_r; [|done|done].
    unfold bounded_push. rewrite app_assoc. apply sublist_app; [|done]. etrans; [|exact IH].
    apply sublist_app; [done|]. case_match; [apply sublist_drop|done].
  - intros Hn. induction acts as [|a acts IH] using rev_ind; [done|].
    assert ((log_run acts).1 ++ (log_run acts).2 = written acts) as Hw.
    { apply IH. intros n. destruct (decide (n ≤ length acts)%nat).
      - specialize (Hn n). by rewrite take_app_le in Hn.
      - rewrite take_ge by lia. specialize (Hn (length acts)). by rewrite take_app_length in Hn. }
    unfold written. rewrite log_run_snoc, omap_app. fold (written acts). rewrite <-Hw.
    destruct a; [|cbn; by rewrite ?app_nil_r..].
    change ((log_run acts).1 ++ bounded_push LOG_BUFFER_CAPACITY msg (log_run acts).2
            = ((log_run acts).1 ++ (log_run acts).2) ++ [msg]).
    rewrite bounded_push_small; [by rewrite app_assoc|].
    specialize (Hn (length (acts ++ [LWrite msg]))). rewrite take_ge in Hn by done.
    unfold pending in Hn. rewrite fold_left_app in Hn. cbn [fold_left pending_step] in Hn.
    rewrite length_app in Hn. cbn [length] in Hn. fold (pending acts) in Hn.
    rewrite log_run_buffer. unfold last_n. rewrite length_drop. lia.
Qed.

(** * The socket *)

(** The calls of [create_server], and what each of them answers. *)
Inductive SocketCall :=
| RemoveSocket (path : string)
| Listen (name : string) (mode : option Z)
| Program (name : string) (args : list string)
| Serve (graceful : bool).
Record SocketScript := mkScript {
  sc_name : result string string;
  sc_exists : bool;
  sc_remove : result unit string;
  sc_create : result unit string;
  sc_program : string → result bool string;
  sc_serve : result unit string;
}.
Definition called {A} (c : SocketCall) (a : A) : M (list SocketCall) A := λ t, (a, t ++ [c]).
Definition scripted (sc : SocketScript) : IpcHost (list SocketCall) := {|
  to_fs_name _ := sc_name sc;
  metadata_ok _ := ret (sc_exists sc);
  remove_file p := called (RemoveSocket p) (sc_remove sc);
  create_listener n m := called (Listen n m) (sc_create sc);
  run_program p args := called (Program p args) (sc_program sc p);
  axum_serve g := called (Serve g) (sc_serve sc);
|}.

(** A run of calls with or without the service, written out. *)
Ltac not_served :=
  split; [|intros H; first [discriminate H|split; [rewrite !elem_of_cons; tauto|done]]];
  first [by intros _; eexists; split_and!
        |intros H; rewrite !elem_of_cons, elem_of_nil in H; naive_solver
        |intros H; by apply elem_of_nil in H].

(** nobody is served before the socket is protected.  Whatever the host
    answers, [create_server] serves only after a stale socket was removed, the
    new one was created (on Linux with its mode set before it is bound), its group
    was changed to the service's and its mode to 664, in this order and each with
    success; it serves at most once and as its last act, and it succeeds only if
    it served. *)
Theorem socket_is_protected (sc : SocketScript) (os : HostOs) (placeholder : string) (graceful : bool) :
  let '(r, calls) := create_server (IH:=scripted sc) os placeholder graceful [] in
  let path := get_name_string placeholder in
  (Serve graceful ∈ calls →
     ∃ name, sc_name sc = Ok name ∧ sc_create sc = Ok ()
       ∧ sc_program sc "chown" = Ok true ∧ sc_program sc "chmod" = Ok true
       ∧ calls = (if sc_exists sc then [RemoveSocket path] else [])
                 ++ [Listen name (match os with LinuxOs => Some SOCKET_MODE | MacOs => None end);
                     Program "chown" ["root:nyanpasu"; path]; Program "chmod" ["664"; path]; Serve graceful])
  ∧ (r = Ok () → Serve graceful ∈ calls ∧ sc_serve sc = Ok ()).
Proof.
  destruct sc as [[name|e] ex rm cr prog sv]; cbn; [|split; [by intros ?%elem_of_nil|done]].
  unfold create_server, bind_ok, bind, io_err, remove_socket_if_exists, change_socket_group, change_socket_mode, change_socket.
  cbn. destruct ex, rm as [[]|], cr as [[]|], (prog "chown") as [[|]|], (prog "chmod") as [[|]|], sv as [[]|]; cbn;
    not_served.
Qed.

(** * Accepting *)

(** The first connection is accepted whatever failed before it, and only failures
    that are not the peer's make the listener sleep. *)
Lemma accept_first {C} (errors : list AcceptError) (stream : C) rest :
  accept ((Err <$> errors) ++ Ok stream :: rest)
  = Some (stream, length (filter (λ e, is_connection_error e = false) errors), rest).
Proof.
  induction errors as [|e errors IH]; [done|]. cbn [fmap list_fmap app accept]. rewrite IH. cbn.
  unfold handle_accept_error. by destruct e.
Qed.

(** * The log directory *)

Inductive LogCall := Made (dir : string) | Moded (dir : string) (mode : Z) | Appending (dir : string) | Layers (file : bool).
Record LogScript := mkLogScript {
  ls_meta : result bool MetaError;
  ls_make : result unit string;
  ls_mode : result unit string;
  ls_append : result unit string;
  ls_tracer : result unit string;
  ls_global : result unit string;
}.
Definition noted {A} (c : LogCall) (a : A) : M (list LogCall) A := λ t, (a, t ++ [c]).
Definition log_scripted (sc : LogScript) : LogHost (list LogCall) := {|
  symlink_metadata _ := ret (ls_meta sc);
  make_dirs d := noted (Made d) (ls_make sc);
  set_permissions d m := noted (Moded d m) (ls_mode sc);
  build_appender d _ := noted (Appending d) (ls_append sc);
  log_tracer_init := ret (ls_tracer sc);
  set_global_default _ f := noted (Layers f) (ls_global sc);
|}.

(** Log files are opened only in a directory that is plain or was just made, after
    its mode was set to 700. *)
Lemma log_dir_is_protected (sc : LogScript) (dir : string) (debug write_file : bool) :
  let '(r, calls) := init_logging (LH:=log_scripted sc) dir debug write_file [] in
  Appending dir ∈ calls →
  (ls_meta sc = Ok true ∨ ls_make sc = Ok ()) ∧ ls_mode sc = Ok ()
  ∧ ∃ before after, calls = before ++ [Moded dir LOG_DIR_MODE; Appending dir] ++ after.
Proof.
  destruct sc as [meta mk mode app tracer glob].
  unfold init_logging, ensure_plain_dir, harden_log_dir, bind_ok, bind. cbn.
  destruct write_file, meta as [[|]|[e|e]], mk as [[]|], mode as [[]|], app as [[]|], tracer as [[]|]; cbn;
    try (intros H; rewrite ?elem_of_cons, ?elem_of_nil in H; naive_solver); intros _;
    (split_and!; [tauto|done|]);
    first [by exists [], []|by exists [], [Layers true]|by exists [Made dir], []|by exists [Made dir], [Layers true]].
Qed.

(** * A concrete run *)
Module demo_run.
Definition started : Run (Q:=ListQueue) := mkRun demo_service.booted_service false true Serving.
Definition cancelled : Run (Q:=ListQueue) := mkRun demo_service.started true true Serving.
Definition closed : Service (Q:=ListQueue) := demo_service.closing.
Definition ended : Run (Q:=ListQueue) :=
  mkRun (service_shutdown_end sim_self None closed).2 true false (Exited TokenCancelled (Ok ())).

Lemma cancelled_reachable :
  run_reachable sim_self demo_system.context demo_system.settings 4 2 cancelled.
Proof.
  exists started. split; [split_and!; [exact demo_service.service_boots|done..]|].
  eapply rtc_l; [apply run_request; [done|apply req_start]|].
  eapply rtc_l; [by apply run_cancel|]. apply rtc_refl.
Qed.

Lemma ended_reachable : run_reachable sim_self demo_system.context demo_system.settings 4 2 ended.
Proof.
  destruct cancelled_reachable as (r0 & H0 & H). exists r0. split; [done|]. etrans; [exact H|].
  eapply rtc_l; [apply run_cancelled|]. eapply rtc_l; [apply run_logs_shutdown|].
  eapply rtc_l; [apply shutdown_first; vm_compute; reflexivity|].
  eapply rtc_l; [apply run_shutdown_latch|]. eapply rtc_l; [apply (run_shutdown_end _ _ _ _ _ _ _ None)|].
  eapply rtc_l; [apply (run_drain _ _ _ _ _ _ _ None)|]. apply rtc_refl.
Qed.
End demo_run.


