(* ===== verification/Shortcuts.v ===== *)
(** The typed operations of the IPC client (nyanpasu_ipc client/shortcuts.rs) and
    the [rpc] command over them (cmds/rpc/mod.rs).

    A shortcut sends its operation with its payload and reads the answer; what
    the transport gives is an argument.  The readers of the answers are those of
    the wire types ([WireReaders]); the JSON form of a core type is one of them. *)
From S2P Require Import Prelude Text Metadata Types Operation Bridge Wire Ipc IpcProps Commands.
From Stdlib Require Import ZArith Lia.

(** What goes with a request. *)
Inductive Payload :=
| NoPayload
| CorePayload (t : CoreType) (config_file : OsPath)
| SubmitPayload (request : CoreSubmitReq)
| QueryPayload (request : CoreOperationReq)
| DnsPayload (servers : option (list string))
| LogPayload (owner : string) (request : Json).

(** The readers of the answers that are not modelled field by field. *)
Class WireReaders := {
  LogFilesData : Type;
  LogSessionData : Type;
  LogPageData : Type;
  LogClosedData : Type;
  StatusData : Type;
  CoreInfosData : Type;
  ApiConnectionData : Type;
  read_log_files : Json → option LogFilesData;
  read_log_session : Json → option LogSessionData;
  read_log_page : Json → option LogPageData;
  read_log_closed : Json → option LogClosedData;
  read_status : Json → option StatusData;
  read_core_infos : Json → option CoreInfosData;
  read_api_connection : Json → option ApiConnectionData;
}.

Section shortcuts.
Context {WH : WireHost} {WR : WireReaders} {B : Type} {JT : JsonText B}.
(** The transport: an operation with its payload, and the response. *)
Context (send : Op → Payload → result (Z * result B string) string).

Definition data_of {T} (read : Json → option T) (o : Op) (p : Payload) : result T ClientError :=
  call_data read (op_path o) (send o p).
Definition unit_of (o : Op) (p : Payload) : result unit ClientError := call_unit (op_path o) (send o p).

Definition log_files : result LogFilesData ClientError := data_of read_log_files LogFilesOp NoPayload.
Definition open_logs (owner : string) (request : Json) : result LogSessionData ClientError :=
  data_of read_log_session LogOpenOp (LogPayload owner request).
Definition query_logs (owner : string) (request : Json) : result LogPageData ClientError :=
  data_of read_log_page LogQueryOp (LogPayload owner request).
Definition close_logs (owner : string) (request : Json) : result LogClosedData ClientError :=
  data_of read_log_closed LogCloseOp (LogPayload owner request).
Definition client_status : result StatusData ClientError := data_of read_status StatusOp NoPayload.
Definition start_core (t : CoreType) (config_file : OsPath) : result unit ClientError :=
  unit_of CoreStart (CorePayload t config_file).
Definition stop_core : result unit ClientError := unit_of CoreStop NoPayload.
Definition check_config (t : CoreType) (config_file : OsPath) : result unit ClientError :=
  unit_of CoreCheck (CorePayload t config_file).
Definition submit_core (request : CoreSubmitReq) : result OperationInfo ClientError :=
  data_of read_operation CoreV2Submit (SubmitPayload request).
Definition core_operation (request : CoreOperationReq) : result OperationInfo ClientError :=
  data_of read_operation CoreV2Operation (QueryPayload request).

(** [data.flatten()]: the data is itself optional, and a null is its absence. *)
Definition read_option {T} (read : Json → option T) (j : Json) : option (option T) :=
  match j with JNull => Some None | _ => Some <$> read j end.
Definition core_api_connection : result (option ApiConnectionData) ClientError :=
  let? envelope := client_call (read_option read_api_connection) (op_path CoreV2ApiConnection)
                     (send CoreV2ApiConnection NoPayload) in
  Ok (mjoin (r_data envelope)).
Definition core_status_v2 : result CoreInfosData ClientError := data_of read_core_infos CoreV2Status NoPayload.

(** [LogsResBody]. *)
Fixpoint read_strings (l : list Json) : option (list string) :=
  match l with [] => Some [] | j :: l' => s ← read_string j; cons s <$> read_strings l' end.
Definition read_logs : Json → option (list string) :=
  read_object ["logs"] (required "logs" (λ j, match j with JArray l => read_strings l | _ => None end)).
Definition client_inspect_logs : result (list string) ClientError := data_of read_logs LogsInspect NoPayload.
Definition client_retrieve_logs : result (list string) ClientError := data_of read_logs LogsRetrieve NoPayload.
Definition client_set_dns (servers : option (list string)) : result unit ClientError :=
  unit_of NetworkSetDns (DnsPayload servers).

(** ** The event stream *)

(** What the socket gives: a binary or a text frame, another frame, or an error. *)
Inductive SocketMessage := BinaryFrame (b : B) | TextFrame (b : B) | OtherFrame | SocketFailed (text : string).
Inductive EventError := EventSocket (operation text : string) | EventDecode (operation : string).

(** The closure of [filter_map] in [events], and the stream. *)
Definition event_item {T} (read : Json → option T) (m : SocketMessage) : option (result T EventError) :=
  match m with
  | BinaryFrame b | TextFrame b =>
      Some match json_from_slice b ≫= read with Some e => Ok e | None => Err (EventDecode EVENT_URI) end
  | OtherFrame => None
  | SocketFailed text => Some (Err (EventSocket EVENT_URI text))
  end.
Definition event_stream {T} (read : Json → option T) : list SocketMessage → list (result T EventError) :=
  omap (event_item read).

(** * The rpc command *)

Inductive CoreTypeArg := ArgMihomo | ArgMihomoAlpha | ArgClashRust | ArgClashRustAlpha | ArgClashPremium | ArgMeow.
Definition core_type_args : list CoreTypeArg :=
  [ArgMihomo; ArgMihomoAlpha; ArgClashRust; ArgClashRustAlpha; ArgClashPremium; ArgMeow].
Definition arg_name (a : CoreTypeArg) : string :=
  match a with
  | ArgMihomo => "mihomo" | ArgMihomoAlpha => "mihomo-alpha" | ArgClashRust => "clash-rs"
  | ArgClashRustAlpha => "clash-rs-alpha" | ArgClashPremium => "clash" | ArgMeow => "meow"
  end.
Definition arg_core_type (a : CoreTypeArg) : CoreType :=
  Clash match a with
        | ArgMihomo => CMihomo | ArgMihomoAlpha => CMihomoAlpha | ArgClashRust => CClashRust
        | ArgClashRustAlpha => CClashRustAlpha | ArgClashPremium => CClashPremium | ArgMeow => CMeow
        end.

(** [CoreTypeParser]: a name, or else the text of JSON ([legacy_json_core_type]).
    The value is [None] when it is no UTF-8. *)
Definition parse_core_type (legacy_json_core_type : string → option CoreType) (value : option string) : option CoreType :=
  value ← value;
  match List.find (λ a, String.eqb (arg_name a) value) core_type_args with
  | Some a => Some (arg_core_type a)
  | None => legacy_json_core_type value
  end.

Inductive RpcCommand :=
| RpcStartCore (t : CoreType) (config_file : OsPath)
| RpcStopCore
| RpcCheckConfig (t : CoreType) (config_file : OsPath)
| RpcInspectLogs
| RpcSetDns (servers : option (list string)).

(** [trim_matches('\n')], from one end and from both. *)
Definition newline : Ascii.ascii := Ascii.ascii_of_nat 10.
Fixpoint trim_newlines (s : string) : string :=
  match s with
  | String.String c s' => if Ascii.eqb c newline then trim_newlines s' else s
  | String.EmptyString => s
  end.
Definition reversed (s : string) : string := String.string_of_list_ascii (reverse (String.list_ascii_of_string s)).
Definition trim_matches_newline (s : string) : string := reversed (trim_newlines (reversed (trim_newlines s))).

(** [rpc]: its result and the lines it prints; [text] is how a client error is
    displayed. *)
Definition rpc (text : ClientError → string) (command : RpcCommand) : result (list string) CommandError :=
  let quiet (r : result unit ClientError) :=
    match r with Ok _ => Ok [] | Err e => Err (OtherFailed (text e)) end in
  match command with
  | RpcStartCore t config_file => quiet (start_core t config_file)
  | RpcStopCore => quiet stop_core
  | RpcCheckConfig t config_file => quiet (check_config t config_file)
  | RpcInspectLogs =>
      match client_inspect_logs with
      | Ok logs => Ok (trim_matches_newline <$> logs)
      | Err e => Err (OtherFailed (text e))
      end
  | RpcSetDns servers => quiet (client_set_dns servers)
  end.
End shortcuts.

(** * Lemmas *)

(** Every name is parsed as its core, whatever the JSON reader accepts, and a text
    that is no name means what it meant. *)
Lemma core_type_names legacy :
  Forall (λ a, parse_core_type legacy (Some (arg_name a)) = Some (arg_core_type a)) core_type_args
  ∧ ∀ value, value ∉ (arg_name <$> core_type_args) → parse_core_type legacy (Some value) = legacy value.
Proof.
  split; [repeat constructor|]. intros value Hv. unfold parse_core_type. cbn [mbind option_bind].
  destruct (List.find _ core_type_args) as [a|] eqn:E; [|done].
  apply find_some in E as [Hin <-%String.eqb_eq]. destruct Hv. apply list_elem_of_fmap. exists a.
  by rewrite list_elem_of_In.
Qed.

Section delivered.
Context {WR : WireReaders} {B : Type} {JT : JsonText B} {JL : JsonTextLaws B}.

(** The frames of a socket that carry events are read as those events, in order;
    other frames are skipped and an error of the socket is passed on. *)
Lemma event_stream_delivers {T} (write : T → Json) (read : Json → option T) (frames : list (T + unit)) :
  (∀ e, read (write e) = Some e) →
  event_stream read ((λ f, match f with inl e => TextFrame (json_to_vec (write e)) | inr _ => OtherFrame end) <$> frames)
  = (omap (λ f, match f with inl e => Some (Ok e) | inr _ => None end) frames : list (result T EventError)).
Proof.
  intros Hrw. induction frames as [|[e|[]] frames IH]; [done| |exact IH].
  unfold event_stream in *. cbn. rewrite json_roundtrip. cbn. rewrite Hrw. f_equal. exact IH.
Qed.

(** The connection of the applied core comes through, and so does its absence. *)
Lemma api_connection_delivers (write : ApiConnectionData → Json) send ts connection :
  is_i64 ts → (∀ c, write c ≠ JNull ∧ read_api_connection (write c) = Some c) →
  send CoreV2ApiConnection NoPayload
  = deliver (B:=B) (OK_STATUS, write_r (λ o, match o with Some c => write c | None => JNull end) (success ts connection)) →
  core_api_connection send = Ok connection.
Proof.
  intros Hts Hw Hsend. unfold core_api_connection. rewrite Hsend.
  unfold client_call, client_send, deliver. cbn [fst snd]. change (is_success OK_STATUS) with true. cbn match.
  rewrite json_roundtrip. cbn [mbind option_bind]. destruct connection as [c|].
  - destruct (Hw c) as [Hn Hr]. rewrite (r_roundtrip _ (read_option read_api_connection) (success ts (Some c)) Hts); [done|].
    intros b [= <-]. split; [done|]. unfold read_option. rewrite Hr. by destruct (write c).
  - change (write_r ?w (success ts None)) with (write_r w (mkR ROk (code_msg ROk) (@None (option ApiConnectionData)) ts None None)).
    rewrite r_roundtrip; [done|exact Hts|done].
Qed.
End delivered.
