(* ===== verification/TextLines.v ===== *)
(** Lines and white space of printable text: a text that is joined from lines is
    split into them again, and trimming drops exactly the spaces around it.  The
    lists of users of Windows.v and the tables of MacDns.v are read this way. *)
From S2P Require Import Prelude Text Metadata Types Capability Log.
From Stdlib Require Import ZArith Lia.

(** Visible ASCII, and that with the space. *)
Definition visible (c : Ascii.ascii) : bool := ((33 <=? byte c) && (byte c <=? 126))%Z.
Definition space : Ascii.ascii := Ascii.ascii_of_nat 32.
Definition printable (c : Ascii.ascii) : bool := Ascii.eqb c space || visible c.

Lemma visible_not_ws c s : visible c = true → ws_len (String c s) = O.
Proof.
  unfold visible, byte. rewrite andb_true_iff, !Z.leb_le. intros [H1 H2]. unfold ws_len. cbn [String.get].
  assert (∀ n, (n ≤ 32 ∨ 127 ≤ n)%Z → (Z.of_nat (Ascii.nat_of_ascii c) =? n)%Z = false) as Hne by (intros n Hn; apply Z.eqb_neq; lia).
  assert ((Z.of_nat (Ascii.nat_of_ascii c) <=? 13)%Z = false) as -> by (apply Z.leb_gt; lia).
  rewrite !Hne by lia. by rewrite andb_false_r.
Qed.
Lemma space_ws s : ws_len (String space s) = 1%nat.
Proof. done. Qed.

Lemma substring_whole s : String.substring 0 (String.length s) s = s.
Proof. induction s as [|c s IH]; [done|]. cbn. by rewrite IH. Qed.
Lemma substring_tail c s : String.substring 1 (String.length (String c s) - 1) (String c s) = s.
Proof. cbn [String.length]. replace (S (String.length s) - 1)%nat with (String.length s) by lia. cbn. apply substring_whole. Qed.

Lemma visible_printable s : string_forallb visible s = true → string_forallb printable s = true.
Proof. apply string_forallb_impl. intros c Hc. unfold printable. by rewrite Hc, orb_true_r. Qed.

(** A printable text with a visible last character. *)
Fixpoint ends_visible (s : string) : bool :=
  match s with
  | EmptyString => false
  | String c EmptyString => visible c
  | String c s' => printable c && ends_visible s'
  end.
Lemma ends_visible_cons c s : ends_visible (String c s) = if String.eqb s "" then visible c else printable c && ends_visible s.
Proof. by destruct s. Qed.

Lemma ends_visible_ws s fuel : ends_visible s = true → (String.length s ≤ fuel)%nat → all_ws fuel s = false.
Proof.
  revert fuel. induction s as [|c s IH]; [done|]. intros fuel. rewrite ends_visible_cons. intros Hs Hf.
  destruct fuel as [|fuel]; [cbn in Hf; lia|]. cbn [all_ws]. cbn [String.eqb].
  destruct (visible c) eqn:Ec; [rewrite visible_not_ws by done; done|].
  destruct (String.eqb_spec s "") as [->|Hne]; [done|]. apply andb_true_iff in Hs as [Hp Hs].
  unfold printable in Hp. rewrite Ec, orb_false_r in Hp. apply Ascii.eqb_eq in Hp as ->. rewrite space_ws, substring_tail.
  apply IH; [done|]. cbn in Hf. lia.
Qed.

Lemma trim_end_visible s : ends_visible s = true → str_trim_end s = s.
Proof.
  induction s as [|c s IH]; [done|]. intros Hs. pose proof (ends_visible_ws _ _ Hs (le_n _)) as Hw.
  rewrite ends_visible_cons in Hs. cbn [str_trim_end]. rewrite Hw. f_equal.
  destruct (String.eqb_spec s "") as [->|Hne]; [done|]. apply andb_true_iff in Hs as [_ Hs]. by apply IH.
Qed.

(** Leading spaces. *)
Fixpoint spaces (n : nat) (s : string) : string := match n with O => s | S n' => String space (spaces n' s) end.
Definition starts_visible (s : string) : bool := match s with String c _ => visible c | EmptyString => true end.

Lemma length_spaces n s : String.length (spaces n s) = (n + String.length s)%nat.
Proof. induction n as [|n IH]; [done|]. cbn. by rewrite IH. Qed.
Lemma trim_start_spaces n s fuel :
  starts_visible s = true → (n ≤ fuel)%nat → str_trim_start fuel (spaces n s) = s.
Proof.
  intros Hs. revert fuel. induction n as [|n IH]; intros fuel Hf.
  { destruct fuel as [|fuel]; [done|]. cbn [spaces str_trim_start]. destruct s as [|c s]; [done|]. by rewrite visible_not_ws. }
  destruct fuel as [|fuel]; [lia|]. cbn [spaces str_trim_start]. rewrite space_ws, substring_tail. apply IH. lia.
Qed.
Lemma trim_spaces n s : starts_visible s = true → ends_visible s = true → str_trim (spaces n s) = s.
Proof. intros Hs He. unfold str_trim. rewrite trim_start_spaces by (done || rewrite length_spaces; lia). by apply trim_end_visible. Qed.

Lemma visible_ends s : string_forallb visible s = true → s ≠ "" → ends_visible s = true.
Proof.
  induction s as [|c s IH]; [done|]. cbn [string_forallb]. rewrite andb_true_iff, ends_visible_cons. intros [Hc Hs] _.
  destruct (String.eqb_spec s ""); [done|]. unfold printable. rewrite Hc, orb_true_r. by apply IH.
Qed.
Lemma trim_visible s : string_forallb visible s = true → str_trim s = s.
Proof.
  intros Hs. destruct s as [|c s]; [done|]. apply (trim_spaces 0).
  - cbn [string_forallb] in Hs. by apply andb_true_iff in Hs as [Hc _].
  - by apply visible_ends.
Qed.

Lemma printable_not c d : printable c = true → printable d = false → Ascii.eqb d c = false.
Proof. intros Hc Hd. destruct (Ascii.eqb_spec d c) as [->|]; congruence. Qed.

Lemma drop_cr_printable s : string_forallb printable s = true → drop_cr s = s.
Proof.
  intros Hs. unfold drop_cr. destruct (strip_suffix _ s) as [r|] eqn:E; [|done]. apply strip_suffix_Some in E as ->.
  exfalso. induction r as [|c r IH]; [by cbn in Hs|]. rewrite app_cons_str in Hs. cbn [string_forallb] in Hs.
  apply andb_true_iff in Hs as [_ Hs]. by apply IH.
Qed.

Lemma split_printable s r : string_forallb printable s = true → split_once nl (s +:+ nl +:+ r) = Some (s, r).
Proof.
  intros Hs. apply (split_once_char (Ascii.ascii_of_nat 10)). eapply string_forallb_impl; [|exact Hs].
  intros c Hc. by rewrite printable_not.
Qed.
Lemma split_printable_none s : string_forallb printable s = true → split_once nl s = None.
Proof.
  induction s as [|c s IH]; [done|]. cbn [string_forallb]. rewrite andb_true_iff. intros [Hc Hs].
  unfold nl in *. cbn [split_once strip_prefix]. rewrite printable_not by done. by rewrite IH.
Qed.

(** Lines that are printable and not empty. *)
Definition line_text (s : string) : Prop := string_forallb printable s = true ∧ s ≠ "".

Lemma lines_joined l : Forall line_text l → str_lines (join nl l) = l.
Proof.
  intros Hl. unfold str_lines.
  assert (∀ fuel, (String.length (join nl l) < fuel)%nat → lines_fuel fuel (join nl l) = l) as H; [|apply H; lia].
  induction Hl as [|s l [Hv Hne] Hl IH]; intros [|fuel] Hf; [by inversion Hf|done|by inversion Hf|].
  destruct l as [|t l].
  { cbn [join lines_fuel]. destruct (String.eqb_spec s ""); [done|]. by rewrite split_printable_none. }
  change (join nl (s :: t :: l)) with (s +:+ nl +:+ join nl (t :: l)) in *. cbn [lines_fuel].
  destruct (String.eqb_spec (s +:+ nl +:+ join nl (t :: l)) "") as [E|_]; [by destruct s|].
  rewrite split_printable, drop_cr_printable by done. f_equal. apply IH.
  rewrite !length_app_str in Hf. change (String.length nl) with 1%nat in Hf. lia.
Qed.

(** A text whose lines are all ended by a newline. *)
Definition terminated (l : list string) : string := foldr (λ s r, s +:+ nl +:+ r) "" l.
Lemma lines_terminated l : Forall (λ s, string_forallb printable s = true) l → str_lines (terminated l) = l.
Proof.
  intros Hl. unfold str_lines.
  assert (∀ fuel, (String.length (terminated l) < fuel)%nat → lines_fuel fuel (terminated l) = l) as H; [|apply H; lia].
  induction Hl as [|s l Hs Hl IH]; intros [|fuel] Hf; [by inversion Hf|done|by inversion Hf|].
  change (terminated (s :: l)) with (s +:+ nl +:+ terminated l) in *. cbn [lines_fuel].
  destruct (String.eqb_spec (s +:+ nl +:+ terminated l) "") as [E|_]; [by destruct s|].
  rewrite split_printable, drop_cr_printable by done. f_equal. apply IH.
  rewrite !length_app_str in Hf. change (String.length nl) with 1%nat in Hf. lia.
Qed.

(** A text without the first character of a pattern does not contain it. *)
Lemma contains_without c p s : string_forallb (λ d, negb (Ascii.eqb c d)) s = true → contains (String c p) s = false.
Proof.
  intros Hs. unfold contains. apply bool_decide_eq_false. induction s as [|d s IH]; [by intros [? ?]|].
  cbn [string_forallb] in Hs. apply andb_true_iff in Hs as [Hd Hs]. cbn [split_once strip_prefix].
  destruct (Ascii.eqb c d); [done|]. intros [x E]. apply IH; [done|]. destruct (split_once (String c p) s); [by eexists|done].
Qed.

Lemma ends_visible_app a b : string_forallb printable a = true → ends_visible b = true → ends_visible (a +:+ b) = true.
Proof.
  induction a as [|c a IH]; [done|]. cbn [string_forallb]. rewrite andb_true_iff. intros [Hc Ha] Hb.
  rewrite app_cons_str, ends_visible_cons. specialize (IH Ha Hb). destruct (String.eqb_spec (a +:+ b) "") as [E|]; [by rewrite E in IH|].
  by rewrite Hc, IH.
Qed.

(** One trailing space is dropped. *)
Lemma trim_trailing s : string_forallb visible s = true → str_trim (s +:+ " ") = s.
Proof.
  intros Hs. assert (str_trim_end (s +:+ " ") = s) as He.
  { clear -Hs. induction s as [|c s IH]; [done|]. cbn [string_forallb] in Hs. apply andb_true_iff in Hs as [Hc Hs].
    rewrite app_cons_str. cbn [str_trim_end String.length all_ws String.eqb]. rewrite visible_not_ws by done. by rewrite IH. }
  unfold str_trim. destruct s as [|c s]; [done|]. cbn [string_forallb] in Hs. apply andb_true_iff in Hs as [Hc Hs].
  transitivity (str_trim_end (String c s +:+ " ")); [f_equal|exact He]. apply (trim_start_spaces 0); [done|lia].
Qed.
