(* ===== verification/Windows.v ===== *)
(** Windows security: the descriptors that open the service's socket and the
    controllers' pipes to listed users (nyanpasu-windows-security acl.rs and
    pipe.rs, the access of server/controller_access.rs), the list of those users
    (utils/acl.rs, cmds/install.rs) and the service process under the service
    control manager (nyanpasu_service, win_service.rs).

    The calls of the Windows API are operations of classes; what their
    documentation promises of them is [WinAclLaws] and [WinPipeLaws]. *)
From stdpp Require Import sorting strings.
From S2P Require Import Prelude Text Paths Metadata Types Capability Log Bridge Commands Access.
From Stdlib Require Import ZArith Lia.

(** * Security descriptors (acl.rs) *)

Definition ADMINISTRATORS_GROUP_SID : string := "S-1-5-32-544".
Definition SYSTEM_SID : string := "S-1-5-18".
Definition AUTHENTICATED_USER_SID : string := "S-1-5-11".
Definition EVERYONE_SID : string := "S-1-1-0".

(** Sizes and rights of the API's headers. *)
Definition SIZEOF_ACL : Z := 8.
Definition SIZEOF_ACCESS_ALLOWED_ACE : Z := 12.
Definition GENERIC_ALL : Z := 268435456 (* 0x10000000 *).

Class WinAcl := {
  Psid : Type;
  Acl : Type;
  Descriptor : Type;
  ConvertStringSidToSidW : string → result Psid string;
  GetLengthSid : Psid → Z;
  InitializeAcl : Z → result Acl string;
  AddAccessAllowedAce : Acl → Z → Psid → result Acl string;
  InitializeSecurityDescriptor : result Descriptor string;
  SetSecurityDescriptorDacl : Acl → Descriptor → result Descriptor string;
  SetSecurityDescriptorOwner : Psid → Descriptor → result Descriptor string;
  SetSecurityDescriptorGroup : Psid → Descriptor → result Descriptor string;
  (** the text, or that it is no UTF-16 *)
  ConvertSecurityDescriptorToString : Descriptor → result (result string string) string;
}.

(** An [anyhow] error: its contexts, the outermost first. *)
Definition Anyhow : Type := list string.
Definition context {A} (text : string) (r : result A Anyhow) : result A Anyhow := res_map_err (cons text) r.
Definition api {A} (text : string) (r : result A string) : result A Anyhow := res_map_err (λ e, [text; e]) r.

Section acl.
Context {WA : WinAcl}.

(** [try_from_sid_str] for each pair, in order. *)
Fixpoint convert_sids (l : list (string * option Z)) : result (list (Psid * option Z)) Anyhow :=
  match l with
  | [] => Ok []
  | (sid, permissions) :: l' =>
      let? owned := api ("failed to convert sid string to psid: " +:+ sid) (ConvertStringSidToSidW sid) in
      let? rest := convert_sids l' in
      Ok ((owned, permissions) :: rest)
  end.

Definition calculate_ace_size (sid : Psid) : Z := (SIZEOF_ACCESS_ALLOWED_ACE + GetLengthSid sid - 4)%Z.
Fixpoint calculate_acl_size (total : Z) (sids : list Psid) : Z :=
  match sids with
  | [] => (total + 256)%Z
  | sid :: sids' => calculate_acl_size (total + calculate_ace_size sid) sids'
  end.

Fixpoint add_sids_to_acl (acl : Acl) (sids : list (Psid * option Z)) : result Acl Anyhow :=
  match sids with
  | [] => Ok acl
  | (sid, permissions) :: sids' =>
      let? acl := api "failed to add access allowed ace" (AddAccessAllowedAce acl (default GENERIC_ALL permissions) sid) in
      add_sids_to_acl acl sids'
  end.

(** The parameters in the order of the source. *)
Definition set_owner_and_group (security_descriptor : Descriptor) (group owner : Psid) : result Descriptor Anyhow :=
  let? d := api "failed to set owner" (SetSecurityDescriptorOwner owner security_descriptor) in
  api "failed to set group" (SetSecurityDescriptorGroup group d).

Definition sid_or (text : string) (value : option string) (default : Psid) : result Psid Anyhow :=
  match value with
  | Some s => api text (ConvertStringSidToSidW s)
  | None => Ok default
  end.

(** [generate_security_descriptor_internal], up to the descriptor and as a whole. *)
Definition build_descriptor (sids_and_permissions : list (string * option Z)) (owner group : option string) :
    result Descriptor Anyhow :=
  let? security_descriptor := api "failed to initialize security descriptor" InitializeSecurityDescriptor in
  let? system_sid := api "failed to convert system sid string to psid" (ConvertStringSidToSidW SYSTEM_SID) in
  let? admins_sid := api "failed to convert admins sid string to psid" (ConvertStringSidToSidW ADMINISTRATORS_GROUP_SID) in
  let? owner_sid := sid_or "failed to convert owner sid string to psid" owner admins_sid in
  let? group_sid := sid_or "failed to convert group sid string to psid" group system_sid in
  let? sids := convert_sids sids_and_permissions in
  let psids := (owner_sid, None) :: (group_sid, None) :: sids in
  let acl_size := calculate_acl_size SIZEOF_ACL psids.*1 in
  let? acl := api "failed to initialize acl" (InitializeAcl ((acl_size + 256) mod 2 ^ 32)) in
  let? acl := context "failed to add sids to acl" (add_sids_to_acl acl psids) in
  let? security_descriptor :=
    api "failed to set dacl to security descriptor" (SetSecurityDescriptorDacl acl security_descriptor) in
  context "failed to set owner and group" (set_owner_and_group security_descriptor owner_sid group_sid).

Definition generate_security_descriptor_internal (sids_and_permissions : list (string * option Z))
    (owner group : option string) : result string Anyhow :=
  let? security_descriptor := build_descriptor sids_and_permissions owner group in
  let? sddl_string := api "failed to convert security descriptor to sddl string"
                        (ConvertSecurityDescriptorToString security_descriptor) in
  api "failed to convert sddl string to string" sddl_string.

Definition generate_windows_security_descriptor (sids : list string) (owner group : option string) : result string Anyhow :=
  generate_security_descriptor_internal ((λ sid, (sid, None)) <$> sids) owner group.

Definition generate_security_descriptor_with_permissions (l : list (string * Z)) (owner group : option string) :
    result string Anyhow :=
  generate_security_descriptor_internal ((λ '(sid, permissions), (sid, Some permissions)) <$> l) owner group.

(** [create_default_pipe_security_descriptor], of the current user's SID. *)
Definition create_default_pipe_security_descriptor (current_user : result string Anyhow) : result string Anyhow :=
  let? current_user_sid := context "failed to get current user sid" current_user in
  generate_windows_security_descriptor [current_user_sid] None None.

(** * The pipe of a controller (pipe.rs) *)

Definition FILE_GENERIC_READ : Z := 1179785 (* 0x120089 *).
Definition FILE_GENERIC_WRITE : Z := 1179926 (* 0x120116 *).
Definition READ_CONTROL : Z := 131072.
Definition FILE_READ_ATTRIBUTES : Z := 128.
Definition WRITE_DAC : Z := 262144.

Record PipeSecurity := mkPipeSecurity { ps_sddl : string }.
(** [PipeSecurity::new]; [None] is the panic of [expect]. *)
Definition pipe_security_new (sids : list string) : option (result PipeSecurity Anyhow) :=
  let entries := (λ sid, (sid, Z.lor FILE_GENERIC_READ FILE_GENERIC_WRITE)) <$> sids in
  match generate_security_descriptor_with_permissions entries None None with
  | Err e => Some (Err e)
  | Ok descriptor =>
      '(_, dacl) ← split_once "D:" descriptor;
      Some (Ok (mkPipeSecurity ("D:P" +:+ replace ";;GA;" ";;FA;" dacl)))
  end.
End acl.

(** An entry of a list; its SID as text, or that it has none. *)
Record Ace := mkAce { ac_type : Z; ac_flags : Z; ac_mask : Z; ac_sid : result string string }.

Class WinPipe (W : Type) := {
  Handle : Type;
  PipeDescriptor : Type;
  CreateFileW : string → Z → M W (result Handle string);
  GetNamedPipeServerProcessId : Handle → M W (result Z string);
  ConvertStringSecurityDescriptor : string → result PipeDescriptor string;
  GetSecurityInfo : Handle → M W (result PipeDescriptor string);
  (** the list of a descriptor, absent or null, as what [GetAce] gives for each index *)
  GetSecurityDescriptorDacl : PipeDescriptor → result (option (list (result Ace string))) string;
  SetSecurityInfo : Handle → list (result Ace string) → M W (result unit string);
  (** [MapGenericMask], with the mapping of files *)
  MapGenericMask : Z → Z;
}.

Section pipe.
Context {W : Type} {WP : WinPipe W}.

Definition plain {A} (r : result A string) : result A Anyhow := res_map_err (λ e, [e]) r.

(** [Descriptor::dacl]. *)
Definition descriptor_dacl (d : PipeDescriptor) : result (list (result Ace string)) Anyhow :=
  let? acl := plain (GetSecurityDescriptorDacl d) in
  match acl with Some acl => Ok acl | None => Err ["pipe has an absent or NULL DACL"] end.

(** The order of [(String, u32, u8)]. *)
Definition PipeEntry : Type := string * Z * Z.
Definition entry_le (x y : PipeEntry) : Prop :=
  let '(s, m, f) := x in let '(t, n, g) := y in
  (s ≠ t ∧ String.le s t) ∨ (s = t ∧ (m < n ∨ m = n ∧ f ≤ g))%Z.
#[export] Instance entry_le_dec : RelDecision entry_le.
Proof. intros [[s m] f] [[t n] g]. unfold entry_le. solve_decision. Defined.

Fixpoint dedup_entries (l : list PipeEntry) : list PipeEntry :=
  match l with
  | x :: ((y :: _) as l') => if decide (x = y) then dedup_entries l' else x :: dedup_entries l'
  | _ => l
  end.

(** [entries]. *)
Fixpoint collect_entries (acl : list (result Ace string)) : result (list PipeEntry) Anyhow :=
  match acl with
  | [] => Ok []
  | ace :: acl' =>
      let? ace := plain ace in
      if negb (ac_type ace =? 0)%Z then Err ["unexpected non-allow pipe ACE"]
      else
        let? sid := plain (ac_sid ace) in
        let? rest := collect_entries acl' in
        Ok ((sid, MapGenericMask (ac_mask ace), ac_flags ace) :: rest)
  end.
Definition entries (acl : list (result Ace string)) : result (list PipeEntry) Anyhow :=
  res_map (λ l, dedup_entries (merge_sort entry_le l)) (collect_entries acl).
Definition descriptor_entries (d : PipeDescriptor) : result (list PipeEntry) Anyhow :=
  let? acl := descriptor_dacl d in entries acl.

Definition api_m {A} (text : string) (m : M W (result A string)) : M W (result A Anyhow) := r <- m ;; ret (api text r).

(** [PipeSecurity::authorize], after the handle is open. *)
Definition authorize_handle (self : PipeSecurity) (handle : Handle) (expected_pid : Z) (set_permissions : bool) :
    M W (result unit Anyhow) :=
  pid <-? api_m "query controller pipe server PID" (GetNamedPipeServerProcessId handle) ;;
  if negb (pid =? expected_pid)%Z
  then ret (Err ["controller pipe belongs to PID " +:+ fmt_u64 pid +:+ ", expected " +:+ fmt_u64 expected_pid])
  else
    desired <-? ret (plain (ConvertStringSecurityDescriptor (ps_sddl self))) ;;
    acl <-? ret (descriptor_dacl desired) ;;
    expected <-? ret (entries acl) ;;
    current <-? (r <- GetSecurityInfo handle ;; ret (plain r)) ;;
    if bool_decide (descriptor_entries current = Ok expected) then ret (Ok tt)
    else if negb set_permissions then ret (Err ["core did not apply the requested pipe permissions"])
    else
      _ <-? api_m "set controller pipe DACL" (SetSecurityInfo handle acl) ;;
      actual <-? (r <- GetSecurityInfo handle ;; ret (plain r)) ;;
      found <-? ret (descriptor_entries actual) ;;
      ret (if bool_decide (found = expected) then Ok tt else Err ["pipe DACL verification failed"]).

Definition PIPE_PREFIX : string := "\\.\pipe\".
Definition authorize_access (set_permissions : bool) : Z :=
  Z.lor (Z.lor READ_CONTROL FILE_READ_ATTRIBUTES) (if set_permissions then WRITE_DAC else 0).
Definition authorize (self : PipeSecurity) (path : OsPath) (expected_pid : Z) (set_permissions : bool) :
    M W (result unit Anyhow) :=
  match path with
  | PathBytes _ => ret (Err ["pipe path is not Unicode"])
  | PathText name =>
      if negb (starts_with PIPE_PREFIX name) then ret (Err ["expected a local named pipe"])
      else
        handle <-? api_m "open controller pipe for authorization" (CreateFileW name (authorize_access set_permissions)) ;;
        authorize_handle self handle expected_pid set_permissions
  end.

(** [WindowsControllerAccess]. *)
Definition windows_authorize (security : PipeSecurity) (host : Host) (pid : Z) (mode : ControllerAuthorization) :
    M W (result unit AccessError) :=
  match host with
  | NamedPipe path =>
      r <- authorize security (PathText path) pid (bool_decide (mode = ByHost)) ;;
      ret (res_map_err (λ e, access_other (default "" (head e))) r)
  | Http _ => ret (Ok ())
  | _ => ret (Err (access_other "unsupported controller transport"))
  end.
Definition WindowsControllerAccess (security : PipeSecurity) : ControllerAccess :=
  mkAccess true (Some (ps_sddl security)) (windows_authorize security).
End pipe.

(** * The list of users (utils/acl.rs) *)

Definition ACL_FILE_NAME : string := "acl.list".

Class AclFs (W : Type) := {
  acl_config_dir : OsPath;
  acl_exists : string → M W bool;
  acl_create : string → M W (result unit string);
  (** [set_file_acl_from_sddl] *)
  acl_protect : string → string → M W (result unit string);
  acl_open : string → M W (result unit string);
  acl_read : string → M W (result string string);
  (** open an existing file, truncated; write to it *)
  acl_truncate : string → M W (result unit string);
  acl_write : string → string → M W (result unit string);
}.

Section acl_file.
Context {WA : WinAcl} {W : Type} {AF : AclFs W}.

(** [get_acl_path]; [None] is the panic of [expect]. *)
Definition get_acl_path : option string :=
  match acl_config_dir with PathText d => Some (path_join d ACL_FILE_NAME) | PathBytes _ => None end.

Definition create_acl_file (acl_path : string) : M W (result unit Anyhow) :=
  found <- acl_exists acl_path ;;
  if (found : bool) then ret (Ok ())
  else
    sddl <-? ret (context "failed to generate sddl" (generate_windows_security_descriptor [] None None)) ;;
    _ <-? (r <- acl_create acl_path ;; ret (plain r)) ;;
    (r <- acl_protect acl_path sddl ;; ret (plain r)).

(** The lines that name a SID. *)
Definition acl_lines (s : string) : list string :=
  omap (λ line, let line := str_trim line in if starts_with "S-" line then Some line else None) (str_lines s).
Definition read_acl_file (acl_path : string) : M W (result (list string) Anyhow) :=
  found <- acl_exists acl_path ;;
  if (found : bool) then
    _ <-? (r <- acl_open acl_path ;; ret (api "failed to open acl file" r)) ;;
    s <-? (r <- acl_read acl_path ;; ret (api "failed to read acl file" r)) ;;
    ret (Ok (acl_lines s))
  else ret (Ok []).
Definition write_acl_file (acl_path : string) (users : list string) : M W (result unit Anyhow) :=
  _ <-? (r <- acl_truncate acl_path ;; ret (api "failed to open acl file" r)) ;;
  (r <- acl_write acl_path (join nl users) ;; ret (api "failed to write acl file" r)).

(** A [BTreeSet] of strings, in order. *)
Definition btree_set (l : list string) : list string := merge_sort String.le (remove_dups l).

(** The users of an installation: the list with the installing user added
    (cmds/install.rs). *)
Definition install_acl (acl_path user : string) : M W (result unit Anyhow) :=
  _ <-? create_acl_file acl_path ;;
  users <-? read_acl_file acl_path ;;
  write_acl_file acl_path (btree_set (user :: users)).
End acl_file.

(** * The process under the service control manager (win_service.rs) *)

Inductive ScmControl := ControlInterrogate | ControlStop | ControlPreshutdown | ControlOther.
Inductive ScmResult := ScmNoError | ScmNotImplemented.
(** The handler: its answer, and whether the shutdown token is cancelled. *)
Definition event_handler (e : ScmControl) : ScmResult * bool :=
  match e with
  | ControlInterrogate => (ScmNoError, false)
  | ControlStop | ControlPreshutdown => (ScmNoError, true)
  | ControlOther => (ScmNotImplemented, false)
  end.

Inductive ScmState := ScmRunning | ScmStopPending | ScmStopped.
Record ScmStatus := mkScmStatus {
  sc_state : ScmState;
  sc_accepts : list ScmControl;
  sc_checkpoint : Z;
  sc_wait_hint : Z;
  sc_process_id : option Z;
}.
Definition scm_running (pid : Z) : ScmStatus := mkScmStatus ScmRunning [ControlStop; ControlPreshutdown] 0 0 (Some pid).
(** [report_stop_pending]. *)
Definition stop_pending (pid checkpoint : Z) : ScmStatus := mkScmStatus ScmStopPending [] checkpoint 10 (Some pid).
(** The drop of [ServiceHandleGuard]. *)
Definition scm_stopped : ScmStatus := mkScmStatus ScmStopped [] 0 0 None.

Definition STOP_PENDING_TICK : Z := 2.
Definition STOP_PENDING_DEADLINE : Z := 90.

(** The service manager's side: the statuses set, the clock, and the thread of the
    server, which is finished from [wh_finish] on ([None]: never). *)
Record WinHost := mkWinHost {
  wh_statuses : list ScmStatus;
  wh_now : Z;
  wh_finish : option Z;
}.
Definition is_finished (w : WinHost) : bool := match wh_finish w with Some t => (t <=? wh_now w)%Z | None => false end.
Definition set_status (s : ScmStatus) (w : WinHost) : WinHost := mkWinHost (wh_statuses w ++ [s]) (wh_now w) (wh_finish w).

(** The loop over the server's thread; [late] is how much longer than a tick each
    sleep took, and a status that could not be set is only logged. *)
Fixpoint stop_loop (fuel : nat) (pid stop_started checkpoint : Z) (late : nat → Z) (w : WinHost) : option WinHost :=
  match fuel with
  | O => None
  | S fuel' =>
      if is_finished w then Some w
      else if (STOP_PENDING_DEADLINE <=? wh_now w - stop_started)%Z then Some w
      else
        let w := mkWinHost (wh_statuses w) (wh_now w + STOP_PENDING_TICK + late O) (wh_finish w) in
        let checkpoint := (checkpoint + 1)%Z in
        stop_loop fuel' pid stop_started checkpoint (λ k, late (S k)) (set_status (stop_pending pid checkpoint) w)
  end.

(** [handle.join()]: the wait for the thread; [None] when it never ends. *)
Definition join_thread (w : WinHost) : option WinHost :=
  t ← wh_finish w; Some (mkWinHost (wh_statuses w) (Z.max t (wh_now w)) (wh_finish w)).

(** [run_service] from the registered handler on, over the time the shutdown was
    asked for. *)
Definition STOP_FUEL : nat := 46.
Definition run_service (pid stop_at : Z) (late : nat → Z) (w : WinHost) : option WinHost :=
  let w := set_status (scm_running pid) w in
  let w := mkWinHost (wh_statuses w) (Z.max stop_at (wh_now w)) (wh_finish w) in
  let w := set_status (stop_pending pid 1) w in
  w ← stop_loop STOP_FUEL pid (wh_now w) 1 late w;
  w ← join_thread w;
  Some (set_status scm_stopped w).
