(* ===== verification/WindowsProps.v ===== *)
(** What the Windows part of the service guarantees: whom a descriptor lets in and
    that its list fits its buffer, what an authorized pipe is, that installations
    accumulate users, and what the service control manager is told. *)
From stdpp Require Import sorting strings.
From S2P Require Import Prelude Text Paths Metadata Types Capability Log Bridge TextLines Commands Access Windows.
From Stdlib Require Import ZArith Lia.

(** * Descriptors *)

(** The documentation of the calls: a SID has 8 to 68 bytes; a list of up to 65535
    bytes can be initialized, its size rounded down to a multiple of four; an entry
    that fits is appended; the parts of a descriptor are set independently. *)
Class WinAclLaws {WA : WinAcl} := {
  acl_free : Acl → Z;
  acl_aces : Acl → list (Z * Psid);
  sd_dacl : Descriptor → option (list (Z * Psid));
  sd_owner : Descriptor → option Psid;
  sd_group : Descriptor → option Psid;
  sid_length sid : (8 ≤ GetLengthSid sid ≤ 68)%Z;
  initialize_acl_ok n : (SIZEOF_ACL ≤ n ≤ 65535)%Z →
    ∃ a, InitializeAcl n = Ok a ∧ acl_aces a = [] ∧ (n - SIZEOF_ACL - 3 ≤ acl_free a)%Z;
  add_ace_ok a mask sid : (8 + GetLengthSid sid ≤ acl_free a)%Z →
    ∃ a', AddAccessAllowedAce a mask sid = Ok a' ∧ acl_aces a' = acl_aces a ++ [(mask, sid)]
      ∧ acl_free a' = (acl_free a - (8 + GetLengthSid sid))%Z;
  initialize_sd_ok : ∃ d, InitializeSecurityDescriptor = Ok d;
  set_dacl_ok a d : ∃ d', SetSecurityDescriptorDacl a d = Ok d' ∧ sd_dacl d' = Some (acl_aces a)
    ∧ sd_owner d' = sd_owner d ∧ sd_group d' = sd_group d;
  set_owner_ok s d : ∃ d', SetSecurityDescriptorOwner s d = Ok d' ∧ sd_owner d' = Some s
    ∧ sd_dacl d' = sd_dacl d ∧ sd_group d' = sd_group d;
  set_group_ok s d : ∃ d', SetSecurityDescriptorGroup s d = Ok d' ∧ sd_group d' = Some s
    ∧ sd_dacl d' = sd_dacl d ∧ sd_owner d' = sd_owner d;
}.

Section descriptors.
Context {WA : WinAcl} {WL : WinAclLaws}.

(** The bytes the entries of these SIDs need. *)
Definition needed (sids : list Psid) : Z := foldr (λ s n, (8 + GetLengthSid s + n)%Z) 0%Z sids.

Lemma acl_size_spec total sids : calculate_acl_size total sids = (total + needed sids + 256)%Z.
Proof.
  revert total. induction sids as [|s sids IH]; intros total; cbn; [lia|]. rewrite IH.
  unfold calculate_ace_size, SIZEOF_ACCESS_ALLOWED_ACE. unfold needed. lia.
Qed.

Lemma needed_bound sids : (0 ≤ needed sids ≤ 76 * Z.of_nat (length sids))%Z.
Proof.
  induction sids as [|s sids IH]; cbn [needed foldr length]; [lia|]. pose proof (sid_length s). fold (needed sids). lia.
Qed.

Lemma add_sids_fits acl psids :
  (needed psids.*1 ≤ acl_free acl)%Z →
  ∃ acl', add_sids_to_acl acl psids = Ok acl'
    ∧ acl_aces acl' = acl_aces acl ++ ((λ p, (default GENERIC_ALL p.2, p.1)) <$> psids).
Proof.
  revert acl. induction psids as [|[s p] psids IH]; intros acl Hfit; cbn [add_sids_to_acl].
  { exists acl. by rewrite app_nil_r. }
  cbn in Hfit. fold (needed psids.*1) in Hfit. pose proof (needed_bound psids.*1).
  destruct (add_ace_ok acl (default GENERIC_ALL p) s) as (a1 & -> & Ha & Hf); [lia|]. cbn.
  destruct (IH a1) as (a2 & -> & Ha2); [lia|]. exists a2. split; [done|]. by rewrite Ha2, Ha, <-app_assoc.
Qed.

Lemma convert_sids_ok l sids :
  Forall2 (λ p s, ConvertStringSidToSidW p.1 = Ok s) l sids → convert_sids l = Ok (zip sids l.*2).
Proof. induction 1 as [|[t p] s l sids Hs _ IH]; [done|]. cbn in *. by rewrite Hs, IH. Qed.

Lemma sid_or_ok text value d s t :
  ConvertStringSidToSidW d = Ok t → ConvertStringSidToSidW (default d value) = Ok s → sid_or text value t = Ok s.
Proof. intros Hd Hs. destruct value; cbn in *; [by rewrite Hs|congruence]. Qed.

(** whom a descriptor lets in.  For SIDs that exist, up to eight hundred of them,
    the descriptor is built: the computed size of the list is enough for every entry.
    It grants everything to the SIDs of the owner and of the group, by default the
    administrators and the system, to each listed SID the rights asked for or
    everything, and nothing to anyone else.  The descriptor's own owner is the SID
    of the group, and its group that of the owner: the two are passed the wrong way
    round. *)
Theorem descriptor_grants (l : list (string * option Z)) (owner group : option string) o g sids :
  res_is_ok (ConvertStringSidToSidW SYSTEM_SID) = true → res_is_ok (ConvertStringSidToSidW ADMINISTRATORS_GROUP_SID) = true →
  ConvertStringSidToSidW (default ADMINISTRATORS_GROUP_SID owner) = Ok o →
  ConvertStringSidToSidW (default SYSTEM_SID group) = Ok g →
  Forall2 (λ p s, ConvertStringSidToSidW p.1 = Ok s) l sids → (length l ≤ 800)%nat →
  ∃ d, build_descriptor l owner group = Ok d
    ∧ sd_dacl d = Some ((GENERIC_ALL, o) :: (GENERIC_ALL, g) :: zip_with (λ s p, (default GENERIC_ALL p, s)) sids l.*2)
    ∧ sd_owner d = Some g ∧ sd_group d = Some o.
Proof.
  intros Hsys Hadm Ho Hg Hl Hlen. unfold build_descriptor. destruct initialize_sd_ok as [d0 ->]. cbn [api res_map_err].
  destruct (ConvertStringSidToSidW SYSTEM_SID) as [sy|] eqn:Es; [|done].
  destruct (ConvertStringSidToSidW ADMINISTRATORS_GROUP_SID) as [ad|] eqn:Ea; [|done]. cbn [api res_map_err].
  rewrite (sid_or_ok _ _ _ _ _ Ea Ho), (sid_or_ok _ _ _ _ _ Es Hg), (convert_sids_ok _ _ Hl).
  set (psids := (o, None) :: (g, None) :: zip sids l.*2).
  assert (length psids.*1 ≤ 802)%nat as Hn.
  { unfold psids. cbn. rewrite fst_zip; [|rewrite length_fmap; by rewrite (Forall2_length _ _ _ Hl)].
    rewrite <-(Forall2_length _ _ _ Hl). lia. }
  pose proof (needed_bound psids.*1) as Hb. rewrite acl_size_spec. unfold SIZEOF_ACL.
  rewrite Z.mod_small by lia.
  destruct (initialize_acl_ok (8 + needed psids.*1 + 256 + 256)) as (a0 & -> & Ha0 & Hf0); [unfold SIZEOF_ACL; lia|].
  unfold SIZEOF_ACL in Hf0. cbn [api res_map_err].
  destruct (add_sids_fits a0 psids) as (a1 & -> & Ha1); [lia|]. cbn [context res_map_err].
  destruct (set_dacl_ok a1 d0) as (d1 & -> & Hd1 & _). cbn [api res_map_err]. unfold set_owner_and_group.
  destruct (set_owner_ok g d1) as (d2 & -> & Ho2 & Hd2 & _). cbn [api res_map_err].
  destruct (set_group_ok o d2) as (d3 & -> & Hg3 & Hd3 & Ho3). exists d3. split; [done|].
  rewrite Hd3, Hd2, Hd1, Ha1, Ha0, Ho3, Ho2, Hg3. split_and!; [|done..]. unfold psids. cbn. do 3 f_equal.
  clear. generalize l.*2. induction sids as [|s sids IH]; intros [|p ps]; [done..|]. cbn. by rewrite IH.
Qed.
End descriptors.

(** * Authorized pipes *)

(** The order of the entries. *)
#[export] Instance entry_le_total : Total entry_le.
Proof.
  intros [[s m] f] [[t n] g]. unfold entry_le. destruct (decide (s = t)) as [->|Hne].
  - destruct (Z.lt_trichotomy m n) as [|[->|]]; [left|destruct (Z.le_ge_cases f g)|right]; auto 6 with lia.
  - destruct (total String.le s t); [left|right]; left; split; auto.
Qed.
#[export] Instance entry_le_trans : Transitive entry_le.
Proof.
  intros [[s m] f] [[t n] g] [[u o] h]. unfold entry_le.
  intros [[Hst Ht]|[-> Ht]] [[Htu Hu]|[-> Hu]]; [|by left|by left|right; split; [done|lia]].
  left. split; [|by transitivity t]. intros ->. apply Hst. by apply (anti_symm String.le).
Qed.
#[export] Instance entry_le_antisymm : AntiSymm (=) entry_le.
Proof.
  intros [[s m] f] [[t n] g]. unfold entry_le.
  intros [[Hst Ht]|[-> Ht]] [[Hts Hs]|[? Hs]]; [|congruence|congruence|].
  - destruct Hst. by apply (anti_symm String.le).
  - assert (m = n) by lia. assert (f = g) by lia. by subst.
Qed.

Lemma elem_of_dedup_entries x l : x ∈ dedup_entries l ↔ x ∈ l.
Proof.
  induction l as [|y l IH]; [done|]. destruct l as [|z l]; [done|]. cbn [dedup_entries].
  destruct (decide (y = z)) as [->|]; rewrite ?elem_of_cons in *; rewrite IH, ?elem_of_cons; tauto.
Qed.

Lemma dedup_entries_cons x y l :
  dedup_entries (x :: y :: l) = if decide (x = y) then dedup_entries (y :: l) else x :: dedup_entries (y :: l).
Proof. done. Qed.

(** Sorted without repetitions. *)
Definition entry_lt (x y : PipeEntry) : Prop := entry_le x y ∧ x ≠ y.
Lemma dedup_strict l : StronglySorted entry_le l → StronglySorted entry_lt (dedup_entries l).
Proof.
  induction 1 as [|x l Hl IH Hx]; [constructor|]. destruct l as [|y l]; [by repeat constructor|].
  rewrite dedup_entries_cons. destruct (decide (x = y)) as [->|Hne]; [exact IH|]. constructor; [exact IH|].
  rewrite Forall_forall in Hx. apply Forall_forall. intros z Hz. rewrite elem_of_dedup_entries in Hz. split; [by apply Hx|].
  intros <-. apply Hne. inversion Hl as [|? ? _ Hy]; subst. assert (entry_le x y) as Hxy by (apply Hx; left).
  apply elem_of_cons in Hz as [->|Hz]; [done|]. rewrite Forall_forall in Hy.
  apply (anti_symm entry_le); [done|]. by apply Hy.
Qed.

Lemma strict_unique l k :
  StronglySorted entry_lt l → StronglySorted entry_lt k → (∀ x, x ∈ l ↔ x ∈ k) → l = k.
Proof.
  intros Hl. revert k. induction Hl as [|x l Hl IH Hx]; intros k Hk Heq.
  { destruct k as [|y k]; [done|]. assert (y ∈ []) as []%elem_of_nil by (apply Heq; left). }
  destruct Hk as [|y k Hk Hy]; [by assert (x ∈ []) as []%elem_of_nil by (apply Heq; left)|].
  rewrite Forall_forall in Hx, Hy. assert (x = y) as ->.
  { assert (x ∈ y :: k) as [->|Hxk]%elem_of_cons by (apply Heq; left); [done|].
    assert (y ∈ x :: l) as [->|Hyl]%elem_of_cons by (apply Heq; left); [done|].
    apply (anti_symm entry_le); [by apply Hx|by apply Hy]. }
  f_equal. apply IH; [done|]. intros z. specialize (Heq z). rewrite !elem_of_cons in Heq.
  split; intros Hz.
  - destruct (proj1 Heq (or_intror Hz)) as [->|]; [|done]. by destruct (Hx y Hz).
  - destruct (proj2 Heq (or_intror Hz)) as [->|]; [|done]. by destruct (Hy y Hz).
Qed.

Section pipes.
Context {W : Type} {WP : WinPipe W}.

Lemma entries_ok acl x : collect_entries acl = Ok x → ∃ l, entries acl = Ok l ∧ StronglySorted entry_lt l ∧ ∀ e, e ∈ l ↔ e ∈ x.
Proof.
  intros E. unfold entries. rewrite E. eexists. split; [done|]. split.
  - apply dedup_strict, (StronglySorted_merge_sort entry_le).
  - intros e. by rewrite elem_of_dedup_entries, merge_sort_Permutation.
Qed.

(** two lists of a pipe are compared by what they allow: the order of their
    entries, repetitions and the spelling of generic rights do not matter, and any
    other difference does. *)
Theorem entries_compare_meaning acl acl' x y :
  collect_entries acl = Ok x → collect_entries acl' = Ok y → (entries acl = entries acl' ↔ ∀ e, e ∈ x ↔ e ∈ y).
Proof.
  intros (l & -> & Hl & Hlx)%entries_ok (k & -> & Hk & Hky)%entries_ok. split.
  - intros [= ->] e. by rewrite <-Hlx, Hky.
  - intros Heq. f_equal. apply strict_unique; [done..|]. intros e. by rewrite Hlx, Hky.
Qed.

(** What authorizing relies on: only [SetSecurityInfo] changes the lists of pipes,
    [GetSecurityInfo] reports the list of its pipe, and a handle stays with the
    process that served the pipe when it was opened. *)
Class WinPipeLaws := {
  pipe_dacl : W → Handle → result (option (list (result Ace string))) string;
  pipe_server : Handle → Z;
  create_file_keeps name access w h : pipe_dacl (CreateFileW name access w).2 h = pipe_dacl w h;
  server_id_keeps h' w h : pipe_dacl (GetNamedPipeServerProcessId h' w).2 h = pipe_dacl w h;
  server_id_sees h w pid : (GetNamedPipeServerProcessId h w).1 = Ok pid → pid = pipe_server h;
  security_info_keeps h' w h : pipe_dacl (GetSecurityInfo h' w).2 h = pipe_dacl w h;
  security_info_sees h w d : (GetSecurityInfo h w).1 = Ok d → GetSecurityDescriptorDacl d = pipe_dacl w h;
}.
Context {PL : WinPipeLaws}.

(** The entries of a list, and those of a policy. *)
Definition dacl_entries (dacl : result (option (list (result Ace string))) string) : result (list PipeEntry) Anyhow :=
  let? acl := plain dacl in
  match acl with Some acl => entries acl | None => Err ["pipe has an absent or NULL DACL"] end.
Definition policy_entries (self : PipeSecurity) : result (list PipeEntry) Anyhow :=
  let? desired := plain (ConvertStringSecurityDescriptor (ps_sddl self)) in descriptor_entries desired.

Lemma descriptor_entries_dacl d : descriptor_entries d = dacl_entries (GetSecurityDescriptorDacl d).
Proof.
  unfold descriptor_entries, dacl_entries, descriptor_dacl. by destruct (GetSecurityDescriptorDacl d) as [[acl|]|e].
Qed.

(** Reading the list of a pipe. *)
Lemma read_info h w r w1 :
  GetSecurityInfo h w = (r, w1) →
  (∀ h', pipe_dacl w1 h' = pipe_dacl w h') ∧ ∀ d, r = Ok d → descriptor_entries d = dacl_entries (pipe_dacl w1 h).
Proof.
  intros E. pose proof (λ h', security_info_keeps h w h') as Hk. pose proof (security_info_sees h w) as Hs.
  rewrite E in Hk, Hs. cbn in Hk, Hs. split; [done|]. intros d ->. by rewrite descriptor_entries_dacl, (Hs d eq_refl), Hk.
Qed.

Lemma authorize_handle_spec self h pid set w r w' :
  authorize_handle self h pid set w = (r, w') →
  (r = Ok tt → pipe_server h = pid ∧ ∃ expected, policy_entries self = Ok expected ∧ dacl_entries (pipe_dacl w' h) = Ok expected)
  ∧ ((∃ h', pipe_dacl w' h' ≠ pipe_dacl w h') → set = true ∧ pipe_server h = pid).
Proof.
  unfold authorize_handle, api_m, bind_ok, bind, ret.
  pose proof (λ h', server_id_keeps h w h') as Hk. pose proof (server_id_sees h w) as Hs.
  destruct (GetNamedPipeServerProcessId h w) as [[p|e] w1]; cbn in Hk, Hs |- *;
    [|intros [= <- <-]; split; [done|by intros [h' []]]].
  specialize (Hs p eq_refl) as ->. destruct (Z.eqb_spec (pipe_server h) pid) as [Hp|Hp]; cbn [negb];
    [|intros [= <- <-]; split; [done|by intros [h' []]]].
  unfold policy_entries, descriptor_entries.
  destruct (ConvertStringSecurityDescriptor (ps_sddl self)) as [desired|e]; cbn [plain res_map_err];
    [|intros [= <- <-]; split; [done|by intros [h' []]]].
  destruct (descriptor_dacl desired) as [acl|e]; [|intros [= <- <-]; split; [done|by intros [h' []]]].
  destruct (entries acl) as [expected|e]; [|intros [= <- <-]; split; [done|by intros [h' []]]].
  destruct (GetSecurityInfo h w1) as [current w2] eqn:Ec. apply read_info in Ec as [Hk2 Hs2].
  destruct current as [d|e]; cbn [plain res_map_err]; [|intros [= <- <-]; split; [done|intros [h' []]; by rewrite Hk2]].
  specialize (Hs2 d eq_refl). fold (descriptor_entries d). case_bool_decide as Hd.
  { intros [= <- <-]. split; [intros _; split; [done|exists expected; by rewrite <-Hs2]|].
    intros [h' []]. by rewrite Hk2. }
  destruct set; cbn [negb]; [|intros [= <- <-]; split; [done|intros [h' []]; by rewrite Hk2]].
  destruct (SetSecurityInfo h acl w2) as [[[]|e] w3]; cbn [api res_map_err]; [|by intros [= <- <-]].
  destruct (GetSecurityInfo h w3) as [actual w4] eqn:Ea. apply read_info in Ea as [Hk4 Hs4].
  destruct actual as [d'|e]; cbn [plain res_map_err]; [|by intros [= <- <-]].
  specialize (Hs4 d' eq_refl). fold (descriptor_entries d'). destruct (descriptor_entries d') as [found|e]; [|by intros [= <- <-]].
  case_bool_decide as Hf; intros [= <- <-]; [|done]. subst found. split; [|done]. intros _. split; [done|].
  exists expected. by rewrite <-Hs4.
Qed.

End pipes.

(** * The list of users *)

(** The text of a SID: it begins like one and is visible ASCII. *)
Definition sid_text (s : string) : bool := starts_with "S-" s && string_forallb visible s.

Lemma acl_lines_written l : Forall (λ s, sid_text s = true) l → acl_lines (join nl l) = l.
Proof.
  intros Hl. assert (Forall line_text l) as Hlines.
  { eapply Forall_impl; [exact Hl|]. intros s [Hs Hv]%andb_true_iff. split; [by apply visible_printable|by intros ->]. }
  unfold acl_lines. rewrite lines_joined by done. clear Hlines.
  induction Hl as [|s l [Hp Hv]%andb_true_iff _ IH]; [done|]. cbn. rewrite trim_visible, Hp by done. by rewrite IH.
Qed.

Section users.
Context {WA : WinAcl} {W : Type} {AF : AclFs W}.

(** The file of the list: what is there is seen and read, what was created is empty
    and what was written is there; protecting and opening change nothing. *)
Class AclFsLaws := {
  acl_file : W → string → option string;
  acl_exists_ok p w : (acl_exists p w).1 = bool_decide (is_Some (acl_file w p)) ∧ (acl_exists p w).2 = w;
  acl_create_ok p w u w' : acl_create p w = (Ok u, w') → acl_file w' p = Some "";
  acl_protect_ok p s w u w' : acl_protect p s w = (Ok u, w') → acl_file w' p = acl_file w p;
  acl_open_ok p w u w' : acl_open p w = (Ok u, w') → acl_file w' p = acl_file w p;
  acl_read_ok p w s w' : acl_read p w = (Ok s, w') → acl_file w p = Some s ∧ acl_file w' p = acl_file w p;
  acl_write_ok p s w u w' : acl_write p s w = (Ok u, w') → acl_file w' p = Some s;
}.
Context {AL : AclFsLaws}.

(** The users of a list. *)
Definition acl_users (w : W) (p : string) : list string := from_option acl_lines [] (acl_file w p).

Lemma acl_lift_ok {A} (m : M W (result A string)) (f : string → Anyhow) w a w' :
  (r <- m ;; ret (res_map_err f r)) w = (Ok a, w') → m w = (Ok a, w').
Proof. unfold bind, ret. destruct (m w) as [[x|e] w1]; [by intros [= -> ->]|done]. Qed.

Lemma create_acl_file_users p w u w' : create_acl_file p w = (Ok u, w') → acl_users w' p = acl_users w p.
Proof.
  unfold create_acl_file, bind at 1. destruct (acl_exists_ok p w) as [Hx Hw].
  destruct (acl_exists p w) as [x w0]. cbn in Hx, Hw. subst x w0. unfold acl_users. case_bool_decide as Hf.
  { by intros [= _ ->]. }
  intros (sddl & w1 & E1 & E)%bind_ok_Ok. injection E1 as _ <-. apply bind_ok_Ok in E as ([] & w2 & E2 & E3).
  apply acl_lift_ok, acl_create_ok in E2. apply acl_lift_ok, acl_protect_ok in E3. rewrite E3, E2.
  destruct (acl_file w p); [by destruct Hf; eexists|done].
Qed.

Lemma read_acl_file_users p w l w' : read_acl_file p w = (Ok l, w') → l = acl_users w p.
Proof.
  unfold read_acl_file, bind at 1. destruct (acl_exists_ok p w) as [Hx Hw].
  destruct (acl_exists p w) as [x w0]. cbn in Hx, Hw. subst x w0. unfold acl_users. case_bool_decide as Hf.
  - intros ([] & w1 & E1 & E)%bind_ok_Ok. apply bind_ok_Ok in E as (s & w2 & E2 & [= <- _]).
    apply acl_lift_ok, acl_open_ok in E1. apply acl_lift_ok, acl_read_ok in E2 as [E2 _]. by rewrite <-E1, E2.
  - intros [= <- _]. destruct (acl_file w p); [by destruct Hf; eexists|done].
Qed.

(** installations accumulate users.  After an installation the list of users,
    as the server reads it, is the sorted list of those that were on it and the
    installing one; none is lost and none is added, and a list that does not exist
    yet counts as empty. *)
Theorem install_adds_user (p user : string) (w w' : W) u :
  sid_text user = true → Forall (λ s, sid_text s = true) (acl_users w p) →
  install_acl p user w = (Ok u, w') →
  acl_users w' p = btree_set (user :: acl_users w p)
  ∧ NoDup (acl_users w' p) ∧ ∀ s, s ∈ acl_users w' p ↔ s = user ∨ s ∈ acl_users w p.
Proof.
  intros Hu Hl ([] & w1 & E1 & E)%bind_ok_Ok. apply bind_ok_Ok in E as (l & w2 & E2 & E).
  apply create_acl_file_users in E1. apply read_acl_file_users in E2. rewrite E1 in E2. subst l.
  apply bind_ok_Ok in E as ([] & w3 & _ & E). apply acl_lift_ok, acl_write_ok in E.
  assert (∀ s, s ∈ btree_set (user :: acl_users w p) ↔ s = user ∨ s ∈ acl_users w p) as Hmem.
  { intros s. unfold btree_set. by rewrite merge_sort_Permutation, elem_of_remove_dups, elem_of_cons. }
  assert (acl_users w' p = btree_set (user :: acl_users w p)) as Heq.
  { unfold acl_users at 1. rewrite E. cbn. apply acl_lines_written, Forall_forall. intros s Hs.
    apply Hmem in Hs as [->|Hs]; [done|]. rewrite Forall_forall in Hl. by apply Hl. }
  rewrite Heq. split_and!; [done| |done]. unfold btree_set. rewrite merge_sort_Permutation. apply NoDup_remove_dups.
Qed.
End users.

(** * The service control manager *)
Lemma stop_loop_reports fuel pid t0 c late w :
  (∀ k, (0 ≤ late k)%Z) → (STOP_PENDING_DEADLINE - (wh_now w - t0) ≤ STOP_PENDING_TICK * Z.of_nat fuel)%Z →
  ∃ n w', stop_loop (S fuel) pid t0 c late w = Some w' ∧ (n ≤ fuel)%nat
    ∧ wh_statuses w' = wh_statuses w ++ (stop_pending pid <$> seqZ (c + 1) (Z.of_nat n)) ∧ wh_finish w' = wh_finish w
    ∧ (wh_now w ≤ wh_now w')%Z ∧ (is_finished w' = true ∨ STOP_PENDING_DEADLINE ≤ wh_now w' - t0)%Z.
Proof.
  unfold STOP_PENDING_DEADLINE, STOP_PENDING_TICK.
  revert c late w. induction fuel as [|fuel IH]; intros c late w Hlate Hfuel; cbn [stop_loop];
    unfold STOP_PENDING_DEADLINE, STOP_PENDING_TICK in *;
    (destruct (is_finished w) eqn:Ef; [exists O, w; rewrite app_nil_r; split_and!; auto with lia|]);
    (destruct (Z.leb_spec 90 (wh_now w - t0)); [exists O, w; rewrite app_nil_r; split_and!; auto with lia|]); [lia|].
  specialize (Hlate O) as Hl0.
  destruct (IH (c + 1)%Z (λ k, late (S k))
    (set_status (stop_pending pid (c + 1)) (mkWinHost (wh_statuses w) (wh_now w + 2 + late O) (wh_finish w)))) as
    (n & w' & E & Hn & Hs & Hf & Hnow & Hend); [auto|cbn; lia|].
  exists (S n), w'. split; [exact E|]. split; [lia|]. cbn in Hs, Hf, Hnow. split_and!; [|done|lia|done].
  rewrite Hs, <-app_assoc, (seqZ_cons (c + 1)) by lia. cbn. by replace (Z.pred (Z.of_nat (S n))) with (Z.of_nat n) by lia.
Qed.

(** what the service control manager is told.  The service reports that it runs,
    and once it is asked to stop, that the stop is pending, with checkpoints counted
    up from one, at most forty-six of them: after ninety seconds it falls silent, so
    that a hung shutdown can be detected; before that it falls silent only when the
    server is finished.  It reports that it stopped exactly when the server's thread
    has ended, however long that takes, and never if it does not end. *)
Theorem run_service_reports (pid stop_at : Z) (late : nat → Z) (w : WinHost) :
  (∀ k, (0 ≤ late k)%Z) →
  match wh_finish w with
  | Some t =>
      let start := Z.max stop_at (wh_now w) in
      ∃ n quiet_at w', run_service pid stop_at late w = Some w' ∧ (n ≤ 45)%nat
        ∧ wh_statuses w' = wh_statuses w ++ scm_running pid :: (stop_pending pid <$> seqZ 1 (1 + Z.of_nat n)) ++ [scm_stopped]
        ∧ (start ≤ quiet_at)%Z ∧ (t ≤ quiet_at ∨ STOP_PENDING_DEADLINE ≤ quiet_at - start)%Z ∧ wh_now w' = Z.max t quiet_at
  | None => run_service pid stop_at late w = None
  end.
Proof.
  intros Hlate. unfold run_service.
  set (w1 := set_status (stop_pending pid 1) _).
  destruct (stop_loop_reports 45 pid (wh_now w1) 1 late w1 Hlate) as (n & w' & E & Hn & Hs & Hf & Hnow & Hend);
    [unfold STOP_PENDING_DEADLINE, STOP_PENDING_TICK; lia|].
  change STOP_FUEL with 46%nat. rewrite E. cbn [mbind option_bind]. unfold join_thread. rewrite Hf. subst w1. cbn in Hs, Hf, Hnow, Hend |- *.
  destruct (wh_finish w) as [t|]; [|done]. exists n, (wh_now w'). eexists. split; [reflexivity|]. split; [done|]. cbn. split_and!; [|lia| |done].
  - rewrite Hs, <-!app_assoc, (seqZ_cons 1) by lia. cbn. by replace (Z.pred (1 + Z.of_nat n)) with (Z.of_nat n) by lia.
  - unfold is_finished in Hend. rewrite Hf, Z.leb_le in Hend. exact Hend.
Qed.

(** * A host on which the laws hold *)
Module demo_windows.
(** SIDs are their text, 28 bytes each; a list is the bytes left and its entries. *)
Record Sd := mkSd { toy_dacl : option (list (Z * string)); toy_owner : option string; toy_group : option string }.
#[export] Instance toy_acl : WinAcl := {|
  Psid := string;
  Acl := Z * list (Z * string);
  Descriptor := Sd;
  ConvertStringSidToSidW s := if starts_with "S-" s then Ok s else Err "invalid SID";
  GetLengthSid _ := 28%Z;
  InitializeAcl n := if (n <=? 65535)%Z then Ok (n - 8, [])%Z else Err "invalid parameter";
  AddAccessAllowedAce a mask sid :=
    if (36 <=? a.1)%Z then Ok ((a.1 - 36)%Z, a.2 ++ [(mask, sid)]) else Err "too small";
  InitializeSecurityDescriptor := Ok (mkSd None None None);
  SetSecurityDescriptorDacl a d := Ok (mkSd (Some a.2) (toy_owner d) (toy_group d));
  SetSecurityDescriptorOwner s d := Ok (mkSd (toy_dacl d) (Some s) (toy_group d));
  SetSecurityDescriptorGroup s d := Ok (mkSd (toy_dacl d) (toy_owner d) (Some s));
  ConvertSecurityDescriptorToString d := Ok (Ok "D:(A;;GA;;;BA)");
|}.
#[export] Instance toy_acl_laws : WinAclLaws.
Proof.
  refine {| acl_free a := (a.1 : Z); acl_aces a := (a.2 : list (Z * Psid)); sd_dacl := toy_dacl; sd_owner := toy_owner; sd_group := toy_group |};
    cbn; intros; unfold SIZEOF_ACL in *; try (by eexists); try lia.
  - destruct (Z.leb_spec n 65535); [|lia]. eexists. split; [done|]. cbn. split; [done|lia].
  - destruct (Z.leb_spec 36 a.1); [|lia]. eexists. by split_and!.
Defined.

(** One pipe, served by process 7. *)
#[export] Instance toy_pipe : WinPipe (list (result Ace string)) := {|
  Handle := unit;
  PipeDescriptor := list (result Ace string);
  CreateFileW _ _ w := (Ok tt, w);
  GetNamedPipeServerProcessId _ w := (Ok 7%Z, w);
  ConvertStringSecurityDescriptor s := Ok [Ok (mkAce 0 0 GENERIC_ALL (Ok SYSTEM_SID))];
  GetSecurityInfo _ w := (Ok w, w);
  GetSecurityDescriptorDacl d := Ok (Some d);
  SetSecurityInfo _ acl _ := (Ok tt, acl);
  MapGenericMask m := if (m =? GENERIC_ALL)%Z then 2032127%Z else m;
|}.
#[export] Instance toy_pipe_laws : WinPipeLaws.
Proof.
  refine {| pipe_dacl w (_ : Handle) := Ok (Some w); pipe_server _ := 7%Z |}; cbn; intros; by simplify_eq.
Defined.

#[export] Instance toy_acl_fs : AclFs (gmap string string) := {|
  acl_config_dir := PathText "/config";
  acl_exists p w := (bool_decide (is_Some (w !! p)), w);
  acl_create p w := (Ok tt, <[p:=""]> w);
  acl_protect _ _ w := (Ok tt, w);
  acl_open _ w := (Ok tt, w);
  acl_read p w := (match w !! p with Some s => Ok s | None => Err "not found" end, w);
  acl_truncate p w := (Ok tt, <[p:=""]> w);
  acl_write p s w := (Ok tt, <[p:=s]> w);
|}.
#[export] Instance toy_acl_fs_laws : AclFsLaws.
Proof.
  refine {| acl_file (w : gmap string string) p := w !! p |}; cbn; intros; simplify_eq; rewrite ?lookup_insert_eq; try done.
  by case_match; simplify_eq.
Defined.

Definition everyone : list (result Ace string) := [Ok (mkAce 0 0 1179785 (Ok EVERYONE_SID))].
Definition policy : PipeSecurity := mkPipeSecurity "D:P(A;;FA;;;SY)".
End demo_windows.
Import demo_windows.

Lemma descriptor_grants_witness :
  ∃ d, build_descriptor (WA:=toy_acl) [("S-1-5-21-1", None)] None None = Ok d
    ∧ toy_dacl d = Some [(GENERIC_ALL, ADMINISTRATORS_GROUP_SID); (GENERIC_ALL, SYSTEM_SID); (GENERIC_ALL, "S-1-5-21-1")]
    ∧ toy_owner d = Some SYSTEM_SID ∧ toy_group d = Some ADMINISTRATORS_GROUP_SID.
Proof.
  apply (descriptor_grants (WA:=toy_acl) (WL:=toy_acl_laws) [("S-1-5-21-1", None)] None None ADMINISTRATORS_GROUP_SID SYSTEM_SID ["S-1-5-21-1"]);
    [reflexivity..|repeat constructor|cbn; lia].
Defined.

(** The default owner of a descriptor is the system and its group the
    administrators, the opposite of what the parameters say. *)
Lemma owner_and_group_swapped :
  ∃ d, build_descriptor (WA:=toy_acl) [] (Some EVERYONE_SID) (Some AUTHENTICATED_USER_SID) = Ok d
    ∧ toy_owner d = Some AUTHENTICATED_USER_SID ∧ toy_group d = Some EVERYONE_SID.
Proof. eexists. split; [vm_compute; reflexivity|]. by split. Qed.

Lemma entries_compare_meaning_witness :
  entries (W:=list (result Ace string)) [Ok (mkAce 0 0 GENERIC_ALL (Ok SYSTEM_SID)); Ok (mkAce 0 0 1 (Ok EVERYONE_SID))]
  = entries [Ok (mkAce 0 0 1 (Ok EVERYONE_SID)); Ok (mkAce 0 0 2032127 (Ok SYSTEM_SID)); Ok (mkAce 0 0 1 (Ok EVERYONE_SID))].
Proof.
  eapply entries_compare_meaning; [reflexivity..|]. intros e. rewrite !elem_of_cons, elem_of_nil. cbn. tauto.
Defined.


Lemma install_adds_user_witness :
  ∃ w', install_acl "/acl.list" "S-1-5-21-9" ({[ "/acl.list" := "S-1-5-21-10" ]} : gmap string string) = (Ok tt, w')
    ∧ acl_users w' "/acl.list" = ["S-1-5-21-10"; "S-1-5-21-9"].
Proof.
  eexists. split; [vm_compute; reflexivity|].
  etransitivity; [eapply (install_adds_user "/acl.list" "S-1-5-21-9" {[ "/acl.list" := "S-1-5-21-10" ]});
                  [vm_compute; reflexivity|vm_compute; by repeat constructor|vm_compute; reflexivity]|].
  vm_compute. reflexivity.
Defined.

Lemma run_service_reports_witness :
  ∃ n quiet_at w', run_service 40 100 (λ _, 0%Z) (mkWinHost [] 0 (Some 103%Z)) = Some w' ∧ (n ≤ 45)%nat
    ∧ wh_statuses w' = [] ++ scm_running 40 :: (stop_pending 40 <$> seqZ 1 (1 + Z.of_nat n)) ++ [scm_stopped]
    ∧ (100 ≤ quiet_at)%Z ∧ (103 ≤ quiet_at ∨ 90 ≤ quiet_at - 100)%Z ∧ wh_now w' = Z.max 103 quiet_at.
Proof. apply (run_service_reports 40 100 (λ _, 0%Z) (mkWinHost [] 0 (Some 103%Z))). intros. lia. Defined.
