(* ===== verification/MacDns.v ===== *)
(** The DNS override of macOS (nyanpasu-core-manager dns.rs, module macos): the
    controller that owns one key of the dynamic store, reads it back with [scutil]
    and lets every change be confirmed by a reading.

    [scutil] is an operation; what it does to the store is [ScutilLaws]. *)
From S2P Require Import Prelude Text Metadata Types Yaml Diff Mihomo Config Capability RuntimeStore Runtime Log TextLines.
From Stdlib Require Import ZArith Lia Ascii.

(** A run of [scutil] on a script: whether it succeeded, its output and its errors. *)
Class Scutil (W : Type) := { scutil_process : string → M W (result (bool * string * string) string) }.

Inductive DnsError := DnsCommand (text : string) | DnsIo (text : string).

Record MacosDnsController := mkMacDns { md_store_key : string }.

Section macos.
Context {YF : YamlFloat} {W : Type} {SC : Scutil W}.
(** How a reading is displayed in an error. *)
Context (debug : option (list string) → string).

(** [scutil]. *)
Definition scutil (script : string) : M W (result string DnsError) :=
  r <- scutil_process script ;;
  ret match r with
      | Err e => Err (DnsIo e)
      | Ok (true, stdout, _) => Ok stdout
      | Ok (false, _, stderr) => Err (DnsCommand stderr)
      end.

(** The address of a line, if its key is a number. *)
Definition server_of (line : string) : option string :=
  '(key, value) ← split_once ":" (str_trim line);
  if string_forallb is_dec_digit (str_trim key) then Some (str_trim value) else None.

Definition show_script (self : MacosDnsController) : string := "show " +:+ md_store_key self +:+ nl.
Definition set_script (self : MacosDnsController) (servers : list string) : string :=
  "d.init" +:+ nl +:+ "d.add ServerAddresses * " +:+ join " " servers +:+ nl +:+ "set " +:+ md_store_key self +:+ nl.
Definition remove_script (self : MacosDnsController) : string := "remove " +:+ md_store_key self +:+ nl.

(** [read_back]. *)
Definition read_back (self : MacosDnsController) : M W (result (option (list string)) DnsError) :=
  output <-? scutil (show_script self) ;;
  ret (Ok (if contains "No such key" output then None else Some (omap server_of (str_lines output)))).

(** [desired]. *)
Definition desired (effective : Mapping) : option DnsIntent :=
  dns ← map_get effective "dns" ≫= as_mapping;
  enable ← map_get dns "enable" ≫= as_bool;
  if negb enable then None
  else
    listen ← map_get dns "listen" ≫= as_str;
    '(_, port) ← rsplit_once ":"%char listen;
    if String.eqb port "53" then Some (mkIntent ["127.0.0.1"]) else None.

(** [apply]. *)
Definition apply (self : MacosDnsController) (intent : DnsIntent) (runtime_epoch : Epoch) :
    M W (result DnsOverrideRecord DnsError) :=
  previous <-? read_back self ;;
  _ <-? scutil (set_script self (di_servers intent)) ;;
  observed <-? read_back self ;;
  ret (if bool_decide (observed = Some (di_servers intent))
       then Ok (mkDnsRecord (md_store_key self) (default [] previous) (di_servers intent) runtime_epoch None DApplied)
       else Err (DnsCommand ("read-back mismatch after apply: " +:+ debug observed))).

(** [restore]. *)
Definition restore (self : MacosDnsController) (record : DnsOverrideRecord) : M W (result unit DnsError) :=
  _ <-? scutil (remove_script self) ;;
  observed <-? read_back self ;;
  ret (if bool_decide (is_Some observed)
       then Err (DnsCommand "read-back still shows the override after restore") else Ok tt).

(** * What a confirmed change means *)

(** How [scutil] shows a key with these addresses. *)
Definition shown_entry (i : nat) (a : string) : string := spaces 4 (fmt_u64 (Z.of_nat i) +:+ " : " +:+ a).
Definition shown (servers : list string) : string :=
  terminated (["<dictionary> {"; "  ServerAddresses : <array> {"] ++ imap shown_entry servers ++ ["  }"; "}"]).

(** The documented behaviour of [scutil] on the scripts of a controller and an
    intent: a key that is not there is reported so, one that is there is shown,
    showing changes nothing, and a script that succeeded set or removed its key. *)
Context (self : MacosDnsController) (intent : DnsIntent).
Class ScutilLaws := {
  store_key : W → string → option (list string);
  show_keeps w k : store_key (scutil_process (show_script self) w).2 k = store_key w k;
  show_sees w out err : (scutil_process (show_script self) w).1 = Ok (true, out, err) →
    match store_key w (md_store_key self) with
    | None => contains "No such key" out = true
    | Some l => out = shown l
    end;
  set_stores w out err w' : scutil_process (set_script self (di_servers intent)) w = (Ok (true, out, err), w') →
    ∀ k, store_key w' k = if decide (k = md_store_key self) then Some (di_servers intent) else store_key w k;
  remove_clears w out err w' : scutil_process (remove_script self) w = (Ok (true, out, err), w') →
    ∀ k, store_key w' k = if decide (k = md_store_key self) then None else store_key w k;
}.

(** The text of an address: visible, and without the capital letter that begins the
    report of a missing key. *)
Definition address_char (c : ascii) : bool := visible c && negb (Ascii.eqb "N"%char c).
Definition address (a : string) : bool := string_forallb address_char a && negb (String.eqb a "").

Lemma address_spec a :
  address a = true → string_forallb visible a = true ∧ string_forallb (λ c, negb (Ascii.eqb "N"%char c)) a = true ∧ a ≠ "".
Proof.
  intros [Ha He]%andb_true_iff. split_and!; [| |by intros ->];
    (eapply string_forallb_impl; [|exact Ha]); by intros c [? ?]%andb_true_iff.
Qed.

Lemma digits_visible d : string_forallb is_dec_digit d = true → string_forallb visible d = true.
Proof. apply string_forallb_impl. intros [[] [] [] [] [] [] [] []]; done. Qed.

Lemma server_of_entry i a : address a = true → server_of (shown_entry i a) = Some a.
Proof.
  intros (Hv & _ & Hne)%address_spec. unfold server_of, shown_entry. set (d := fmt_u64 (Z.of_nat i)).
  assert (string_forallb is_dec_digit d = true) as Hd by (apply fmt_u64_digits; lia).
  pose proof (digits_visible d Hd) as Hdv. assert (d ≠ "") as Hdn by apply fmt_u64_nonempty.
  assert (ends_visible a = true) as Hea by (by apply visible_ends).
  rewrite trim_spaces.
  - change (" : " +:+ a) with (" " +:+ String ":" (" " +:+ a)). rewrite <-app_assoc_str.
    rewrite (split_once_char ":"%char (d +:+ " ")).
    + cbn [mbind option_bind]. rewrite trim_trailing, Hd by done. f_equal. apply (trim_spaces 1); [|done]. destruct a as [|c a]; [done|]. cbn in Hv. by apply andb_true_iff in Hv as [? _].
    + rewrite string_forallb_app, andb_true_iff. split; [|done]. eapply string_forallb_impl; [|exact Hd].
      intros c Hc. destruct (Ascii.eqb_spec ":"%char c) as [<-|]; done.
  - destruct d as [|c d']; [done|]. cbn in Hdv |- *. by apply andb_true_iff in Hdv as [? _].
  - apply ends_visible_app; [by apply visible_printable|]. by apply (ends_visible_app " : ").
Qed.

Lemma shown_entry_text i a : address a = true →
  string_forallb printable (shown_entry i a) = true ∧ string_forallb (λ c, negb (Ascii.eqb "N"%char c)) (shown_entry i a) = true.
Proof.
  intros (Hv & Hn & _)%address_spec. unfold shown_entry.
  assert (string_forallb is_dec_digit (fmt_u64 (Z.of_nat i)) = true) as Hd by (apply fmt_u64_digits; lia).
  cbn [spaces string_forallb]. rewrite !string_forallb_app. split.
  - by rewrite (visible_printable _ (digits_visible _ Hd)), (visible_printable _ Hv).
  - assert (string_forallb (λ c, negb (Ascii.eqb "N"%char c)) (fmt_u64 (Z.of_nat i)) = true) as ->; [|by rewrite Hn].
    eapply string_forallb_impl; [|exact Hd]. intros c Hc. destruct (Ascii.eqb_spec "N"%char c) as [<-|]; done.
Qed.

Lemma terminated_forallb f l :
  f (Ascii.ascii_of_nat 10) = true → Forall (λ s, string_forallb f s = true) l → string_forallb f (terminated l) = true.
Proof.
  intros Hf. induction 1 as [|s l Hs _ IH]; [done|].
  change (terminated (s :: l)) with (s +:+ nl +:+ terminated l). rewrite !string_forallb_app, Hs, IH. cbn. by rewrite Hf.
Qed.

Lemma entries_read l : Forall (λ a, address a = true) l → omap server_of (imap shown_entry l) = l.
Proof.
  intros Hl. assert (∀ k, omap server_of (imap (λ i, shown_entry (k + i)) l) = l) as H; [|exact (H O)].
  induction Hl as [|a l Ha _ IH]; intros k; [done|]. rewrite imap_cons. cbn [omap list_omap].
  rewrite server_of_entry by done. f_equal. rewrite <-(IH (S k)) at 2. f_equal. apply imap_ext.
  intros i x _. unfold compose. f_equal. lia.
Qed.

(** What is shown is read back. *)
Lemma shown_is_read l : Forall (λ a, address a = true) l →
  contains "No such key" (shown l) = false ∧ omap server_of (str_lines (shown l)) = l.
Proof.
  intros Hl. rewrite Forall_forall in Hl.
  assert (∀ s, s ∈ imap shown_entry l → ∃ i a, s = shown_entry i a ∧ address a = true) as Hmem.
  { intros s (i & a & -> & Hi)%elem_of_lookup_imap. exists i, a. split; [done|]. eapply Hl, list_elem_of_lookup_2, Hi. }
  split.
  - apply contains_without, terminated_forallb; [done|]. repeat (apply Forall_cons; split; [done|]).
    apply Forall_app. split; [|by repeat constructor]. apply Forall_forall.
    intros s (i & a & -> & Ha)%Hmem. by apply shown_entry_text.
  - unfold shown. rewrite lines_terminated.
    + assert (omap server_of ["<dictionary> {"; "  ServerAddresses : <array> {"] = []) as Hh by (vm_compute; reflexivity).
      assert (omap server_of ["  }"; "}"] = []) as Ht by (vm_compute; reflexivity).
      rewrite !omap_app, Hh, Ht, app_nil_r. by apply entries_read, Forall_forall.
    + repeat (apply Forall_cons; split; [done|]). apply Forall_app. split; [|by repeat constructor].
      apply Forall_forall. intros s (i & a & -> & Ha)%Hmem. by apply shown_entry_text.
Qed.

Context {SL : ScutilLaws}.

Lemma read_back_sees w :
  (∀ l, store_key w (md_store_key self) = Some l → Forall (λ a, address a = true) l) →
  (∃ out err, (scutil_process (show_script self) w).1 = Ok (true, out, err)) →
  ∃ w', read_back self w = (Ok (store_key w (md_store_key self)), w') ∧ ∀ k, store_key w' k = store_key w k.
Proof.
  intros Hl (out & err & E). pose proof (λ k, show_keeps w k) as Hk. pose proof (show_sees w out err E) as Hs.
  unfold read_back, bind_ok, scutil, bind, ret. destruct (scutil_process (show_script self) w) as [r w']. cbn in E, Hk.
  subst r. exists w'. split; [|exact Hk]. destruct (store_key w (md_store_key self)) as [l|].
  - subst out. destruct (shown_is_read l (Hl l eq_refl)) as [-> ->]. done.
  - by rewrite Hs.
Qed.

End macos.

(** * A dynamic store *)
Module demo_scutil.
Definition self : MacosDnsController := mkMacDns "State:/Network/Service/nyanpasu-dns/DNS".
Definition intent : DnsIntent := mkIntent ["127.0.0.1"; "fe80::1%en0"].
#[export] Instance toy_scutil : Scutil (gmap string (list string)) := {|
  scutil_process script w :=
    if String.eqb script (show_script self) then
      (Ok (true, match w !! md_store_key self with Some l => shown l | None => "  No such key" +:+ nl end, ""), w)
    else if String.eqb script (set_script self (di_servers intent)) then
      (Ok (true, "", ""), <[md_store_key self := di_servers intent]> w)
    else if String.eqb script (remove_script self) then (Ok (true, "", ""), delete (md_store_key self) w)
    else (Ok (false, "", "unknown"), w);
|}.
#[export] Instance toy_scutil_laws : ScutilLaws self intent.
Proof.
  refine {| store_key (w : gmap string (list string)) k := w !! k |}; cbn [scutil_process toy_scutil].
  - intros w k. by rewrite String.eqb_refl.
  - intros w out err. rewrite String.eqb_refl. cbn [fst]. intros [= <- <-]. by destruct (w !! _).
  - intros w out err w' E k. assert (w' = <[md_store_key self := di_servers intent]> w) as -> by (vm_compute in E; by injection E).
    case_decide; subst; [by rewrite lookup_insert_eq|by rewrite lookup_insert_ne].
  - intros w out err w' E k. assert (w' = delete (md_store_key self) w) as -> by (vm_compute in E; by injection E).
    case_decide; subst; [by rewrite lookup_delete_eq|by rewrite lookup_delete_ne].
Defined.
End demo_scutil.
Import demo_scutil.

