(* ===== verification/ApiTypes.v ===== *)
(** The answers of a controller (clash-api, the structures of api/proxies.rs,
    api/connections.rs, api/rules.rs, api/dns.rs and api/version.rs) and their JSON.

    The derives of serde are given by tables: a structure is the list of its fields
    in the order of the source, each with its name on the wire, what its absence
    means and its type, and whether it keeps the fields it does not know
    ([serde(flatten)]).  An enumeration with a variant for other names is its text;
    it is read from a string.  Times and identifiers are those of [chrono] and
    [uuid] ([TextLib]). *)
From S2P Require Import Prelude Text Metadata Types Wire ClashApi ClashStream.
From Stdlib Require Import ZArith Lia.

(** * Types *)

#[local] Set Warnings "-register-all".

(** A field must be there; may be absent and is then not written; may be absent and
    is then written as null; or is zero when it is absent, with its other names. *)
Inductive Absence := Req | Skip | Null | Zero (aliases : list string).

Inductive AType :=
| ABool
| AInt (lo hi : Z)
| AText
| ATime
| AUuid
| APort
| AOpen (names : list string)
| AVec (t : AType)
| AMap (t : AType)
| AStruct (fields : list (string * Absence * AType)) (flatten : bool).

Definition a_i64 : AType := AInt (-9223372036854775808) 9223372036854775807.
Definition a_u64 : AType := AInt 0 18446744073709551615.
Definition a_u32 : AType := AInt 0 4294967295.
Definition a_u16 : AType := AInt 0 65535.
Definition a_u8 : AType := AInt 0 255.
Definition fld (p : Absence) (name : string) (t : AType) : string * Absence * AType := (name, p, t).
Abbreviation req := (fld Req).
Abbreviation skip := (fld Skip).
Abbreviation null := (fld Null).

(** ** proxies.rs *)
Definition DelayHistory : AType := AStruct [req "time" ATime; req "delay" a_i64] false.
Definition ProxyExtra : AType := AStruct [req "alive" ABool; req "history" (AVec DelayHistory)] false.
Definition Proxy : AType := AStruct [
  req "name" AText; req "type" AText; req "history" (AVec DelayHistory); skip "extra" (AMap ProxyExtra);
  skip "alive" ABool; req "udp" ABool; skip "uot" ABool; skip "xudp" ABool; skip "tfo" ABool; skip "mptcp" ABool;
  skip "smux" ABool; skip "interface" AText; skip "routing-mark" a_i64; skip "provider-name" AText;
  skip "dialer-proxy" AText; null "id" AText; null "now" AText; null "all" (AVec AText); null "testUrl" AText;
  null "expectedStatus" AText; null "fixed" AText; null "hidden" ABool; null "icon" AText;
  null "emptyFallback" AText; null "provider" AText] false.
Definition ProviderType : AType := AOpen ["Proxy"; "Rule"].
Definition VehicleType : AType := AOpen ["File"; "HTTP"; "Compatible"; "Inline"].
Definition SubscriptionInfo : AType := AStruct [
  fld (Zero ["upload"]) "Upload" a_i64; fld (Zero ["download"]) "Download" a_i64;
  fld (Zero ["total"]) "Total" a_i64; fld (Zero ["expire"]) "Expire" a_i64] false.
Definition ProxyProvider : AType := AStruct [
  req "name" AText; req "type" ProviderType; req "vehicleType" VehicleType; req "proxies" (AVec Proxy);
  null "testUrl" AText; null "expectedStatus" AText; null "updatedAt" ATime;
  null "subscriptionInfo" SubscriptionInfo] false.
Definition Delay : AType := AStruct [req "delay" a_u16] false.
Definition ProxyMap : AType := AStruct [req "proxies" (AMap Proxy)] false.
Definition ProxyList : AType := AStruct [req "proxies" (AVec Proxy)] false.
Definition ProviderMap : AType := AStruct [req "providers" (AMap ProxyProvider)] false.

(** ** connections.rs *)
Definition ConnectionNetwork : AType := AOpen ["tcp"; "udp"; "all"; "invalid"].
Definition ConnectionType : AType := AOpen
  ["HTTP"; "HTTPS"; "Socks4"; "Socks5"; "ShadowSocks"; "Snell"; "Vmess"; "Vless"; "Redir"; "TProxy"; "Trojan"; "Tunnel";
   "Tun"; "Tuic"; "Hysteria2"; "AnyTLS"; "Mieru"; "Sudoku"; "TrustTunnel"; "ShadowQuic"; "Inner"; "Unknown"].
Definition DnsMode : AType := AOpen ["normal"; "fake-ip"; "redir-host"; "hosts"; "Unknown"].
Definition ConnectionMetadata : AType := AStruct [
  skip "network" ConnectionNetwork; skip "type" ConnectionType; skip "sourceIP" AText; skip "destinationIP" AText;
  skip "sourceGeoIP" (AVec AText); skip "destinationGeoIP" (AVec AText); skip "sourceIPASN" AText;
  skip "destinationIPASN" AText; skip "sourcePort" APort; skip "destinationPort" APort; skip "inboundIP" AText;
  skip "inboundPort" APort; skip "inboundName" AText; skip "inboundUser" AText; skip "rematchName" AText;
  skip "host" AText; skip "dnsMode" DnsMode; skip "uid" a_u32; skip "process" AText; skip "processPath" AText;
  skip "specialProxy" AText; skip "specialRules" AText; skip "remoteDestination" AText; skip "dscp" a_u8;
  skip "sniffHost" AText] true.
Definition Connection : AType := AStruct [
  req "id" AUuid; null "metadata" ConnectionMetadata; req "upload" a_i64; req "download" a_i64; req "start" ATime;
  req "chains" (AVec AText); skip "providerChains" (AVec AText); req "rule" AText; req "rulePayload" AText] true.
Definition ConnectionsSnapshot : AType := AStruct [
  req "downloadTotal" a_i64; req "uploadTotal" a_i64; null "connections" (AVec Connection); null "memory" a_u64] false.

(** ** rules.rs *)
Definition RuleExtra : AType := AStruct [
  req "disabled" ABool; req "hitCount" a_u64; req "hitAt" ATime; req "missCount" a_u64; req "missAt" ATime] false.
Definition Rule : AType := AStruct [
  skip "index" a_i64; req "type" AText; req "payload" AText; req "proxy" AText; skip "size" a_i64;
  null "extra" RuleExtra] false.
Definition RuleProviderBehavior : AType := AOpen ["Domain"; "IPCIDR"; "Classical"].
Definition RuleFormat : AType := AOpen ["YamlRule"; "TextRule"; "MrsRule"].
Definition RuleProvider : AType := AStruct [
  skip "behavior" RuleProviderBehavior; skip "format" RuleFormat; req "name" AText; skip "ruleCount" a_i64;
  skip "type" ProviderType; skip "vehicleType" VehicleType; skip "updatedAt" ATime; null "payload" (AVec AText)] false.
Definition RuleList : AType := AStruct [req "rules" (AVec Rule)] false.
Definition RuleProviderMap : AType := AStruct [req "providers" (AMap RuleProvider)] false.

(** ** dns.rs and version.rs *)
Definition DnsQuestion : AType := AStruct [req "Name" AText; req "Qtype" a_u16; req "Qclass" a_u16] false.
Definition DnsRecord : AType := AStruct [req "name" AText; req "type" a_u16; req "TTL" a_u32; req "data" AText] false.
Definition DnsResponse : AType := AStruct [
  req "Status" a_i64; req "Question" (AVec DnsQuestion); req "TC" ABool; req "RD" ABool; req "RA" ABool; req "AD" ABool;
  req "CD" ABool; null "Answer" (AVec DnsRecord); null "Authority" (AVec DnsRecord); null "Additional" (AVec DnsRecord)] false.
Definition Version : AType := AStruct [fld (Zero []) "meta" ABool; req "version" AText; null "premium" ABool] false.

(** What the operations answer with. *)
Definition answer_types : list AType :=
  [ProxyMap; ProxyList; ProviderMap; Proxy; ProxyProvider; Delay; ConnectionsSnapshot; RuleList; RuleProviderMap;
   DnsResponse; Version].

(** * Reading and writing *)

Class TextLib := {
  Time : Type;
  Uuid : Type;
  time_parse : string → option Time;
  time_display : Time → string;
  uuid_parse : string → option Uuid;
  uuid_display : Uuid → string;
}.

(** [IndexMap::insert]. *)
Fixpoint index_insert {A} (k : string) (v : A) (es : list (string * A)) : list (string * A) :=
  match es with
  | [] => [(k, v)]
  | (k', v') :: es' => if String.eqb k k' then (k', v) :: es' else (k', v') :: index_insert k v es'
  end.
Definition index_map {A} (es : list (string * A)) : list (string * A) :=
  foldl (λ m kv, index_insert kv.1 kv.2 m) [] es.

Section codec.
Context {TL : TextLib}.

Inductive AVal :=
| XBool (b : bool)
| XInt (z : Z)
| XText (s : string)
| XTime (t : Time)
| XUuid (u : Uuid)
| XVec (l : list AVal)
| XMap (es : list (string * AVal))
| XStruct (slots : list (option AVal)) (extra : list (string * Json)).

(** The names of a field, and the fields a structure does not know. *)
Definition names_of (f : string * Absence * AType) : list string :=
  f.1.1 :: match f.1.2 with Zero aliases => aliases | _ => [] end.
Definition known (fields : list (string * Absence * AType)) (k : string) : bool := bool_decide (k ∈ fields ≫= names_of).
Definition unknown_fields (fields : list (string * Absence * AType)) (o : Fields) : Fields :=
  filter (λ kv, known fields kv.1 = false) o.
(** No field is given twice, under whichever of its names. *)
Definition once (fields : list (string * Absence * AType)) (o : Fields) : bool :=
  forallb (λ f, (length (filter (λ kv, kv.1 ∈ names_of f) o) <=? 1)%nat) fields.

Definition zero_of (t : AType) : option AVal :=
  match t with ABool => Some (XBool false) | AInt _ _ => Some (XInt 0) | _ => None end.
Definition read_slot (read : Json → option AVal) (f : string * Absence * AType) (o : Fields) : option (option AVal) :=
  match f.1.2 with
  | Req => Some <$> (field f.1.1 o ≫= read)
  | Skip | Null => optional f.1.1 read o
  | Zero _ =>
      match List.find (λ kv, bool_decide (kv.1 ∈ names_of f)) o with
      | Some (_, j) => Some <$> read j
      | None => Some <$> zero_of f.2
      end
  end.

Fixpoint read_pairs (read : Json → option AVal) (o : Fields) : option (list (string * AVal)) :=
  match o with
  | [] => Some []
  | (k, j) :: o' => v ← read j; cons (k, v) <$> read_pairs read o'
  end.
Definition read_slots (read : AType → Json → option AVal) (o : Fields) :
    list (string * Absence * AType) → option (list (option AVal)) :=
  fix go fs :=
    match fs with
    | [] => Some []
    | f :: fs' => s ← read_slot (read f.2) f o; cons s <$> go fs'
    end.
Fixpoint read_answer (t : AType) (j : Json) {struct t} : option AVal :=
  match t with
  | ABool => XBool <$> read_bool j
  | AInt lo hi => match j with JInt z => if (lo <=? z)%Z && (z <=? hi)%Z then Some (XInt z) else None | _ => None end
  | AText | AOpen _ => XText <$> read_string j
  | ATime => s ← read_string j; XTime <$> time_parse s
  | AUuid => s ← read_string j; XUuid <$> uuid_parse s
  | APort => p ← read_port j; XInt <$> p
  | AVec t => match j with JArray l => XVec <$> mapM (read_answer t) l | _ => None end
  | AMap t => match j with JObject o => (λ es, XMap (index_map es)) <$> read_pairs (read_answer t) o | _ => None end
  | AStruct fields flatten =>
      match j with
      | JObject o =>
          if once fields o then
            slots ← read_slots read_answer o fields;
            Some (XStruct slots (if flatten then index_map (unknown_fields fields o) else []))
          else None
      | _ => None
      end
  end.

Definition write_slots (write : AType → AVal → Json) :
    list (string * Absence * AType) → list (option AVal) → Fields :=
  fix go fs ss :=
    match fs, ss with
    | f :: fs', Some v :: ss' => (f.1.1, write f.2 v) :: go fs' ss'
    | f :: fs', None :: ss' => match f.1.2 with Null => [(f.1.1, JNull)] | _ => [] end ++ go fs' ss'
    | _, _ => []
    end.
Fixpoint write_answer (t : AType) (v : AVal) {struct t} : Json :=
  match t, v with
  | ABool, XBool b => JBool b
  | AInt _ _, XInt z => JInt z
  | AText, XText s | AOpen _, XText s => JString s
  | ATime, XTime t => JString (time_display t)
  | AUuid, XUuid u => JString (uuid_display u)
  | APort, XInt z => write_port (Some z)
  | AVec t, XVec l => JArray (write_answer t <$> l)
  | AMap t, XMap es => JObject ((λ kv, (kv.1, write_answer t kv.2)) <$> es)
  | AStruct fields flatten, XStruct slots extra =>
      JObject (write_slots write_answer fields slots ++ (if flatten then extra else []))
  | _, _ => JNull
  end.
End codec.

(** * Arguments (dns.rs) *)

(** [DnsRecordType::new] and [DnsQuery::new]. *)
Definition dns_type_char (c : Ascii.ascii) : bool :=
  let b := Z.of_nat (Ascii.nat_of_ascii c) in
  ((65 <=? b) && (b <=? 90) || (48 <=? b) && (b <=? 57) || (b =? 45))%Z.
Definition dns_record_type_new (value : string) : result string ApiError :=
  if String.eqb value "" || negb (string_forallb dns_type_char value)
  then Err (InvalidArgument "type" "must be a case-sensitive miekg/dns record type") else Ok value.
Record DnsQuery := mkDnsQuery { dn_name : string; dn_record_type : string }.
Definition dns_query_new (name record_type : string) : result DnsQuery ApiError :=
  if String.eqb name "" then Err (InvalidArgument "name" "must not be empty") else Ok (mkDnsQuery name record_type).

(** [RulePatch] (rules.rs): a [BTreeMap] from the index of a rule. *)
Definition RulePatch : Type := list (Z * bool).
Fixpoint set_disabled (index : Z) (disabled : bool) (patch : RulePatch) : RulePatch :=
  match patch with
  | [] => [(index, disabled)]
  | (i, d) :: patch' =>
      if (index <? i)%Z then (index, disabled) :: patch
      else if (index =? i)%Z then (i, disabled) :: patch'
      else (i, d) :: set_disabled index disabled patch'
  end.
Definition write_rule_patch (patch : RulePatch) : Json := JObject ((λ '(i, d), (fmt_u64 i, JBool d)) <$> patch).
