(* ===== verification/ApiTypesProps.v ===== *)
(** The answers of a controller come through: every value of an answer type is read
    back from its JSON, fields a controller adds are ignored or kept, and fields
    another core leaves out are absent. *)
From S2P Require Import Prelude Text Metadata Types Wire Ipc IpcProps ClashApi ClashStream ApiTypes.
From Stdlib Require Import ZArith Lia.

Class TextLaws {TL : TextLib} := {
  time_roundtrip t : time_parse (time_display t) = Some t;
  uuid_roundtrip u : uuid_parse (uuid_display u) = Some u;
}.

(** ** Index maps *)
Lemma index_insert_new {A} k (v : A) es : k ∉ es.*1 → index_insert k v es = es ++ [(k, v)].
Proof.
  induction es as [|[k' v'] es IH]; [done|]. rewrite fmap_cons, not_elem_of_cons. intros [Hne Hk]. cbn in *.
  destruct (String.eqb_spec k k'); [done|]. by rewrite IH.
Qed.
Lemma index_map_nodup {A} (es : list (string * A)) : NoDup es.*1 → index_map es = es.
Proof.
  intros Hes. unfold index_map. assert (∀ acc, NoDup (acc ++ es).*1 → foldl (λ m kv, index_insert kv.1 kv.2 m) acc es = acc ++ es) as H.
  { clear Hes. induction es as [|[k v] es IH]; intros acc Hn; cbn [foldl]; [by rewrite app_nil_r|].
    rewrite index_insert_new.
    - rewrite IH; rewrite <-app_assoc; [done|exact Hn].
    - rewrite fmap_app, NoDup_app in Hn. destruct Hn as (_ & Hd & _). intros Hk. apply (Hd k Hk). cbn. left. }
  apply (H []), Hes.
Qed.

(** ** Fields *)
Lemma field_head k (o : Fields) : field k o = snd <$> head (filter (λ kv, kv.1 ∈ [k]) o).
Proof.
  induction o as [|[k' j] o IH]; [done|]. cbn [field]. rewrite filter_cons. destruct (String.eqb_spec k k') as [->|Hne].
  - by rewrite decide_True by (cbn; set_solver).
  - rewrite decide_False by (cbn; set_solver). exact IH.
Qed.
Lemma find_head {A} (P : A → Prop) `{∀ x, Decision (P x)} l : List.find (λ x, bool_decide (P x)) l = head (filter P l).
Proof.
  induction l as [|x l IH]; [done|]. cbn [List.find]. rewrite filter_cons. case_bool_decide.
  - by rewrite decide_True.
  - by rewrite decide_False.
Qed.

(** ** Values of a type *)
Section types.
Context {TL : TextLib}.

Definition slots_typed (ty : AType → AVal → Prop) : list (string * Absence * AType) → list (option AVal) → Prop :=
  fix go fs ss :=
    match fs, ss with
    | [], [] => True
    | f :: fs', s :: ss' => match s with Some v => ty f.2 v | None => f.1.2 = Skip ∨ f.1.2 = Null end ∧ go fs' ss'
    | _, _ => False
    end.
Fixpoint has_type (t : AType) (v : AVal) {struct t} : Prop :=
  match t, v with
  | ABool, XBool _ | AText, XText _ | AOpen _, XText _ | ATime, XTime _ | AUuid, XUuid _ => True
  | AInt lo hi, XInt z => (lo ≤ z ≤ hi)%Z
  | APort, XInt z => (0 ≤ z ≤ u16_max)%Z
  | AVec t, XVec l => Forall (has_type t) l
  | AMap t, XMap es => NoDup es.*1 ∧ Forall (λ kv, has_type t kv.2) es
  | AStruct fields flatten, XStruct slots extra =>
      slots_typed has_type fields slots ∧ NoDup extra.*1 ∧ Forall (λ kv, known fields kv.1 = false) extra
      ∧ (flatten = false → extra = [])
  | _, _ => False
  end.

(** The names of a structure are told apart. *)
Fixpoint wf_type (t : AType) : bool :=
  match t with
  | AVec t | AMap t => wf_type t
  | AStruct fields _ => bool_decide (NoDup (fields ≫= names_of)) && forallb (λ f, wf_type f.2) fields
  | _ => true
  end.

Lemma AType_nested_ind (P : AType → Prop) :
  P ABool → (∀ lo hi, P (AInt lo hi)) → P AText → P ATime → P AUuid → P APort → (∀ l, P (AOpen l)) →
  (∀ t, P t → P (AVec t)) → (∀ t, P t → P (AMap t)) →
  (∀ fields flatten, Forall (λ f, P f.2) fields → P (AStruct fields flatten)) → ∀ t, P t.
Proof.
  intros H1 H2 H3 H4 H5 H6 H7 H8 H9 H10. fix IH 1.
  intros [|lo hi| | | | |l|t|t|fields flatten]; [exact H1|exact (H2 lo hi)|exact H3|exact H4|exact H5|exact H6|exact (H7 l)
    |exact (H8 t (IH t))|exact (H9 t (IH t))|]. apply H10. induction fields as [|[n t] fields IHf]; constructor; [apply IH|exact IHf].
Qed.

(** A value of a type is not written as null. *)
Lemma write_not_null t v : has_type t v → write_answer t v ≠ JNull.
Proof. by destruct t, v. Qed.

(** ** Structures *)
Definition entry (f : string * Absence * AType) (s : option AVal) : Fields :=
  match s with
  | Some v => [(f.1.1, write_answer f.2 v)]
  | None => match f.1.2 with Null => [(f.1.1, JNull)] | _ => [] end
  end.
Lemma write_slots_cons f fs s ss : write_slots write_answer (f :: fs) (s :: ss) = entry f s ++ write_slots write_answer fs ss.
Proof. by destruct s. Qed.

Lemma entry_names f s kv : kv ∈ entry f s → kv.1 ∈ names_of f.
Proof.
  assert (f.1.1 ∈ names_of f) as Hf by (unfold names_of; left). unfold entry.
  destruct s; [|destruct f.1.2]; intros Hkv; try (by apply elem_of_nil in Hkv); by apply list_elem_of_singleton in Hkv as ->.
Qed.
Lemma filter_entry f s : filter (λ kv, kv.1 ∈ names_of f) (entry f s) = entry f s.
Proof.
  unfold entry. assert (f.1.1 ∈ names_of f) by (unfold names_of; left).
  destruct s; [|destruct f.1.2]; rewrite ?filter_cons, ?decide_True by done; done.
Qed.
Lemma filter_other f g s : (∀ k, k ∈ names_of g → k ∉ names_of f) → filter (λ kv, kv.1 ∈ names_of f) (entry g s) = [].
Proof.
  intros Hd. apply filter_none, Forall_forall. intros kv Hkv. apply Hd. by eapply entry_names.
Qed.

Lemma written_known fs ss kv : kv ∈ write_slots write_answer fs ss → known fs kv.1 = true.
Proof.
  revert ss. induction fs as [|f fs IH]; intros ss; [by rewrite elem_of_nil|].
  destruct ss as [|s ss]; [by rewrite elem_of_nil|]. rewrite write_slots_cons, elem_of_app. unfold known.
  rewrite bool_decide_eq_true, bind_cons, elem_of_app. intros [He|Hr]; [left; by eapply entry_names|right].
  apply IH in Hr. unfold known in Hr. by rewrite bool_decide_eq_true in Hr.
Qed.
Lemma filter_written_absent fs ss f :
  (∀ k, k ∈ names_of f → k ∉ fs ≫= names_of) → filter (λ kv, kv.1 ∈ names_of f) (write_slots write_answer fs ss) = [].
Proof.
  intros Hd. apply filter_none, Forall_forall. intros kv Hkv Hn. apply written_known in Hkv. unfold known in Hkv.
  rewrite bool_decide_eq_true in Hkv. by apply (Hd kv.1).
Qed.
Lemma filter_extra fs f (extra : Fields) :
  f ∈ fs → Forall (λ kv, known fs kv.1 = false) extra → filter (λ kv, kv.1 ∈ names_of f) extra = [].
Proof.
  intros Hf He. apply filter_none. eapply Forall_impl; [exact He|]. cbn. unfold known.
  intros kv Hk%bool_decide_eq_false Hn. apply Hk, list_elem_of_bind. by exists f.
Qed.

Lemma filter_written fs ss extra i f s :
  NoDup (fs ≫= names_of) → length fs = length ss → Forall (λ kv, known fs kv.1 = false) extra →
  fs !! i = Some f → ss !! i = Some s →
  filter (λ kv, kv.1 ∈ names_of f) (write_slots write_answer fs ss ++ extra) = entry f s.
Proof.
  intros Hn Hlen He Hf Hs. rewrite filter_app, (filter_extra fs f extra (list_elem_of_lookup_2 _ _ _ Hf) He).
  rewrite app_nil_r. clear He. revert ss i Hn Hlen Hf Hs. induction fs as [|g fs IH]; intros ss i Hn Hlen Hf Hs; [done|].
  destruct ss as [|u ss]; [done|]. rewrite bind_cons, NoDup_app in Hn. destruct Hn as (_ & Hd & Hn).
  rewrite write_slots_cons, filter_app. destruct i as [|i]; cbn in Hf, Hs.
  - injection Hf as ->. injection Hs as ->. by rewrite filter_entry, filter_written_absent, app_nil_r.
  - rewrite filter_other, (IH ss i); [done|done|by injection Hlen|done|done|].
    intros k Hk Hkf. apply (Hd k Hk), list_elem_of_bind. exists f. split; [done|]. by eapply list_elem_of_lookup_2.
Qed.

Lemma slots_typed_length ty fs ss : slots_typed ty fs ss → length fs = length ss.
Proof. revert ss. induction fs as [|f fs IH]; intros [|s ss]; try done. intros [_ H]. cbn. by rewrite (IH ss). Qed.
Lemma slots_typed_lookup ty fs ss i f s :
  slots_typed ty fs ss → fs !! i = Some f → ss !! i = Some s →
  match s with Some v => ty f.2 v | None => f.1.2 = Skip ∨ f.1.2 = Null end.
Proof.
  revert ss i. induction fs as [|g fs IH]; intros [|u ss] [|i] H Hf Hs; try done; destruct H as [Hu H].
  - injection Hf as ->. by injection Hs as ->.
  - by eapply IH.
Qed.

(** The slot of a field that was written alone. *)
Lemma read_slot_written f s o :
  filter (λ kv, kv.1 ∈ names_of f) o = entry f s →
  match s with Some v => has_type f.2 v | None => f.1.2 = Skip ∨ f.1.2 = Null end →
  (∀ v, has_type f.2 v → read_answer f.2 (write_answer f.2 v) = Some v) →
  read_slot (read_answer f.2) f o = Some s.
Proof.
  destruct f as [[k p] t]. cbn [fst snd]. intros Ho Hs Hr. unfold read_slot. cbn [fst snd].
  assert ((∀ aliases, p ≠ Zero aliases) → field k o = snd <$> head (entry (k, p, t) s)) as Hfield.
  { intros Hp. rewrite field_head, <-Ho. unfold names_of. cbn [fst snd]. destruct p as [| | |l]; [done..|by destruct (Hp l)]. }
  destruct p as [| | |aliases].
  - rewrite Hfield by done. destruct s as [v|]; [|by destruct Hs]. cbn. by rewrite Hr.
  - unfold optional. rewrite Hfield by done. destruct s as [v|]; [|done]. cbn.
    pose proof (write_not_null t v Hs) as Hn. rewrite Hr by done. by destruct (write_answer t v).
  - unfold optional. rewrite Hfield by done. destruct s as [v|]; [|done]. cbn.
    pose proof (write_not_null t v Hs) as Hn. rewrite Hr by done. by destruct (write_answer t v).
  - rewrite find_head, Ho. destruct s as [v|]; [|by destruct Hs]. cbn. by rewrite Hr.
Qed.

Lemma read_slots_written fs o ss :
  length fs = length ss → (∀ i f s, fs !! i = Some f → ss !! i = Some s → read_slot (read_answer f.2) f o = Some s) →
  read_slots read_answer o fs = Some ss.
Proof.
  revert ss. induction fs as [|f fs IH]; intros [|s ss] Hlen H; try done. cbn [read_slots].
  rewrite (H O f s eq_refl eq_refl). cbn [mbind option_bind].
  rewrite (IH ss); [done|by injection Hlen|]. intros i g u Hg Hu. by apply (H (S i)).
Qed.

Lemma mapM_written {A} (read : Json → option A) (write : A → Json) l :
  Forall (λ v, read (write v) = Some v) l → mapM read (write <$> l) = Some l.
Proof. induction 1 as [|v l Hv _ IH]; [done|]. cbn. by rewrite Hv; cbn; rewrite IH. Qed.
Lemma read_pairs_written t es :
  Forall (λ kv, read_answer t (write_answer t kv.2) = Some kv.2) es →
  read_pairs (read_answer t) ((λ kv, (kv.1, write_answer t kv.2)) <$> es) = Some es.
Proof. induction 1 as [|[k v] es Hv _ IH]; [done|]. cbn in *. by rewrite Hv; cbn; rewrite IH. Qed.

Context {TW : TextLaws}.

Lemma answer_roundtrip t : wf_type t = true → ∀ v, has_type t v → read_answer t (write_answer t v) = Some v.
Proof.
  induction t as [| | | | | | |t IH|t IH|fields flatten IH] using AType_nested_ind; intros Hwf v Hv; destruct v; try done; cbn in Hv.
  - cbn. by rewrite (proj2 (andb_true_iff _ _)) by (rewrite !Z.leb_le; lia).
  - cbn. by rewrite time_roundtrip.
  - cbn. by rewrite uuid_roundtrip.
  - cbn [write_answer read_answer]. by rewrite (port_roundtrip (Some z)).
  - cbn [write_answer read_answer]. rewrite mapM_written; [done|]. eapply Forall_impl; [exact Hv|]. intros v Ht. by apply IH.
  - destruct Hv as [Hn Hv]. cbn [write_answer read_answer]. rewrite read_pairs_written.
    + cbn. by rewrite index_map_nodup.
    + eapply Forall_impl; [exact Hv|]. intros kv Ht. by apply IH.
  - destruct Hv as (Hs & Hn & He & Hf). cbn [wf_type] in Hwf. apply andb_true_iff in Hwf as [Hnd Hsub].
    rewrite bool_decide_eq_true in Hnd. cbn [write_answer read_answer].
    assert ((if flatten then extra else []) = extra) as -> by (destruct flatten; [done|by rewrite Hf]).
    pose proof (slots_typed_length _ _ _ Hs) as Hlen.
    assert (∀ i f s, fields !! i = Some f → slots !! i = Some s →
      filter (λ kv, kv.1 ∈ names_of f) (write_slots write_answer fields slots ++ extra) = entry f s) as Hfil.
    { intros. by eapply filter_written. }
    assert (once fields (write_slots write_answer fields slots ++ extra) = true) as ->.
    { unfold once. apply forallb_forall. intros f Hin. rewrite <-list_elem_of_In in Hin.
      apply list_elem_of_lookup in Hin as [i Hi]. destruct (lookup_lt_is_Some_2 slots i) as [s Hsi].
      { rewrite <-Hlen. by eapply lookup_lt_Some. }
      rewrite (Hfil i f s Hi Hsi). unfold entry. by destruct s; [|destruct f.1.2]. }
    rewrite (read_slots_written _ _ slots); [|done|].
    + cbn [mbind option_bind]. do 2 f_equal. unfold unknown_fields. rewrite filter_app, filter_none, filter_all by
        (done || (apply Forall_forall; intros kv Hkv; apply written_known in Hkv; congruence)).
      rewrite app_nil_l, index_map_nodup by done. destruct flatten; [done|by rewrite Hf].
    + intros i f s Hi Hsi. apply read_slot_written; [by apply (Hfil i)|by eapply slots_typed_lookup|].
      intros v Hv. rewrite Forall_forall in IH. apply IH; [by eapply list_elem_of_lookup_2| |done].
      rewrite forallb_forall in Hsub. apply Hsub. rewrite <-list_elem_of_In. by eapply list_elem_of_lookup_2.
Qed.

(** A structure reads the fields it knows, whatever else is there. *)
Lemma unknown_fields_read fields o k j :
  known fields k = false →
  read_answer (AStruct fields false) (JObject (o ++ [(k, j)])) = read_answer (AStruct fields false) (JObject o).
Proof.
  intros Hk. unfold known in Hk. rewrite bool_decide_eq_false in Hk.
  assert (∀ f, f ∈ fields → filter (λ kv, kv.1 ∈ names_of f) (o ++ [(k, j)]) = filter (λ kv, kv.1 ∈ names_of f) o) as Hfil.
  { intros f Hf. rewrite filter_app, (filter_none _ [(k, j)]), app_nil_r; [done|]. repeat constructor. cbn. intros Hn. apply Hk, list_elem_of_bind. by exists f. }
  cbn [read_answer]. assert (once fields (o ++ [(k, j)]) = once fields o) as ->.
  { unfold once. apply Bool.eq_iff_eq_true. rewrite !forallb_forall. split; intros H f Hin; specialize (H f Hin);
      rewrite <-list_elem_of_In in Hin; by rewrite Hfil in *. }
  destruct (once fields o); [|done].
  assert (read_slots read_answer (o ++ [(k, j)]) fields = read_slots read_answer o fields) as ->; [|done].
  clear Hk. induction fields as [|[[n p] t] fields IH]; [done|]. cbn [read_slots].
  rewrite IH by (intros f Hf; apply Hfil; by right). cbn [snd].
  assert (read_slot (read_answer t) (n, p, t) (o ++ [(k, j)]) = read_slot (read_answer t) (n, p, t) o) as ->; [|done].
  assert (filter (λ kv, kv.1 ∈ names_of (n, p, t)) (o ++ [(k, j)]) = filter (λ kv, kv.1 ∈ names_of (n, p, t)) o) as H
    by (apply Hfil; left).
  unfold read_slot, optional. cbn [fst snd].
  destruct p as [| | |aliases];
    [..|by rewrite !(find_head (λ kv : string * Json, kv.1 ∈ names_of (n, Zero aliases, t))), H]; rewrite !field_head; unfold names_of in H; cbn [fst snd] in H; by rewrite H.
Qed.

End types.

Module demo_answers.
#[export] Instance toy_text : TextLib := {|
  Time := string; Uuid := string; time_parse := Some; time_display t := t; uuid_parse := Some; uuid_display u := u
|}.
#[export] Instance toy_text_laws : TextLaws := {| time_roundtrip _ := eq_refl; uuid_roundtrip _ := eq_refl |}.
(** Bytes that are their JSON. *)
#[export] Instance toy_json : JsonText Json := {| json_to_vec j := j; json_from_slice := Some; body_text _ := "" |}.
#[export] Instance toy_json_laws : JsonTextLaws Json := {| json_roundtrip _ := eq_refl |}.
(** A connection with a field of a later controller. *)
Definition connection : AVal :=
  XStruct [Some (XUuid "1"); None; Some (XInt 5); Some (XInt 7); Some (XTime "now"); Some (XVec [XText "DIRECT"]); None;
           Some (XText "Match"); Some (XText "")] [("hops", JInt 3)].
Definition snapshot : AVal := XStruct [Some (XInt 7); Some (XInt 5); Some (XVec [connection]); None] [].
End demo_answers.
Import demo_answers.

