(* ===== verification/ConfigCheck.v ===== *)
(** Checking a configuration (kind.rs, [check_config] and [run_check]): the core's
    own verdict, from one run of it with [-t] under a bound, and the cause that is
    reported when it refuses.  The process library is outside the repository: what
    running a command answers is a parameter. *)
From S2P Require Import Prelude Text Paths Metadata Types Log LogProps Instance InstanceRuns.
From Stdlib Require String Ascii.
From Stdlib Require Import ZArith Lia.

(** What one run of a command answers: its output and whether it succeeded, or an
    error of the process library, of which the source tells a timeout apart. *)
Record Output := mkOutput { out_success : bool; out_stdout : string; out_stderr : string }.
Inductive ProcessError := TimeoutError (after : Z) | OtherProcessError (message : string).

(** The command of a check: no directory is set and no pid is recorded. *)
Record CheckCommand := mkCheckCommand {
  cc_program : string;
  cc_args : list string;
  cc_env : list (string * string);
  cc_timeout : Z;
}.

Section check.
Context {PL : ProcessLib} {CH : Chrono}.
Context {W : Type} (output : CheckCommand → M W (result Output ProcessError)).
(** [{:?}] of a duration, and the clock as the lines of the output are read. *)
Context (duration_debug : Z → string) (now : nat → Observed).

Definition check_command (spec : InstanceSpec) (config_dir : string) (timeout : Z) : CheckCommand :=
  mkCheckCommand (cs_binary_path (is_core spec)) (check_args (core_paths spec))
    [(MIHOMO_SAFE_PATHS_ENV_NAME, mihomo_safe_paths (is_working_dir spec) config_dir);
     (CLICOLOR_FORCE_ENV_NAME, "0")]
    timeout.

(** The error of a run that did not end by itself. *)
Definition process_failure (e : ProcessError) : Error :=
  match e with
  | TimeoutError after => ConfigCheckFailed ("config check timed out after " +:+ duration_debug after)
  | OtherProcessError m => Process m
  end.

(** The verdict on an output. *)
Definition judge (kind : ClashCoreKind) (out : Output) : run (result unit Error) :=
  if out_success out then Val (Ok ())
  else run_bind (summarize_output kind (mkCaptured (out_stdout out) (out_stderr out)) now)
         (λ cause, Val (Err (ConfigCheckFailed cause))).

(** [run_check] and [check_config]. *)
Definition run_check (spec : InstanceSpec) (timeout : Z) : M W (run (result unit Error)) :=
  match parent (is_config_path spec) with
  | None => ret (Val (Err (ConfigNotFound (is_config_path spec))))
  | Some config_dir =>
      r <- output (check_command spec config_dir timeout) ;;
      ret match r with
          | Err e => Val (Err (process_failure e))
          | Ok out => judge (cs_kind (is_core spec)) out
          end
  end.
Definition check_config (spec : InstanceSpec) : M W (run (result unit Error)) := run_check spec CHECK_CONFIG_TIMEOUT.

(** ** The lines of an ASCII text *)
Lemma drop_cr_forallb f s : string_forallb f s = true → string_forallb f (drop_cr s) = true.
Proof.
  intros Hs. unfold drop_cr. destruct (strip_suffix _ s) as [l|] eqn:E; [|done].
  apply strip_suffix_Some in E as ->. rewrite string_forallb_app in Hs. by apply andb_true_iff in Hs as [? _].
Qed.

Lemma lines_fuel_forallb f fuel s :
  string_forallb f s = true → Forall (λ l, string_forallb f l = true) (lines_fuel fuel s).
Proof.
  revert s. induction fuel as [|fuel IH]; intros s Hs; cbn [lines_fuel]; [constructor|].
  destruct (String.eqb s ""); [constructor|]. destruct (split_once nl s) as [[a b]|] eqn:E; [|by constructor].
  apply split_once_Some in E. rewrite E, !string_forallb_app in Hs. apply andb_true_iff in Hs as [Ha Hb].
  apply andb_true_iff in Hb as [_ Hb]. constructor; [by apply drop_cr_forallb|by apply IH].
Qed.

(** The output of a run the parser of the core's log survives. *)
Definition tame_output (kind : ClashCoreKind) (out : Output) : Prop :=
  kind ≠ ClashRust ∨ is_ascii (out_stdout out) = true ∧ is_ascii (out_stderr out) = true.

Lemma summarize_total kind out :
  tame_output kind out → ∃ cause, summarize_output kind (mkCaptured (out_stdout out) (out_stderr out)) now = Val cause.
Proof.
  intros Ht. unfold summarize_output. cbn [co_stdout co_stderr].
  match goal with |- context [feed ?p ?input] => destruct (feed_total input p) as (f & p' & ->) end.
  - destruct Ht as [Hk|[Ho He]]; [by left|right]. apply Forall_lookup. intros i x Hx.
    rewrite list_lookup_imap in Hx. apply fmap_Some in Hx as ([s l] & Hl & ->). cbn.
    apply list_elem_of_lookup_2 in Hl. apply elem_of_app in Hl as [Hl|Hl];
      apply list_elem_of_fmap in Hl as (l' & [= -> ->] & Hl);
      (eapply Forall_forall in Hl; [exact Hl|by apply lines_fuel_forallb]).
  - cbn. by eexists.
Qed.

Lemma judge_total kind out :
  tame_output kind out → ∃ v, judge kind out = Val v
    ∧ (v = Ok () ↔ out_success out = true) ∧ ∀ e, v = Err e → error_kind e = Some CoreErrorKind.ConfigCheckFailed.
Proof.
  intros Ht. unfold judge. destruct (out_success out); [by exists (Ok ())|].
  destruct (summarize_total kind out Ht) as [cause ->]. exists (Err (ConfigCheckFailed cause)).
  split_and!; [done..|]. by intros e [= <-].
Qed.

(** A check answers, and accepts a configuration exactly when the core ran on it to
    a successful end.  A core that refuses and one that exceeds the bound are both
    reported as a failed check; any other error says that the core was not run, and
    without a directory to run in nothing was. *)
Theorem check_config_verdict (spec : InstanceSpec) (w : W)
    (Htame : ∀ dir out w', output (check_command spec dir CHECK_CONFIG_TIMEOUT) w = (Ok out, w') →
       tame_output (cs_kind (is_core spec)) out) :
  ∃ v w', check_config spec w = (Val v, w')
    ∧ (v = Ok () ↔ ∃ dir out, parent (is_config_path spec) = Some dir
         ∧ output (check_command spec dir CHECK_CONFIG_TIMEOUT) w = (Ok out, w') ∧ out_success out = true)
    ∧ ∀ e, v = Err e →
        error_kind e = Some CoreErrorKind.ConfigCheckFailed
        ∨ (∃ dir m, output (check_command spec dir CHECK_CONFIG_TIMEOUT) w = (Err (OtherProcessError m), w') ∧ e = Process m)
        ∨ (parent (is_config_path spec) = None ∧ e = ConfigNotFound (is_config_path spec) ∧ w' = w).
Proof.
  unfold check_config, run_check. destruct (parent (is_config_path spec)) as [dir|]; cycle 1.
  { do 2 eexists. split_and!; [done| |intros e [= <-]; auto]. split; [done|]. by intros (? & ? & ? & _). }
  unfold bind. destruct (output _ w) as [[out|err] w'] eqn:E.
  - destruct (judge_total _ _ (Htame _ _ _ E)) as (v & Ev & Hok & Herr). exists v, w'. unfold ret. rewrite Ev.
    split_and!; [done| |by auto]. rewrite Hok. split; [by eauto|]. intros (d & o & [= <-] & E' & Ho).
    rewrite E in E'. by injection E' as ->.
  - eexists _, w'. split_and!; [done| |intros e [= <-]; destruct err; [by left|right; left; eauto]].
    split; [done|]. intros (d & o & [= <-] & E' & _). by rewrite E in E'.
Qed.

(** The core is checked as it will be run: the same program, in an environment that
    the launch only adds to. *)
Lemma check_runs_the_core spec dir t epoch controller sddl :
  parent (is_config_path spec) = Some dir →
  cc_program (check_command spec dir t) = cmd_program (build_command spec epoch controller sddl)
  ∧ cc_env (check_command spec dir t) `prefix_of` cmd_env (build_command spec epoch controller sddl).
Proof. intros Hp. unfold build_command. rewrite Hp. split; [done|]. by eexists. Qed.
End check.

(** * A core that refuses *)
#[local] Existing Instance calendar.

Definition demo_refusal : Output := mkOutput false "" ("time=x level=error msg=bad" +:+ nl).
Definition demo_output (c : CheckCommand) : M unit (result Output ProcessError) := ret (Ok demo_refusal).
Definition demo_check : M unit (run (result unit Error)) :=
  check_config demo_output (λ _, "30s") (λ _, noon) demo_spec.

(** The cause is the message of the line the core printed. *)
Lemma refusal_names_the_cause : (demo_check ()).1 = Val (Err (ConfigCheckFailed "bad")).
Proof. vm_compute. reflexivity. Qed.

Lemma check_config_verdict_witness :
  ∃ v w', demo_check () = (Val v, w') ∧ v ≠ Ok ().
Proof.
  destruct (check_config_verdict demo_output (λ _, "30s") (λ _, noon) demo_spec ()) as (v & w' & E & Hok & _).
  { intros dir out w' [= <- _]. by right. }
  exists v, w'. split; [exact E|]. intros (dir & out & _ & [= <- _] & H)%Hok. done.
Defined.
