(* ===== verification/HostTools.v ===== *)
(** The programs of the host the service runs (utils/os/user.rs and the [macos]
    module of utils/service.rs): the tools of the user database, [launchctl], and
    how their outputs are read.  A program that cannot be run is a panic where the
    source says [expect], and an error elsewhere.  [Commands] takes the answers of
    these functions as its host. *)
From S2P Require Import Prelude Text TextLines Metadata Types Capability Log Commands.
From Stdlib Require String Ascii.
From Stdlib Require Import ZArith Lia.

(** [std::process::Output]; the texts are what [from_utf8_lossy] makes of the
    bytes, and [ho_status] is the status as it is shown. *)
Record HostOutput := mkHostOutput { ho_success : bool; ho_status : string; ho_stdout : string; ho_stderr : string }.

(** [Command::new(program).args(args).output()]. *)
Class HostCommands (W : Type) := exec : string → list string → M W (result HostOutput string).

Section tools.
Context {W : Type} {HC : HostCommands W}.

(** A program that has to be there. *)
Definition expect_output {A} (program : string) (args : list string) (read : HostOutput → A) : M W (run A) :=
  r <- exec program args ;; ret match r with Ok out => Val (read out) | Err _ => Panic end.

(** Success, or a message. *)
Definition or_bail (message : string) (out : HostOutput) : result unit string :=
  if ho_success out then Ok () else Err message.

(** * utils/os/user.rs *)

Definition is_nyanpasu_group_exists (p : Platform) : M W (run bool) :=
  match p with
  | Linux => expect_output "getent" ["group"; NYANPASU_USER_GROUP] ho_success
  | MacOS => expect_output "dseditgroup" ["-o"; "read"; NYANPASU_USER_GROUP] ho_success
  end.

Definition create_nyanpasu_group (p : Platform) : M W (run (result unit string)) :=
  let bail := or_bail "failed to create nyanpasu group" in
  match p with
  | Linux => expect_output "groupadd" [NYANPASU_USER_GROUP] bail
  | MacOS => expect_output "dseditgroup" ["-o"; "create"; NYANPASU_USER_GROUP] bail
  end.

(** [is_user_in_nyanpasu_group]; on Linux the status of [id] is not looked at. *)
Definition user_in_nyanpasu_group (p : Platform) (username : string) : M W (run bool) :=
  match p with
  | Linux => expect_output "id" ["-nG"; username] (λ out, contains NYANPASU_USER_GROUP (ho_stdout out))
  | MacOS =>
      expect_output "dseditgroup" ["-o"; "read"; NYANPASU_USER_GROUP]
        (λ out, if ho_success out then contains username (ho_stdout out) else false)
  end.

Definition add_user_to_nyanpasu_group (p : Platform) (username : string) : M W (run (result unit string)) :=
  let bail := or_bail "failed to add user to nyanpasu group" in
  match p with
  | Linux => expect_output "usermod" ["-aG"; NYANPASU_USER_GROUP; username] bail
  | MacOS => expect_output "dseditgroup" ["-o"; "edit"; "-a"; username; "-t"; "user"; NYANPASU_USER_GROUP] bail
  end.

(** The step of [install] that uses them: what is there is not made again, and an
    error or a panic ends it. *)
Definition unless (there : M W (run bool)) (make : M W (run (result unit string))) : M W (run (result unit string)) :=
  r <- there ;;
  match r with
  | Panic => ret Panic
  | Val true => ret (Val (Ok ()))
  | Val false => make
  end.
Definition ensure_member (p : Platform) (user : string) : M W (run (result unit string)) :=
  r <- unless (is_nyanpasu_group_exists p) (create_nyanpasu_group p) ;;
  match r with
  | Val (Ok _) => unless (user_in_nyanpasu_group p user) (add_user_to_nyanpasu_group p user)
  | _ => ret r
  end.

(** * utils/service.rs *)

Definition LAUNCHCTL : string := "launchctl".
Definition LAUNCHD_SYSTEM_DOMAIN : string := "system".
Definition plist_path (label : string) : string := "/Library/LaunchDaemons/" +:+ label +:+ ".plist".
Definition bootout_args (label : string) : list string := ["bootout"; LAUNCHD_SYSTEM_DOMAIN +:+ "/" +:+ label].
Definition bootstrap_args (label : string) : list string := ["bootstrap"; LAUNCHD_SYSTEM_DOMAIN; plist_path label].

(** [run]. *)
Definition launchctl_run (args : list string) : M W (result unit string) :=
  output <-? exec LAUNCHCTL args ;;
  ret (if ho_success output then Ok ()
       else Err (LAUNCHCTL +:+ " " +:+ join " " args +:+ " failed with status " +:+ ho_status output +:+ ": "
                 +:+ str_trim (ho_stderr output) +:+ str_trim (ho_stdout output))).

(** [bootout] and [bootstrap]: [stop] and [start] on macOS, where the service
    manager is not asked. *)
Definition bootout (label : string) : M W (result unit string) := launchctl_run (bootout_args label).
Definition bootstrap (label : string) : M W (result unit string) := launchctl_run (bootstrap_args label).
Definition svc_start (p : Platform) (manager_start : string → M W (result unit string)) (label : string) :
    M W (result unit string) :=
  match p with MacOS => bootstrap label | Linux => manager_start label end.
Definition svc_stop (p : Platform) (manager_stop : string → M W (result unit string)) (label : string) :
    M W (result unit string) :=
  match p with MacOS => bootout label | Linux => manager_stop label end.
End tools.

(** * A name in a list of names *)

Definition without (c : Ascii.ascii) (s : string) : Prop := string_forallb (λ d, negb (Ascii.eqb c d)) s = true.

Lemma strip_prefix_before c p a b :
  without c p → is_Some (strip_prefix p (a +:+ String c b)) → is_Some (strip_prefix p a).
Proof.
  unfold without. revert a. induction p as [|d p IH]; intros a Hp; [by destruct a|].
  cbn [string_forallb] in Hp. apply andb_true_iff in Hp as [Hd Hp]. destruct a as [|e a].
  - change ("" +:+ String c b) with (String c b). cbn [strip_prefix]. rewrite Ascii.eqb_sym in Hd.
    destruct (Ascii.eqb d c); [done|]. by intros [? ?].
  - rewrite app_cons_str. cbn [strip_prefix]. destruct (Ascii.eqb d e); [|done]. by apply IH.
Qed.

Lemma contains_cons p c s : contains p (String c s) = starts_with p (String c s) || contains p s.
Proof.
  unfold contains, starts_with. cbn [split_once]. destruct (strip_prefix p (String c s)) as [r|]; [done|].
  cbn [orb]. destruct (split_once p s) as [[]|]; done.
Qed.

(** A pattern without the separator is on one side of it. *)
Lemma contains_sides c p a b : without c p → contains p (a +:+ String c b) = true → contains p a = true ∨ contains p b = true.
Proof.
  intros Hp. induction a as [|d a IH].
  - change ("" +:+ String c b) with (String c b). rewrite contains_cons, orb_true_iff. intros [H|H]; [left|by right].
    unfold starts_with in H. apply bool_decide_eq_true in H. apply (strip_prefix_before c p "" b Hp) in H.
    unfold contains. apply bool_decide_eq_true. cbn [split_once]. destruct H as [r ->]. by eexists.
  - rewrite app_cons_str, !contains_cons, !orb_true_iff. intros [H|H]; [left; left|].
    + unfold starts_with in *. apply bool_decide_eq_true. apply bool_decide_eq_true in H.
      by apply (strip_prefix_before c p (String d a) b Hp).
    + destruct (IH H); auto.
Qed.

Lemma contains_middle x p y : contains p (x +:+ p +:+ y) = true.
Proof.
  induction x as [|c x IH]; [|rewrite app_cons_str, contains_cons, IH; apply orb_true_r].
  change ("" +:+ (p +:+ y)) with (p +:+ y). unfold contains. apply bool_decide_eq_true.
  assert (strip_prefix p (p +:+ y) = Some y) as E by apply strip_prefix_app.
  destruct (p +:+ y) as [|c s]; cbn [split_once]; rewrite E; by eexists.
Qed.

Definition space : Ascii.ascii := Ascii.ascii_of_nat 32.

(** A list of names contains a pattern without spaces exactly when a name does. *)
Lemma contains_names p l :
  without space p → p ≠ "" → contains p (join " " l) = true → ∃ g, g ∈ l ∧ contains p g = true.
Proof.
  intros Hp Hne. induction l as [|s [|t l] IH].
  - by destruct p.
  - intros H. exists s. split; [by left|done].
  - change (join " " (s :: t :: l)) with (s +:+ String space (join " " (t :: l))).
    intros [H|H]%contains_sides; [by exists s; split; [left|]| |done].
    destruct (IH H) as (g & Hg & ?). exists g. split; [by right|done].
Qed.

Lemma app_nil_str s : s +:+ "" = s.
Proof. induction s as [|c s IH]; [done|]. by rewrite app_cons_str, IH. Qed.

Lemma names_contain g l : g ∈ l → ∃ x y, join " " l = x +:+ g +:+ y.
Proof.
  induction l as [|s [|t l] IH]; [by intros []%elem_of_nil| |].
  - intros ->%list_elem_of_singleton. exists "", "". change (s = s +:+ ""). by rewrite app_nil_str.
  - change (join " " (s :: t :: l)) with (s +:+ " " +:+ join " " (t :: l)).
    intros [->|H]%elem_of_cons; [by exists "", (" " +:+ join " " (t :: l))|].
    destruct (IH H) as (x & y & ->). exists (s +:+ " " +:+ x), y. by rewrite !app_assoc_str.
Qed.

(** * What the tools promise *)

(** The user database of Linux, by the manuals of [id], [getent], [groupadd] and
    [usermod]: the groups of a user are listed on one line, looking and adding a
    group change no user's, and a user who was added is in. *)
Class UserDatabase (W : Type) {HC : HostCommands W} := {
  groups_of : W → string → list string;
  id_lists u w out w' : exec "id" ["-nG"; u] w = (Ok out, w') →
    w' = w ∧ ho_stdout out = if ho_success out then join " " (groups_of w u) +:+ nl else "";
  getent_keeps args w u : groups_of (exec "getent" args w).2 u = groups_of w u;
  groupadd_keeps args w u : groups_of (exec "groupadd" args w).2 u = groups_of w u;
  usermod_adds g u w out w' : exec "usermod" ["-aG"; g; u] w = (Ok out, w') → ho_success out = true → g ∈ groups_of w' u;
}.

Section users.
Context {W : Type} {HC : HostCommands W} {UD : UserDatabase W}.

Lemma group_text : without space NYANPASU_USER_GROUP ∧ without (Ascii.ascii_of_nat 10) NYANPASU_USER_GROUP ∧ NYANPASU_USER_GROUP ≠ "".
Proof. done. Qed.

(** What the test of membership says of a user's groups. *)
Lemma user_in_group_spec u w b w' :
  user_in_nyanpasu_group Linux u w = (Val b, w') →
  w' = w
  ∧ (b = true → ∃ g, g ∈ groups_of w u ∧ contains NYANPASU_USER_GROUP g = true).
Proof.
  destruct group_text as (Hs & Hn & Hne). unfold user_in_nyanpasu_group, expect_output, bind.
  destruct (exec "id" ["-nG"; u] w) as [[out|e] w1] eqn:E; [|done]. intros [= <- <-].
  destruct (id_lists _ _ _ _ E) as [-> ->]. split; [done|]. destruct (ho_success out); [|done].
  change nl with (String (Ascii.ascii_of_nat 10) ""). intros [H|H]%contains_sides; [by apply contains_names|done..].
Qed.

(** A member is seen. *)
Lemma member_is_seen u w out w1 :
  exec "id" ["-nG"; u] w = (Ok out, w1) → ho_success out = true → NYANPASU_USER_GROUP ∈ groups_of w u →
  user_in_nyanpasu_group Linux u w = (Val true, w).
Proof.
  intros E Hok (x & y & Hj)%names_contain. unfold user_in_nyanpasu_group, expect_output, bind. rewrite E.
  destruct (id_lists _ _ _ _ E) as [-> ->]. rewrite Hok, Hj, !app_assoc_str. unfold ret. by rewrite contains_middle.
Qed.

Lemma group_step_keeps w r w' u :
  unless (is_nyanpasu_group_exists Linux) (create_nyanpasu_group Linux) w = (r, w') → groups_of w' u = groups_of w u.
Proof.
  unfold unless, is_nyanpasu_group_exists, create_nyanpasu_group, expect_output, bind.
  pose proof (getent_keeps ["group"; NYANPASU_USER_GROUP] w u) as Hg.
  destruct (exec "getent" _ w) as [[out|e] w1]; cbn in *; [|by intros [= <- <-]].
  destruct (ho_success out); [by intros [= <- <-]|].
  pose proof (groupadd_keeps [NYANPASU_USER_GROUP] w1 u) as Ha.
  destruct (exec "groupadd" _ w1) as [o w2]; cbn in *. intros [= _ <-]. congruence.
Qed.

(** A user for whom [install] passed this step is in the group that may open the
    socket, provided that no group of theirs only has the group's name inside its
    own ([group_of_another_name] shows what happens then). *)
Theorem membership_is_ensured (u : string) (w w' : W)
    (Hnames : ∀ g, g ∈ groups_of w u → contains NYANPASU_USER_GROUP g = true → g = NYANPASU_USER_GROUP)
    (Hrun : ensure_member Linux u w = (Val (Ok ()), w')) :
  NYANPASU_USER_GROUP ∈ groups_of w' u.
Proof.
  unfold ensure_member, bind in Hrun. destruct (unless _ _ w) as [r w1] eqn:E1.
  apply (group_step_keeps _ _ _ u) in E1. rewrite <-E1 in Hnames. destruct r as [[[]|e]|]; [|done..].
  unfold unless, bind in Hrun. destruct (user_in_nyanpasu_group Linux u w1) as [[b|] w2] eqn:E2; [|done].
  destruct (user_in_group_spec _ _ _ _ E2) as [-> Hb]. destruct b.
  - injection Hrun as <-. destruct (Hb eq_refl) as (g & Hg & Hc). by rewrite <-(Hnames g Hg Hc).
  - unfold add_user_to_nyanpasu_group, expect_output, bind in Hrun.
    destruct (exec "usermod" _ w1) as [[out|e] w3] eqn:E3; [|done]. unfold ret, or_bail in Hrun.
    destruct (ho_success out) eqn:Ho; [|done]. injection Hrun as <-. by eapply usermod_adds.
Qed.
End users.

(** * A database of one user *)
Module demo_users.
Record Db := mkDb { db_group : bool; db_groups : list string }.
Definition said (ok : bool) (text : string) : result HostOutput string := Ok (mkHostOutput ok "exit status" text "").

#[export] Instance db_commands : HostCommands Db := λ program args w,
  if String.eqb program "getent" then (said (db_group w) "", w)
  else if String.eqb program "groupadd" then (said (negb (db_group w)) "", mkDb true (db_groups w))
  else if String.eqb program "id" then (said true (join " " (db_groups w) +:+ nl), w)
  else if String.eqb program "usermod" then
    match args with
    | ["-aG"%string; g; _] => (said (db_group w) "", if db_group w then mkDb true (db_groups w ++ [g]) else w)
    | _ => (said false "", w)
    end
  else (Err "not found", w).

#[export] Instance db_laws : UserDatabase Db.
Proof.
  refine {| groups_of w _ := db_groups w |}; try done.
  - by intros u w out w' [= <- <-].
  - intros g u [grp gs] out w'. cbn. intros [= <- <-]. cbn. intros ->. cbn. set_solver.
Defined.

Definition db : Db := mkDb false ["users"; "wheel"].
End demo_users.

Import demo_users.

Lemma membership_is_ensured_witness : NYANPASU_USER_GROUP ∈ groups_of (ensure_member Linux "alice" db).2 "alice".
Proof.
  apply (membership_is_ensured "alice" db); [|by vm_compute].
  intros g Hg Hc. exfalso. revert g Hg Hc. apply (Forall_forall (λ g, contains NYANPASU_USER_GROUP g = true → False)).
  repeat constructor; by vm_compute.
Defined.
